(* ===== verification/_CoqProject ===== *)
-Q . S2P
Prelude.v
Text.v
Reader.v
Vector.v
Block.v
BTree.v
Posix.v
WbCache.v
Backend.v
Crypto.v
Header.v
Wal.v
Freelist.v
Alloc.v
AllocInv.v
Unit.v
WriterSet.v
Commit.v
Attr.v
Inode.v
Retention.v
Trie.v
Records.v
NodeHeap.v
TrieMap.v
TrieScan.v
Catalog.v
Engine.v
Store.v
StoreView.v
Content.v
WalPath.v
History.v
Reopen.v
Mount.v
EngineInv.v
ContentHeap.v
ContentPlace.v
ContentInv.v
ContentWrite.v
ContentRechunk.v
ContentOps.v
EngineProps.v
ContentProps.v
ReopenProps.v
MountProps.v
