(* ===== verification/Prelude.v ===== *)
(** * A verification development for sfs

    sfs is an encrypted, versioned object container. A container is a byte
    store ([Backend]) with two header slots at its start, a forward area of
    catalog nodes and unit data, an eviction tail of superseded fragments
    anchored at its end, and optionally a write-ahead log above the tail. The
    engine writes fragments, unit records and catalog nodes copy-on-write into
    blocks of the allocator and publishes them by committing a header; readers
    start at the header and follow the catalogs. Replicas order versions by
    version vectors and dots. The mount serves the files of a container to the
    kernel through inodes, open handles with a write-back cache, and batched
    commits. This library translates crates/sfs-core/src and the core of
    crates/sfs-mount/src into executable definitions and proves what the parts
    promise to each other and what the whole promises to its user.

    ** Files

    Foundations:
    - [Prelude]: machine integers, the result type [res] (value, error of
      lib.rs, or [Panic]), the state monad [St], buffers and cursors, the
      development's tactics and hint databases.
    - [Text]: UTF-8 and the ordered map of strings of the standard library;
      [BTree]: its ordered map of integers.
    - [Reader]: field readers over a buffer with an offset, and the three
      judgements [reads], [yields] and [safe] by which every record decoder is
      proved.
    - [Posix]: [pwrite], [pread] and [ftruncate] on byte strings, the reference
      for files.

    Formats and components of crates/sfs-core/src:
    - [Vector] (version/vector.rs): [VersionVector] and [PeerRegistry];
      [Block] (block.rs): dots, fragment sizes, splitting.
    - [Backend] (container/backend.rs): the in-memory store.
    - [Crypto] (crypto/): classes for the primitives, the cipher suites, the
      batched XTS routine, the registry and negotiation.
    - [Header] (container/header.rs): wire format, slots, load, commit, salt
      peek. [Wal] (wal.rs): log records and the replay scan.
    - [Freelist], [Alloc] (container/alloc.rs, container/segment.rs): the free
      list of a region and the allocator. [AllocInv]: its invariant, the step
      relation of its calls and the theorems over histories.
    - [Unit] (unit.rs), [Commit] (commit.rs), [WriterSet]
      (version/writerset.rs): records, signing payloads, commit bitmaps and
      the signed set of writers.
    - [Retention] (retention.rs, [EvictedBlock] of version/store.rs): evicted
      blocks, tail scan, strategies.
    - [Trie] (catalog/trie.rs): node blocks with their backup copy, the
      copy-on-write trie and the catalogs. [NodeHeap]: the store and the
      allocator seen as a heap of nodes. [TrieMap]: the tree below a root, the
      map it denotes, and what lookups, insertions and removals do to it.
      [TrieScan]: the traversals and their order. [Catalog]: the theorems.

    The engine (version/store.rs), one file per group of operations:
    - [Records] (with version/verify_trailer.rs): head records on disk, signed
      and verified.
    - [Engine]: creation of containers, operations on paths, transactions,
      batches, publication, the record cache. [Store]: reads, summaries and
      directory listings. [Content]: creation of units, [write], [truncate],
      [extend] and the metadata stream. [WalPath]: [write_async], checkpoints
      and replay. [History]: commits, checkouts and eviction. [Reopen]: opening
      an image.
    - [EngineInv]: the invariant that relates an engine, its allocator and
      its store to the published and the current maps, and the contract of
      each operation under it. [EngineProps]: the theorems on names.
    - [StoreView]: what reads of stored fragments return. [ContentHeap],
      [ContentPlace], [ContentInv]: the blocks that fragments and records own
      ([Claims]) and the invariant [files] by which a store holds a map from
      units to contents. [ContentWrite], [ContentRechunk], [ContentOps]: the
      contract of each operation on contents. [ContentProps], [ReopenProps]:
      the theorems on sessions and on what survives them.

    The mount (crates/sfs-mount/src):
    - [WbCache] (wbcache.rs): the write-back cache, its invariant and the file
      it shows. [Attr] (attr.rs), [Inode] (inode.rs): attributes and inode
      numbers. [Mount] (adapter.rs): the adapter. [MountProps]: sessions on an
      open handle, over the contracts of [ContentOps].

    ** Conventions

    A w-bit integer is a [Z] with its range as a predicate ([u8] to [u64],
    [i64]); wrap-around and saturation are written out. Arithmetic overflow, a
    failed [debug_assert!], an index out of range and a failed [unwrap] are the
    outcome [Panic], as in the debug profile, so that a theorem that excludes
    [Panic] shows their absence. Mutable state is passed explicitly or through
    [St], which keeps the state on an error as Rust does. Byte strings are
    lists of bytes. Error messages are kept without their formatted values.
    Third-party packages are classes with the laws their documentation states:
    [Crc32], [Hkdf], [Hmac], [Aes], [AesGcm], [Ed25519], the entropy sources
    [Entropy] and [UuidSource], and the iteration order of a hash map
    [HashOrder]; the module [Crypto.Concrete] and the last sections of the
    files with theorems have concrete instances, at which the witness of each
    theorem is evaluated.

    ** What the theorems show

    Files: on a new container of any content cipher every session of
    creations, writes, truncations, reads, renames, links and removals answers
    as a map from paths to byte strings, never gets stuck on a store that can
    grow, and reads the same after the image has been closed and opened again.
    Mount: a session on an open handle answers as [pwrite], [pread] and [fstat]
    do, wherever the bytes are (cache, read-ahead window, open batch or
    container), and what has been synced survives. Inode numbers identify
    units; attributes round-trip.
    Allocator: in every history of calls the blocks that callers hold are
    disjoint from each other, from free space and from the header slots; an
    allocation relocates the tail without changing held contents; deferred
    frees and reclaim scopes never release what a committed state can reach.
    Catalogs: insertion and removal refine the update of a finite map, write
    new nodes only, and retire no node that a committed root can reach; with
    one copy of each node left lookups and scans still answer exactly; the
    traversals stop on any bytes. Engine: a new container serves any sequence
    of requests on names, and of transactions of them, as the finite maps in
    memory and the published ones do; transactions and publications are atomic
    under crashes, in the sense that the header and the catalogs that load are
    the old or the new ones ([opens_as]); subtree renames move exactly the
    subtree; the record cache is a least-recently-used cache.
    Header: commits are atomic under torn writes, a keyed load never falls back
    to an older slot. Log: replay returns exactly the records up to the first
    position without a complete one. Records: the codecs round-trip; those of
    the core accept only well-formed values and never unwind on arbitrary
    bytes, that of the attributes unwinds on a malformed record of one kind,
    which its theorem describes exactly; the signing payload determines the logical
    record; writer sets and trailers open only as they were signed. Retention:
    the drop set and the tail scan are characterised exactly. Crypto: suites
    round-trip and the batched XTS routine equals XTS with ciphertext stealing.
    Versions: the vectors form a lattice and dots track causality exactly.

    ** Bounds and fuel

    Loops that are not structural carry fuel computed from their input: the
    tail scan and the log scan from the region size, the merge of two vectors
    from their lengths, the XTS batches from the sector length, the trie
    traversals from the visit budget of the source, the reads of the
    write-back cache from the length read. The theorems about them are about
    the function with that fuel and state its result, so the fuel is enough.
    Allocation theorems assume a store below 2^61 bytes, where no address
    computation overflows; a session on files ends, at the earliest, there or
    at the last commit number. Files have at most 2^38 bytes ([MAX_FILE]),
    below the largest fragment count a record can hold, and at most 2^48
    versions, the range of a dot. The theorems on opening, on listings and
    on subtree renames assume a store of at most 2^33 bytes, so that the
    catalogs fit the visit budget; those on opening also assume no
    write-ahead log and an eviction tail without blocks that look like the
    undo image of an unpublished overwrite ([clean_tail]), which a container
    with unencrypted contents can be made to have. The theorem on handles
    bounds a request by 2^32 bytes and excludes reads after a write past the
    end of the file, where [read_at] of the engine misplaces bytes.

    ** Not modelled

    File and block-device stores (operating-system calls under the contract of
    [Backend]); statistics and profiling counters and the fields that simulate
    crashes; of version/store.rs the change of keys and ciphers, the sync
    import and export and the calls that replace the writer set; key grants,
    password derivation and peer-to-peer key exchange, which call third-party
    packages; recovery, fsck, inspection and defragmentation, which walk an
    engine; of the mount the locks (a call on a handle is one step), [statfs],
    [conflict_marker] and the callbacks of FUSE and WinFsp; the crates for
    replication, document store, server, bindings and tools, which are clients
    of the engine; the kernel driver, a C port of the same formats. *)

From Stdlib Require Import Strings.Byte.
From Stdlib Require Export Sorting.Sorted ZArith Lia ZifyBool ZifyNat.
From stdpp Require Export prelude list sorting gmap strings.
From coqutil Require Export Byte Word.LittleEndianList.

#[export] Set Default Goal Selector "!".
#[global] Open Scope Z_scope.

Ltac Zify.zify_post_hook ::= Z.div_mod_to_equations.

(** ** Machine integers *)

Definition u8 (z : Z) : Prop := 0 ≤ z < 2 ^ 8.
Definition u16 (z : Z) : Prop := 0 ≤ z < 2 ^ 16.
Definition u32 (z : Z) : Prop := 0 ≤ z < 2 ^ 32.
Definition u64 (z : Z) : Prop := 0 ≤ z < 2 ^ 64.
Definition i64 (z : Z) : Prop := - 2 ^ 63 ≤ z < 2 ^ 63.

#[global] Instance u8_dec z : Decision (u8 z).
Proof. unfold u8. apply _. Defined.
#[global] Instance u16_dec z : Decision (u16 z).
Proof. unfold u16. apply _. Defined.
#[global] Instance u32_dec z : Decision (u32 z).
Proof. unfold u32. apply _. Defined.
#[global] Instance u64_dec z : Decision (u64 z).
Proof. unfold u64. apply _. Defined.
#[global] Instance i64_dec z : Decision (i64 z).
Proof. unfold i64. apply _. Defined.

(** Arithmetic that mentions the width predicates. *)
Ltac width_lia := unfold u8, u16, u32, u64, i64 in *; lia.

(** Closed decidable goals, by evaluation. *)
Ltac by_compute := apply (bool_decide_unpack _); vm_compute; exact I.

(** ** Errors and results *)

(** The kinds of [std::io::Error] the core constructs itself. *)
Inductive IoKind :=
| InvalidInput
| StorageFull
| OtherIo.

(** [sfs_core::Error]; the formatted arguments of a message are dropped, its
    fixed text is kept so that the error branches stay distinguishable. *)
Inductive Error :=
| NotFound (msg : string)
| Integrity (msg : string)
| Crypto (msg : string)
| Io (kind : IoKind)
| UnsupportedVersion (version : Z).

#[global] Instance IoKind_eq_dec : EqDecision IoKind.
Proof. solve_decision. Defined.
#[global] Instance Error_eq_dec : EqDecision Error.
Proof. solve_decision. Defined.

(** A Rust call returns a value, returns an [Err], or unwinds. *)
Inductive res (A : Type) :=
| Ok (a : A)
| Err (e : Error)
| Panic.
Arguments Ok {A} a.
Arguments Err {A} e.
Arguments Panic {A}.

#[global] Instance res_ret : MRet res := @Ok.
#[global] Instance res_bind : MBind res := λ A B f m,
  match m with
  | Ok a => f a
  | Err e => Err e
  | Panic => Panic
  end.

(** Computations over a mutable state [S] ([&mut self] methods): the state is
    returned on every outcome, so an early [Err] keeps the mutations made
    before it. *)
Definition St (S A : Type) : Type := S → res A * S.

#[global] Instance St_ret S : MRet (St S) := λ A a s, (Ok a, s).
#[global] Instance St_bind S : MBind (St S) := λ A B f m s,
  match m s with
  | (Ok a, s') => f a s'
  | (Err e, s') => (Err e, s')
  | (Panic, s') => (Panic, s')
  end.

(** [expr?] on a call that does not touch the state. *)
Definition lift {S A} (r : res A) : St S A := λ s, (r, s).
Definition get_st {S} : St S S := λ s, (Ok s, s).
Definition put_st {S} (s : S) : St S unit := λ _, (Ok (), s).

(** [opt.ok_or(e)]. *)
Definition ok_or {A} (o : option A) (e : Error) : res A :=
  match o with
  | Some a => Ok a
  | None => Err e
  end.

Definition is_ok {A} (r : res A) : bool :=
  match r with
  | Ok _ => true
  | _ => false
  end.

(** [r.ok()]. *)
Definition res_ok {A} (r : res A) : option A :=
  match r with
  | Ok a => Some a
  | _ => None
  end.

(** The early [return Err(e)] of a guard. *)
Notation "'require' c 'else' e ;; k" := (if c then k else Err e)
  (at level 100, c at level 99, e at level 99, k at level 200, right associativity).

(** [u64] arithmetic of the debug profile: overflow unwinds. *)
Definition add64 (a b : Z) : res Z := if a + b <? 2 ^ 64 then Ok (a + b) else Panic.
Definition sub64 (a b : Z) : res Z := if b <=? a then Ok (a - b) else Panic.

(** [a.saturating_sub(b)] *)
Definition sat_sub (a b : Z) : Z := Z.max 0 (a - b).

Lemma add64_ok a b : a + b < 2 ^ 64 → add64 a b = Ok (a + b).
Proof. intros. unfold add64. by replace (a + b <? 2 ^ 64) with true by lia. Qed.
Lemma sub64_ok a b : b ≤ a → sub64 a b = Ok (a - b).
Proof. intros. unfold sub64. by replace (b <=? a) with true by lia. Qed.

(** ** Panic freedom *)

Create HintDb panic discriminated.

Definition no_panic {A} (r : res A) : Prop := r ≠ Panic.

Lemma no_panic_ok {A} (a : A) : no_panic (Ok a).
Proof. discriminate. Qed.
Lemma no_panic_err {A} e : no_panic (@Err A e).
Proof. discriminate. Qed.
Lemma no_panic_ok_or {A} (o : option A) e : no_panic (ok_or o e).
Proof. by destruct o. Qed.
Lemma no_panic_bind {A B} (m : res A) (f : A → res B) :
  no_panic m → (∀ a, m = Ok a → no_panic (f a)) → no_panic (m ≫= f).
Proof. destruct m; cbn; [auto| |]; by intros. Qed.
#[export] Hint Resolve no_panic_ok no_panic_err no_panic_ok_or : panic.

Lemma bind_ok {A B} (m : res A) (f : A → res B) b :
  m ≫= f = Ok b ↔ ∃ a, m = Ok a ∧ f a = Ok b.
Proof.
  destruct m as [a| |]; cbn; [|split; [done|by intros (?&?&?)]..].
  split; [eauto|by intros (?&[= ->]&?)].
Qed.

(** Case analysis of a decoder: one branch per [match], [if] and [?]. *)
Ltac panic_step :=
  match goal with
  | |- no_panic (mbind _ _) => apply no_panic_bind; [|intros ??]
  | |- no_panic (if ?c then _ else _) => destruct c eqn:?
  | |- no_panic (match ?x with _ => _ end) => destruct x eqn:?
  | |- no_panic (let '(_, _) := ?x in _) => destruct x eqn:?
  end.
Ltac solve_no_panic := repeat (panic_step || (progress cbn beta iota)); auto with panic.

(** ** Buffers *)

Abbreviation bytes := (list Init.Byte.byte).

#[global] Instance byte_eq_dec : EqDecision Init.Byte.byte := Byte.byte_eq_dec.
#[global] Instance byte_countable : Countable Init.Byte.byte :=
  inj_countable Byte.to_N Byte.of_N Byte.of_to_N.

(** A byte-string literal [b"..."]. *)
Definition bstr (s : string) : bytes := String.list_byte_of_string s.

(** [n] zero bytes. *)
Definition zeros (n : nat) : bytes := replicate n x00.

Definition blen {A} (l : list A) : Z := Z.of_nat (length l).

(** [buf.get(a..b)]. *)
Definition get_range (buf : bytes) (a b : Z) : option bytes :=
  if (0 <=? a) && (a <=? b) && (b <=? blen buf) then
    Some (take (Z.to_nat (b - a)) (drop (Z.to_nat a) buf))
  else None.

(** [&buf[a..b]], which unwinds out of range. *)
Definition index_range (buf : bytes) (a b : Z) : res bytes :=
  match get_range buf a b with
  | Some s => Ok s
  | None => Panic
  end.

(** [v[at..at + data.len()].copy_from_slice(data)] *)
Definition copy_at (v : bytes) (at_ : Z) (data : bytes) : res bytes :=
  if (0 <=? at_) && (at_ + blen data <=? blen v) then
    Ok (take (Z.to_nat at_) v ++ data ++ drop (Z.to_nat (at_ + blen data)) v)
  else Panic.

(** [buf.get(i)] and [buf[i]]. *)
Definition get_byte (buf : bytes) (i : Z) : option Z :=
  if 0 <=? i then byte.unsigned <$> buf !! Z.to_nat i else None.
Definition index_byte (buf : bytes) (i : Z) : res Z :=
  match get_byte buf i with
  | Some b => Ok b
  | None => Panic
  end.

(** [v[i]] of a [Vec]. *)
Definition index_list {A} (l : list A) (i : Z) : res A :=
  match (if 0 <=? i then l !! Z.to_nat i else None) with
  | Some x => Ok x
  | None => Panic
  end.

(** [v.to_le_bytes()] at a width of [n] bytes, and [from_le_bytes]. *)
Abbreviation le_bytes := le_split.
Abbreviation le_val := le_combine.

(** [i64::from_le_bytes]. *)
Definition le_val_i64 (s : bytes) : Z :=
  let z := le_val s in if z <? 2 ^ 63 then z else z - 2 ^ 64.

(** [out.push(b)] of a byte. *)
Definition byte1 (z : Z) : bytes := [byte.of_Z z].

Lemma blen_app {A} (l k : list A) : blen (l ++ k) = blen l + blen k.
Proof. unfold blen. rewrite length_app. lia. Qed.
Lemma blen_nonneg {A} (l : list A) : 0 ≤ blen l.
Proof. unfold blen. lia. Qed.
Lemma blen_nil {A} : blen (@nil A) = 0.
Proof. done. Qed.
Lemma blen_cons {A} (x : A) l : blen (x :: l) = 1 + blen l.
Proof. unfold blen. cbn [length]. lia. Qed.
Lemma blen_le_bytes n z : blen (le_bytes n z) = Z.of_nat n.
Proof. unfold blen. by rewrite length_le_split. Qed.
Lemma blen_byte1 z : blen (byte1 z) = 1.
Proof. done. Qed.
Lemma blen_fmap {A B} (f : A → B) l : blen (f <$> l) = blen l.
Proof. unfold blen. by rewrite length_fmap. Qed.
Lemma blen_replicate {A} n (x : A) : blen (replicate n x) = Z.of_nat n.
Proof. unfold blen. by rewrite length_replicate. Qed.

Create Rewrite HintDb blen.
Lemma blen_zeros n : blen (zeros n) = Z.of_nat n.
Proof. apply blen_replicate. Qed.
#[export] Hint Rewrite @blen_app @blen_nil @blen_cons blen_le_bytes blen_byte1 blen_zeros
  @blen_fmap @blen_replicate : blen.

Lemma get_range_Some buf a b s :
  get_range buf a b = Some s →
  0 ≤ a ≤ b ∧ b ≤ blen buf ∧ blen s = b - a ∧
  s = take (Z.to_nat (b - a)) (drop (Z.to_nat a) buf).
Proof.
  unfold get_range. destruct (_ && _) eqn:E; [|done].
  intros [= <-]. unfold blen in *. rewrite length_take, length_drop. split_and!; [lia..|done].
Qed.

Lemma get_range_is_Some buf a b :
  0 ≤ a ≤ b → b ≤ blen buf → is_Some (get_range buf a b).
Proof.
  intros. unfold get_range.
  replace ((0 <=? a) && (a <=? b) && (b <=? blen buf)) with true by lia. eauto.
Qed.

Lemma index_range_ok buf a b :
  0 ≤ a ≤ b → b ≤ blen buf →
  index_range buf a b = Ok (take (Z.to_nat (b - a)) (drop (Z.to_nat a) buf)).
Proof.
  intros. unfold index_range, get_range.
  by replace ((0 <=? a) && (a <=? b) && (b <=? blen buf)) with true by lia.
Qed.

Lemma copy_at_ok v p data :
  0 ≤ p → p + blen data ≤ blen v →
  copy_at v p data = Ok (take (Z.to_nat p) v ++ data ++ drop (Z.to_nat (p + blen data)) v).
Proof. intros. unfold copy_at. by replace ((0 <=? p) && _) with true by lia. Qed.

Lemma index_range_Ok buf a b s :
  index_range buf a b = Ok s →
  0 ≤ a ≤ b ∧ b ≤ blen buf ∧ blen s = b - a ∧ s = take (Z.to_nat (b - a)) (drop (Z.to_nat a) buf).
Proof.
  unfold index_range. destruct (get_range buf a b) eqn:E; [|done]. intros [= <-].
  by apply get_range_Some.
Qed.

(** Adjacent slices. *)
Lemma index_range_app buf a m b x y :
  index_range buf a m = Ok x → index_range buf m b = Ok y → index_range buf a b = Ok (x ++ y).
Proof.
  intros (?&?&_&->)%index_range_Ok (?&?&_&->)%index_range_Ok. rewrite index_range_ok by lia.
  f_equal. replace (Z.to_nat m) with (Z.to_nat a + Z.to_nat (m - a))%nat by lia.
  rewrite <-drop_drop, take_take_drop. f_equal. lia.
Qed.

Lemma index_range_all buf : index_range buf 0 (blen buf) = Ok buf.
Proof.
  rewrite index_range_ok by (pose proof (blen_nonneg buf); lia). f_equal.
  rewrite drop_0, take_ge; [done|]. unfold blen. lia.
Qed.

Lemma blen_take {A} n (l : list A) : 0 ≤ n → blen (take (Z.to_nat n) l) = Z.min n (blen l).
Proof. intros. unfold blen. rewrite length_take. lia. Qed.
Lemma blen_drop {A} n (l : list A) : 0 ≤ n → blen (drop (Z.to_nat n) l) = Z.max 0 (blen l - n).
Proof. intros. unfold blen. rewrite length_drop. lia. Qed.

(** Arithmetic over the lengths of concatenations and slices. *)
Ltac len_lia :=
  unfold blen, zeros in *;
  rewrite ?length_app, ?length_take, ?length_drop in *;
  rewrite ?length_app, ?length_take, ?length_drop, ?length_replicate, ?length_resize in *; lia.

(** Elements of concatenations and slices, one constructor at a time. *)
Ltac lookup_step :=
  match goal with
  | |- context [(?l ++ ?k) !! ?i] =>
      first [rewrite (lookup_app_l l k i) by len_lia | rewrite (lookup_app_r l k i) by len_lia]
  | |- context [take ?n ?l !! ?i] =>
      first [rewrite (lookup_take_lt l n i) by len_lia | rewrite (lookup_take_ge l n i) by len_lia]
  | |- context [drop ?n ?l !! ?i] => rewrite (lookup_drop l n i)
  end.
Ltac lookup_lia := repeat lookup_step; try (first [done | f_equal; len_lia]).

Lemma no_panic_index_range buf a b :
  0 ≤ a ≤ b → b ≤ blen buf → no_panic (index_range buf a b).
Proof.
  intros. unfold index_range.
  destruct (get_range_is_Some buf a b) as [s ->]; auto with panic.
Qed.

Lemma get_byte_is_Some buf i : 0 ≤ i < blen buf → is_Some (get_byte buf i).
Proof.
  intros. unfold get_byte. replace (0 <=? i) with true by lia.
  apply fmap_is_Some, lookup_lt_is_Some. unfold blen in *. lia.
Qed.

Lemma no_panic_index_byte buf i : 0 ≤ i < blen buf → no_panic (index_byte buf i).
Proof.
  intros. unfold index_byte. destruct (get_byte_is_Some buf i) as [s ->]; auto with panic.
Qed.

Lemma get_byte_u8 buf i b : get_byte buf i = Some b → u8 b.
Proof.
  unfold get_byte. case_match; [|done]. intros (x & _ & ->)%fmap_Some.
  apply byte.unsigned_range.
Qed.

(** ** Cursors

    [at_cursor buf off rest]: reading [buf] from byte offset [off] sees [rest].
    A decoder is followed field by field by moving the cursor. *)
Definition at_cursor (buf : bytes) (off : Z) (rest : bytes) : Prop :=
  0 ≤ off ∧ off + blen rest = blen buf ∧ drop (Z.to_nat off) buf = rest.

Lemma at_cursor_start buf : at_cursor buf 0 buf.
Proof. split; [lia|]. split; [lia|]. done. Qed.

Lemma at_cursor_app pre rest : at_cursor (pre ++ rest) (blen pre) rest.
Proof.
  unfold at_cursor. rewrite blen_app. unfold blen. split; [lia|]. split; [lia|].
  by rewrite Nat2Z.id, drop_app_length.
Qed.

Lemma at_cursor_skip buf off s rest off' :
  at_cursor buf off (s ++ rest) → off' = off + blen s → at_cursor buf off' rest.
Proof.
  intros (?&Hl&Hd) ->. rewrite blen_app in Hl. pose proof (blen_nonneg s).
  split; [lia|]. split; [lia|].
  rewrite Z2Nat.inj_add, <-drop_drop, Hd by lia.
  unfold blen. by rewrite Nat2Z.id, drop_app_length.
Qed.

Lemma get_range_cursor buf o s rest off off' :
  at_cursor buf o (s ++ rest) → off = o → off' = o + blen s → get_range buf off off' = Some s.
Proof.
  intros (?&Hl&Hd) -> ->. rewrite blen_app in Hl.
  pose proof (blen_nonneg s). pose proof (blen_nonneg rest). unfold get_range.
  replace ((0 <=? o) && _ && _) with true by lia.
  rewrite Hd. replace (o + blen s - o) with (blen s) by lia.
  unfold blen. by rewrite Nat2Z.id, take_app_length.
Qed.

Lemma index_range_cursor buf o s rest off off' :
  at_cursor buf o (s ++ rest) → off = o → off' = o + blen s → index_range buf off off' = Ok s.
Proof. intros. unfold index_range. by erewrite get_range_cursor. Qed.

Lemma get_byte_cursor buf o z rest off :
  at_cursor buf o (byte1 z ++ rest) → off = o → u8 z → get_byte buf off = Some z.
Proof.
  intros (?&Hl&Hd) -> ?. unfold get_byte. replace (0 <=? o) with true by lia.
  rewrite <-(Nat.add_0_r (Z.to_nat o)), <-lookup_drop, Hd. cbn.
  rewrite byte.unsigned_of_Z. f_equal. by apply Z.mod_small.
Qed.

Lemma index_byte_cursor buf o z rest off :
  at_cursor buf o (byte1 z ++ rest) → off = o → u8 z → index_byte buf off = Ok z.
Proof. intros. unfold index_byte. by erewrite get_byte_cursor. Qed.

Lemma bind_step {A B} (m : res A) (f : A → res B) a r : m = Ok a → f a = r → m ≫= f = r.
Proof. by intros ->. Qed.

(** Offset side conditions. *)
Ltac blia := autorewrite with blen; lia.

(** [cursor_bind H]: the goal reads a field at the cursor [H] and continues. *)
Ltac cursor_bind H :=
  eapply bind_step;
    [first [eapply index_range_cursor; [exact H|blia|blia]
           |eapply index_byte_cursor; [exact H|blia|try by_compute]]
    |eapply at_cursor_skip in H; [|reflexivity]; cbv beta].

(** [branch b]: the goal branches on a condition that evaluates to [b]. *)
Ltac guard_solve :=
  first [reflexivity | rewrite bool_decide_true by done; reflexivity | blia].
Ltac branch b :=
  match goal with
  | |- (if ?c then _ else _) = _ => replace c with b by guard_solve; cbv beta iota
  end.

(** [cursor_at H o]: restate the offset of the cursor [H] as [o]. *)
Ltac cursor_at H o :=
  match type of H with
  | at_cursor _ ?o' _ => replace o' with o in H by blia
  end.

Lemma get_range_app_l buf1 buf2 a b :
  b ≤ blen buf1 → get_range (buf1 ++ buf2) a b = get_range buf1 a b.
Proof.
  intros. unfold get_range. rewrite blen_app. pose proof (blen_nonneg buf2).
  destruct ((0 <=? a) && (a <=? b)) eqn:E; cbn; [|done].
  replace (b <=? blen buf1) with true by lia.
  replace (b <=? blen buf1 + blen buf2) with true by lia.
  f_equal. unfold blen in *. rewrite drop_app_le by lia.
  by rewrite take_app_le by (rewrite length_drop; lia).
Qed.

(** ** Little-endian round trips *)

Lemma le_val_bytes n z :
  0 ≤ z < 2 ^ (8 * Z.of_nat n) → le_val (le_bytes n z) = z.
Proof.
  intros. rewrite le_combine_split. apply Z.mod_small.
  by rewrite (Z.mul_comm (Z.of_nat n)).
Qed.
Lemma le_val_u16 z : u16 z → le_val (le_bytes 2 z) = z.
Proof. intros. by apply le_val_bytes. Qed.
Lemma le_val_u32 z : u32 z → le_val (le_bytes 4 z) = z.
Proof. intros. by apply le_val_bytes. Qed.
Lemma le_val_u64 z : u64 z → le_val (le_bytes 8 z) = z.
Proof. intros. by apply le_val_bytes. Qed.
Lemma le_val_i64_bytes z : i64 z → le_val_i64 (le_bytes 8 z) = z.
Proof.
  intros. unfold le_val_i64. rewrite le_combine_split.
  change (2 ^ (Z.of_nat 8 * 8)) with (2 ^ 64). unfold i64 in *.
  destruct (decide (0 ≤ z)).
  - rewrite Z.mod_small by lia. by replace (z <? 2 ^ 63) with true by lia.
  - replace (z `mod` 2 ^ 64) with (z + 2 ^ 64)
      by (rewrite <-(Z.mod_add z 1 (2 ^ 64)), Z.mod_small; lia).
    replace (z + 2 ^ 64 <? 2 ^ 63) with false by lia. lia.
Qed.
Lemma le_bytes_val n s : length s = n → le_bytes n (le_val s) = s.
Proof. intros <-. apply split_le_combine. Qed.
Lemma le_val_range s n : blen s = n → 0 ≤ le_val s < 2 ^ (8 * n).
Proof. intros <-. apply le_combine_bound. Qed.

(** ** The values a successful read returns *)

Lemma index_range_blen buf a b s n : index_range buf a b = Ok s → n = b - a → blen s = n.
Proof.
  unfold index_range. destruct (get_range buf a b) eqn:E; [|done]. intros [= <-] ->.
  by apply get_range_Some in E as (_&_&?&_).
Qed.
Lemma index_byte_u8 buf i z : index_byte buf i = Ok z → u8 z.
Proof.
  unfold index_byte. destruct (get_byte buf i) eqn:E; [|done]. intros [= <-]. by eapply get_byte_u8.
Qed.
Lemma le_val_index_range buf a b s n :
  index_range buf a b = Ok s → b - a = n → 0 ≤ le_val s < 2 ^ (8 * n).
Proof. intros ? <-. apply le_val_range. by eapply index_range_blen. Qed.
Lemma index_range_u64 buf a b s : index_range buf a b = Ok s → b - a = 8 → u64 (le_val s).
Proof. intros. by eapply (le_val_index_range _ _ _ _ 8). Qed.
Lemma index_range_u32 buf a b s : index_range buf a b = Ok s → b - a = 4 → u32 (le_val s).
Proof. intros. by eapply (le_val_index_range _ _ _ _ 4). Qed.
Lemma index_range_u16 buf a b s : index_range buf a b = Ok s → b - a = 2 → u16 (le_val s).
Proof. intros. by eapply (le_val_index_range _ _ _ _ 2). Qed.

Create HintDb fields discriminated.
Create HintDb calm.
#[export] Hint Resolve index_range_blen index_byte_u8 index_range_u64 index_range_u32
  index_range_u16 : fields.
#[export] Hint Extern 3 (_ = _ :> Z) => lia : fields.

Lemma byte_of_unsigned b : byte.of_Z (byte.unsigned b) = b.
Proof. apply byte.of_Z_unsigned. Qed.
Lemma unsigned_byte z : u8 z → byte.unsigned (byte.of_Z z) = z.
Proof. intros. rewrite byte.unsigned_of_Z. by apply Z.mod_small. Qed.

(** ** Lists *)

Lemma filter_all {A} (P : A → Prop) `{!∀ x, Decision (P x)} (l : list A) :
  (∀ x, x ∈ l → P x) → filter P l = l.
Proof.
  induction l as [|x l IH]; intros Hl; [done|].
  rewrite filter_cons, decide_True by (apply Hl; by left).
  f_equal. apply IH. intros y ?. apply Hl. by right.
Qed.

(** [slice.chunks(n)]: consecutive pieces of [n] elements, the last one
    possibly shorter. *)
Fixpoint chunks_fuel {A} (fuel n : nat) (l : list A) : list (list A) :=
  match fuel, l with
  | S fuel', _ :: _ => take n l :: chunks_fuel fuel' n (drop n l)
  | _, _ => []
  end.
Definition chunks {A} (n : nat) (l : list A) : list (list A) := chunks_fuel (length l) n l.

Lemma chunks_fuel_lookup {A} fuel n (l : list A) i :
  (0 < n)%nat → (length l ≤ fuel)%nat →
  chunks_fuel fuel n l !! i =
    if decide (i * n < length l)%nat then Some (take n (drop (i * n) l)) else None.
Proof.
  intros Hn. revert l i. induction fuel as [|fuel IH]; intros l i Hl.
  { destruct l; cbn in *; [|lia]. rewrite decide_False by lia. done. }
  destruct l as [|x l]; [cbn; rewrite decide_False by lia; done|].
  destruct i as [|i]; cbn [chunks_fuel lookup list_lookup].
  { rewrite decide_True by (cbn; lia). done. }
  rewrite IH by (rewrite length_drop; cbn in *; lia). rewrite length_drop, drop_drop.
  repeat case_decide; [do 3 f_equal; lia|lia..|done].
Qed.

Lemma chunks_lookup {A} n (l : list A) i :
  (0 < n)%nat →
  chunks n l !! i = if decide (i * n < length l)%nat then Some (take n (drop (i * n) l)) else None.
Proof. intros. by apply chunks_fuel_lookup. Qed.

Lemma concat_chunks {A} n (l : list A) : (0 < n)%nat → concat (chunks n l) = l.
Proof.
  intros Hn. unfold chunks. remember (length l) as fuel eqn:Hf.
  assert (length l ≤ fuel)%nat as Hl by lia. clear Hf. revert l Hl.
  induction fuel as [|fuel IH]; intros [|x l] Hl; cbn in Hl; try done; [lia|].
  cbn [chunks_fuel concat]. rewrite IH, take_drop; [done|]. rewrite length_drop. cbn. lia.
Qed.


Lemma chunks_nil {A} n : chunks n (@nil A) = [].
Proof. done. Qed.

Lemma chunks_fuel_enough {A} fuel fuel' n (l : list A) :
  (0 < n)%nat → (length l ≤ fuel)%nat → (length l ≤ fuel')%nat →
  chunks_fuel fuel n l = chunks_fuel fuel' n l.
Proof. intros. apply list_eq. intros i. by rewrite !chunks_fuel_lookup. Qed.

(** One chunk at a time. *)
Lemma chunks_cons {A} n (b l : list A) :
  (0 < n)%nat → length b = n → chunks n (b ++ l) = b :: chunks n l.
Proof.
  intros Hn Hb. unfold chunks. rewrite length_app, Hb. destruct b as [|x b]; cbn in Hb; [lia|].
  destruct n as [|n]; [lia|]. cbn [chunks_fuel app Nat.add]. f_equal.
  - change (x :: b ++ l) with ((x :: b) ++ l). by apply take_app_length'.
  - change (x :: b ++ l) with ((x :: b) ++ l). rewrite drop_app_length' by done.
    apply chunks_fuel_enough; lia.
Qed.

Lemma chunks_concat {A} n (bs : list (list A)) :
  (0 < n)%nat → Forall (λ b, length b = n) bs → chunks n (concat bs) = bs.
Proof.
  intros Hn Hbs. induction Hbs as [|b bs Hb _ IH]; [done|]. cbn [concat].
  by rewrite chunks_cons, IH.
Qed.
