(* ===== verification/Text.v ===== *)
(** * Strings

    A [String] is its bytes. [utf8_valid] is the check of [String::from_utf8]
    and [str::from_utf8]; [StrMap] is a [BTreeMap] keyed by strings, its list
    of entries in ascending order of the bytes of the keys. *)

From S2P Require Import Prelude.

(** ** UTF-8 *)

Definition in_range (lo hi : Z) (b : Init.Byte.byte) : bool :=
  (lo <=? byte.unsigned b) && (byte.unsigned b <=? hi).
Definition is_cont (b : Init.Byte.byte) : bool := in_range 128 191 b.

(** The well-formed byte sequences of one to four bytes. *)
Fixpoint utf8_valid (s : bytes) : bool :=
  match s with
  | [] => true
  | b :: s1 =>
      if in_range 0 127 b then utf8_valid s1
      else
        match s1 with
        | [] => false
        | c :: s2 =>
            if in_range 194 223 b then is_cont c && utf8_valid s2
            else
              match s2 with
              | [] => false
              | d :: s3 =>
                  if in_range 224 239 b then
                    (if in_range 224 224 b then in_range 160 191 c
                     else if in_range 237 237 b then in_range 128 159 c
                     else is_cont c) && is_cont d && utf8_valid s3
                  else
                    match s3 with
                    | [] => false
                    | e :: s4 =>
                        in_range 240 244 b &&
                        (if in_range 240 240 b then in_range 144 191 c
                         else if in_range 244 244 b then in_range 128 143 c
                         else is_cont c) && is_cont d && is_cont e && utf8_valid s4
                    end
              end
        end
  end.

(** [String::from_utf8] with the caller's error. *)
Definition from_utf8 (s : bytes) (e : Error) : res bytes := if utf8_valid s then Ok s else Err e.

Lemma from_utf8_ok s e : utf8_valid s = true → from_utf8 s e = Ok s.
Proof. unfold from_utf8. by intros ->. Qed.
Lemma no_panic_utf8 s e : no_panic (from_utf8 s e).
Proof. unfold from_utf8. by destruct (utf8_valid s). Qed.
#[export] Hint Resolve no_panic_utf8 : panic.

(** ** Maps keyed by strings *)

Fixpoint key_ltb (k1 k2 : bytes) : bool :=
  match k1, k2 with
  | [], _ :: _ => true
  | x :: k1', y :: k2' =>
      (byte.unsigned x <? byte.unsigned y) || (byte.unsigned x =? byte.unsigned y) && key_ltb k1' k2'
  | _, [] => false
  end.

Lemma key_ltb_irrefl k : key_ltb k k = false.
Proof. induction k as [|x k IH]; [done|]. cbn. by rewrite IH, Z.ltb_irrefl, andb_false_r. Qed.

Lemma key_ltb_trans k1 k2 k3 : key_ltb k1 k2 = true → key_ltb k2 k3 = true → key_ltb k1 k3 = true.
Proof.
  revert k2 k3. induction k1 as [|x k1 IH]; intros [|y k2] [|z k3]; cbn; try done.
  rewrite !orb_true_iff, !andb_true_iff, !Z.ltb_lt, !Z.eqb_eq.
  intros [?|[? ?]] [?|[? ?]]; [left; lia..|right]. split; [lia|eauto].
Qed.

Module StrMap.

Abbreviation t V := (list (bytes * V)).

Section operations.
Context {V : Type}.
Implicit Types (m : t V) (k : bytes) (v : V).

Fixpoint get m k : option V :=
  match m with
  | [] => None
  | (k', v) :: m' => if bool_decide (k' = k) then Some v else get m' k
  end.

Fixpoint insert m k v : t V :=
  match m with
  | [] => [(k, v)]
  | (k', v') :: m' =>
      if bool_decide (k' = k) then (k, v) :: m'
      else if key_ltb k k' then (k, v) :: m
      else (k', v') :: insert m' k v
  end.

Definition remove m k : t V := filter (λ e, e.1 ≠ k) m.

Definition sorted m : Prop := StronglySorted (λ x y, key_ltb x.1 y.1 = true) m.

(** Beyond the last key. *)
Lemma insert_last m k v : Forall (λ e, key_ltb e.1 k = true) m → insert m k v = m ++ [(k, v)] ∧ get m k = None.
Proof.
  induction m as [|[k' v'] m IH]; [done|]. intros [Hk Hm]%Forall_cons. cbn in Hk.
  destruct (IH Hm) as [IH1 IH2]. cbn. rewrite bool_decide_false by (intros ->; by rewrite key_ltb_irrefl in Hk).
  rewrite IH1, IH2. split; [|done]. destruct (key_ltb k k') eqn:E; [|done].
  pose proof (key_ltb_trans _ _ _ E Hk) as Hc. by rewrite key_ltb_irrefl in Hc.
Qed.

Lemma str_get_insert m k v k' : get (insert m k v) k' = if bool_decide (k = k') then Some v else get m k'.
Proof.
  induction m as [|[k0 v0] m IH]; cbn; [done|]. destruct (decide (k0 = k)) as [->|Hk].
  - rewrite (bool_decide_true (k = k)) by done. cbn. by destruct (bool_decide (k = k')).
  - rewrite (bool_decide_false (k0 = k)) by done. destruct (key_ltb k k0); cbn; [done|].
    rewrite IH. repeat case_bool_decide; congruence.
Qed.

Lemma str_get_remove m k k' : get (remove m k) k' = if bool_decide (k = k') then None else get m k'.
Proof.
  induction m as [|[k0 v0] m IH]; [cbn; by case_bool_decide|].
  assert (remove ((k0, v0) :: m) k = if decide (k0 = k) then remove m k else (k0, v0) :: remove m k) as ->.
  { unfold remove. rewrite filter_cons. cbn. repeat case_decide; done || congruence. }
  destruct (decide (k0 = k)) as [->|Hk]; cbn [get]; rewrite IH; repeat case_bool_decide; congruence.
Qed.

End operations.

End StrMap.
