(* ===== verification/Reader.v ===== *)
(** * Field readers

    The decoders of the on-disk records walk a buffer with a mutable offset,
    [let x = read_…(buf, off)?; off += n;]. [Rd A] is such a step: it reads the
    buffer at an offset and returns the value with the advanced offset. Three
    judgements follow a decoder statement by statement: [reads] (it reads back
    an encoding), [yields] (what every accepted value satisfies) and [safe] (it
    never unwinds). *)

From S2P Require Import Prelude.

Definition Rd (A : Type) : Type := bytes → Z → res (A * Z).

#[global] Instance Rd_ret : MRet Rd := λ A a buf off, Ok (a, off).
#[global] Instance Rd_bind : MBind Rd := λ A B g f buf off,
  match f buf off with
  | Ok (a, off') => g a buf off'
  | Err e => Err e
  | Panic => Panic
  end.

(** [buf.get(off..off + n).ok_or(e)?; off += n] *)
Definition rd_get (n : Z) (e : Error) : Rd bytes := λ buf off,
  s ← ok_or (get_range buf off (off + n)) e; Ok (s, off + n).

(** The little-endian integers and a single byte. *)
Definition rd_le (n : Z) (e : Error) : Rd Z := s ← rd_get n e; mret (le_val s).
Definition rd_byte (e : Error) : Rd Z := λ buf off,
  b ← ok_or (get_byte buf off) e; Ok (b, off + 1).

(** A check of values already read, and a call that does not read. *)
Definition rd_require (c : bool) (e : Error) : Rd unit := λ _ off, if c then Ok ((), off) else Err e.
Definition rd_lift {A} (r : res A) : Rd A := λ _ off, a ← r; Ok (a, off).

Definition rd_fail {A} (e : Error) : Rd A := λ _ _, Err e.

(** [for _ in 0..n { v.push(f()?) }] *)
Fixpoint rd_list {A} (n : nat) (f : Rd A) : Rd (list A) :=
  match n with
  | O => mret []
  | S n' => x ← f; xs ← rd_list n' f; mret (x :: xs)
  end.

(** A [u32] count, rejected with [e] when [count > remaining / width], and the
    entries; the last [margin] bytes of the buffer do not count as remaining. *)
Definition rd_counted {A} (margin width : Z) (e_u32 e : Error) (f : Rd A) : Rd (list A) :=
  count ← rd_le 4 e_u32;
  (λ buf off,
    if sat_sub (blen buf - margin) off `div` width <? count then Err e
    else rd_list (Z.to_nat count) f buf off) : Rd (list A).

(** A field that is absent at the end of the body, [buf.len() - margin]. *)
Definition rd_optional {A} (margin : Z) (d : A) (f : Rd A) : Rd A := λ buf off,
  if off <? blen buf - margin then f buf off else Ok (d, off).

(** [f] on [&buf[..buf.len() - margin]]. *)
Definition rd_body {A} (margin : Z) (f : Rd A) : Rd A := λ buf off,
  body ← index_range buf 0 (blen buf - margin); f body off.

(** [if off >= body_end { return Err(e) }] before a field. *)
Definition rd_before_end {A} (margin : Z) (e : Error) (f : Rd A) : Rd A := λ buf off,
  if blen buf - margin <=? off then Err e else f buf off.

(** ** Reading back an encoding *)

(** [reads k f enc a]: at the bytes [enc], with at least [k] bytes after them,
    [f] returns [a] and moves past [enc]. *)
Definition reads {A} (k : Z) (f : Rd A) (enc : bytes) (a : A) : Prop :=
  ∀ buf off rest, at_cursor buf off (enc ++ rest) → k ≤ blen rest → f buf off = Ok (a, off + blen enc).

Lemma reads_ret {A} k (a : A) : reads k (mret a) [] a.
Proof. intros buf off rest _ _. cbn. by rewrite Z.add_0_r. Qed.

Lemma reads_bind {A B} k (f : Rd A) (g : A → Rd B) e1 e2 a b :
  reads k f e1 a → reads k (g a) e2 b → reads k (f ≫= g) (e1 ++ e2) b.
Proof.
  intros Hf Hg buf off rest Hc Hk. rewrite <-app_assoc in Hc. unfold mbind, Rd_bind.
  rewrite (Hf buf off (e2 ++ rest)); [|done|rewrite blen_app; pose proof (blen_nonneg e2); lia].
  rewrite (Hg buf (off + blen e1) rest); [by rewrite blen_app, Z.add_assoc| |done].
  by eapply at_cursor_skip.
Qed.

(** A bind whose continuation reads nothing more. *)
Lemma reads_bind_last {A B} k (f : Rd A) (g : A → Rd B) e a b :
  reads k f e a → reads k (g a) [] b → reads k (f ≫= g) e b.
Proof. intros. rewrite <-(app_nil_r e). by eapply reads_bind. Qed.

Lemma reads_bind_nil {A B} k (f : Rd A) (g : A → Rd B) e a b :
  reads k f [] a → reads k (g a) e b → reads k (f ≫= g) e b.
Proof. intros. change e with ([] ++ e). by eapply reads_bind. Qed.

Lemma reads_get k n e s : blen s = n → reads k (rd_get n e) s s.
Proof.
  intros <- buf off rest Hc _. unfold rd_get. by erewrite get_range_cursor by done.
Qed.

Lemma reads_le k n m e z :
  Z.of_nat n = m → 0 ≤ z < 2 ^ (8 * m) → reads k (rd_le m e) (le_bytes n z) z.
Proof.
  intros <- ?. eapply reads_bind_last; [apply reads_get; by rewrite blen_le_bytes|].
  rewrite le_val_bytes by done. apply reads_ret.
Qed.
Lemma reads_u16 k e z : u16 z → reads k (rd_le 2 e) (le_bytes 2 z) z.
Proof. intros. by apply reads_le. Qed.
Lemma reads_u32 k e z : u32 z → reads k (rd_le 4 e) (le_bytes 4 z) z.
Proof. intros. by apply reads_le. Qed.
Lemma reads_u64 k e z : u64 z → reads k (rd_le 8 e) (le_bytes 8 z) z.
Proof. intros. by apply reads_le. Qed.
Lemma reads_byte k e z : u8 z → reads k (rd_byte e) (byte1 z) z.
Proof.
  intros ? buf off rest Hc _. unfold rd_byte. by erewrite get_byte_cursor by done.
Qed.

Lemma reads_require k c e : c = true → reads k (rd_require c e) [] ().
Proof. intros -> buf off rest _ _. cbn. by rewrite Z.add_0_r. Qed.
Lemma reads_lift {A} k (r : res A) a : r = Ok a → reads k (rd_lift r) [] a.
Proof. intros -> buf off rest _ _. cbn. by rewrite Z.add_0_r. Qed.

Lemma reads_list {A} k (f : Rd A) (enc : A → bytes) (l : list A) :
  Forall (λ x, reads k f (enc x) x) l → reads k (rd_list (length l) f) (concat (enc <$> l)) l.
Proof.
  induction 1 as [|x l Hx _ IH]; cbn [rd_list length fmap list_fmap concat]; [apply reads_ret|].
  eapply reads_bind; [exact Hx|]. eapply reads_bind_last; [exact IH|]. apply reads_ret.
Qed.

Lemma blen_concat_ge {A} (enc : A → bytes) (l : list A) w :
  Forall (λ x, w ≤ blen (enc x)) l → w * blen l ≤ blen (concat (enc <$> l)).
Proof.
  induction 1 as [|x l Hx _ IH]; cbn [fmap list_fmap concat]; [blia|].
  autorewrite with blen. lia.
Qed.

Lemma reads_counted {A} k margin w e1 e2 (f : Rd A) (enc : A → bytes) (l : list A) :
  0 < w → margin ≤ k → blen l < 2 ^ 32 →
  Forall (λ x, w ≤ blen (enc x)) l → Forall (λ x, reads k f (enc x) x) l →
  reads k (rd_counted margin w e1 e2 f) (le_bytes 4 (blen l) ++ concat (enc <$> l)) l.
Proof.
  intros Hw Hm Hl Hsz Hf. pose proof (blen_nonneg l) as Hnn. pose proof (blen_concat_ge enc l w Hsz).
  eapply reads_bind; [apply reads_u32; width_lia|]. intros buf off rest Hc Hk.
  pose proof Hc as (?&Hlen&_). rewrite blen_app in Hlen.
  destruct (Z.ltb_spec (sat_sub (blen buf - margin) off `div` w) (blen l)) as [Hlt|_].
  - exfalso. unfold sat_sub in Hlt. assert (blen l ≤ Z.max 0 (blen buf - margin - off) `div` w); [|lia].
    apply Z.div_le_lower_bound; lia.
  - unfold blen at 1. rewrite Nat2Z.id. by eapply reads_list.
Qed.

Lemma reads_optional {A} k margin (d : A) f enc a :
  margin ≤ k → 0 < blen enc → reads k f enc a → reads k (rd_optional margin d f) enc a.
Proof.
  intros ?? Hf buf off rest Hc Hk. unfold rd_optional. pose proof Hc as (?&Hlen&_).
  rewrite blen_app in Hlen. replace (off <? blen buf - margin) with true by lia. by eapply Hf.
Qed.

Lemma reads_before_end {A} k margin e (f : Rd A) enc a :
  margin ≤ k → 0 < blen enc → reads k f enc a → reads k (rd_before_end margin e f) enc a.
Proof.
  intros ?? Hf buf off rest Hc Hk. unfold rd_before_end. pose proof Hc as (?&Hlen&_).
  rewrite blen_app in Hlen. replace (blen buf - margin <=? off) with false by lia. by eapply Hf.
Qed.

Lemma reads_body {A} k margin (f : Rd A) enc a :
  0 ≤ margin ≤ k → reads 0 f enc a → reads k (rd_body margin f) enc a.
Proof.
  intros ? Hf buf off rest Hc Hk. pose proof Hc as (?&Hlen&Hd). rewrite blen_app in Hlen.
  pose proof (blen_nonneg enc). unfold rd_body, index_range, get_range.
  replace ((0 <=? 0) && _ && _) with true by lia. cbn [mbind res_bind]. rewrite drop_0.
  apply (Hf _ _ (take (Z.to_nat (blen rest - margin)) rest)).
  - split; [done|]. split.
    + rewrite blen_app. unfold blen in *. rewrite !length_take. lia.
    + rewrite skipn_firstn_comm, Hd, take_app_ge by (unfold blen in *; lia).
      do 2 f_equal. unfold blen in *. lia.
  - apply blen_nonneg.
Qed.

(** ** What an accepted value satisfies *)

Definition yields {A} (f : Rd A) (P : A → Prop) : Prop :=
  ∀ buf off a off', f buf off = Ok (a, off') → P a.

Lemma yields_ret {A} (a : A) (P : A → Prop) : P a → yields (mret a) P.
Proof. by intros ? buf off b off' [= <- <-]. Qed.
Lemma yields_bind {A B} (f : Rd A) (g : A → Rd B) P Q :
  yields f P → (∀ a, P a → yields (g a) Q) → yields (f ≫= g) Q.
Proof.
  intros Hf Hg buf off b off'. unfold mbind, Rd_bind.
  destruct (f buf off) as [[a o]| |] eqn:E; [|done..]. intros Hb. by eapply Hg, Hb; eapply Hf.
Qed.
Lemma yields_get n e : yields (rd_get n e) (λ s, blen s = n).
Proof.
  intros buf off s off'. unfold rd_get. destruct (get_range buf off (off + n)) eqn:E; [|done].
  intros [= <- <-]. apply get_range_Some in E. lia.
Qed.
Lemma yields_le n e : yields (rd_le n e) (λ z, 0 ≤ z < 2 ^ (8 * n)).
Proof.
  eapply yields_bind; [apply yields_get|]. intros s Hs. apply yields_ret. by apply le_val_range.
Qed.
Lemma yields_byte e : yields (rd_byte e) u8.
Proof.
  intros buf off b off'. unfold rd_byte. destruct (get_byte buf off) eqn:E; [|done].
  intros [= <- <-]. by eapply get_byte_u8.
Qed.
Lemma yields_require c e : yields (rd_require c e) (λ _, c = true).
Proof. intros buf off b off'. unfold rd_require. by destruct c. Qed.
Lemma yields_lift {A} (r : res A) (P : A → Prop) : (∀ a, r = Ok a → P a) → yields (rd_lift r) P.
Proof. intros HP buf off b off'. unfold rd_lift. destruct r; [|done..]. intros [= <- <-]. by apply HP. Qed.
Lemma yields_list {A} n (f : Rd A) P :
  yields f P → yields (rd_list n f) (λ l, length l = n ∧ Forall P l).
Proof.
  intros Hf. induction n as [|n IH]; cbn [rd_list]; [by apply yields_ret|].
  eapply yields_bind; [exact Hf|]. intros a Ha. eapply yields_bind; [exact IH|].
  intros l [? ?]. apply yields_ret. cbn. auto.
Qed.
Lemma yields_counted {A} margin w e1 e2 (f : Rd A) P :
  yields f P → yields (rd_counted margin w e1 e2 f) (λ l, blen l < 2 ^ 32 ∧ Forall P l).
Proof.
  intros Hf. eapply yields_bind; [apply yields_le|]. intros n Hn buf off l off'.
  cbv beta in Hn. change (2 ^ (8 * 4)) with (2 ^ 32) in Hn.
  case_match; [done|]. intros [Hl ?]%(yields_list _ _ _ Hf). unfold blen. split; [lia|done].
Qed.
Lemma yields_optional {A} margin (d : A) f P : P d → yields f P → yields (rd_optional margin d f) P.
Proof.
  intros Hd Hf buf off a off'. unfold rd_optional. case_match; [apply Hf|]. by intros [= <- <-].
Qed.
Lemma yields_before_end {A} margin e (f : Rd A) P : yields f P → yields (rd_before_end margin e f) P.
Proof. intros Hf buf off a off'. unfold rd_before_end. case_match; [done|]. apply Hf. Qed.
Lemma yields_body {A} margin (f : Rd A) P : yields f P → yields (rd_body margin f) P.
Proof.
  intros Hf buf off a off'. unfold rd_body. destruct (index_range _ _ _); [|done..]. apply Hf.
Qed.
Lemma yields_fail {A} e (P : A → Prop) : yields (rd_fail e) P.
Proof. done. Qed.

(** ** Panic freedom *)

(** [f] does not unwind on a buffer of at least [k] bytes. *)
Definition safe {A} (k : Z) (f : Rd A) : Prop := ∀ buf off, k ≤ blen buf → no_panic (f buf off).

Lemma safe_ret {A} k (a : A) : safe k (mret a).
Proof. by intros buf off _. Qed.
Lemma safe_bind {A B} k (f : Rd A) (g : A → Rd B) : safe k f → (∀ a, safe k (g a)) → safe k (f ≫= g).
Proof.
  intros Hf Hg buf off Hb. specialize (Hf buf off Hb). unfold mbind, Rd_bind.
  destruct (f buf off) as [[]| |]; [|done..]. by apply Hg.
Qed.
Lemma safe_get k n e : safe k (rd_get n e).
Proof. intros buf off _. unfold rd_get. by destruct (get_range _ _ _). Qed.
Lemma safe_le k n e : safe k (rd_le n e).
Proof. apply safe_bind; [apply safe_get|]. intros. apply safe_ret. Qed.
Lemma safe_byte k e : safe k (rd_byte e).
Proof. intros buf off _. unfold rd_byte. by destruct (get_byte _ _). Qed.
Lemma safe_require k c e : safe k (rd_require c e).
Proof. intros buf off _. unfold rd_require. by destruct c. Qed.
Lemma safe_lift {A} k (r : res A) : no_panic r → safe k (rd_lift r).
Proof. intros Hr buf off _. unfold rd_lift. by destruct r. Qed.
Lemma safe_list {A} k n (f : Rd A) : safe k f → safe k (rd_list n f).
Proof.
  intros Hf. induction n; cbn [rd_list]; [apply safe_ret|].
  apply safe_bind; [done|]. intros. apply safe_bind; [done|]. intros. apply safe_ret.
Qed.
Lemma safe_counted {A} k margin w e1 e2 (f : Rd A) : safe k f → safe k (rd_counted margin w e1 e2 f).
Proof.
  intros Hf. apply safe_bind; [apply safe_le|]. intros n buf off Hb. case_match; [done|].
  by apply (safe_list k).
Qed.
Lemma safe_optional {A} k margin (d : A) f : safe k f → safe k (rd_optional margin d f).
Proof. intros Hf buf off Hb. unfold rd_optional. case_match; [by apply Hf|done]. Qed.
Lemma safe_before_end {A} k margin e (f : Rd A) : safe k f → safe k (rd_before_end margin e f).
Proof. intros Hf buf off Hb. unfold rd_before_end. case_match; [done|]. by apply Hf. Qed.
Lemma safe_fail {A} k e : @safe A k (rd_fail e).
Proof. done. Qed.

Lemma safe_body {A} k (f : Rd A) : 0 ≤ k → safe 0 f → safe k (rd_body k f).
Proof.
  intros ? Hf buf off Hb. unfold rd_body. apply no_panic_bind; [apply no_panic_index_range; lia|].
  intros. apply Hf, blen_nonneg.
Qed.

Create HintDb rd discriminated.
#[export] Hint Resolve safe_ret safe_get safe_le safe_byte safe_require safe_lift safe_list
  safe_counted safe_optional safe_before_end safe_fail : rd.
#[export] Hint Resolve yields_get yields_le yields_byte yields_require yields_list
  yields_counted yields_before_end yields_body yields_fail : rd.

(** Statement by statement. *)
Ltac safe_step :=
  match goal with
  | |- safe _ (mbind _ _) => apply safe_bind; [|intros ?]
  | |- safe _ (if ?c then _ else _) => destruct c
  | |- safe _ (match ?x with _ => _ end) => destruct x
  | |- safe _ _ => solve [eauto with rd panic]
  | |- safe _ _ =>
      first [apply safe_counted|apply safe_optional|apply safe_before_end|apply safe_body; [done|]]
  end.
Ltac solve_safe := repeat safe_step.
