(* ===== verification/Vector.v ===== *)
(** * Version vectors and the peer registry

    Models [crates/sfs-core/src/version/vector.rs]: the sparse version vector
    (a [Vec] of [(HostAlias, u64)] sorted by alias without zero counters), its
    wire codec, and the registry of peer aliases.  The theorems show that the
    sorted representation is kept by every operation, that [dominates] and
    [join] are the order and the least upper bound of the lattice of counter
    functions, and that the codec is a bijection between well-formed vectors
    and accepted buffers. *)

From S2P Require Import Prelude.

Module VersionVector.

(** [pub struct VersionVector { entries: Vec<(HostAlias, u64)> }] *)
Record t := mk { entries : list (Z * Z) }.

#[global] Instance t_eq_dec : EqDecision t.
Proof. solve_decision. Defined.

Definition new : t := mk [].

(** [entries.binary_search_by_key(&h, |&(a, _)| a)]: [inl i] is [Ok(i)], the
    position of the entry for [h]; [inr i] is [Err(i)], the position at which
    it would keep the vector sorted. *)
Fixpoint binary_search_by_key (l : list (Z * Z)) (h : Z) : nat + nat :=
  match l with
  | [] => inr 0%nat
  | (a, _) :: l' =>
      if a =? h then inl 0%nat
      else if h <? a then inr 0%nat
      else match binary_search_by_key l' h with
           | inl i => inl (S i)
           | inr i => inr (S i)
           end
  end.

(** The counter of [h], or 0 if absent. *)
Definition get (v : t) (h : Z) : Z :=
  match binary_search_by_key (entries v) h with
  | inl i => match entries v !! i with Some (_, s) => s | None => 0 end
  | inr _ => 0
  end.

(** [Vec::insert(i, x)]. *)
Definition vec_insert {A} (i : nat) (x : A) (l : list A) : list A :=
  take i l ++ x :: drop i l.

(** [bump]: the new counter and the updated vector; the [expect] on the
    checked addition unwinds at [u64::MAX]. *)
Definition bump (v : t) (h : Z) : res (Z * t) :=
  match binary_search_by_key (entries v) h with
  | inl i =>
      match entries v !! i with
      | Some (a, s) =>
          if s + 1 <? 2 ^ 64 then Ok (s + 1, mk (<[i := (a, s + 1)]> (entries v)))
          else Panic
      | None => Panic
      end
  | inr i => Ok (1, mk (vec_insert i (h, 1) (entries v)))
  end.

(** [dominates]: the loop over [other.entries] returns at the first counter
    that [self] has not reached. *)
Fixpoint dominates_loop (v : t) (other : list (Z * Z)) : bool :=
  match other with
  | [] => true
  | (alias, other_val) :: rest =>
      if get v alias <? other_val then false else dominates_loop v rest
  end.
Definition dominates (v other : t) : bool := dominates_loop v (entries other).

Definition concurrent_with (v other : t) : bool :=
  negb (dominates v other) && negb (dominates other v).

(** [join]: the two-index merge loop, on the suffixes [self.entries[i..]] and
    [other.entries[j..]]. *)
Fixpoint join_loop (l1 : list (Z * Z)) : list (Z * Z) → list (Z * Z) :=
  fix go (l2 : list (Z * Z)) :=
    match l1, l2 with
    | [], _ => l2
    | _, [] => l1
    | (a_alias, a_val) :: r1, (b_alias, b_val) :: r2 =>
        match a_alias ?= b_alias with
        | Lt => (a_alias, a_val) :: join_loop r1 l2
        | Gt => (b_alias, b_val) :: go r2
        | Eq => (a_alias, Z.max a_val b_val) :: join_loop r1 r2
        end
    end.
Definition join (v other : t) : t := mk (join_loop (entries v) (entries other)).

(** [to_bytes]: [count: u16 LE] (the [as u16] cast keeps the low 16 bits), then
    [(alias: u16 LE, sync_id: u64 LE)] per entry. *)
Definition entry_bytes (e : Z * Z) : bytes := le_bytes 2 e.1 ++ le_bytes 8 e.2.
Definition to_bytes (v : t) : bytes :=
  le_bytes 2 (blen (entries v)) ++ concat (entry_bytes <$> entries v).

(** The decoding loop [for i in 0..count] of [from_bytes]; [n] iterations are
    left, [off = 2 + i * 10]. *)
Fixpoint from_bytes_loop (buf : bytes) (n : nat) (off : Z) (prev : option Z)
    : res (list (Z * Z)) :=
  match n with
  | O => Ok []
  | S n' =>
      a ← index_range buf off (off + 2);
      s ← index_range buf (off + 2) (off + 10);
      let alias := le_val a in
      let sync_id := le_val s in
      if match prev with Some p => alias <=? p | None => false end then
        Err (Integrity "version vector aliases not strictly ascending")
      else if sync_id =? 0 then
        Err (Integrity "version vector entry has sync_id == 0 (must be absent)")
      else
        rest ← from_bytes_loop buf n' (off + 10) (Some alias);
        Ok ((alias, sync_id) :: rest)
  end.

Definition from_bytes (buf : bytes) : res t :=
  if blen buf <? 2 then
    Err (Integrity "version vector buffer too short (need 2 bytes)")
  else
    c ← index_range buf 0 2;
    let count := le_val c in
    let expected := 2 + count * 10 in
    if negb (blen buf =? expected) then
      Err (Integrity "version vector buffer length mismatch")
    else
      l ← from_bytes_loop buf (Z.to_nat count) 2 None;
      Ok (mk l).

(** ** The representation invariant *)

(** Aliases strictly ascending above [lo], every counter a non-zero [u64]. *)
Fixpoint sorted_from (lo : Z) (l : list (Z * Z)) : Prop :=
  match l with
  | [] => True
  | (a, s) :: l' => lo < a ∧ u16 a ∧ 0 < s ∧ u64 s ∧ sorted_from a l'
  end.
Definition wf (v : t) : Prop := sorted_from (-1) (entries v).

#[global] Instance sorted_from_dec lo l : Decision (sorted_from lo l).
Proof. revert lo. induction l as [|[a s] l IH]; intros lo; cbn; apply _. Defined.
#[global] Instance wf_dec v : Decision (wf v).
Proof. unfold wf. apply _. Defined.

(** The counter function of a sorted list, by direct recursion. *)
Fixpoint lookup_counter (l : list (Z * Z)) (h : Z) : Z :=
  match l with
  | [] => 0
  | (a, s) :: l' => if a =? h then s else lookup_counter l' h
  end.

Lemma sorted_from_weaken lo lo' l : lo' ≤ lo → sorted_from lo l → sorted_from lo' l.
Proof. destruct l as [|[a s] l]; cbn; [done|]. intros ? (?&?&?&?&?). split_and!; auto; lia. Qed.

Lemma lookup_counter_below lo l h : sorted_from lo l → h ≤ lo → lookup_counter l h = 0.
Proof.
  revert lo. induction l as [|[a s] l IH]; cbn; intros lo; [done|].
  intros (?&?&?&?&Hl) ?. replace (a =? h) with false by lia. apply (IH a); [done|lia].
Qed.

Lemma lookup_counter_u64 lo l h : sorted_from lo l → u64 (lookup_counter l h).
Proof.
  revert lo. induction l as [|[a s] l IH]; cbn; intros lo; [by intros _; split|].
  intros (?&?&?&?&Hl). case_match; [done|]. by eapply IH.
Qed.

Lemma lookup_counter_nonneg lo l h : sorted_from lo l → 0 ≤ lookup_counter l h.
Proof. intros Hl. by destruct (lookup_counter_u64 lo l h Hl). Qed.

Lemma lookup_counter_pos lo l h :
  sorted_from lo l → lookup_counter l h ≠ 0 → (h, lookup_counter l h) ∈ l.
Proof.
  revert lo. induction l as [|[a s] l IH]; cbn; intros lo; [done|].
  intros (?&?&?&?&Hl) Hne. destruct (a =? h) eqn:E.
  - apply Z.eqb_eq in E as ->. constructor.
  - constructor. by eapply IH.
Qed.

Lemma lookup_counter_elem lo l a s : sorted_from lo l → (a, s) ∈ l → lookup_counter l a = s ∧ lo < a.
Proof.
  revert lo. induction l as [|[a' s'] l IH]; cbn; intros lo; [by intros _ ?%elem_of_nil|].
  intros (?&?&?&?&Hl) [[= -> ->]|Hin]%elem_of_cons; [by rewrite Z.eqb_refl|].
  destruct (IH a' Hl Hin). replace (a' =? a) with false by lia. split; [done|lia].
Qed.

(** Sorted vectors are determined by their counter functions. *)
Lemma sorted_from_ext lo l1 l2 :
  sorted_from lo l1 → sorted_from lo l2 →
  (∀ h, lookup_counter l1 h = lookup_counter l2 h) → l1 = l2.
Proof.
  revert lo l2. induction l1 as [|[a s] l1 IH]; intros lo [|[b r] l2]; cbn -[Z.eqb].
  - done.
  - intros _ (?&?&?&?&?) Heq. specialize (Heq b). rewrite Z.eqb_refl in Heq. lia.
  - intros (?&?&?&?&?) _ Heq. specialize (Heq a). rewrite Z.eqb_refl in Heq. lia.
  - intros (?&?&?&?&Hs1) (?&?&?&?&Hs2) Heq.
    assert (a = b) as ->.
    { destruct (Z.lt_trichotomy a b) as [Hlt|[?|Hlt]]; [|done|].
      - specialize (Heq a). rewrite Z.eqb_refl in Heq.
        replace (b =? a) with false in Heq by lia.
        rewrite (lookup_counter_below b l2) in Heq; [lia|done|lia].
      - specialize (Heq b). rewrite Z.eqb_refl in Heq.
        replace (a =? b) with false in Heq by lia.
        rewrite (lookup_counter_below a l1) in Heq; [lia|done|lia]. }
    pose proof (Heq b) as Hb. rewrite Z.eqb_refl in Hb. subst r. f_equal.
    apply (IH b); [done..|]. intros h. specialize (Heq h).
    destruct (Z.eqb_spec b h) as [->|]; [|done].
    rewrite (lookup_counter_below h l1), (lookup_counter_below h l2); auto; lia.
Qed.

Lemma binary_search_found l h i :
  binary_search_by_key l h = inl i → ∃ s, l !! i = Some (h, s) ∧ lookup_counter l h = s.
Proof.
  revert i. induction l as [|[a s] l IH]; cbn; intros i; [done|].
  destruct (Z.eqb_spec a h) as [->|]; [intros [= <-]; eauto|].
  case_match; [done|]. destruct (binary_search_by_key l h) as [j|j]; [|done].
  intros [= <-]. by apply IH.
Qed.

Lemma binary_search_missing lo l h i :
  sorted_from lo l → binary_search_by_key l h = inr i → lookup_counter l h = 0.
Proof.
  revert lo i. induction l as [|[a s] l IH]; cbn; intros lo i; [done|].
  intros (?&?&?&?&Hl). destruct (Z.eqb_spec a h); [done|].
  destruct (Z.ltb_spec h a).
  - intros _. eapply lookup_counter_below; [done|lia].
  - destruct (binary_search_by_key l h) eqn:E; [done|]. intros _. by eapply IH.
Qed.

(** The binary search computes the counter function. *)
Lemma get_lookup v h : wf v → get v h = lookup_counter (entries v) h.
Proof.
  intros Hwf. unfold get. destruct (binary_search_by_key _ h) eqn:E.
  - apply binary_search_found in E as (s&->&->). done.
  - by rewrite (binary_search_missing _ _ _ _ Hwf E).
Qed.

Lemma get_u64 v h : wf v → u64 (get v h).
Proof. intros. rewrite get_lookup by done. by eapply lookup_counter_u64. Qed.

Lemma get_nonneg v h : wf v → 0 ≤ get v h.
Proof. intros Hv. by destruct (get_u64 v h Hv). Qed.

Lemma vv_ext v w : wf v → wf w → (∀ h, get v h = get w h) → v = w.
Proof.
  intros Hv Hw Heq. destruct v as [l1], w as [l2]. f_equal.
  eapply sorted_from_ext; [exact Hv|exact Hw|]. intros h. specialize (Heq h).
  by rewrite !get_lookup in Heq.
Qed.

(** Sorted insertion, the effect of [bump] on the entries. *)
Fixpoint set_counter (l : list (Z * Z)) (h s : Z) : list (Z * Z) :=
  match l with
  | [] => [(h, s)]
  | (a, x) :: l' =>
      if a =? h then (a, s) :: l'
      else if h <? a then (h, s) :: l
      else (a, x) :: set_counter l' h s
  end.

Lemma bump_set_counter v h :
  bump v h = if get v h + 1 <? 2 ^ 64
             then Ok (get v h + 1, mk (set_counter (entries v) h (get v h + 1)))
             else Panic.
Proof.
  unfold bump, get. destruct v as [l]; cbn [entries].
  assert (∀ i s, binary_search_by_key l h = inl i → set_counter l h s = <[i := (h, s)]> l) as Hin.
  { induction l as [|[a x] l IH]; cbn; intros i s; [done|].
    destruct (Z.eqb_spec a h) as [->|]; [by intros [= <-]|].
    case_match; [done|]. destruct (binary_search_by_key l h) as [j|j]; [|done].
    intros [= <-]. cbn. f_equal. by apply IH. }
  assert (∀ i s, binary_search_by_key l h = inr i → set_counter l h s = vec_insert i (h, s) l) as Hout.
  { clear Hin. induction l as [|[a x] l IH]; cbn; intros i s; [by intros [= <-]|].
    destruct (a =? h); [done|].
    case_match; [by intros [= <-]|]. destruct (binary_search_by_key l h) as [j|j]; [done|].
    intros [= <-]. cbn. f_equal. by apply IH. }
  destruct (binary_search_by_key l h) as [i|i] eqn:E.
  - destruct (binary_search_found _ _ _ E) as (s&Hs&_). rewrite Hs.
    case_match; [|done]. by rewrite (Hin i).
  - cbn. by rewrite (Hout i).
Qed.

Lemma set_counter_sorted lo l h s :
  sorted_from lo l → lo < h → u16 h → 0 < s → u64 s → sorted_from lo (set_counter l h s).
Proof.
  revert lo. induction l as [|[a x] l IH]; cbn; intros lo; [by intros|].
  intros (?&?&?&?&?) ????. destruct (Z.eqb_spec a h) as [->|]; [done|].
  destruct (Z.ltb_spec h a); cbn; split_and!; auto. apply IH; auto; lia.
Qed.

Lemma lookup_set_counter l h s k :
  lookup_counter (set_counter l h s) k = if h =? k then s else lookup_counter l k.
Proof.
  induction l as [|[a x] l IH]; cbn; [done|].
  destruct (Z.eqb_spec a h) as [->|]; cbn; [by destruct (h =? k)|].
  destruct (Z.ltb_spec h a); cbn; [done|].
  rewrite IH. destruct (Z.eqb_spec a k), (Z.eqb_spec h k); congruence.
Qed.

Lemma bump_ok v h n v' :
  wf v → u16 h → bump v h = Ok (n, v') →
  n = get v h + 1 ∧ n < 2 ^ 64 ∧ wf v' ∧
  ∀ k, get v' k = if h =? k then get v h + 1 else get v k.
Proof.
  intros Hv Hh. rewrite bump_set_counter. pose proof (get_nonneg v h Hv).
  destruct (Z.ltb_spec (get v h + 1) (2 ^ 64)); [|done]. intros [= <- <-].
  assert (wf (mk (set_counter (entries v) h (get v h + 1)))) as Hv'
    by (apply set_counter_sorted; width_lia || done).
  split_and!; [done..|]. intros k.
  rewrite (get_lookup (mk _) k), (get_lookup v k) by done. apply lookup_set_counter.
Qed.

(** ** Order *)

Lemma dominates_spec v w :
  wf v → wf w → dominates v w = true ↔ ∀ h, get w h ≤ get v h.
Proof.
  intros Hv Hw. unfold dominates.
  trans (∀ a s, (a, s) ∈ entries w → s ≤ get v a).
  - induction (entries w) as [|[a s] l IH]; cbn.
    + split; [|done]. by intros _ ?? ?%elem_of_nil.
    + destruct (Z.ltb_spec (get v a) s).
      * split; [done|]. intros Hall. assert (s ≤ get v a) by (apply Hall; by left). lia.
      * rewrite IH. split.
        -- intros Hall a' s' [[= -> ->]|?]%elem_of_cons; [done|by apply Hall].
        -- intros Hall a' s' ?. apply Hall. by right.
  - split.
    + intros Hall h. destruct (Z.eq_dec (get w h) 0) as [->|Hne]; [by apply get_nonneg|].
      apply Hall. rewrite get_lookup in * by done. by eapply lookup_counter_pos.
    + intros Hall a s Hin. specialize (Hall a).
      rewrite (get_lookup w) in Hall by done.
      by destruct (lookup_counter_elem _ _ _ _ Hw Hin) as [<- _].
Qed.

Lemma join_loop_nil_r l : join_loop l [] = l.
Proof. by destruct l as [|[]]. Qed.

Lemma join_loop_nil_l l : join_loop [] l = l.
Proof. by destruct l. Qed.

Lemma join_loop_cons a x l1 b y l2 :
  join_loop ((a, x) :: l1) ((b, y) :: l2) =
  match a ?= b with
  | Lt => (a, x) :: join_loop l1 ((b, y) :: l2)
  | Gt => (b, y) :: join_loop ((a, x) :: l1) l2
  | Eq => (a, Z.max x y) :: join_loop l1 l2
  end.
Proof. done. Qed.

(** Induction along the merge loop. *)
Lemma join_loop_ind (P : list (Z * Z) → list (Z * Z) → Prop) :
  (∀ l2, P [] l2) → (∀ l1, P l1 []) →
  (∀ a x l1 b y l2, P l1 ((b, y) :: l2) → P ((a, x) :: l1) l2 → P l1 l2 →
     P ((a, x) :: l1) ((b, y) :: l2)) →
  ∀ l1 l2, P l1 l2.
Proof.
  intros ?? Hstep. induction l1 as [|[a x] l1 IH1]; [done|].
  induction l2 as [|[b y] l2 IH2]; auto.
Qed.

Lemma join_loop_sorted lo l1 l2 :
  sorted_from lo l1 → sorted_from lo l2 → sorted_from lo (join_loop l1 l2).
Proof.
  revert lo. revert l1 l2.
  refine (join_loop_ind _ _ _ _);
    [intros; by rewrite join_loop_nil_l|intros; by rewrite join_loop_nil_r|].
  intros a x l1 b y l2 IH1 IH2 IH3 lo (?&?&?&?&?) (?&?&?&?&?). rewrite join_loop_cons.
  destruct (Z.compare_spec a b) as [->|?|?]; cbn; split_and!; auto; try width_lia.
  - apply IH1; cbn; auto.
  - apply IH2; cbn; auto.
Qed.

Lemma lookup_join_loop lo l1 l2 h :
  sorted_from lo l1 → sorted_from lo l2 →
  lookup_counter (join_loop l1 l2) h = Z.max (lookup_counter l1 h) (lookup_counter l2 h).
Proof.
  revert lo. revert l1 l2. refine (join_loop_ind _ _ _ _).
  - intros l2 lo _ Hl2. rewrite join_loop_nil_l. cbn. pose proof (lookup_counter_nonneg lo l2 h Hl2). lia.
  - intros l1 lo Hl1 _. rewrite join_loop_nil_r.
    pose proof (lookup_counter_nonneg lo l1 h Hl1). cbn. lia.
  - intros a x l1 b y l2 IH1 IH2 IH3 lo (?&?&?&?&Hs1) (?&?&?&?&Hs2). rewrite join_loop_cons.
    assert (∀ c l, sorted_from c l → h ≤ c → lookup_counter l h = 0) as Hbelow
      by eauto using lookup_counter_below.
    destruct (Z.compare_spec a b) as [->|?|?]; cbn [lookup_counter].
    + destruct (b =? h); [done|]. by apply (IH3 b).
    + rewrite (IH1 a); [|done|by cbn]. cbn [lookup_counter]. destruct (Z.eqb_spec a h); [|done].
      replace (b =? h) with false by lia. rewrite (Hbelow b l2) by (done || lia). lia.
    + rewrite (IH2 b); [|by cbn|done]. cbn [lookup_counter]. destruct (Z.eqb_spec b h); [|done].
      replace (a =? h) with false by lia. rewrite (Hbelow a l1) by (done || lia). lia.
Qed.

Lemma join_wf v w : wf v → wf w → wf (join v w).
Proof. apply join_loop_sorted. Qed.

Lemma get_join v w h : wf v → wf w → get (join v w) h = Z.max (get v h) (get w h).
Proof.
  intros Hv Hw. rewrite !get_lookup by auto using join_wf. by eapply lookup_join_loop.
Qed.

(** ** The wire codec *)

Lemma blen_entries l : blen (concat (entry_bytes <$> l)) = 10 * blen l.
Proof.
  induction l as [|e l IH]; [done|]. cbn [fmap list_fmap concat].
  unfold entry_bytes at 1. autorewrite with blen. lia.
Qed.

Lemma from_bytes_loop_encoded buf lo l off prev rest :
  sorted_from lo l → match prev with Some p => p ≤ lo | None => True end →
  at_cursor buf off (concat (entry_bytes <$> l) ++ rest) →
  from_bytes_loop buf (length l) off prev = Ok l.
Proof.
  revert lo off prev. induction l as [|[a s] l IH]; intros lo off prev; [done|].
  intros (?&?&?&?&Hl) Hprev Hc. cbn [fmap list_fmap concat] in Hc. unfold entry_bytes at 1 in Hc.
  cbn [fst snd] in Hc. rewrite <-!app_assoc in Hc.
  cbn [from_bytes_loop length]. do 2 cursor_bind Hc.
  rewrite le_val_u16, le_val_u64 by done.
  replace (match prev with Some p => a <=? p | None => false end) with false
    by (destruct prev; [lia|done]).
  replace (s =? 0) with false by lia.
  cursor_at Hc (off + 10).
  by rewrite (IH a (off + 10) (Some a)).
Qed.

(** What the loop accepts is the encoding of a sorted list. *)
Lemma from_bytes_loop_inv buf n off prev l :
  0 ≤ off → from_bytes_loop buf n off prev = Ok l →
  length l = n ∧ sorted_from (default (-1) prev) l ∧
  (∃ rest, drop (Z.to_nat off) buf = concat (entry_bytes <$> l) ++ rest).
Proof.
  revert off prev l. induction n as [|n IH]; intros off prev l Hoff; cbn.
  { intros [= <-]. split_and!; eauto. by eexists. }
  intros (a&Ha&(s&Hs&Hk)%bind_ok)%bind_ok.
  unfold index_range in *.
  destruct (get_range buf off (off + 2)) as [a'|] eqn:Ea; [injection Ha as ->|done].
  destruct (get_range buf (off + 2) (off + 10)) as [s'|] eqn:Es; [injection Hs as ->|done].
  destruct (match prev with Some p => _ | None => _ end) eqn:Ep; [done|].
  destruct (Z.eqb_spec (le_val s) 0); [done|].
  apply bind_ok in Hk as (l'&Hl'&[= <-]).
  apply IH in Hl' as (Hlen&Hsorted&rest&Hdrop); [|lia].
  apply get_range_Some in Ea as (_&?&Hal&Ea), Es as (_&?&Hsl&Es).
  pose proof (le_val_range a 2 ltac:(lia)). pose proof (le_val_range s 8 ltac:(lia)).
  split_and!.
  - cbn. by rewrite Hlen.
  - cbn. split_and!; try width_lia; [|done]. destruct prev; cbn; lia.
  - exists rest. cbn [fmap list_fmap concat]. unfold entry_bytes at 1. cbn [fst snd].
    rewrite !le_bytes_val by (unfold blen in *; lia). rewrite <-!app_assoc, <-Hdrop.
    rewrite Ea, Es. replace (Z.to_nat (off + 10 - (off + 2))) with 8%nat by lia.
    replace (Z.to_nat (off + 2 - off)) with 2%nat by lia.
    replace (Z.to_nat (off + 2)) with (Z.to_nat off + 2)%nat by lia.
    replace (Z.to_nat (off + 10)) with (Z.to_nat off + 2 + 8)%nat by lia.
    by rewrite <-!drop_drop, !take_drop.
Qed.

Lemma to_bytes_length v : blen (to_bytes v) = 2 + 10 * blen (entries v).
Proof. unfold to_bytes. rewrite blen_app, blen_le_bytes, blen_entries. lia. Qed.

Lemma from_bytes_loop_no_panic buf n off prev :
  0 ≤ off → off + 10 * Z.of_nat n ≤ blen buf → no_panic (from_bytes_loop buf n off prev).
Proof.
  revert off prev. induction n as [|n IH]; intros off prev ??; cbn; [auto with panic|].
  apply no_panic_bind; [apply no_panic_index_range; lia|intros a _].
  apply no_panic_bind; [apply no_panic_index_range; lia|intros s _].
  repeat case_match; auto with panic;
    apply no_panic_bind; [apply IH; lia|auto with panic|apply IH; lia|auto with panic].
Qed.

Lemma from_bytes_no_panic buf : no_panic (from_bytes buf).
Proof.
  unfold from_bytes. destruct (Z.ltb_spec (blen buf) 2); [auto with panic|].
  apply no_panic_bind; [apply no_panic_index_range; lia|intros c Hc].
  assert (0 ≤ le_val c) by apply le_combine_bound.
  case_match eqn:E; [auto with panic|]. apply negb_false_iff, Z.eqb_eq in E.
  apply no_panic_bind; [apply from_bytes_loop_no_panic; lia|auto with panic].
Qed.

Lemma from_bytes_to_bytes v :
  wf v → blen (entries v) < 2 ^ 16 → from_bytes (to_bytes v) = Ok v.
Proof.
  intros Hwf Hlen. pose proof (blen_nonneg (entries v)).
  unfold from_bytes. rewrite to_bytes_length.
  replace (2 + 10 * blen (entries v) <? 2) with false by lia.
  pose proof (at_cursor_start (to_bytes v)) as Hc. unfold to_bytes at 2 in Hc.
  cursor_bind Hc. rewrite le_val_u16 by width_lia.
  replace (2 + 10 * blen (entries v) =? 2 + blen (entries v) * 10) with true by lia. cbn [negb].
  unfold blen at 1. rewrite Nat2Z.id.
  rewrite <-(app_nil_r (concat _)) in Hc. cursor_at Hc 2.
  rewrite (from_bytes_loop_encoded _ (-1) _ _ None _ Hwf I Hc). by destruct v.
Qed.

Lemma from_bytes_inv buf v :
  from_bytes buf = Ok v → wf v ∧ blen (entries v) < 2 ^ 16 ∧ to_bytes v = buf.
Proof.
  unfold from_bytes. destruct (Z.ltb_spec (blen buf) 2); [done|].
  intros (c&Hc&Hk)%bind_ok. unfold index_range in Hc.
  destruct (get_range buf 0 2) as [c'|] eqn:Ec; [injection Hc as ->|done].
  apply get_range_Some in Ec as (_&_&Hcl&Ec). rewrite Z.sub_0_r in *.
  pose proof (le_val_range c 2 ltac:(lia)).
  destruct (negb _) eqn:E; [done|]. apply negb_false_iff, Z.eqb_eq in E.
  apply bind_ok in Hk as (l&Hl&[= <-]).
  apply from_bytes_loop_inv in Hl as (Hlen&Hs&rest&Hdrop); [|lia].
  assert (blen l = le_val c) as Hll by (unfold blen; lia).
  assert (rest = []) as ->.
  { apply (f_equal blen) in Hdrop. rewrite blen_app, blen_entries in Hdrop.
    unfold blen in Hdrop at 1. rewrite length_drop in Hdrop. unfold blen in *.
    apply length_zero_iff_nil. lia. }
  split; [done|]. split; [cbn; lia|]. unfold to_bytes. cbn [entries].
  rewrite Hll, le_bytes_val by (unfold blen in *; lia).
  rewrite app_nil_r in Hdrop. rewrite <-Hdrop, Ec. apply (take_drop 2).
Qed.

(** ** Properties *)

(** The wire codec is a bijection: a well-formed vector with fewer than
    2^16 entries decodes to itself, and a buffer is accepted exactly when it is
    the encoding of a well-formed vector. *)
Lemma vv_codec_bijective (buf : bytes) (v : t) :
  from_bytes buf = Ok v ↔ wf v ∧ blen (entries v) < 2 ^ 16 ∧ to_bytes v = buf.
Proof.
  split; [apply from_bytes_inv|]. intros (?&?&<-). by apply from_bytes_to_bytes.
Qed.

(** [dominates] is the componentwise order on counters and a partial order
    on well-formed vectors: reflexive, transitive and antisymmetric. *)
Theorem dominates_partial_order (u v w : t) :
  wf u → wf v → wf w →
  (dominates u v = true ↔ ∀ h, get v h ≤ get u h) ∧
  dominates u u = true ∧
  (dominates u v = true → dominates v w = true → dominates u w = true) ∧
  (dominates u v = true → dominates v u = true → u = v).
Proof.
  intros. rewrite !dominates_spec by done. split_and!.
  - done.
  - done.
  - intros Huv Hvw h. specialize (Huv h). specialize (Hvw h). lia.
  - intros Huv Hvu. apply vv_ext; [done..|]. intros h.
    specialize (Huv h). specialize (Hvu h). lia.
Qed.

(** C24. [join] is the least upper bound: it is well formed, every vector that
    dominates both operands dominates it and conversely, and the merge does
    not depend on the order or grouping of the replicas. *)
Theorem join_least_upper_bound (u v w : t) :
  wf u → wf v → wf w →
  wf (join u v) ∧
  (dominates w (join u v) = true ↔ dominates w u = true ∧ dominates w v = true) ∧
  join u v = join v u ∧ join u (join v w) = join (join u v) w ∧ join u u = u.
Proof.
  intros. pose proof join_wf as Hwf. split_and!; [auto| |apply vv_ext..]; auto.
  - rewrite !dominates_spec by auto. split.
    + intros Hd. split; intros h; specialize (Hd h); rewrite get_join in Hd by done; lia.
    + intros [Hu Hv] h. rewrite get_join by done. specialize (Hu h). specialize (Hv h). lia.
  - intros h. rewrite !get_join by done. lia.
  - intros h. rewrite !get_join by auto. lia.
  - intros h. rewrite !get_join by done. lia.
Qed.

(** [bump] either unwinds, exactly when the counter is [u64::MAX], or
    increments the one counter of [h], keeps the representation sorted and
    yields a strictly newer vector. *)
Theorem bump_spec (v : t) (h : Z) :
  wf v → u16 h →
  match bump v h with
  | Ok (n, v') =>
      n = get v h + 1 ∧ wf v' ∧
      (∀ k, get v' k = if h =? k then get v h + 1 else get v k) ∧
      dominates v' v = true ∧ dominates v v' = false
  | Err _ => False
  | Panic => get v h = 2 ^ 64 - 1
  end.
Proof.
  intros Hv Hh. destruct (bump v h) as [[m v']| |] eqn:E.
  - apply bump_ok in E as (->&_&Hv'&Hget); [|done..]. split_and!; [done..| |].
    + rewrite dominates_spec by done. intros k. rewrite Hget.
      destruct (Z.eqb_spec h k) as [->|]; lia.
    + apply not_true_is_false. rewrite dominates_spec by done. intros Hd.
      specialize (Hd h). rewrite Hget, Z.eqb_refl in Hd. lia.
  - rewrite bump_set_counter in E. by case_match.
  - rewrite bump_set_counter in E. pose proof (get_u64 v h Hv).
    destruct (Z.ltb_spec (get v h + 1) (2 ^ 64)); [done|width_lia].
Qed.

(** *** Witnesses *)

Definition ex_u : t := mk [(0, 5); (3, 2)].
Definition ex_v : t := mk [(0, 4)].
Definition ex_w : t := mk [(3, 1)].

Lemma join_least_upper_bound_witness :
  wf (join ex_v ex_w) ∧ join ex_v ex_w = mk [(0, 4); (3, 1)].
Proof.
  split; [|reflexivity].
  apply (join_least_upper_bound ex_v ex_w ex_u); by_compute.
Defined.

End VersionVector.

(** * Peer registry *)

Module PeerRegistry.

(** [pub struct PeerEntry] *)
Record PeerEntry := mkPeerEntry {
  alias : Z;
  pubkey : bytes;
  retired : bool;
}.

(** [*b"SFPR"], the codec version and the encoded size. *)
Definition PEER_ENTRY_MAGIC : bytes := bstr "SFPR".
Definition PEER_ENTRY_VERSION : Z := 1.
Definition PEER_ENTRY_SIZE : Z := 38.

Definition encode (e : PeerEntry) : bytes :=
  PEER_ENTRY_MAGIC ++ byte1 PEER_ENTRY_VERSION ++ byte1 (if retired e then 1 else 0) ++ pubkey e.

Definition decode (a : Z) (buf : bytes) : res PeerEntry :=
  if blen buf <? PEER_ENTRY_SIZE then Err (Integrity "peer entry too short")
  else
    m ← index_range buf 0 4;
    if negb (bool_decide (m = PEER_ENTRY_MAGIC)) then Err (Integrity "peer entry: bad magic")
    else
      ver ← index_byte buf 4;
      if negb (ver =? PEER_ENTRY_VERSION) then
        Err (Integrity "peer entry: unsupported version")
      else
        st ← index_byte buf 5;
        r ← (if st =? 0 then Ok false
             else if st =? 1 then Ok true
             else Err (Integrity "peer entry: invalid status"));
        pk ← index_range buf 6 38;
        Ok (mkPeerEntry a pk r).

(** [pub struct PeerRegistry] *)
Record t := mk { local_alias : Z; entries : list PeerEntry }.

Definition local : t := mk 0 [].

(** [entries.sort_by_key(|e| e.alias)]: the stable sort. *)
Fixpoint insert_by_alias (e : PeerEntry) (l : list PeerEntry) : list PeerEntry :=
  match l with
  | [] => [e]
  | x :: l' => if alias x <=? alias e then x :: insert_by_alias e l' else e :: l
  end.
Definition sort_by_alias (l : list PeerEntry) : list PeerEntry :=
  foldl (λ acc e, insert_by_alias e acc) [] l.

Definition from_entries (la : Z) (l : list PeerEntry) : t := mk la (sort_by_alias l).

(** [entries.iter().find(|e| &e.pubkey == pubkey).map(|e| e.alias)] *)
Definition alias_of (r : t) (pk : bytes) : option Z :=
  (alias ∘ snd) <$> list_find (λ e, pubkey e = pk) (entries r).

(** [next_free_alias]: [candidate += 1] unwinds on [u16] overflow. *)
Fixpoint next_free_loop (l : list PeerEntry) (candidate : Z) : res Z :=
  match l with
  | [] => Ok candidate
  | e :: l' =>
      if alias e =? candidate then
        if candidate + 1 <? 2 ^ 16 then next_free_loop l' (candidate + 1) else Panic
      else if candidate <? alias e then Ok candidate
      else next_free_loop l' candidate
  end.
Definition next_free_alias (r : t) : res Z := next_free_loop (entries r) 0.

(** Aliases in ascending order, the invariant [from_entries] establishes. *)
Fixpoint ascending (lo : Z) (l : list PeerEntry) : Prop :=
  match l with
  | [] => True
  | e :: l' => lo ≤ alias e ∧ ascending (alias e) l'
  end.

Lemma ascending_weaken lo lo' l : lo' ≤ lo → ascending lo l → ascending lo' l.
Proof. destruct l; cbn; [done|]. intros ? []. split; [lia|done]. Qed.

Lemma insert_by_alias_ascending lo e l :
  ascending lo l → lo ≤ alias e → ascending lo (insert_by_alias e l).
Proof.
  revert lo. induction l as [|x l IH]; cbn; intros lo; [done|]. intros [? Hl] ?.
  destruct (Z.leb_spec (alias x) (alias e)); cbn; split; auto.
  split; [lia|done].
Qed.

Lemma insert_by_alias_perm e l : insert_by_alias e l ≡ₚ e :: l.
Proof.
  induction l as [|x l IH]; cbn; [done|]. case_match; [|done].
  rewrite IH. constructor.
Qed.

Lemma sort_by_alias_spec l :
  (∀ e, e ∈ l → 0 ≤ alias e) → ascending 0 (sort_by_alias l) ∧ sort_by_alias l ≡ₚ l.
Proof.
  intros Hl. unfold sort_by_alias.
  assert (∀ acc, ascending 0 acc → ascending 0 (foldl (λ acc e, insert_by_alias e acc) acc l) ∧
    foldl (λ acc e, insert_by_alias e acc) acc l ≡ₚ acc ++ l) as Hgen; [|by apply (Hgen [])].
  induction l as [|e l IH]; cbn; intros acc Hacc; [by rewrite app_nil_r|].
  destruct (IH (λ e' H, Hl e' (list_elem_of_further _ _ _ H)) (insert_by_alias e acc)) as [? Hp].
  { apply insert_by_alias_ascending; [done|]. apply Hl. by left. }
  split; [done|]. rewrite Hp, insert_by_alias_perm. cbn. apply Permutation_middle.
Qed.

Lemma next_free_loop_spec l lo cand :
  ascending lo l → cand - 1 ≤ lo → u16 cand →
  match next_free_loop l cand with
  | Ok n => cand ≤ n ∧ u16 n ∧ (∀ e, e ∈ l → alias e ≠ n) ∧
            (∀ a, cand ≤ a < n → ∃ e, e ∈ l ∧ alias e = a)
  | Err _ => False
  | Panic => ∀ a, cand ≤ a < 2 ^ 16 → ∃ e, e ∈ l ∧ alias e = a
  end.
Proof.
  revert lo cand. induction l as [|e l IH]; cbn -[Z.pow]; intros lo cand.
  { intros _ ??. split_and!; [lia|done|by intros ? ?%elem_of_nil|lia]. }
  intros [? Hl] ??. destruct (Z.eqb_spec (alias e) cand) as [<-|].
  - destruct (Z.ltb_spec (alias e + 1) (2 ^ 16)).
    + specialize (IH _ (alias e + 1) Hl ltac:(lia) ltac:(width_lia)).
      destruct (next_free_loop l _) as [m| |]; [|done|].
      * destruct IH as (?&?&Hfree&Htaken). split_and!; [lia|done| |].
        -- intros e' [->|?]%elem_of_cons; [lia|auto].
        -- intros a ?. destruct (decide (a = alias e)) as [->|]; [by exists e; split; [left|]|].
           destruct (Htaken a) as (e'&?&?); [lia|]. exists e'. split; [by right|done].
      * intros a ?. destruct (decide (a = alias e)) as [->|]; [by exists e; split; [left|]|].
        destruct (IH a) as (e'&?&?); [lia|]. exists e'. split; [by right|done].
    + intros a ?. exists e. split; [left|width_lia].
  - destruct (Z.ltb_spec cand (alias e)).
    + split_and!; [lia|done| |lia]. intros e' [->|Hin]%elem_of_cons; [done|].
      assert (alias e ≤ alias e'); [|lia]. clear -Hl Hin.
      revert Hl Hin. generalize (alias e) as b.
      induction l as [|x l IH]; intros b; [by intros _ ?%elem_of_nil|].
      intros [? Hx] [->|?]%elem_of_cons; [done|].
      apply IH; [by eapply ascending_weaken|done].
    + specialize (IH _ cand Hl ltac:(lia) ltac:(done)).
      destruct (next_free_loop l _) as [m| |]; [|done|].
      * destruct IH as (?&?&Hfree&Htaken). split_and!; [lia|done| |].
        -- intros e' [->|?]%elem_of_cons; [lia|auto].
        -- intros a ?. destruct (Htaken a) as (e'&?&?); [lia|]. exists e'. split; [by right|done].
      * intros a ?. destruct (IH a) as (e'&?&?); [lia|]. exists e'. split; [by right|done].
Qed.

(** Alias admission never recycles: on a registry built from any entries,
    [next_free_alias] is the smallest alias no entry (retired ones included)
    holds, and it fails only when all 2^16 aliases are taken. *)
Lemma next_free_alias_spec (la : Z) (l : list PeerEntry) :
  (∀ e, e ∈ l → u16 (alias e)) →
  match next_free_alias (from_entries la l) with
  | Ok n => u16 n ∧ (∀ e, e ∈ l → alias e ≠ n) ∧
            (∀ a, 0 ≤ a < n → ∃ e, e ∈ l ∧ alias e = a)
  | Err _ => False
  | Panic => ∀ a, u16 a → ∃ e, e ∈ l ∧ alias e = a
  end.
Proof.
  intros Hl. destruct (sort_by_alias_spec l) as [Hasc Hperm]; [intros e ?; by apply Hl|].
  pose proof (next_free_loop_spec _ _ 0 Hasc ltac:(lia) ltac:(by_compute)) as Hspec.
  unfold next_free_alias, from_entries. cbn [entries].
  destruct (next_free_loop _ 0) as [n| |]; [|done|]; setoid_rewrite Hperm in Hspec.
  - destruct Hspec as (?&?&?&?). auto.
  - intros a ?. apply Hspec. done.
Qed.

Definition ex_peer (a : Z) : PeerEntry := mkPeerEntry a (zeros 32) true.

(** The peer-entry codec: round trip, and no panic on any input. *)
Lemma blen_PEER_ENTRY_MAGIC : blen PEER_ENTRY_MAGIC = 4.
Proof. done. Qed.
#[local] Hint Rewrite blen_PEER_ENTRY_MAGIC : blen.

Lemma decode_encode_peer e : blen (pubkey e) = 32 → decode (alias e) (encode e) = Ok e.
Proof.
  intros Hpk. pose proof (at_cursor_start (encode e)) as Hc. unfold encode at 2 in Hc.
  assert (blen (encode e) = 38) as Hlen by (unfold encode; autorewrite with blen; by rewrite Hpk).
  unfold decode. rewrite Hlen.
  generalize dependent (encode e). intros buf Hc _. branch false.
  cursor_bind Hc. branch false. cursor_bind Hc. branch false.
  cursor_bind Hc; [by destruct (retired e)|].
  eapply (bind_step _ _ (retired e)); [by destruct (retired e)|].
  rewrite <-(app_nil_r (pubkey e)) in Hc. cursor_bind Hc. by destruct e.
Qed.

Lemma decode_peer_no_panic a buf : no_panic (decode a buf).
Proof.
  unfold decode, PEER_ENTRY_SIZE. destruct (Z.ltb_spec (blen buf) 38); [auto with panic|].
  solve_no_panic; first [apply no_panic_index_range|apply no_panic_index_byte]; lia.
Qed.

End PeerRegistry.
