(* ===== verification/Block.v ===== *)
(** * Block layer (crates/sfs-core/src/block.rs)

    Causal dots, the square schedule of fragment sizes, and the splitting of a
    unit into fragments of a power-of-two size. The integers are unbounded with
    the width of the source written out; a [debug_assert!] that does not hold
    is a [Panic], as in the debug profile. *)

From S2P Require Import Prelude.
From S2P Require Import Vector.

(** ** Causal dots *)

(** [pack_dot] *)
Definition pack_dot (host sync_id : Z) : res Z :=
  if sync_id <? 2 ^ 48 then Ok (Z.lor (Z.shiftl sync_id 16 `mod` 2 ^ 64) host) else Panic.

(** [dot_host]: [(v & 0xFFFF) as u16] *)
Definition dot_host (v : Z) : Z := Z.land v 0xFFFF.

(** [dot_sync_id]: [v >> 16] *)
Definition dot_sync_id (v : Z) : Z := Z.shiftr v 16.

(** [has_seen_dot] *)
Definition has_seen_dot (vv : VersionVector.t) (d : Z) : bool :=
  let sid := dot_sync_id d in
  if sid =? 0 then true else sid <=? VersionVector.get vv (dot_host d).

Definition FRAGSIZE_FLOOR_EXP : Z := 12.

(** ** Fragment sizes *)

(** The loop of [derive_fragsize_exp]: [k] counts the steps, [None] means the
    fuel ran out. [1u32 << k] is at most [2^6] there: the loop leaves at the
    first [shift >= 52]. *)
Fixpoint derive_loop (fuel : nat) (unit_size max_exp e k : Z) : option Z :=
  match fuel with
  | O => None
  | S fuel' =>
      let shift := Z.shiftl 1 k in
      if 52 <=? shift then Some e
      else
        let step_exp := 10 + shift in
        if 1 <=? Z.shiftr unit_size step_exp then
          let e' := Z.min step_exp max_exp in
          if max_exp <=? step_exp then Some e'
          else derive_loop fuel' unit_size max_exp e' (k + 1)
        else Some e
  end.

(** [u8::clamp], which asserts [min <= max]. *)
Definition u8_clamp (v lo hi : Z) : res Z :=
  if hi <? lo then Panic else Ok (if v <? lo then lo else if hi <? v then hi else v).

(** [derive_fragsize_exp] *)
Definition derive_fragsize_exp (unit_size floor_exp max_exp : Z) : res Z :=
  if unit_size =? 0 then Ok floor_exp
  else
    match derive_loop 6 unit_size max_exp floor_exp 1 with
    | Some e => u8_clamp (e `mod` 2 ^ 8) floor_exp max_exp
    | None => Panic
    end.

(** [frag_index]: [(offset >> exp) as u32] *)
Definition frag_index (offset exp : Z) : res Z :=
  if exp <? 32 then Ok (Z.shiftr offset exp `mod` 2 ^ 32) else Panic.

(** [last_frag_length] *)
Definition last_frag_length (unit_size exp : Z) : res Z :=
  if exp <? 32 then
    if unit_size =? 0 then Ok 0
    else
      let fragsize := Z.shiftl 1 exp in
      let remainder := unit_size `mod` fragsize in
      Ok ((if remainder =? 0 then fragsize else remainder) `mod` 2 ^ 32)
  else Panic.

(** [split_fixed]: the collected iterator. *)
Definition split_fixed (data : bytes) (exp : Z) : res (list (Z * bytes)) :=
  if exp <? 64 then
    let fragsize := Z.to_nat (Z.shiftl 1 exp) in
    Ok (imap (λ i chunk, (Z.of_nat i `mod` 2 ^ 32, chunk)) (chunks fragsize data))
  else Panic.

(** ** Lemmas on dots *)

Lemma pack_dot_add host sid :
  u16 host → 0 ≤ sid < 2 ^ 48 → pack_dot host sid = Ok (sid * 2 ^ 16 + host).
Proof.
  intros Hh Hs. unfold pack_dot. replace (sid <? 2 ^ 48) with true by lia. f_equal.
  rewrite Z.shiftl_mul_pow2, Z.mod_small by width_lia.
  rewrite Z.lor_comm, <-(Z.shiftl_mul_pow2 sid 16) by lia.
  rewrite <-(Z.mod_small host (2 ^ 16)) by width_lia.
  rewrite <-Z.land_ones, Z.lor_comm by lia.
  rewrite <-Z.add_lor_land. enough (Z.land (sid ≪ 16) (Z.land host (Z.ones 16)) = 0) by lia.
  apply Z.bits_inj'.
  intros n Hn. rewrite Z.land_spec, Z.shiftl_spec, Z.land_spec, Z.bits_0, Z.testbit_ones by lia.
  destruct (decide (n < 16)); [by rewrite Z.testbit_neg_r by lia|].
  replace ((0 <=? n) && (n <? 16)) with false by lia. by rewrite !andb_false_r.
Qed.

Lemma dot_host_mod v : dot_host v = v `mod` 2 ^ 16.
Proof. unfold dot_host. change 0xFFFF with (Z.ones 16). by rewrite Z.land_ones. Qed.

Lemma dot_sync_id_div v : dot_sync_id v = v / 2 ^ 16.
Proof. unfold dot_sync_id. by rewrite Z.shiftr_div_pow2. Qed.

Lemma dot_parts host sid :
  u16 host → dot_host (sid * 2 ^ 16 + host) = host ∧ dot_sync_id (sid * 2 ^ 16 + host) = sid.
Proof.
  intros. rewrite dot_host_mod, dot_sync_id_div. width_lia.
Qed.

Lemma has_seen_dot_spec vv d :
  VersionVector.wf vv → u64 d →
  has_seen_dot vv d = true ↔ dot_sync_id d ≤ VersionVector.get vv (dot_host d).
Proof.
  intros Hwf Hd. unfold has_seen_dot. pose proof (VersionVector.get_nonneg vv (dot_host d) Hwf).
  destruct (Z.eqb_spec (dot_sync_id d) 0); lia.
Qed.

(** ** Lemmas on fragment sizes *)

(** What the schedule computes: the last step [10 + 2^k] that the unit has
    reached, [max_exp] bounding it. *)
Definition steps : list Z := [12; 14; 18; 26; 42].
Fixpoint schedule (l : list Z) (unit_size max_exp e : Z) : Z :=
  match l with
  | [] => e
  | s :: l' =>
      if 2 ^ s <=? unit_size then schedule l' unit_size max_exp (Z.min s max_exp) else e
  end.

Lemma shiftr_ge_1 u s : 0 ≤ s → 0 ≤ u → (1 <=? Z.shiftr u s) = (2 ^ s <=? u).
Proof.
  intros. rewrite Z.shiftr_div_pow2 by done. pose proof (Z.pow_pos_nonneg 2 s).
  destruct (Z.leb_spec (2 ^ s) u).
  - apply Z.leb_le. apply Z.div_le_lower_bound; lia.
  - rewrite Z.div_small by lia. done.
Qed.

Lemma schedule_capped l u m e :
  Forall (λ s, m ≤ s) l → e = m → schedule l u m e = m.
Proof.
  intros Hl. revert e. induction Hl as [|s l Hs Hl IH]; cbn; intros e ->; [done|].
  case_match; [|done]. apply IH. lia.
Qed.

Lemma derive_loop_step fuel u m e k s rest :
  0 ≤ u → Z.shiftl 1 k = s - 10 → 0 ≤ s < 62 → Forall (λ s', s ≤ s') rest →
  (∀ e', derive_loop fuel u m e' (k + 1) = Some (schedule rest u m e')) →
  derive_loop (S fuel) u m e k = Some (schedule (s :: rest) u m e).
Proof.
  intros Hu Hk Hs Hrest IH. cbn [derive_loop schedule]. rewrite Hk.
  replace (52 <=? s - 10) with false by lia. replace (10 + (s - 10)) with s by lia.
  rewrite shiftr_ge_1 by lia. case_match; [|done].
  destruct (Z.leb_spec m s); [|apply IH]. f_equal.
  rewrite schedule_capped; [lia| |lia]. eapply Forall_impl; [done|]. cbn. lia.
Qed.

Lemma derive_loop_schedule u m e :
  0 ≤ u → derive_loop 6 u m e 1 = Some (schedule steps u m e).
Proof.
  intros Hu. do 5 (apply derive_loop_step; [done..|by_compute|by_compute|intros ?]). done.
Qed.

Lemma schedule_u8 l u m e :
  u8 m → u8 e → Forall u8 l → u8 (schedule l u m e).
Proof.
  intros Hm He Hl. revert e He. induction Hl as [|s l Hs Hl IH]; cbn; intros e He; [done|].
  case_match; [|done]. apply IH. width_lia.
Qed.

Lemma schedule_ge l u m e e0 lo :
  e0 ≤ Z.max lo e → Forall (λ s, e0 ≤ Z.max lo (Z.min s m)) l →
  e0 ≤ Z.max lo (schedule l u m e).
Proof.
  intros He Hl. revert e He. induction Hl; cbn; intros e He; [done|]. case_match; auto.
Qed.

Lemma schedule_monotone l u u' m e lo :
  u ≤ u' → StronglySorted Z.le l → Forall (λ s, e ≤ Z.max lo (Z.min s m)) l →
  Z.max lo (schedule l u m e) ≤ Z.max lo (schedule l u' m e).
Proof.
  intros Hu Hl. revert e. induction Hl as [|s l Hl IH Hs]; cbn; intros e He; [done|].
  inversion_clear He.
  assert (Forall (λ s', Z.min s m ≤ Z.max lo (Z.min s' m)) l).
  { eapply Forall_impl; [exact Hs|]. cbn. lia. }
  destruct (Z.leb_spec (2 ^ s) u), (Z.leb_spec (2 ^ s) u'); [auto|lia| |done].
  etrans; [|apply (schedule_ge _ _ _ _ (Z.max lo e)); [lia|]]; [lia|].
  eapply Forall_impl; [done|]. cbn. lia.
Qed.

Lemma derive_fragsize_exp_schedule u lo hi :
  0 < u → u8 lo → u8 hi → lo ≤ hi →
  derive_fragsize_exp u lo hi = Ok (Z.min (Z.max lo (schedule steps u hi lo)) hi).
Proof.
  intros Hu Hlo Hhi Hle. unfold derive_fragsize_exp. replace (u =? 0) with false by lia.
  rewrite derive_loop_schedule by lia.
  assert (u8 (schedule steps u hi lo)) by (apply schedule_u8; [done..|by_compute]).
  rewrite Z.mod_small by width_lia. unfold u8_clamp. replace (hi <? lo) with false by lia.
  f_equal. repeat case_match; lia.
Qed.

(** ** Lemmas on splitting *)

Lemma shiftl_1_pow exp : 0 ≤ exp → Z.shiftl 1 exp = 2 ^ exp.
Proof. intros. rewrite Z.shiftl_mul_pow2 by done. lia. Qed.

Lemma split_fixed_lookup data exp i :
  0 ≤ exp < 64 → Z.of_nat i < 2 ^ 32 → Z.of_nat i * 2 ^ exp < blen data →
  ∃ frags, split_fixed data exp = Ok frags ∧
    frags !! i = Some (Z.of_nat i,
      take (Z.to_nat (2 ^ exp)) (drop (Z.to_nat (Z.of_nat i * 2 ^ exp)) data)).
Proof.
  intros He Hi Hd. unfold split_fixed. replace (exp <? 64) with true by lia.
  rewrite shiftl_1_pow by lia. assert (0 < 2 ^ exp) by (apply Z.pow_pos_nonneg; lia).
  eexists. split; [done|]. rewrite list_lookup_imap, chunks_lookup by lia.
  unfold blen in Hd. rewrite decide_True by lia. cbn. rewrite Z.mod_small by lia.
  do 3 f_equal. f_equal. lia.
Qed.

Lemma split_fixed_concat data exp frags :
  0 ≤ exp → split_fixed data exp = Ok frags → concat frags.*2 = data.
Proof.
  intros He. unfold split_fixed. case_match; [|done]. intros [= <-].
  rewrite fmap_imap. rewrite (imap_ext _ (const id)) by done.
  rewrite imap_const, list_fmap_id. apply concat_chunks.
  rewrite shiftl_1_pow by done. pose proof (Z.pow_pos_nonneg 2 exp). lia.
Qed.

Lemma fragment_length (data : bytes) exp i :
  0 ≤ exp → 0 ≤ i * 2 ^ exp ≤ blen data →
  blen (take (Z.to_nat (2 ^ exp)) (drop (Z.to_nat (i * 2 ^ exp)) data)) =
    Z.min (2 ^ exp) (blen data - i * 2 ^ exp).
Proof.
  intros. unfold blen in *. rewrite length_take, length_drop.
  pose proof (Z.pow_pos_nonneg 2 exp). lia.
Qed.

Lemma last_frag_length_value u exp :
  0 < u → 0 ≤ exp < 32 →
  last_frag_length u exp = Ok (Z.min (2 ^ exp) (u - (u - 1) / 2 ^ exp * 2 ^ exp)).
Proof.
  intros Hu He. assert (0 < 2 ^ exp) by (apply Z.pow_pos_nonneg; lia).
  assert (2 ^ exp < 2 ^ 32) by (apply Z.pow_lt_mono_r; lia).
  unfold last_frag_length. replace (exp <? 32) with true by lia.
  replace (u =? 0) with false by lia. rewrite shiftl_1_pow by lia. f_equal.
  pose proof (Z.div_mod u (2 ^ exp) ltac:(lia)). pose proof (Z.mod_pos_bound u (2 ^ exp)).
  destruct (Z.eqb_spec (u `mod` 2 ^ exp) 0) as [E|E].
  - rewrite Z.mod_small by lia.
    replace ((u - 1) / 2 ^ exp) with (u / 2 ^ exp - 1); [nia|].
    apply Z.div_unique with (2 ^ exp - 1); lia.
  - rewrite Z.mod_small by lia.
    replace ((u - 1) / 2 ^ exp) with (u / 2 ^ exp); [nia|].
    apply Z.div_unique with (u `mod` 2 ^ exp - 1); lia.
Qed.

(** ** Properties *)

(** Dots: packing a host and a 48-bit counter is a bijection with the
    64-bit block versions, inverted by [dot_host] and [dot_sync_id]. *)
Theorem pack_dot_bijection (host sid d : Z) :
  u16 host → 0 ≤ sid →
  (pack_dot host sid = Ok d ↔ u64 d ∧ dot_host d = host ∧ dot_sync_id d = sid).
Proof.
  intros Hh Hs. destruct (decide (sid < 2 ^ 48)).
  - rewrite pack_dot_add by width_lia. split.
    + intros [= <-]. destruct (dot_parts host sid Hh) as [-> ->]. width_lia.
    + intros (Hd&Hh'&Hs'). rewrite dot_host_mod in Hh'. rewrite dot_sync_id_div in Hs'.
      f_equal. width_lia.
  - unfold pack_dot. replace (sid <? 2 ^ 48) with false by lia. split; [done|].
    intros (?&_&Hd). rewrite dot_sync_id_div in Hd. width_lia.
Qed.

(** C25. Causality of dots: a merged vector has seen exactly the dots one of its
    operands has seen; the dot a bump creates is new, and it is the only dot
    the bumped vector has seen in addition. *)
Theorem has_seen_dot_causal (v w v' : VersionVector.t) (h n d' : Z) :
  VersionVector.wf v → VersionVector.wf w → u16 h →
  VersionVector.bump v h = Ok (n, v') → pack_dot h n = Ok d' →
  (∀ d, u64 d → has_seen_dot (VersionVector.join v w) d = has_seen_dot v d || has_seen_dot w d) ∧
  has_seen_dot v d' = false ∧
  (∀ d, u64 d → has_seen_dot v' d = has_seen_dot v d || (d =? d')).
Proof.
  intros Hv Hw Hh Hb Hp. apply VersionVector.bump_ok in Hb as (->&_&Hv'&Hget); [|done..].
  pose proof (VersionVector.get_nonneg v h Hv).
  assert (VersionVector.get v h + 1 < 2 ^ 48).
  { unfold pack_dot in Hp. by destruct (Z.ltb_spec (VersionVector.get v h + 1) (2 ^ 48)). }
  rewrite pack_dot_add in Hp by (done || lia). injection Hp as <-.
  destruct (dot_parts h (VersionVector.get v h + 1) Hh) as [Hd1 Hd2].
  split_and!.
  - intros d Hd. apply eq_bool_prop_intro. rewrite orb_True, !Is_true_true.
    rewrite !has_seen_dot_spec by auto using VersionVector.join_wf.
    rewrite VersionVector.get_join by done. lia.
  - apply not_true_is_false. rewrite has_seen_dot_spec by width_lia || done.
    rewrite Hd1, Hd2. lia.
  - intros d Hd. apply eq_bool_prop_intro. rewrite orb_True, !Is_true_true, Z.eqb_eq.
    rewrite !has_seen_dot_spec by done. rewrite Hget.
    rewrite dot_host_mod, dot_sync_id_div in *.
    destruct (Z.eqb_spec h (d `mod` 2 ^ 16)) as [->|]; width_lia.
Qed.

Lemma has_seen_dot_causal_witness :
  has_seen_dot VersionVector.ex_v 65539 = false ∧
  has_seen_dot (VersionVector.mk [(0, 4); (3, 1)]) 65539 = true.
Proof.
  split; [|reflexivity].
  apply (has_seen_dot_causal VersionVector.ex_v VersionVector.ex_w
           (VersionVector.mk [(0, 4); (3, 1)]) 3 1 65539); first [by_compute|reflexivity].
Defined.

(** The fragment-size schedule is total, stays within the configured
    exponents and never shrinks as a unit grows; with the production exponents
    12 and 22 it is the documented table, and a unit below 64 MiB has at most
    256 fragments. *)
Lemma derive_fragsize_exp_schedule_ok (u u' lo hi : Z) :
  0 ≤ u ≤ u' → u64 u' → u8 lo → u8 hi → lo ≤ hi →
  (∃ e e', derive_fragsize_exp u lo hi = Ok e ∧ derive_fragsize_exp u' lo hi = Ok e' ∧
           lo ≤ e ≤ e' ∧ e' ≤ hi) ∧
  derive_fragsize_exp u 12 22 =
    Ok (if u <? 2 ^ 14 then 12 else if u <? 2 ^ 18 then 14 else if u <? 2 ^ 26 then 18 else 22) ∧
  (∃ e, derive_fragsize_exp u 12 22 = Ok e ∧ (u < 2 ^ 26 → (u + 2 ^ e - 1) / 2 ^ e ≤ 256)).
Proof.
  intros Hu Hu' Hlo Hhi Hle.
  assert (derive_fragsize_exp u 12 22 =
    Ok (if u <? 2 ^ 14 then 12 else if u <? 2 ^ 18 then 14 else if u <? 2 ^ 26 then 18 else 22))
    as Htab.
  { destruct (decide (u = 0)) as [->|]; [done|].
    rewrite derive_fragsize_exp_schedule by (by_compute || lia).
    f_equal. cbn [schedule steps]. repeat case_match; lia. }
  split; [|split; [done|]].
  - destruct (decide (u' = 0)) as [->|]; [assert (u = 0) as -> by lia; eexists _, _; done|].
    rewrite (derive_fragsize_exp_schedule u') by (done || lia).
    destruct (decide (u = 0)) as [->|].
    { eexists _, _. split_and!; [done..|lia|lia|lia]. }
    rewrite derive_fragsize_exp_schedule by (done || lia).
    eexists _, _. split_and!; [done..|lia| |lia].
    apply Z.min_le_compat_r, schedule_monotone; [lia| |].
    + repeat constructor; by_compute.
    + repeat constructor; lia.
  - rewrite Htab. eexists. split; [done|]. intros. repeat case_match; lia.
Qed.

(** Splitting: the fragments concatenate to the unit, the byte at [pos]
    lies in the fragment numbered [frag_index pos] at [pos mod 2^exp], and the
    last fragment has [last_frag_length] bytes. *)
Theorem split_fixed_ok (data : bytes) (exp pos : Z) :
  0 ≤ exp < 32 → blen data ≤ 2 ^ 32 * 2 ^ exp → 0 ≤ pos < blen data →
  ∃ frags i chunk lastlen,
    split_fixed data exp = Ok frags ∧ concat frags.*2 = data ∧
    frag_index pos exp = Ok i ∧ frags !! Z.to_nat i = Some (i, chunk) ∧
    chunk !! Z.to_nat (pos `mod` 2 ^ exp) = data !! Z.to_nat pos ∧
    last_frag_length (blen data) exp = Ok lastlen ∧
    (i = (blen data - 1) / 2 ^ exp → blen chunk = lastlen) ∧
    (i < (blen data - 1) / 2 ^ exp → blen chunk = 2 ^ exp).
Proof.
  intros He Hlen Hpos. assert (0 < 2 ^ exp) by (apply Z.pow_pos_nonneg; lia).
  assert (2 ^ exp < 2 ^ 32) by (apply Z.pow_lt_mono_r; lia).
  set (i := pos / 2 ^ exp).
  pose proof (Z.div_mod pos (2 ^ exp) ltac:(lia)). pose proof (Z.mod_pos_bound pos (2 ^ exp)).
  assert (0 ≤ i < 2 ^ 32) by (unfold i; split; [apply Z.div_pos|apply Z.div_lt_upper_bound]; lia).
  destruct (split_fixed_lookup data exp (Z.to_nat i)) as (frags&Hf&Hi);
    [lia|lia|rewrite Z2Nat.id by lia; lia|].
  rewrite Z2Nat.id in Hi by lia.
  eexists frags, i, _, _. split_and!; [exact Hf| | |exact Hi| | | |].
  - by apply (split_fixed_concat data exp frags); [lia|].
  - unfold frag_index. replace (exp <? 32) with true by lia.
    rewrite Z.shiftr_div_pow2 by lia. by rewrite Z.mod_small.
  - rewrite lookup_take_lt, lookup_drop by lia. f_equal. unfold i. lia.
  - by apply last_frag_length_value; lia.
  - intros ->. rewrite fragment_length; lia.
  - intros. rewrite fragment_length; nia.
Qed.
