(* ===== verification/BTree.v ===== *)
(** * Ordered maps ([std::collections::BTreeMap])

    A [BTreeMap] keyed by an integer is its list of entries in ascending key
    order, so that iteration and range queries see the order the standard
    library documents. *)

From S2P Require Import Prelude.

Module BTreeMap.

Abbreviation t V := (list (Z * V)).

Section operations.
Context {V : Type}.
Implicit Types (m : t V) (k : Z) (v : V).

Fixpoint get m k : option V :=
  match m with
  | [] => None
  | (k', v) :: m' => if k' =? k then Some v else get m' k
  end.

Fixpoint insert m k v : t V :=
  match m with
  | [] => [(k, v)]
  | (k', v') :: m' =>
      if k' =? k then (k, v) :: m'
      else if k <? k' then (k, v) :: m
      else (k', v') :: insert m' k v
  end.

Definition remove m k : t V := filter (λ e, e.1 ≠ k) m.

(** [m.range(..=k).next_back()] *)
Definition last_le m k : option (Z * V) := last (filter (λ e, e.1 ≤ k) m).

(** [m.range(a..=b)] *)
Definition range_incl m a b : t V := filter (λ e, a ≤ e.1 ≤ b) m.

(** [m.range(a..)] *)
Definition range_from m a : t V := filter (λ e, a ≤ e.1) m.

Definition sorted m : Prop := StronglySorted (λ x y, x.1 < y.1) m.

Lemma sorted_filter (P : Z * V → Prop) `{!∀ x, Decision (P x)} m :
  sorted m → sorted (filter P m).
Proof.
  intros Hm. induction Hm as [|x m Hm IH Hx]; [constructor|].
  rewrite filter_cons. case_decide; [|done]. constructor; [done|].
  apply Forall_forall. intros y (_&Hy)%list_elem_of_filter.
  by apply (proj1 (Forall_forall _ _) Hx).
Qed.

Lemma sorted_remove m k : sorted m → sorted (remove m k).
Proof. apply sorted_filter. Qed.

Lemma elem_of_remove m k e : e ∈ remove m k ↔ e ∈ m ∧ e.1 ≠ k.
Proof. unfold remove. rewrite list_elem_of_filter. naive_solver. Qed.

Lemma elem_of_insert m k v e :
  sorted m → e ∈ insert m k v ↔ e = (k, v) ∨ e ∈ m ∧ e.1 ≠ k.
Proof.
  induction m as [|[k' v'] m IH]; intros Hm; cbn.
  { rewrite elem_of_cons, elem_of_nil. naive_solver. }
  inversion_clear Hm as [|?? Hm' Hk]. rewrite Forall_forall in Hk.
  destruct (Z.eqb_spec k' k) as [->|]; [|destruct (Z.ltb_spec k k')].
  - rewrite !elem_of_cons. split.
    + intros [->|He]; [by left|]. right. split; [by right|]. apply Hk in He. cbn in *. lia.
    + intros [->|[[->|He] ?]]; [by left|done|by right].
  - rewrite !elem_of_cons. split.
    + intros [->|[->|He]]; [by left|right; cbn; split; [by left|lia]|].
      right. split; [by right|]. apply Hk in He. cbn in *. lia.
    + naive_solver.
  - rewrite !elem_of_cons, IH by done. cbn. naive_solver.
Qed.

Lemma sorted_insert m k v : sorted m → sorted (insert m k v).
Proof.
  induction m as [|[k' v'] m IH]; intros Hm; cbn; [repeat constructor|].
  inversion_clear Hm as [|?? Hm' Hk]. rewrite Forall_forall in Hk.
  destruct (Z.eqb_spec k' k) as [->|]; [|destruct (Z.ltb_spec k k')].
  - constructor; [done|]. apply Forall_forall, Hk.
  - constructor; [constructor; [done|by apply Forall_forall]|].
    apply Forall_forall. intros e [->|He]%elem_of_cons; cbn; [lia|]. apply Hk in He. cbn in *. lia.
  - constructor; [by apply IH|]. apply Forall_forall. intros e.
    rewrite elem_of_insert by done. intros [->|[He _]]; cbn; [lia|]. by apply Hk.
Qed.

Lemma elem_of_get m k v : sorted m → (k, v) ∈ m ↔ get m k = Some v.
Proof.
  induction m as [|[k' v'] m IH]; intros Hm; cbn; [by rewrite elem_of_nil|].
  inversion_clear Hm as [|?? Hm' Hk]. rewrite Forall_forall in Hk.
  rewrite elem_of_cons, IH by done.
  destruct (Z.eqb_spec k' k) as [->|]; split; try naive_solver.
  intros [[= ->]|He]; [done|]. apply IH in He; [|done]. apply Hk in He. cbn in He. lia.
Qed.

Lemma sorted_unique m k v v' : sorted m → (k, v) ∈ m → (k, v') ∈ m → v = v'.
Proof. intros Hm. rewrite !elem_of_get by done. congruence. Qed.

Lemma get_insert m k v k' :
  sorted m → get (insert m k v) k' = if k =? k' then Some v else get m k'.
Proof.
  intros Hm. apply option_eq. intros v'.
  rewrite <-elem_of_get, elem_of_insert, elem_of_get by auto using sorted_insert. cbn.
  destruct (Z.eqb_spec k k') as [->|]; naive_solver.
Qed.

Lemma get_remove m k k' :
  sorted m → get (remove m k) k' = if k =? k' then None else get m k'.
Proof.
  intros Hm. apply option_eq. intros v'.
  rewrite <-elem_of_get, elem_of_remove, elem_of_get by auto using sorted_remove. cbn.
  destruct (Z.eqb_spec k k') as [->|]; naive_solver.
Qed.

Lemma elem_of_range_incl m a b e : e ∈ range_incl m a b ↔ e ∈ m ∧ a ≤ e.1 ≤ b.
Proof. unfold range_incl. rewrite list_elem_of_filter. naive_solver. Qed.

Lemma elem_of_range_from m a e : e ∈ range_from m a ↔ e ∈ m ∧ a ≤ e.1.
Proof. unfold range_from. rewrite list_elem_of_filter. naive_solver. Qed.

Lemma sorted_last_max m e e' : sorted m → last m = Some e → e' ∈ m → e'.1 ≤ e.1.
Proof.
  intros Hm. induction Hm as [|x m Hm IH Hx]; [done|]. rewrite last_cons.
  rewrite Forall_forall in Hx. destruct (last m) as [y|] eqn:E.
  - intros [= ->]. rewrite elem_of_cons. intros [->|He]; [|by apply IH].
    apply last_Some_elem_of in E. apply Hx in E. lia.
  - apply last_None in E as ->. intros [= ->]. rewrite elem_of_cons, elem_of_nil.
    intros [->|[]]. done.
Qed.

Lemma sorted_lookup_lt m i j e e' :
  sorted m → (i < j)%nat → m !! i = Some e → m !! j = Some e' → e.1 < e'.1.
Proof.
  intros Hm. revert i j. induction Hm as [|x m Hm IH Hx]; intros [|i] [|j] Hij; try done; try lia; cbn.
  - intros [= ->] Hj. rewrite Forall_forall in Hx. by eapply Hx, list_elem_of_lookup_2.
  - apply IH. lia.
Qed.

Lemma last_le_Some m k e :
  sorted m → last_le m k = Some e →
  e ∈ m ∧ e.1 ≤ k ∧ ∀ e', e' ∈ m → e'.1 ≤ k → e'.1 ≤ e.1.
Proof.
  intros Hm He. pose proof (last_Some_elem_of _ _ He) as (?&?)%list_elem_of_filter.
  split_and!; [done..|]. intros e' ??.
  eapply sorted_last_max; [|exact He|by apply list_elem_of_filter]. by apply sorted_filter.
Qed.

Lemma last_le_None m k e : last_le m k = None → e ∈ m → k < e.1.
Proof.
  intros Hl He. apply last_None in Hl. apply Z.nle_gt. intros Hk.
  assert (e ∈ filter (λ e : Z * V, e.1 ≤ k) m) as Hf by by apply list_elem_of_filter.
  rewrite Hl in Hf. by apply elem_of_nil in Hf.
Qed.

Lemma sorted_keys_nodup m : sorted m → NoDup m.*1.
Proof.
  intros Hm. induction Hm as [|x m Hm IH Hx]; cbn; constructor; [|done].
  rewrite Forall_forall in Hx. intros (y&Hy&?%Hx)%list_elem_of_fmap. lia.
Qed.

(** An ordered map is determined by its entries. *)
Lemma sorted_ext m m' : sorted m → sorted m' → (∀ e, e ∈ m ↔ e ∈ m') → m = m'.
Proof.
  intros Hm. revert m'. induction Hm as [|x m Hm IH Hx]; intros m' Hm' Heq.
  { destruct m' as [|y m']; [done|]. destruct (not_elem_of_nil y). apply Heq. by left. }
  destruct Hm' as [|y m' Hm' Hy].
  { destruct (not_elem_of_nil x). apply Heq. by left. }
  rewrite Forall_forall in Hx, Hy.
  assert (x = y) as <-.
  { pose proof (proj1 (Heq x) ltac:(by left)) as [|Hxm]%elem_of_cons; [done|].
    pose proof (proj2 (Heq y) ltac:(by left)) as [|Hym]%elem_of_cons; [done|].
    apply Hy in Hxm. apply Hx in Hym. lia. }
  f_equal. apply IH; [done|]. intros e. specialize (Heq e). rewrite !elem_of_cons in Heq.
  split; intros He.
  - apply Hx in He as Hlt. destruct (proj1 Heq (or_intror He)) as [->|]; [lia|done].
  - apply Hy in He as Hlt. destruct (proj2 Heq (or_intror He)) as [->|]; [lia|done].
Qed.

End operations.

End BTreeMap.

#[global] Hint Resolve BTreeMap.sorted_insert BTreeMap.sorted_remove : core.
