(* ===== verification/Posix.v ===== *)
(** * Files as byte strings

    What [pwrite(2)], [ftruncate(2)] and [pread(2)] do to a file, the reference
    for the content operations of the engine and for the write-back cache of
    the mount. *)

From S2P Require Import Prelude.

(** ** Files as byte strings *)
Module PosixFile.

(** [pwrite(2)]: the bytes between the end of the file and [off] read as
    zeros; a write of no bytes changes nothing. *)
Definition pwrite (F : bytes) (off : Z) (data : bytes) : bytes :=
  match data with
  | [] => F
  | _ =>
      let F' := F ++ zeros (Z.to_nat (off + blen data - blen F)) in
      take (Z.to_nat off) F' ++ data ++ drop (Z.to_nat (off + blen data)) F'
  end.

(** [ftruncate(2)] *)
Definition ftruncate (F : bytes) (n : Z) : bytes := resize (Z.to_nat n) Init.Byte.x00 F.

(** [pread(2)] *)
Definition pread (F : bytes) (off n : Z) : bytes := take (Z.to_nat n) (drop (Z.to_nat off) F).

Lemma pwrite_nil F off : pwrite F off [] = F.
Proof. done. Qed.

Lemma blen_pwrite F off data :
  0 ≤ off → data ≠ [] → blen (pwrite F off data) = Z.max (blen F) (off + blen data).
Proof.
  intros Hoff Hd. destruct data as [|b data]; [done|]. unfold pwrite. set (d := b :: data).
  clearbody d. len_lia.
Qed.

Lemma lookup_pwrite F off data x :
  0 ≤ off → data ≠ [] → 0 ≤ x < Z.max (blen F) (off + blen data) →
  pwrite F off data !! Z.to_nat x =
    if decide (off ≤ x < off + blen data) then data !! Z.to_nat (x - off)
    else Some (default Init.Byte.x00 (F !! Z.to_nat x)).
Proof.
  intros Hoff Hd Hx. destruct data as [|b data]; [done|]. unfold pwrite. set (d := b :: data) in *.
  clearbody d. set (F' := F ++ zeros _).
  assert (F' !! Z.to_nat x = Some (default Init.Byte.x00 (F !! Z.to_nat x))) as HF.
  { unfold F'. destruct (Z.lt_ge_cases x (blen F)).
    - rewrite lookup_app_l by len_lia.
      destruct (lookup_lt_is_Some_2 F (Z.to_nat x)) as [y ->]; [unfold blen in *; lia|done].
    - rewrite lookup_app_r, (lookup_ge_None_2 F) by len_lia. cbn. apply lookup_replicate_2. len_lia. }
  assert (blen F' = Z.max (blen F) (off + blen d)) by (unfold F'; len_lia). clearbody F'.
  case_decide; [lookup_lia|]. rewrite <-HF. destruct (Z.lt_ge_cases x off); lookup_lia.
Qed.

Lemma blen_ftruncate F n : 0 ≤ n → blen (ftruncate F n) = n.
Proof. intros. unfold ftruncate, blen. rewrite length_resize. lia. Qed.

Lemma blen_resize (F : bytes) n : 0 ≤ n → blen (resize (Z.to_nat n) Init.Byte.x00 F) = n.
Proof. apply blen_ftruncate. Qed.

(** The byte of a file at an offset; zero past its end. *)
Definition fbyte (F : bytes) (x : Z) : Init.Byte.byte := default Init.Byte.x00 (F !! Z.to_nat x).

Lemma file_ext F G : blen F = blen G → (∀ x, 0 ≤ x < blen F → fbyte F x = fbyte G x) → F = G.
Proof.
  intros Hl Hb. apply list_eq. intros i. destruct (decide (i < length F)%nat) as [Hi|Hi].
  - specialize (Hb (Z.of_nat i)). unfold fbyte, blen in *. rewrite Nat2Z.id in Hb.
    destruct (lookup_lt_is_Some_2 F i) as [x Hx]; [done|]. destruct (lookup_lt_is_Some_2 G i) as [y Hy]; [lia|].
    rewrite Hx, Hy in *. cbn in Hb. f_equal. apply Hb. lia.
  - rewrite !lookup_ge_None_2 by (unfold blen in *; lia). done.
Qed.

Lemma fbyte_past F x : blen F ≤ x → fbyte F x = Init.Byte.x00.
Proof. intros. unfold fbyte. by rewrite lookup_ge_None_2 by (unfold blen in *; lia). Qed.

Lemma fbyte_lookup F x : 0 ≤ x < blen F → F !! Z.to_nat x = Some (fbyte F x).
Proof.
  intros. unfold fbyte. destruct (lookup_lt_is_Some_2 F (Z.to_nat x)) as [y ->]; [unfold blen in *; lia|done].
Qed.

Lemma fbyte_app F G x : 0 ≤ x → fbyte (F ++ G) x = if decide (x < blen F) then fbyte F x else fbyte G (x - blen F).
Proof.
  intros. unfold fbyte. case_decide.
  - by rewrite lookup_app_l by (unfold blen in *; lia).
  - rewrite lookup_app_r by (unfold blen in *; lia). do 2 f_equal. unfold blen in *. lia.
Qed.

Lemma fbyte_drop F n x : 0 ≤ n → 0 ≤ x → fbyte (drop (Z.to_nat n) F) x = fbyte F (n + x).
Proof. intros. unfold fbyte. rewrite lookup_drop. do 2 f_equal. lia. Qed.

Lemma fbyte_take F n x : 0 ≤ x < n → fbyte (take (Z.to_nat n) F) x = fbyte F x.
Proof. intros. unfold fbyte. by rewrite lookup_take_lt by lia. Qed.

Lemma fbyte_zeros n x : fbyte (zeros n) x = Init.Byte.x00.
Proof. unfold fbyte. destruct (zeros n !! Z.to_nat x) eqn:E; [|done]. by apply lookup_replicate in E as [-> _]. Qed.

Lemma fbyte_resize F n x : 0 ≤ x < n → fbyte (resize (Z.to_nat n) Init.Byte.x00 F) x = fbyte F x.
Proof.
  intros. rewrite resize_spec. fold (zeros (Z.to_nat n - length F)). rewrite fbyte_app by lia. case_decide as Hc.
  - by rewrite fbyte_take by lia.
  - rewrite fbyte_zeros. unfold blen in Hc. rewrite length_take in Hc. symmetry. apply fbyte_past. unfold blen. lia.
Qed.

Lemma fbyte_pwrite F off data x :
  0 ≤ off → 0 ≤ x →
  fbyte (pwrite F off data) x = if decide (off ≤ x < off + blen data) then fbyte data (x - off) else fbyte F x.
Proof.
  intros Hoff Hx. destruct (decide (data = [])) as [->|Hd].
  { rewrite blen_nil, decide_False by lia. done. }
  pose proof (blen_pwrite F off data Hoff Hd) as Hl.
  destruct (Z.lt_ge_cases x (Z.max (blen F) (off + blen data))).
  - unfold fbyte at 1. rewrite lookup_pwrite by (done || lia). case_decide; done.
  - rewrite decide_False, !fbyte_past by lia. done.
Qed.

(** [copy_from_slice] inside the file. *)
Lemma copy_at_pwrite F off data :
  0 ≤ off → off + blen data ≤ blen F → copy_at F off data = Ok (pwrite F off data).
Proof.
  intros. rewrite copy_at_ok by lia. f_equal. unfold pwrite. destruct data as [|b data].
  - rewrite blen_nil, Z.add_0_r, app_nil_l. apply take_drop.
  - set (d := b :: data) in *. clearbody d. replace (Z.to_nat (off + blen d - blen F)) with 0%nat by lia.
    cbn [zeros replicate]. by rewrite app_nil_r.
Qed.

Lemma blen_pread F off n : 0 ≤ off → 0 ≤ n → blen (pread F off n) = Z.max 0 (Z.min n (blen F - off)).
Proof. intros. unfold pread. rewrite blen_take, blen_drop by lia. lia. Qed.

Lemma fbyte_pread F off n x : 0 ≤ off → 0 ≤ x < n → fbyte (pread F off n) x = fbyte F (off + x).
Proof. intros. unfold pread. by rewrite fbyte_take, fbyte_drop by lia. Qed.

(** The bytes that [f] gives to [lo, lo + n); a file with the bytes [f]. *)
Definition segment (f : Z → Init.Byte.byte) (lo n : Z) : bytes := f <$> seqZ lo n.
Definition tabulate (f : Z → Init.Byte.byte) (n : Z) : bytes := segment f 0 n.

Lemma blen_segment f lo n : 0 ≤ n → blen (segment f lo n) = n.
Proof. intros. unfold segment. rewrite blen_fmap. unfold blen. rewrite length_seqZ. lia. Qed.

Lemma fbyte_segment f lo n x : 0 ≤ x < n → fbyte (segment f lo n) x = f (lo + x).
Proof.
  intros. unfold fbyte, segment. rewrite list_lookup_fmap, (lookup_seqZ_lt lo n) by lia. cbn. f_equal. lia.
Qed.

Lemma segment_ext F f lo n : 0 ≤ n → blen F = n → (∀ x, 0 ≤ x < n → fbyte F x = f (lo + x)) → F = segment f lo n.
Proof.
  intros Hn Hl Hb. apply file_ext; [by rewrite blen_segment|]. intros x Hx.
  rewrite fbyte_segment by lia. apply Hb. lia.
Qed.

Lemma segment_app f lo n m : 0 ≤ n → 0 ≤ m → segment f lo n ++ segment f (lo + n) m = segment f lo (n + m).
Proof. intros. unfold segment. rewrite <-fmap_app. f_equal. symmetry. by apply seqZ_app. Qed.

Lemma segment_empty f lo n : n ≤ 0 → segment f lo n = [].
Proof. intros. unfold segment. by rewrite seqZ_nil by done. Qed.

Lemma pread_tabulate f n off len :
  0 ≤ off → 0 ≤ len → 0 ≤ n → pread (tabulate f n) off len = segment f off (Z.max 0 (Z.min len (n - off))).
Proof.
  intros. apply segment_ext; [lia| |].
  - rewrite blen_pread by done. unfold tabulate. rewrite blen_segment by done. lia.
  - intros x Hx. rewrite fbyte_pread by lia. unfold tabulate. rewrite fbyte_segment by lia. done.
Qed.

End PosixFile.
