(* ===== verification/WbCache.v ===== *)
(** * The write-back cache of an open file handle

    [crates/sfs-mount/src/wbcache.rs]: the bytes written through a handle are
    kept as coalesced dirty extents over a base file that is read lazily.  The
    [BTreeMap] of extents is the ordered map of [BTree]; the base reader is a
    fallible closure with a state of its own ([FnMut]), as the adapter passes
    one that fills a read-ahead window.

    [extents_wf] is the invariant the source states (extents do not overlap and
    are never adjacent); [dirty_at] is the byte a set of extents holds at an
    offset, and [file] the file a handle shows.  The theorems say that every
    operation acts on that file as the POSIX call it implements does. *)

From S2P Require Import Prelude BTree Posix.

Module WbCache.
Import PosixFile.

Record t := {
  len : Z;
  ranges : BTreeMap.t bytes;
  dirty : bool;
}.

Definition new (base_len : Z) : t := {| len := base_len; ranges := []; dirty := false |}.

Definition is_dirty (c : t) : bool := dirty c.
Definition is_empty (c : t) : bool := len c =? 0.

(** [r_start + r_data.len() as u64] *)
Definition extent_end (e : Z * bytes) : res Z := add64 e.1 (blen e.2).

(** [self.ranges.range(..k).next_back()] *)
Definition last_lt (m : BTreeMap.t bytes) (k : Z) : option (Z * bytes) :=
  last (filter (λ e, e.1 < k) m).

(** The keys of [range(..=end)] whose extent reaches [new_start]. *)
Fixpoint reaching (m : BTreeMap.t bytes) (new_start : Z) : res (list Z) :=
  match m with
  | [] => Ok []
  | e :: m' =>
      r_end ← extent_end e;
      ks ← reaching m' new_start;
      Ok (if new_start <=? r_end then e.1 :: ks else ks)
  end.

(** One iteration of the merge loop: the union of the extent being built and
    one existing extent. *)
Definition merge_extent (r_start : Z) (r_data : bytes) (new_start : Z) (new_data : bytes)
    : res (Z * bytes) :=
  r_end ← add64 r_start (blen r_data);
  '(new_start, new_data) ←
    (if r_start <? new_start then
       prefix ← index_range r_data 0 (new_start - r_start);
       Ok (r_start, prefix ++ new_data)
     else Ok (new_start, new_data));
  current_end ← add64 new_start (blen new_data);
  if current_end <? r_end then
    suffix_start ← sub64 current_end r_start;
    suffix ← index_range r_data suffix_start (blen r_data);
    Ok (new_start, new_data ++ suffix)
  else Ok (new_start, new_data).

Fixpoint merge_all (ks : list Z) (m : BTreeMap.t bytes) (new_start : Z) (new_data : bytes)
    : res (BTreeMap.t bytes * Z * bytes) :=
  match ks with
  | [] => Ok (m, new_start, new_data)
  | r_start :: ks' =>
      match BTreeMap.get m r_start with
      | None => Panic
      | Some r_data =>
          '(new_start, new_data) ← merge_extent r_start r_data new_start new_data;
          merge_all ks' (BTreeMap.remove m r_start) new_start new_data
      end
  end.

(** The in-place append: the left neighbour that ends exactly at [offset], when
    no extent starts in [(offset, end]]. *)
Definition append_target (m : BTreeMap.t bytes) (offset end_ : Z) : res (option (Z * bytes)) :=
  match last_lt m offset with
  | Some e =>
      r_end ← extent_end e;
      Ok (if (r_end =? offset) && bool_decide (filter (λ e, offset < e.1 ≤ end_) m = [])
          then Some e else None)
  | None => Ok None
  end.

Definition write (c : t) (offset : Z) (data : bytes) : res t :=
  match data with
  | [] => Ok c
  | _ =>
      end_ ← add64 offset (blen data);
      target ← append_target (ranges c) offset end_;
      ranges' ←
        match target with
        | Some (r_start, r_data) => Ok (BTreeMap.insert (ranges c) r_start (r_data ++ data))
        | None =>
            to_merge ← reaching (filter (λ e, e.1 ≤ end_) (ranges c)) offset;
            '(m, new_start, new_data) ← merge_all to_merge (ranges c) offset data;
            rel_offset ← sub64 offset new_start;
            new_data ← copy_at new_data rel_offset data;
            Ok (BTreeMap.insert m new_start new_data)
        end;
      Ok {| len := if len c <? end_ then end_ else len c; ranges := ranges'; dirty := true |}
  end.

Section read_through.
Context {S : Type} (base_reader : Z → Z → St S bytes).

(** The dirty extent that covers [pos]. *)
Definition covering (m : BTreeMap.t bytes) (pos : Z) : res (option (Z * bytes)) :=
  match BTreeMap.last_le m pos with
  | Some e => r_end ← extent_end e; Ok (if pos <? r_end then Some e else None)
  | None => Ok None
  end.

(** [while pos < end], with [out] the bytes assembled so far. *)
Fixpoint read_loop (fuel : nat) (m : BTreeMap.t bytes) (pos end_ : Z) (out : bytes)
    : St S bytes :=
  if pos <? end_ then
    match fuel with
    | O => lift Panic
    | Datatypes.S fuel' =>
        cov ← lift (covering m pos);
        match cov with
        | Some (r_start, r_data) =>
            r_end ← lift (add64 r_start (blen r_data));
            let from := pos - r_start in
            let to := Z.min (Z.min r_end end_ - r_start) (blen r_data) in
            s ← lift (index_range r_data from to);
            pos ← lift (add64 r_start to);
            read_loop fuel' m pos end_ (out ++ s)
        | None =>
            let next_dirty_start :=
              match head (BTreeMap.range_from m pos) with
              | Some e => e.1
              | None => end_
              end in
            let gap_end := Z.min next_dirty_start end_ in
            gap_len ← lift (sub64 gap_end pos);
            base_bytes ← base_reader pos gap_len;
            if blen base_bytes <? gap_len then
              read_loop fuel' m gap_end end_
                (out ++ base_bytes ++ zeros (Z.to_nat (gap_len - blen base_bytes)))
            else
              s ← lift (index_range base_bytes 0 gap_len);
              read_loop fuel' m gap_end end_ (out ++ s)
        end
    end
  else mret out.

Definition read_through (c : t) (offset size : Z) : St S bytes :=
  if (size =? 0) || (len c <=? offset) then mret []
  else
    req_end ← lift (add64 offset size);
    let end_ := Z.min req_end (len c) in
    let total := end_ - offset in
    match ranges c with
    | [] =>
        b ← base_reader offset total;
        mret (if blen b =? total then b else resize (Z.to_nat total) Init.Byte.x00 b)
    | _ => read_loop (Z.to_nat total) (ranges c) offset end_ []
    end.

End read_through.

Definition truncate (c : t) (new_len : Z) : res t :=
  let m := foldl BTreeMap.remove (ranges c) (BTreeMap.range_from (ranges c) new_len).*1 in
  m' ←
    match last_lt m new_len with
    | Some (last_start, data) =>
        last_end ← add64 last_start (blen data);
        Ok (if new_len <? last_end
            then BTreeMap.insert m last_start (take (Z.to_nat (new_len - last_start)) data)
            else m)
    | None => Ok m
    end;
  Ok {| len := new_len; ranges := m'; dirty := true |}.

Definition take_dirty_ranges (c : t) : option (list (Z * bytes)) * t :=
  if dirty c then
    (Some (ranges c), {| len := len c; ranges := []; dirty := false |})
  else (None, c).

(** ** Extents *)

Definition covers (e : Z * bytes) (x : Z) : Prop := e.1 ≤ x < e.1 + blen e.2.
Definition byte_of (e : Z * bytes) (x : Z) : option Init.Byte.byte := e.2 !! Z.to_nat (x - e.1).

(** The byte a set of extents holds at an offset. *)
Definition dirty_at (m : BTreeMap.t bytes) (x : Z) : option Init.Byte.byte :=
  match BTreeMap.last_le m x with
  | Some e => byte_of e x
  | None => None
  end.

(** Extents start inside the address space, are not empty, and are separated
    by at least one clean byte. *)
Record extents_wf (m : BTreeMap.t bytes) : Prop := {
  ew_sorted : BTreeMap.sorted m;
  ew_start : ∀ e, e ∈ m → 0 ≤ e.1;
  ew_nonempty : ∀ e, e ∈ m → 0 < blen e.2;
  ew_gap : ∀ e e', e ∈ m → e' ∈ m → e.1 < e'.1 → e.1 + blen e.2 < e'.1;
}.

(** The invariant of a cache: its extents also end inside the file. *)
Record wf (c : t) : Prop := {
  wf_len : u64 (len c);
  wf_extents : extents_wf (ranges c);
  wf_inside : ∀ e, e ∈ ranges c → e.1 + blen e.2 ≤ len c;
  wf_dirty : dirty c = false → ranges c = [];
}.

(** *** The bytes of a set of extents *)

Lemma byte_of_is_Some e x : covers e x → is_Some (byte_of e x).
Proof.
  unfold covers, byte_of, blen. intros. apply lookup_lt_is_Some. lia.
Qed.

Lemma byte_of_Some e x b : byte_of e x = Some b → e.1 ≤ x → covers e x.
Proof.
  unfold covers, byte_of, blen. intros Hb%lookup_lt_Some ?. lia.
Qed.

Lemma extents_disjoint m e e' x :
  extents_wf m → e ∈ m → e' ∈ m → covers e x → covers e' x → e = e'.
Proof.
  intros Hwf He He' ??. unfold covers in *.
  destruct (Z.lt_trichotomy e.1 e'.1) as [Hlt|[Heq|Hlt]].
  - pose proof (ew_gap _ Hwf _ _ He He' Hlt). lia.
  - destruct e as [k d], e' as [k' d']. cbn in Heq. subst k'. f_equal.
    eapply BTreeMap.sorted_unique; [apply Hwf|done..].
  - pose proof (ew_gap _ Hwf _ _ He' He Hlt). lia.
Qed.

Lemma dirty_at_Some m x b :
  extents_wf m → dirty_at m x = Some b ↔ ∃ e, e ∈ m ∧ covers e x ∧ byte_of e x = Some b.
Proof.
  intros Hwf. unfold dirty_at. split.
  - destruct (BTreeMap.last_le m x) as [e|] eqn:E; [|done].
    apply BTreeMap.last_le_Some in E as (?&?&_); [|apply Hwf]. eauto using byte_of_Some.
  - intros (e&He&Hc&Hb). destruct (BTreeMap.last_le m x) as [e'|] eqn:E.
    + apply BTreeMap.last_le_Some in E as (He'&Hle&Hmax); [|apply Hwf].
      destruct (decide (e.1 = e'.1)) as [Heq|Hne].
      * destruct e as [k d], e' as [k' d']; cbn in *; subst k'.
        by rewrite (BTreeMap.sorted_unique m k d' d (ew_sorted _ Hwf) He' He).
      * assert (e.1 < e'.1) as Hlt by (specialize (Hmax e He); unfold covers in *; lia).
        pose proof (ew_gap _ Hwf _ _ He He' Hlt). unfold covers in *. lia.
    + pose proof (BTreeMap.last_le_None _ _ _ E He). unfold covers in *. lia.
Qed.

Lemma dirty_at_cover m e x :
  extents_wf m → e ∈ m → covers e x → dirty_at m x = byte_of e x.
Proof.
  intros Hwf He Hc. destruct (byte_of_is_Some e x Hc) as [b Hb]. rewrite Hb.
  apply dirty_at_Some; eauto.
Qed.

Lemma dirty_at_None m x :
  extents_wf m → dirty_at m x = None ↔ ∀ e, e ∈ m → ¬ covers e x.
Proof.
  intros Hwf. split.
  - intros Hn e He Hc. rewrite (dirty_at_cover m e x) in Hn by done.
    destruct (byte_of_is_Some e x Hc). congruence.
  - intros Hn. destruct (dirty_at m x) as [b|] eqn:E; [|done].
    apply dirty_at_Some in E as (e&He&Hc&_); [|done]. by destruct (Hn e).
Qed.

Lemma dirty_at_nil x : dirty_at [] x = None.
Proof. done. Qed.

Lemma extents_wf_nil : extents_wf [].
Proof.
  split; [constructor|by intros ? ?%not_elem_of_nil..|by intros ??[]%not_elem_of_nil].
Qed.

(** Two sets of extents with the same bytes outside a window, one of which
    holds [e] over the window. *)
Lemma dirty_at_replace m m' e (gone : Z * bytes → Prop) x :
  extents_wf m → extents_wf m' →
  (∀ d, d ∈ m' ↔ d = e ∨ d ∈ m ∧ ¬ gone d) →
  (∀ d, d ∈ m → gone d → covers d x → covers e x) →
  dirty_at m' x = if decide (covers e x) then byte_of e x else dirty_at m x.
Proof.
  intros Hm Hm' Hin Hgone. case_decide as Hc.
  - apply dirty_at_cover; [done| |done]. apply Hin. by left.
  - apply option_eq. intros b. rewrite !dirty_at_Some by done. split.
    + intros (d&Hd&?&?). apply Hin in Hd as [->|[Hd ?]]; [done|eauto].
    + intros (d&Hd&?&?). exists d. split; [|done]. apply Hin. right. split; [done|].
      naive_solver.
Qed.

(** *** The merge loop of [write] *)

(** The union of an extent with one that touches it. *)
Lemma merge_extent_union e ns nd :
  e.1 ≤ ns + blen nd → ns ≤ e.1 + blen e.2 → ns + blen nd < 2 ^ 64 → e.1 + blen e.2 < 2 ^ 64 →
  ∃ nd', merge_extent e.1 e.2 ns nd = Ok (Z.min ns e.1, nd') ∧
    Z.min ns e.1 + blen nd' = Z.max (ns + blen nd) (e.1 + blen e.2) ∧
    ∀ x, Z.min ns e.1 ≤ x < Z.min ns e.1 + blen nd' →
      byte_of (Z.min ns e.1, nd') x =
        if decide (ns ≤ x < ns + blen nd) then byte_of (ns, nd) x else byte_of e x.
Proof.
  destruct e as [rs rd]. cbn [fst snd]. intros.
  pose proof (blen_nonneg rd). pose proof (blen_nonneg nd).
  unfold merge_extent, byte_of. rewrite add64_ok by lia. cbn [mbind res_bind fst snd].
  destruct (Z.ltb_spec rs ns).
  - rewrite Z.min_r, index_range_ok by lia. cbn [mbind res_bind].
    rewrite add64_ok by len_lia. cbn [mbind res_bind].
    case_match.
    + rewrite sub64_ok by len_lia. cbn [mbind res_bind]. rewrite index_range_ok by len_lia.
      cbn [mbind res_bind]. eexists. split; [done|]. split; [len_lia|].
      intros x Hx. case_decide; [lookup_lia|]. destruct (Z.lt_ge_cases x ns); lookup_lia.
    + eexists. split; [done|]. split; [len_lia|].
      intros x Hx. case_decide; lookup_lia.
  - rewrite Z.min_l by lia. cbn [mbind res_bind]. rewrite add64_ok by lia. cbn [mbind res_bind].
    case_match.
    + rewrite sub64_ok by len_lia. cbn [mbind res_bind]. rewrite index_range_ok by len_lia.
      cbn [mbind res_bind]. eexists. split; [done|]. split; [len_lia|].
      intros x Hx. case_decide; lookup_lia.
    + eexists. split; [done|]. split; [len_lia|].
      intros x Hx. by rewrite decide_True by len_lia.
Qed.

Section merge.
Context (m : BTreeMap.t bytes) (offset end_ limit : Z).
Context (Hm : extents_wf m) (Hoff : 0 ≤ offset < end_) (Hlim : end_ ≤ limit < 2 ^ 64).
Context (Hinside : ∀ e, e ∈ m → e.1 + blen e.2 ≤ limit).

(** Overlapping or adjacent to the write. *)
Definition touches (e : Z * bytes) : Prop := e.1 ≤ end_ ∧ offset ≤ e.1 + blen e.2.

(** The extent built after merging the extents of [G]: outside the window of
    the write it holds their bytes, and its ends are theirs or the window's. *)
Record built (G : Z * bytes → Prop) (ns : Z) (nd : bytes) : Prop := {
  bu_start : 0 ≤ ns ≤ offset;
  bu_end : end_ ≤ ns + blen nd ≤ limit;
  bu_bytes : ∀ x, ns ≤ x < ns + blen nd → ¬ (offset ≤ x < end_) →
    ∃ e, G e ∧ covers e x ∧ byte_of (ns, nd) x = byte_of e x;
  bu_within : ∀ e, G e → ns ≤ e.1 ∧ e.1 + blen e.2 ≤ ns + blen nd;
  bu_left : ns = offset ∨ ∃ e, G e ∧ e.1 = ns;
  bu_right : ns + blen nd = end_ ∨ ∃ e, G e ∧ e.1 + blen e.2 = ns + blen nd;
}.

Lemma built_start data :
  offset + blen data = end_ → built (λ _, False) offset data.
Proof. intros. split; [lia..|intros ???; lia|done|by left|by left]. Qed.

Lemma built_merge G e ns nd :
  built G ns nd → e ∈ m → touches e →
  ∃ ns' nd', merge_extent e.1 e.2 ns nd = Ok (ns', nd') ∧ built (λ d, G d ∨ d = e) ns' nd'.
Proof.
  intros [] He [? ?]. pose proof (Hinside e He).
  destruct (merge_extent_union e ns nd) as (nd'&Hr&Hlen&Hbytes); [lia..|].
  exists (Z.min ns e.1), nd'. split; [done|]. split.
  - pose proof (ew_start _ Hm e He). lia.
  - lia.
  - intros x Hx Hwin. rewrite Hbytes by lia. case_decide as Hin.
    + destruct (bu_bytes0 x Hin Hwin) as (d&?&?&?). eauto.
    + exists e. split_and!; [by right|unfold covers; lia|done].
  - intros d [Hd| ->]; [|lia]. apply bu_within0 in Hd. lia.
  - destruct (Z.le_ge_cases ns e.1); [rewrite Z.min_l by lia|rewrite Z.min_r by lia; eauto].
    destruct bu_left0 as [|(d&?&?)]; eauto.
  - destruct (Z.le_ge_cases (ns + blen nd) (e.1 + blen e.2)).
    { right. exists e. split; [by right|lia]. }
    destruct bu_right0 as [?|(d&?&?)]; [left; lia|]. right. exists d. split; [by left|lia].
Qed.

Lemma built_ext (G G' : Z * bytes → Prop) ns nd :
  (∀ d, G d ↔ G' d) → built G ns nd → built G' ns nd.
Proof. clear Hm Hoff Hlim Hinside. intros HG []. split; naive_solver. Qed.

Lemma merge_all_spec ks m0 G ns nd :
  built G ns nd → NoDup ks → BTreeMap.sorted m0 → (∀ d, d ∈ m0 → d ∈ m) →
  (∀ k, k ∈ ks → ∃ rd, (k, rd) ∈ m0 ∧ touches (k, rd)) →
  ∃ m' ns' nd', merge_all ks m0 ns nd = Ok (m', ns', nd') ∧ BTreeMap.sorted m' ∧
    (∀ d, d ∈ m' ↔ d ∈ m0 ∧ d.1 ∉ ks) ∧ built (λ d, G d ∨ d ∈ m0 ∧ d.1 ∈ ks) ns' nd'.
Proof.
  revert m0 G ns nd. induction ks as [|k ks IH]; intros m0 G ns nd Hb Hnd Hs Hsub Hks; cbn.
  { exists m0, ns, nd. split_and!; [done..| |].
    - intros d. split; [|by intros []]. intros ?. split; [done|]. apply not_elem_of_nil.
    - eapply built_ext; [|done]. intros d. rewrite elem_of_nil. naive_solver. }
  inversion_clear Hnd as [|?? Hk Hnd'].
  destruct (Hks k ltac:(by left)) as (rd&Hin&Ht).
  rewrite (proj1 (BTreeMap.elem_of_get _ _ _ Hs) Hin).
  destruct (built_merge G (k, rd) ns nd Hb (Hsub _ Hin) Ht) as (ns1&nd1&Hr&Hb1).
  cbn [fst snd] in Hr. rewrite Hr. cbn [mbind res_bind].
  destruct (IH (BTreeMap.remove m0 k) _ ns1 nd1 Hb1 Hnd') as (m'&ns'&nd'&->&Hs'&Hm'&Hb').
  - by apply BTreeMap.sorted_remove.
  - intros d [??]%BTreeMap.elem_of_remove. auto.
  - intros k' Hk'. destruct (Hks k' ltac:(by right)) as (rd'&?&?). exists rd'. split; [|done].
    apply BTreeMap.elem_of_remove. split; [done|]. cbn. congruence.
  - exists m', ns', nd'. split_and!; [done..| |].
    + intros d. rewrite Hm', BTreeMap.elem_of_remove, elem_of_cons. naive_solver.
    + eapply built_ext; [|exact Hb']. intros [k' rd']. cbn.
      rewrite BTreeMap.elem_of_remove, elem_of_cons. cbn. split.
      * intros [[?|[= -> ->]]|[[??]?]]; auto.
      * intros [?|[Hin' [->|?]]]; [by left; left| |].
        -- left. right. f_equal. by apply (BTreeMap.sorted_unique m0 _ _ _ Hs Hin').
        -- destruct (decide (k' = k)) as [->|]; [done|]. by right.
Qed.

(** What is left lies strictly outside what was merged. *)
Lemma built_separate ns nd d :
  built (λ e, e ∈ m ∧ touches e) ns nd → d ∈ m → ¬ touches d →
  d.1 + blen d.2 < ns ∨ ns + blen nd < d.1.
Proof.
  intros [] Hd Ht. unfold touches in *.
  assert (d.1 + blen d.2 < offset ∨ end_ < d.1) as [?|?] by lia.
  - left. destruct bu_left0 as [->|(e&(He&_&?)&<-)]; [done|].
    apply (ew_gap _ Hm); [done..|]. pose proof (ew_nonempty _ Hm _ Hd).
    destruct (Z.lt_ge_cases d.1 e.1) as [|Hge]; [done|exfalso].
    destruct (decide (d.1 = e.1)) as [Heq|].
    + destruct d as [k dd], e as [k' dd']; cbn in *; subst k'.
      assert (dd = dd') as -> by (apply (BTreeMap.sorted_unique m k); [apply Hm|done..]). lia.
    + pose proof (ew_gap _ Hm e d He Hd ltac:(lia)). lia.
  - right. destruct bu_right0 as [->|(e&(He&?&_)&<-)]; [done|].
    apply (ew_gap _ Hm); [done..|]. lia.
Qed.

(** Replacing everything the write touches by the extent that was built. *)
Lemma built_insert ns nd nd' m' :
  built (λ e, e ∈ m ∧ touches e) ns nd → blen nd' = blen nd →
  BTreeMap.sorted m' → (∀ d, d ∈ m' ↔ d ∈ m ∧ ¬ touches d) →
  (∀ x, ns ≤ x < ns + blen nd → ¬ (offset ≤ x < end_) → byte_of (ns, nd') x = byte_of (ns, nd) x) →
  let m'' := BTreeMap.insert m' ns nd' in
  extents_wf m'' ∧ (∀ e, e ∈ m'' → e.1 + blen e.2 ≤ limit) ∧
  ∀ x, dirty_at m'' x =
    if decide (offset ≤ x < end_) then byte_of (ns, nd') x else dirty_at m x.
Proof.
  intros Hb Hlen Hs Hm' Hout m''.
  assert (∀ d, d ∈ m'' ↔ d = (ns, nd') ∨ d ∈ m ∧ ¬ touches d) as Hin.
  { intros d. unfold m''. rewrite BTreeMap.elem_of_insert, Hm' by done. split; [naive_solver|].
    intros [->|[? Ht]]; [by left|]. right. split; [done|]. intros Heq.
    pose proof (ew_nonempty _ Hm d ltac:(done)). destruct Hb.
    destruct (built_separate ns nd d ltac:(by split) ltac:(done) Ht); lia. }
  assert (extents_wf m'') as Hwf.
  { destruct Hb. split.
    - by apply BTreeMap.sorted_insert.
    - intros e [->|[? _]]%Hin; [cbn; lia|by apply (ew_start _ Hm)].
    - intros e [->|[? _]]%Hin; [cbn; lia|by apply (ew_nonempty _ Hm)].
    - intros e e' [->|[??]]%Hin [->|[??]]%Hin; cbn [fst snd]; [lia|..|by apply (ew_gap _ Hm)];
        intros ?; match goal with H : ¬ touches ?d, H' : ?d ∈ m |- _ =>
          destruct (built_separate ns nd d ltac:(by split) H' H); [|lia];
          pose proof (ew_nonempty _ Hm d H'); lia end. }
  split_and!; [done|..].
  - destruct Hb. intros e [->|[? _]]%Hin; [cbn; lia|by apply Hinside].
  - intros x. rewrite (dirty_at_replace m m'' (ns, nd') touches x Hm Hwf Hin).
    + destruct Hb. unfold covers. cbn [fst snd]. rewrite Hlen. repeat case_decide; [done| |lia|done].
      destruct (bu_bytes0 x) as (e&[He _]&Hc&Hbe); [done..|].
      by rewrite Hout, Hbe, (dirty_at_cover m e x).
    + intros d Hd Ht. unfold covers. cbn. destruct Hb. specialize (bu_within0 d (conj Hd Ht)). lia.
Qed.

End merge.

(** *** [write] *)

Lemma extent_end_ok limit e : limit < 2 ^ 64 → e.1 + blen e.2 ≤ limit → extent_end e = Ok (e.1 + blen e.2).
Proof. intros. apply add64_ok. lia. Qed.

Lemma reaching_spec limit m1 ns :
  limit < 2 ^ 64 → (∀ e, e ∈ m1 → e.1 + blen e.2 ≤ limit) →
  reaching m1 ns = Ok (filter (λ e, ns ≤ e.1 + blen e.2) m1).*1.
Proof.
  intros Hl. induction m1 as [|e m1 IH]; intros Hm1; [done|]. cbn [reaching].
  rewrite (extent_end_ok limit) by (try apply Hm1; try left; done). cbn [mbind res_bind].
  rewrite IH by (intros; apply Hm1; by right). cbn [mbind res_bind].
  rewrite filter_cons. case_decide; [by rewrite (proj2 (Z.leb_le _ _))|].
  by replace (ns <=? e.1 + blen e.2) with false by lia.
Qed.

(** The bytes a write leaves in the cache. *)
Definition written (m : BTreeMap.t bytes) (offset : Z) (data : bytes) (x : Z)
    : option Init.Byte.byte :=
  if decide (offset ≤ x < offset + blen data) then data !! Z.to_nat (x - offset)
  else dirty_at m x.

Section write.
Context (m : BTreeMap.t bytes) (offset : Z) (data : bytes) (limit : Z).
Context (Hm : extents_wf m) (Hoff : 0 ≤ offset) (Hdata : 0 < blen data).
Context (Hlim : offset + blen data ≤ limit < 2 ^ 64).
Context (Hinside : ∀ e, e ∈ m → e.1 + blen e.2 ≤ limit).
Abbreviation end_ := (offset + blen data).

Definition write_result (m' : BTreeMap.t bytes) : Prop :=
  extents_wf m' ∧ (∀ e, e ∈ m' → e.1 + blen e.2 ≤ limit) ∧
  ∀ x, dirty_at m' x = written m offset data x.

(** The general path: merge, overlay, insert. *)
Lemma write_merge_spec :
  ∃ ks m1 ns nd nd' m',
    reaching (filter (λ e, e.1 ≤ end_) m) offset = Ok ks ∧
    merge_all ks m offset data = Ok (m1, ns, nd) ∧
    sub64 offset ns = Ok (offset - ns) ∧
    copy_at nd (offset - ns) data = Ok nd' ∧
    m' = BTreeMap.insert m1 ns nd' ∧ write_result m'.
Proof.
  set (G := λ e, e ∈ m ∧ touches offset end_ e).
  rewrite (reaching_spec limit);
    [|lia|intros e [_ ?]%list_elem_of_filter; by apply Hinside].
  set (ks := (filter _ (filter _ m)).*1).
  assert (∀ k, k ∈ ks ↔ ∃ rd, (k, rd) ∈ m ∧ touches offset end_ (k, rd)) as Hks.
  { intros k. unfold ks, touches. rewrite list_elem_of_fmap. split.
    - intros ([k' rd]&->&(?&[??]%list_elem_of_filter)%list_elem_of_filter). eauto.
    - intros (rd&?&?&?). exists (k, rd). split; [done|]. by rewrite !list_elem_of_filter. }
  assert (∀ d, d ∈ m → d.1 ∈ ks ↔ touches offset end_ d) as Hks'.
  { intros [k rd] Hd. rewrite Hks. cbn. split; [|eauto]. intros (rd'&Hd'&?).
    by rewrite (BTreeMap.sorted_unique m k rd rd' (ew_sorted _ Hm) Hd Hd'). }
  destruct (merge_all_spec m offset end_ limit Hm ltac:(lia) Hlim Hinside ks m (λ _, False)
    offset data) as (m1&ns&nd&Hr&Hs1&Hm1&Hb).
  - by apply built_start; [lia..|].
  - by apply BTreeMap.sorted_keys_nodup, BTreeMap.sorted_filter, BTreeMap.sorted_filter, Hm.
  - apply Hm.
  - done.
  - intros k. by rewrite Hks.
  - assert (built offset end_ limit G ns nd) as HbG.
    { eapply built_ext; [|exact Hb]. intros d. unfold G. split; [intros [[]|[? Hd]]|];
        [by rewrite <-Hks'|intros [??]; right; by rewrite Hks']. }
    pose proof (bu_start _ _ _ _ _ _ HbG). pose proof (bu_end _ _ _ _ _ _ HbG).
    exists ks, m1, ns, nd. eexists _, _. split_and!; [done..|by apply sub64_ok; lia| |done|].
    { apply copy_at_ok; lia. }
    destruct (built_insert m offset end_ limit Hm ltac:(lia) Hlim Hinside ns nd
      (take (Z.to_nat (offset - ns)) nd ++ data ++ drop (Z.to_nat (offset - ns + blen data)) nd) m1
      HbG) as (?&?&Hd); [len_lia|done| | |].
    { intros d. rewrite Hm1. split; intros [Hd ?]; specialize (Hks' d Hd); tauto. }
    { intros x Hx Hw. unfold byte_of. cbn.
      destruct (Z.lt_ge_cases x offset); lookup_lia. }
    split_and!; [done..|]. intros x. rewrite Hd. unfold written, byte_of. cbn.
    case_decide; lookup_lia.
Qed.

Lemma append_target_spec :
  ∃ target, append_target m offset end_ = Ok target ∧
    ∀ e, target = Some e →
      e ∈ m ∧ e.1 + blen e.2 = offset ∧ ∀ d, d ∈ m → ¬ (offset < d.1 ≤ end_).
Proof.
  unfold append_target. destruct (last_lt m offset) as [e|] eqn:El; [|by eexists].
  apply last_Some_elem_of, list_elem_of_filter in El as [? He].
  rewrite (extent_end_ok limit) by (try apply Hinside; lia || done). cbn [mbind res_bind].
  eexists. split; [done|]. intros e'. destruct (_ && _) eqn:E; [|done]. intros [= <-].
  apply andb_true_iff in E as [? E]. split_and!; [done|lia|]. intros d Hd Hin.
  apply bool_decide_eq_true in E. apply (not_elem_of_nil (A := Z * bytes) d). rewrite <-E.
  by apply list_elem_of_filter.
Qed.

(** The in-place append is the merge with the left neighbour alone. *)
Lemma write_append_spec e :
  e ∈ m → e.1 + blen e.2 = offset → (∀ d, d ∈ m → ¬ (offset < d.1 ≤ end_)) →
  write_result (BTreeMap.insert m e.1 (e.2 ++ data)).
Proof.
  intros He Hend Hno. pose proof (ew_nonempty _ Hm _ He). pose proof (ew_start _ Hm _ He).
  assert (∀ d, d ∈ m → touches offset end_ d ↔ d = e) as Ht.
  { intros d Hd. unfold touches. split; [|intros ->; lia]. intros [??].
    destruct (Z.lt_trichotomy d.1 e.1) as [Hlt|[Heq|Hlt]].
    - pose proof (ew_gap _ Hm _ _ Hd He Hlt). lia.
    - destruct d as [k dd], e as [k' dd']; cbn in *; subst k'. f_equal.
      apply (BTreeMap.sorted_unique m k); [apply Hm|done..].
    - pose proof (ew_gap _ Hm _ _ He Hd Hlt). specialize (Hno d Hd). lia. }
  assert (BTreeMap.insert m e.1 (e.2 ++ data)
          = BTreeMap.insert (BTreeMap.remove m e.1) e.1 (e.2 ++ data)) as ->.
  { pose proof (ew_sorted _ Hm). apply BTreeMap.sorted_ext; auto. intros d.
    rewrite !BTreeMap.elem_of_insert, BTreeMap.elem_of_remove by auto. naive_solver. }
  destruct (built_insert m offset end_ limit Hm ltac:(lia) Hlim Hinside e.1 (e.2 ++ data)
    (e.2 ++ data) (BTreeMap.remove m e.1)) as (?&?&Hd).
  - split; [lia|len_lia|..].
    + intros x ??. exists e. split_and!; [done|by apply Ht|unfold covers; len_lia..|].
      unfold byte_of. cbn. lookup_lia.
    + intros d [Hd ->%Ht]; [|done]. len_lia.
    + right. exists e. split_and!; [done|by apply Ht|done].
    + left. len_lia.
  - done.
  - apply BTreeMap.sorted_remove, Hm.
  - intros d. rewrite BTreeMap.elem_of_remove. split; intros [Hd Hne]; (split; [done|]).
    + rewrite Ht by done. congruence.
    + intros Heq. apply Hne, Ht; [done|]. destruct d as [k dd], e as [k' dd']; cbn in *; subst k'.
      f_equal. apply (BTreeMap.sorted_unique m k); [apply Hm|done..].
  - done.
  - split_and!; [done..|]. intros x. rewrite Hd. unfold written, byte_of. cbn.
    case_decide; lookup_lia.
Qed.

End write.

Lemma wf_new base_len : u64 base_len → wf (new base_len).
Proof. intros. split; [done|apply extents_wf_nil|by intros ? ?%not_elem_of_nil|done]. Qed.

Lemma write_spec c offset data :
  wf c → 0 ≤ offset → offset + blen data < 2 ^ 64 → data ≠ [] →
  ∃ c', write c offset data = Ok c' ∧ wf c' ∧ dirty c' = true ∧
    len c' = Z.max (len c) (offset + blen data) ∧
    ∀ x, dirty_at (ranges c') x = written (ranges c) offset data x.
Proof.
  intros [Hlen Hm Hin _] Hoff Hover Hdata. unfold write. destruct data as [|b data]; [done|].
  set (d := b :: data) in *. assert (0 < blen d) by (unfold d; rewrite blen_cons; unfold blen; lia).
  rewrite add64_ok by lia. cbn [mbind res_bind].
  set (limit := Z.max (len c) (offset + blen d)). unfold u64 in Hlen.
  assert (∀ e, e ∈ ranges c → e.1 + blen e.2 ≤ limit) as Hin' by (intros e ?%Hin; lia).
  destruct (append_target_spec (ranges c) offset d limit) as (target&->&Ht); [lia|done|].
  cbn [mbind res_bind].
  assert (∀ m', write_result (ranges c) offset d limit m' →
    ∃ c', Ok {| len := if len c <? offset + blen d then offset + blen d else len c;
                ranges := m'; dirty := true |} = Ok c' ∧ wf c' ∧ dirty c' = true ∧ len c' = limit ∧
      ∀ x, dirty_at (ranges c') x = written (ranges c) offset d x) as Hk.
  { intros m' (?&?&?). eexists. split; [done|].
    assert ((if len c <? offset + blen d then offset + blen d else len c) = limit) as ->
      by (case_match; lia).
    split_and!; [split; cbn; [unfold u64; lia|done..]|done..]. }
  destruct target as [[rs rd]|].
  - cbn [mbind res_bind]. destruct (Ht _ eq_refl) as (?&?&?). apply Hk.
    by apply (write_append_spec (ranges c) offset d limit Hm Hoff ltac:(done) ltac:(lia) Hin' (rs, rd)).
  - destruct (write_merge_spec (ranges c) offset d limit Hm Hoff ltac:(done) ltac:(lia) Hin')
      as (ks&m1&ns&nd&nd'&m'&->&Hmerge&Hsub&Hcopy&->&Hr).
    cbn [mbind res_bind]. rewrite Hmerge. cbn [mbind res_bind]. rewrite Hsub. cbn [mbind res_bind].
    rewrite Hcopy. cbn [mbind res_bind]. by apply Hk.
Qed.

(** *** [truncate] *)

Lemma elem_of_foldl_remove (ks : list Z) (m : BTreeMap.t bytes) d :
  d ∈ foldl BTreeMap.remove m ks ↔ d ∈ m ∧ d.1 ∉ ks.
Proof.
  revert m. induction ks as [|k ks IH]; intros m; cbn.
  - rewrite elem_of_nil. naive_solver.
  - rewrite IH, BTreeMap.elem_of_remove, elem_of_cons. naive_solver.
Qed.

Lemma sorted_foldl_remove (ks : list Z) (m : BTreeMap.t bytes) :
  BTreeMap.sorted m → BTreeMap.sorted (foldl BTreeMap.remove m ks).
Proof. revert m. induction ks as [|k ks IH]; intros m Hs; cbn; auto. Qed.

(** An extent cut at [n]. *)
Definition trim (n : Z) (e : Z * bytes) : Z * bytes := (e.1, take (Z.to_nat (n - e.1)) e.2).

Lemma trim_short n e : e.1 + blen e.2 ≤ n → trim n e = e.
Proof.
  destruct e as [k d]. unfold trim. cbn. intros. f_equal. apply take_ge. unfold blen in *. lia.
Qed.

Lemma blen_trim n e : e.1 < n → (trim n e).1 + blen (trim n e).2 = Z.min n (e.1 + blen e.2).
Proof. intros. cbn. rewrite blen_take by lia. lia. Qed.

Lemma truncate_extents c n :
  wf c → u64 n →
  ∃ m', truncate c n = Ok {| len := n; ranges := m'; dirty := true |} ∧ BTreeMap.sorted m' ∧
    ∀ d', d' ∈ m' ↔ ∃ d, d ∈ ranges c ∧ d.1 < n ∧ d' = trim n d.
Proof.
  intros [Hlen Hm Hin _] Hn. unfold truncate.
  set (m1 := foldl BTreeMap.remove (ranges c) _).
  assert (∀ d, d ∈ m1 ↔ d ∈ ranges c ∧ d.1 < n) as Hm1.
  { intros d. unfold m1. rewrite elem_of_foldl_remove, list_elem_of_fmap.
    split; intros [Hd Hk]; (split; [done|]).
    - apply Z.nle_gt. intros ?. apply Hk. exists d. split; [done|]. by apply BTreeMap.elem_of_range_from.
    - intros (e&?&[??]%BTreeMap.elem_of_range_from). lia. }
  assert (BTreeMap.sorted m1) as Hs1 by apply sorted_foldl_remove, Hm.
  assert (filter (λ e, e.1 < n) m1 = m1) as Hf by (apply filter_all; by intros d [_ ?]%Hm1).
  unfold last_lt. rewrite Hf. destruct (last m1) as [[ls ld]|] eqn:El.
  - pose proof (last_Some_elem_of _ _ El) as [Hl Hls]%Hm1. pose proof (Hin _ Hl). cbn [fst snd] in *.
    assert (∀ d, d ∈ m1 → d ≠ (ls, ld) → d.1 + blen d.2 ≤ n ∧ d.1 ≠ ls) as Hother.
    { intros d [Hd ?]%Hm1 Hne. pose proof (BTreeMap.sorted_last_max m1 (ls, ld) d Hs1 El) as Hmax.
      assert (d.1 ≠ ls) as Hk.
      { intros Heq. apply Hne. destruct d as [k dd]. cbn in *. subst k. f_equal.
        apply (BTreeMap.sorted_unique (ranges c) ls); [apply Hm|done..]. }
      cbn in Hmax. assert (d.1 < ls) as Hlt by (specialize (Hmax ltac:(by apply Hm1)); lia).
      pose proof (ew_gap _ Hm _ _ Hd Hl Hlt). cbn in *. lia. }
    rewrite add64_ok by width_lia. cbn [mbind res_bind]. eexists. split; [done|].
    destruct (Z.ltb_spec n (ls + blen ld)).
    + split; [by apply BTreeMap.sorted_insert|]. intros d'.
      rewrite BTreeMap.elem_of_insert by done. split.
      * intros [->|[Hd' Hk]]; [by exists (ls, ld)|]. exists d'. pose proof (proj1 (Hm1 d') Hd') as [??].
        split_and!; [done..|]. symmetry. apply trim_short. apply Hother; [done|]. by intros ->.
      * intros (d&Hd&?&->). destruct (decide (d = (ls, ld))) as [->|Hne]; [by left|right].
        assert (d ∈ m1) as Hd1 by by apply Hm1.
        destruct (Hother d Hd1 Hne). rewrite trim_short by done. done.
    + split; [done|]. intros d'. split.
      * intros Hd'. exists d'. pose proof (proj1 (Hm1 d') Hd') as [??]. split_and!; [done..|].
        symmetry. apply trim_short. destruct (decide (d' = (ls, ld))) as [->|Hne]; [done|].
        by apply Hother.
      * intros (d&Hd&?&->). assert (d ∈ m1) as Hd1 by by apply Hm1.
        rewrite trim_short; [done|]. destruct (decide (d = (ls, ld))) as [->|Hne]; [done|].
        by apply Hother.
  - apply last_None in El. cbn [mbind res_bind]. eexists. split; [done|]. split; [done|].
    intros d'. rewrite El, elem_of_nil. split; [done|]. intros (d&?&?&_).
    apply (not_elem_of_nil d). rewrite <-El. by apply Hm1.
Qed.

Lemma truncate_spec c n :
  wf c → u64 n →
  ∃ c', truncate c n = Ok c' ∧ wf c' ∧ dirty c' = true ∧ len c' = n ∧
    ∀ x, dirty_at (ranges c') x = if x <? n then dirty_at (ranges c) x else None.
Proof.
  intros Hc Hn. destruct (truncate_extents c n Hc Hn) as (m'&->&Hs&Hin).
  destruct Hc as [_ Hm Hinside _].
  assert (extents_wf m') as Hm'.
  { split; [done|..].
    - intros e (d&Hd&?&->)%Hin. by apply (ew_start _ Hm d).
    - intros e (d&Hd&?&->)%Hin. pose proof (ew_nonempty _ Hm _ Hd).
      pose proof (blen_trim n d ltac:(done)). cbn in *. lia.
    - intros e e' (d&Hd&?&->)%Hin (d'&Hd'&?&->)%Hin Hlt. rewrite blen_trim by done. cbn in *.
      pose proof (ew_gap _ Hm _ _ Hd Hd' Hlt). lia. }
  eexists. split; [done|]. cbn. split_and!; [|done..|].
  - split; cbn; [done..| |done]. intros e (d&Hd&?&->)%Hin. rewrite blen_trim by done. lia.
  - intros x. apply option_eq. intros b. destruct (Z.ltb_spec x n).
    + rewrite !dirty_at_Some by done. split.
      * intros (e&(d&Hd&?&->)%Hin&Hc&Hb). exists d. split_and!; [done|..].
        -- unfold covers in *. rewrite blen_trim in Hc by done. cbn in *. lia.
        -- unfold covers, byte_of in *. rewrite <-Hb. cbn in *.
           by rewrite lookup_take_lt by lia.
      * intros (d&Hd&Hc&Hb). exists (trim n d). unfold covers in *.
        split; [apply Hin; exists d; split_and!; [done|lia|done]|].
        rewrite blen_trim by lia. split; [cbn; lia|]. unfold byte_of in *. cbn.
        by rewrite lookup_take_lt by lia.
    + split; [|done]. intros (e&(d&Hd&?&->)%Hin&Hc&_)%dirty_at_Some; [|done].
      unfold covers in *. rewrite blen_trim in Hc by done. lia.
Qed.

Lemma take_dirty_ranges_spec c :
  wf c →
  wf (take_dirty_ranges c).2 ∧ ranges (take_dirty_ranges c).2 = [] ∧
  len (take_dirty_ranges c).2 = len c ∧ dirty (take_dirty_ranges c).2 = false ∧
  (take_dirty_ranges c).1 = if dirty c then Some (ranges c) else None.
Proof.
  intros [Hl Hm Hi Hd]. unfold take_dirty_ranges. destruct (dirty c) eqn:E; cbn.
  - split_and!; [|done..]. split; cbn; [done|apply extents_wf_nil|by intros ? ?%not_elem_of_nil|done].
  - split_and!; [by split; rewrite ?E|by apply Hd|done..].
Qed.

(** ** The file a handle shows *)

(** Dirty bytes over the base, zeros past the end of the base. *)
Definition cell (B : bytes) (m : BTreeMap.t bytes) (x : Z) : Init.Byte.byte :=
  match dirty_at m x with
  | Some b => b
  | None => default Init.Byte.x00 (B !! Z.to_nat x)
  end.

Definition file (B : bytes) (c : t) : bytes := cell B (ranges c) <$> seqZ 0 (len c).

Lemma cells_ext (f : Z → Init.Byte.byte) pos n l :
  blen l = n → (∀ i, 0 ≤ i < n → l !! Z.to_nat i = Some (f (pos + i))) → l = f <$> seqZ pos n.
Proof.
  intros Hl Hf. apply list_eq_same_length with (length l).
  - by rewrite length_fmap, length_seqZ, <-Hl; unfold blen; rewrite Nat2Z.id.
  - done.
  - intros i x y Hi Hx. rewrite list_lookup_fmap, lookup_seqZ_lt by (unfold blen in Hl; lia).
    intros [= <-]. specialize (Hf (Z.of_nat i)). rewrite Nat2Z.id in Hf.
    rewrite Hf in Hx by (unfold blen in Hl; lia). by injection Hx.
Qed.

Lemma lookup_cells (f : Z → Init.Byte.byte) pos n i :
  0 ≤ i < n → (f <$> seqZ pos n) !! Z.to_nat i = Some (f (pos + i)).
Proof. intros. rewrite list_lookup_fmap, lookup_seqZ_lt by lia. cbn. do 2 f_equal. lia. Qed.

Lemma blen_cells (f : Z → Init.Byte.byte) pos n : 0 ≤ n → blen (f <$> seqZ pos n) = n.
Proof. intros. unfold blen. rewrite length_fmap, length_seqZ. lia. Qed.

Lemma blen_file B c : wf c → blen (file B c) = len c.
Proof. intros [? _ _ _]. apply blen_cells. width_lia. Qed.

Lemma lookup_file B c x :
  0 ≤ x < len c → file B c !! Z.to_nat x = Some (cell B (ranges c) x).
Proof. intros. unfold file. by rewrite lookup_cells. Qed.

(** A slice of the file, cell by cell. *)
Lemma pread_file B c off n :
  0 ≤ off ≤ len c → 0 ≤ n →
  pread (file B c) off n = cell B (ranges c) <$> seqZ off (Z.min n (len c - off)).
Proof.
  intros. apply cells_ext.
  - unfold pread. rewrite blen_take, blen_drop by lia. unfold file. rewrite blen_cells by lia. lia.
  - intros i Hi. unfold pread. rewrite lookup_take_lt, lookup_drop by lia.
    rewrite <-Z2Nat.inj_add by lia. rewrite lookup_file by lia. done.
Qed.

(** The outcome of a fallible stateful call: a value and a state the
    postcondition holds of, or an error of [E]; never an unwinding. *)
Definition delivers {S A} (E : Error → Prop) (I : S → Prop) (P : A → Prop) (r : res A * S) : Prop :=
  match r with
  | (Ok a, s) => P a ∧ I s
  | (Err e, s) => E e ∧ I s
  | (Panic, _) => False
  end.

Lemma delivers_bind {S A B} E (I1 I : S → Prop) (P : A → Prop) (Q : B → Prop) (m : St S A) (f : A → St S B) s :
  delivers E I1 P (m s) → (∀ s', I1 s' → I s') → (∀ a s', P a → I1 s' → delivers E I Q (f a s')) →
  delivers E I Q ((m ≫= f) s).
Proof.
  unfold mbind, St_bind. intros Hm HI Hf. destruct (m s) as [[a|e|] s']; cbn in *; [by apply Hf; destruct Hm| |done].
  destruct Hm. auto.
Qed.

Lemma delivers_lift {S A B} E I (Q : B → Prop) (r : res A) a (f : A → St S B) s :
  r = Ok a → delivers E I Q (f a s) → delivers E I Q ((lift r ≫= f) s).
Proof. by intros ->. Qed.

Section read.
Context {S : Type} (base_reader : Z → Z → St S bytes) (B : bytes).
(** [I k] holds of a state from which the base can be read [k] more times. *)
Context (E : Error → Prop) (I : nat → S → Prop).
Context (Hdown : ∀ k s, I (Datatypes.S k) s → I k s).
Context (Hbase : ∀ k s p n, I (Datatypes.S k) s → 0 ≤ p → 0 ≤ n → p + n < 2 ^ 64 →
  delivers E (I k) (λ b, b = pread B p n) (base_reader p n s)).

Lemma budget_down k k' s : (k' ≤ k)%nat → I k s → I k' s.
Proof using Hdown. induction 1; auto. Qed.
Lemma budget_zero k s : I k s → I 0 s.
Proof using Hdown. induction k; auto. Qed.

Section loop.
Context (m : BTreeMap.t bytes) (Hm : extents_wf m).
Context (end_ : Z) (Hend : end_ < 2 ^ 64) (Hin : ∀ e, e ∈ m → e.1 + blen e.2 < 2 ^ 64).

Lemma covering_spec pos :
  ∃ o, covering m pos = Ok o ∧
    match o with
    | Some e => e ∈ m ∧ covers e pos
    | None => ∀ e, e ∈ m → ¬ covers e pos
    end.
Proof.
  unfold covering. destruct (BTreeMap.last_le m pos) as [e|] eqn:El.
  - pose proof (BTreeMap.last_le_Some _ _ _ (ew_sorted _ Hm) El) as (He&?&Hmax).
    unfold extent_end. rewrite add64_ok by by apply Hin. cbn [mbind res_bind].
    eexists. split; [done|]. destruct (Z.ltb_spec pos (e.1 + blen e.2)); [done|].
    intros d Hd Hc. unfold covers in *. destruct (decide (d.1 = e.1)) as [Heq|].
    + destruct d as [k dd], e as [k' dd']; cbn in *; subst k'.
      assert (dd = dd') as -> by (apply (BTreeMap.sorted_unique m k); [apply Hm|done..]). lia.
    + specialize (Hmax d Hd ltac:(lia)). pose proof (ew_gap _ Hm d e Hd He ltac:(lia)). lia.
  - eexists. split; [done|]. intros d Hd Hc. pose proof (BTreeMap.last_le_None _ _ _ El Hd).
    unfold covers in *. lia.
Qed.

(** The first extent at or after a position in a gap. *)
Lemma next_dirty_spec pos x :
  (∀ e, e ∈ m → ¬ covers e pos) →
  pos ≤ x < match head (BTreeMap.range_from m pos) with Some e => e.1 | None => end_ end →
  dirty_at m x = None ∨ end_ ≤ x.
Proof.
  intros Hgap Hx.
  assert (BTreeMap.sorted (BTreeMap.range_from m pos)) as Hs by apply BTreeMap.sorted_filter, Hm.
  destruct (BTreeMap.range_from m pos) as [|e l] eqn:El; cbn in Hx.
  - left. apply dirty_at_None; [done|]. intros d Hd Hc. unfold covers in *.
    destruct (Z.le_gt_cases pos d.1).
    + apply (not_elem_of_nil (A := Z * bytes) d). rewrite <-El. by apply BTreeMap.elem_of_range_from.
    + apply (Hgap d Hd). lia.
  - left. apply dirty_at_None; [done|]. intros d Hd Hc. unfold covers in *.
    destruct (Z.le_gt_cases pos d.1); [|apply (Hgap d Hd); lia].
    assert (d ∈ e :: l) as [->|Hl]%elem_of_cons by (rewrite <-El; by apply BTreeMap.elem_of_range_from).
    + lia.
    + inversion_clear Hs as [|?? _ Hlt]. rewrite Forall_forall in Hlt. specialize (Hlt d Hl). lia.
Qed.

Lemma next_dirty_after pos :
  (∀ e, e ∈ m → ¬ covers e pos) → pos < end_ →
  pos < match head (BTreeMap.range_from m pos) with Some e => e.1 | None => end_ end.
Proof.
  intros Hgap ?. destruct (BTreeMap.range_from m pos) as [|e l] eqn:El; [done|]. cbn.
  assert (e ∈ BTreeMap.range_from m pos) as [He ?]%BTreeMap.elem_of_range_from by (rewrite El; by left).
  pose proof (ew_nonempty _ Hm _ He). specialize (Hgap e He). unfold covers in *. lia.
Qed.

Lemma read_loop_spec fuel pos out s :
  I fuel s → 0 ≤ pos ≤ end_ → end_ - pos ≤ Z.of_nat fuel →
  delivers E (I 0) (λ r, r = out ++ (cell B m <$> seqZ pos (end_ - pos)))
    (read_loop base_reader fuel m pos end_ out s).
Proof.
  revert pos out s. induction fuel as [|fuel IH]; intros pos out s Hs Hpos Hfuel; cbn [read_loop].
  { replace (pos <? end_) with false by lia. replace (end_ - pos) with 0 by lia.
    cbn. by rewrite app_nil_r. }
  destruct (Z.ltb_spec pos end_).
  2:{ replace (end_ - pos) with 0 by lia. cbn. rewrite app_nil_r. split; [done|by eapply budget_zero]. }
  assert (∀ pos' s1 s', I fuel s' → pos < pos' ≤ end_ → s1 = cell B m <$> seqZ pos (pos' - pos) →
    delivers E (I 0) (λ r, r = out ++ (cell B m <$> seqZ pos (end_ - pos)))
      (read_loop base_reader fuel m pos' end_ (out ++ s1) s')) as Hnext.
  { intros pos' s1 s' Hs' ? ->.
    replace (end_ - pos) with ((pos' - pos) + (end_ - pos')) by lia.
    rewrite seqZ_app, fmap_app, app_assoc by lia.
    replace (pos + (pos' - pos)) with pos' by lia. apply IH; [done|lia..]. }
  destruct (covering_spec pos) as (cov&Hcov&Hc). eapply delivers_lift; [done|].
  destruct cov as [[rs rd]|].
  - destruct Hc as [He Hc]. pose proof (Hin _ He). unfold covers in Hc. cbn [fst snd] in *.
    eapply delivers_lift; [by apply add64_ok|]. cbv zeta.
    set (to := Z.min (Z.min (rs + blen rd) end_ - rs) (blen rd)).
    eapply delivers_lift; [apply index_range_ok; lia|].
    eapply delivers_lift; [apply add64_ok; lia|]. apply Hnext; [by apply Hdown|lia|].
    apply cells_ext; [len_lia|]. intros i Hi. rewrite lookup_take_lt, lookup_drop by lia.
    unfold cell. rewrite (dirty_at_cover m (rs, rd)) by (done || unfold covers; cbn; lia).
    unfold byte_of. cbn. rewrite <-Z2Nat.inj_add by lia.
    replace (pos - rs + i) with (pos + i - rs) by lia.
    destruct (lookup_lt_is_Some_2 rd (Z.to_nat (pos + i - rs))) as [b ->]; [unfold blen in *; lia|done].
  - pose proof (next_dirty_after pos Hc ltac:(done)) as Hnd. cbv zeta.
    set (nds := match head _ with Some e => e.1 | None => end_ end) in *.
    eapply delivers_lift; [apply sub64_ok; lia|].
    eapply delivers_bind; [apply Hbase; [done|lia..]|apply budget_zero|]. cbv beta. intros b s' -> Hs'.
    assert (∀ i, 0 ≤ i < Z.min nds end_ - pos →
      cell B m (pos + i) = default Init.Byte.x00 (B !! Z.to_nat (pos + i))) as Hcell.
    { intros i Hi. unfold cell. destruct (next_dirty_spec pos (pos + i) Hc) as [->|]; [|done|lia].
      fold nds. lia. }
    clearbody nds. case_match.
    + apply Hnext; [done|lia|]. apply cells_ext; [len_lia|]. intros i Hi. rewrite Hcell by done.
      unfold pread in *. rewrite blen_take, blen_drop in * by lia.
      destruct (Z.lt_ge_cases (pos + i) (blen B)).
      * rewrite lookup_app_l by len_lia. rewrite lookup_take_lt, lookup_drop by lia.
        rewrite <-Z2Nat.inj_add by lia.
        destruct (lookup_lt_is_Some_2 B (Z.to_nat (pos + i))) as [b ->]; [unfold blen in *; lia|done].
      * rewrite lookup_app_r by len_lia. rewrite (lookup_ge_None_2 B) by (unfold blen in *; lia).
        cbn. apply lookup_replicate_2. len_lia.
    + eapply delivers_lift; [apply index_range_ok; lia|]. apply Hnext; [done|lia|].
      unfold pread in *. rewrite blen_take, blen_drop in * by lia.
      apply cells_ext; [rewrite !blen_take, !blen_drop, blen_take, blen_drop by lia; lia|]. intros i Hi. rewrite Hcell by done.
      rewrite lookup_take_lt, lookup_drop, lookup_take_lt, lookup_drop by lia.
      replace (Z.to_nat pos + (Z.to_nat 0 + Z.to_nat i))%nat with (Z.to_nat (pos + i)) by lia.
      destruct (lookup_lt_is_Some_2 B (Z.to_nat (pos + i))) as [b ->]; [unfold blen in *; lia|done].
Qed.

End loop.

(** A read is a [pread] of the file the handle shows, or an error of the base
    reader: never other bytes. *)
Lemma read_through_spec c offset size s :
  wf c → I (Z.to_nat (size + 1)) s → 0 ≤ offset → 0 ≤ size → offset + size < 2 ^ 64 →
  delivers E (I 0) (λ r, r = pread (file B c) offset size) (read_through base_reader c offset size s).
Proof.
  intros Hc Hs Hoff Hsize Hover. pose proof (blen_file B c Hc) as Hlen. destruct Hc as [Hl Hm Hin _].
  unfold u64 in Hl. unfold read_through. destruct (_ || _) eqn:Eg.
  { cbn. split; [|by eapply budget_zero]. symmetry. unfold pread. destruct (Z.eqb_spec size 0) as [->|]; [done|].
    rewrite drop_ge; [by rewrite take_nil|]. unfold blen in *. lia. }
  eapply delivers_lift; [by apply add64_ok|]. cbv zeta.
  rewrite pread_file by lia.
  replace (Z.min size (len c - offset)) with (Z.min (offset + size) (len c) - offset) by lia.
  set (total := Z.min (offset + size) (len c) - offset).
  destruct (ranges c) as [|e m'] eqn:Er.
  - eapply delivers_bind; [apply (Hbase 0); [eapply budget_down; [|exact Hs]; lia|lia..]|done|]. cbv beta. intros b s' -> Hs'. split; [|done].
    assert (blen (pread B offset total) = Z.min total (Z.max 0 (blen B - offset))) as Hb
      by (unfold pread; rewrite blen_take, blen_drop by lia; lia).
    apply cells_ext.
    + case_match; [lia|]. unfold blen. rewrite length_resize. lia.
    + intros i Hi. unfold cell. rewrite dirty_at_nil.
      assert (pread B offset total !! Z.to_nat i = B !! Z.to_nat (offset + i)) as Hlook.
      { unfold pread. rewrite lookup_take_lt, lookup_drop by lia. f_equal. lia. }
      destruct (Z.lt_ge_cases (offset + i) (blen B)) as [Hlt|Hge].
      * destruct (lookup_lt_is_Some_2 B (Z.to_nat (offset + i))) as [b Hb']; [unfold blen in *; lia|].
        rewrite Hb'. cbn. case_match; [congruence|].
        rewrite lookup_resize by (unfold blen in *; lia). congruence.
      * rewrite (lookup_ge_None_2 B) by (unfold blen in *; lia). cbn.
        replace (blen (pread B offset total) =? total) with false by lia.
        rewrite lookup_resize_new by (unfold blen in *; lia). done.
  - rewrite <-Er in *. unfold total. change (cell B (ranges c) <$> seqZ offset ?n)
      with ([] ++ (cell B (ranges c) <$> seqZ offset n)).
    apply read_loop_spec; [done|lia|intros d ?%Hin; lia| |lia|unfold total; lia].
    eapply budget_down; [|exact Hs]. lia.
Qed.

End read.

(** *** Every operation acts on the file as the call it implements *)

Lemma cell_past B c x : wf c → blen B ≤ len c → len c ≤ x → cell B (ranges c) x = Init.Byte.x00.
Proof.
  intros [_ Hm Hin _] ??. unfold cell. rewrite (proj2 (dirty_at_None _ _ Hm)).
  - rewrite lookup_ge_None_2 by (unfold blen in *; lia). done.
  - intros e He. specialize (Hin e He). unfold covers. lia.
Qed.

Lemma file_write B c offset data c' :
  wf c → blen B ≤ len c → 0 ≤ offset → offset + blen data < 2 ^ 64 →
  write c offset data = Ok c' → wf c' ∧ blen B ≤ len c' ∧ file B c' = pwrite (file B c) offset data.
Proof.
  intros Hc HB Hoff Hover Hw. destruct (decide (data = [])) as [->|Hd].
  { injection Hw as <-. done. }
  destruct (write_spec c offset data Hc Hoff Hover Hd) as (c1&Hw1&Hc'&_&Hl&Hdirty).
  assert (c1 = c') as -> by congruence. split_and!; [done|lia|].
  assert (u64 (len c)) as Hu by apply Hc. unfold u64 in Hu.
  symmetry. apply cells_ext.
  - rewrite blen_pwrite, blen_file by done. done.
  - intros x Hx. rewrite lookup_pwrite by (done || rewrite blen_file by done; lia).
    rewrite Z.add_0_l. unfold cell at 1. rewrite Hdirty. unfold written.
    case_decide.
    + destruct (lookup_lt_is_Some_2 data (Z.to_nat (x - offset))) as [b ->]; [unfold blen in *; lia|done].
    + f_equal. destruct (Z.lt_ge_cases x (len c)).
      * rewrite lookup_file by lia. done.
      * rewrite lookup_ge_None_2 by (pose proof (blen_file B c Hc); unfold blen in *; lia).
        symmetry. by apply (cell_past B c).
Qed.

Lemma lookup_ftruncate F n x :
  0 ≤ x < n → ftruncate F n !! Z.to_nat x = Some (default Init.Byte.x00 (F !! Z.to_nat x)).
Proof.
  intros. unfold ftruncate. destruct (Z.lt_ge_cases x (blen F)).
  - rewrite lookup_resize by (unfold blen in *; lia).
    destruct (lookup_lt_is_Some_2 F (Z.to_nat x)) as [y ->]; [unfold blen in *; lia|done].
  - rewrite lookup_resize_new, lookup_ge_None_2 by (unfold blen in *; lia). done.
Qed.

(** The base is truncated with the cache. *)
Lemma file_truncate B c n c' :
  wf c → blen B ≤ len c → u64 n → truncate c n = Ok c' →
  wf c' ∧ len c' = n ∧ file (ftruncate B n) c' = ftruncate (file B c) n.
Proof.
  intros Hc HB Hn Ht. destruct (truncate_spec c n Hc Hn) as (c1&Ht1&Hc'&_&Hl&Hd).
  assert (c1 = c') as -> by congruence. unfold u64 in Hn. split_and!; [done..|].
  symmetry. apply cells_ext; [rewrite blen_ftruncate by lia; lia|].
  intros x Hx. rewrite Z.add_0_l, lookup_ftruncate by lia. f_equal. unfold cell. rewrite Hd.
  replace (x <? n) with true by lia. rewrite lookup_ftruncate by lia. cbn.
  destruct (Z.lt_ge_cases x (len c)).
  - by rewrite lookup_file by lia.
  - rewrite lookup_ge_None_2 by (pose proof (blen_file B c Hc); unfold blen in *; lia). cbn.
    symmetry. by apply (cell_past B c x).
Qed.

(** Writing the extents out, one [pwrite] each. *)
Definition write_extents (B : bytes) (m : list (Z * bytes)) : bytes :=
  foldl (λ B e, pwrite B e.1 e.2) B m.

Lemma extents_wf_tail e m : extents_wf (e :: m) → extents_wf m.
Proof.
  intros [Hs Hst Hne Hgap]. inversion_clear Hs. split; [done|..].
  - intros d Hd. apply Hst. by right.
  - intros d Hd. apply Hne. by right.
  - intros d d' Hd Hd'. apply Hgap; by right.
Qed.

Lemma dirty_at_cons e m x :
  extents_wf (e :: m) →
  dirty_at (e :: m) x = if decide (covers e x) then byte_of e x else dirty_at m x.
Proof.
  intros Hwf. pose proof (extents_wf_tail _ _ Hwf) as Hm. case_decide as Hc.
  - apply dirty_at_cover; [done|by left|done].
  - apply option_eq. intros b. rewrite !dirty_at_Some by done. setoid_rewrite elem_of_cons. naive_solver.
Qed.

Lemma write_extents_spec m B :
  extents_wf m → (∀ e, e ∈ m → e.1 + blen e.2 ≤ blen B) →
  blen (write_extents B m) = blen B ∧
  ∀ x, 0 ≤ x < blen B →
    write_extents B m !! Z.to_nat x =
      match dirty_at m x with Some b => Some b | None => B !! Z.to_nat x end.
Proof.
  revert B. induction m as [|e m IH]; intros B Hwf Hin; [done|].
  pose proof (Hin e ltac:(by left)) as He. pose proof (ew_nonempty _ Hwf e ltac:(by left)) as Hne.
  pose proof (ew_start _ Hwf e ltac:(by left)) as Hst.
  assert (e.2 ≠ []) as Hd by (intros Heq%(f_equal blen); unfold blen in *; cbn in Heq; lia).
  pose proof (blen_pwrite B e.1 e.2 Hst Hd) as Hbl. rewrite Z.max_l in Hbl by done.
  destruct (IH (pwrite B e.1 e.2)) as [Hl Hx].
  { by eapply extents_wf_tail. }
  { intros d Hd'. rewrite Hbl. apply Hin. by right. }
  cbn [write_extents foldl] in *. split; [unfold write_extents in Hl; lia|].
  intros x Hxr. rewrite Hbl in Hx. unfold write_extents in Hx. rewrite Hx by done.
  rewrite dirty_at_cons by done. rewrite lookup_pwrite by (done || lia).
  destruct (lookup_lt_is_Some_2 B (Z.to_nat x)) as [b0 Hb0]; [unfold blen in *; lia|].
  rewrite Hb0. cbn. unfold byte_of, covers. case_decide as Hc; [|done].
  rewrite (proj2 (dirty_at_None m x ltac:(by eapply extents_wf_tail))).
  - destruct (lookup_lt_is_Some_2 e.2 (Z.to_nat (x - e.1))) as [b ->]; [unfold blen in *; lia|done].
  - intros d Hd' Hc'. assert (d = e) as ->.
    { eapply (extents_disjoint (e :: m)); [done|by right|by left|done|done]. }
    pose proof (ew_sorted _ Hwf) as Hs. inversion_clear Hs as [|?? _ Hlt].
    rewrite Forall_forall in Hlt. specialize (Hlt e Hd'). lia.
Qed.

(** [extents.iter().map(|(o, d)| o + d.len()).max().unwrap_or(0)] *)
Definition max_end (m : list (Z * bytes)) : Z := foldr (λ e acc, Z.max (e.1 + blen e.2) acc) 0 m.

Lemma max_end_nonneg m : 0 ≤ max_end m.
Proof. unfold max_end. induction m as [|d m IH]; cbn [foldr]; lia. Qed.

Lemma max_end_ge m e : e ∈ m → e.1 + blen e.2 ≤ max_end m.
Proof.
  induction m as [|d m IH]; [by intros ?%not_elem_of_nil|].
  change (max_end (d :: m)) with (Z.max (d.1 + blen d.2) (max_end m)).
  intros [->|?%IH]%elem_of_cons; lia.
Qed.

Lemma max_end_le m n : 0 ≤ n → (∀ e, e ∈ m → e.1 + blen e.2 ≤ n) → max_end m ≤ n.
Proof.
  intros Hn. induction m as [|d m IH]; intros Hm; cbn; [done|].
  pose proof (Hm d ltac:(by left)). assert (max_end m ≤ n) by (apply IH; intros; apply Hm; by right).
  unfold max_end in *. lia.
Qed.

(** The base a flush leaves: extended to cover the extents, then overwritten. *)
Definition flushed (B : bytes) (m : list (Z * bytes)) : bytes :=
  write_extents (if blen B <? max_end m then ftruncate B (max_end m) else B) m.

Lemma file_flush B c :
  wf c → blen B ≤ len c →
  blen (flushed B (ranges c)) ≤ len c ∧
  file (flushed B (ranges c)) (take_dirty_ranges c).2 = file B c.
Proof.
  intros Hc HB. destruct (take_dirty_ranges_spec c Hc) as (_&Hr&Hl&_).
  pose proof (blen_file B c Hc) as Hbf.
  destruct Hc as [Hu Hm Hin _]. unfold u64 in Hu.
  set (B1 := if blen B <? max_end (ranges c) then ftruncate B (max_end (ranges c)) else B).
  pose proof (max_end_le (ranges c) (len c) ltac:(lia) Hin).
  pose proof (max_end_nonneg (ranges c)) as Hme.
  assert (blen B1 = Z.max (blen B) (max_end (ranges c))) as HB1.
  { unfold B1. destruct (Z.ltb_spec (blen B) (max_end (ranges c)));
      [rewrite blen_ftruncate|]; lia. }
  assert (∀ x, 0 ≤ x → default Init.Byte.x00 (B1 !! Z.to_nat x) = default Init.Byte.x00 (B !! Z.to_nat x)) as HB1x.
  { intros x Hx. unfold B1. destruct (Z.ltb_spec (blen B) (max_end (ranges c))); [|done].
    destruct (Z.lt_ge_cases x (max_end (ranges c))); [by rewrite lookup_ftruncate by lia|].
    rewrite !lookup_ge_None_2; [done|..]; [unfold blen in *; lia|].
    pose proof (blen_ftruncate B (max_end (ranges c)) Hme). unfold blen in *. lia. }
  destruct (write_extents_spec (ranges c) B1 Hm) as [Hbl Hx].
  { intros e He. pose proof (max_end_ge _ _ He). lia. }
  unfold flushed. fold B1. split; [lia|]. symmetry. apply cells_ext; [lia|].
  intros x Hxr. rewrite Z.add_0_l, lookup_file by lia. f_equal. unfold cell.
  rewrite Hr, dirty_at_nil. destruct (Z.lt_ge_cases x (blen B1)).
  - rewrite Hx by lia. destruct (dirty_at (ranges c) x); [done|]. symmetry. apply HB1x. lia.
  - rewrite (proj2 (dirty_at_None _ _ Hm)).
    + rewrite lookup_ge_None_2 by (unfold blen in *; lia).
      rewrite lookup_ge_None_2 by (unfold blen in *; lia). done.
    + intros e He. pose proof (max_end_ge _ _ He). unfold covers. lia.
Qed.

(** *** Growth *)

Lemma insert_count (m : BTreeMap.t bytes) k v : blen (BTreeMap.insert m k v) ≤ blen m + 1.
Proof.
  induction m as [|[k' v'] m IH]; cbn [BTreeMap.insert]; [done|].
  repeat case_match; rewrite !blen_cons in *; lia.
Qed.

Lemma merge_all_count ks : ∀ m ns nd m' ns' nd',
  merge_all ks m ns nd = Ok (m', ns', nd') → blen m' ≤ blen m.
Proof.
  induction ks as [|k ks IH]; intros m ns nd m' ns' nd'; cbn [merge_all]; [by intros [= <- _ _]|].
  destruct (BTreeMap.get m k); [|done]. destruct (merge_extent _ _ _ _) as [[ns1 nd1]| |]; [|done..]. cbn [mbind res_bind].
  intros Hm%IH. assert (length (BTreeMap.remove m k) ≤ length m)%nat by apply length_filter. unfold blen in *. lia.
Qed.

(** A write adds one extent at most. *)
Lemma write_count c offset data c' : write c offset data = Ok c' → blen (ranges c') ≤ blen (ranges c) + 1.
Proof.
  unfold write. destruct data as [|b data]; [intros [= <-]; lia|]. set (d := b :: data). intros Hw.
  apply bind_ok in Hw as (end_&_&Hw). apply bind_ok in Hw as (target&_&Hw). apply bind_ok in Hw as (m'&Hm&[= <-]).
  cbn [ranges]. destruct target as [[rs rd]|]; [injection Hm as <-; apply insert_count|].
  apply bind_ok in Hm as (ks&_&Hm). apply bind_ok in Hm as ([[m1 ns] nd]&Hma%merge_all_count&Hm).
  apply bind_ok in Hm as (rel&_&Hm). apply bind_ok in Hm as (nd'&_&[= <-]). pose proof (insert_count m1 ns nd'). lia.
Qed.

(** *** Files without gaps *)

(** Every byte past the base has been written. *)
Definition solid (B : bytes) (c : t) : Prop := ∀ x, blen B ≤ x < len c → is_Some (dirty_at (ranges c) x).
(** The last byte is of the base or has been written. *)
Definition tight (B : bytes) (c : t) : Prop := blen B < len c → is_Some (dirty_at (ranges c) (len c - 1)).

Lemma written_is_Some m offset data x :
  offset ≤ x < offset + blen data ∨ is_Some (dirty_at m x) → is_Some (written m offset data x).
Proof.
  unfold written. intros Hx. case_decide as Hd; [|by destruct Hx]. apply lookup_lt_is_Some. unfold blen in *. lia.
Qed.

Lemma solid_write B c offset data c' :
  wf c → 0 ≤ offset → offset + blen data < 2 ^ 64 → data ≠ [] → write c offset data = Ok c' →
  tight B c → tight B c' ∧ (offset ≤ len c → solid B c → solid B c').
Proof.
  intros Hc Ho Hover Hd Hw Ht. destruct (write_spec c offset data Hc Ho Hover Hd) as (c1&Hw1&_&_&Hl&Hx).
  assert (c1 = c') as -> by congruence. assert (0 < blen data) by (destruct data; [done|rewrite blen_cons; pose proof (blen_nonneg data); lia]).
  split.
  - intros Hlt. rewrite Hx. apply written_is_Some. rewrite Hl in *.
    destruct (Z.le_gt_cases (offset + blen data) (len c)); [|left; lia]. right. rewrite Z.max_l in * by lia. by apply Ht.
  - intros Hle Hs x Hb. rewrite Hx. apply written_is_Some. rewrite Hl in Hb.
    destruct (Z.lt_ge_cases x (len c)); [right; apply Hs; lia|left; lia].
Qed.

Lemma dirty_extent m x : extents_wf m → is_Some (dirty_at m x) → ∃ e, e ∈ m ∧ covers e x.
Proof. intros Hm [b Hb]. apply dirty_at_Some in Hb as (e&?&?&_); eauto. Qed.

Lemma file_clean B c : ranges c = [] → len c = blen B → file B c = B.
Proof.
  intros Hr Hl. unfold file, cell. rewrite Hr, Hl. symmetry. apply cells_ext; [lia|]. intros i Hi. rewrite Z.add_0_l, dirty_at_nil.
  destruct (lookup_lt_is_Some_2 B (Z.to_nat i)) as [b ->]; [unfold blen in *; lia|done].
Qed.

(** A flush of a tight cache leaves a base as long as the file. *)
Lemma flush_full B c : wf c → blen B ≤ len c → tight B c → blen (flushed B (ranges c)) = len c.
Proof.
  intros Hwf Hlen Ht. destruct (file_flush B c Hwf Hlen) as [Hle _]. apply Z.le_antisymm; [done|].
  unfold flushed. pose proof (max_end_nonneg (ranges c)). pose proof (blen_nonneg B).
  set (B' := if _ <? _ then _ else _).
  assert (blen B' = Z.max (blen B) (max_end (ranges c))) as HB'.
  { unfold B'. destruct (Z.ltb_spec (blen B) (max_end (ranges c))); [rewrite blen_ftruncate by lia|]; lia. }
  destruct (write_extents_spec (ranges c) B') as [-> _]; [apply Hwf| |rewrite HB'].
  { intros e He. rewrite HB'. pose proof (max_end_ge _ _ He). lia. }
  destruct (Z.lt_ge_cases (blen B) (len c)) as [Hlt|]; [|lia].
  destruct (dirty_extent (ranges c) (len c - 1)) as (e&He&Hc); [apply Hwf|by apply Ht|].
  pose proof (max_end_ge _ _ He). unfold covers in Hc. lia.
Qed.

End WbCache.
