(* ===== verification/Backend.v ===== *)
(** * Storage backend (crates/sfs-core/src/container/backend.rs)

    The in-RAM store of [Backend], which is the contract the file store
    implements with positioned OS calls: a byte array with a length, bounded
    reads and writes, and growth that zero-fills. The read counter is
    instrumentation and is left out. A [Vec] holds at most [isize::MAX] bytes:
    asking for more unwinds. *)

From S2P Require Import Prelude.

Definition BASE_BLOCK : Z := 4096.

(** [is_aligned] *)
Definition is_aligned (off : Z) : bool := off `mod` BASE_BLOCK =? 0.

(** Block alignment as a proposition, kept folded for [lia]. *)
Definition aligned (x : Z) : Prop := x `mod` BASE_BLOCK = 0.

Ltac align_lia := unfold aligned, BASE_BLOCK in *; lia.

Lemma is_aligned_true x : aligned x → is_aligned x = true.
Proof. intros. by apply Z.eqb_eq. Qed.

Module Backend.

(** [Backend] over [Store::Mem] *)
Record t := mk { mem : bytes; len : Z; no_grow : bool }.

(** [vec![0u8; cap]] *)
Definition vec_zeroed (cap : Z) : res bytes :=
  if cap <? 2 ^ 63 then Ok (zeros (Z.to_nat cap)) else Panic.

Definition create_in_memory (n : Z) : res t :=
  m ← vec_zeroed n; Ok (mk m n false).

Definition create_in_memory_fixed (n : Z) : res t :=
  m ← vec_zeroed n; Ok (mk m n true).

Definition open_in_memory (bs : bytes) : res t := Ok (mk bs (blen bs) false).

Definition snapshot (b : t) : res bytes := Ok (mem b).

(** [read_at]: the bytes that fill a buffer of [n] bytes. *)
Definition read_at (b : t) (off n : Z) : res bytes :=
  if 2 ^ 64 <=? off + n then Err (Io InvalidInput)
  else if len b <? off + n then Err (Io InvalidInput)
  else index_range (mem b) off (off + n).

(** [mem[start..start + buf.len()].copy_from_slice(buf)] *)
Definition splice (m : bytes) (off : Z) (buf : bytes) : bytes :=
  take (Z.to_nat off) m ++ buf ++ drop (Z.to_nat off + length buf) m.

Definition write_at (b : t) (off : Z) (buf : bytes) : res t :=
  if 2 ^ 64 <=? off + blen buf then Err (Io InvalidInput)
  else if len b <? off + blen buf then Err (Io InvalidInput)
  else if blen (mem b) <? off + blen buf then Panic
  else Ok (mk (splice (mem b) off buf) (len b) (no_grow b)).

Definition flush (b : t) : res unit := Ok ().

(** [mem.resize(n, 0)] *)
Definition vec_resize (m : bytes) (n : Z) : res bytes :=
  if n <? 2 ^ 63 then Ok (take (Z.to_nat n) m ++ zeros (Z.to_nat n - length m)) else Panic.

Definition grow (b : t) (new_len : Z) : res t :=
  if new_len <=? len b then Err (Io InvalidInput)
  else if no_grow b then Err (Io StorageFull)
  else m ← vec_resize (mem b) new_len; Ok (mk m new_len (no_grow b)).

(** [mem.truncate(n)] *)
Definition shrink (b : t) (new_len : Z) : res t :=
  if len b <=? new_len then Err (Io InvalidInput)
  else if no_grow b then Err (Io InvalidInput)
  else Ok (mk (take (Z.to_nat new_len) (mem b)) new_len (no_grow b)).

Definition is_fixed_device (b : t) : bool := no_grow b.

Definition is_empty (b : t) : bool := len b =? 0.

(** ** Invariant and contents *)

(** The tracked length is the length of the buffer, which a [Vec] can hold. *)
Definition wf (b : t) : Prop := len b = blen (mem b) ∧ len b < 2 ^ 63.

(** The [n] bytes stored at [off]. *)
Definition contents (b : t) (off n : Z) : bytes :=
  take (Z.to_nat n) (drop (Z.to_nat off) (mem b)).

(** The byte at [x]; [None] outside of the store. *)
Definition byte_at (b : t) (x : Z) : option Init.Byte.byte :=
  if 0 <=? x then mem b !! Z.to_nat x else None.

Lemma wf_len_nonneg b : wf b → 0 ≤ len b < 2 ^ 63.
Proof. intros [-> ?]. pose proof (blen_nonneg (mem b)). lia. Qed.

Lemma length_zeros n : length (zeros n) = n.
Proof. apply length_replicate. Qed.

Lemma contents_lookup b off n i :
  0 ≤ off → contents b off n !! i = if decide (Z.of_nat i < n) then byte_at b (off + Z.of_nat i) else None.
Proof.
  intros. unfold contents, byte_at. replace (0 <=? off + Z.of_nat i) with true by lia.
  case_decide.
  - rewrite lookup_take_lt, lookup_drop by lia. f_equal. lia.
  - apply lookup_take_ge. lia.
Qed.

(** Two ranges hold the same bytes when they agree pointwise. *)
Lemma contents_ext b b' off off' n :
  0 ≤ off → 0 ≤ off' →
  (∀ i, 0 ≤ i < n → byte_at b' (off' + i) = byte_at b (off + i)) →
  contents b' off' n = contents b off n.
Proof.
  intros ?? Hb. apply list_eq. intros i. rewrite !contents_lookup by done.
  case_decide; [|done]. apply Hb. lia.
Qed.

Lemma read_at_ok b off n :
  wf b → 0 ≤ off → 0 ≤ n → off + n ≤ len b → read_at b off n = Ok (contents b off n).
Proof.
  intros Hwf ???. pose proof (wf_len_nonneg b Hwf). destruct Hwf as [Hlen _].
  unfold read_at. replace (2 ^ 64 <=? off + n) with false by lia.
  replace (len b <? off + n) with false by lia.
  unfold index_range, get_range. replace ((0 <=? off) && _ && _) with true by lia.
  unfold contents. do 3 f_equal. lia.
Qed.

(** A part of a range of known contents. *)
Lemma contents_part b off n x y z :
  0 ≤ off → contents b off n = x ++ y ++ z → contents b (off + blen x) (blen y) = y.
Proof.
  intros Hoff Hc. apply list_eq. intros i. rewrite contents_lookup by (pose proof (blen_nonneg x); lia).
  case_decide as Hi.
  - apply (f_equal (λ l, l !! (length x + i)%nat)) in Hc. rewrite contents_lookup in Hc by done.
    rewrite lookup_app_r, lookup_app_l in Hc by (unfold blen in *; lia).
    replace (length x + i - length x)%nat with i in Hc by lia. rewrite <-Hc. unfold blen in *.
    case_decide; [f_equal; lia|]. symmetry in Hc. apply lookup_ge_None in Hc. lia.
  - symmetry. apply lookup_ge_None. unfold blen in *. lia.
Qed.

Lemma read_at_part b off n x y z :
  wf b → 0 ≤ off → off + n ≤ len b → blen (x ++ y ++ z) = n → contents b off n = x ++ y ++ z →
  read_at b (off + blen x) (blen y) = Ok y.
Proof.
  intros Hwf Hoff Hl Hn Hc. pose proof (blen_nonneg x). pose proof (blen_nonneg y). pose proof (blen_nonneg z).
  rewrite !blen_app in Hn. rewrite read_at_ok by (done || lia). by erewrite contents_part.
Qed.

Lemma read_at_err b off n :
  len b < off + n → read_at b off n = Err (Io InvalidInput).
Proof.
  intros. unfold read_at. case_match; [done|]. by replace (len b <? off + n) with true by lia.
Qed.

Lemma read_at_no_panic b off n : wf b → 0 ≤ off → 0 ≤ n → no_panic (read_at b off n).
Proof.
  intros. destruct (decide (off + n ≤ len b)).
  - rewrite read_at_ok by done. auto with panic.
  - rewrite read_at_err by lia. auto with panic.
Qed.

Lemma length_splice m off buf :
  0 ≤ off → off + blen buf ≤ blen m → length (splice m off buf) = length m.
Proof.
  intros. unfold splice, blen in *. rewrite !length_app, length_take, length_drop. lia.
Qed.

Lemma splice_lookup m off buf i :
  0 ≤ off → off + blen buf ≤ blen m →
  splice m off buf !! i =
    if decide (off ≤ Z.of_nat i < off + blen buf) then buf !! (i - Z.to_nat off)%nat else m !! i.
Proof.
  intros. unfold splice, blen in *.
  case_decide as Hi.
  - rewrite lookup_app_r by (rewrite length_take; lia).
    rewrite length_take, lookup_app_l by lia. f_equal. lia.
  - destruct (decide (Z.of_nat i < off)).
    + rewrite lookup_app_l by (rewrite length_take; lia). apply lookup_take_lt. lia.
    + rewrite lookup_app_r by (rewrite length_take; lia).
      rewrite lookup_app_r by (rewrite length_take; lia).
      rewrite lookup_drop. f_equal. rewrite length_take. lia.
Qed.

(** A write in range succeeds, keeps the length, and changes the written bytes
    only. *)
Lemma write_at_ok b off buf :
  wf b → 0 ≤ off → off + blen buf ≤ len b →
  ∃ b', write_at b off buf = Ok b' ∧ wf b' ∧ len b' = len b ∧ no_grow b' = no_grow b ∧
    ∀ x, byte_at b' x =
      if decide (off ≤ x < off + blen buf) then buf !! Z.to_nat (x - off) else byte_at b x.
Proof.
  intros Hwf Hoff Hle. pose proof (wf_len_nonneg b Hwf). pose proof (blen_nonneg buf).
  destruct Hwf as [Hlen ?]. unfold write_at.
  replace (2 ^ 64 <=? off + blen buf) with false by lia.
  replace (len b <? off + blen buf) with false by lia.
  replace (blen (mem b) <? off + blen buf) with false by lia.
  eexists. split; [done|]. split_and!; [|done..|].
  - split; cbn; [|done]. unfold blen. rewrite length_splice; [done|lia|lia].
  - intros x. unfold byte_at; cbn. destruct (Z.leb_spec 0 x).
    + rewrite splice_lookup by lia. rewrite Z2Nat.id by lia.
      case_decide; [|done]. f_equal. lia.
    + rewrite decide_False by lia. done.
Qed.

(** The bytes at [off] after a write of [buf] there. *)
Lemma contents_written b b' off buf n :
  0 ≤ off → blen buf ≤ n →
  (∀ x, byte_at b' x =
     if decide (off ≤ x < off + blen buf) then buf !! Z.to_nat (x - off) else byte_at b x) →
  contents b' off n = buf ++ contents b (off + blen buf) (n - blen buf).
Proof.
  intros ? Hn Hb. pose proof (blen_nonneg buf). apply list_eq. intros i.
  rewrite contents_lookup by done. rewrite Hb. unfold blen in *.
  destruct (decide (Z.of_nat i < Z.of_nat (length buf))).
  - rewrite decide_True, decide_True, lookup_app_l by lia. f_equal. lia.
  - rewrite lookup_app_r, contents_lookup by lia. repeat case_decide; try lia; [|done].
    f_equal. lia.
Qed.

Lemma write_at_err b off buf :
  len b < off + blen buf → write_at b off buf = Err (Io InvalidInput).
Proof.
  intros. unfold write_at. case_match; [done|].
  by replace (len b <? off + blen buf) with true by lia.
Qed.

Lemma byte_at_None b x : wf b → ¬ 0 ≤ x < len b → byte_at b x = None.
Proof.
  intros [Hlen _] Hx. unfold byte_at. destruct (Z.leb_spec 0 x); [|done].
  apply lookup_ge_None_2. unfold blen in *. lia.
Qed.

(** Growing zero-fills and keeps what was stored. *)
Lemma grow_ok b n :
  wf b → len b < n < 2 ^ 63 → no_grow b = false →
  ∃ b', grow b n = Ok b' ∧ wf b' ∧ len b' = n ∧ no_grow b' = false ∧
    ∀ x, byte_at b' x = if decide (len b ≤ x < n) then Some Init.Byte.x00 else byte_at b x.
Proof.
  intros Hwf Hn Hg. pose proof (wf_len_nonneg b Hwf) as Hl. pose proof Hwf as [Hlen _].
  unfold grow, vec_resize. rewrite Hg.
  replace (n <=? len b) with false by lia. replace (n <? 2 ^ 63) with true by lia.
  eexists. split; [done|]. unfold blen in *.
  split_and!; [|done..|].
  - split; cbn; [|lia]. unfold blen. rewrite length_app, length_take, length_zeros. lia.
  - intros x. unfold byte_at; cbn. rewrite take_ge by lia.
    destruct (Z.leb_spec 0 x); [|by rewrite decide_False by lia]. case_decide.
    + rewrite lookup_app_r by lia. apply lookup_replicate_2. lia.
    + destruct (decide (x < len b)); [by rewrite lookup_app_l by lia|].
      rewrite !lookup_ge_None_2; [done|lia|rewrite length_app, length_zeros; lia].
Qed.

(** The three outcomes of growing to a larger length. *)
Lemma grow_cases b n :
  wf b → len b < n →
  (no_grow b = true ∧ grow b n = Err (Io StorageFull)) ∨
  (no_grow b = false ∧ 2 ^ 63 ≤ n ∧ grow b n = Panic) ∨
  (no_grow b = false ∧ ∃ b', grow b n = Ok b' ∧ wf b' ∧ len b' = n ∧ no_grow b' = false ∧
    ∀ x, byte_at b' x = if decide (len b ≤ x < n) then Some Init.Byte.x00 else byte_at b x).
Proof.
  intros Hwf Hn. destruct (no_grow b) eqn:Eg.
  - left. unfold grow. rewrite Eg. by replace (n <=? len b) with false by lia.
  - right. destruct (decide (n < 2 ^ 63)).
    + right. split; [done|]. apply grow_ok; [done|lia|done].
    + left. unfold grow, vec_resize. rewrite Eg. replace (n <=? len b) with false by lia.
      replace (n <? 2 ^ 63) with false by lia. split_and!; [done|lia|done].
Qed.

End Backend.
