(* ===== verification/Crypto.v ===== *)
(** * Cipher layer (crates/sfs-core/src/crypto)

    The primitives of the third-party crates are parameters: a class per
    primitive with its operations and the laws its documentation states. The
    module models what the crate builds from them: the key derivations and
    their domain separation, the header MAC, the per-block context, the three
    cipher suites with the batched XTS sector routine and its ciphertext
    stealing, the registry, and the suite negotiation. Byte arrays of a fixed
    size are byte lists; their length is a hypothesis where it matters. *)

From S2P Require Import Prelude.

(** ** Primitives *)

(** [crc32fast]: a streaming [Hasher] fed with consecutive slices computes the
    checksum of their concatenation. *)
Class Crc32 := {
  crc32 : bytes → Z;
  crc32_u32 : ∀ s, u32 (crc32 s);
}.

(** [hkdf]: [Hkdf::<Sha256>::new(Some(salt), ikm).expand(info, out)] *)
Class Hkdf := {
  hkdf_sha256 : bytes → bytes → bytes → nat → bytes;
  hkdf_length : ∀ salt ikm info n, length (hkdf_sha256 salt ikm info n) = n;
}.

(** [hmac]: [HMAC-SHA256] *)
Class Hmac := {
  hmac_sha256 : bytes → bytes → bytes;
  hmac_length : ∀ k m, length (hmac_sha256 k m) = 32%nat;
}.

(** [aes]: the AES-256 block permutation under a key and its inverse. *)
Class Aes := {
  aes_encrypt : bytes → bytes → bytes;
  aes_decrypt : bytes → bytes → bytes;
  aes_encrypt_length : ∀ k b, length b = 16%nat → length (aes_encrypt k b) = 16%nat;
  aes_decrypt_length : ∀ k b, length b = 16%nat → length (aes_decrypt k b) = 16%nat;
  aes_decrypt_encrypt : ∀ k b, length b = 16%nat → aes_decrypt k (aes_encrypt k b) = b;
}.

(** [aes_gcm]: encryption appends a 16-byte tag; decryption of an untampered
    message under the same key, nonce and associated data returns it. *)
Class AesGcm := {
  gcm_encrypt : bytes → bytes → bytes → bytes → bytes;
  gcm_decrypt : bytes → bytes → bytes → bytes → option bytes;
  gcm_length : ∀ k n aad m, length (gcm_encrypt k n aad m) = (length m + 16)%nat;
  gcm_open_seal : ∀ k n aad m, gcm_decrypt k n aad (gcm_encrypt k n aad m) = Some m;
}.

(** ** Key derivation *)

Section derivation.
Context `{!Hkdf, !Hmac}.

Definition derive_meta_key (container_key : bytes) : bytes :=
  hkdf_sha256 (bstr "sfs-meta-key-salt-v1") container_key (bstr "sfs-meta-key-v1") 32.

Definition derive_header_mac_key (root_key : bytes) : bytes :=
  hkdf_sha256 (bstr "sfs-header-mac-salt-v1") root_key (bstr "sfs-header-mac-v1") 32.

Definition header_mac (root_key header_body : bytes) : bytes :=
  hmac_sha256 (derive_header_mac_key root_key) header_body.

Lemma header_mac_length k m : length (header_mac k m) = 32%nat.
Proof. apply hmac_length. Qed.

End derivation.

(** ** Cipher suites *)

Definition CIPHER_NONE : Z := 0.
Definition CIPHER_AES256_GCM : Z := 1.
Definition CIPHER_XTS_AES256 : Z := 2.

(** [BlockCtx] *)
Record BlockCtx := mkBlockCtx { ctx_uuid : bytes; frag : Z; version : Z; key_epoch : Z }.

(** [BlockCtx::to_bytes] *)
Definition ctx_bytes (c : BlockCtx) : bytes :=
  ctx_uuid c ++ le_bytes 4 (frag c) ++ le_bytes 8 (version c) ++ le_bytes 8 (key_epoch c).

Definition ctx_ok (c : BlockCtx) : Prop :=
  length (ctx_uuid c) = 16%nat ∧ u32 (frag c) ∧ u64 (version c) ∧ u64 (key_epoch c).

(** *** AES-256-GCM (aead.rs) *)

Section gcm.
Context `{!Hkdf, !AesGcm}.

Definition NONCE_INFO : bytes := bstr "sfs-gcm-nonce-v1".
Definition CONTENT_KEY_INFO : bytes := bstr "sfs-gcm-content-key-v1".
Definition SALT_NONCE : bytes := bstr "sfs-gcm-nonce-salt-v1".
Definition SALT_CONTENT_KEY : bytes := bstr "sfs-gcm-content-key-salt-v1".

Definition derive_nonce (key : bytes) (c : BlockCtx) : bytes :=
  hkdf_sha256 SALT_NONCE key (NONCE_INFO ++ ctx_bytes c) 12.

Definition derive_content_key (root_key : bytes) : bytes :=
  hkdf_sha256 SALT_CONTENT_KEY root_key CONTENT_KEY_INFO 32.

Definition seal_with_nonce (key nonce aad plaintext : bytes) : bytes :=
  gcm_encrypt key nonce aad plaintext.

Definition open_with_nonce (key nonce aad ciphertext : bytes) : res bytes :=
  ok_or (gcm_decrypt key nonce aad ciphertext)
    (Integrity "AES-256-GCM authentication failed: tag mismatch, wrong nonce, or AAD mismatch").

Definition gcm_seal (key : bytes) (c : BlockCtx) (plaintext : bytes) : res bytes :=
  let content_key := derive_content_key key in
  Ok (gcm_encrypt content_key (derive_nonce content_key c) [] plaintext).

Definition gcm_open (key : bytes) (c : BlockCtx) (ciphertext : bytes) : res bytes :=
  let content_key := derive_content_key key in
  ok_or (gcm_decrypt content_key (derive_nonce content_key c) [] ciphertext)
    (Crypto "AES-256-GCM authentication tag verification failed").

End gcm.

(** *** AES-256-XTS (xts.rs) *)

Section xts.
Context `{!Hkdf, !Aes}.

Definition XTS_KEY_SALT : bytes := bstr "sfs-xts-key-salt-v1".
Definition XTS_KEY_INFO : bytes := bstr "sfs-xts-key-v1".
Definition XTS_TWEAK_SALT : bytes := bstr "sfs-xts-tweak-salt-v1".
Definition XTS_TWEAK_INFO : bytes := bstr "sfs-xts-tweak-v1".

Definition expand_xts_key (key : bytes) : bytes := hkdf_sha256 XTS_KEY_SALT key XTS_KEY_INFO 64.

Definition derive_tweak (key : bytes) (c : BlockCtx) : bytes :=
  hkdf_sha256 XTS_TWEAK_SALT key (XTS_TWEAK_INFO ++ ctx_bytes c) 16.

(** [build_ciphers]: the two AES keys. *)
Definition build_ciphers (xts_key : bytes) : bytes * bytes := (take 32 xts_key, drop 32 xts_key).

(** [gf128_mul_alpha_le] *)
Definition gf128_mul_alpha_le (t : bytes) : bytes :=
  let lo := le_val (take 8 t) in
  let hi := le_val (take 8 (drop 8 t)) in
  let new_lo := Z.lxor (Z.shiftl lo 1 `mod` 2 ^ 64) (if negb (Z.shiftr hi 63 =? 0) then 0x87 else 0) in
  let new_hi := Z.lor (Z.shiftr lo 63) (Z.shiftl hi 1 `mod` 2 ^ 64) in
  le_bytes 8 new_lo ++ le_bytes 8 new_hi.

(** [xor16]: the iterators are zipped, so bytes past the tweak stay. *)
Definition xor16 (block tweak : bytes) : bytes :=
  zip_with byte.xor block tweak ++ drop (length tweak) block.

Definition XTS_BATCH : nat := 256.

(** The tweaks of one batch and the tweak that follows them. *)
Fixpoint tweak_chain (n : nat) (tweak : bytes) : list bytes * bytes :=
  match n with
  | O => ([], tweak)
  | S n' => let '(ts, t') := tweak_chain n' (gf128_mul_alpha_le tweak) in (tweak :: ts, t')
  end.

(** [for (chunk, t) in region.chunks_exact_mut(16).zip(&tweaks) { xor16(chunk, t) }] *)
Definition xor_region (region : bytes) (tweaks : list bytes) : bytes :=
  concat (zip_with xor16 (chunks 16 region) tweaks).

(** [data.encrypt_blocks_inout(blocks)] *)
Definition map_region (f : bytes → bytes) (region : bytes) : bytes := concat (f <$> chunks 16 region).

(** [sector[a..a + region.len()].copy_from_slice(region)] *)
Definition put_region (sector : bytes) (a : nat) (region : bytes) : bytes :=
  take a sector ++ region ++ drop (a + length region) sector.

(** The [while done < nosteal_block_count] loop; [None] means out of fuel. *)
Fixpoint batches (fuel : nat) (f : bytes → bytes) (nosteal done : nat) (tweak sector : bytes)
  : option (bytes * bytes) :=
  if (done <? nosteal)%nat then
    match fuel with
    | O => None
    | S fuel' =>
        let n := Nat.min XTS_BATCH (nosteal - done) in
        let '(tweaks, tweak') := tweak_chain n tweak in
        let region := take (n * 16) (drop (done * 16) sector) in
        let region := xor_region region tweaks in
        let region := map_region f region in
        let region := xor_region region tweaks in
        batches fuel' f nosteal (done + n) tweak' (put_region sector (done * 16) region)
    end
  else Some (tweak, sector).

(** The ciphertext-stealing tail. *)
Definition steal (f : bytes → bytes) (decrypt : bool) (tweak sector : bytes) : bytes :=
  let block_count := (length sector / 16)%nat in
  let next_to_last_tweak := tweak in
  let last_tweak := gf128_mul_alpha_le tweak in
  let remaining := (length sector mod 16)%nat in
  let block := take 16 (drop (16 * (block_count - 1)) sector) in
  let first_tweak := if decrypt then last_tweak else next_to_last_tweak in
  let second_tweak := if decrypt then next_to_last_tweak else last_tweak in
  let block := xor16 (f (xor16 block first_tweak)) first_tweak in
  let last_block := drop (16 * block_count) sector ++ drop remaining block in
  let last_block := xor16 (f (xor16 last_block second_tweak)) second_tweak in
  let sector := put_region sector (16 * (block_count - 1)) last_block in
  put_region sector (16 * block_count) (take remaining block).

(** [xts_sector_batched] *)
Definition xts_sector_batched (data tweak_cipher : bytes) (sector tweak : bytes) (decrypt : bool)
  : option bytes :=
  let f := if decrypt then aes_decrypt data else aes_encrypt data in
  let block_count := (length sector / 16)%nat in
  let need_stealing := negb (length sector mod 16 =? 0)%nat in
  let tweak := aes_encrypt tweak_cipher tweak in
  let nosteal := if need_stealing then (block_count - 1)%nat else block_count in
  match batches block_count f nosteal 0 tweak sector with
  | Some (tweak, sector) => Some (if need_stealing then steal f decrypt tweak sector else sector)
  | None => None
  end.

(** [seal] and [open] of [XtsAes256]; running out of fuel would be a panic. *)
Definition xts_run (key : bytes) (c : BlockCtx) (buf : bytes) (decrypt : bool) : res bytes :=
  let '(data, tweak_cipher) := build_ciphers (expand_xts_key key) in
  match xts_sector_batched data tweak_cipher buf (derive_tweak key c) decrypt with
  | Some out => Ok out
  | None => Panic
  end.

Definition xts_seal (key : bytes) (c : BlockCtx) (plaintext : bytes) : res bytes :=
  if blen plaintext <? 16 then Err (Crypto "XTS requires blocks of at least 16 bytes")
  else xts_run key c plaintext false.

Definition xts_open (key : bytes) (c : BlockCtx) (ciphertext : bytes) : res bytes :=
  if blen ciphertext <? 16 then Err (Crypto "XTS ciphertext too short")
  else xts_run key c ciphertext true.

End xts.

(** *** Registry (mod.rs, none.rs) *)

Section registry.
Context `{!Hkdf, !Aes, !AesGcm}.

(** [trait CipherSuite] *)
Record CipherSuite := mkSuite {
  suite_id : Z;
  authenticated : bool;
  min_plaintext_len : Z;
  seal : bytes → BlockCtx → bytes → res bytes;
  open : bytes → BlockCtx → bytes → res bytes;
}.

Definition CipherNone : CipherSuite := mkSuite CIPHER_NONE false 0 (λ _ _ m, Ok m) (λ _ _ m, Ok m).
Definition AeadAes256Gcm : CipherSuite := mkSuite CIPHER_AES256_GCM true 0 gcm_seal gcm_open.
Definition XtsAes256 : CipherSuite := mkSuite CIPHER_XTS_AES256 false 16 xts_seal xts_open.

(** [CipherRegistry::get] *)
Definition registry_get (id : Z) : option CipherSuite :=
  if id =? CIPHER_NONE then Some CipherNone
  else if id =? CIPHER_AES256_GCM then Some AeadAes256Gcm
  else if id =? CIPHER_XTS_AES256 then Some XtsAes256
  else None.

End registry.

(** [CipherRegistry::common_optimum]; a [CapSet] is its list of ids. *)
Definition common_optimum (caps : list (list Z)) : Z :=
  match caps with
  | [] => CIPHER_AES256_GCM
  | _ =>
      if forallb (λ cs, bool_decide (CIPHER_AES256_GCM ∈ cs)) caps then CIPHER_AES256_GCM
      else if forallb (λ cs, bool_decide (CIPHER_XTS_AES256 ∈ cs)) caps then CIPHER_XTS_AES256
      else CIPHER_XTS_AES256
  end.

(** ** Negotiation (negotiate.rs) *)

(** [RankedCap] *)
Record RankedCap := mkRankedCap { suite : Z; rank : Z }.

Definition SECURITY_ORDER : list Z := [CIPHER_AES256_GCM; CIPHER_XTS_AES256; CIPHER_NONE].

Definition security_rank (id : Z) : Z :=
  match list_find (λ s, s = id) SECURITY_ORDER with
  | Some (p, _) => Z.of_nat p
  | None => 255
  end.

Definition worst_rank (peers : list (list RankedCap)) (id : Z) : Z :=
  let ranks := (λ peer, match list_find (λ rc, suite rc = id) peer with
                        | Some (_, rc) => rank rc
                        | None => 255
                        end) <$> peers in
  match ranks with
  | [] => 255
  | r :: rs => foldl Z.max r rs
  end.

(** The intersection loop: [None] when it became empty. *)
Fixpoint retain_common (common : list Z) (peers : list (list RankedCap)) : option (list Z) :=
  match peers with
  | [] => Some common
  | peer :: peers' =>
      let peer_ids := suite <$> peer in
      match filter (λ id, id ∈ peer_ids) common with
      | [] => None
      | common' => retain_common common' peers'
      end
  end.

(** The comparison of [min_by]: [b] replaces [a] only when it is smaller. *)
Definition better (peers : list (list RankedCap)) (a b : Z) : bool :=
  (worst_rank peers b <? worst_rank peers a) ||
  (worst_rank peers b =? worst_rank peers a) && (security_rank b <? security_rank a).
Definition min_by (peers : list (list RankedCap)) (l : list Z) : option Z :=
  match l with
  | [] => None
  | x :: l' => Some (foldl (λ best y, if better peers best y then y else best) x l')
  end.

Definition negotiate (peers : list (list RankedCap)) : option Z :=
  match peers with
  | [] => None
  | first :: rest =>
      let common := suite <$> first in
      match common with
      | [] => None
      | _ =>
          common ← retain_common common rest;
          let candidates :=
            if existsb (λ id, negb (id =? CIPHER_NONE)) common
            then filter (λ id, id ≠ CIPHER_NONE) common
            else common in
          match candidates with
          | [] => None
          | _ => min_by peers candidates
          end
      end
  end.

(** ** XTS: lemmas *)

Lemma byte_xor_twice a b : byte.xor (byte.xor a b) b = a.
Proof.
  unfold byte.xor. rewrite byte.unsigned_of_Z. unfold byte.wrap.
  pose proof (byte.unsigned_range a). pose proof (byte.unsigned_range b).
  rewrite <-(byte_of_unsigned a) at 2. f_equal.
  rewrite Z.mod_small; [by rewrite Z.lxor_assoc, Z.lxor_nilpotent, Z.lxor_0_r|].
  split; [apply Z.lxor_nonneg; lia|].
  destruct (decide (Z.lxor (byte.unsigned a) (byte.unsigned b) = 0)) as [->|]; [lia|].
  apply Z.log2_lt_pow2; [pose proof (proj2 (Z.lxor_nonneg (byte.unsigned a) (byte.unsigned b))); lia|].
  eapply Z.le_lt_trans; [apply Z.log2_lxor; lia|].
  assert (∀ x, 0 ≤ x < 2 ^ 8 → Z.log2 x < 8) as Hlog.
  { intros x Hx. destruct (decide (x = 0)) as [->|]; [done|]. apply Z.log2_lt_pow2; lia. }
  apply Z.max_lub_lt; by apply Hlog.
Qed.

Lemma xor16_length b t : length t = 16%nat → length b = 16%nat → length (xor16 b t) = 16%nat.
Proof.
  intros. unfold xor16. rewrite length_app, length_zip_with, length_drop. lia.
Qed.

Lemma xor16_zip b t : length t = length b → xor16 b t = zip_with byte.xor b t.
Proof. intros Ht. unfold xor16. by rewrite drop_ge, app_nil_r by lia. Qed.

Lemma xor16_twice b t : length t = length b → xor16 (xor16 b t) t = b.
Proof.
  intros Ht. rewrite (xor16_zip b t), xor16_zip by (rewrite ?length_zip_with; lia).
  revert t Ht. induction b as [|x b IH]; intros [|y t] Ht; cbn in *; try lia; [done|].
  rewrite byte_xor_twice. f_equal. apply IH. lia.
Qed.

Lemma alpha_length t : length (gf128_mul_alpha_le t) = 16%nat.
Proof. unfold gf128_mul_alpha_le. rewrite length_app, !length_le_split. done. Qed.

(** The tweak of the [n]-th block. *)
Definition tweak_at (t : bytes) (n : nat) : bytes := Nat.iter n gf128_mul_alpha_le t.

Lemma tweak_at_length t n : length t = 16%nat → length (tweak_at t n) = 16%nat.
Proof. destruct n; cbn; [done|]. intros. apply alpha_length. Qed.

Lemma tweak_at_alpha t n : tweak_at (gf128_mul_alpha_le t) n = tweak_at t (S n).
Proof. unfold tweak_at. by rewrite Nat.iter_succ_r. Qed.

(** One block: whitened with its tweak on both sides. *)
Definition xts_block (f : bytes → bytes) (t b : bytes) : bytes := xor16 (f (xor16 b t)) t.

(** The reference: block after block, as XTS is specified. *)
Fixpoint xts_blocks (f : bytes → bytes) (t : bytes) (bs : list bytes) : list bytes :=
  match bs with
  | [] => []
  | b :: bs' => xts_block f t b :: xts_blocks f (gf128_mul_alpha_le t) bs'
  end.

Section xts_lemmas.
Context (f : bytes → bytes) (Hf : ∀ b, length b = 16%nat → length (f b) = 16%nat).

Lemma xts_block_length t b :
  length t = 16%nat → length b = 16%nat → length (xts_block f t b) = 16%nat.
Proof. intros. unfold xts_block. by rewrite !xor16_length by auto using xor16_length. Qed.

Lemma xts_blocks_length t bs : length (xts_blocks f t bs) = length bs.
Proof. revert t. induction bs; cbn; intros; [done|]. by rewrite IHbs. Qed.

Lemma xts_blocks_16 t bs :
  length t = 16%nat → Forall (λ b, length b = 16%nat) bs →
  Forall (λ b, length b = 16%nat) (xts_blocks f t bs).
Proof.
  intros Ht Hbs. revert t Ht. induction Hbs; cbn; intros t Ht; constructor.
  - by apply xts_block_length.
  - apply IHHbs. apply alpha_length.
Qed.

Lemma xts_blocks_app t bs1 bs2 :
  xts_blocks f t (bs1 ++ bs2) = xts_blocks f t bs1 ++ xts_blocks f (tweak_at t (length bs1)) bs2.
Proof.
  revert t. induction bs1 as [|b bs1 IH]; cbn [xts_blocks app length]; intros t; [done|].
  by rewrite IH, tweak_at_alpha.
Qed.

Lemma tweak_chain_spec n t :
  tweak_chain n t = (tweak_at t <$> seq 0 n, tweak_at t n).
Proof.
  revert t. induction n as [|n IH]; intros t; [done|]. cbn [tweak_chain]. rewrite IH, tweak_at_alpha.
  cbn [seq fmap list_fmap]. f_equal. f_equal. rewrite <-seq_shift, <-list_fmap_compose.
  apply list_fmap_ext. intros i x _. apply tweak_at_alpha.
Qed.

(** The three passes over a batch process its blocks one by one. *)
Lemma batch_zip bs ts :
  Forall2 (λ b t, length b = 16%nat ∧ length t = 16%nat) bs ts →
  xor_region (map_region f (xor_region (concat bs) ts)) ts = concat (zip_with (flip (xts_block f)) bs ts).
Proof.
  intros Hbt. unfold xor_region, map_region.
  assert (Forall (λ b, length b = 16%nat) bs) as Hbs
    by (eapply Forall2_Forall_l; [done|]; apply Forall_forall; by intros ? _ ? []).
  rewrite (chunks_concat 16 bs) by (done || lia).
  assert (Forall (λ b, length b = 16%nat) (zip_with xor16 bs ts)) as Hxs.
  { clear Hbs. induction Hbt as [|b t bs ts [??]]; cbn; constructor; auto using xor16_length. }
  rewrite (chunks_concat 16 (zip_with _ _ _)) by (done || lia).
  rewrite chunks_concat; [|lia|].
  - f_equal. clear Hbs Hxs. induction Hbt as [|b t bs ts [??]]; cbn; [done|]. by f_equal.
  - apply Forall_fmap. eapply Forall_impl; [exact Hxs|]. cbn. auto.
Qed.

Lemma xts_blocks_zip t bs :
  xts_blocks f t bs = zip_with (flip (xts_block f)) bs (tweak_at t <$> seq 0 (length bs)).
Proof.
  revert t. induction bs as [|b bs IH]; intros t; [done|]. cbn [xts_blocks length seq fmap list_fmap zip_with].
  f_equal. rewrite IH. f_equal. rewrite <-seq_shift, <-list_fmap_compose.
  apply list_fmap_ext. intros i x _. apply tweak_at_alpha.
Qed.

Lemma batch_blocks t bs :
  length t = 16%nat → Forall (λ b, length b = 16%nat) bs →
  let ts := tweak_at t <$> seq 0 (length bs) in
  xor_region (map_region f (xor_region (concat bs) ts)) ts = concat (xts_blocks f t bs).
Proof.
  intros Ht Hbs. cbn zeta. rewrite batch_zip, xts_blocks_zip; [done|].
  apply Forall2_same_length_lookup_2; [by rewrite length_fmap, length_seq|].
  intros i b t' Hb (k&->&_)%list_lookup_fmap_Some. split; [|by apply tweak_at_length].
  by apply (Forall_lookup_1 _ _ _ _ Hbs Hb).
Qed.

Lemma length_concat_16 (bs : list bytes) :
  Forall (λ b, length b = 16%nat) bs → length (concat bs) = (length bs * 16)%nat.
Proof. induction 1; cbn; [done|]. rewrite length_app. lia. Qed.

(** The batched loop is the reference, whatever the batch size. *)
Lemma batches_spec fuel t pre bs rest :
  length t = 16%nat → Forall (λ b, length b = 16%nat) pre → Forall (λ b, length b = 16%nat) bs →
  (length bs ≤ fuel)%nat →
  batches fuel f (length pre + length bs) (length pre) t (concat pre ++ concat bs ++ rest) =
    Some (tweak_at t (length bs), concat pre ++ concat (xts_blocks f t bs) ++ rest).
Proof.
  revert t pre bs. induction fuel as [|fuel IH]; intros t pre bs Ht Hpre Hbs Hfuel.
  { destruct bs; cbn in Hfuel; [|lia]. cbn [batches length].
    by rewrite Nat.add_0_r, Nat.ltb_irrefl. }
  cbn [batches]. destruct (Nat.ltb_spec (length pre) (length pre + length bs)) as [Hlt|Hge].
  2: { by destruct bs; cbn in Hge; [|lia]. }
  replace (length pre + length bs - length pre)%nat with (length bs) by lia.
  set (n := Nat.min XTS_BATCH (length bs)). assert (0 < n ≤ length bs)%nat by (unfold n, XTS_BATCH; lia).
  assert (∃ b1 b2, bs = b1 ++ b2 ∧ length b1 = n) as (b1&b2&->&Hn).
  { exists (take n bs), (drop n bs). rewrite take_drop, length_take. split; [done|lia]. }
  clearbody n. subst n. apply Forall_app in Hbs as [Hb1 Hb2]. rewrite length_app in *.
  rewrite tweak_chain_spec, concat_app, <-!app_assoc.
  replace (length pre * 16)%nat with (length (concat pre)) by by apply length_concat_16.
  rewrite drop_app_length, (take_app_length' _ _ (length b1 * 16)) by by rewrite length_concat_16.
  rewrite batch_blocks by done. unfold put_region. rewrite take_app_length.
  rewrite <-drop_drop, drop_app_length.
  rewrite drop_app_length' by (rewrite !length_concat_16, xts_blocks_length; auto using xts_blocks_16).
  pose proof (IH (tweak_at t (length b1)) (pre ++ xts_blocks f t b1) b2) as IH'.
  rewrite !length_app, xts_blocks_length, concat_app, <-!app_assoc, <-Nat.add_assoc in IH'.
  rewrite IH'.
  - rewrite xts_blocks_app, concat_app, <-!app_assoc. do 2 f_equal.
    unfold tweak_at. by rewrite Nat.add_comm, Nat.iter_add.
  - by apply tweak_at_length.
  - apply Forall_app. auto using xts_blocks_16.
  - done.
  - lia.
Qed.

End xts_lemmas.

Lemma split_blocks k (l : bytes) :
  length l = (16 * k)%nat →
  ∃ bs, l = concat bs ∧ Forall (λ b, length b = 16%nat) bs ∧ length bs = k.
Proof.
  revert l. induction k as [|k IH]; intros l Hl.
  { exists []. by destruct l; cbn in Hl; [|lia]. }
  destruct (IH (drop 16 l)) as (bs&Heq&Hbs&Hk); [rewrite length_drop; lia|].
  exists (take 16 l :: bs). cbn [concat length]. rewrite <-Heq, take_drop.
  split_and!; [done| |by f_equal]. constructor; [|done]. rewrite length_take. lia.
Qed.

(** The shape of a sector: full blocks, and with stealing a last full block
    and a shorter tail. *)
Inductive sector_shape : bytes → Prop :=
| shape_full bs :
    Forall (λ b, length b = 16%nat) bs → sector_shape (concat bs)
| shape_steal bs p tail :
    Forall (λ b, length b = 16%nat) bs → length p = 16%nat → (0 < length tail < 16)%nat →
    sector_shape (concat bs ++ p ++ tail).

Lemma sector_shape_total s : (16 ≤ length s)%nat → sector_shape s.
Proof.
  intros Hs. pose proof (Nat.div_mod_eq (length s) 16). pose proof (Nat.mod_upper_bound (length s) 16).
  set (k := (length s / 16)%nat) in *. destruct (decide (length s mod 16 = 0)%nat) as [E|E].
  - destruct (split_blocks k s) as (bs&->&?&_); [lia|]. by constructor.
  - destruct (split_blocks (k - 1) (take (16 * (k - 1)) s)) as (bs&Heq&Hbs&_);
      [rewrite length_take; lia|].
    rewrite <-(take_drop (16 * (k - 1)) s), Heq.
    rewrite <-(take_drop 16 (drop (16 * (k - 1)) s)).
    constructor; [done|rewrite length_take, length_drop; lia|].
    rewrite drop_drop, length_drop. lia.
Qed.

(** The stealing tail as XTS specifies it, on the last full block [p] and the
    partial block [tail]. *)
Definition steal_blocks (f : bytes → bytes) (decrypt : bool) (t p tail : bytes) : bytes :=
  let t1 := if decrypt then gf128_mul_alpha_le t else t in
  let t2 := if decrypt then t else gf128_mul_alpha_le t in
  let cc := xts_block f t1 p in
  xts_block f t2 (tail ++ drop (length tail) cc) ++ take (length tail) cc.

Lemma put_region_app a m m' z :
  length m' = length m → put_region (a ++ m ++ z) (length a) m' = a ++ m' ++ z.
Proof.
  intros Hm. unfold put_region. rewrite take_app_length, <-drop_drop, drop_app_length.
  by rewrite drop_app_length'.
Qed.

(** The tail of a sector that starts with [out]. *)
Lemma steal_spec f decrypt t out k p tail :
  (∀ b, length b = 16%nat → length (f b) = 16%nat) → length t = 16%nat →
  length out = (k * 16)%nat → length p = 16%nat → (0 < length tail < 16)%nat →
  steal f decrypt t (out ++ p ++ tail) = out ++ steal_blocks f decrypt t p tail.
Proof.
  intros Hf Ht Hout Hp Htail. unfold steal. rewrite !length_app, Hout, Hp.
  replace ((k * 16 + (16 + length tail)) / 16)%nat with (S k)
    by (apply Nat.div_unique with (length tail); lia).
  replace ((k * 16 + (16 + length tail)) mod 16)%nat with (length tail)
    by (apply Nat.mod_unique with (S k); lia).
  replace (16 * (S k - 1))%nat with (length out) by lia.
  replace (16 * S k)%nat with (length out + 16)%nat by lia.
  rewrite drop_app_length, (take_app_length' p tail) by done.
  rewrite <-drop_drop, drop_app_length, (drop_app_length' p tail) by done.
  unfold steal_blocks, xts_block. cbv zeta.
  set (t1 := if decrypt then gf128_mul_alpha_le t else t).
  set (t2 := if decrypt then t else gf128_mul_alpha_le t).
  assert (length t1 = 16%nat ∧ length t2 = 16%nat) as [Ht1 Ht2].
  { unfold t1, t2. destruct decrypt; split; (apply alpha_length || done). }
  pose proof (xts_block_length f Hf t1 p Ht1 Hp) as Hcc.
  change (xor16 (f (xor16 p t1)) t1) with (xts_block f t1 p) in *. set (cc := xts_block f t1 p) in *.
  pose proof (xts_block_length f Hf t2 (tail ++ drop (length tail) cc) Ht2
    ltac:(rewrite length_app, length_drop; lia)) as Hc.
  unfold xts_block in Hc. set (c := xor16 (f _) t2) in *.
  rewrite put_region_app by congruence.
  rewrite <-(app_nil_r tail) at 1. rewrite (app_assoc out c).
  replace (length out + 16)%nat with (length (out ++ c)) by (rewrite length_app; lia).
  rewrite put_region_app by (rewrite length_take; lia). by rewrite app_nil_r, <-app_assoc.
Qed.

Section xts_correct.
Context `{!Aes}.

Lemma cipher_length (decrypt : bool) k b :
  length b = 16%nat → length ((if decrypt then aes_decrypt k else aes_encrypt k) b) = 16%nat.
Proof. destruct decrypt; [apply aes_decrypt_length|apply aes_encrypt_length]. Qed.

Lemma xts_sector_full data tk (bs : list bytes) (t : bytes) (decrypt : bool) :
  Forall (λ b, length b = 16%nat) bs → length t = 16%nat →
  xts_sector_batched data tk (concat bs) t decrypt =
    Some (concat (xts_blocks (if decrypt then aes_decrypt data else aes_encrypt data)
                             (aes_encrypt tk t) bs)).
Proof.
  intros Hbs Ht. unfold xts_sector_batched. rewrite length_concat_16 by done.
  rewrite Nat.Div0.mod_mul, Nat.div_mul by lia. cbn [negb Nat.eqb].
  set (f := if decrypt then aes_decrypt data else aes_encrypt data).
  pose proof (batches_spec f (cipher_length decrypt data) (length bs) (aes_encrypt tk t) [] bs []) as Hb.
  cbn [length concat app Nat.add] in Hb. rewrite !app_nil_r in Hb.
  rewrite Hb; [done|by apply aes_encrypt_length|by constructor|done|lia].
Qed.

Lemma xts_sector_steal data tk (bs : list bytes) (p tail t : bytes) (decrypt : bool) :
  Forall (λ b, length b = 16%nat) bs → length p = 16%nat → (0 < length tail < 16)%nat →
  length t = 16%nat →
  let f := if decrypt then aes_decrypt data else aes_encrypt data in
  xts_sector_batched data tk (concat bs ++ p ++ tail) t decrypt =
    Some (concat (xts_blocks f (aes_encrypt tk t) bs) ++
          steal_blocks f decrypt (tweak_at (aes_encrypt tk t) (length bs)) p tail).
Proof.
  intros Hbs Hp Htail Ht f. unfold xts_sector_batched. fold f.
  pose proof (aes_encrypt_length tk t Ht) as Ht'. set (t' := aes_encrypt tk t) in *.
  rewrite !length_app, length_concat_16, Hp by done.
  replace ((length bs * 16 + (16 + length tail)) / 16)%nat with (S (length bs))
    by (apply Nat.div_unique with (length tail); lia).
  replace ((length bs * 16 + (16 + length tail)) mod 16)%nat with (length tail)
    by (apply Nat.mod_unique with (S (length bs)); lia).
  replace (length tail =? 0)%nat with false by lia. cbn [negb].
  replace (S (length bs) - 1)%nat with (length bs) by lia.
  pose proof (batches_spec f (cipher_length decrypt data) (S (length bs)) t' [] bs (p ++ tail)) as Hb.
  cbn [length concat app Nat.add] in Hb.
  rewrite Hb; [|done|by constructor|done|lia]. f_equal.
  apply (steal_spec _ _ _ _ (length bs)); [apply cipher_length|by apply tweak_at_length| |done..].
  rewrite length_concat_16, xts_blocks_length; [done|].
  apply xts_blocks_16; [apply cipher_length|done..].
Qed.

Lemma xts_block_inverse data t b :
  length t = 16%nat → length b = 16%nat →
  xts_block (aes_decrypt data) t (xts_block (aes_encrypt data) t b) = b.
Proof.
  intros Ht Hb. unfold xts_block.
  assert (length (aes_encrypt data (xor16 b t)) = 16%nat) by (apply aes_encrypt_length, xor16_length; done).
  rewrite xor16_twice, aes_decrypt_encrypt, xor16_twice; [done|lia|by apply xor16_length|lia].
Qed.

Lemma xts_blocks_inverse data t bs :
  length t = 16%nat → Forall (λ b, length b = 16%nat) bs →
  xts_blocks (aes_decrypt data) t (xts_blocks (aes_encrypt data) t bs) = bs.
Proof.
  intros Ht Hbs. revert t Ht. induction Hbs; cbn; intros t Ht; [done|].
  rewrite xts_block_inverse by done. f_equal. apply IHHbs, alpha_length.
Qed.

(** Stealing is undone with the two tweaks exchanged. *)
Lemma steal_blocks_inverse data t p tail :
  length t = 16%nat → length p = 16%nat → (0 < length tail < 16)%nat →
  ∃ p' tail', steal_blocks (aes_encrypt data) false t p tail = p' ++ tail' ∧
    length p' = 16%nat ∧ length tail' = length tail ∧
    steal_blocks (aes_decrypt data) true t p' tail' = p ++ tail.
Proof.
  intros Ht Hp Htail. pose proof (aes_encrypt_length data) as He.
  set (cc := xts_block (aes_encrypt data) t p).
  assert (length cc = 16%nat) as Hcc by by apply xts_block_length.
  assert (length (tail ++ drop (length tail) cc) = 16%nat) as Hlb
    by (rewrite length_app, length_drop; lia).
  exists (xts_block (aes_encrypt data) (gf128_mul_alpha_le t) (tail ++ drop (length tail) cc)),
    (take (length tail) cc). split_and!; [done|..].
  - apply xts_block_length; [done|apply alpha_length|done].
  - rewrite length_take. lia.
  - unfold steal_blocks. rewrite xts_block_inverse by (done || apply alpha_length).
    rewrite length_take. replace (length tail `min` length cc)%nat with (length tail) by lia.
    rewrite take_app_length, drop_app_length, take_drop. unfold cc.
    by rewrite xts_block_inverse.
Qed.

Lemma xts_roundtrip_sector data tk s t :
  (16 ≤ length s)%nat → length t = 16%nat →
  ∃ c, xts_sector_batched data tk s t false = Some c ∧ length c = length s ∧
       xts_sector_batched data tk c t true = Some s.
Proof.
  intros Hs Ht. pose proof (aes_encrypt_length tk t Ht) as Ht'. set (t' := aes_encrypt tk t) in *.
  pose proof (aes_encrypt_length data) as He.
  destruct (sector_shape_total s Hs) as [bs Hbs|bs p tail Hbs Hp Htail].
  - rewrite xts_sector_full by done. eexists. split; [done|].
    assert (Forall (λ b, length b = 16%nat) (xts_blocks (aes_encrypt data) t' bs)) as Hc
      by by apply xts_blocks_16.
    rewrite xts_sector_full, xts_blocks_inverse by done.
    by rewrite !length_concat_16, xts_blocks_length.
  - rewrite xts_sector_steal by done. cbv iota zeta. fold t'. eexists. split; [done|].
    assert (Forall (λ b, length b = 16%nat) (xts_blocks (aes_encrypt data) t' bs)) as Hc
      by by apply xts_blocks_16.
    destruct (steal_blocks_inverse data (tweak_at t' (length bs)) p tail) as (p'&tail'&->&Hp'&Htail'&Hinv);
      [by apply tweak_at_length|done..|].
    rewrite !length_app, !length_concat_16, xts_blocks_length, Hp, Hp', Htail' by done. split; [done|].
    rewrite xts_sector_steal by (done || lia). cbv iota zeta. fold t'.
    by rewrite xts_blocks_inverse, xts_blocks_length, Hinv.
Qed.

End xts_correct.

(** ** Negotiation: lemmas *)

Lemma retain_common_spec common peers :
  match retain_common common peers with
  | Some l => ∀ id, id ∈ l ↔ id ∈ common ∧ ∀ peer, peer ∈ peers → id ∈ suite <$> peer
  | None => ∀ id, id ∈ common → ∃ peer, peer ∈ peers ∧ id ∉ suite <$> peer
  end.
Proof.
  revert common. induction peers as [|peer peers IH]; intros common; cbn [retain_common].
  { intros id. setoid_rewrite elem_of_nil. naive_solver. }
  assert (∀ id, id ∈ filter (λ id, id ∈ suite <$> peer) common ↔ id ∈ common ∧ id ∈ suite <$> peer)
    as Hf by (intros id; rewrite list_elem_of_filter; tauto).
  destruct (filter _ common) as [|x l] eqn:E.
  - intros id Hid. exists peer. split; [by left|]. intros Hp.
    by apply (not_elem_of_nil id), Hf.
  - specialize (IH (x :: l)). destruct (retain_common (x :: l) peers) as [l'|].
    + intros id. rewrite IH, Hf. setoid_rewrite elem_of_cons. naive_solver.
    + intros id Hid. destruct (decide (id ∈ suite <$> peer)) as [Hp|Hp].
      * destruct (IH id) as (peer'&?&?); [by apply Hf|]. exists peer'. split; [by right|done].
      * exists peer. split; [by left|done].
Qed.

(** [b] is not preferred to [a]. *)
Definition no_better (peers : list (list RankedCap)) (a b : Z) : Prop :=
  worst_rank peers a < worst_rank peers b ∨
  worst_rank peers a = worst_rank peers b ∧ security_rank a ≤ security_rank b.

Lemma better_false peers a b : better peers a b = false ↔ no_better peers a b.
Proof. unfold better, no_better. lia. Qed.

Lemma better_true peers a b : better peers a b = true → no_better peers b a.
Proof. unfold better, no_better. lia. Qed.

Lemma no_better_trans peers a b c : no_better peers a b → no_better peers b c → no_better peers a c.
Proof. unfold no_better. lia. Qed.

Lemma min_by_spec peers l s :
  min_by peers l = Some s → s ∈ l ∧ ∀ s', s' ∈ l → no_better peers s s'.
Proof.
  destruct l as [|x l]; [done|]. cbn. intros [= <-]. revert x.
  induction l as [|y l IH]; intros x; cbn.
  { split; [by left|]. intros s' ->%list_elem_of_singleton. right. lia. }
  destruct (better peers x y) eqn:E.
  - destruct (IH y) as [Hin Hbest]. split; [by right|].
    intros s' [->|Hs']%elem_of_cons; [|by apply Hbest].
    eapply no_better_trans; [|by apply better_true]. apply Hbest. by left.
  - destruct (IH x) as [Hin Hbest]. split; [apply elem_of_cons in Hin as [->|?]; [by left|by right; right]|].
    intros s' [->|[->|Hs']%elem_of_cons]%elem_of_cons; [apply Hbest; by left| |apply Hbest; by right].
    eapply no_better_trans; [|by apply better_false]. apply Hbest. by left.
Qed.

(** A suite every peer supports. *)
Definition common_suite (peers : list (list RankedCap)) (id : Z) : Prop :=
  ∀ peer, peer ∈ peers → id ∈ suite <$> peer.

(** ** Properties *)

Lemma suite_roundtrip `{!Hkdf, !Aes, !AesGcm} (id : Z) (cs : CipherSuite)
    (key : bytes) (c : BlockCtx) (m : bytes) :
  registry_get id = Some cs →
  if min_plaintext_len cs <=? blen m then
    ∃ ct, seal cs key c m = Ok ct ∧ open cs key c ct = Ok m ∧
      blen ct = blen m + (if authenticated cs then 16 else 0)
  else ∃ e, seal cs key c m = Err (Crypto e).
Proof.
  unfold registry_get. intros Hget. pose proof (blen_nonneg m).
  repeat (case_match; [injection Hget as <-|]); cbn -[xts_seal xts_open]; [| | |done].
  - replace (0 <=? blen m) with true by lia. eexists. split_and!; [done..|lia].
  - replace (0 <=? blen m) with true by lia. eexists. unfold gcm_open, gcm_seal.
    rewrite gcm_open_seal. split_and!; [done..|]. unfold blen. rewrite gcm_length. lia.
  - unfold xts_seal, xts_open. destruct (Z.leb_spec 16 (blen m)).
    + replace (blen m <? 16) with false by lia. unfold xts_run.
      destruct (build_ciphers (expand_xts_key key)) as [data tk].
      destruct (xts_roundtrip_sector data tk m (derive_tweak key c)) as (ct&Hs&Hl&Ho).
      { unfold blen in *. lia. }
      { apply hkdf_length. }
      rewrite Hs. exists ct. split; [done|]. replace (blen ct) with (blen m) by (unfold blen; lia).
      replace (blen m <? 16) with false by lia. rewrite Ho. split; [done|lia].
    + replace (blen m <? 16) with true by lia. eauto.
Qed.

(** Whatever suite a container selects, opening a sealed block under the
    same key and context returns the plaintext, for every length the suite
    accepts; XTS keeps the length and refuses less than one AES block. *)
Lemma cipher_suite_roundtrip `{!Hkdf, !Aes, !AesGcm} (id : Z) (cs : CipherSuite)
    (key : bytes) (c : BlockCtx) (m : bytes) :
  registry_get id = Some cs →
  if min_plaintext_len cs <=? blen m then
    ∃ ct, seal cs key c m = Ok ct ∧ open cs key c ct = Ok m ∧
      blen ct = blen m + (if authenticated cs then 16 else 0)
  else ∃ e, seal cs key c m = Err (Crypto e).
Proof. apply suite_roundtrip. Qed.

(** C23. The batched XTS routine computes the cipher block by block as XTS is
    specified, with ciphertext stealing for a last partial block, for every
    sector of at least 16 bytes, and never runs past its loop bound. *)
Theorem xts_batched_is_reference `{!Aes} (data tk s t : bytes) (decrypt : bool) :
  (16 ≤ length s)%nat → length t = 16%nat →
  let f := if decrypt then aes_decrypt data else aes_encrypt data in
  let t0 := aes_encrypt tk t in
  ∃ bs, Forall (λ b, length b = 16%nat) bs ∧
    ((s = concat bs ∧ xts_sector_batched data tk s t decrypt = Some (concat (xts_blocks f t0 bs))) ∨
     (∃ p tail, s = concat bs ++ p ++ tail ∧ length p = 16%nat ∧ (0 < length tail < 16)%nat ∧
        xts_sector_batched data tk s t decrypt =
          Some (concat (xts_blocks f t0 bs) ++ steal_blocks f decrypt (tweak_at t0 (length bs)) p tail))).
Proof.
  intros Hs Ht f t0. destruct (sector_shape_total s Hs) as [bs Hbs|bs p tail Hbs Hp Htail].
  - exists bs. split; [done|left]. split; [done|]. by apply xts_sector_full.
  - exists bs. split; [done|right]. exists p, tail. do 3 (split; [done|]).
    by apply xts_sector_steal.
Qed.

(** The 36-byte context that keys the nonce and the tweak determines the
    block identity: two contexts with the same bytes are equal. *)
Theorem ctx_bytes_injective (c c' : BlockCtx) :
  ctx_ok c → ctx_ok c' → ctx_bytes c = ctx_bytes c' → c = c'.
Proof.
  destruct c as [u f v k], c' as [u' f' v' k']. unfold ctx_ok, ctx_bytes.
  cbn [ctx_uuid frag version key_epoch].
  intros (Hu&?&?&?) (Hu'&?&?&?) Heq.
  apply app_inj_1 in Heq as [-> Heq]; [|congruence].
  apply app_inj_1 in Heq as [Hf Heq]; [|by rewrite !length_le_split].
  apply app_inj_1 in Heq as [Hv Hk]; [|by rewrite !length_le_split].
  f_equal; [rewrite <-(le_val_u32 f), <-(le_val_u32 f') by done
           |rewrite <-(le_val_u64 v), <-(le_val_u64 v') by done
           |rewrite <-(le_val_u64 k), <-(le_val_u64 k') by done]; by f_equal.
Qed.

(** Negotiation: the result is a suite every peer supports, the identity
    suite only when it is the sole common one, and among the eligible suites
    its worst rank over the peers is minimal, ties going to the stronger
    suite; there is no result exactly when there is no common suite. *)
Lemma negotiate_minimax (peers : list (list RankedCap)) :
  match negotiate peers with
  | Some s =>
      common_suite peers s ∧
      (s = CIPHER_NONE → ∀ s', common_suite peers s' → s' = CIPHER_NONE) ∧
      ∀ s', common_suite peers s' → s' ≠ CIPHER_NONE → no_better peers s s'
  | None => peers = [] ∨ ∀ s, ¬ common_suite peers s
  end.
Proof.
  unfold negotiate. destruct peers as [|first rest]; [by left|].
  assert (∀ id, common_suite (first :: rest) id ↔
    id ∈ suite <$> first ∧ ∀ peer, peer ∈ rest → id ∈ suite <$> peer) as Hc.
  { intros id. unfold common_suite. setoid_rewrite elem_of_cons. naive_solver. }
  destruct (suite <$> first) as [|x l] eqn:E.
  { right. intros s Hs%Hc. by destruct Hs as [?%elem_of_nil _]. }
  rewrite <-E in *. clear E x l. pose proof (retain_common_spec (suite <$> first) rest) as Hr.
  destruct (retain_common (suite <$> first) rest) as [common|]; cbn.
  2: { right. intros s [Hs1 Hs2]%Hc. destruct (Hr s Hs1) as (peer&?&?). naive_solver. }
  assert (∀ id, common_suite (first :: rest) id ↔ id ∈ common) as Hcc by (intros; by rewrite Hr, Hc).
  set (cands := if existsb _ common then _ else _).
  assert (∀ id, id ∈ cands ↔ id ∈ common ∧ (id = CIPHER_NONE → ∀ s, s ∈ common → s = CIPHER_NONE)) as Hcand.
  { intros id. unfold cands. destruct (existsb _ common) eqn:Ex.
    - apply existsb_exists in Ex as (y&Hy%list_elem_of_In&Hn). rewrite list_elem_of_filter.
      split; [naive_solver|]. intros [Hin Hall]. split; [|done]. intros ->.
      specialize (Hall eq_refl y Hy). lia.
    - split; [|tauto]. intros Hin. split; [done|]. intros _ s Hs.
      destruct (decide (s = CIPHER_NONE)) as [|Hn]; [done|]. exfalso.
      enough (existsb (λ id, negb (id =? CIPHER_NONE)) common = true) by congruence.
      apply existsb_exists. exists s. split; [by apply list_elem_of_In|lia]. }
  clearbody cands. destruct cands as [|x l].
  - right. intros s Hs%Hcc. destruct (decide (Forall (λ s, s = CIPHER_NONE) common)) as [Hall|Hnone].
    + rewrite Forall_forall in Hall. apply (not_elem_of_nil s), Hcand. auto.
    + apply not_Forall_Exists, Exists_exists in Hnone as (y&Hy&Hne); [|apply _].
      by apply (not_elem_of_nil y), Hcand.
  - destruct (min_by (first :: rest) (x :: l)) as [s|] eqn:Em; [|done].
    apply min_by_spec in Em as [[Hin Hall]%Hcand Hbest]. split_and!.
    + by apply Hcc.
    + intros -> s' Hs'%Hcc. by apply Hall.
    + intros s' Hs'%Hcc Hne. apply Hbest, Hcand. done.
Qed.

(** ** Concrete primitives

    Executable instances of the classes: CRC-32 itself, and simple functions
    with the lengths and inverse laws of the cryptographic ones, on which the
    definitions can be evaluated. *)

Module Concrete.

(** CRC-32 (IEEE 802.3, reflected), bit by bit. *)
Definition crc_bit (c : Z) : Z :=
  if Z.testbit c 0 then Z.lxor (Z.shiftr c 1) 0xEDB88320 else Z.shiftr c 1.
Definition crc_byte (c : Z) (b : Init.Byte.byte) : Z :=
  Nat.iter 8 crc_bit (Z.lxor c (byte.unsigned b)).
Definition crc32_ieee (s : bytes) : Z :=
  Z.lxor (foldl crc_byte 0xFFFFFFFF s) 0xFFFFFFFF `mod` 2 ^ 32.

#[export, refine] Instance crc : Crc32 := {| crc32 := crc32_ieee |}.
Proof. intros s. apply Z.mod_pos_bound. done. Defined.

Definition pad (n : nat) (s : bytes) : bytes := take n (s ++ zeros n).

Lemma pad_length n s : length (pad n s) = n.
Proof. unfold pad, zeros. rewrite length_take, length_app, length_replicate. lia. Qed.

#[export, refine] Instance hkdf : Hkdf :=
  {| hkdf_sha256 salt ikm info n := pad n (info ++ ikm ++ salt) |}.
Proof. intros. apply pad_length. Defined.

#[export, refine] Instance hmac : Hmac := {| hmac_sha256 k m := pad 32 (take 16 k ++ m) |}.
Proof. intros. apply pad_length. Defined.

#[export, refine] Instance aes : Aes :=
  {| aes_encrypt k b := xor16 b (pad 16 k); aes_decrypt k b := xor16 b (pad 16 k) |}.
Proof.
  - intros. by apply xor16_length; [apply pad_length|].
  - intros. by apply xor16_length; [apply pad_length|].
  - intros k b Hb. apply xor16_twice. by rewrite pad_length.
Defined.

#[export, refine] Instance gcm : AesGcm :=
  {| gcm_encrypt k n aad m := m ++ pad 16 (aad ++ n ++ k);
     gcm_decrypt k n aad c :=
       if bool_decide (drop (length c - 16) c = pad 16 (aad ++ n ++ k))
       then Some (take (length c - 16) c) else None |}.
Proof.
  - intros. rewrite length_app, pad_length. done.
  - intros k n aad m. rewrite length_app, pad_length.
    replace (length m + 16 - 16)%nat with (length m) by lia.
    by rewrite drop_app_length, bool_decide_true, take_app_length.
Defined.

(** The check value of the CRC-32 catalogue. *)
Lemma crc_check : crc32 (bstr "123456789") = 0xCBF43926.
Proof. vm_compute. reflexivity. Qed.

End Concrete.

(** *** Witnesses *)

Import Concrete.

Definition ex_key : bytes := zeros 32.
Definition ex_ctx : BlockCtx := mkBlockCtx (zeros 16) 3 65536 0.

Lemma xts_batched_is_reference_witness :
  ∃ bs, Forall (λ b, length b = 16%nat) bs ∧
    ((bstr "sixteen  bytes.." = concat bs ∧
      xts_sector_batched ex_key ex_key (bstr "sixteen  bytes..") (zeros 16) false =
        Some (concat (xts_blocks (aes_encrypt ex_key) (aes_encrypt ex_key (zeros 16)) bs))) ∨
     ∃ p tail, bstr "sixteen  bytes.." = concat bs ++ p ++ tail ∧ length p = 16%nat ∧
       (0 < length tail < 16)%nat ∧
       xts_sector_batched ex_key ex_key (bstr "sixteen  bytes..") (zeros 16) false =
         Some (concat (xts_blocks (aes_encrypt ex_key) (aes_encrypt ex_key (zeros 16)) bs) ++
               steal_blocks (aes_encrypt ex_key) false
                 (tweak_at (aes_encrypt ex_key (zeros 16)) (length bs)) p tail)).
Proof.
  apply (xts_batched_is_reference ex_key ex_key (bstr "sixteen  bytes..") (zeros 16) false);
    by_compute.
Defined.

