(* ===== verification/Header.v ===== *)
(** * Container header (crates/sfs-core/src/container/header.rs)

    The two header slots of a container: the version-12 wire image with its
    CRC and MAC, the slot selection of [load], the alternating slot protocol of
    [commit], and the keyless salt peek. A torn write is any content of the
    slot that was being written. *)

From S2P Require Import Prelude.
From S2P Require Import Backend.
From S2P Require Import Crypto.

Inductive SignMode := Unsigned | Signed | WriterSetMode.

Definition MAGIC : bytes := bstr "sfs" ++ byte1 0 ++ bstr "v1" ++ zeros 2.
Definition FORMAT_VERSION : Z := 12.

Record ContainerParams := mkParams { max_fragsize_exp : Z; eviction_code : Z; base_block : Z }.
Record CatalogRoots := mkRoots { key_root : Z; id_root : Z }.

Record ContainerHeader := mkHeader {
  magic : bytes;
  format_version : Z;
  cipher : Z;
  content_cipher : Z;
  params : ContainerParams;
  roots : CatalogRoots;
  writer_set : option bytes;
  commit_seq : Z;
  wal_applied_seq : Z;
  wal_region_offset : Z;
  sign_mode : SignMode;
  writer_pubkey : bytes;
  owner_pubkey : bytes;
  writer_set_epoch : Z;
  hdr_key_epoch : Z;
  hdr_tail_low : Z;
  salt : bytes;
  pad_blocks : bool;
}.

Definition BODY_SIZE_V1 : Z := 59.
Definition BODY_SIZE_V2 : Z := BODY_SIZE_V1 + 8 + 8.
Definition BODY_SIZE_V4 : Z := BODY_SIZE_V2 + 1.
Definition BODY_SIZE_V5 : Z := BODY_SIZE_V4 + 2.
Definition BODY_SIZE_V6 : Z := BODY_SIZE_V5 + 1 + 32.
Definition BODY_SIZE_V7 : Z := BODY_SIZE_V6 + 32 + 8.
Definition BODY_SIZE_V8 : Z := BODY_SIZE_V7 + 8.
Definition BODY_SIZE_V11 : Z := BODY_SIZE_V8 + 8.
Definition SALT_LEN : Z := 16.
Definition BODY_SIZE_V12 : Z := BODY_SIZE_V11 + SALT_LEN.
Definition HEADER_MAC_SIZE : Z := 32.
Definition WIRE_SIZE_V12 : Z := BODY_SIZE_V12 + 4 + HEADER_MAC_SIZE.
Definition SLOT0_OFFSET : Z := 0.
Definition SLOT1_OFFSET : Z := BASE_BLOCK.

Definition sign_mode_byte (m : SignMode) : Z :=
  match m with
  | Unsigned => 0
  | Signed => 1
  | WriterSetMode => 2
  end.

(** [serialize_body] *)
Definition serialize_body (h : ContainerHeader) : bytes :=
  magic h ++ le_bytes 2 (format_version h) ++ le_bytes 2 (cipher h) ++
  byte1 (max_fragsize_exp (params h)) ++ byte1 (eviction_code (params h)) ++
  le_bytes 4 (base_block (params h)) ++ le_bytes 8 (key_root (roots h)) ++
  le_bytes 8 (id_root (roots h)) ++
  byte1 (if writer_set h is Some _ then 1 else 0) ++
  match writer_set h with None => zeros 16 | Some ws => ws end ++
  le_bytes 8 (commit_seq h) ++ le_bytes 8 (wal_applied_seq h) ++
  le_bytes 8 (wal_region_offset h) ++ byte1 (if pad_blocks h then 1 else 0) ++
  le_bytes 2 (content_cipher h) ++ byte1 (sign_mode_byte (sign_mode h)) ++
  writer_pubkey h ++ owner_pubkey h ++ le_bytes 8 (writer_set_epoch h) ++
  le_bytes 8 (hdr_key_epoch h) ++ le_bytes 8 (hdr_tail_low h) ++ salt h.

Section header.
Context `{!Crc32, !Hkdf, !Hmac}.

(** [to_wire] *)
Definition to_wire (h : ContainerHeader) (mac_key : option bytes) : bytes :=
  let body := serialize_body h in
  let crc := crc32 body in
  match mac_key with
  | Some root_key =>
      if FORMAT_VERSION <=? format_version h
      then body ++ le_bytes 4 crc ++ header_mac root_key body
      else body ++ le_bytes 4 crc
  | None => body ++ le_bytes 4 crc
  end.

(** The fields after the CRC and MAC checks of [from_wire]. *)
Definition decode_fields (raw : bytes) (fv : Z) : res ContainerHeader :=
  m ← index_range raw 0 8;
  if negb (bool_decide (m = MAGIC)) then Err (Integrity "header magic mismatch")
  else
    cipher ← index_range raw 10 12;
    max_fragsize_exp ← index_byte raw 12;
    eviction_code ← index_byte raw 13;
    base_block ← index_range raw 14 18;
    key_root ← index_range raw 18 26;
    id_root ← index_range raw 26 34;
    writer_set_present ← index_byte raw 34;
    ws_data ← index_range raw 35 51;
    commit_seq ← index_range raw 51 59;
    wal_applied_seq ← index_range raw BODY_SIZE_V1 (BODY_SIZE_V1 + 8);
    wal_region_offset ← index_range raw (BODY_SIZE_V1 + 8) (BODY_SIZE_V1 + 16);
    pad ← index_byte raw BODY_SIZE_V2;
    content_cipher ← index_range raw BODY_SIZE_V4 (BODY_SIZE_V4 + 2);
    mode_byte ← index_byte raw BODY_SIZE_V5;
    sign_mode ← (if mode_byte =? 0 then Ok Unsigned
                 else if mode_byte =? 1 then Ok Signed
                 else if mode_byte =? 2 then Ok WriterSetMode
                 else Err (Integrity "unknown sign_mode byte in v10 header"));
    pubkey ← index_range raw (BODY_SIZE_V5 + 1) (BODY_SIZE_V5 + 1 + 32);
    opk ← index_range raw BODY_SIZE_V6 (BODY_SIZE_V6 + 32);
    epoch ← index_range raw (BODY_SIZE_V6 + 32) (BODY_SIZE_V6 + 40);
    key_epoch ← index_range raw BODY_SIZE_V7 (BODY_SIZE_V7 + 8);
    tail_low ← index_range raw BODY_SIZE_V8 (BODY_SIZE_V8 + 8);
    salt ← index_range raw BODY_SIZE_V11 (BODY_SIZE_V11 + SALT_LEN);
    Ok (mkHeader m fv (le_val cipher) (le_val content_cipher)
          (mkParams max_fragsize_exp eviction_code (le_val base_block))
          (mkRoots (le_val key_root) (le_val id_root))
          (if negb (writer_set_present =? 0) then Some ws_data else None)
          (le_val commit_seq) (le_val wal_applied_seq) (le_val wal_region_offset)
          sign_mode pubkey opk (le_val epoch) (le_val key_epoch) (le_val tail_low) salt
          (negb (pad =? 0))).

(** [from_wire] *)
Definition from_wire (raw : bytes) (mac_key : option bytes) : res ContainerHeader :=
  if blen raw <? WIRE_SIZE_V12 then Err (Integrity "header buffer too short for v12")
  else
    fv ← index_range raw 8 10;
    let fv := le_val fv in
    if negb (fv =? FORMAT_VERSION) then Err (UnsupportedVersion fv)
    else
      stored_crc ← index_range raw BODY_SIZE_V12 (BODY_SIZE_V12 + 4);
      body ← index_range raw 0 BODY_SIZE_V12;
      if negb (le_val stored_crc =? crc32 body)
      then Err (Integrity "header CRC mismatch — slot is invalid or torn")
      else
        match mac_key with
        | Some root_key =>
            stored_mac ← index_range raw (BODY_SIZE_V12 + 4) (BODY_SIZE_V12 + 4 + HEADER_MAC_SIZE);
            if negb (bool_decide (stored_mac = header_mac root_key body))
            then Err (Integrity "header MAC mismatch — slot is forged, downgraded, or keyed with the wrong root_key")
            else decode_fields raw fv
        | None => decode_fields raw fv
        end.

(** [peek_salt] *)
Definition peek_salt (raw : bytes) : res (option bytes) :=
  if blen raw <? BODY_SIZE_V12 then Ok None
  else
    fv ← index_range raw 8 10;
    if negb (le_val fv =? FORMAT_VERSION) then Ok None
    else
      s ← index_range raw BODY_SIZE_V11 (BODY_SIZE_V11 + SALT_LEN);
      Ok (Some s).

Definition peek_decode_slot (raw : bytes) : res (option ContainerHeader) :=
  match from_wire raw None with
  | Ok h => Ok (Some h)
  | Err _ => Ok None
  | Panic => Panic
  end.

Definition read_slot (b : Backend.t) (slot_offset : Z) (mac_key : option bytes) : res ContainerHeader :=
  raw ← Backend.read_at b slot_offset WIRE_SIZE_V12; from_wire raw mac_key.

Definition write_slot (h : ContainerHeader) (b : Backend.t) (slot_offset : Z) (mac_key : option bytes)
  : res Backend.t :=
  Backend.write_at b slot_offset (to_wire h mac_key).

Definition write_slot0 (h : ContainerHeader) (b : Backend.t) (mac_key : option bytes) : res Backend.t :=
  write_slot h b 0 mac_key.

(** A slot read whose [Err] the caller inspects. *)
Definition try_slot (b : Backend.t) (slot_offset : Z) : res (option ContainerHeader) :=
  match read_slot b slot_offset None with
  | Ok h => Ok (Some h)
  | Err _ => Ok None
  | Panic => Panic
  end.

(** [load] *)
Definition load (b : Backend.t) (mac_key : option bytes) : res ContainerHeader :=
  s0 ← try_slot b SLOT0_OFFSET;
  s1 ← try_slot b SLOT1_OFFSET;
  winner_offset ←
    match s0, s1 with
    | Some h0, Some h1 => Ok (if commit_seq h0 <? commit_seq h1 then SLOT1_OFFSET else SLOT0_OFFSET)
    | Some _, None => Ok SLOT0_OFFSET
    | None, Some _ => Ok SLOT1_OFFSET
    | None, None =>
        Err (Integrity "both header slots are invalid — container is corrupt or uninitialized")
    end;
  read_slot b winner_offset mac_key.

(** [commit]; the backend of a failed write is the old one. *)
Definition commit (b : Backend.t) (next : ContainerHeader) (mac_key : option bytes) : res Backend.t :=
  s0 ← try_slot b SLOT0_OFFSET;
  s1 ← try_slot b SLOT1_OFFSET;
  '(active_seq, inactive_offset) ←
    match s0, s1 with
    | Some h0, Some h1 =>
        Ok (if commit_seq h0 <? commit_seq h1 then (commit_seq h1, SLOT0_OFFSET)
            else (commit_seq h0, SLOT1_OFFSET))
    | Some h0, None => Ok (commit_seq h0, SLOT1_OFFSET)
    | None, Some h1 => Ok (commit_seq h1, SLOT0_OFFSET)
    | None, None => Err (Integrity "cannot commit: both header slots are invalid")
    end;
  next_seq ← add64 active_seq 1;
  if negb (commit_seq next =? next_seq) then Err (Integrity "commit_seq must be active_seq+1")
  else
    b' ← write_slot next b inactive_offset mac_key;
    Backend.flush b';;
    Ok b'.

(** [peek_container_salt_bytes] *)
Definition peek_slot_bytes (img : bytes) (offset : Z) : res (option ContainerHeader) :=
  let end_ := Z.min (offset + WIRE_SIZE_V12) (blen img) in
  if offset <? end_ then
    part ← index_range img offset end_;
    peek_decode_slot (part ++ zeros (Z.to_nat (WIRE_SIZE_V12 - (end_ - offset))))
  else peek_decode_slot (zeros (Z.to_nat WIRE_SIZE_V12)).

Definition peek_container_salt_bytes (img : bytes) : res (option bytes) :=
  s0 ← peek_slot_bytes img SLOT0_OFFSET;
  s1 ← peek_slot_bytes img SLOT1_OFFSET;
  winner ←
    match s0, s1 with
    | Some h0, Some h1 => Ok (if commit_seq h0 <? commit_seq h1 then h1 else h0)
    | Some h0, None => Ok h0
    | None, Some h1 => Ok h1
    | None, None => Err (Integrity "no valid header slot — not an sfs container?")
    end;
  Ok (if bool_decide (salt winner = zeros 16) then None else Some (salt winner)).

(** ** The codec *)

(** A header whose fields fit the wire format and that [from_wire] accepts. *)
Definition header_ok (h : ContainerHeader) : Prop :=
  magic h = MAGIC ∧ format_version h = FORMAT_VERSION ∧
  (u16 (cipher h) ∧ u16 (content_cipher h)) ∧
  (u8 (max_fragsize_exp (params h)) ∧ u8 (eviction_code (params h)) ∧ u32 (base_block (params h))) ∧
  (u64 (key_root (roots h)) ∧ u64 (id_root (roots h))) ∧
  match writer_set h with Some ws => blen ws = 16 | None => True end ∧
  (u64 (commit_seq h) ∧ u64 (wal_applied_seq h) ∧ u64 (wal_region_offset h)) ∧
  (blen (writer_pubkey h) = 32 ∧ blen (owner_pubkey h) = 32) ∧
  (u64 (writer_set_epoch h) ∧ u64 (hdr_key_epoch h) ∧ u64 (hdr_tail_low h)) ∧
  blen (salt h) = 16.

Lemma blen_MAGIC : blen MAGIC = 8.
Proof. done. Qed.
Lemma blen_header_mac k b : blen (header_mac k b) = 32.
Proof. unfold blen. by rewrite header_mac_length. Qed.
#[local] Hint Rewrite blen_MAGIC blen_header_mac : blen.

(** The sizes as numbers. *)
Ltac sizes :=
  unfold WIRE_SIZE_V12, HEADER_MAC_SIZE, BODY_SIZE_V12, BODY_SIZE_V11, BODY_SIZE_V8, BODY_SIZE_V7,
    BODY_SIZE_V6, BODY_SIZE_V5, BODY_SIZE_V4, BODY_SIZE_V2, BODY_SIZE_V1, SALT_LEN in *.

Lemma blen_ws_field h :
  header_ok h → blen (match writer_set h with None => zeros 16 | Some ws => ws end) = 16.
Proof. intros (_&_&_&_&_&Hw&_). by destruct (writer_set h). Qed.

Lemma blen_body h : header_ok h → blen (serialize_body h) = BODY_SIZE_V12.
Proof.
  intros Hh. pose proof (blen_ws_field h Hh) as Hws.
  destruct Hh as (Hm&_&_&_&_&_&_&(?&?)&_&?). unfold serialize_body. rewrite Hm.
  autorewrite with blen. rewrite Hws. sizes. lia.
Qed.

(** The header that the bytes after the checks decode to. *)
Lemma decode_fields_encoded h raw rest :
  header_ok h → at_cursor raw 0 (serialize_body h ++ rest) →
  decode_fields raw FORMAT_VERSION = Ok h.
Proof.
  intros Hh Hc. pose proof (blen_ws_field h Hh) as Hws.
  destruct Hh as (Hm&Hv&(?&?)&(?&?&?)&(?&?)&Hw&(?&?&?)&(?&?)&(?&?&?)&?).
  unfold serialize_body in Hc. rewrite Hm, Hv in Hc. rewrite <-!app_assoc in Hc.
  unfold decode_fields. sizes. cursor_bind Hc. branch false.
  eapply at_cursor_skip in Hc; [|reflexivity]. cursor_bind Hc.
  do 2 (cursor_bind Hc; [done|]). do 3 cursor_bind Hc.
  cursor_bind Hc; [by destruct (writer_set h)|]. do 4 cursor_bind Hc.
  cursor_bind Hc; [by destruct (pad_blocks h)|]. cursor_bind Hc.
  cursor_bind Hc; [by destruct (sign_mode h)|].
  apply (bind_step _ _ (sign_mode h)); [by destruct (sign_mode h)|].
  do 5 cursor_bind Hc. eapply bind_step.
  { eapply index_range_cursor; [exact Hc|blia|blia]. }
  rewrite !le_val_u64, !le_val_u16, le_val_u32 by done.
  clear Hc. destruct h as [???? [] [] [] ?????????? []]; cbn in *; by subst.
Qed.

Lemma from_wire_encoded h raw tail mac_key :
  header_ok h → at_cursor raw 0 (serialize_body h ++ le_bytes 4 (crc32 (serialize_body h)) ++ tail) →
  32 ≤ blen tail →
  (∀ k, mac_key = Some k → take 32 tail = header_mac k (serialize_body h)) →
  from_wire raw mac_key = Ok h.
Proof.
  intros Hh Hc Htail Hmac. pose proof (blen_body h Hh) as Hb.
  assert (BODY_SIZE_V12 + 4 + blen tail = blen raw) as Hraw.
  { destruct Hc as (_&Hl&_). revert Hl. autorewrite with blen. lia. }
  assert (decode_fields raw FORMAT_VERSION = Ok h) as Hdec by by eapply decode_fields_encoded.
  assert (index_range raw 8 10 = Ok (le_bytes 2 FORMAT_VERSION)) as Hver.
  { pose proof Hh as (Hm&Hv&_). pose proof Hc as Hc'. unfold serialize_body at 1 in Hc'.
    rewrite Hm, Hv, <-!app_assoc in Hc'. eapply at_cursor_skip in Hc'; [|reflexivity].
    eapply index_range_cursor; [exact Hc'|blia|blia]. }
  unfold from_wire. replace (blen raw <? WIRE_SIZE_V12) with false by (sizes; lia).
  eapply bind_step; [exact Hver|]. rewrite le_val_u16 by by_compute. branch false.
  pose proof Hc as Hc2. eapply at_cursor_skip in Hc2; [|reflexivity].
  eapply bind_step; [eapply index_range_cursor; [exact Hc2|lia|blia]|].
  eapply bind_step; [eapply index_range_cursor; [exact Hc|lia|blia]|].
  rewrite le_val_u32 by apply crc32_u32. cbv beta. rewrite Z.eqb_refl; cbn [negb].
  destruct mac_key as [k|]; [|done].
  eapply at_cursor_skip in Hc2; [|reflexivity]. rewrite <-(take_drop 32 tail) in Hc2.
  eapply bind_step.
  { eapply index_range_cursor; [exact Hc2|blia|]. rewrite (Hmac k) by done. sizes. blia. }
  rewrite (Hmac k) by done. by rewrite bool_decide_true.
Qed.

Lemma from_wire_no_panic raw mac_key : no_panic (from_wire raw mac_key).
Proof.
  unfold from_wire, decode_fields. panic_step; [auto with panic|].
  assert (219 ≤ blen raw) by (sizes; lia).
  repeat (panic_step || (progress cbn beta iota)); auto with panic;
    first [apply no_panic_index_range|apply no_panic_index_byte]; sizes; lia.
Qed.

(** What an accepted header has passed. *)
Lemma from_wire_inv raw mac_key h :
  from_wire raw mac_key = Ok h →
  ∃ body crc, index_range raw 0 BODY_SIZE_V12 = Ok body ∧
    index_range raw BODY_SIZE_V12 (BODY_SIZE_V12 + 4) = Ok crc ∧ le_val crc = crc32 body ∧
    (∀ k, mac_key = Some k →
       index_range raw (BODY_SIZE_V12 + 4) (BODY_SIZE_V12 + 4 + HEADER_MAC_SIZE) =
         Ok (header_mac k body)) ∧
    decode_fields raw FORMAT_VERSION = Ok h.
Proof.
  unfold from_wire. case_match; [done|]. intros (fv & _ & Hrest)%bind_ok.
  destruct (Z.eqb_spec (le_val fv) FORMAT_VERSION) as [->|]; cbn [negb] in Hrest; [|done].
  apply bind_ok in Hrest as (crc & Hcrc & Hrest). apply bind_ok in Hrest as (body & Hbody & Hrest).
  destruct (Z.eqb_spec (le_val crc) (crc32 body)); cbn [negb] in Hrest; [|done].
  exists body, crc. split_and!; [done..| |].
  - intros k ->. apply bind_ok in Hrest as (mac & Hm & Hrest).
    case_bool_decide; cbn [negb] in Hrest; [by subst|done].
  - destruct mac_key; [|done]. apply bind_ok in Hrest as (mac & Hm & Hrest). by case_bool_decide.
Qed.

Lemma decode_fields_ok raw h : decode_fields raw FORMAT_VERSION = Ok h → header_ok h.
Proof.
  unfold decode_fields. sizes. intros (m & _ & Hrest)%bind_ok.
  case_bool_decide as Hm; cbn [negb] in Hrest; [|done].
  repeat match goal with
  | H : mbind _ ?m = Ok h |- _ => apply bind_ok in H as (? & ? & H); cbv beta in H
  end.
  injection Hrest as <-. unfold header_ok; cbn.
  split_and!; try done; eauto with fields.
  destruct (negb _); eauto with fields.
Qed.

(** A keyed decode that succeeds is the keyless decode. *)
Lemma from_wire_keyless raw mac_key h : from_wire raw mac_key = Ok h → from_wire raw None = Ok h.
Proof.
  destruct mac_key as [k|]; [|done]. intros Hk.
  pose proof (from_wire_inv _ _ _ Hk) as (body&crc&Hb&Hc&He&_&Hd).
  revert Hk. unfold from_wire. case_match; [done|]. intros (fv&Hv&Hk)%bind_ok.
  rewrite Hv; cbn. case_match; [done|]. rewrite Hb, Hc; cbn. rewrite He, Z.eqb_refl; cbn.
  by replace (le_val fv) with FORMAT_VERSION by lia.
Qed.

(** ** The slot protocol *)

(** The slot that [load] selects, with the header it holds. *)
Definition slot_header (b : Backend.t) (o : Z) : option ContainerHeader := res_ok (read_slot b o None).

Definition active (b : Backend.t) : option (Z * ContainerHeader) :=
  match slot_header b SLOT0_OFFSET, slot_header b SLOT1_OFFSET with
  | Some h0, Some h1 =>
      Some (if commit_seq h0 <? commit_seq h1 then (SLOT1_OFFSET, h1) else (SLOT0_OFFSET, h0))
  | Some h0, None => Some (SLOT0_OFFSET, h0)
  | None, Some h1 => Some (SLOT1_OFFSET, h1)
  | None, None => None
  end.

Definition is_slot (o : Z) : Prop := o = SLOT0_OFFSET ∨ o = SLOT1_OFFSET.
Definition other_slot (o : Z) : Z := if o =? SLOT0_OFFSET then SLOT1_OFFSET else SLOT0_OFFSET.

(** Both slots fit into the store. *)
Definition slots_ok (b : Backend.t) : Prop :=
  Backend.wf b ∧ SLOT1_OFFSET + WIRE_SIZE_V12 ≤ Backend.len b.

Ltac slot_lia := unfold is_slot, other_slot, slots_ok, SLOT0_OFFSET, SLOT1_OFFSET, BASE_BLOCK in *; sizes; lia.

Lemma other_is_slot o : is_slot o → is_slot (other_slot o).
Proof. intros [-> | ->]; [by right|by left]. Qed.

Lemma read_slot_no_panic b o k : Backend.wf b → 0 ≤ o → no_panic (read_slot b o k).
Proof.
  intros. apply no_panic_bind; [by apply Backend.read_at_no_panic|].
  intros. apply from_wire_no_panic.
Qed.

Lemma try_slot_eq b o : Backend.wf b → 0 ≤ o → try_slot b o = Ok (slot_header b o).
Proof.
  intros Hwf Ho. pose proof (read_slot_no_panic b o None Hwf Ho) as Hp.
  unfold try_slot, slot_header. by destruct (read_slot b o None).
Qed.

Lemma load_active b mac_key :
  Backend.wf b →
  load b mac_key =
    match active b with
    | Some (o, _) => read_slot b o mac_key
    | None => Err (Integrity "both header slots are invalid — container is corrupt or uninitialized")
    end.
Proof.
  intros. unfold load. rewrite !try_slot_eq by done. unfold active; cbn.
  destruct (slot_header b SLOT0_OFFSET), (slot_header b SLOT1_OFFSET); try done.
  by cbn; destruct (_ <? _).
Qed.

Lemma commit_active b next mac_key :
  Backend.wf b →
  commit b next mac_key =
    match active b with
    | Some (o, h) =>
        next_seq ← add64 (commit_seq h) 1;
        if negb (commit_seq next =? next_seq) then Err (Integrity "commit_seq must be active_seq+1")
        else write_slot next b (other_slot o) mac_key
    | None => Err (Integrity "cannot commit: both header slots are invalid")
    end.
Proof.
  intros. unfold commit. rewrite !try_slot_eq by done. unfold active; cbn.
  destruct (slot_header b SLOT0_OFFSET), (slot_header b SLOT1_OFFSET); try done;
    cbn; try destruct (_ <? _); cbn; destruct (add64 _ _); try done; cbn;
    (case_match; [done|]); by destruct (write_slot _ _ _ _).
Qed.

Lemma active_spec b o h :
  active b = Some (o, h) →
  is_slot o ∧ slot_header b o = Some h ∧
  ∀ o' h', is_slot o' → slot_header b o' = Some h' → commit_seq h' ≤ commit_seq h.
Proof.
  unfold active, is_slot. intros Ha.
  destruct (slot_header b SLOT0_OFFSET) eqn:E0, (slot_header b SLOT1_OFFSET) eqn:E1;
    try (destruct (_ <? _) eqn:Elt); simplify_eq;
    (split_and!; [auto|done|]); intros o' h' [-> | ->] Hs; simplify_eq; try lia.
Qed.

(** The valid slot with the larger sequence number is the active one. *)
Lemma active_intro b o h :
  is_slot o → slot_header b o = Some h →
  (∀ h', slot_header b (other_slot o) = Some h' → commit_seq h' < commit_seq h) →
  active b = Some (o, h).
Proof.
  unfold active. intros [-> | ->] Hs Hlt; cbn in Hlt; rewrite Hs.
  - destruct (slot_header b SLOT1_OFFSET); [|done]. specialize (Hlt _ eq_refl).
    by replace (_ <? _) with false by lia.
  - destruct (slot_header b SLOT0_OFFSET); [|done]. specialize (Hlt _ eq_refl).
    by replace (_ <? _) with true by lia.
Qed.

(** A loaded header is that of the active slot. *)
Lemma load_inv b mac_key h :
  Backend.wf b → load b mac_key = Ok h → ∃ o, active b = Some (o, h) ∧ read_slot b o mac_key = Ok h.
Proof.
  intros Hwf. rewrite load_active by done. destruct (active b) as [[o h']|] eqn:Ha; [|done].
  intros Hr. exists o. split; [|done]. pose proof (active_spec _ _ _ Ha) as (_&Hs&_).
  revert Hs Hr. unfold slot_header, read_slot. intros Hs (raw&Hraw&Hw)%bind_ok.
  rewrite Hraw in Hs; cbn in Hs. rewrite (from_wire_keyless _ _ _ Hw) in Hs. cbn in Hs. by simplify_eq.
Qed.

(** Reading a slot depends on the bytes of that slot only. *)
Lemma read_slot_ext b b' o k :
  slots_ok b → slots_ok b' → is_slot o →
  Backend.contents b' o WIRE_SIZE_V12 = Backend.contents b o WIRE_SIZE_V12 →
  read_slot b' o k = read_slot b o k.
Proof.
  intros [? ?] [? ?] ? Hc. unfold read_slot.
  rewrite !Backend.read_at_ok by (done || slot_lia). by rewrite Hc.
Qed.

(** [load] depends on the bytes of the two slots only. *)
Lemma load_ext b b' k :
  slots_ok b → slots_ok b' →
  (∀ o, is_slot o → Backend.contents b' o WIRE_SIZE_V12 = Backend.contents b o WIRE_SIZE_V12) →
  load b' k = load b k.
Proof.
  intros Hs Hs' Hc. pose proof Hs as [? _]. pose proof Hs' as [? _].
  assert (∀ o kk, is_slot o → read_slot b' o kk = read_slot b o kk) as Hr
    by (intros; apply read_slot_ext; auto).
  assert (active b' = active b) as Ha
    by (unfold active, slot_header; by rewrite !Hr by (unfold is_slot; auto)).
  rewrite !load_active, Ha by done. destruct (active b) as [[o h]|] eqn:E; [|done].
  apply Hr. by eapply active_spec.
Qed.

(** A loaded header fits the wire format. *)
Lemma load_ok b k h : slots_ok b → load b k = Ok h → header_ok h.
Proof.
  intros [Hwf _] Hl. apply load_inv in Hl as (o&_&Hr); [|done]. unfold read_slot in Hr.
  apply bind_ok in Hr as (raw&_&Hf). apply from_wire_inv in Hf as (?&?&_&_&_&_&Hd). by eapply decode_fields_ok.
Qed.

(** Agreement outside of a slot. *)
Definition same_outside (b b' : Backend.t) (o : Z) : Prop :=
  ∀ x, ¬ o ≤ x < o + WIRE_SIZE_V12 → Backend.byte_at b' x = Backend.byte_at b x.

Lemma same_outside_other b b' o :
  is_slot o → same_outside b b' (other_slot o) →
  Backend.contents b' o WIRE_SIZE_V12 = Backend.contents b o WIRE_SIZE_V12.
Proof.
  intros Ho Hsame. apply Backend.contents_ext; [slot_lia..|]. intros i Hi. apply Hsame.
  destruct Ho as [-> | ->]; cbn; slot_lia.
Qed.

(** Writing a slot makes it readable and leaves the rest of the store alone. *)
Lemma write_slot_ok h b o k :
  slots_ok b → is_slot o → header_ok h →
  ∃ b', write_slot h b o k = Ok b' ∧ slots_ok b' ∧ Backend.len b' = Backend.len b ∧
    same_outside b b' o ∧ read_slot b' o k = Ok h ∧ Backend.no_grow b' = Backend.no_grow b.
Proof.
  intros [Hwf Hlen] Ho Hh. pose proof (blen_body h Hh) as Hb. pose proof Hh as (_&Hv&_).
  set (body := serialize_body h) in *.
  assert (∃ mac, to_wire h k = body ++ le_bytes 4 (crc32 body) ++ mac ∧
    match k with Some key => mac = header_mac key body | None => mac = [] end) as (mac&Hw&Hmac).
  { unfold to_wire. rewrite Hv. destruct k; cbn [FORMAT_VERSION Z.leb]; eexists; [done|].
    by rewrite app_nil_r. }
  assert (blen mac = 32 ∨ blen mac = 0) as Hm.
  { destruct k; subst mac; [left; apply blen_header_mac|by right]. }
  assert (blen (to_wire h k) = 187 + blen mac) as Hwl.
  { rewrite Hw. autorewrite with blen. rewrite Hb. slot_lia. }
  destruct (Backend.write_at_ok b o (to_wire h k)) as (b'&Hok&Hwf'&Hl&Hg&Hbytes); [done|slot_lia..|].
  exists b'. split; [done|]. assert (slots_ok b') as Hs' by (split; [done|lia]).
  split_and!; [done..| | |done].
  - intros x Hx. rewrite Hbytes. rewrite decide_False; [done|]. slot_lia.
  - unfold read_slot. rewrite Backend.read_at_ok by (done || slot_lia). cbn.
    rewrite (Backend.contents_written b b' o (to_wire h k)) by (done || slot_lia).
    set (tail := Backend.contents _ _ _). rewrite Hw, <-!app_assoc.
    apply from_wire_encoded with (tail := mac ++ tail);
      [done|apply at_cursor_start| |].
    + rewrite blen_app. destruct Hm as [Hm|Hm]; [pose proof (blen_nonneg tail); lia|].
      assert (blen tail = 32); [|lia]. subst tail. rewrite Hwl, Hm. unfold Backend.contents, blen.
      rewrite length_take, length_drop. destruct Hwf as [Hll _]. unfold blen in Hll. slot_lia.
    + intros key ->. subst mac. rewrite take_app_length'; [done|]. by rewrite header_mac_length.
Qed.

(** C40. The version-12 wire image round-trips: a header whose fields fit their
    widths is read back unchanged from its image, with the key that sealed it
    and without one. Conversely, whatever bytes it is given, [from_wire]
    returns or reports an error without unwinding, and what it accepts is a
    header whose fields fit, so that it can be written again. *)
Theorem header_wire_roundtrip h k :
  header_ok h →
  from_wire (to_wire h (Some k)) (Some k) = Ok h ∧ from_wire (to_wire h (Some k)) None = Ok h ∧
  ∀ raw mac_key, no_panic (from_wire raw mac_key) ∧
    ∀ h', from_wire raw mac_key = Ok h' → header_ok h'.
Proof.
  intros Hh. pose proof Hh as (_&Hv&_).
  assert (∀ mk, from_wire (to_wire h (Some k)) mk = Ok h ∨ (∃ k', mk = Some k' ∧ k' ≠ k)) as Hrt.
  { intros mk. destruct (decide (mk = None ∨ mk = Some k)) as [Hmk|]; [left|right].
    - unfold to_wire. rewrite Hv. cbn [FORMAT_VERSION Z.leb].
      eapply from_wire_encoded; [done|apply at_cursor_start|by rewrite blen_header_mac|].
      intros k' ->. destruct Hmk; simplify_eq. apply take_ge. by rewrite header_mac_length.
    - destruct mk as [k'|]; [|tauto]. exists k'. split; [done|]. intros ->. tauto. }
  split_and!; [by destruct (Hrt (Some k)) as [|(?&[= ->]&?)]|by destruct (Hrt None) as [|(?&?&?)]|].
  intros raw mk. split; [apply from_wire_no_panic|].
  intros h' (?&?&_&_&_&_&Hd)%from_wire_inv. by eapply decode_fields_ok.
Qed.

(** A commit with the next sequence number writes the slot that is not active. *)
Lemma commit_run b k cur next k' :
  slots_ok b → load b k = Ok cur → header_ok next → commit_seq next = commit_seq cur + 1 →
  ∃ b' o, commit b next k' = Ok b' ∧ load b' k' = Ok next ∧ slots_ok b' ∧ Backend.len b' = Backend.len b ∧
    Backend.no_grow b' = Backend.no_grow b ∧
    is_slot o ∧ same_outside b b' (other_slot o) ∧ read_slot b' o k = Ok cur.
Proof.
  intros Hs Hload Hn Hseq. pose proof Hs as [Hwf _].
  apply load_inv in Hload as (o&Ha&Hr); [|done].
  pose proof (active_spec _ _ _ Ha) as (Ho&Hsl&Hmax).
  rewrite commit_active, Ha by done. unfold add64. replace (commit_seq cur + 1 <? 2 ^ 64) with true
    by (destruct Hn as (_&_&_&_&_&_&(?&_)&_); width_lia). cbn. rewrite Hseq, Z.eqb_refl; cbn.
  destruct (write_slot_ok next b (other_slot o) k') as (b'&Hw&Hs'&Hl&Hsame&Hr'&Hg);
    [done|by apply other_is_slot|done|].
  exists b', o. split; [done|]. pose proof Hs' as [Hwf' _].
  assert (∀ kk, read_slot b' o kk = read_slot b o kk) as Hold
    by (intros; apply read_slot_ext; [done..|by apply same_outside_other]).
  split_and!; [|done..|by rewrite Hold].
  rewrite load_active by done. rewrite (active_intro b' (other_slot o) next); [done| | |].
  - by apply other_is_slot.
  - unfold slot_header, read_slot in *. apply bind_ok in Hr' as (raw&->&Hf); cbn.
    by rewrite (from_wire_keyless _ _ _ Hf).
  - replace (other_slot (other_slot o)) with o by (destruct Ho as [-> | ->]; done).
    unfold slot_header in *. rewrite Hold. intros h' Hh'. rewrite Hh' in Hsl. simplify_eq. lia.
Qed.

(** What [load] makes of a store that a commit left behind. *)
Lemma commit_torn b k cur next k' b' :
  slots_ok b → load b k = Ok cur → header_ok next → commit b next k' = Ok b' →
  ∃ o, is_slot o ∧ same_outside b b' o ∧ ∀ torn, slots_ok torn → same_outside b torn o →
    (is_ok (read_slot torn o None) = false → load torn k = Ok cur) ∧
    (Backend.contents torn o WIRE_SIZE_V12 = Backend.contents b o WIRE_SIZE_V12 →
       load torn k = Ok cur) ∧
    (Backend.contents torn o WIRE_SIZE_V12 = Backend.contents b' o WIRE_SIZE_V12 →
       load torn k' = Ok next).
Proof.
  intros Hs Hload Hn Hc. pose proof Hs as [Hwf _].
  apply load_inv in Hload as (o&Ha&Hr); [|done].
  pose proof (active_spec _ _ _ Ha) as (Ho&Hsl&Hmax).
  rewrite commit_active, Ha in Hc by done. apply bind_ok in Hc as (n&Hadd&Hc).
  assert (n = commit_seq cur + 1) as -> 
    by (unfold add64 in Hadd; destruct (_ <? _); congruence).
  destruct (Z.eqb_spec (commit_seq next) (commit_seq cur + 1)) as [Hseq|]; cbn [negb] in Hc; [|done].
  destruct (write_slot_ok next b (other_slot o) k') as (b2&Hw&Hs'&_&Hsame&Hr'&_);
    [done|by apply other_is_slot|done|]. rewrite Hw in Hc. simplify_eq.
  exists (other_slot o). split; [by apply other_is_slot|]. split; [done|].
  intros torn Ht Hout. pose proof Ht as [Hwt _].
  assert (other_slot (other_slot o) = o) as Hoo by (destruct Ho as [-> | ->]; done).
  assert (∀ kk, read_slot torn o kk = read_slot b o kk) as Hold
    by (intros; apply read_slot_ext; [done..|by apply same_outside_other]).
  assert (slot_header torn o = Some cur) as Hsl' by (unfold slot_header in *; by rewrite Hold).
  rewrite !load_active by done. split_and!.
  - intros Hbad. rewrite (active_intro torn o cur); [by rewrite Hold|done..|].
    unfold slot_header. by destruct (read_slot torn (other_slot o) None).
  - intros Heq. assert (active torn = active b) as ->; [|by rewrite Ha, Hold].
    assert (∀ kk, read_slot torn (other_slot o) kk = read_slot b (other_slot o) kk) as Hoth
      by (intros; apply read_slot_ext; [done|done|by apply other_is_slot|done]).
    unfold active, slot_header in *. destruct Ho as [-> | ->]; cbn in Hold, Hoth; by rewrite Hold, Hoth.
  - intros Hnew.
    assert (∀ kk, read_slot torn (other_slot o) kk = read_slot b' (other_slot o) kk) as Hoth
      by (intros; apply read_slot_ext; [done|done|by apply other_is_slot|done]).
    rewrite (active_intro torn (other_slot o) next); [by rewrite Hoth|by apply other_is_slot| |].
    + unfold slot_header, read_slot in *. rewrite Hoth. apply bind_ok in Hr' as (raw&->&Hf); cbn.
      by rewrite (from_wire_keyless _ _ _ Hf).
    + rewrite Hoo, Hsl'. intros h' [= <-]. lia.
Qed.

(** C14. A commit over a store whose current header is [cur] publishes the next
    header: it is refused unless the sequence number is the successor, and
    otherwise it succeeds, the next [load] under the same key returns the new
    header, and the slot of the previous header still reads as it did. *)
Theorem commit_publishes b k cur next k' :
  slots_ok b → load b k = Ok cur → header_ok next →
  (commit_seq next ≠ commit_seq cur + 1 → is_ok (commit b next k') = false) ∧
  (commit_seq next = commit_seq cur + 1 →
     ∃ b', commit b next k' = Ok b' ∧ load b' k' = Ok next ∧ slots_ok b' ∧
       Backend.len b' = Backend.len b ∧
       ∃ o, is_slot o ∧ same_outside b b' (other_slot o) ∧ read_slot b' o k = Ok cur).
Proof.
  intros Hs Hload Hn. split.
  - intros Hne. pose proof Hs as [Hwf _]. apply load_inv in Hload as (o&Ha&Hr); [|done].
    rewrite commit_active, Ha by done. unfold add64.
    destruct (commit_seq cur + 1 <? 2 ^ 64); [|done]; cbn.
    by replace (commit_seq next =? commit_seq cur + 1) with false by lia.
  - intros Hseq. destruct (commit_run b k cur next k' Hs Hload Hn Hseq) as (b'&o&?&?&?&?&_&?&?&?). eauto 10.
Qed.

(** C12. A crash while a commit writes its slot is atomic. Whatever bytes the
    torn write left in the slot being written, the rest of the store being
    intact: if the slot is invalid at CRC level, or still holds its previous
    bytes, [load] returns the previous header; if it holds the complete new
    image, [load] returns the new header. *)
Theorem commit_crash_atomic b k cur next k' b' :
  slots_ok b → load b k = Ok cur → header_ok next → commit b next k' = Ok b' →
  ∃ o, is_slot o ∧ ∀ torn, slots_ok torn → same_outside b torn o →
    (is_ok (read_slot torn o None) = false → load torn k = Ok cur) ∧
    (Backend.contents torn o WIRE_SIZE_V12 = Backend.contents b o WIRE_SIZE_V12 →
       load torn k = Ok cur) ∧
    (Backend.contents torn o WIRE_SIZE_V12 = Backend.contents b' o WIRE_SIZE_V12 →
       load torn k' = Ok next).
Proof.
  intros Hs Hload Hn Hc. destruct (commit_torn b k cur next k' b' Hs Hload Hn Hc) as (o&?&_&?). eauto.
Qed.

(** C13. A keyed [load] never rolls back: the header it returns sits in a slot
    whose stored tag is the MAC of its body under the key, and no slot that is
    valid at CRC level carries a larger sequence number, authentic or not. *)
Theorem load_no_rollback b k h :
  slots_ok b → load b (Some k) = Ok h →
  ∃ o, is_slot o ∧
    Backend.contents b (o + BODY_SIZE_V12 + 4) HEADER_MAC_SIZE =
      header_mac k (Backend.contents b o BODY_SIZE_V12) ∧
    read_slot b o None = Ok h ∧
    ∀ o' h', is_slot o' → read_slot b o' None = Ok h' → commit_seq h' ≤ commit_seq h.
Proof.
  intros [Hwf Hlen] Hload. apply load_inv in Hload as (o&Ha&Hr); [|done].
  pose proof (active_spec _ _ _ Ha) as (Ho&Hsl&Hmax). exists o. split; [done|].
  split_and!.
  - unfold read_slot in Hr. rewrite Backend.read_at_ok in Hr by (done || slot_lia). cbn in Hr.
    apply from_wire_inv in Hr as (body&_&Hb&_&_&Hm&_). specialize (Hm k eq_refl).
    assert (∀ x n r, 0 ≤ x → 0 ≤ n → x + n ≤ WIRE_SIZE_V12 →
      index_range (Backend.contents b o WIRE_SIZE_V12) x (x + n) = Ok r →
      Backend.contents b (o + x) n = r) as Hsub.
    { intros x n r ???. unfold index_range. destruct (get_range _ _ _) eqn:E; [|done]. intros [= <-].
      apply get_range_Some in E as (_&_&_&->). unfold Backend.contents.
      rewrite skipn_firstn_comm, take_take, drop_drop. f_equal; [|f_equal]; slot_lia. }
    rewrite <-Z.add_assoc. apply (Hsub 0 BODY_SIZE_V12) in Hb; [|slot_lia..].
    rewrite Z.add_0_r in Hb. rewrite Hb. apply Hsub; [slot_lia..|done].
  - unfold slot_header in Hsl. destruct (read_slot b o None); cbn in Hsl; by simplify_eq.
  - intros o' h' ? Hr'. apply (Hmax o' h'); [done|]. unfold slot_header. by rewrite Hr'.
Qed.

Lemma peek_slot_bytes_read b o :
  slots_ok b → is_slot o → peek_slot_bytes (Backend.mem b) o = Ok (slot_header b o).
Proof.
  intros [Hwf Hlen] Ho. pose proof Hwf as [Hl _]. unfold peek_slot_bytes.
  replace (Z.min (o + WIRE_SIZE_V12) (blen (Backend.mem b))) with (o + WIRE_SIZE_V12) by slot_lia.
  replace (o <? o + WIRE_SIZE_V12) with true by slot_lia.
  replace (WIRE_SIZE_V12 - (o + WIRE_SIZE_V12 - o)) with 0 by lia.
  assert (index_range (Backend.mem b) o (o + WIRE_SIZE_V12) = Ok (Backend.contents b o WIRE_SIZE_V12)) as ->.
  { rewrite <-Backend.read_at_ok by (done || slot_lia). unfold Backend.read_at.
    pose proof (Backend.wf_len_nonneg b Hwf).
    replace (2 ^ 64 <=? o + WIRE_SIZE_V12) with false by slot_lia.
    by replace (Backend.len b <? o + WIRE_SIZE_V12) with false by slot_lia. }
  cbn. rewrite app_nil_r. unfold peek_decode_slot, slot_header, read_slot.
  rewrite Backend.read_at_ok by (done || slot_lia). cbn.
  pose proof (from_wire_no_panic (Backend.contents b o WIRE_SIZE_V12) None). by destruct (from_wire _ _).
Qed.

(** The salt peeked from the image without a key is the salt of the header
    that a later keyed [load] authenticates, with the all-zero salt reported as
    absent. *)
Lemma peek_salt_authenticated b k h :
  slots_ok b → load b (Some k) = Ok h →
  peek_container_salt_bytes (Backend.mem b) =
    Ok (if bool_decide (salt h = zeros 16) then None else Some (salt h)).
Proof.
  intros Hs Hload. pose proof Hs as [Hwf _]. apply load_inv in Hload as (o&Ha&_); [|done].
  unfold peek_container_salt_bytes. rewrite !peek_slot_bytes_read by (done || (by left) || (by right)).
  unfold active in Ha. cbn.
  destruct (slot_header b SLOT0_OFFSET), (slot_header b SLOT1_OFFSET); simplify_eq; try done.
  cbn. destruct (_ <? _); by simplify_eq.
Qed.

End header.

(** ** Witnesses *)

Section witnesses.
Import Concrete.

Definition ex_key : bytes := replicate 32 (byte.of_Z 7).

Definition ex_header (seq : Z) : ContainerHeader :=
  mkHeader MAGIC FORMAT_VERSION 1 1 (mkParams 20 0 4096) (mkRoots 8192 12288)
    (Some (replicate 16 (byte.of_Z 9))) seq 3 65536 Signed (replicate 32 (byte.of_Z 1))
    (replicate 32 (byte.of_Z 2)) 4 5 1048576 (replicate 16 (byte.of_Z 6)) true.

(** A store of two blocks with the header of sequence number 7 in slot 0. *)
Definition ex_store : Backend.t :=
  let wire := to_wire (ex_header 7) (Some ex_key) in
  Backend.mk (wire ++ zeros (Z.to_nat (8192 - blen wire))) 8192 false.

Lemma ex_header_ok seq : u64 seq → header_ok (ex_header seq).
Proof. intros. unfold header_ok; cbn -[Z.le Z.lt]. split_and!; first [done|by_compute]. Qed.

Lemma ex_slots_ok : slots_ok ex_store.
Proof. split; [split|]; vm_compute; congruence. Qed.

Lemma ex_load : load ex_store (Some ex_key) = Ok (ex_header 7).
Proof. vm_compute. reflexivity. Qed.

Lemma header_wire_roundtrip_witness :
  from_wire (to_wire (ex_header 7) (Some ex_key)) (Some ex_key) = Ok (ex_header 7).
Proof.
  exact (proj1 (header_wire_roundtrip (ex_header 7) ex_key (ex_header_ok 7 ltac:(by_compute)))).
Defined.

Lemma commit_publishes_witness :
  ∃ b', commit ex_store (ex_header 8) (Some ex_key) = Ok b' ∧ load b' (Some ex_key) = Ok (ex_header 8).
Proof.
  destruct (commit_publishes ex_store (Some ex_key) (ex_header 7) (ex_header 8) (Some ex_key)
    ex_slots_ok ex_load (ex_header_ok 8 ltac:(by_compute))) as [_ Hc].
  destruct (Hc eq_refl) as (b'&?&?&_). exists b'. split; assumption.
Defined.

Definition ex_committed : Backend.t :=
  default ex_store (res_ok (commit ex_store (ex_header 8) (Some ex_key))).

Lemma ex_commit : commit ex_store (ex_header 8) (Some ex_key) = Ok ex_committed.
Proof. vm_compute. reflexivity. Qed.

Lemma commit_crash_atomic_witness :
  load ex_store (Some ex_key) = Ok (ex_header 7).
Proof.
  destruct (commit_crash_atomic ex_store (Some ex_key) (ex_header 7) (ex_header 8) (Some ex_key)
    ex_committed ex_slots_ok ex_load (ex_header_ok 8 ltac:(by_compute)) ex_commit) as (o&_&Hc).
  destruct (Hc ex_store ex_slots_ok (λ x _, eq_refl)) as (_&Hold&_). exact (Hold eq_refl).
Defined.

Lemma load_no_rollback_witness :
  ∃ o, is_slot o ∧ read_slot ex_store o None = Ok (ex_header 7).
Proof.
  destruct (load_no_rollback ex_store ex_key (ex_header 7) ex_slots_ok ex_load) as (o&?&_&?&_).
  exists o. split; assumption.
Defined.

End witnesses.
