(* ===== verification/Wal.v ===== *)
(** * Write-ahead log (crates/sfs-core/src/wal.rs)

    The CRC-protected WAL record, its codec, and the replay scan of the reserved
    region, which stops at the first position that does not hold a record. *)

From S2P Require Import Prelude.
From S2P Require Import Backend.
From S2P Require Import Crypto.

Definition WAL_MAGIC : bytes := bstr "sfsw" ++ byte1 0 ++ bstr "r1" ++ byte1 0.
Definition WAL_RECORD_HEADER_SIZE : Z := 8 + 8 + 16 + 8 + 4 + 4.
Definition WAL_CRC_SIZE : Z := 4.
Definition WAL_RECORD_PREFIX_SIZE : Z := WAL_RECORD_HEADER_SIZE + WAL_CRC_SIZE.

Record WalRecord := mkWal {
  wal_seq : Z;
  wal_uuid : bytes;
  wal_logical_offset : Z;
  wal_plaintext_len : Z;
  wal_ciphertext : bytes;
}.

Section wal.
Context `{!Crc32}.

(** The fixed header, bytes 0 to 48; [len() as u32] wraps in [le_bytes 4]. *)
Definition wal_header (r : WalRecord) : bytes :=
  WAL_MAGIC ++ le_bytes 8 (wal_seq r) ++ wal_uuid r ++ le_bytes 8 (wal_logical_offset r) ++
  le_bytes 4 (wal_plaintext_len r) ++ le_bytes 4 (blen (wal_ciphertext r)).

(** [encode_wal_record]; updating the hasher twice hashes the concatenation. *)
Definition encode_wal_record (r : WalRecord) : bytes :=
  wal_header r ++ le_bytes 4 (crc32 (wal_header r ++ wal_ciphertext r)) ++ wal_ciphertext r.

(** [decode_wal_record] *)
Definition decode_wal_record (buf : bytes) (offset : Z) : res (option (WalRecord * Z)) :=
  if blen buf <? Z.min (offset + WAL_RECORD_HEADER_SIZE) (2 ^ 64 - 1) then Ok None
  else
    h ← index_range buf offset (offset + WAL_RECORD_HEADER_SIZE);
    m ← index_range h 0 8;
    if negb (bool_decide (m = WAL_MAGIC)) then Ok None
    else
      seq ← index_range h 8 16;
      uuid ← index_range h 16 32;
      logical_offset ← index_range h 32 40;
      plaintext_len ← index_range h 40 44;
      ciphertext_len ← index_range h 44 48;
      let crc_start := offset + WAL_RECORD_HEADER_SIZE in
      let cipher_start := crc_start + WAL_CRC_SIZE in
      if 2 ^ 64 <=? cipher_start + le_val ciphertext_len
      then Err (Integrity "WAL record: length overflow")
      else
        let cipher_end := cipher_start + le_val ciphertext_len in
        if blen buf <? cipher_end then Err (Integrity "WAL record: truncated (torn write at tail)")
        else
          stored_crc ← index_range buf crc_start (crc_start + 4);
          ciphertext ← index_range buf cipher_start cipher_end;
          hdr ← index_range buf offset crc_start;
          if negb (le_val stored_crc =? crc32 (hdr ++ ciphertext))
          then Err (Integrity "WAL record: CRC mismatch (torn or corrupt record)")
          else
            Ok (Some (mkWal (le_val seq) uuid (le_val logical_offset) (le_val plaintext_len) ciphertext,
                      cipher_end - offset)).

(** The loop of [scan_wal_region]; a record takes at least one byte, so the
    buffer's length bounds the number of rounds. *)
Fixpoint scan_loop (fuel : nat) (buf : bytes) (off min_seq : Z) (out : list WalRecord)
  : res (list WalRecord) :=
  match fuel with
  | O => Panic
  | S fuel' =>
      match decode_wal_record buf off with
      | Ok (Some (rec, consumed)) =>
          let out := if min_seq <? wal_seq rec then out ++ [rec] else out in
          let off := off + consumed in
          if blen buf <=? off then Ok out else scan_loop fuel' buf off min_seq out
      | Ok None => Ok out
      | Err _ => Ok out
      | Panic => Panic
      end
  end.

(** [scan_wal_region] *)
Definition scan_wal_region (b : Backend.t) (region_start region_size min_seq : Z)
  : res (list WalRecord) :=
  let available := sat_sub (Backend.len b) region_start in
  let to_read := Z.min available region_size in
  if to_read =? 0 then Ok []
  else
    buf ← Backend.read_at b region_start to_read;
    scan_loop (S (length buf)) buf 0 min_seq [].

(** ** The record codec *)

Definition wal_ok (r : WalRecord) : Prop :=
  u64 (wal_seq r) ∧ blen (wal_uuid r) = 16 ∧ u64 (wal_logical_offset r) ∧
  u32 (wal_plaintext_len r) ∧ blen (wal_ciphertext r) < 2 ^ 32.

Lemma blen_WAL_MAGIC : blen WAL_MAGIC = 8.
Proof. done. Qed.
#[local] Hint Rewrite blen_WAL_MAGIC : blen.

Ltac wal_sizes := unfold WAL_RECORD_HEADER_SIZE, WAL_CRC_SIZE in *.

Lemma blen_wal_header r : wal_ok r → blen (wal_header r) = 48.
Proof. intros (?&?&?&?&?). unfold wal_header. blia. Qed.

Lemma blen_encode_wal r : wal_ok r → blen (encode_wal_record r) = 52 + blen (wal_ciphertext r).
Proof. intros. unfold encode_wal_record. autorewrite with blen. rewrite blen_wal_header by done. lia. Qed.

Lemma at_cursor_bounds buf off rest : at_cursor buf off rest → 0 ≤ off ∧ off + blen rest = blen buf.
Proof. intros (?&?&_). done. Qed.

(** The fields of a complete fixed header at [off]. *)
Lemma decode_header_fields r buf off rest :
  wal_ok r → blen buf < 2 ^ 63 → at_cursor buf off (wal_header r ++ rest) →
  decode_wal_record buf off =
    if blen buf <? off + 52 + blen (wal_ciphertext r)
    then Err (Integrity "WAL record: truncated (torn write at tail)")
    else
      stored_crc ← index_range buf (off + 48) (off + 48 + 4);
      ciphertext ← index_range buf (off + 52) (off + 52 + blen (wal_ciphertext r));
      if negb (le_val stored_crc =? crc32 (wal_header r ++ ciphertext))
      then Err (Integrity "WAL record: CRC mismatch (torn or corrupt record)")
      else Ok (Some (mkWal (wal_seq r) (wal_uuid r) (wal_logical_offset r) (wal_plaintext_len r)
                       ciphertext, 52 + blen (wal_ciphertext r))).
Proof.
  intros Hr Hbuf Hc. pose proof (blen_wal_header r Hr) as Hh.
  pose proof (at_cursor_bounds _ _ _ Hc) as [? Hlen]. rewrite blen_app in Hlen.
  pose proof (blen_nonneg rest). destruct Hr as (?&Hu&?&?&Hct). pose proof (blen_nonneg (wal_ciphertext r)).
  unfold decode_wal_record. wal_sizes. replace (blen buf <? _) with false by lia.
  assert (index_range buf off (off + 48) = Ok (wal_header r)) as Hhdr
    by (eapply index_range_cursor; [exact Hc|lia..]).
  eapply bind_step; [exact Hhdr|]. cbv beta.
  pose proof (at_cursor_start (wal_header r)) as Hw. unfold wal_header at 2 in Hw.
  rewrite <-(app_nil_r (le_bytes 4 (blen (wal_ciphertext r)))) in Hw.
  cursor_bind Hw. branch false. do 5 cursor_bind Hw.
  rewrite !le_val_u64, !le_val_u32 by width_lia. cbv zeta.
  replace (2 ^ 64 <=? _) with false by lia.
  replace (off + (8 + 8 + 16 + 8 + 4 + 4) + 4 + blen (wal_ciphertext r))
    with (off + 52 + blen (wal_ciphertext r)) by lia.
  destruct (blen buf <? _) eqn:E; [done|].
  replace (off + (8 + 8 + 16 + 8 + 4 + 4)) with (off + 48) by lia.
  replace (off + 48 + 4) with (off + 52) by lia.
  destruct (index_range buf (off + 48) (off + 52)) as [crc| |]; [|done..]; cbn.
  destruct (index_range buf (off + 52) _) as [ct| |]; [|done..]; cbn.
  rewrite Hhdr; cbn. case_match; [done|]. do 3 f_equal. lia.
Qed.

Lemma decode_encode_wal r buf off rest :
  wal_ok r → blen buf < 2 ^ 63 → at_cursor buf off (encode_wal_record r ++ rest) →
  decode_wal_record buf off = Ok (Some (r, blen (encode_wal_record r))).
Proof.
  intros Hr Hbuf Hc. pose proof (blen_wal_header r Hr) as Hh.
  rewrite blen_encode_wal by done. unfold encode_wal_record in Hc. rewrite <-!app_assoc in Hc.
  rewrite (decode_header_fields r _ _ _ Hr Hbuf Hc).
  pose proof (at_cursor_bounds _ _ _ Hc) as [? Hlen]. revert Hlen.
  autorewrite with blen. rewrite Hh. pose proof (blen_nonneg rest). intros.
  branch false. eapply at_cursor_skip in Hc; [|reflexivity].
  eapply bind_step; [eapply index_range_cursor; [exact Hc|lia|blia]|].
  eapply at_cursor_skip in Hc; [|reflexivity].
  eapply bind_step; [eapply index_range_cursor; [exact Hc|blia|blia]|]. cbv beta.
  rewrite le_val_u32, Z.eqb_refl by apply crc32_u32. by destruct r.
Qed.

(** Decoding never unwinds, and a decoded record advances the scan inside of
    the buffer. *)
Lemma decode_wal_total buf off :
  0 ≤ off → blen buf < 2 ^ 63 → no_panic (decode_wal_record buf off).
Proof.
  intros ??. unfold decode_wal_record. panic_step; [auto with panic|]. wal_sizes.
  apply no_panic_bind; [apply no_panic_index_range; lia|]. intros h Hh.
  assert (blen h = 48) by eauto with fields.
  repeat (panic_step || (progress cbn beta iota zeta)); auto with panic;
    apply no_panic_index_range; try lia;
    match goal with H : index_range h 44 48 = Ok ?s |- _ => pose proof (le_val_range s _ eq_refl) end; lia.
Qed.

Lemma decode_wal_progress buf off r n :
  0 ≤ off → decode_wal_record buf off = Ok (Some (r, n)) → 52 ≤ n ∧ off + n ≤ blen buf.
Proof.
  intros ?. unfold decode_wal_record. wal_sizes. case_match; [done|].
  intros (h&Hh&Hd)%bind_ok. apply bind_ok in Hd as (m&Hm&Hd). case_bool_decide; cbn [negb] in Hd; [|done].
  do 5 (apply bind_ok in Hd as (?&?&Hd)). cbv zeta beta in Hd.
  case_match; [done|]. case_match; [done|]. do 3 (apply bind_ok in Hd as (?&?&Hd)).
  case_match; [done|]. simplify_eq.
  match goal with |- context [le_val ?s] => pose proof (le_val_range s _ eq_refl) end. lia.
Qed.

Lemma le_bytes_field buf a b s n : index_range buf a b = Ok s → b - a = Z.of_nat n → le_bytes n (le_val s) = s.
Proof. intros Hs Hn. apply le_bytes_val. pose proof (index_range_blen _ _ _ _ _ Hs eq_refl). unfold blen in *. lia. Qed.

Lemma index_range_at buf a b s : index_range buf a b = Ok s → ∃ rest, at_cursor buf a (s ++ rest).
Proof.
  intros (?&?&?&->)%index_range_Ok. exists (drop (Z.to_nat (b - a)) (drop (Z.to_nat a) buf)).
  rewrite take_drop. split_and!; [lia| |done]. unfold blen in *. rewrite length_drop. lia.
Qed.

(** What decodes is a record that is there in full, with its checksum. *)
Lemma decode_wal_sound buf off r n :
  decode_wal_record buf off = Ok (Some (r, n)) →
  wal_ok r ∧ n = blen (encode_wal_record r) ∧ ∃ rest, at_cursor buf off (encode_wal_record r ++ rest).
Proof.
  unfold decode_wal_record. wal_sizes. case_match; [done|].
  intros (h&Hh&Hd)%bind_ok. apply bind_ok in Hd as (m&Hm&Hd). case_bool_decide as Em; cbn [negb] in Hd; [|done].
  apply bind_ok in Hd as (sq&Hsq&Hd). apply bind_ok in Hd as (u&Hu&Hd). apply bind_ok in Hd as (lo&Hlo&Hd).
  apply bind_ok in Hd as (pl&Hpl&Hd). apply bind_ok in Hd as (cl&Hcl&Hd). cbv zeta beta in Hd.
  case_match; [done|]. case_match; [done|]. apply bind_ok in Hd as (crc&Hcrc&Hd). apply bind_ok in Hd as (ct&Hct&Hd).
  apply bind_ok in Hd as (hdr&Hhdr&Hd). rewrite Hh in Hhdr. injection Hhdr as <-.
  destruct (negb _) eqn:Ecrc; [done|]. apply negb_false_iff, Z.eqb_eq in Ecrc.
  simplify_eq. set (r := mkWal _ _ _ _ _). assert (blen h = 48) as Hhl by (eapply index_range_blen; [exact Hh|lia]).
  assert (blen ct = le_val cl) as Hcl' by (eapply index_range_blen; [exact Hct|lia]).
  assert (wal_header r = h) as Hr.
  { pose proof (index_range_all h) as Hall. rewrite Hhl in Hall. unfold wal_header, r. cbn [wal_seq wal_uuid wal_logical_offset wal_plaintext_len wal_ciphertext].
    rewrite Hcl', !(le_bytes_field _ _ _ _ _ Hsq), !(le_bytes_field _ _ _ _ _ Hlo), !(le_bytes_field _ _ _ _ _ Hpl),
      !(le_bytes_field _ _ _ _ _ Hcl) by done.
    pose proof (index_range_app _ _ _ _ _ _ Hm (index_range_app _ _ _ _ _ _ Hsq (index_range_app _ _ _ _ _ _ Hu
      (index_range_app _ _ _ _ _ _ Hlo (index_range_app _ _ _ _ _ _ Hpl Hcl))))) as Hall'. congruence. }
  assert (wal_ok r) as Hok.
  { unfold wal_ok, r. cbn. rewrite Hcl'. split_and!; eauto with fields; pose proof (index_range_u32 _ _ _ _ Hcl eq_refl); width_lia. }
  split; [exact Hok|]. split; [rewrite blen_encode_wal by done; cbn; lia|].
  eapply index_range_at. unfold encode_wal_record. rewrite Hr. cbn [r wal_ciphertext]. rewrite <-Ecrc.
  rewrite (le_bytes_field _ _ _ _ _ Hcrc) by lia.
  eapply index_range_app; [exact Hh|]. eapply index_range_app; [exact Hcrc|exact Hct].
Qed.

(** ** The scan *)

(** The records a reader of the log meets from [off] on. *)
Inductive wal_chain (buf : bytes) : Z → list WalRecord → Prop :=
| chain_end off :
    (∀ r n, decode_wal_record buf off ≠ Ok (Some (r, n))) → wal_chain buf off []
| chain_full off r n :
    decode_wal_record buf off = Ok (Some (r, n)) → off + n = blen buf → wal_chain buf off [r]
| chain_step off r n rs :
    decode_wal_record buf off = Ok (Some (r, n)) → off + n < blen buf →
    wal_chain buf (off + n) rs → wal_chain buf off (r :: rs).

Lemma scan_loop_chain fuel buf off min_seq out :
  0 ≤ off ≤ blen buf → blen buf < 2 ^ 63 → blen buf - off < Z.of_nat fuel →
  ∃ rs, wal_chain buf off rs ∧
    scan_loop fuel buf off min_seq out = Ok (out ++ filter (λ r, min_seq < wal_seq r) rs).
Proof.
  intros Hoff Hbuf. revert off out Hoff. induction fuel as [|fuel IH]; intros off out Hoff Hfuel; [lia|].
  cbn [scan_loop]. pose proof (decode_wal_total buf off ltac:(lia) Hbuf) as Htot.
  destruct (decode_wal_record buf off) as [[[r n]|]|e|] eqn:E; [| | |done].
  2,3: exists []; split; [constructor; congruence|by rewrite app_nil_r].
  destruct (decode_wal_progress buf off r n ltac:(lia) E). cbv zeta.
  assert (∀ rs, (if min_seq <? wal_seq r then out ++ [r] else out) ++
      filter (λ r, min_seq < wal_seq r) rs = out ++ filter (λ r, min_seq < wal_seq r) (r :: rs)) as Hout.
  { intros rs. rewrite filter_cons. destruct (Z.ltb_spec min_seq (wal_seq r)).
    - rewrite decide_True by done. by rewrite <-app_assoc.
    - by rewrite decide_False by lia. }
  destruct (Z.leb_spec (blen buf) (off + n)).
  - exists [r]. split; [eapply chain_full; [done|lia]|]. by rewrite <-Hout, app_nil_r.
  - destruct (IH (off + n) (if min_seq <? wal_seq r then out ++ [r] else out)) as (rs&Hrs&->); [lia..|].
    exists (r :: rs). split; [by eapply chain_step|]. by rewrite Hout.
Qed.

Lemma wal_chain_det buf off rs1 rs2 : wal_chain buf off rs1 → wal_chain buf off rs2 → rs1 = rs2.
Proof.
  intros Hc. revert rs2.
  induction Hc; intros rs2 Hc2; inversion Hc2; subst; 
    try (by match goal with Ha : ∀ _ _, _ ≠ _ |- _ => edestruct Ha end); try done;
    match goal with Ha : decode_wal_record _ _ = _, Hb : decode_wal_record _ _ = _ |- _ =>
      rewrite Ha in Hb; simplify_eq end; try lia; [done|].
  f_equal. eauto.
Qed.

(** The log that holds [rs] and then a position without a record. *)
Lemma wal_chain_encoded rs buf off tail :
  Forall wal_ok rs → blen buf < 2 ^ 63 →
  at_cursor buf off (concat (encode_wal_record <$> rs) ++ tail) →
  (tail ≠ [] ∨ rs = [] → ∀ r n, decode_wal_record buf (blen buf - blen tail) ≠ Ok (Some (r, n))) →
  wal_chain buf off rs.
Proof.
  intros Hrs Hbuf. revert off. induction Hrs as [|r rs Hr Hrs IH]; intros off Hc Htail.
  - constructor. pose proof (at_cursor_bounds _ _ _ Hc) as [_ Hl]. cbn in Hl.
    replace off with (blen buf - blen tail) by lia. apply Htail. by right.
  - cbn [fmap list_fmap concat] in Hc. rewrite <-app_assoc in Hc.
    pose proof (decode_encode_wal r buf off _ Hr Hbuf Hc) as Hd.
    pose proof (at_cursor_bounds _ _ _ Hc) as [_ Hl]. rewrite blen_app in Hl.
    eapply at_cursor_skip in Hc; [|reflexivity].
    set (rest := concat (encode_wal_record <$> rs) ++ tail) in *.
    destruct (decide (rest = [])) as [Hnil|Hne].
    + rewrite Hnil, blen_nil in Hl. apply app_eq_nil in Hnil as [Hnil ->].
      destruct rs as [|r2 rs]; [eapply chain_full; [done|lia]|done].
    + assert (0 < blen rest) by (destruct rest; [done|rewrite blen_cons; pose proof (blen_nonneg rest); lia]).
      eapply chain_step; [done|lia|]. apply IH; [done|]. intros [?| ->]; apply Htail; [by left|].
      left. subst rest. cbn in Hne. done.
Qed.

(** The bytes [scan_wal_region] reads. *)
Definition region_bytes (b : Backend.t) (region_start region_size : Z) : bytes :=
  Backend.contents b region_start (Z.min (sat_sub (Backend.len b) region_start) region_size).

Lemma scan_region_chain b start size min_seq :
  Backend.wf b → 0 ≤ start → 0 ≤ size →
  ∃ rs, wal_chain (region_bytes b start size) 0 rs ∧
    scan_wal_region b start size min_seq = Ok (filter (λ r, min_seq < wal_seq r) rs).
Proof.
  intros Hwf Hst Hsz. pose proof (Backend.wf_len_nonneg b Hwf). unfold scan_wal_region, region_bytes.
  set (n := Z.min _ _). assert (0 ≤ n) by (unfold n, sat_sub; lia). destruct (Z.eqb_spec n 0) as [->|].
  - exists []. split; [|done]. constructor. intros r m.
    unfold Backend.contents, decode_wal_record. by rewrite take_0.
  - assert (start + n ≤ Backend.len b) by (unfold n, sat_sub in *; lia).
    rewrite Backend.read_at_ok by (done || lia). cbn [mbind res_bind].
    destruct Hwf as [Hl _]. set (buf := Backend.contents b start n).
    assert (blen buf ≤ n) by (unfold buf, Backend.contents, blen; rewrite length_take; lia).
    destruct (scan_loop_chain (S (length buf)) buf 0 min_seq []) as (rs&?&?);
      [pose proof (blen_nonneg buf); lia|lia|unfold blen; lia|]. by exists rs.
Qed.

(** The log in [bs]: the encodings of [rs] one after the other, and then bytes
    that do not begin with a complete record with a matching checksum. *)
Definition logged (bs : bytes) (rs : list WalRecord) : Prop :=
  ∃ tail, Forall wal_ok rs ∧ bs = concat (encode_wal_record <$> rs) ++ tail ∧
    ∀ r rest, wal_ok r → tail ≠ encode_wal_record r ++ rest.

Lemma at_cursor_det buf off x y : at_cursor buf off x → at_cursor buf off y → x = y.
Proof. intros (_&_&<-) (_&_&<-). done. Qed.

Lemma chain_logged buf off rs :
  blen buf < 2 ^ 63 → wal_chain buf off rs → 0 ≤ off ≤ blen buf → logged (drop (Z.to_nat off) buf) rs.
Proof.
  intros Hbuf. assert (∀ off, 0 ≤ off ≤ blen buf → at_cursor buf off (drop (Z.to_nat off) buf)) as Hat.
  { intros o Ho. split_and!; [lia| |done]. unfold blen in *. rewrite length_drop. lia. }
  induction 1 as [off Hno|off r n Hd Hn|off r n rs Hd Hn Hch IH]; intros Hoff.
  - exists (drop (Z.to_nat off) buf). split_and!; [constructor|done|]. intros r rest Hr Heq. eapply Hno.
    eapply decode_encode_wal; [exact Hr|done|]. rewrite <-Heq. by apply Hat.
  - destruct (decode_wal_sound _ _ _ _ Hd) as (Hr&->&rest&Hc). pose proof Hc as (_&Hl&Hdr). rewrite blen_app in Hl.
    assert (rest = []) as -> by (destruct rest; [done|rewrite blen_cons in Hl; pose proof (blen_nonneg rest); lia]).
    exists []. split_and!; [by constructor|cbn; by rewrite !app_nil_r in *|].
    intros r' rest' Hr' Heq. apply (f_equal blen) in Heq. rewrite blen_app, blen_encode_wal in Heq by done.
    pose proof (blen_nonneg rest'). pose proof (blen_nonneg (wal_ciphertext r')). rewrite blen_nil in Heq. lia.
  - destruct (decode_wal_sound _ _ _ _ Hd) as (Hr&->&rest&Hc). pose proof (blen_nonneg (encode_wal_record r)).
    destruct IH as (tail&Hrs&Hbs&Hno); [lia|]. exists tail. split_and!; [by constructor| |done].
    rewrite (at_cursor_det _ _ _ _ (Hat off ltac:(lia)) Hc). rewrite fmap_cons. cbn [concat].
    rewrite <-app_assoc, <-Hbs. f_equal.
    eapply at_cursor_det; [|by apply Hat; lia]. by eapply at_cursor_skip.
Qed.

Lemma logged_chain buf rs : blen buf < 2 ^ 63 → logged buf rs → wal_chain buf 0 rs.
Proof.
  intros Hbuf (tail&Hrs&Hbs&Hno). eapply (wal_chain_encoded rs buf 0 tail); [done..| |].
  - rewrite <-Hbs. apply at_cursor_start.
  - intros _ r n (Hr&_&rest&Hc)%decode_wal_sound. apply (Hno r rest Hr). eapply at_cursor_det; [|exact Hc].
    rewrite Hbs, blen_app. replace (_ - _) with (blen (concat (encode_wal_record <$> rs))) by lia. apply at_cursor_app.
Qed.

(** C19. Replay reads back the log, whatever the region holds. There is exactly
    one list of records whose encodings, one after the other, fill the start of
    the region up to the first position without a complete record and matching
    checksum: the end of the log, zeroed space, or a record torn by a crash,
    also when older bytes follow. The scan returns the records of this list
    that are newer than the applied sequence number, in log order. *)
Theorem wal_replay_exact b start size min_seq :
  Backend.wf b → 0 ≤ start → 0 ≤ size →
  ∃ rs, (∀ rs', logged (region_bytes b start size) rs' ↔ rs' = rs) ∧
    scan_wal_region b start size min_seq = Ok (filter (λ r, min_seq < wal_seq r) rs).
Proof.
  intros Hwf Hst Hsz. pose proof (Backend.wf_len_nonneg b Hwf).
  destruct (scan_region_chain b start size min_seq) as (rs&Hchain&Hrun); [done..|]. exists rs. split; [|done].
  assert (blen (region_bytes b start size) < 2 ^ 63) as Hbuf.
  { destruct Hwf as [Hl _]. unfold region_bytes, Backend.contents, blen, sat_sub. rewrite length_take. lia. }
  intros rs'. split.
  - intros Hlog. eapply wal_chain_det; [by apply logged_chain|done].
  - intros ->. eapply (chain_logged _ 0) in Hchain; [done..|]. pose proof (blen_nonneg (region_bytes b start size)). lia.
Qed.

End wal.

(** ** Witnesses *)

Section witnesses.
Import Concrete.

Definition ex_record (seq : Z) : WalRecord :=
  mkWal seq (replicate 16 (byte.of_Z 171)) 100 12 (bstr "some ciphertext here").

Lemma ex_record_ok seq : u64 seq → wal_ok (ex_record seq).
Proof. intros. unfold wal_ok. split_and!; first [done|by_compute]. Qed.

(** Two records, 30 bytes of a third, and an older record. *)
Definition ex_tail : bytes := take 30 (encode_wal_record (ex_record 7)) ++ encode_wal_record (ex_record 2).
Definition ex_log : Backend.t :=
  let m := zeros 64 ++ concat (encode_wal_record <$> [ex_record 5; ex_record 6]) ++ ex_tail in
  Backend.mk m (blen m) false.

Lemma ex_log_wf : Backend.wf ex_log.
Proof. split; vm_compute; congruence. Qed.

Lemma ex_log_logged : logged (region_bytes ex_log 64 4096) [ex_record 5; ex_record 6].
Proof.
  exists ex_tail. split_and!; [repeat constructor; by_compute|vm_compute; reflexivity|]. intros r rest Hr Heq.
  assert (decode_wal_record ex_tail 0 = Ok (Some (r, blen (encode_wal_record r)))) as Hd.
  { eapply (decode_encode_wal r _ _ rest); [exact Hr|by_compute|]. rewrite Heq. apply at_cursor_start. }
  assert (∀ x, decode_wal_record ex_tail 0 ≠ Ok (Some x)) as Hno by (intros x; vm_compute; discriminate). by eapply Hno.
Qed.

Lemma wal_replay_exact_witness : scan_wal_region ex_log 64 4096 5 = Ok [ex_record 6].
Proof.
  destruct (wal_replay_exact ex_log 64 4096 5 ex_log_wf ltac:(lia) ltac:(lia)) as (rs&Hrs&Hrun).
  rewrite Hrun. pose proof (proj1 (Hrs _) ex_log_logged) as Heq. rewrite <-Heq. reflexivity.
Defined.

End witnesses.
