(* ===== verification/Freelist.v ===== *)
(** * Free lists (crates/sfs-core/src/container/alloc.rs)

    The allocator's free list of one region: an ordered map from the start of
    a free extent to its length, coalesced on insertion. The theorems describe
    the operations by the set of addresses a list covers. *)

From S2P Require Import Prelude.
From S2P Require Import BTree.
From S2P Require Import Backend.

Module Freelist.

Record t := mk { extents : BTreeMap.t Z }.

Definition default : t := mk [].

(** The loop over the successors of an inserted extent. *)
Fixpoint absorb (succs : list (Z * Z)) (end_ : Z) (m : BTreeMap.t Z) : res (Z * BTreeMap.t Z) :=
  match succs with
  | [] => Ok (end_, m)
  | (s_addr, s_len) :: succs' =>
      s_end ← add64 s_addr s_len;
      absorb succs' (Z.max end_ s_end) (BTreeMap.remove m s_addr)
  end.

(** The merge of an inserted extent [[addr, end_)] with its predecessor. *)
Definition merge_pred (m : BTreeMap.t Z) (addr end_ : Z) : res (Z * Z * BTreeMap.t Z) :=
  match BTreeMap.last_le m addr with
  | Some (pred_start, pred_len) =>
      pred_end ← add64 pred_start pred_len;
      if addr <=? pred_end then
        Ok (pred_start, Z.max end_ pred_end, BTreeMap.remove m pred_start)
      else Ok (addr, end_, m)
  | None => Ok (addr, end_, m)
  end.

(** [Freelist::insert] *)
Definition insert (fl : t) (addr len : Z) : res t :=
  if negb (is_aligned addr) then Panic
  else if negb ((0 <? len) && is_aligned len) then Panic
  else
    end_ ← add64 addr len;
    '(start, end_, m) ← merge_pred (extents fl) addr end_;
    '(end_, m) ← absorb (BTreeMap.range_incl m start end_) end_ m;
    Ok (mk (BTreeMap.insert m start (end_ - start))).

(** [Freelist::first_fit] *)
Definition first_fit (fl : t) (needed : Z) : option Z :=
  fst ∘ snd <$> list_find (λ e, needed ≤ e.2) (extents fl).

(** [Freelist::remove_range] *)
Definition remove_range (fl : t) (addr size : Z) : res t :=
  if negb (0 <? size) then Panic
  else
    match BTreeMap.last_le (extents fl) addr with
    | None => Panic
    | Some (ext_start, ext_len) =>
        taken_end ← add64 addr size;
        ext_end ← add64 ext_start ext_len;
        if negb ((ext_start <=? addr) && (taken_end <=? ext_end)) then Panic
        else
          let m := BTreeMap.remove (extents fl) ext_start in
          let m := if ext_start <? addr then BTreeMap.insert m ext_start (addr - ext_start) else m in
          let m := if taken_end <? ext_end then BTreeMap.insert m taken_end (ext_end - taken_end) else m in
          Ok (mk m)
    end.

(** ** Coverage and invariant *)

(** The address [x] is free. *)
Definition covers (fl : t) (x : Z) : Prop :=
  ∃ s l, (s, l) ∈ extents fl ∧ s ≤ x < s + l.

(** A free extent: block-aligned, not empty, and in the address space. *)
Definition extent_ok (e : Z * Z) : Prop :=
  0 ≤ e.1 ∧ 0 < e.2 ∧ aligned e.1 ∧ aligned e.2 ∧ e.1 + e.2 < 2 ^ 64.

(** Sorted by address, and no two extents overlap or touch. *)
Record wf (fl : t) : Prop := {
  wf_sorted : BTreeMap.sorted (extents fl);
  wf_extents : ∀ e, e ∈ extents fl → extent_ok e;
  wf_apart : ∀ e e', e ∈ extents fl → e' ∈ extents fl → e.1 < e'.1 → e.1 + e.2 < e'.1;
}.

Lemma wf_default : wf default.
Proof. split; [constructor|intros ?|intros ??]; by rewrite ?elem_of_nil. Qed.

Lemma covers_default x : ¬ covers default x.
Proof. intros (s&l&He&_). by apply elem_of_nil in He. Qed.

Lemma wf_overlap fl e e' x :
  wf fl → e ∈ extents fl → e' ∈ extents fl →
  e.1 ≤ x < e.1 + e.2 → e'.1 ≤ x < e'.1 + e'.2 → e = e'.
Proof.
  intros Hwf He He' Hx Hx'. destruct (Ztrichotomy (e.1) (e'.1)) as [Hlt|[Heq|Hgt]].
  - pose proof (wf_apart _ Hwf e e' He He' Hlt). lia.
  - destruct e as [s l], e' as [s' l']; cbn in *; subst.
    f_equal. eapply BTreeMap.sorted_unique; [apply Hwf|done..].
  - pose proof (wf_apart _ Hwf e' e He' He ltac:(lia)). lia.
Qed.

(** ** The successor loop *)

Lemma absorb_ok succs end_ m :
  Forall extent_ok succs →
  ∃ end', absorb succs end_ m = Ok (end', filter (λ e, e.1 ∉ succs.*1) m) ∧
    end_ ≤ end' ∧ Forall (λ e, e.1 + e.2 ≤ end') succs ∧
    (end' = end_ ∨ ∃ e, e ∈ succs ∧ end' = e.1 + e.2).
Proof.
  intros Hs. revert end_ m. induction Hs as [|[s l] succs (?&?&?&?&?) Hs IH]; intros end_ m; cbn.
  { eexists. split_and!; [|done|constructor|by left]. do 2 f_equal.
    symmetry. apply filter_all. intros e _. apply not_elem_of_nil. }
  cbn in *. rewrite add64_ok by lia. cbn.
  destruct (IH (Z.max end_ (s + l)) (BTreeMap.remove m s)) as (end'&->&Hle&Hall&Hend).
  exists end'. split_and!; [|lia|constructor; [cbn; lia|done]|].
  - do 2 f_equal. unfold BTreeMap.remove. rewrite list_filter_filter.
    apply list_filter_iff. intros e. rewrite not_elem_of_cons. naive_solver.
  - destruct Hend as [->|(e&He&->)].
    + destruct (Z.max_spec end_ (s + l)) as [[_ ->]|[_ ->]]; [|by left].
      right. exists (s, l). split; [by left|done].
    + right. exists e. split; [by right|done].
Qed.

(** ** Insertion *)

Definition covered (m : list (Z * Z)) (y : Z) : Prop := ∃ s l, (s, l) ∈ m ∧ s ≤ y < s + l.

(** The state of [insert] after the predecessor was looked at: an extent
    [[start, end_)] that no remaining extent to the left touches. *)
Record pending (start end_ : Z) (m : BTreeMap.t Z) : Prop := {
  p_wf : wf (mk m);
  p_extent : extent_ok (start, end_ - start);
  p_left : ∀ e, e ∈ m → e.1 < start → e.1 + e.2 < start;
}.

Lemma insert_successors start end_ m :
  pending start end_ m →
  ∃ end' m', absorb (BTreeMap.range_incl m start end_) end_ m = Ok (end', m') ∧
    wf (mk (BTreeMap.insert m' start (end' - start))) ∧
    ∀ y, covered (BTreeMap.insert m' start (end' - start)) y ↔ covered m y ∨ start ≤ y < end_.
Proof.
  intros [Hwf Hext Hleft]. pose proof Hwf as [Hsort Hall Hapart]. cbn in *.
  set (succs := BTreeMap.range_incl m start end_).
  assert (∀ e, e ∈ succs ↔ e ∈ m ∧ start ≤ e.1 ≤ end_) as Hsucc
    by (intros e; apply BTreeMap.elem_of_range_incl).
  destruct (absorb_ok succs end_ m) as (end'&Heq&Hle&Hsle&Hend).
  { apply Forall_forall. intros e [He _]%Hsucc. by apply Hall. }
  set (m' := filter _ m) in Heq.
  assert (∀ e, e ∈ m' ↔ e ∈ m ∧ (e.1 < start ∨ end_ < e.1)) as Hm'.
  { intros e. unfold m'. rewrite list_elem_of_filter. split; intros [H1 H2].
    - split; [done|]. destruct (decide (start ≤ e.1 ≤ end_)); [|lia].
      destruct H1. apply list_elem_of_fmap. exists e. split; [done|]. by apply Hsucc.
    - split; [|done]. intros (e'&He'&[_ ?]%Hsucc)%list_elem_of_fmap. lia. }
  assert (∀ e, e ∈ m' → e.1 < start ∨ end' < e.1) as Hout.
  { intros e [He [?|?]]%Hm'; [by left|right]. destruct Hend as [->|(e0&[? ?]%Hsucc&->)]; [done|].
    apply Hapart; [done..|lia]. }
  rewrite Forall_forall in Hsle.
  assert (extent_ok (start, end' - start)) as Hext'.
  { destruct Hend as [->|(e0&[He0 ?]%Hsucc&->)]; [done|]. apply Hall in He0.
    unfold extent_ok in *; cbn in *; destruct_and?. split_and!; [lia|lia|done|align_lia|lia]. }
  assert (BTreeMap.sorted m') as Hsort' by by apply BTreeMap.sorted_filter.
  exists end', m'. split_and!; [done| |].
  - split; cbn; [auto|intros e|intros e e']; rewrite ?BTreeMap.elem_of_insert by done.
    + intros [->|[[? _]%Hm' _]]; auto.
    + unfold extent_ok in Hext'. cbn in Hext'.
      intros [->|[He Hne]] [->|[He' Hne']]; cbn; [lia|..].
      * destruct (Hout e' He'); lia.
      * apply Hm' in He as [? _]. by apply Hleft.
      * apply Hm' in He as [? _], He' as [? _]. by apply Hapart.
  - unfold extent_ok in Hext, Hext'. cbn in *. intros y. split.
    + intros (s&l&He&Hy). rewrite BTreeMap.elem_of_insert in He by done.
      destruct He as [[= -> ->]|[[He _]%Hm' _]]; [|left; by exists s, l].
      destruct (decide (y < end_)); [right; lia|left].
      destruct Hend as [->|([s0 l0]&[? ?]%Hsucc&->)]; [lia|]. cbn in *. exists s0, l0. lia || (split; [done|lia]).
    + intros [(s&l&He&Hy)|Hy].
      * destruct (decide (start ≤ s ≤ end_)).
        -- assert (s + l ≤ end') by (apply (Hsle (s, l)); by apply Hsucc).
           exists start, (end' - start). rewrite BTreeMap.elem_of_insert by done. split; [by left|lia].
        -- exists s, l. rewrite BTreeMap.elem_of_insert by done. split; [|done].
           right. cbn. split; [apply Hm'; cbn; split; [done|lia]|lia].
      * exists start, (end' - start). rewrite BTreeMap.elem_of_insert by done. split; [by left|lia].
Qed.

Lemma wf_remove fl k : wf fl → wf (mk (BTreeMap.remove (extents fl) k)).
Proof.
  intros [Hs He Ha]. split; cbn; [auto|intros e|intros e e']; rewrite ?BTreeMap.elem_of_remove.
  - intros [? _]. auto.
  - intros [? _] [? _]. auto.
Qed.

Lemma merge_pred_ok fl x n :
  wf fl → extent_ok (x, n) →
  ∃ start end_ m, merge_pred (extents fl) x (x + n) = Ok (start, end_, m) ∧
    pending start end_ m ∧
    ∀ y, covered m y ∨ start ≤ y < end_ ↔ covers fl y ∨ x ≤ y < x + n.
Proof.
  intros Hwf Hext. pose proof Hext as (Hx&Hn&Hxa&Hna&Hlt). cbn in *.
  pose proof Hwf as [Hsort Hall Hapart]. unfold merge_pred.
  assert (extent_ok (x, x + n - x)) as Hext' by by replace (x + n - x) with n by lia.
  destruct (BTreeMap.last_le (extents fl) x) as [[ps pl]|] eqn:Epred.
  - apply BTreeMap.last_le_Some in Epred as (Hin&Hps&Hmax); [|done]. cbn in Hps, Hmax.
    pose proof (Hall _ Hin) as (?&?&?&?&?). cbn in *. rewrite add64_ok by lia. cbn.
    destruct (Z.leb_spec x (ps + pl)).
    + eexists _, _, _. split_and!; [done|split|].
      * by apply wf_remove.
      * unfold extent_ok in *; cbn in *; destruct_and?. split_and!; [lia|lia|done|align_lia|lia].
      * intros e [He ?]%BTreeMap.elem_of_remove ?. by apply (Hapart e (ps, pl)).
      * intros y. split.
        -- intros [(s&l&[? _]%BTreeMap.elem_of_remove&?)|?]; [left; by exists s, l|].
           destruct (decide (y < ps + pl)); [left; exists ps, pl; split; [done|lia]|right; lia].
        -- intros [(s&l&He&Hy)|?]; [|right; lia].
           destruct (decide (s = ps)) as [->|].
           ++ right. pose proof (BTreeMap.sorted_unique _ _ _ _ Hsort He Hin). lia.
           ++ left. exists s, l. rewrite BTreeMap.elem_of_remove. done.
    + eexists _, _, _. split_and!; [done|split|done]; [by destruct fl|done|].
      intros e He Hlt'. pose proof (Hmax e He ltac:(lia)).
      destruct (decide (e.1 = ps)).
      * destruct e as [s l]; cbn in *; subst.
        pose proof (BTreeMap.sorted_unique _ _ _ _ Hsort He Hin). lia.
      * pose proof (Hapart e (ps, pl) He Hin ltac:(cbn; lia)). cbn in *. lia.
  - eexists _, _, _. split_and!; [done|split|done]; [by destruct fl|done|].
    intros e He ?. pose proof (BTreeMap.last_le_None _ _ _ Epred He). lia.
Qed.

Lemma insert_ok fl x n :
  wf fl → extent_ok (x, n) →
  ∃ fl', insert fl x n = Ok fl' ∧ wf fl' ∧ ∀ y, covers fl' y ↔ covers fl y ∨ x ≤ y < x + n.
Proof.
  intros Hwf Hext. pose proof Hext as (Hx&Hn&Hxa&Hna&Hlt). cbn in *. unfold insert.
  rewrite !is_aligned_true by done. replace (0 <? n) with true by lia. cbn [negb andb].
  rewrite add64_ok by lia. cbn [mbind res_bind].
  destruct (merge_pred_ok fl x n Hwf Hext) as (start&end_&m&->&Hp&Hcov). cbn.
  destruct (insert_successors _ _ _ Hp) as (end'&m'&->&Hwf'&Hc). cbn.
  eexists. split_and!; [done..|]. intros y. rewrite <-Hcov. apply Hc.
Qed.

(** ** First fit *)

Lemma first_fit_Some fl needed x :
  wf fl → first_fit fl needed = Some x →
  ∃ l, (x, l) ∈ extents fl ∧ needed ≤ l ∧
    ∀ s l', (s, l') ∈ extents fl → needed ≤ l' → x ≤ s.
Proof.
  intros [Hs _ _]. unfold first_fit. intros ([i [x' l]]&(Hi&?&Hfirst)%list_find_Some&->)%fmap_Some.
  cbn in *. exists l. split_and!; [by eapply list_elem_of_lookup_2|done|].
  intros s l' [j Hj]%list_elem_of_lookup_1 Hl'.
  destruct (decide (j < i)%nat) as [Hji|].
  { by destruct (Hfirst j (s, l') Hj Hji). }
  destruct (decide (i = j)) as [->|]; [rewrite Hi in Hj; by injection Hj as -> ->|].
  apply Z.lt_le_incl. eapply (BTreeMap.sorted_lookup_lt _ i j (x', l) (s, l') Hs); [lia|done..].
Qed.

Lemma first_fit_None fl needed s l :
  first_fit fl needed = None → (s, l) ∈ extents fl → l < needed.
Proof.
  unfold first_fit. rewrite fmap_None, list_find_None, Forall_forall.
  intros Hn He%Hn. cbn in He. lia.
Qed.

(** ** Removal *)

Lemma last_le_containing fl x s l :
  wf fl → (s, l) ∈ extents fl → s ≤ x < s + l → BTreeMap.last_le (extents fl) x = Some (s, l).
Proof.
  intros Hwf Hin Hx. pose proof Hwf as [Hsort Hall Hapart].
  destruct (BTreeMap.last_le (extents fl) x) as [[s' l']|] eqn:E.
  - apply BTreeMap.last_le_Some in E as (Hin'&?&Hmax); [|done].
    pose proof (Hmax _ Hin ltac:(cbn; lia)). cbn in *. f_equal.
    destruct (decide (s < s')) as [Hlt|].
    + pose proof (Hapart _ _ Hin Hin' Hlt). cbn in *. lia.
    + assert (s' = s) as -> by lia. f_equal. by eapply BTreeMap.sorted_unique.
  - pose proof (BTreeMap.last_le_None _ _ _ E Hin). cbn in *. lia.
Qed.

(** The entries after a removal: the others, the prefix and the suffix. *)
Lemma remove_range_entries fl x n s l :
  wf fl → (s, l) ∈ extents fl → s ≤ x → x + n ≤ s + l → 0 < n →
  ∃ fl', remove_range fl x n = Ok fl' ∧ BTreeMap.sorted (extents fl') ∧
    ∀ e, e ∈ extents fl' ↔
      (e ∈ extents fl ∧ e.1 ≠ s) ∨ (s < x ∧ e = (s, x - s)) ∨
      (x + n < s + l ∧ e = (x + n, s + l - (x + n))).
Proof.
  intros Hwf Hin Hsx Hxn Hn. pose proof Hwf as [Hsort Hall Hapart].
  pose proof (Hall _ Hin) as (?&?&_&_&?). cbn in *.
  unfold remove_range. replace (negb (0 <? n)) with false by lia.
  rewrite (last_le_containing fl x s l) by (done || lia).
  rewrite !add64_ok by lia. cbn [mbind res_bind].
  replace (negb ((s <=? x) && (x + n <=? s + l))) with false by lia.
  eexists. split; [done|]. cbn [extents].
  set (m1 := BTreeMap.remove _ _). set (m2 := if s <? x then _ else _).
  assert (∀ e, e ∈ m1 ↔ e ∈ extents fl ∧ e.1 ≠ s) as Hm1
    by (intros e; apply BTreeMap.elem_of_remove).
  assert (BTreeMap.sorted m1) by (unfold m1; auto). clearbody m1.
  assert (BTreeMap.sorted m2 ∧ ∀ e, e ∈ m2 ↔ e ∈ m1 ∨ s < x ∧ e = (s, x - s)) as [Hs2 Hm2].
  { unfold m2. destruct (Z.ltb_spec s x); [|split; [done|intros e; intuition lia]].
    split; [auto|]. intros e. rewrite BTreeMap.elem_of_insert by done.
    specialize (Hm1 e). intuition. }
  clearbody m2.
  destruct (Z.ltb_spec (x + n) (s + l)).
  - split; [auto|]. intros e. rewrite BTreeMap.elem_of_insert, Hm2, Hm1 by done.
    assert (e ∈ extents fl → e.1 ≠ s → e.1 ≠ x + n).
    { intros He ??. pose proof (Hall _ He) as (?&?&_).
      assert (e = (s, l)) as -> by (apply (wf_overlap fl _ _ (x + n)); cbn; (done || lia)).
      done. }
    split; [intros [->|[[?|?] ?]]; auto|].
    intros [[? ?]|[[? ->]|[? ->]]]; [right; auto| |by left]. right. split; [by right|cbn; lia].
  - split; [done|]. intros e. rewrite Hm2, Hm1. intuition lia.
Qed.

Lemma remove_range_ok fl x n s l :
  wf fl → (s, l) ∈ extents fl → s ≤ x → x + n ≤ s + l → 0 < n → aligned x → aligned n →
  ∃ fl', remove_range fl x n = Ok fl' ∧ wf fl' ∧
    ∀ y, covers fl' y ↔ covers fl y ∧ ¬ x ≤ y < x + n.
Proof.
  intros Hwf Hin Hsx Hxn Hn Hxa Hna. pose proof Hwf as [Hsort Hall Hapart].
  pose proof (Hall _ Hin) as (?&?&?&?&?). cbn in *.
  destruct (remove_range_entries fl x n s l) as (fl'&Heq&Hs'&Hm); [done..|].
  assert (∀ e, e ∈ extents fl → e.1 ≠ s → 0 < e.2 ∧ (e.1 + e.2 < s ∨ s + l < e.1)) as Hrest.
  { intros e He Hne. pose proof (Hall _ He) as (_&?&_). split; [done|].
    destruct (decide (e.1 < s)); [left; by apply (Hapart e (s, l))|right].
    apply (Hapart (s, l) e Hin He). cbn. lia. }
  exists fl'. split_and!; [done|split; [done|intros e|intros e e']|intros y]; unfold covers;
    setoid_rewrite Hm.
  - intros [[He _]|[[? ->]|[? ->]]]; [by apply Hall|..];
      unfold extent_ok; cbn; split_and!; (lia || align_lia).
  - intros [[He Hne]|[[? ->]|[? ->]]] [[He' Hne']|[[? ->]|[? ->]]]; cbn; auto; try lia.
    all: try (pose proof (Hrest _ He Hne)); try (pose proof (Hrest _ He' Hne')); lia.
  - split.
    + intros (s'&l'&[[He Hne]|[[? [= -> ->]]|[? [= -> ->]]]]&Hy).
      * split; [by exists s', l'|]. pose proof (Hrest _ He Hne). cbn in *. lia.
      * split; [exists s, l; split; [done|lia]|lia].
      * split; [exists s, l; split; [done|lia]|lia].
    + intros [(s'&l'&He&Hy) Hny]. destruct (decide (s' = s)) as [->|]; [|exists s', l'; auto].
      pose proof (BTreeMap.sorted_unique _ _ _ _ Hsort He Hin). subst l'.
      destruct (decide (y < x)).
      * exists s, (x - s). split; [right; left; split; [lia|done]|lia].
      * exists (x + n), (s + l - (x + n)). split; [right; right; split; [lia|done]|lia].
Qed.

(** ** Canonicity: a free list is determined by the addresses it covers *)

(** An address no extent covers next to a covered one is a boundary. *)
Lemma covers_start fl s l y :
  wf fl → (s, l) ∈ extents fl → y < s → (∀ z, y ≤ z < s → covers fl z) → False.
Proof.
  intros Hwf Hin Hy Hc. destruct (Hc (s - 1) ltac:(lia)) as (s'&l'&Hin'&Hz).
  pose proof (wf_apart _ Hwf _ _ Hin' Hin ltac:(cbn; lia)). cbn in *. lia.
Qed.

Lemma covers_end fl s l :
  wf fl → (s, l) ∈ extents fl → ¬ covers fl (s + l).
Proof.
  intros Hwf Hin (s'&l'&Hin'&Hz). pose proof (wf_extents _ Hwf _ Hin) as (_&?&_). cbn in *.
  destruct (decide (s < s')) as [Hlt|].
  - pose proof (wf_apart _ Hwf _ _ Hin Hin' Hlt). cbn in *. lia.
  - assert ((s', l') = (s, l)) as [= -> ->]; [|lia].
    apply (wf_overlap fl _ _ s); cbn; (done || lia).
Qed.

Lemma coverage_entry fl fl' s l :
  wf fl → wf fl' → (∀ y, covers fl y ↔ covers fl' y) → (s, l) ∈ extents fl →
  (s, l) ∈ extents fl'.
Proof.
  intros Hwf Hwf' Hc Hin. pose proof (wf_extents _ Hwf _ Hin) as (_&?&_). cbn in *.
  assert (covers fl' s) as (s'&l'&Hin'&Hs) by (apply Hc; exists s, l; split; [done|lia]).
  assert (s' = s) as ->.
  { destruct (decide (s' < s)); [|lia]. exfalso. eapply (covers_start fl s l s'); [done..|].
    intros z ?. apply Hc. exists s', l'. split; [done|lia]. }
  destruct (Ztrichotomy l l') as [?|[->|?]]; [|done|].
  - destruct (covers_end fl s l Hwf Hin). apply Hc. exists s, l'. split; [done|lia].
  - destruct (covers_end fl' s l' Hwf' Hin'). apply Hc. exists s, l. split; [done|lia].
Qed.

Lemma freelist_ext fl fl' : wf fl → wf fl' → (∀ y, covers fl y ↔ covers fl' y) → fl = fl'.
Proof.
  intros Hwf Hwf' Hc. destruct fl as [m], fl' as [m']. f_equal.
  apply BTreeMap.sorted_ext; [apply Hwf|apply Hwf'|].
  intros [s l]. split; intros He.
  - by apply (coverage_entry (mk m) (mk m')).
  - by apply (coverage_entry (mk m') (mk m)).
Qed.

(** ** Properties *)

(** C35. Freeing an extent never unwinds and makes free exactly its addresses
    in addition, whatever the extent overlaps or touches; the list stays
    sorted and fully coalesced, and it does not depend on the order of the
    frees. *)
Theorem freelist_insert_exact (fl : t) (x n x' n' : Z) :
  wf fl → extent_ok (x, n) → extent_ok (x', n') →
  ∃ fl1 fl2, insert fl x n = Ok fl1 ∧ insert fl1 x' n' = Ok fl2 ∧ wf fl2 ∧
    (∀ y, covers fl2 y ↔ covers fl y ∨ x ≤ y < x + n ∨ x' ≤ y < x' + n') ∧
    (fl1' ← insert fl x' n'; insert fl1' x n) = Ok fl2.
Proof.
  intros Hwf He He'.
  destruct (insert_ok fl x n Hwf He) as (fl1&->&Hwf1&Hc1).
  destruct (insert_ok fl1 x' n' Hwf1 He') as (fl2&Heq2&Hwf2&Hc2).
  destruct (insert_ok fl x' n' Hwf He') as (fl1'&->&Hwf1'&Hc1').
  destruct (insert_ok fl1' x n Hwf1' He) as (fl2'&Heq2'&Hwf2'&Hc2').
  exists fl1, fl2. split_and!; [done..| |].
  - intros y. rewrite Hc2, Hc1. tauto.
  - cbn. rewrite Heq2'. f_equal. apply freelist_ext; [done..|].
    intros y. rewrite Hc2', Hc1', Hc2, Hc1. tauto.
Qed.

Lemma freelist_insert_exact_witness :
  insert (mk [(0, 4096)]) 8192 4096 = Ok (mk [(0, 4096); (8192, 4096)]) ∧
  ∃ fl1 fl2, insert (mk [(0, 4096)]) 8192 4096 = Ok fl1 ∧ insert fl1 4096 8192 = Ok fl2 ∧ wf fl2 ∧
    (∀ y, covers fl2 y ↔ covers (mk [(0, 4096)]) y ∨ 8192 ≤ y < 8192 + 4096 ∨ 4096 ≤ y < 4096 + 8192) ∧
    (fl1' ← insert (mk [(0, 4096)]) 4096 8192; insert fl1' 8192 4096) = Ok fl2.
Proof.
  split; [reflexivity|].
  apply (freelist_insert_exact (mk [(0, 4096)]) 8192 4096 4096 8192).
  - split; cbn.
    + repeat constructor.
    + intros e ->%list_elem_of_singleton. by_compute.
    + intros e e' ->%list_elem_of_singleton ->%list_elem_of_singleton. by_compute.
  - by_compute.
  - by_compute.
Defined.

(** First fit: the chosen extent is the lowest that is large enough, and
    [None] means that none is. Taking the request out of it frees exactly the
    rest, and giving it back restores the list. *)
Theorem freelist_take_give_back (fl : t) (needed : Z) :
  wf fl → 0 < needed → aligned needed →
  match first_fit fl needed with
  | Some x =>
      (∀ s l, (s, l) ∈ extents fl → needed ≤ l → x ≤ s) ∧
      ∃ fl', remove_range fl x needed = Ok fl' ∧ wf fl' ∧
        (∀ y, x ≤ y < x + needed → covers fl y ∧ ¬ covers fl' y) ∧
        (∀ y, ¬ x ≤ y < x + needed → covers fl' y ↔ covers fl y) ∧
        insert fl' x needed = Ok fl
  | None => ∀ s l, (s, l) ∈ extents fl → l < needed
  end.
Proof.
  intros Hwf Hn Hna. destruct (first_fit fl needed) as [x|] eqn:E.
  2: { intros s l. by apply first_fit_None. }
  apply first_fit_Some in E as (l&Hin&Hl&Hfirst); [|done]. split; [done|].
  pose proof (wf_extents _ Hwf _ Hin) as (?&?&?&?&?). cbn in *.
  destruct (remove_range_ok fl x needed x l) as (fl'&->&Hwf'&Hc); [done || lia..|].
  assert (∀ y, x ≤ y < x + needed → covers fl y) as Hcov.
  { intros y ?. exists x, l. split; [done|lia]. }
  exists fl'. split_and!; [done..| | |].
  - intros y Hy. rewrite Hc. split; [by apply Hcov|tauto].
  - intros y ?. rewrite Hc. tauto.
  - destruct (insert_ok fl' x needed Hwf') as (fl2&->&Hwf2&Hc2); [split_and!; cbn; (done || lia)|].
    f_equal. apply freelist_ext; [done..|]. intros y. rewrite Hc2, Hc.
    destruct (decide (x ≤ y < x + needed)) as [Hy|]; [|tauto]. specialize (Hcov y Hy). tauto.
Qed.

End Freelist.
