(* ===== verification/Alloc.v ===== *)
(** * Block allocator (crates/sfs-core/src/container/alloc.rs, segment.rs)

    The three-region allocator: free lists over an ordered map of extents, the
    shared forward frontier of [CatalogHead] and [LiveMid], the eviction tail
    that is anchored at the end of the store (or below the WAL region) and is
    relocated when the store grows, packing of small payloads, the reclaim
    scope of a transaction, and the deferred frees released by a header
    commit. A failing [debug_assert!] and an overflow are a [Panic]. *)

From S2P Require Import Prelude.
From S2P Require Import BTree.
From S2P Require Import Backend.
From S2P Require Import Freelist.

(** [BlockLoc] *)
Record BlockLoc := mkBlockLoc { addr : Z; blk_len : Z }.

(** [Region] *)
Inductive Region := CatalogHead | LiveMid | EvictionTail.

#[global] Instance Region_eq_dec : EqDecision Region.
Proof. solve_decision. Defined.

Definition GROW_CHUNK : Z := 16 * BASE_BLOCK.
Definition LIVE_BASE_UNSET : Z := 2 ^ 64 - 1.

(** [(n + b - 1) & !(b - 1)] *)
Definition round_up_to_block (n : Z) : Z :=
  if n =? 0 then 0 else Z.land (n + BASE_BLOCK - 1) (Z.lnot (BASE_BLOCK - 1)).

(** [round_up_to_block(len as u64).max(BASE_BLOCK as u64)] *)
Definition footprint (len : Z) : Z := Z.max (round_up_to_block len) BASE_BLOCK.

(** ** The allocator *)

Module Allocator.

Record t := mk {
  data_start : Z;
  head_hwm : Z;
  live_base : Z;
  live_hwm : Z;
  tail_low : Z;
  wal_reservation_start : option Z;
  region_tags : BTreeMap.t Region;
  free_head : Freelist.t;
  free_live : Freelist.t;
  free_tail : Freelist.t;
  reclaim_floor : option Z;
  deferred_free : list BlockLoc;
  open_pack : option (Z * Z);
}.

Definition new (b : Backend.t) : t :=
  let data_start := 2 * BASE_BLOCK in
  mk data_start data_start LIVE_BASE_UNSET data_start (Backend.len b) None []
     Freelist.default Freelist.default Freelist.default None [] None.

(** Assignments to the fields. *)
Definition set_marks (a : t) (head base live tail : Z) : t :=
  mk (data_start a) head base live tail (wal_reservation_start a) (region_tags a)
     (free_head a) (free_live a) (free_tail a) (reclaim_floor a) (deferred_free a) (open_pack a).
Definition set_tail_low (a : t) (z : Z) : t :=
  set_marks a (head_hwm a) (live_base a) (live_hwm a) z.
Definition set_wal (a : t) (w : option Z) : t :=
  mk (data_start a) (head_hwm a) (live_base a) (live_hwm a) (tail_low a) w (region_tags a)
     (free_head a) (free_live a) (free_tail a) (reclaim_floor a) (deferred_free a) (open_pack a).
Definition set_tags (a : t) (tags : BTreeMap.t Region) : t :=
  mk (data_start a) (head_hwm a) (live_base a) (live_hwm a) (tail_low a)
     (wal_reservation_start a) tags
     (free_head a) (free_live a) (free_tail a) (reclaim_floor a) (deferred_free a) (open_pack a).
Definition set_freelists (a : t) (fh fl ft : Freelist.t) : t :=
  mk (data_start a) (head_hwm a) (live_base a) (live_hwm a) (tail_low a)
     (wal_reservation_start a) (region_tags a) fh fl ft
     (reclaim_floor a) (deferred_free a) (open_pack a).
Definition set_session (a : t) (floor : option Z) (deferred : list BlockLoc)
    (pack : option (Z * Z)) : t :=
  mk (data_start a) (head_hwm a) (live_base a) (live_hwm a) (tail_low a)
     (wal_reservation_start a) (region_tags a)
     (free_head a) (free_live a) (free_tail a) floor deferred pack.
Definition set_open_pack (a : t) (pack : option (Z * Z)) : t :=
  set_session a (reclaim_floor a) (deferred_free a) pack.

Definition freelist_for (a : t) (r : Region) : Freelist.t :=
  match r with
  | CatalogHead => free_head a
  | LiveMid => free_live a
  | EvictionTail => free_tail a
  end.

(** [*self.freelist_for_mut(r) = fl] *)
Definition set_freelist_for (a : t) (r : Region) (fl : Freelist.t) : t :=
  match r with
  | CatalogHead => set_freelists a fl (free_live a) (free_tail a)
  | LiveMid => set_freelists a (free_head a) fl (free_tail a)
  | EvictionTail => set_freelists a (free_head a) (free_live a) fl
  end.

(** [shift_eviction_tail_bookkeeping] *)
Definition shift_tags (tags : BTreeMap.t Region) (addrs : list Z) (delta : Z) : BTreeMap.t Region :=
  foldl (λ m a, BTreeMap.insert (BTreeMap.remove m a) (a + delta) EvictionTail) tags addrs.
Definition shift_extents (exts : list (Z * Z)) (delta : Z) : BTreeMap.t Z :=
  foldl (λ m e, BTreeMap.insert m (e.1 + delta) e.2) [] exts.
Definition shift_eviction_tail_bookkeeping (a : t) (delta : Z) : t :=
  let tail_addrs :=
    fst <$> filter (λ e, e.2 = EvictionTail) (BTreeMap.range_from (region_tags a) (tail_low a)) in
  let a := set_tags a (shift_tags (region_tags a) tail_addrs delta) in
  let exts := Freelist.extents (free_tail a) in
  set_freelists a (free_head a) (free_live a) (Freelist.mk (shift_extents exts delta)).

(** The allocator and the backend it is handed. *)
Abbreviation M A := (St (t * Backend.t) A).

(** Calls on the backend and on the allocator's own fields. *)
Definition on_backend (f : Backend.t → res Backend.t) : M () := λ '(a, b),
  match f b with
  | Ok b' => (Ok (), (a, b'))
  | Err e => (Err e, (a, b))
  | Panic => (Panic, (a, b))
  end.
Definition on_alloc (f : t → res t) : M () := λ '(a, b),
  match f a with
  | Ok a' => (Ok (), (a', b))
  | Err e => (Err e, (a, b))
  | Panic => (Panic, (a, b))
  end.

(** [grow_for]; [move_tail] is the copy both of its branches make of
    [[tail_low, old_len)]. *)
Definition move_tail (old_len grow_by : Z) (clear : bool) : M () :=
  '(a, b) ← get_st;
  if tail_low a <? old_len then
    buf ← lift (Backend.read_at b (tail_low a) (old_len - tail_low a));
    dst ← lift (add64 (tail_low a) grow_by);
    on_backend (λ b, Backend.write_at b dst buf);;
    (if clear then
       on_backend (λ b, Backend.write_at b (tail_low a)
                     (zeros (Z.to_nat (Z.min old_len dst - tail_low a))))
     else mret ());;
    on_alloc (λ a, Ok (shift_eviction_tail_bookkeeping a grow_by))
  else mret ().

Definition grow_for (needed : Z) : M () :=
  '(a, b) ← get_st;
  let current_slack := sat_sub (tail_low a) (live_hwm a) in
  let extra := sat_sub needed current_slack in
  let old_len := Backend.len b in
  let tail_size := sat_sub old_len (tail_low a) in
  let grow_by := round_up_to_block (Z.max (Z.max extra GROW_CHUNK) tail_size) in
  new_len ← lift (add64 old_len grow_by);
  on_backend (λ b, Backend.grow b new_len);;
  match wal_reservation_start a with
  | None =>
      move_tail old_len grow_by true;;
      on_alloc (λ a, z ← add64 (tail_low a) grow_by; Ok (set_tail_low a z))
  | Some wal_start =>
      move_tail old_len grow_by false;;
      on_alloc (λ a, z ← add64 (tail_low a) grow_by; Ok (set_tail_low a z));;
      on_alloc (λ a, z ← add64 wal_start grow_by; Ok (set_wal a (Some z)))
  end.

Definition set_wal_reservation (a : t) (wal_start : Z) : t :=
  let a := set_wal a (Some wal_start) in
  if wal_start <? tail_low a then set_tail_low a wal_start else a.

(** [self.region_tags.insert(addr, region)] *)
Definition tag (x : Z) (r : Region) : M () :=
  on_alloc (λ a, Ok (set_tags a (BTreeMap.insert (region_tags a) x r))).

(** [alloc_aligned] *)
Definition bump_forward (needed : Z) (region : Region) : M Z :=
  '(a, _) ← get_st;
  hwm' ← lift (add64 (live_hwm a) needed);
  (if tail_low a <? hwm' then grow_for needed else mret ());;
  on_alloc (λ a, Ok (
    if bool_decide (region = LiveMid) && (live_base a =? LIVE_BASE_UNSET)
    then set_marks a (head_hwm a) (live_hwm a) (live_hwm a) (tail_low a) else a));;
  '(a, _) ← get_st;
  let addr := live_hwm a in
  hwm' ← lift (add64 (live_hwm a) needed);
  on_alloc (λ a, Ok (set_marks a (Z.max (head_hwm a) hwm') (live_base a) hwm' (tail_low a)));;
  mret addr.

Definition bump_tail (needed : Z) : M Z :=
  '(a, _) ← get_st;
  hwm' ← lift (add64 (live_hwm a) needed);
  (if tail_low a <? hwm' then grow_for needed else mret ());;
  '(a, _) ← get_st;
  z ← lift (sub64 (tail_low a) needed);
  on_alloc (λ a, Ok (set_tail_low a z));;
  mret z.

Definition alloc_aligned (len : Z) (region : Region) : M BlockLoc :=
  let needed := footprint len in
  '(a, _) ← get_st;
  match Freelist.first_fit (freelist_for a region) needed with
  | Some addr =>
      on_alloc (λ a,
        fl ← Freelist.remove_range (freelist_for a region) addr needed;
        Ok (set_freelist_for a region fl));;
      tag addr region;;
      mret (mkBlockLoc addr len)
  | None =>
      addr ← match region with
             | CatalogHead | LiveMid => bump_forward needed region
             | EvictionTail => bump_tail needed
             end;
      tag addr region;;
      mret (mkBlockLoc addr len)
  end.

(** [pack_close_if_freed] *)
Definition pack_close_if_freed (a : t) (addr len : Z) : t :=
  match open_pack a with
  | Some (base, _) =>
      if (addr <? base + BASE_BLOCK) && (base <? addr + len) then set_open_pack a None else a
  | None => a
  end.

(** [free] *)
Definition free (a : t) (loc : BlockLoc) : res (bool * t) :=
  let size := footprint (blk_len loc) in
  match BTreeMap.get (region_tags a) (addr loc) with
  | None => Ok (false, a)
  | Some region =>
      let a := set_tags a (BTreeMap.remove (region_tags a) (addr loc)) in
      let a := pack_close_if_freed a (addr loc) size in
      fl ← Freelist.insert (freelist_for a region) (addr loc) size;
      Ok (true, set_freelist_for a region fl)
  end.

(** [alloc_packed] *)
Definition alloc_packed (need : Z) : M Z :=
  if negb ((0 <? need) && (need <? BASE_BLOCK)) then lift Panic
  else
    '(a, _) ← get_st;
    let fresh : M (Z * Z) :=
      blk ← alloc_aligned BASE_BLOCK LiveMid; mret (addr blk, 0) in
    '(base, used) ←
      match open_pack a with
      | Some (base, used) => if used + need <=? BASE_BLOCK then mret (base, used) else fresh
      | None => fresh
      end;
    on_alloc (λ a, Ok (set_open_pack a (Some (base, used + need))));;
    lift (add64 base used).

Definition begin_reclaim_scope (a : t) : t :=
  let floor := live_hwm a in
  set_session a
    (Some match reclaim_floor a with Some existing => Z.min existing floor | None => floor end)
    (deferred_free a) (open_pack a).

Definition end_reclaim_scope (a : t) : t :=
  set_session a None (deferred_free a) (open_pack a).

Definition in_reclaim_scope (a : t) : bool := bool_decide (is_Some (reclaim_floor a)).

Definition free_reclaimable (a : t) (loc : BlockLoc) : res (bool * t) :=
  match reclaim_floor a with
  | Some floor => if floor <=? addr loc then free a loc else Ok (false, a)
  | None => Ok (false, a)
  end.

Definition retire_block (a : t) (loc : BlockLoc) : t :=
  set_session a (reclaim_floor a) (deferred_free a ++ [loc]) (open_pack a).

(** The loop of [publish_deferred] over the taken list. *)
Fixpoint free_all (a : t) (l : list BlockLoc) : res t :=
  match l with
  | [] => Ok a
  | loc :: l' => '(_, a') ← free a loc; free_all a' l'
  end.
Definition publish_deferred (a : t) : res t :=
  free_all (set_session a (reclaim_floor a) [] (open_pack a)) (deferred_free a).

Definition abort_deferred (a : t) : t :=
  set_session a (reclaim_floor a) [] (open_pack a).

Definition deferred_free_len (a : t) : Z := blen (deferred_free a).

Definition first_fit (a : t) (len : Z) (r : Region) : option Z :=
  Freelist.first_fit (freelist_for a r) (footprint len).

Definition register_eviction_tail_block (a : t) (x len : Z) : t :=
  let a := set_tags a (BTreeMap.insert (region_tags a) x EvictionTail) in
  if x <? tail_low a then set_tail_low a x else a.

Definition register_live_block (a : t) (x : Z) (r : Region) : t :=
  set_tags a (BTreeMap.insert (region_tags a) x r).

Definition insert_free_extent (a : t) (x len : Z) (r : Region) : res t :=
  if negb (is_aligned x) then Panic
  else if negb ((0 <? len) && is_aligned len) then Panic
  else
    let a := pack_close_if_freed a x len in
    fl ← Freelist.insert (freelist_for a r) x len;
    Ok (set_freelist_for a r fl).

Definition set_forward_frontier (a : t) (end_ : Z) : t :=
  let aligned := Z.max (round_up_to_block end_) (data_start a) in
  set_marks a (Z.max (head_hwm a) aligned) (live_base a) (Z.max (live_hwm a) aligned) (tail_low a).

End Allocator.
