(* ===== verification/AllocInv.v ===== *)
(** * Block allocator: invariant and theorems

    A ghost list [live] names the blocks that callers hold and a ghost list
    [packed] the payloads inside pack blocks. The geometry [geo] is the set
    level of the invariant (watermarks, zones, disjointness of live blocks and
    free addresses); [rep] ties it to the maps of the allocator and [session]
    to the deferred frees and the open pack block. *)

From S2P Require Import Prelude.
From S2P Require Import BTree.
From S2P Require Import Backend.
From S2P Require Import Freelist.
From S2P Require Import Alloc.
Import Allocator.

(** ** Rounding *)

Lemma round_up_div n :
  0 ≤ n → round_up_to_block n = (n + BASE_BLOCK - 1) / BASE_BLOCK * BASE_BLOCK.
Proof.
  intros Hn. unfold round_up_to_block. destruct (Z.eqb_spec n 0) as [->|]; [done|].
  change (BASE_BLOCK - 1) with (Z.ones 12). rewrite <-Z.ldiff_land, Z.ldiff_ones_r by done.
  rewrite Z.shiftl_mul_pow2, Z.shiftr_div_pow2 by done. done.
Qed.

Lemma round_up_spec n :
  0 ≤ n → n ≤ round_up_to_block n < n + BASE_BLOCK ∧ aligned (round_up_to_block n).
Proof. intros. rewrite round_up_div by done. align_lia. Qed.

Lemma footprint_spec len :
  u32 len → len ≤ footprint len ∧ 0 < footprint len ≤ 2 ^ 32 ∧ aligned (footprint len).
Proof.
  intros Hl. unfold footprint. rewrite round_up_div by width_lia.
  unfold aligned, BASE_BLOCK. width_lia.
Qed.

(** ** Blocks *)

Record Block := mkBlock { b_addr : Z; b_size : Z; b_region : Region }.

#[global] Instance Block_eq_dec : EqDecision Block.
Proof. solve_decision. Defined.

Definition in_block (blk : Block) (x : Z) : Prop := b_addr blk ≤ x < b_addr blk + b_size blk.

Definition disjoint (b1 b2 : Block) : Prop := ∀ x, in_block b1 x → in_block b2 x → False.

Fixpoint all_disjoint (l : list Block) : Prop :=
  match l with
  | [] => True
  | blk :: l' => Forall (disjoint blk) l' ∧ all_disjoint l'
  end.

Lemma disjoint_sym b1 b2 : disjoint b1 b2 → disjoint b2 b1.
Proof. intros Hd x ??. by apply (Hd x). Qed.

#[global] Instance all_disjoint_perm : Proper ((≡ₚ) ==> iff) all_disjoint.
Proof.
  intros l l' Hp. induction Hp as [|x l l' Hp IH|x y l|]; cbn; [done|by rewrite IH, Hp| |by etrans].
  rewrite !Forall_cons. split; intros [[??] [??]]; split_and!; auto using disjoint_sym.
Qed.

Lemma all_disjoint_fmap (f : Block → Block) l :
  (∀ b1 b2, b1 ∈ l → b2 ∈ l → disjoint b1 b2 → disjoint (f b1) (f b2)) →
  all_disjoint l → all_disjoint (f <$> l).
Proof.
  induction l as [|x l IH]; cbn; intros Hf; [done|]. intros [Hx Hl].
  split; [|apply IH; [intros; apply Hf; [by right..|done]|done]].
  rewrite Forall_forall in Hx. apply Forall_fmap, Forall_forall. intros y Hy.
  apply Hf; [by left|by right|by apply Hx].
Qed.

Lemma all_disjoint_same l b1 b2 x :
  all_disjoint l → b1 ∈ l → b2 ∈ l → in_block b1 x → in_block b2 x → b1 = b2.
Proof.
  induction l as [|y l IH]; cbn; [by intros _ ?%elem_of_nil|].
  intros [Hy Hl]. rewrite Forall_forall in Hy.
  intros [->|H1]%elem_of_cons [->|H2]%elem_of_cons Hx1 Hx2; [done|..|by apply IH].
  - by destruct (Hy b2 H2 x).
  - by destruct (Hy b1 H1 x).
Qed.

Lemma all_disjoint_filter (P : Block → Prop) `{!∀ x, Decision (P x)} l :
  all_disjoint l → all_disjoint (filter P l).
Proof.
  induction l as [|x l IH]; [done|]. intros [Hx Hl]. rewrite filter_cons.
  case_decide; [|by apply IH]. split; [|by apply IH].
  rewrite Forall_forall in *. intros y [_ ?]%list_elem_of_filter. auto.
Qed.

(** What a grow by [delta] does to the address of a block. *)
Definition relocate (delta : Z) (blk : Block) : Block :=
  match b_region blk with
  | EvictionTail => mkBlock (b_addr blk + delta) (b_size blk) EvictionTail
  | _ => blk
  end.

(** Where an address of region [r] was before a grow by [delta]. *)
Definition before (delta : Z) (r : Region) (x : Z) : Z :=
  match r with
  | EvictionTail => x - delta
  | _ => x
  end.

(** ** Geometry *)

(** The addresses a region may use. *)
Definition zone (hwm tail top : Z) (r : Region) (x : Z) : Prop :=
  match r with
  | EvictionTail => tail ≤ x < top
  | _ => 2 * BASE_BLOCK ≤ x < hwm
  end.

Record block_ok (hwm tail top : Z) (blk : Block) : Prop := {
  bo_align : aligned (b_addr blk) ∧ aligned (b_size blk);
  bo_size : 0 < b_size blk;
  bo_zone : ∀ x, in_block blk x → zone hwm tail top (b_region blk) x;
}.

Record geo (hwm tail top : Z) (free : Region → Z → Prop) (live : list Block) : Prop := {
  g_marks : 2 * BASE_BLOCK ≤ hwm ∧ hwm ≤ tail ∧ tail ≤ top;
  g_align : aligned hwm ∧ aligned tail ∧ aligned top;
  g_blocks : ∀ blk, blk ∈ live → block_ok hwm tail top blk;
  g_disj : all_disjoint live;
  g_free_zone : ∀ r x, free r x → zone hwm tail top r x;
  g_free_free : ∀ r r' x, free r x → free r' x → r = r';
  g_free_live : ∀ r x blk, free r x → blk ∈ live → in_block blk x → False;
}.

Lemma zone_mono hwm tail top hwm' tail' top' r x :
  hwm ≤ hwm' → tail' ≤ tail → top ≤ top' → zone hwm tail top r x → zone hwm' tail' top' r x.
Proof. destruct r; cbn; lia. Qed.

Lemma block_ok_mono hwm tail top hwm' tail' top' blk :
  hwm ≤ hwm' → tail' ≤ tail → top ≤ top' →
  block_ok hwm tail top blk → block_ok hwm' tail' top' blk.
Proof. intros ??? [???]. split; [done..|]. eauto using zone_mono. Qed.

(** Moving a watermark outwards and handing out the block it passed. *)
Lemma geo_add hwm tail top hwm' tail' top' free live blk :
  geo hwm tail top free live →
  hwm ≤ hwm' → tail' ≤ tail → top ≤ top' → hwm' ≤ tail' → aligned hwm' → aligned tail' → aligned top' →
  block_ok hwm' tail' top' blk →
  (∀ x, in_block blk x → (∀ r, ¬ free r x) ∧ ∀ blk', blk' ∈ live → ¬ in_block blk' x) →
  geo hwm' tail' top' free (blk :: live).
Proof.
  intros [????? Hff Hfl] ??????? Hok Hnew. split.
  - lia.
  - done.
  - intros b' [->|Hb]%elem_of_cons; [done|]. eapply block_ok_mono; eauto.
  - split; [|done]. apply Forall_forall. intros b' Hb x Hx Hx'. by apply (proj2 (Hnew x Hx) b').
  - intros r x Hf. eapply zone_mono; eauto.
  - done.
  - intros r x b' Hf [->|Hb]%elem_of_cons Hx; [by apply (proj1 (Hnew x Hx) r)|by eapply Hfl].
Qed.

(** Moving a watermark only. *)
Lemma geo_widen hwm tail top hwm' tail' top' free live :
  geo hwm tail top free live →
  hwm ≤ hwm' → tail' ≤ tail → top ≤ top' → hwm' ≤ tail' → aligned hwm' → aligned tail' → aligned top' →
  geo hwm' tail' top' free live.
Proof.
  intros [????? Hff Hfl] ???????. split; try done; [lia|..].
  - intros b' Hb. eapply block_ok_mono; eauto.
  - intros r x Hf. eapply zone_mono; eauto.
Qed.

Lemma geo_forward hwm tail top free live n r :
  geo hwm tail top free live → r ≠ EvictionTail → 0 < n → aligned n → hwm + n ≤ tail →
  geo (hwm + n) tail top free (mkBlock hwm n r :: live).
Proof.
  intros Hg Hr Hn Ha Hle. pose proof Hg as [Hm Hal Hb Hd Hz Hff Hfl].
  eapply geo_add; [done|lia|lia|lia|lia|align_lia|tauto|tauto|split; cbn|].
  - split; [tauto|done].
  - done.
  - unfold in_block, zone. cbn. destruct r; [lia|lia|done].
  - unfold in_block. cbn. intros x Hx. split.
    + intros r' Hf%Hz. destruct r'; cbn in Hf; lia.
    + intros blk' Hblk Hin. apply (bo_zone _ _ _ _ (Hb _ Hblk)) in Hin.
      destruct (b_region blk'); cbn in Hin; lia.
Qed.

Lemma geo_tail hwm tail top free live n :
  geo hwm tail top free live → 0 < n → aligned n → hwm + n ≤ tail →
  geo hwm (tail - n) top free (mkBlock (tail - n) n EvictionTail :: live).
Proof.
  intros Hg Hn Ha Hle. pose proof Hg as [Hm Hal Hb Hd Hz Hff Hfl].
  eapply geo_add; [done|lia|lia|lia|lia|tauto|align_lia|tauto|split; cbn|].
  - split; [align_lia|done].
  - done.
  - unfold in_block. cbn. lia.
  - unfold in_block. cbn. intros x Hx. split.
    + intros r' Hf%Hz. destruct r'; cbn in Hf; lia.
    + intros blk' Hblk Hin. apply (bo_zone _ _ _ _ (Hb _ Hblk)) in Hin.
      destruct (b_region blk'); cbn in Hin; lia.
Qed.

(** Handing out a block of free addresses. *)
Lemma geo_take hwm tail top free free' live blk :
  geo hwm tail top free live → block_ok hwm tail top blk →
  (∀ x, in_block blk x → free (b_region blk) x) →
  (∀ r x, free' r x → free r x ∧ ¬ (r = b_region blk ∧ in_block blk x)) →
  geo hwm tail top free' (blk :: live).
Proof.
  intros [Hm Hal Hb Hd Hz Hff Hfl] Hok Hin Hf'. split; [done..| | | | |].
  - intros b' [->|?]%elem_of_cons; auto.
  - split; [|done]. apply Forall_forall. intros b' ? x Hx Hx'. by eapply Hfl; [apply Hin|..].
  - intros r x [? _]%Hf'. auto.
  - intros r r' x [? _]%Hf' [? _]%Hf'. eauto.
  - intros r x b' [Hf Hn]%Hf' [->|?]%elem_of_cons Hx; [|by eapply Hfl].
    apply Hn. split; [|done]. eapply Hff; eauto.
Qed.

(** Taking a block back. *)
Lemma geo_give hwm tail top free free' live blk :
  geo hwm tail top free (blk :: live) →
  (∀ r x, free' r x → free r x ∨ r = b_region blk ∧ in_block blk x) →
  geo hwm tail top free' live.
Proof.
  intros [Hm Hal Hb Hd Hz Hff Hfl] Hf'. destruct Hd as [Hdb Hd]. rewrite Forall_forall in Hdb.
  split; [done..| |done| | |].
  - intros b' ?. apply Hb. by right.
  - intros r x [?|[-> ?]]%Hf'; [auto|]. apply (Hb blk); [by left|done].
  - intros r r' x [Hf1|[-> Hi1]]%Hf' [Hf2|[-> Hi2]]%Hf'; [eauto| | |done].
    + destruct (Hfl r x blk); [done|by left|done].
    + destruct (Hfl r' x blk); [done|by left|done].
  - intros r x b' [Hf|[-> Hi]]%Hf' Hb' Hx.
    + eapply Hfl; [done|by right|done].
    + by eapply Hdb.
Qed.

(** The store grew by [delta]: the tail zone moved up. *)
Lemma in_relocate delta blk x :
  in_block (relocate delta blk) x ↔ in_block blk (before delta (b_region blk) x).
Proof. unfold relocate, in_block. destruct (b_region blk) eqn:E; cbn; lia. Qed.

Lemma region_relocate delta blk : b_region (relocate delta blk) = b_region blk.
Proof. unfold relocate. by destruct (b_region blk) eqn:E. Qed.

Lemma zone_before hwm tail top delta r x :
  zone hwm (tail + delta) (top + delta) r x ↔ zone hwm tail top r (before delta r x).
Proof. destruct r; cbn; lia. Qed.

(** Before the grow, one address cannot belong to two zones. *)
Lemma before_inj hwm tail top delta r r' x :
  hwm ≤ tail → 0 ≤ delta →
  zone hwm tail top r (before delta r x) → zone hwm tail top r' (before delta r' x) →
  before delta r x = before delta r' x.
Proof. destruct r, r'; cbn; lia. Qed.

Lemma geo_grow hwm tail top free free' live delta :
  geo hwm tail top free live → 0 ≤ delta → aligned delta →
  (∀ r x, free' r x ↔ free r (before delta r x)) →
  geo hwm (tail + delta) (top + delta) free' (relocate delta <$> live).
Proof.
  intros [Hm Hal Hb Hd Hz Hff Hfl] Hdl Hda Hf'.
  assert (∀ blk x, blk ∈ live → in_block blk x → zone hwm tail top (b_region blk) x) as Hbz
    by (intros blk x Hblk; apply (Hb _ Hblk)).
  split.
  - lia.
  - split_and!; [tauto|align_lia..].
  - intros blk' (blk&->&Hblk)%list_elem_of_fmap. destruct (Hb _ Hblk) as [[Ha1 Ha2] Hs _]. split.
    + unfold relocate. destruct (b_region blk); cbn; [done..|]. split; [align_lia|done].
    + unfold relocate. by destruct (b_region blk).
    + intros x Hx%in_relocate. rewrite region_relocate. apply zone_before. auto.
  - apply all_disjoint_fmap; [|done]. intros b1 b2 Hb1 Hb2 Hdis x H1%in_relocate H2%in_relocate.
    rewrite (before_inj hwm tail top delta _ (b_region b2)) in H1 by (auto; lia).
    by eapply Hdis.
  - intros r x Hf%Hf'. apply zone_before. auto.
  - intros r r' x H1%Hf' H2%Hf'. rewrite (before_inj hwm tail top delta _ r') in H1 by (auto; lia).
    eauto.
  - intros r x blk' Hf%Hf' (blk&->&Hblk)%list_elem_of_fmap Hx%in_relocate.
    rewrite (before_inj hwm tail top delta _ (b_region blk)) in Hf by (auto; lia). eauto.
Qed.

(** ** The invariant *)

(** The end of the eviction tail: the WAL region or the end of the store. *)
Definition top (a : t) (b : Backend.t) : Z := default (Backend.len b) (wal_reservation_start a).

(** The maps of the allocator describe [live]. *)
Record rep (a : t) (live : list Block) : Prop := {
  r_sorted : BTreeMap.sorted (region_tags a);
  r_tags : ∀ x r, (x, r) ∈ region_tags a ↔ ∃ n, mkBlock x n r ∈ live;
  r_free : ∀ r, Freelist.wf (freelist_for a r);
}.

(** The block a caller's location names. *)
Definition block_of (loc : BlockLoc) (r : Region) : Block :=
  mkBlock (addr loc) (footprint (blk_len loc)) r.

(** The open pack block. *)
Definition pack_block (base : Z) : Block := mkBlock base BASE_BLOCK LiveMid.

(** Deferred blocks are still live; every packed payload is inside a live
    block, the payloads are disjoint, and the open block has its bytes from
    [used] on to give. *)
Record session (a : t) (live packed : list Block) : Prop := {
  s_deferred : ∀ loc, loc ∈ deferred_free a →
    ∃ r, r ≠ EvictionTail ∧ block_of loc r ∈ live;
  s_deferred_nodup : NoDup (addr <$> deferred_free a);
  s_packed : ∀ p, p ∈ packed → 0 < b_size p ∧
    ∃ base, pack_block base ∈ live ∧ base ≤ b_addr p ∧ b_addr p + b_size p ≤ base + BASE_BLOCK;
  s_packed_disj : all_disjoint packed;
  s_open : ∀ base used, open_pack a = Some (base, used) →
    0 < used ≤ BASE_BLOCK ∧ pack_block base ∈ live ∧
    ∀ p x, p ∈ packed → in_block p x → base ≤ x < base + BASE_BLOCK → x < base + used;
}.

Record inv (a : t) (b : Backend.t) (live packed : list Block) : Prop := {
  i_backend : Backend.wf b ∧ aligned (Backend.len b);
  i_start : data_start a = 2 * BASE_BLOCK;
  i_top : top a b ≤ Backend.len b;
  i_geo : geo (live_hwm a) (tail_low a) (top a b)
              (λ r, Freelist.covers (freelist_for a r)) live;
  i_rep : rep a live;
  i_session : session a live packed;
}.

(** ** Relocating the bookkeeping *)

Lemma shift_tags_spec addrs delta tags :
  BTreeMap.sorted tags → NoDup addrs →
  (∀ x, x ∈ addrs → x + delta ∉ addrs) → (∀ x r, x ∈ addrs → (x + delta, r) ∉ tags) →
  BTreeMap.sorted (shift_tags tags addrs delta) ∧
  ∀ x r, (x, r) ∈ shift_tags tags addrs delta ↔
    (x, r) ∈ tags ∧ x ∉ addrs ∨ x - delta ∈ addrs ∧ r = EvictionTail.
Proof.
  intros Hs Hnd. revert tags Hs.
  induction Hnd as [|y addrs Hy Hnd IH]; intros tags Hs Hclash Hfresh; cbn.
  { split; [done|]. intros x r. rewrite !elem_of_nil. tauto. }
  set (tags1 := BTreeMap.insert _ _ _).
  assert (∀ e, e ∈ tags1 ↔ e = (y + delta, EvictionTail) ∨ (e ∈ tags ∧ e.1 ≠ y) ∧ e.1 ≠ y + delta)
    as Htags1.
  { intros e. unfold tags1. rewrite BTreeMap.elem_of_insert, BTreeMap.elem_of_remove by auto. done. }
  destruct (IH tags1) as [Hs' Hin].
  - unfold tags1. auto.
  - intros x Hx Hx'. apply (Hclash x); by right.
  - intros x r Hx [[= Heq _]|[[Ht _] _]]%Htags1.
    + assert (x = y) as -> by lia. done.
    + eapply Hfresh; [by right|done].
  - split; [done|]. intros x r. unfold shift_tags in Hin. rewrite Hin, Htags1, !elem_of_cons. cbn.
    pose proof (Hfresh y r ltac:(by left)). pose proof (Hclash y ltac:(by left)) as Hc.
    rewrite elem_of_cons in Hc.
    split.
    + intros [[[[= -> ->]|[[??] ?]] ?]|[? ->]]; [right; split; [left; lia|done]|left; tauto|tauto].
    + intros [[Ht Hx]|[[Hx|Hx] ->]].
      * left. split; [|tauto]. right. split; [tauto|]. intros ->. done.
      * assert (x = y + delta) as -> by lia. left. split; [by left|tauto].
      * right. done.
Qed.

Lemma shift_extents_spec exts delta :
  BTreeMap.sorted exts →
  BTreeMap.sorted (shift_extents exts delta) ∧
  ∀ e, e ∈ shift_extents exts delta ↔ (e.1 - delta, e.2) ∈ exts.
Proof.
  unfold shift_extents. induction exts as [|y exts IH] using rev_ind; intros Hs; cbn.
  { split; [constructor|]. intros e. by rewrite !elem_of_nil. }
  apply StronglySorted_app in Hs as (Hlt&Hs&_).
  destruct IH as [IHs IH]; [done|]. rewrite foldl_snoc. split; [auto|].
  intros e. rewrite BTreeMap.elem_of_insert, IH, elem_of_app, list_elem_of_singleton by done.
  split.
  - intros [->|[? _]]; [right|by left]. destruct y; cbn. f_equal. lia.
  - intros [He|He]; [right|left].
    + split; [done|]. specialize (Hlt _ y He ltac:(by left)). cbn in Hlt. lia.
    + destruct y as [s l]. injection He as ? ?. destruct e; cbn in *. f_equal; [lia|done].
Qed.

Lemma live_tail_range a b live packed x n :
  inv a b live packed → mkBlock x n EvictionTail ∈ live → tail_low a ≤ x < Backend.len b.
Proof.
  intros Hi Hin. destruct (g_blocks _ _ _ _ _ (i_geo _ _ _ _ Hi) _ Hin) as [_ Hs Hz]. cbn in *.
  pose proof (i_top _ _ _ _ Hi). specialize (Hz x). unfold in_block in Hz. cbn in Hz. lia.
Qed.

Lemma tail_extent_range a b live packed e :
  inv a b live packed → e ∈ Freelist.extents (free_tail a) →
  tail_low a ≤ e.1 ∧ e.1 + e.2 ≤ Backend.len b.
Proof.
  intros Hi He. destruct (Freelist.wf_extents _ (r_free _ _ (i_rep _ _ _ _ Hi) EvictionTail) e He)
    as (_&Hn&_). pose proof (i_top _ _ _ _ Hi).
  pose proof (g_free_zone _ _ _ _ _ (i_geo _ _ _ _ Hi) EvictionTail) as Hz. cbn in Hz.
  destruct e as [s l]; cbn in *.
  assert (∀ x, s ≤ x < s + l → tail_low a ≤ x < top a b) as Hx.
  { intros x ?. apply Hz. by exists s, l. }
  pose proof (Hx s). pose proof (Hx (s + l - 1)). lia.
Qed.

Lemma elem_of_relocate delta (live : list Block) x n r :
  mkBlock x n r ∈ relocate delta <$> live ↔ mkBlock (before delta r x) n r ∈ live.
Proof.
  rewrite list_elem_of_fmap. split.
  - intros ([x' n' r']&Heq&Hin). unfold relocate in Heq. cbn in Heq.
    destruct r'; injection Heq as -> -> ->; cbn; [done..|]. by replace (x' + delta - delta) with x' by lia.
  - intros Hin. eexists. split; [|exact Hin]. destruct r; cbn; [done..|].
    unfold relocate; cbn. f_equal. lia.
Qed.

(** Shifting a free list of the tail. *)
Lemma shift_freelist_wf fl delta hi :
  Freelist.wf fl → 0 ≤ delta → aligned delta → hi + delta < 2 ^ 64 →
  (∀ e, e ∈ Freelist.extents fl → e.1 + e.2 ≤ hi) →
  let fl' := Freelist.mk (shift_extents (Freelist.extents fl) delta) in
  Freelist.wf fl' ∧ ∀ x, Freelist.covers fl' x ↔ Freelist.covers fl (x - delta).
Proof.
  intros [Hs He Ha] Hd Hda Hhi Hle. destruct (shift_extents_spec (Freelist.extents fl) delta Hs) as [Hs' Hin].
  split; [split; cbn; [done|..]|].
  - intros e He'%Hin. pose proof (He _ He') as (?&?&?&?&?). specialize (Hle _ He'). cbn in *.
    split_and!; (lia || done || align_lia).
  - intros e e' H1%Hin H2%Hin Hlt. specialize (Ha _ _ H1 H2). cbn in Ha. lia.
  - intros x. unfold Freelist.covers; cbn. setoid_rewrite Hin. cbn. split.
    + intros (s&l&Hsl&?). exists (s - delta), l. split; [done|lia].
    + intros (s&l&Hsl&?). exists (s + delta), l. replace (s + delta - delta) with s by lia.
      split; [done|lia].
Qed.

Lemma shift_rep a b live packed delta :
  inv a b live packed → Backend.len b ≤ tail_low a + delta → aligned delta → 0 ≤ delta →
  Backend.len b + delta < 2 ^ 63 →
  let a' := shift_eviction_tail_bookkeeping a delta in
  rep a' (relocate delta <$> live) ∧
  ∀ r x, Freelist.covers (freelist_for a' r) x ↔ Freelist.covers (freelist_for a r) (before delta r x).
Proof.
  intros Hi Hdl Hda Hd0 Hlen. pose proof (i_rep _ _ _ _ Hi) as [Hsort Htags Hfree].
  unfold shift_eviction_tail_bookkeeping.
  set (addrs := fst <$> filter _ _).
  assert (∀ x, x ∈ addrs ↔ ∃ n, mkBlock x n EvictionTail ∈ live) as Haddrs.
  { intros x. rewrite <-Htags. unfold addrs. rewrite list_elem_of_fmap.
    setoid_rewrite list_elem_of_filter. setoid_rewrite BTreeMap.elem_of_range_from. split.
    - intros ([x' r]&->&Hr&Hin&_). cbn in *. by subst r.
    - intros Hin. exists (x, EvictionTail). split_and!; [done..|]. cbn.
      apply Htags in Hin as [n Hin]. by eapply live_tail_range. }
  destruct (shift_tags_spec addrs delta (region_tags a)) as [Hs' Hin'].
  - done.
  - apply BTreeMap.sorted_keys_nodup, BTreeMap.sorted_filter, BTreeMap.sorted_filter. done.
  - intros x [n Hn]%Haddrs [n' Hn']%Haddrs.
    pose proof (live_tail_range _ _ _ _ _ _ Hi Hn). pose proof (live_tail_range _ _ _ _ _ _ Hi Hn').
    lia.
  - intros x r [n Hx]%Haddrs [n' Hx']%Htags. pose proof (live_tail_range _ _ _ _ _ _ Hi Hx).
    destruct (g_blocks _ _ _ _ _ (i_geo _ _ _ _ Hi) _ Hx') as [_ Hs Hz]. cbn in *.
    specialize (Hz (x + delta)). unfold in_block in Hz. cbn in Hz.
    pose proof (g_marks _ _ _ _ _ (i_geo _ _ _ _ Hi)). pose proof (i_top _ _ _ _ Hi).
    destruct r; cbn in Hz; lia.
  - destruct (shift_freelist_wf (free_tail a) delta (Backend.len b)) as [Hwf' Hcov].
    + apply (Hfree EvictionTail).
    + done.
    + done.
    + lia.
    + intros e He. by eapply tail_extent_range.
    + split; [split; [done| |]|].
      * intros x r. cbn. rewrite Hin', !Haddrs, Htags. setoid_rewrite elem_of_relocate.
        destruct r; cbn; [| |naive_solver].
        all: split; [intros [[? _]|[_ ?]]; done|]; intros [n Hn]; left; split; [eauto|].
        all: intros [n' Hn']; pose proof (live_tail_range _ _ _ _ _ _ Hi Hn').
        all: destruct (g_blocks _ _ _ _ _ (i_geo _ _ _ _ Hi) _ Hn) as [_ Hs Hz]; cbn in *.
        all: specialize (Hz x); unfold in_block in Hz; cbn in Hz.
        all: pose proof (g_marks _ _ _ _ _ (i_geo _ _ _ _ Hi)); lia.
      * intros []; [apply (Hfree CatalogHead)|apply (Hfree LiveMid)|done].
      * intros [] x; cbn; [done..|]. apply Hcov.
Qed.

(** ** Growing the store *)

(** Run the monadic code of the allocator. *)
Ltac st_unfold :=
  unfold mbind, St_bind, res_bind, mret, St_ret, lift, get_st, on_backend, on_alloc; cbv beta iota.

(** An empty tail has nothing to relocate. *)
Lemma empty_tail a b live packed delta :
  inv a b live packed → tail_low a = Backend.len b →
  relocate delta <$> live = live ∧
  ∀ r x, Freelist.covers (freelist_for a r) x ↔ Freelist.covers (freelist_for a r) (before delta r x).
Proof.
  intros Hi Ht. split.
  - rewrite <-(list_fmap_id live) at 2. apply list_fmap_ext. intros i [x n r] Hl.
    apply list_elem_of_lookup_2 in Hl. destruct r; [done..|].
    pose proof (live_tail_range _ _ _ _ _ _ Hi Hl). lia.
  - intros [] x; cbn; [done..|].
    split; intros (s&l&He&?); pose proof (tail_extent_range _ _ _ _ _ Hi He); cbn in *; lia.
Qed.

(** The bytes after a grow: what lay below the tail stays, what lay from the
    tail on is found [delta] higher. *)
Definition moved (tail old_len delta : Z) (b b' : Backend.t) : Prop :=
  (∀ x, x < tail → Backend.byte_at b' x = Backend.byte_at b x) ∧
  (∀ x, tail ≤ x < old_len → Backend.byte_at b' (x + delta) = Backend.byte_at b x).

Lemma move_tail_copy b b1 tail old_len delta clear a :
  Backend.wf b1 → tail_low a = tail → old_len = Backend.len b → Backend.len b1 = old_len + delta →
  0 ≤ tail < old_len → old_len ≤ tail + delta →
  (∀ x, x < old_len → Backend.byte_at b1 x = Backend.byte_at b x) →
  ∃ b', move_tail old_len delta clear (a, b1) =
          (Ok (), (shift_eviction_tail_bookkeeping a delta, b')) ∧
    Backend.wf b' ∧ Backend.len b' = Backend.len b1 ∧ Backend.no_grow b' = Backend.no_grow b1 ∧
    moved tail old_len delta b b'.
Proof.
  intros Hwf <- -> Hlen Ht Hd Hb1. pose proof (Backend.wf_len_nonneg b1 Hwf).
  set (old := Backend.contents b1 (tail_low a) (Backend.len b - tail_low a)).
  assert (blen old = Backend.len b - tail_low a) as Hold.
  { unfold old, Backend.contents, blen. rewrite length_take, length_drop.
    destruct Hwf as [Hw _]. unfold blen in Hw. lia. }
  assert (∀ x, tail_low a ≤ x < Backend.len b →
    old !! Z.to_nat (x - tail_low a) = Backend.byte_at b x) as Hbytes.
  { intros x Hx. unfold old. rewrite Backend.contents_lookup by lia.
    rewrite decide_True, Z2Nat.id, Hb1 by lia. f_equal. lia. }
  destruct (Backend.write_at_ok b1 (tail_low a + delta) old) as (b2&Hw2&Hwf2&Hl2&Hg2&Hb2); [done|lia|lia|].
  assert (moved (tail_low a) (Backend.len b) delta b b2) as [Hm1 Hm2].
  { split; intros x Hx; rewrite Hb2.
    - rewrite decide_False by lia. apply Hb1. lia.
    - rewrite decide_True by lia. rewrite <-Hbytes by done. f_equal. lia. }
  unfold move_tail. st_unfold. replace (tail_low a <? Backend.len b) with true by lia.
  rewrite (Backend.read_at_ok b1) by (done || lia). fold old. rewrite add64_ok by lia.
  rewrite Hw2. destruct clear.
  - replace (Z.min (Backend.len b) (tail_low a + delta)) with (Backend.len b) by lia.
    set (z := zeros _). assert (blen z = Backend.len b - tail_low a) as Hz
      by (unfold z, zeros; rewrite blen_replicate; lia).
    destruct (Backend.write_at_ok b2 (tail_low a) z) as (b3&Hw3&Hwf3&Hl3&Hg3&Hb3); [done|lia|lia|].
    rewrite Hw3. exists b3. split_and!; [done|done|congruence|congruence|].
    split; intros x Hx; rewrite Hb3, decide_False by lia; auto.
  - by exists b2.
Qed.

Lemma session_relocate a a' live packed delta :
  session a live packed → deferred_free a' = deferred_free a → open_pack a' = open_pack a →
  session a' (relocate delta <$> live) packed.
Proof.
  intros [Hd Hnd Hp Hpd Ho] Ed Eo.
  assert (∀ base, pack_block base ∈ live → pack_block base ∈ relocate delta <$> live)
    by (intros base ?; by apply elem_of_relocate).
  split; rewrite ?Ed, ?Eo; [|done|naive_solver|done|naive_solver].
  intros loc (r&Hr&Hin)%Hd. exists r. split; [done|]. apply elem_of_relocate. by destruct r.
Qed.

(** The outcome of growing by [delta]. *)
Record grown (delta : Z) (a : t) (b : Backend.t) (a' : t) (b' : Backend.t) : Prop := {
  gr_delta : 0 < delta ∧ aligned delta;
  gr_backend : Backend.wf b' ∧ Backend.len b' = Backend.len b + delta ∧ Backend.no_grow b = false;
  gr_alloc : ∃ tags ft, a' = set_wal (set_tail_low (set_freelists (set_tags a tags)
      (free_head a) (free_live a) ft) (tail_low a + delta))
      ((λ w, w + delta) <$> wal_reservation_start a);
  gr_bytes : moved (tail_low a) (Backend.len b) delta b b';
}.

(** The tail and its bookkeeping after the copy; the watermark is still to
    move. *)
Lemma move_tail_spec a b b1 live packed delta clear :
  inv a b live packed → Backend.wf b1 → Backend.len b1 = Backend.len b + delta →
  0 < delta → aligned delta → Backend.len b ≤ tail_low a + delta →
  (∀ x, x < Backend.len b → Backend.byte_at b1 x = Backend.byte_at b x) →
  ∃ tags ft b', let a' := set_freelists (set_tags a tags) (free_head a) (free_live a) ft in
    move_tail (Backend.len b) delta clear (a, b1) = (Ok (), (a', b')) ∧
    Backend.wf b' ∧ Backend.len b' = Backend.len b1 ∧ Backend.no_grow b' = Backend.no_grow b1 ∧
    moved (tail_low a) (Backend.len b) delta b b' ∧
    rep a' (relocate delta <$> live) ∧
    ∀ r x, Freelist.covers (freelist_for a' r) x ↔ Freelist.covers (freelist_for a r) (before delta r x).
Proof.
  intros Hi Hwf1 Hl1 Hd Hda Hdl Hb1. pose proof (Backend.wf_len_nonneg b1 Hwf1).
  pose proof (g_marks _ _ _ _ _ (i_geo _ _ _ _ Hi)) as Hm. pose proof (i_top _ _ _ _ Hi).
  destruct (decide (tail_low a < Backend.len b)).
  - destruct (move_tail_copy b b1 (tail_low a) (Backend.len b) delta clear a)
      as (b'&->&?&?&?&?); [done..|unfold BASE_BLOCK in *; lia|done|done|].
    destruct (shift_rep a b live packed delta) as [Hrep Hcov]; [done..|lia|lia|].
    eexists _, _, b'. split_and!; [done..|exact Hrep|exact Hcov].
  - destruct (empty_tail a b live packed delta) as [-> Hcov]; [done|lia|].
    exists (region_tags a), (free_tail a), b1. unfold move_tail. st_unfold.
    replace (tail_low a <? Backend.len b) with false by lia.
    pose proof (i_rep _ _ _ _ Hi). destruct a. cbn in *.
    split_and!; [done..| |done|done]. split; [|lia]. intros. apply Hb1. lia.
Qed.

Lemma grown_inv a b live packed delta a1 b' wal' :
  inv a b live packed → 0 < delta → aligned delta →
  Backend.wf b' → Backend.len b' = Backend.len b + delta →
  wal' = (λ w, w + delta) <$> wal_reservation_start a →
  (∃ tags ft, a1 = set_freelists (set_tags a tags) (free_head a) (free_live a) ft) →
  rep a1 (relocate delta <$> live) →
  (∀ r x, Freelist.covers (freelist_for a1 r) x ↔ Freelist.covers (freelist_for a r) (before delta r x)) →
  inv (set_wal (set_tail_low a1 (tail_low a + delta)) wal') b' (relocate delta <$> live) packed.
Proof.
  intros Hi Hd Hda Hwf Hl -> (tags&ft&->) [Hs Ht Hf] Hcov.
  assert (top (set_wal (set_tail_low a (tail_low a + delta))
            ((λ w, w + delta) <$> wal_reservation_start a)) b' = top a b + delta) as Htop.
  { unfold top. cbn. destruct (wal_reservation_start a); cbn; lia. }
  pose proof (i_top _ _ _ _ Hi). pose proof (i_backend _ _ _ _ Hi) as [_ ?]. split.
  - split; [done|]. rewrite Hl. align_lia.
  - apply (i_start _ _ _ _ Hi).
  - unfold top in *. cbn in *. lia.
  - unfold top in *. cbn in *. rewrite Htop. eapply geo_grow; [apply (i_geo _ _ _ _ Hi)|lia|done|].
    intros r x. specialize (Hcov r x). by destruct r.
  - split; [done..|]. intros r. specialize (Hf r). by destruct r.
  - eapply session_relocate; [apply (i_session _ _ _ _ Hi)|done..].
Qed.

Lemma grow_for_spec a b live packed needed :
  inv a b live packed → 0 < needed ≤ 2 ^ 32 →
  match grow_for needed (a, b) with
  | (Ok _, (a', b')) => ∃ delta, grown delta a b a' b' ∧
      inv a' b' (relocate delta <$> live) packed ∧ live_hwm a' + needed ≤ tail_low a'
  | (Err e, s') => e = Io StorageFull ∧ Backend.no_grow b = true ∧ s' = (a, b)
  | (Panic, _) => 2 ^ 61 ≤ Backend.len b
  end.
Proof.
  intros Hi Hn. pose proof (i_geo _ _ _ _ Hi) as Hg. pose proof (i_backend _ _ _ _ Hi) as [Hwf Hla].
  pose proof (Backend.wf_len_nonneg b Hwf).
  pose proof (g_marks _ _ _ _ _ Hg) as Hm. pose proof (i_top _ _ _ _ Hi) as Htop.
  unfold grow_for. st_unfold. set (want := Z.max (Z.max _ _) _).
  assert (needed - (tail_low a - live_hwm a) ≤ want ∧ Backend.len b - tail_low a ≤ want ∧ 0 < want
    ∧ want ≤ Z.max (2 ^ 32) (Backend.len b)) as (Hw1&Hw2&Hw3&Hw4).
  { unfold want, sat_sub, GROW_CHUNK, BASE_BLOCK in *. lia. }
  clearbody want. destruct (round_up_spec want) as [Hd Hda]; [lia|].
  set (delta := round_up_to_block want) in *. unfold BASE_BLOCK in Hd. clearbody delta.
  destruct (decide (Backend.len b + delta < 2 ^ 64)) as [Hlt|];
    [|unfold add64; replace (Backend.len b + delta <? 2 ^ 64) with false by lia; lia].
  rewrite add64_ok by done.
  destruct (Backend.grow_cases b (Backend.len b + delta))
    as [[Eg ->]|[(Eg&?&->)|(Eg&b1&->&Hwf1&Hl1&_&Hb1)]]; [done|lia|done|lia|].
  pose proof (Backend.wf_len_nonneg b1 Hwf1).
  destruct (move_tail_spec a b b1 live packed delta (bool_decide (wal_reservation_start a = None)))
    as (tags&ft&b'&Heq&Hwf'&Hl'&_&Hmoved&Hrep&Hcov); [done|done|lia|lia|done|lia| |].
  { intros x ?. rewrite Hb1, decide_False by lia. done. }
  destruct (wal_reservation_start a) as [w|] eqn:Ew; cbn [bool_decide] in Heq.
  - assert (w + delta ≤ Backend.len b + delta) by (unfold top in Htop; rewrite Ew in Htop; cbn in Htop; lia).
    rewrite bool_decide_false in Heq by done. rewrite Heq. rewrite add64_ok by (cbn; lia).
    rewrite add64_ok by lia. cbn [tail_low set_freelists set_tags].
    exists delta. split; [split|split].
    + split; [lia|done].
    + split_and!; [done|lia|done].
    + exists tags, ft. by rewrite Ew.
    + done.
    + eapply grown_inv; [done|lia|done|done|lia|by rewrite Ew|by eexists _, _|done|done].
    + cbn. lia.
  - rewrite bool_decide_true in Heq by done. rewrite Heq. rewrite add64_ok by (cbn; lia).
    cbn [tail_low set_freelists set_tags].
    assert (∀ a1 : t, wal_reservation_start a1 = None → set_wal a1 None = a1) as Hnone
      by (intros [] E; cbn in E; by subst).
    rewrite <-(Hnone (set_tail_low _ _)) by done.
    exists delta. split; [split|split].
    + split; [lia|done].
    + split_and!; [done|lia|done].
    + exists tags, ft. by rewrite Ew.
    + done.
    + eapply grown_inv; [done|lia|done|done|lia|by rewrite Ew|by eexists _, _|done|done].
    + cbn. lia.
Qed.

(** ** Allocation *)

Lemma relocate_0 (live : list Block) : relocate 0 <$> live = live.
Proof.
  rewrite <-(list_fmap_id live) at 2. apply list_fmap_ext. intros i [x n []] _; [done..|].
  unfold relocate. cbn. by rewrite Z.add_0_r.
Qed.

Lemma geo_fresh hwm tail top free blk live n r :
  geo hwm tail top free (blk :: live) → mkBlock (b_addr blk) n r ∉ live.
Proof.
  intros [_ _ Hb [Hd _] _ _ _] Hin. rewrite Forall_forall in Hd.
  pose proof (bo_size _ _ _ _ (Hb _ ltac:(by left))).
  pose proof (bo_size _ _ _ _ (Hb _ ltac:(by right; exact Hin))). cbn in *.
  apply (Hd _ Hin (b_addr blk)); unfold in_block; cbn; lia.
Qed.

Lemma session_mono a a' live live' packed :
  session a live packed → live ⊆ live' → deferred_free a' = deferred_free a →
  open_pack a' = open_pack a → session a' live' packed.
Proof.
  intros [Hd Hnd Hp Hpd Ho] Hl Ed Eo.
  split; rewrite ?Ed, ?Eo; [|done| |done|]; naive_solver.
Qed.

(** Handing out [blk]: the marks and free lists have changed so that the
    geometry holds with it, and its address is tagged. *)
Lemma inv_add a a' b live packed blk :
  inv a b live packed →
  geo (live_hwm a') (tail_low a') (top a' b) (λ r, Freelist.covers (freelist_for a' r)) (blk :: live) →
  (∀ r, Freelist.wf (freelist_for a' r)) →
  region_tags a' = BTreeMap.insert (region_tags a) (b_addr blk) (b_region blk) →
  data_start a' = data_start a → wal_reservation_start a' = wal_reservation_start a →
  deferred_free a' = deferred_free a → open_pack a' = open_pack a →
  inv a' b (blk :: live) packed.
Proof.
  intros Hi Hg Hf Et Es Ew Ed Eo. pose proof (i_rep _ _ _ _ Hi) as [Hsort Htags _]. split.
  - apply (i_backend _ _ _ _ Hi).
  - rewrite Es. apply (i_start _ _ _ _ Hi).
  - unfold top. rewrite Ew. apply (i_top _ _ _ _ Hi).
  - done.
  - split; [rewrite Et; auto| |done].
    intros x r. rewrite Et, BTreeMap.elem_of_insert, Htags by done. cbn.
    setoid_rewrite elem_of_cons. destruct blk as [x' n' r']; cbn in *. split.
    + intros [[= -> ->]|[[n Hn] _]]; eauto.
    + intros [n [[= -> -> ->]|Hn]]; [by left|]. right. split; [eauto|].
      intros ->. by eapply (geo_fresh _ _ _ _ (mkBlock x' n' r')).
  - eapply session_mono; [apply (i_session _ _ _ _ Hi)|set_solver|done..].
Qed.

Lemma freelist_for_set a r fl r' :
  freelist_for (set_freelist_for a r fl) r' = if decide (r' = r) then fl else freelist_for a r'.
Proof. by destruct r, r'. Qed.

Lemma inv_take a b live packed r x n l :
  inv a b live packed → (x, l) ∈ Freelist.extents (freelist_for a r) →
  0 < n ≤ l → aligned n →
  ∃ fl, Freelist.remove_range (freelist_for a r) x n = Ok fl ∧
    inv (set_tags (set_freelist_for a r fl) (BTreeMap.insert (region_tags a) x r)) b
        (mkBlock x n r :: live) packed.
Proof.
  intros Hi Hin Hn Hna. pose proof (i_rep _ _ _ _ Hi) as [Hsort Htags Hfree].
  pose proof (Freelist.wf_extents _ (Hfree r) _ Hin) as (_&_&Hxa&_&_). cbn in Hxa.
  destruct (Freelist.remove_range_ok (freelist_for a r) x n x l) as (fl&->&Hwf&Hcov);
    [done || lia..|].
  exists fl. split; [done|]. set (a' := set_tags _ _).
  assert (∀ r', freelist_for a' r' = if decide (r' = r) then fl else freelist_for a r') as Hfl
    by (intros r'; rewrite <-freelist_for_set; by destruct r).
  assert (∀ y, in_block (mkBlock x n r) y → Freelist.covers (freelist_for a r) y) as Hc.
  { unfold in_block. cbn. intros y Hy. exists x, l. split; [done|lia]. }
  assert (live_hwm a' = live_hwm a ∧ tail_low a' = tail_low a ∧ top a' b = top a b) as (Eh&El&Et)
    by by destruct r.
  eapply inv_add; [exact Hi| | |by destruct r..].
  - rewrite Eh, El, Et. eapply (geo_take _ _ _ (λ r, Freelist.covers (freelist_for a r)));
      [apply (i_geo _ _ _ _ Hi)| |exact Hc|].
    + split; cbn; [done|lia|]. intros y Hy%Hc. by apply (g_free_zone _ _ _ _ _ (i_geo _ _ _ _ Hi)).
    + intros r' y. cbn. rewrite Hfl. case_decide as Hr; [|naive_solver].
      subst. rewrite Hcov. unfold in_block. cbn. tauto.
  - intros r'. rewrite Hfl. case_decide; auto.
Qed.

(** The outcome of an allocation: the store may have grown by [delta]. *)
Definition allocated (a : t) (b : Backend.t) (live packed : list Block) (len : Z) (r : Region)
    (loc : BlockLoc) (a' : t) (b' : Backend.t) : Prop :=
  ∃ delta, 0 ≤ delta ∧ Backend.len b' = Backend.len b + delta ∧
    moved (tail_low a) (Backend.len b) delta b b' ∧
    blk_len loc = len ∧ inv a' b' (block_of loc r :: (relocate delta <$> live)) packed ∧
    reclaim_floor a' = reclaim_floor a ∧ deferred_free a' = deferred_free a ∧
    open_pack a' = open_pack a ∧ live_hwm a ≤ live_hwm a'.

(** A grow if the frontiers would collide. *)
Lemma ensure_slack a b live packed needed :
  inv a b live packed → 0 < needed ≤ 2 ^ 32 →
  match (if tail_low a <? live_hwm a + needed then grow_for needed else mret ()) (a, b) with
  | (Ok _, (a', b')) => ∃ delta, 0 ≤ delta ∧ Backend.len b' = Backend.len b + delta ∧
      moved (tail_low a) (Backend.len b) delta b b' ∧
      inv a' b' (relocate delta <$> live) packed ∧ live_hwm a' + needed ≤ tail_low a' ∧
      reclaim_floor a' = reclaim_floor a ∧
      deferred_free a' = deferred_free a ∧ open_pack a' = open_pack a ∧ live_hwm a' = live_hwm a
  | (Err e, s') => e = Io StorageFull ∧ Backend.no_grow b = true ∧ s' = (a, b)
  | (Panic, _) => 2 ^ 61 ≤ Backend.len b
  end.
Proof.
  intros Hi Hn. destruct (Z.ltb_spec (tail_low a) (live_hwm a + needed)).
  - pose proof (grow_for_spec a b live packed needed Hi Hn) as Hg.
    destruct (grow_for needed (a, b)) as [[] [a' b']]; [|done..].
    destruct Hg as (delta&[[??] (?&?&?) (tags&ft&->) ?]&?&?).
    exists delta. split_and!; done || lia.
  - cbn. exists 0. rewrite relocate_0. split_and!; [lia|lia| |done|lia|done..].
    split; [done|]. intros x ?. by rewrite Z.add_0_r.
Qed.

Lemma bind_run {S A B} (m : St S A) (f : A → St S B) s :
  (m ≫= f) s = match m s with
               | (Ok a, s') => f a s'
               | (Err e, s') => (Err e, s')
               | (Panic, s') => (Panic, s')
               end.
Proof. done. Qed.

(** One statement of the allocator's code. *)
Ltac st_step := rewrite bind_run; unfold get_st, lift, on_alloc, tag; cbv beta iota.

Lemma inv_small a b live packed :
  inv a b live packed → 0 ≤ live_hwm a ≤ tail_low a ∧ tail_low a ≤ Backend.len b < 2 ^ 63.
Proof.
  intros Hi. pose proof (i_backend _ _ _ _ Hi) as [Hwf _]. pose proof (Backend.wf_len_nonneg b Hwf).
  pose proof (g_marks _ _ _ _ _ (i_geo _ _ _ _ Hi)). pose proof (i_top _ _ _ _ Hi).
  unfold BASE_BLOCK in *. lia.
Qed.

(** The marks after a bump of the forward frontier by [n]. *)
Definition bumped (a : t) (n : Z) (r : Region) : t :=
  let base := if bool_decide (r = LiveMid) && (live_base a =? LIVE_BASE_UNSET)
              then live_hwm a else live_base a in
  set_marks a (Z.max (head_hwm a) (live_hwm a + n)) base (live_hwm a + n) (tail_low a).

Lemma bump_forward_run a b n r :
  live_hwm a + n < 2 ^ 64 →
  bump_forward n r (a, b) =
    match (if tail_low a <? live_hwm a + n then grow_for n else mret ()) (a, b) with
    | (Ok _, (a1, b1)) =>
        if live_hwm a1 + n <? 2 ^ 64 then (Ok (live_hwm a1), (bumped a1 n r, b1))
        else (Panic, (if bool_decide (r = LiveMid) && (live_base a1 =? LIVE_BASE_UNSET)
                      then set_marks a1 (head_hwm a1) (live_hwm a1) (live_hwm a1) (tail_low a1)
                      else a1, b1))
    | (Err e, s) => (Err e, s)
    | (Panic, s) => (Panic, s)
    end.
Proof.
  intros Hlt. unfold bump_forward. do 2 st_step. rewrite add64_ok by done. st_step.
  destruct ((if tail_low a <? live_hwm a + n then grow_for n else mret ()) (a, b)) as [[] [a1 b1]]; [|done..].
  do 2 st_step. unfold bumped, add64.
  destruct (bool_decide (r = LiveMid) && (live_base a1 =? LIVE_BASE_UNSET)); cbn [live_hwm set_marks].
  all: st_step; destruct (live_hwm a1 + n <? 2 ^ 64); [|done]; by st_step.
Qed.

Lemma bump_tail_run a b n :
  live_hwm a + n < 2 ^ 64 →
  bump_tail n (a, b) =
    match (if tail_low a <? live_hwm a + n then grow_for n else mret ()) (a, b) with
    | (Ok _, (a1, b1)) =>
        if n <=? tail_low a1 then (Ok (tail_low a1 - n), (set_tail_low a1 (tail_low a1 - n), b1))
        else (Panic, (a1, b1))
    | (Err e, s) => (Err e, s)
    | (Panic, s) => (Panic, s)
    end.
Proof.
  intros Hlt. unfold bump_tail. do 2 st_step. rewrite add64_ok by done. st_step.
  destruct ((if tail_low a <? live_hwm a + n then grow_for n else mret ()) (a, b)) as [[] [a1 b1]]; [|done..].
  do 2 st_step. unfold sub64. by destruct (n <=? tail_low a1).
Qed.

Lemma inv_bumped a b live packed n r :
  inv a b live packed → r ≠ EvictionTail → 0 < n → aligned n → live_hwm a + n ≤ tail_low a →
  inv (set_tags (bumped a n r) (BTreeMap.insert (region_tags a) (live_hwm a) r)) b
      (mkBlock (live_hwm a) n r :: live) packed.
Proof.
  intros Hi Hr Hn Hna Hle. eapply inv_add; [exact Hi| |..]; try done.
  - pose proof (geo_forward _ _ _ _ _ n r (i_geo _ _ _ _ Hi) Hr Hn Hna Hle) as Hg.
    by destruct a.
  - intros r'. pose proof (r_free _ _ (i_rep _ _ _ _ Hi) r'). by destruct r'.
Qed.

Lemma inv_lowered a b live packed n :
  inv a b live packed → 0 < n → aligned n → live_hwm a + n ≤ tail_low a →
  inv (set_tags (set_tail_low a (tail_low a - n))
         (BTreeMap.insert (region_tags a) (tail_low a - n) EvictionTail)) b
      (mkBlock (tail_low a - n) n EvictionTail :: live) packed.
Proof.
  intros Hi Hn Hna Hle. eapply inv_add; [exact Hi| |..]; try done.
  - pose proof (geo_tail _ _ _ _ _ n (i_geo _ _ _ _ Hi) Hn Hna Hle) as Hg. by destruct a.
  - intros r'. pose proof (r_free _ _ (i_rep _ _ _ _ Hi) r'). by destruct r'.
Qed.

Lemma alloc_aligned_spec a b live packed len r :
  inv a b live packed → u32 len →
  match alloc_aligned len r (a, b) with
  | (Ok loc, (a', b')) => allocated a b live packed len r loc a' b'
  | (Err e, s') => e = Io StorageFull ∧ Backend.no_grow b = true ∧ s' = (a, b)
  | (Panic, _) => 2 ^ 61 ≤ Backend.len b
  end.
Proof.
  intros Hi Hlen. destruct (footprint_spec len Hlen) as (_&Hn&Hna).
  pose proof (inv_small _ _ _ _ Hi). unfold alloc_aligned. st_step.
  destruct (Freelist.first_fit (freelist_for a r) (footprint len)) as [x|] eqn:Eff.
  - apply Freelist.first_fit_Some in Eff as (l&Hin&Hl&_); [|apply (r_free _ _ (i_rep _ _ _ _ Hi))].
    destruct (inv_take a b live packed r x (footprint len) l) as (fl&Hrr&Hi'); [done|done|lia|done|].
    st_step. rewrite Hrr. cbn [mbind res_bind]. st_step.
    exists 0. rewrite relocate_0. split_and!; [lia|lia| |done| |by destruct r..].
    + split; [done|]. intros y ?. by rewrite Z.add_0_r.
    + replace (region_tags (set_freelist_for a r fl)) with (region_tags a) by by destruct r. done.
  - pose proof (ensure_slack a b live packed (footprint len) Hi ltac:(lia)) as Hens.
    st_step. destruct r.
    1, 2: rewrite bump_forward_run by lia.
    3: rewrite bump_tail_run by lia.
    all: destruct ((if tail_low a <? _ then grow_for _ else mret ()) (a, b)) as [[] [a1 b1]]; [|done..].
    all: destruct Hens as (delta&?&?&?&Hi1&Hsl&?&?&?&?); pose proof (inv_small _ _ _ _ Hi1).
    1, 2: replace (live_hwm a1 + footprint len <? 2 ^ 64) with true by lia.
    3: replace (footprint len <=? tail_low a1) with true by lia.
    all: st_step; exists delta; split_and!; try done; try (cbn; lia).
    + by apply (inv_bumped a1 b1); [| |lia|..].
    + by apply (inv_bumped a1 b1); [| |lia|..].
    + by apply (inv_lowered a1 b1); [|lia|..].
Qed.

(** ** Freeing *)

#[global] Instance geo_perm hwm tail top free : Proper ((≡ₚ) ==> iff) (geo hwm tail top free).
Proof.
  intros l l' Hp. split; intros [??????]; split; auto; try (by rewrite <-Hp); try (by rewrite Hp).
  all: intros *; (rewrite <-Hp || rewrite Hp); eauto.
Qed.

(** The payloads that survive the release of [blk]. *)
Definition drop_pieces (blk : Block) (packed : list Block) : list Block :=
  filter (λ p, ¬ (b_addr blk ≤ b_addr p < b_addr blk + b_size blk)) packed.

Lemma pack_close_fields a x n :
  let a' := pack_close_if_freed a x n in
  live_hwm a' = live_hwm a ∧ tail_low a' = tail_low a ∧ data_start a' = data_start a ∧
  wal_reservation_start a' = wal_reservation_start a ∧ region_tags a' = region_tags a ∧
  (∀ r, freelist_for a' r = freelist_for a r) ∧ deferred_free a' = deferred_free a ∧
  reclaim_floor a' = reclaim_floor a.
Proof.
  unfold pack_close_if_freed. destruct (open_pack a) as [[base used]|]; [case_match|]; cbn.
  all: split_and!; try done. all: by intros [].
Qed.

Lemma pack_close_open a x n base used :
  open_pack (pack_close_if_freed a x n) = Some (base, used) →
  open_pack a = Some (base, used) ∧ ¬ (x < base + BASE_BLOCK ∧ base < x + n).
Proof.
  unfold pack_close_if_freed. destruct (open_pack a) as [[base' used']|] eqn:E; [|by rewrite E].
  case_match eqn:Ec; cbn; [done|]. rewrite E. intros [= -> ->]. split; [done|]. lia.
Qed.

Lemma session_free a a' live live' packed blk :
  session a live packed → live ≡ₚ blk :: live' → all_disjoint live → 0 < b_size blk →
  b_addr blk ∉ addr <$> deferred_free a →
  deferred_free a' = deferred_free a →
  open_pack a' = open_pack (pack_close_if_freed a (b_addr blk) (b_size blk)) →
  session a' live' (drop_pieces blk packed).
Proof.
  intros [Hd Hnd Hp Hpd Ho] Hl Hdis Hsz Hfresh Ed Eo.
  assert (∀ b', b' ∈ live → b' ≠ blk → b' ∈ live') as Hkeep.
  { intros b'. rewrite Hl, elem_of_cons. naive_solver. }
  split; rewrite ?Ed, ?Eo; [|done| |by apply all_disjoint_filter|].
  - intros loc Hloc. destruct (Hd _ Hloc) as (r&?&Hin). exists r. split; [done|].
    apply Hkeep; [done|]. intros <-. apply Hfresh. apply list_elem_of_fmap. by exists loc.
  - intros p [Hout Hin]%list_elem_of_filter. destruct (Hp _ Hin) as (?&base&Hb&?&?).
    split; [done|]. exists base. split_and!; [|done..]. apply Hkeep; [done|].
    intros <-. cbn in *. lia.
  - intros base used [Hop Hno]%pack_close_open. destruct (Ho _ _ Hop) as (?&Hb&Hx).
    split_and!; [lia..| |].
    + apply Hkeep; [done|]. intros <-. cbn in *. unfold BASE_BLOCK in *. lia.
    + intros p x [_ ?]%list_elem_of_filter. by apply Hx.
Qed.

Lemma live_extent_ok a b live packed blk :
  inv a b live packed → blk ∈ live → Freelist.extent_ok (b_addr blk, b_size blk).
Proof.
  intros Hi Hin. destruct (g_blocks _ _ _ _ _ (i_geo _ _ _ _ Hi) blk Hin) as [[??] ? Hz].
  pose proof (inv_small _ _ _ _ Hi). pose proof (i_top _ _ _ _ Hi).
  pose proof (Hz (b_addr blk)) as Hz1. pose proof (Hz (b_addr blk + b_size blk - 1)) as Hz2.
  unfold in_block in Hz1, Hz2.
  split_and!; cbn; try done; destruct (b_region blk); cbn in *; unfold BASE_BLOCK in *; lia.
Qed.

(** Taking back [blk]: the dual of [inv_add]. *)
Lemma inv_remove a a' b live live' packed blk :
  inv a b live packed → live ≡ₚ blk :: live' →
  (∀ r x, Freelist.covers (freelist_for a' r) x →
     Freelist.covers (freelist_for a r) x ∨ r = b_region blk ∧ in_block blk x) →
  (∀ r, Freelist.wf (freelist_for a' r)) →
  region_tags a' = BTreeMap.remove (region_tags a) (b_addr blk) →
  live_hwm a' = live_hwm a → tail_low a' = tail_low a → data_start a' = data_start a →
  wal_reservation_start a' = wal_reservation_start a → deferred_free a' = deferred_free a →
  b_addr blk ∉ addr <$> deferred_free a →
  open_pack a' = open_pack (pack_close_if_freed a (b_addr blk) (b_size blk)) →
  inv a' b live' (drop_pieces blk packed).
Proof.
  intros Hi Hl Hcov Hwf Etags Eh Et Es Ew Ed Hnd Eo.
  pose proof (i_rep _ _ _ _ Hi) as [Hsort Htags _].
  pose proof (i_geo _ _ _ _ Hi) as Hg. rewrite Hl in Hg.
  destruct (g_blocks _ _ _ _ _ Hg blk ltac:(by left)) as [_ Hsz _]. split.
  - apply (i_backend _ _ _ _ Hi).
  - rewrite Es. apply (i_start _ _ _ _ Hi).
  - unfold top. rewrite Ew. apply (i_top _ _ _ _ Hi).
  - unfold top. rewrite Eh, Et, Ew. by eapply geo_give.
  - split; [rewrite Etags; auto| |done].
    intros x r'. rewrite Etags, BTreeMap.elem_of_remove, Htags. cbn. setoid_rewrite Hl.
    setoid_rewrite elem_of_cons. split.
    + intros [[n [<-|Hn]] Hne]; [done|by exists n].
    + intros [n Hn]. split; [eauto|]. intros ->. by eapply (geo_fresh _ _ _ _ blk).
  - eapply session_free; [apply (i_session _ _ _ _ Hi)|done|apply (i_geo _ _ _ _ Hi)|done..].
Qed.

Lemma free_spec a b live live' packed loc r :
  inv a b live packed → live ≡ₚ block_of loc r :: live' →
  addr loc ∉ addr <$> deferred_free a →
  ∃ a', free a loc = Ok (true, a') ∧ inv a' b live' (drop_pieces (block_of loc r) packed) ∧
    deferred_free a' = deferred_free a ∧ reclaim_floor a' = reclaim_floor a.
Proof.
  intros Hi Hl Hnd. set (blk := block_of loc r) in *.
  pose proof (i_rep _ _ _ _ Hi) as [Hsort Htags Hfree].
  assert (blk ∈ live) as Hin by (rewrite Hl; by left).
  assert (BTreeMap.get (region_tags a) (addr loc) = Some r) as Hget.
  { apply BTreeMap.elem_of_get; [done|]. apply Htags. by exists (footprint (blk_len loc)). }
  unfold free. rewrite Hget.
  set (a1 := set_tags a (BTreeMap.remove (region_tags a) (addr loc))).
  destruct (pack_close_fields a1 (addr loc) (footprint (blk_len loc)))
    as (Eh&Et&Es&Ew&Etags&Efl&Ed&Er).
  set (a2 := pack_close_if_freed a1 (addr loc) (footprint (blk_len loc))) in *.
  assert (∀ r', freelist_for a2 r' = freelist_for a r') as Efl' by (intros []; apply Efl).
  destruct (Freelist.insert_ok (freelist_for a2 r) (addr loc) (footprint (blk_len loc)))
    as (fl&->&Hwf&Hcov); [by rewrite Efl'|apply (live_extent_ok _ _ _ _ _ Hi Hin)|].
  eexists. split; [done|].
  assert (∀ r', freelist_for (set_freelist_for a2 r fl) r' =
    if decide (r' = r) then fl else freelist_for a r') as Hfl.
  { intros r'. by rewrite freelist_for_set, Efl'. }
  split_and!; [|by destruct r..].
  eapply (inv_remove a _ b live); try done; [intros r' x|intros r'|try (by destruct r)..].
  - rewrite Hfl. case_decide; [|by left]. subst. rewrite Hcov, Efl'. intros [?|?]; [by left|by right].
  - rewrite Hfl. case_decide; auto.
  - transitivity (open_pack a2); [by destruct r|]. unfold a2, pack_close_if_freed. cbn.
    destruct (open_pack a) as [[base used]|] eqn:E; [|done]. by case_match; cbn; rewrite ?E.
Qed.

(** ** Packing *)

Lemma inv_pack a b live packed base used need :
  inv a b live packed → pack_block base ∈ live →
  0 ≤ used → 0 < need → used + need ≤ BASE_BLOCK →
  (∀ p x, p ∈ packed → in_block p x → base ≤ x < base + BASE_BLOCK → x < base + used) →
  inv (set_open_pack a (Some (base, used + need))) b live
      (mkBlock (base + used) need LiveMid :: packed).
Proof.
  intros Hi Hb Hu Hn Hle Hfree. destruct (i_session _ _ _ _ Hi) as [Hd Hnd Hp Hpd Ho].
  destruct Hi as [? ? ? Hg [? ? Hwf] _].
  split; [done|done|done|by destruct a|by destruct a|].
  split; [done|done| | |].
  - intros p [->|Hin]%elem_of_cons; [|by apply Hp]. cbn. split; [done|].
    exists base. split_and!; [done|lia|lia].
  - split; [|done]. apply Forall_forall. intros p Hin x Hx Hx'. unfold in_block in Hx. cbn in Hx.
    specialize (Hfree p x Hin Hx'). lia.
  - cbn. intros base' used' [= <- <-]. split_and!; [lia|lia|done|].
    intros p x [->|Hin]%elem_of_cons Hx ?.
    + unfold in_block in Hx. cbn in Hx. lia.
    + specialize (Hfree p x Hin Hx). lia.
Qed.

(** The open pack block has room for [need] more bytes. *)
Definition has_room (a : t) (need : Z) : bool :=
  match open_pack a with
  | Some (_, used) => used + need <=? BASE_BLOCK
  | None => false
  end.

Lemma alloc_packed_run a b need :
  0 < need < BASE_BLOCK →
  alloc_packed need (a, b) =
    match open_pack a with
    | Some (base, used) =>
        if used + need <=? BASE_BLOCK
        then (add64 base used, (set_open_pack a (Some (base, used + need)), b))
        else match alloc_aligned BASE_BLOCK LiveMid (a, b) with
             | (Ok loc, (a', b')) =>
                 (add64 (addr loc) 0, (set_open_pack a' (Some (addr loc, 0 + need)), b'))
             | (Err e, s) => (Err e, s)
             | (Panic, s) => (Panic, s)
             end
    | None => match alloc_aligned BASE_BLOCK LiveMid (a, b) with
              | (Ok loc, (a', b')) =>
                  (add64 (addr loc) 0, (set_open_pack a' (Some (addr loc, 0 + need)), b'))
              | (Err e, s) => (Err e, s)
              | (Panic, s) => (Panic, s)
              end
    end.
Proof.
  intros Hn. unfold alloc_packed. replace (negb _) with false by lia. do 2 st_step.
  destruct (open_pack a) as [[base used]|]; [destruct (used + need <=? BASE_BLOCK); [done|]|].
  all: rewrite bind_run.
  all: destruct (alloc_aligned BASE_BLOCK LiveMid (a, b)) as [[] [a' b']]; done.
Qed.

(** The outcomes of a packed allocation. *)
Definition packed_outcome (a : t) (b : Backend.t) (live packed : list Block) (need : Z)
    (r : res Z * (t * Backend.t)) : Prop :=
  match r with
  | (Ok x, (a', b')) =>
      let delta := Backend.len b' - Backend.len b in
      0 ≤ delta ∧ moved (tail_low a) (Backend.len b) delta b b' ∧
      inv a' b' (if has_room a need then live else pack_block x :: (relocate delta <$> live))
          (mkBlock x need LiveMid :: packed) ∧
      (if has_room a need then b' = b else True) ∧
      reclaim_floor a' = reclaim_floor a ∧ deferred_free a' = deferred_free a ∧
      live_hwm a ≤ live_hwm a'
  | (Err e, s') => e = Io StorageFull ∧ Backend.no_grow b = true ∧ s' = (a, b)
  | (Panic, _) => 2 ^ 61 ≤ Backend.len b
  end.

Lemma alloc_packed_spec a b live packed need :
  inv a b live packed → 0 < need < BASE_BLOCK →
  packed_outcome a b live packed need (alloc_packed need (a, b)).
Proof.
  intros Hi Hn. rewrite alloc_packed_run by done.
  pose proof (alloc_aligned_spec a b live packed BASE_BLOCK LiveMid Hi ltac:(by_compute)) as Hal.
  pose proof (i_session _ _ _ _ Hi) as [_ _ Hp _ Ho].
  assert (∀ loc a' b', allocated a b live packed BASE_BLOCK LiveMid loc a' b' →
    has_room a need = false → packed_outcome a b live packed need
      (add64 (addr loc) 0, (set_open_pack a' (Some (addr loc, 0 + need)), b'))) as Hfresh.
  { intros loc a' b' (delta&Hd&Hl&Hm&El&Hi'&Er&Ed&_&?) Hroom.
    unfold packed_outcome. rewrite Hroom.
    assert (block_of loc LiveMid = pack_block (addr loc)) as Eblk by (unfold block_of; by rewrite El).
    rewrite Eblk in Hi'. pose proof (live_extent_ok _ _ _ _ _ Hi' ltac:(by left)) as (?&?&_&_&?).
    cbn in *. rewrite add64_ok by (unfold BASE_BLOCK in *; lia). rewrite Hl, Z.add_0_r.
    replace (Backend.len b + delta - Backend.len b) with delta by lia. split_and!; try done.
    rewrite <-(Z.add_0_r (addr loc)) at 3. apply inv_pack; [done|by left|lia|lia|lia|].
    intros p x Hin Hx Hx'. exfalso. destruct (Hp p Hin) as (_&base&Hb&?&?).
    pose proof (g_disj _ _ _ _ _ (i_geo _ _ _ _ Hi')) as [Hdis _]. rewrite Forall_forall in Hdis.
    apply (Hdis (pack_block base)) with x; [by apply elem_of_relocate|done|].
    unfold in_block in *. cbn in *. lia. }
  unfold has_room in *. destruct (open_pack a) as [[base used]|] eqn:Eop.
  - destruct (Z.leb_spec (used + need) BASE_BLOCK) as [Hfit|Hfit].
    + destruct (Ho _ _ eq_refl) as (Hu&Hb&Hfree).
      pose proof (live_extent_ok _ _ _ _ _ Hi Hb) as (?&?&_&_&?). cbn in *.
      rewrite add64_ok by lia. unfold packed_outcome, has_room. rewrite Eop.
      replace (used + need <=? BASE_BLOCK) with true by lia.
      replace (Backend.len b - Backend.len b) with 0 by lia.
      split_and!; [done| |apply inv_pack; try done; lia|done..].
      split; [done|]. intros x ?. by rewrite Z.add_0_r.
    + destruct (alloc_aligned BASE_BLOCK LiveMid (a, b)) as [[] [a' b']]; auto.
  - destruct (alloc_aligned BASE_BLOCK LiveMid (a, b)) as [[] [a' b']]; auto.
Qed.

(** ** Releasing by address *)

Definition release (x : Z) (live : list Block) : list Block := filter (λ blk, b_addr blk ≠ x) live.

Lemma release_perm a b live packed blk :
  inv a b live packed → blk ∈ live → live ≡ₚ blk :: release (b_addr blk) live.
Proof.
  intros Hi [l Hl]%elem_of_Permutation. pose proof (i_geo _ _ _ _ Hi) as Hg. rewrite Hl in Hg.
  unfold release. rewrite Hl at 2. rewrite filter_cons_False by tauto. rewrite filter_all; [done|].
  intros [x n r] Hin Heq. cbn in Heq. subst. by eapply geo_fresh.
Qed.

(** The payloads outside of every released location. *)
Definition survives (l : list BlockLoc) (p : Block) : Prop :=
  Forall (λ loc, ¬ (addr loc ≤ b_addr p < addr loc + footprint (blk_len loc))) l.

Definition release_all (l : list BlockLoc) (live : list Block) : list Block :=
  filter (λ blk, b_addr blk ∉ addr <$> l) live.

Lemma free_all_spec l a b live packed :
  inv a b live packed → deferred_free a = [] → NoDup (addr <$> l) →
  (∀ loc, loc ∈ l → ∃ r, block_of loc r ∈ live) →
  ∃ a', free_all a l = Ok a' ∧
    inv a' b (release_all l live) (filter (survives l) packed) ∧
    deferred_free a' = [] ∧ reclaim_floor a' = reclaim_floor a.
Proof.
  revert a live packed. induction l as [|loc l IH]; intros a live packed Hi Hd Hnd Hl; cbn.
  { exists a. unfold release_all. rewrite !filter_all; [done|by constructor|].
    intros ??. apply not_elem_of_nil. }
  apply NoDup_cons in Hnd as [Hfresh Hnd]. destruct (Hl loc ltac:(by left)) as [r Hin].
  pose proof (release_perm _ _ _ _ _ Hi Hin) as Hp. cbn in Hp.
  destruct (free_spec a b live (release (addr loc) live) packed loc r) as (a1&->&Hi1&Ed1&Er1);
    [done..|rewrite Hd; apply not_elem_of_nil|].
  cbn. destruct (IH a1 (release (addr loc) live) (drop_pieces (block_of loc r) packed))
    as (a'&->&Hi'&Ed'&Er'); [done|congruence|done| |].
  { intros loc' Hin'. destruct (Hl loc' ltac:(by right)) as [r' Hr']. exists r'.
    apply list_elem_of_filter. split; [|done]. cbn. intros Heq. apply Hfresh. rewrite <-Heq.
    apply list_elem_of_fmap. by exists loc'. }
  exists a'. split_and!; [done| |done|congruence].
  replace (release_all (loc :: l) live) with (release_all l (release (addr loc) live)).
  2: { unfold release_all, release. rewrite list_filter_filter. apply list_filter_iff.
       intros blk. cbn. rewrite not_elem_of_cons. tauto. }
  replace (filter (survives (loc :: l)) packed)
    with (filter (survives l) (drop_pieces (block_of loc r) packed)); [done|].
  unfold drop_pieces. rewrite list_filter_filter. apply list_filter_iff.
  intros p. unfold survives. rewrite Forall_cons. cbn. tauto.
Qed.

(** The block open for packing is closed at most. *)
Definition pack_less (a a' : t) : Prop := ∀ q, open_pack a' = Some q → open_pack a = Some q.

Lemma pack_less_refl a : pack_less a a.
Proof. by intros q. Qed.
Lemma pack_less_trans a1 a2 a3 : pack_less a1 a2 → pack_less a2 a3 → pack_less a1 a3.
Proof. unfold pack_less. auto. Qed.

Lemma free_pack a loc ok a' : free a loc = Ok (ok, a') → pack_less a a'.
Proof.
  unfold free, pack_less. destruct (BTreeMap.get (region_tags a) (addr loc)) as [r|]; [|by intros [= <- <-]]. intros (fl&_&[= <- <-])%bind_ok q Hq.
  assert (open_pack (pack_close_if_freed (set_tags a (BTreeMap.remove (region_tags a) (addr loc))) (addr loc)
    (footprint (blk_len loc))) = Some q) as Hq' by (by destruct r).
  destruct q as [base used]. by apply pack_close_open in Hq' as [? _].
Qed.

Lemma free_all_pack l a a' : free_all a l = Ok a' → pack_less a a'.
Proof.
  revert a. induction l as [|loc l IH]; intros a; cbn; [intros [= <-]; apply pack_less_refl|].
  intros ([ok a1]&Hf&Hr)%bind_ok. eapply pack_less_trans; [by eapply free_pack|by apply IH].
Qed.

Lemma publish_deferred_pack a a' : publish_deferred a = Ok a' → pack_less a a'.
Proof. intros Hp%free_all_pack. exact Hp. Qed.

Lemma alloc_packed_open a b need x a' b' :
  0 < need < BASE_BLOCK → alloc_packed need (a, b) = (Ok x, (a', b')) →
  if has_room a need then ∃ base used, open_pack a = Some (base, used) ∧ x = base + used ∧
    open_pack a' = Some (base, used + need)
  else open_pack a' = Some (x, need).
Proof.
  intros Hn. rewrite alloc_packed_run by done. unfold has_room, add64.
  destruct (open_pack a) as [[base used]|]; [destruct (used + need <=? BASE_BLOCK)|].
  - case_match; [|done]. intros [= <- <- <-]. by exists base, used.
  - destruct (alloc_aligned BASE_BLOCK LiveMid (a, b)) as [[loc| |] [a1 b1]]; [|done..].
    case_match; [|done]. intros [= <- <- <-]. by rewrite Z.add_0_r.
  - destruct (alloc_aligned BASE_BLOCK LiveMid (a, b)) as [[loc| |] [a1 b1]]; [|done..].
    case_match; [|done]. intros [= <- <- <-]. by rewrite Z.add_0_r.
Qed.

(** ** Histories

    A history is a sequence of calls whose preconditions, as the source
    documents them, hold. *)

Record state := mkState { al : t; be : Backend.t; live : list Block; packed : list Block }.

Definition init (b : Backend.t) : state := mkState (new b) b [] [].

(** A range of addresses that nobody owns. *)
Definition unowned (s : state) (x n : Z) : Prop :=
  ∀ y, x ≤ y < x + n →
    (∀ r, ¬ Freelist.covers (freelist_for (al s) r) y) ∧ ∀ blk, blk ∈ live s → ¬ in_block blk y.

Inductive step : state → state → Prop :=
| step_alloc len r a b l p loc a' b' :
    u32 len → alloc_aligned len r (a, b) = (Ok loc, (a', b')) →
    step (mkState a b l p)
         (mkState a' b' (block_of loc r :: (relocate (Backend.len b' - Backend.len b) <$> l)) p)
| step_alloc_packed need a b l p x a' b' :
    alloc_packed need (a, b) = (Ok x, (a', b')) →
    step (mkState a b l p)
         (mkState a' b'
            (if has_room a need then l
             else pack_block x :: (relocate (Backend.len b' - Backend.len b) <$> l))
            (mkBlock x need LiveMid :: p))
| step_free loc r a b l p a' :
    block_of loc r ∈ l → addr loc ∉ addr <$> deferred_free a → free a loc = Ok (true, a') →
    step (mkState a b l p) (mkState a' b (release (addr loc) l) (drop_pieces (block_of loc r) p))
| step_free_reclaimable loc r a b l p a' :
    block_of loc r ∈ l → addr loc ∉ addr <$> deferred_free a →
    free_reclaimable a loc = Ok (true, a') →
    step (mkState a b l p) (mkState a' b (release (addr loc) l) (drop_pieces (block_of loc r) p))
| step_retire loc r a b l p :
    block_of loc r ∈ l → r ≠ EvictionTail → addr loc ∉ addr <$> deferred_free a →
    step (mkState a b l p) (mkState (retire_block a loc) b l p)
| step_publish a b l p a' :
    publish_deferred a = Ok a' →
    step (mkState a b l p)
         (mkState a' b (release_all (deferred_free a) l) (filter (survives (deferred_free a)) p))
| step_abort a b l p : step (mkState a b l p) (mkState (abort_deferred a) b l p)
| step_begin a b l p : step (mkState a b l p) (mkState (begin_reclaim_scope a) b l p)
| step_end a b l p : step (mkState a b l p) (mkState (end_reclaim_scope a) b l p)
| step_frontier end_ a b l p :
    0 ≤ end_ → round_up_to_block end_ ≤ tail_low a →
    step (mkState a b l p) (mkState (set_forward_frontier a end_) b l p)
| step_register_live x n r a b l p :
    r ≠ EvictionTail → aligned x → aligned n → 0 < n → 2 * BASE_BLOCK ≤ x → x + n ≤ live_hwm a →
    unowned (mkState a b l p) x n →
    step (mkState a b l p) (mkState (register_live_block a x r) b (mkBlock x n r :: l) p)
| step_register_tail x len a b l p :
    aligned x → u32 len → live_hwm a ≤ x → x + footprint len ≤ top a b →
    unowned (mkState a b l p) x (footprint len) →
    step (mkState a b l p)
         (mkState (register_eviction_tail_block a x len) b
                  (mkBlock x (footprint len) EvictionTail :: l) p)
| step_wal w a b l p :
    wal_reservation_start a = None → tail_low a = Backend.len b →
    aligned w → live_hwm a ≤ w ≤ Backend.len b →
    step (mkState a b l p) (mkState (set_wal_reservation a w) b l p)
| step_insert_free x n r a b l p a' :
    r ≠ EvictionTail → 2 * BASE_BLOCK ≤ x → x + n ≤ live_hwm a → unowned (mkState a b l p) x n →
    insert_free_extent a x n r = Ok a' →
    step (mkState a b l p) (mkState a' b l p).

Definition sinv (s : state) : Prop := inv (al s) (be s) (live s) (packed s).

Lemma init_inv b :
  Backend.wf b → aligned (Backend.len b) → 2 * BASE_BLOCK ≤ Backend.len b → sinv (init b).
Proof.
  intros Hwf Ha Hlen. assert (∀ r, freelist_for (new b) r = Freelist.default) as Hfl by by intros [].
  split; cbn; [done|done|done|split..].
  - cbn. unfold BASE_BLOCK in *. lia.
  - cbn. split_and!; [by_compute|done|done].
  - intros blk ?%elem_of_nil. done.
  - done.
  - intros r x. rewrite Hfl. by intros ?%Freelist.covers_default.
  - intros r r' x. rewrite Hfl. by intros ?%Freelist.covers_default.
  - intros r x blk. rewrite Hfl. by intros ?%Freelist.covers_default.
  - constructor.
  - intros x r. cbn. setoid_rewrite elem_of_nil. naive_solver.
  - intros r. rewrite Hfl. apply Freelist.wf_default.
  - intros loc ?%elem_of_nil. done.
  - constructor.
  - intros q ?%elem_of_nil. done.
  - done.
  - done.
Qed.

Lemma inv_set_session a b l p p' f d k :
  inv a b l p → session (set_session a f d k) l p' → inv (set_session a f d k) b l p'.
Proof.
  intros [Hb Hs Ht Hg [? ? Hf] _] Hses. split; [done..|by destruct a|split|done].
  - done.
  - done.
  - intros r. specialize (Hf r). by destruct r.
Qed.

Lemma session_same a b l p f :
  inv a b l p → session (set_session a f (deferred_free a) (open_pack a)) l p.
Proof. intros Hi. by destruct (i_session _ _ _ _ Hi). Qed.

Lemma inv_retire a b l p loc r :
  inv a b l p → block_of loc r ∈ l → r ≠ EvictionTail → addr loc ∉ addr <$> deferred_free a →
  inv (retire_block a loc) b l p.
Proof.
  intros Hi Hin Hr Hnd. eapply inv_set_session; [done|].
  destruct (i_session _ _ _ _ Hi) as [Hd Hn Hp Hpd Ho]. split; cbn; [| |done..].
  - intros loc' [?| ->%list_elem_of_singleton]%elem_of_app; eauto.
  - rewrite fmap_app. apply NoDup_app. split_and!; [done| |apply NoDup_singleton].
    intros x Hx ->%list_elem_of_singleton. done.
Qed.

Lemma inv_abort a b l p : inv a b l p → inv (abort_deferred a) b l p.
Proof.
  intros Hi. eapply inv_set_session; [done|].
  destruct (i_session _ _ _ _ Hi) as [_ _ Hp Hpd Ho]. split; cbn; [|constructor|done..].
  by intros ? ?%elem_of_nil.
Qed.

Lemma publish_deferred_spec a b l p :
  inv a b l p →
  ∃ a', publish_deferred a = Ok a' ∧
    inv a' b (release_all (deferred_free a) l) (filter (survives (deferred_free a)) p) ∧
    deferred_free a' = [] ∧ reclaim_floor a' = reclaim_floor a.
Proof.
  intros Hi. pose proof (i_session _ _ _ _ Hi) as [Hd Hn _ _ _].
  destruct (free_all_spec (deferred_free a) (abort_deferred a) b l p) as (a'&Heq&Hi'&Ed&Er);
    [by apply inv_abort|done|done|naive_solver|]. by exists a'.
Qed.

Lemma inv_frontier a b l p end_ :
  inv a b l p → 0 ≤ end_ → round_up_to_block end_ ≤ tail_low a →
  inv (set_forward_frontier a end_) b l p.
Proof.
  intros Hi He Hle. pose proof (i_geo _ _ _ _ Hi) as Hg. pose proof (g_marks _ _ _ _ _ Hg).
  pose proof (g_align _ _ _ _ _ Hg) as (?&?&?). destruct (round_up_spec end_ He) as [_ Hra].
  pose proof (i_start _ _ _ _ Hi) as Hs. destruct (i_rep _ _ _ _ Hi) as [? ? Hf].
  split; [apply (i_backend _ _ _ _ Hi)|done|apply (i_top _ _ _ _ Hi)| | |].
  - unfold set_forward_frontier. rewrite Hs. cbn.
    assert (aligned (2 * BASE_BLOCK)) by by_compute.
    eapply (geo_widen _ _ _ _ _ _ (λ r, Freelist.covers (freelist_for a r))) in Hg; [by destruct a|..]; try done; try lia.
    destruct (Z.max_spec (live_hwm a) (Z.max (round_up_to_block end_) (2 * BASE_BLOCK))) as [[_ ->]|[_ ->]]; [|done].
    destruct (Z.max_spec (round_up_to_block end_) (2 * BASE_BLOCK)) as [[_ ->]|[_ ->]]; done.
  - split; [done..|]. intros r. specialize (Hf r). by destruct r.
  - eapply session_mono; [apply (i_session _ _ _ _ Hi)|done..].
Qed.

Lemma inv_register_live a b l p x n r :
  inv a b l p → r ≠ EvictionTail → aligned x → aligned n → 0 < n →
  2 * BASE_BLOCK ≤ x → x + n ≤ live_hwm a → unowned (mkState a b l p) x n →
  inv (register_live_block a x r) b (mkBlock x n r :: l) p.
Proof.
  intros Hi Hr Hx Hna Hn Hlo Hhi Hun. pose proof (i_geo _ _ _ _ Hi) as Hg.
  pose proof (g_marks _ _ _ _ _ Hg). pose proof (g_align _ _ _ _ _ Hg) as (?&?&?).
  eapply inv_add; [exact Hi| |..]; try done.
  - apply (geo_add (live_hwm a) (tail_low a) (top a b) (live_hwm a) (tail_low a) (top a b)
      (λ r, Freelist.covers (freelist_for a r)) l (mkBlock x n r)) in Hg;
      [by destruct a|lia|lia|lia|lia|done|done|done| |].
    + split; cbn; [done|done|]. unfold in_block; cbn. intros y Hy. destruct r; cbn; [lia|lia|done].
    + unfold in_block. cbn. intros y Hy. by apply Hun.
  - intros r'. pose proof (r_free _ _ (i_rep _ _ _ _ Hi) r'). by destruct r'.
Qed.

Lemma inv_register_tail a b l p x len :
  inv a b l p → aligned x → u32 len → live_hwm a ≤ x → x + footprint len ≤ top a b →
  unowned (mkState a b l p) x (footprint len) →
  inv (register_eviction_tail_block a x len) b (mkBlock x (footprint len) EvictionTail :: l) p.
Proof.
  intros Hi Hx Hlen Hlo Hhi Hun. pose proof (i_geo _ _ _ _ Hi) as Hg.
  destruct (footprint_spec len Hlen) as (_&Hn&Hna).
  pose proof (g_marks _ _ _ _ _ Hg). pose proof (g_align _ _ _ _ _ Hg) as (?&?&?).
  assert (register_eviction_tail_block a x len =
    set_tail_low (set_tags a (BTreeMap.insert (region_tags a) x EvictionTail)) (Z.min x (tail_low a))) as ->.
  { unfold register_eviction_tail_block. cbn. destruct (Z.ltb_spec x (tail_low a)).
    - f_equal. lia.
    - rewrite Z.min_r by lia. by destruct a. }
  eapply inv_add; [exact Hi| |..]; try done.
  - apply (geo_add (live_hwm a) (tail_low a) (top a b) (live_hwm a) (Z.min x (tail_low a)) (top a b)
      (λ r, Freelist.covers (freelist_for a r)) l (mkBlock x (footprint len) EvictionTail)) in Hg;
      [by destruct a|lia|lia|lia|lia|done| |done| |].
    + destruct (Z.min_spec x (tail_low a)) as [[_ ->]|[_ ->]]; done.
    + split; cbn; [done|lia|]. unfold in_block; cbn. lia.
    + unfold in_block. cbn. intros y Hy. by apply Hun.
  - intros r'. pose proof (r_free _ _ (i_rep _ _ _ _ Hi) r'). by destruct r'.
Qed.

Lemma inv_wal a b l p w :
  inv a b l p → wal_reservation_start a = None → tail_low a = Backend.len b →
  aligned w → live_hwm a ≤ w ≤ Backend.len b →
  inv (set_wal_reservation a w) b l p.
Proof.
  intros Hi Ew Et Hwa Hw. pose proof (i_geo _ _ _ _ Hi) as [Hm Ha Hb Hd Hz Hff Hfl].
  assert (top a b = Backend.len b) as Etop by (unfold top; by rewrite Ew).
  assert (set_wal_reservation a w = set_wal (set_tail_low a w) (Some w)) as ->.
  { unfold set_wal_reservation. cbn. destruct (Z.ltb_spec w (tail_low a)); [done|].
    assert (w = tail_low a) as -> by lia. by destruct a. }
  assert (∀ r x, zone (live_hwm a) (tail_low a) (top a b) r x → zone (live_hwm a) w w r x) as Hzone
    by (intros [] x; cbn; lia).
  destruct (i_rep _ _ _ _ Hi) as [? ? Hf].
  split; [apply (i_backend _ _ _ _ Hi)|apply (i_start _ _ _ _ Hi)|cbn; lia|split|split|].
  - cbn. unfold top. cbn. lia.
  - tauto.
  - intros blk Hin. destruct (Hb blk Hin) as [? ? Hbz]. split; [done..|].
    intros x Hx. apply Hzone. by apply Hbz.
  - done.
  - intros r x Hf'. apply Hzone, Hz. by destruct r.
  - intros r r' x H1 H2. apply (Hff r r' x); [by destruct r|by destruct r'].
  - intros r x blk Hr. apply (Hfl r x blk). by destruct r.
  - done.
  - done.
  - intros r. specialize (Hf r). by destruct r.
  - eapply session_mono; [apply (i_session _ _ _ _ Hi)|done..].
Qed.

Lemma inv_insert_free a b l p x n r a' :
  inv a b l p → r ≠ EvictionTail → 2 * BASE_BLOCK ≤ x → x + n ≤ live_hwm a →
  unowned (mkState a b l p) x n → insert_free_extent a x n r = Ok a' → inv a' b l p.
Proof.
  intros Hi Hr Hlo Hhi Hun. unfold insert_free_extent, is_aligned.
  destruct (Z.eqb_spec (x `mod` BASE_BLOCK) 0) as [Hxa|]; [|done]. cbn [negb].
  destruct (Z.ltb_spec 0 n) as [Hn|]; [|done]. cbn [andb].
  destruct (Z.eqb_spec (n `mod` BASE_BLOCK) 0) as [Hna|]; [|done]. cbn [negb].
  destruct (pack_close_fields a x n) as (Eh&Et&Es&Ew&Etags&Efl&Ed&Er).
  set (a2 := pack_close_if_freed a x n) in *. pose proof (inv_small _ _ _ _ Hi).
  destruct (Freelist.insert_ok (freelist_for a2 r) x n) as (fl&->&Hwf&Hcov).
  { rewrite Efl. apply (r_free _ _ (i_rep _ _ _ _ Hi)). }
  { split_and!; cbn; (done || lia || (unfold BASE_BLOCK in *; lia)). }
  cbn. intros [= <-].
  assert (∀ r', freelist_for (set_freelist_for a2 r fl) r' =
    if decide (r' = r) then fl else freelist_for a r') as Hfl.
  { intros r'. by rewrite freelist_for_set, Efl. }
  pose proof (inv_register_live a b l p x n r Hi Hr Hxa Hna Hn Hlo Hhi Hun) as Hreg.
  destruct (i_rep _ _ _ _ Hi) as [? ? Hf].
  split; [apply (i_backend _ _ _ _ Hi)|..].
  - transitivity (data_start a2); [by destruct r|]. rewrite Es. apply (i_start _ _ _ _ Hi).
  - unfold top. replace (wal_reservation_start _) with (wal_reservation_start a2) by by destruct r.
    rewrite Ew. apply (i_top _ _ _ _ Hi).
  - pose proof (i_geo _ _ _ _ Hreg) as Hg.
    apply (geo_give _ _ _ _ (λ r', Freelist.covers (freelist_for (set_freelist_for a2 r fl) r'))) in Hg.
    + unfold top in *. replace (wal_reservation_start (set_freelist_for _ _ _)) with (wal_reservation_start a)
        by (rewrite <-Ew; by destruct r).
      replace (live_hwm _) with (live_hwm a) in * by (rewrite <-Eh; by destruct r).
      by replace (tail_low (set_freelist_for _ _ _)) with (tail_low a) by (rewrite <-Et; by destruct r).
    + intros r' y. rewrite Hfl. case_decide as Hd.
      * subst. rewrite Hcov, Efl. intros [?|?]; [left; by destruct r|by right].
      * intros ?. left. by destruct r'.
  - split.
    + replace (region_tags _) with (region_tags a2) by by destruct r. by rewrite Etags.
    + intros y r'. replace (region_tags _) with (region_tags a2) by by destruct r. by rewrite Etags.
    + intros r'. rewrite Hfl. case_decide; auto.
  - destruct (i_session _ _ _ _ Hi) as [Hd Hnd Hp Hpd Ho].
    replace (deferred_free _) with (deferred_free a) by (rewrite <-Ed; by destruct r).
    split; replace (deferred_free (set_freelist_for a2 r fl)) with (deferred_free a)
      by (rewrite <-Ed; by destruct r); try done.
    intros base used. replace (open_pack _) with (open_pack a2) by by destruct r.
    intros [Hop _]%pack_close_open. by apply Ho.
Qed.

Lemma step_inv s s' : sinv s → step s s' → sinv s'.
Proof.
  intros Hi Hs. unfold sinv in *. destruct Hs; cbn in *.
  - pose proof (alloc_aligned_spec a b l p len r Hi ltac:(done)) as Hal.
    match goal with Heq : alloc_aligned _ _ _ = _ |- _ => rewrite Heq in Hal end.
    destruct Hal as (delta&?&Hl&_&_&Hi'&_).
    by replace (Backend.len b' - Backend.len b) with delta by lia.
  - assert (0 < need < BASE_BLOCK) as Hn.
    { match goal with Heq : alloc_packed _ _ = _ |- _ => unfold alloc_packed in Heq end.
      destruct (Z.ltb_spec 0 need), (Z.ltb_spec need BASE_BLOCK); cbn in *; try done. }
    pose proof (alloc_packed_spec a b l p need Hi Hn) as Hal.
    match goal with Heq : alloc_packed _ _ = _ |- _ => rewrite Heq in Hal end.
    apply Hal.
  - destruct (free_spec a b l (release (addr loc) l) p loc r) as (a1&Heq&Hi'&_);
      [done|by eapply (release_perm a b l p (block_of loc r))|done|]. congruence.
  - unfold free_reclaimable in *. destruct (reclaim_floor a) as [f|]; [|done]. case_match; [|done].
    destruct (free_spec a b l (release (addr loc) l) p loc r) as (a1&Heq&Hi'&_);
      [done|by eapply (release_perm a b l p (block_of loc r))|done|]. congruence.
  - by eapply inv_retire.
  - destruct (publish_deferred_spec a b l p Hi) as (a1&Heq&?&_). congruence.
  - by apply inv_abort.
  - eapply inv_set_session; [done|by eapply session_same].
  - eapply inv_set_session; [done|by eapply session_same].
  - by apply inv_frontier.
  - by apply inv_register_live.
  - by apply inv_register_tail.
  - by apply inv_wal.
  - by eapply inv_insert_free.
Qed.

Lemma steps_inv s s' : rtc step s s' → sinv s → sinv s'.
Proof. induction 1; eauto using step_inv. Qed.

Lemma history_inv b s :
  Backend.wf b → aligned (Backend.len b) → 2 * BASE_BLOCK ≤ Backend.len b →
  rtc step (init b) s → sinv s.
Proof.
  intros ??? Hs. by eapply steps_inv, init_inv.
Qed.

(** ** Order of the ghost list, writes, growth of the store *)

Lemma inv_perm a b live live' packed : live ≡ₚ live' → inv a b live packed → inv a b live' packed.
Proof.
  intros Hp [Hb Hs Ht Hg [Hso Htag Hf] [Hd Hnd Hpk Hpd Ho]]. split; [done|done|done|by rewrite <-Hp|split|split]; try done.
  - intros x r. rewrite Htag. by setoid_rewrite Hp.
  - intros loc Hl. destruct (Hd loc Hl) as (r&?&Hin). exists r. by rewrite <-Hp.
  - intros p Hin. destruct (Hpk p Hin) as (?&base&Hbl&?). split; [done|]. exists base. by rewrite <-Hp.
  - intros base used Hop. destruct (Ho base used Hop) as (?&Hin&?). by rewrite <-Hp.
Qed.

Lemma inv_write a b b' live packed :
  Backend.wf b' → Backend.len b' = Backend.len b → inv a b live packed → inv a b' live packed.
Proof.
  intros Hwf Hl [[? ?] ? Ht Hg ? ?]. unfold top in *.
  split; unfold top; rewrite ?Hl; try done.
Qed.

(** The length of the store only grows, also on the paths that fail, and its
    kind does not change. *)
Definition grows {A} (m : M A) : Prop :=
  ∀ s, Backend.len s.2 ≤ Backend.len (m s).2.2 ∧ Backend.no_grow (m s).2.2 = Backend.no_grow s.2.

Lemma grows_bind {A B} (m : M A) (f : A → M B) : grows m → (∀ x, grows (f x)) → grows (m ≫= f).
Proof.
  intros Hm Hf s. specialize (Hm s). rewrite bind_run. destruct (m s) as [[x|e|] s']; [|done..].
  specialize (Hf x s'). cbn in *. destruct Hm, Hf. split; [lia|congruence].
Qed.

Lemma grows_lift {A} (r : res A) : grows (lift r).
Proof. intros s. split; [done|done]. Qed.
Lemma grows_mret {A} (x : A) : grows (mret x).
Proof. intros s. split; [done|done]. Qed.
Lemma grows_get : grows get_st.
Proof. intros s. split; [done|done]. Qed.
Lemma grows_on_alloc f : grows (on_alloc f).
Proof. intros [a b]. unfold on_alloc. by destruct (f a). Qed.
Lemma grows_on_backend f :
  (∀ b b', f b = Ok b' → Backend.len b ≤ Backend.len b' ∧ Backend.no_grow b' = Backend.no_grow b) →
  grows (on_backend f).
Proof. intros Hf [a b]. unfold on_backend. destruct (f b) as [b'| |] eqn:E; [|done..]. by apply Hf. Qed.

Lemma write_at_grows b x buf b' :
  Backend.write_at b x buf = Ok b' → Backend.len b ≤ Backend.len b' ∧ Backend.no_grow b' = Backend.no_grow b.
Proof. unfold Backend.write_at. repeat case_match; intros [= <-] || done. done. Qed.

Lemma grow_grows b n b' :
  Backend.grow b n = Ok b' → Backend.len b ≤ Backend.len b' ∧ Backend.no_grow b' = Backend.no_grow b.
Proof.
  unfold Backend.grow. case_match eqn:E; [by intros [= <-]|]. case_match; [done|].
  intros (m&_&[= <-])%bind_ok. cbn. split; [lia|congruence].
Qed.

Ltac solve_grows :=
  repeat match goal with
  | |- grows (mbind _ _) => apply grows_bind; [|intros]
  | |- grows (lift _) => apply grows_lift
  | |- grows (mret _) => apply grows_mret
  | |- grows get_st => apply grows_get
  | |- grows (on_alloc _) => apply grows_on_alloc
  | |- grows (match ?x with _ => _ end) => destruct x
  end.

Lemma move_tail_grows old_len delta clear : grows (move_tail old_len delta clear).
Proof. unfold move_tail. solve_grows; apply grows_on_backend; intros; by eapply write_at_grows. Qed.

Lemma grow_for_grows needed : grows (grow_for needed).
Proof.
  unfold grow_for. solve_grows; try apply move_tail_grows.
  apply grows_on_backend. intros. by eapply grow_grows.
Qed.

Lemma alloc_aligned_grows len r : grows (alloc_aligned len r).
Proof.
  unfold alloc_aligned, tag, bump_forward, bump_tail. solve_grows; apply grow_for_grows.
Qed.

(** ** Contents *)

(** A grow keeps the bytes of every live block. *)
Lemma moved_contents a b b' live packed delta blk :
  inv a b live packed → 0 ≤ delta → moved (tail_low a) (Backend.len b) delta b b' → blk ∈ live →
  Backend.contents b' (b_addr (relocate delta blk)) (b_size blk) =
  Backend.contents b (b_addr blk) (b_size blk).
Proof.
  intros Hi Hd [Hlow Hhigh] Hin. pose proof (g_marks _ _ _ _ _ (i_geo _ _ _ _ Hi)) as Hm.
  pose proof (i_top _ _ _ _ Hi). destruct (live_extent_ok _ _ _ _ _ Hi Hin) as (?&?&_). cbn in *.
  pose proof (bo_zone _ _ _ _ (g_blocks _ _ _ _ _ (i_geo _ _ _ _ Hi) _ Hin)) as Hz.
  unfold relocate. destruct blk as [x n r]; cbn in *. unfold in_block in Hz. cbn in Hz.
  apply Backend.contents_ext; [lia|destruct r; cbn; lia|].
  intros i Hi'. specialize (Hz (x + i) ltac:(lia)). destruct r; cbn in *; [apply Hlow; lia..|].
  replace (x + delta + i) with (x + i + delta) by lia. apply Hhigh. lia.
Qed.

(** ** Properties *)

(** C8. In every history of allocator calls the blocks that callers hold are
    block-aligned, pairwise disjoint, disjoint from every free address, outside
    of the two header blocks and below the WAL region; forward blocks stay
    below the eviction tail; packed payloads never overlap; and a block parked
    for a deferred free is still allocated. *)
Theorem allocator_history_safe (b : Backend.t) (s : state) :
  Backend.wf b → aligned (Backend.len b) → 2 * BASE_BLOCK ≤ Backend.len b →
  rtc step (init b) s →
  all_disjoint (live s) ∧ all_disjoint (packed s) ∧
  (∀ blk, blk ∈ live s → aligned (b_addr blk) ∧ 0 < b_size blk ∧ 2 * BASE_BLOCK ≤ b_addr blk ∧
     b_addr blk + b_size blk ≤ top (al s) (be s) ∧ top (al s) (be s) ≤ Backend.len (be s) ∧
     (b_region blk = EvictionTail ↔ live_hwm (al s) < b_addr blk + b_size blk)) ∧
  (∀ r x blk, Freelist.covers (freelist_for (al s) r) x → blk ∈ live s → ¬ in_block blk x) ∧
  (∀ p, p ∈ packed s → ∃ base, pack_block base ∈ live s ∧
     base ≤ b_addr p ∧ b_addr p + b_size p ≤ base + BASE_BLOCK) ∧
  (∀ loc, loc ∈ deferred_free (al s) → ∃ r, block_of loc r ∈ live s).
Proof.
  intros Hwf Ha Hlen Hs. apply history_inv in Hs; [|done..].
  pose proof (i_geo _ _ _ _ Hs) as Hg. pose proof (g_marks _ _ _ _ _ Hg) as Hm.
  destruct (i_session _ _ _ _ Hs) as [Hd _ Hp Hpd _]. split_and!.
  - apply Hg.
  - done.
  - intros blk Hin. destruct (g_blocks _ _ _ _ _ Hg blk Hin) as [[Hba _] Hsz Hz].
    pose proof (Hz (b_addr blk)) as Hz1. pose proof (Hz (b_addr blk + b_size blk - 1)) as Hz2.
    unfold in_block in Hz1, Hz2. pose proof (i_top _ _ _ _ Hs).
    destruct (b_region blk); cbn in *; unfold BASE_BLOCK in *; split_and!; try done; try lia.
    all: split; intros; first [done|lia|exfalso; lia].
  - intros r x blk Hc Hin Hx. by eapply (g_free_live _ _ _ _ _ Hg).
  - intros p Hin. by destruct (Hp p Hin).
  - intros loc Hin. destruct (Hd loc Hin) as (r&_&?). eauto.
Qed.

Definition ex_b : Backend.t := Backend.mk (zeros (Z.to_nat 20480)) 20480 false.
Definition ex_a : t :=
  mk 8192 12288 8192 12288 20480 None [(8192, LiveMid)]
     Freelist.default Freelist.default Freelist.default None [] None.

Lemma ex_b_wf : Backend.wf ex_b.
Proof.
  split; [|by_compute]. cbn [ex_b Backend.mem Backend.len]. unfold zeros.
  by rewrite blen_replicate, Z2Nat.id.
Qed.

Lemma ex_alloc : alloc_aligned 100 LiveMid (new ex_b, ex_b) = (Ok (mkBlockLoc 8192 100), (ex_a, ex_b)).
Proof. reflexivity. Qed.

Lemma ex_history : rtc step (init ex_b) (mkState ex_a ex_b [mkBlock 8192 4096 LiveMid] []).
Proof. apply rtc_once. exact (step_alloc 100 LiveMid _ _ [] [] _ _ _ ltac:(by_compute) ex_alloc). Qed.

Lemma allocator_history_safe_witness :
  all_disjoint [mkBlock 8192 4096 LiveMid].
Proof.
  apply (allocator_history_safe ex_b (mkState ex_a ex_b [mkBlock 8192 4096 LiveMid] [])).
  - exact ex_b_wf.
  - by_compute.
  - by_compute.
  - exact ex_history.
Defined.

(** C18. After any history, an allocation on a store below 2 EiB either
    returns an aligned block inside the store that overlaps no block a caller
    holds, with the contents of every held block intact at its (possibly
    relocated) address, or reports [StorageFull] on a fixed device and changes
    nothing. *)
Theorem alloc_aligned_outcome (b : Backend.t) (s : state) (len : Z) (r : Region) :
  Backend.wf b → aligned (Backend.len b) → 2 * BASE_BLOCK ≤ Backend.len b →
  rtc step (init b) s → u32 len → Backend.len (be s) < 2 ^ 61 →
  match alloc_aligned len r (al s, be s) with
  | (Ok loc, (a', b')) =>
      let delta := Backend.len b' - Backend.len (be s) in
      0 ≤ delta ∧ blk_len loc = len ∧ aligned (addr loc) ∧ 2 * BASE_BLOCK ≤ addr loc ∧
      len ≤ footprint len ∧ addr loc + footprint len ≤ Backend.len b' ∧
      ∀ blk, blk ∈ live s →
        disjoint (block_of loc r) (relocate delta blk) ∧
        Backend.contents b' (b_addr (relocate delta blk)) (b_size blk) =
        Backend.contents (be s) (b_addr blk) (b_size blk)
  | (Err e, s') => e = Io StorageFull ∧ Backend.no_grow (be s) = true ∧ s' = (al s, be s)
  | (Panic, _) => False
  end.
Proof.
  intros Hwf Ha Hlen Hs Hu Hsmall. apply history_inv in Hs; [|done..].
  pose proof (alloc_aligned_spec _ _ _ _ len r Hs Hu) as Hal.
  destruct (alloc_aligned len r (al s, be s)) as [[loc|e|] [a' b']]; [|done|lia].
  destruct Hal as (delta&Hd&Hl&Hmv&El&Hi'&_). rewrite Hl.
  replace (Backend.len (be s) + delta - Backend.len (be s)) with delta by lia.
  destruct (live_extent_ok _ _ _ _ _ Hi' ltac:(by left)) as (_&_&Hba&_&_). cbn in Hba.
  destruct (g_blocks _ _ _ _ _ (i_geo _ _ _ _ Hi') _ ltac:(by left)) as [_ Hsz Hz]. cbn in Hsz.
  pose proof (Hz (addr loc)) as Hz1. pose proof (Hz (addr loc + footprint len - 1)) as Hz2.
  unfold in_block in Hz1, Hz2. cbn in Hz1, Hz2. rewrite El in *.
  pose proof (g_marks _ _ _ _ _ (i_geo _ _ _ _ Hi')). pose proof (i_top _ _ _ _ Hi').
  split_and!; [done..| | | |].
  - destruct r; cbn in *; lia.
  - by apply footprint_spec.
  - destruct r; cbn in *; lia.
  - intros blk Hin. split.
    + destruct (g_disj _ _ _ _ _ (i_geo _ _ _ _ Hi')) as [Hdis _]. rewrite Forall_forall in Hdis.
      apply Hdis. apply list_elem_of_fmap. by exists blk.
    + by eapply moved_contents.
Qed.

Lemma alloc_aligned_outcome_witness :
  match alloc_aligned 5000 EvictionTail (ex_a, ex_b) with
  | (Ok loc, (a', b')) => addr loc = 12288 ∧ aligned (addr loc)
  | _ => False
  end.
Proof.
  pose proof (alloc_aligned_outcome ex_b (mkState ex_a ex_b [mkBlock 8192 4096 LiveMid] [])
    5000 EvictionTail ex_b_wf ltac:(by_compute) ltac:(by_compute) ex_history ltac:(by_compute)
    ltac:(by_compute)) as Hout.
  cbn [al be] in Hout.
  assert (alloc_aligned 5000 EvictionTail (ex_a, ex_b) =
    (Ok (mkBlockLoc 12288 5000),
     (set_tags (set_tail_low ex_a 12288) [(8192, LiveMid); (12288, EvictionTail)], ex_b))) as Heq
    by reflexivity.
  rewrite Heq in *. split; [reflexivity|]. apply Hout.
Defined.

(** Which steps keep a parked block. *)
Lemma step_deferred s s' loc :
  sinv s → step s s' → loc ∈ deferred_free (al s) →
  deferred_free (al s') = [] ∨
  loc ∈ deferred_free (al s') ∧
  Backend.contents (be s') (addr loc) (footprint (blk_len loc)) =
  Backend.contents (be s) (addr loc) (footprint (blk_len loc)).
Proof.
  intros Hi Hs Hloc. unfold sinv in Hi.
  destruct (s_deferred _ _ _ (i_session _ _ _ _ Hi) loc Hloc) as (r0&Hr0&Hin0).
  destruct Hs; cbn in *; try (right; split; [done|reflexivity]).
  - pose proof (alloc_aligned_spec a b l p len r Hi ltac:(done)) as Hal.
    match goal with Heq : alloc_aligned _ _ _ = _ |- _ => rewrite Heq in Hal end.
    destruct Hal as (delta&?&Hl&Hm&_&_&_&Ed&_). right. split; [by rewrite Ed|].
    pose proof (moved_contents _ _ _ _ _ _ _ Hi ltac:(done) Hm Hin0) as Hc.
    unfold relocate in Hc. by destruct r0.
  - destruct (decide (0 < need < BASE_BLOCK)) as [Hn|Hn].
    + pose proof (alloc_packed_spec a b l p need Hi Hn) as Hal.
      match goal with Heq : alloc_packed _ _ = _ |- _ => rewrite Heq in Hal end.
      destruct Hal as (?&Hm&_&_&_&Ed&_). right. split; [by rewrite Ed|].
      pose proof (moved_contents _ _ _ _ _ _ _ Hi ltac:(done) Hm Hin0) as Hc.
      unfold relocate in Hc. by destruct r0.
    + exfalso. match goal with Heq : alloc_packed _ _ = _ |- _ => unfold alloc_packed in Heq end.
      destruct (Z.ltb_spec 0 need), (Z.ltb_spec need BASE_BLOCK); cbn in *; (done || lia).
  - destruct (free_spec a b l (release (addr loc0) l) p loc0 r) as (a1&Heq&_&Ed&_);
      [done|by eapply (release_perm a b l p (block_of loc0 r))|done|].
    right. split; [|done]. assert (a1 = a') as -> by congruence. by rewrite Ed.
  - unfold free_reclaimable in *. destruct (reclaim_floor a) as [f|]; [|done]. case_match; [|done].
    destruct (free_spec a b l (release (addr loc0) l) p loc0 r) as (a1&Heq&_&Ed&_);
      [done|by eapply (release_perm a b l p (block_of loc0 r))|done|].
    right. split; [|done]. assert (a1 = a') as -> by congruence. by rewrite Ed.
  - right. split; [|done]. apply elem_of_app. by left.
  - left. destruct (publish_deferred_spec a b l p Hi) as (a1&Heq&_&Ed&_). congruence.
  - by left.
  - right. split; [|done]. unfold register_eviction_tail_block. by case_match.
  - right. split; [|done]. unfold set_wal_reservation. by case_match.
  - right. split; [|done].
    match goal with Heq : insert_free_extent _ _ _ _ = _ |- _ => unfold insert_free_extent in Heq end.
    destruct (pack_close_fields a x n) as (_&_&_&_&_&_&Ed&_). do 2 (case_match; [done|]).
    match goal with Heq : _ ≫= _ = _ |- _ => apply bind_ok in Heq as (fl&_&[= <-]) end.
    replace (deferred_free (set_freelist_for _ _ _)) with (deferred_free a)
      by (rewrite <-Ed; by destruct r).
    done.
Qed.

(** C20. Deferred frees are gated by the commit: whatever calls follow, a
    parked block stays allocated with its bytes intact until the whole list is
    published or aborted; publishing never fails and releases exactly the
    parked blocks, aborting releases none. *)
Theorem deferred_free_gated (b : Backend.t) (s s' : state) (loc : BlockLoc) :
  Backend.wf b → aligned (Backend.len b) → 2 * BASE_BLOCK ≤ Backend.len b →
  rtc step (init b) s → loc ∈ deferred_free (al s) →
  rtc (λ s1 s2, step s1 s2 ∧ deferred_free (al s2) ≠ []) s s' →
  (loc ∈ deferred_free (al s') ∧ (∃ r, block_of loc r ∈ live s') ∧
   Backend.contents (be s') (addr loc) (footprint (blk_len loc)) =
   Backend.contents (be s) (addr loc) (footprint (blk_len loc))) ∧
  (∃ a', publish_deferred (al s') = Ok a' ∧
     ∀ blk, blk ∈ live s' → BTreeMap.get (region_tags a') (b_addr blk) =
       if decide (b_addr blk ∈ addr <$> deferred_free (al s')) then None else Some (b_region blk)) ∧
  region_tags (abort_deferred (al s')) = region_tags (al s').
Proof.
  intros Hwf Ha Hlen Hs Hloc Hsteps. apply history_inv in Hs; [|done..].
  assert (sinv s' ∧ loc ∈ deferred_free (al s') ∧
    Backend.contents (be s') (addr loc) (footprint (blk_len loc)) =
    Backend.contents (be s) (addr loc) (footprint (blk_len loc))) as (Hi'&Hloc'&Hc).
  { clear Ha Hlen Hwf. induction Hsteps as [|s s1 s' [Hst Hne] _ IH]; [done|].
    destruct (step_deferred _ _ _ Hs Hst Hloc) as [|[Hloc1 Hc1]]; [done|].
    destruct IH as (?&?&?); [by eapply step_inv|done|]. split_and!; [done..|congruence]. }
  destruct (s_deferred _ _ _ (i_session _ _ _ _ Hi') loc Hloc') as (r&_&Hr).
  split_and!; [done|eauto|done| |done].
  destruct (publish_deferred_spec _ _ _ _ Hi') as (a'&Heq&Hpub&_). exists a'. split; [done|].
  destruct (i_rep _ _ _ _ Hpub) as [Hsort Htags _]. intros [x n rb] Hin. cbn.
  case_decide as Hd.
  - apply eq_None_not_Some. intros [r' Hr']. apply BTreeMap.elem_of_get in Hr'; [|done].
    apply Htags in Hr' as [n' [Hn' _]%list_elem_of_filter]. done.
  - apply BTreeMap.elem_of_get; [done|]. apply Htags. exists n. by apply list_elem_of_filter.
Qed.

Definition ex_parked : state :=
  mkState (retire_block ex_a (mkBlockLoc 8192 100)) ex_b [mkBlock 8192 4096 LiveMid] [].

Lemma deferred_free_gated_witness :
  mkBlockLoc 8192 100 ∈ deferred_free (al ex_parked) ∧
  ∃ a', publish_deferred (al ex_parked) = Ok a' ∧
    ∀ blk, blk ∈ live ex_parked → BTreeMap.get (region_tags a') (b_addr blk) =
      if decide (b_addr blk ∈ addr <$> deferred_free (al ex_parked)) then None else Some (b_region blk).
Proof.
  assert (mkBlockLoc 8192 100 ∈ deferred_free (al ex_parked)) as Hin by by left.
  split; [exact Hin|].
  apply (deferred_free_gated ex_b ex_parked ex_parked (mkBlockLoc 8192 100)).
  - exact ex_b_wf.
  - by_compute.
  - by_compute.
  - eapply rtc_r; [exact ex_history|].
    apply (step_retire (mkBlockLoc 8192 100) LiveMid ex_a ex_b [mkBlock 8192 4096 LiveMid] []);
      [by left|done|apply not_elem_of_nil].
  - exact Hin.
  - apply rtc_refl.
Defined.

(** No step moves the floor of an open scope, and the forward frontier never
    recedes. *)
Lemma free_frontier a loc ok a' :
  free a loc = Ok (ok, a') → live_hwm a' = live_hwm a ∧ reclaim_floor a' = reclaim_floor a.
Proof.
  unfold free. destruct (BTreeMap.get (region_tags a) (addr loc)) as [r|]; [|by intros [= <- <-]].
  set (a1 := set_tags _ _).
  destruct (pack_close_fields a1 (addr loc) (footprint (blk_len loc))) as (Eh&_&_&_&_&_&_&Er).
  intros (fl&_&[= <- <-])%bind_ok. by destruct r; cbn; rewrite Eh, Er.
Qed.

Lemma free_all_frontier l a a' :
  free_all a l = Ok a' → live_hwm a' = live_hwm a ∧ reclaim_floor a' = reclaim_floor a.
Proof.
  revert a. induction l as [|loc l IH]; cbn; intros a; [by intros [= <-]|].
  intros ([ok a1]&[E1 E2]%free_frontier&[E3 E4]%IH)%bind_ok. by rewrite E3, E4.
Qed.

Lemma step_scope s s' f :
  sinv s → step s s' → reclaim_floor (al s) = Some f → f ≤ live_hwm (al s) →
  (reclaim_floor (al s') = None ∨ reclaim_floor (al s') = Some f) ∧
  live_hwm (al s) ≤ live_hwm (al s').
Proof.
  intros Hi Hs Hf Hle. unfold sinv in Hi. destruct Hs; cbn in *.
  - pose proof (alloc_aligned_spec a b l p len r Hi ltac:(done)) as Hal.
    match goal with Heq : alloc_aligned _ _ _ = _ |- _ => rewrite Heq in Hal end.
    destruct Hal as (delta&_&_&_&_&_&Er&_&_&?). rewrite Er. auto.
  - destruct (decide (0 < need < BASE_BLOCK)) as [Hn|Hn].
    + pose proof (alloc_packed_spec a b l p need Hi Hn) as Hal.
      match goal with Heq : alloc_packed _ _ = _ |- _ => rewrite Heq in Hal end.
      destruct Hal as (_&_&_&_&Er&_&?). rewrite Er. auto.
    + exfalso. match goal with Heq : alloc_packed _ _ = _ |- _ => unfold alloc_packed in Heq end.
      destruct (Z.ltb_spec 0 need), (Z.ltb_spec need BASE_BLOCK); cbn in *; (done || lia).
  - match goal with Heq : free _ _ = _ |- _ => apply free_frontier in Heq as [-> ->] end.
    split; [auto|lia].
  - match goal with Heq : free_reclaimable _ _ = _ |- _ => unfold free_reclaimable in Heq end.
    rewrite Hf in *. case_match; [|done].
    match goal with Heq : free _ _ = _ |- _ => apply free_frontier in Heq as [-> ->] end.
    split; [auto|lia].
  - split; [auto|lia].
  - match goal with Heq : publish_deferred _ = _ |- _ => apply free_all_frontier in Heq as [-> ->] end.
    split; [auto|cbn; lia].
  - split; [auto|lia].
  - rewrite Hf. rewrite Z.min_l by lia. split; [auto|lia].
  - split; [auto|lia].
  - split; [auto|]. lia.
  - split; [auto|lia].
  - unfold register_eviction_tail_block. case_match; cbn; split; (auto || lia).
  - unfold set_wal_reservation. case_match; cbn; split; (auto || lia).
  - match goal with Heq : insert_free_extent _ _ _ _ = _ |- _ => unfold insert_free_extent in Heq end.
    destruct (pack_close_fields a x n) as (Eh&_&_&_&_&_&_&Er). do 2 (case_match; [done|]).
    match goal with Heq : _ ≫= _ = _ |- _ => apply bind_ok in Heq as (fl&_&[= <-]) end.
    destruct r; cbn; rewrite Eh, Er; split; (auto || lia).
Qed.

(** C26. The reclaim scope of a transaction spares committed data: a catalog
    or data block that was allocated when the scope was opened is never freed
    by [free_reclaimable] while the scope stays open, whatever is allocated or
    freed in between. *)
Theorem reclaim_scope_spares_committed (b : Backend.t) (s s' : state) (blk : Block) (loc : BlockLoc) :
  Backend.wf b → aligned (Backend.len b) → 2 * BASE_BLOCK ≤ Backend.len b →
  rtc step (init b) s → reclaim_floor (al s) = None →
  blk ∈ live s → b_region blk ≠ EvictionTail → addr loc = b_addr blk →
  rtc (λ s1 s2, step s1 s2 ∧ in_reclaim_scope (al s2) = true)
      (mkState (begin_reclaim_scope (al s)) (be s) (live s) (packed s)) s' →
  in_reclaim_scope (al s') = true ∧ free_reclaimable (al s') loc = Ok (false, al s').
Proof.
  intros Hwf Ha Hlen Hs Hnone Hin Hr Hloc Hsteps. apply history_inv in Hs; [|done..].
  set (f := live_hwm (al s)).
  assert (b_addr blk < f) as Hlt.
  { destruct (g_blocks _ _ _ _ _ (i_geo _ _ _ _ Hs) blk Hin) as [_ Hsz Hz].
    specialize (Hz (b_addr blk)). unfold in_block in Hz.
    destruct (b_region blk); cbn in Hz; [lia|lia|done]. }
  set (s0 := mkState (begin_reclaim_scope (al s)) (be s) (live s) (packed s)) in *.
  assert (sinv s0) as Hi0 by (eapply step_inv; [exact Hs|]; destruct s; apply step_begin).
  assert (reclaim_floor (al s0) = Some f) as Hf0 by (cbn; by rewrite Hnone).
  assert (f ≤ live_hwm (al s0)) as Hle0 by (cbn; lia). clearbody s0 f. clear Hs Hin Hnone.
  assert (reclaim_floor (al s') = Some f) as Hf.
  { induction Hsteps as [|s0 s1 s' [Hst Hsc] _ IH]; [done|].
    destruct (step_scope _ _ f Hi0 Hst Hf0 Hle0) as [Hf1 Hh1].
    unfold in_reclaim_scope in Hsc. apply bool_decide_eq_true in Hsc.
    destruct Hf1 as [Hf1|Hf1]; [rewrite Hf1 in Hsc; by destruct Hsc|].
    apply IH; [by eapply step_inv|done|lia]. }
  split; [unfold in_reclaim_scope; rewrite Hf; by apply bool_decide_eq_true; eauto|].
  unfold free_reclaimable. rewrite Hf. by replace (f <=? addr loc) with false by lia.
Qed.

Lemma reclaim_scope_spares_committed_witness :
  free_reclaimable (begin_reclaim_scope ex_a) (mkBlockLoc 8192 100) =
  Ok (false, begin_reclaim_scope ex_a).
Proof.
  apply (reclaim_scope_spares_committed ex_b
    (mkState ex_a ex_b [mkBlock 8192 4096 LiveMid] [])
    (mkState (begin_reclaim_scope ex_a) ex_b [mkBlock 8192 4096 LiveMid] [])
    (mkBlock 8192 4096 LiveMid) (mkBlockLoc 8192 100)).
  - exact ex_b_wf.
  - by_compute.
  - by_compute.
  - exact ex_history.
  - reflexivity.
  - by left.
  - discriminate.
  - reflexivity.
  - apply rtc_refl.
Defined.
