(* ===== verification/Unit.v ===== *)
(** * Unit records (crates/sfs-core/src/unit.rs)

    The CRC-protected record of a unit: its two versioned streams with their
    fragment maps, locations, version vectors and pins, the optional trailing
    fields, the canonical payload that signatures cover with its parser, and
    the per-commit bitmaps. *)

From S2P Require Import Prelude.
From S2P Require Import Reader.
From S2P Require Import Vector.
From S2P Require Import Crypto.
From S2P Require Import Alloc.

Definition UNIT_MAGIC : bytes := bstr "sfsu" ++ byte1 0 ++ bstr "r1" ++ byte1 0.

Record CommitBitmap := mkBitmap { bm_commit : bytes; bm_bits : bytes }.

Definition MIN_FRAGSIZE_EXP : Z := 12.
Definition MAX_FRAGSIZE_EXP : Z := 25.

Record StreamMeta := mkStream {
  sm_unit_map : list Z;
  sm_locations : list BlockLoc;
  sm_vv : VersionVector.t;
  sm_fragsize_exp : Z;
  sm_last_frag_length : Z;
  sm_pins : list CommitBitmap;
}.

Inductive UnitKind := Blob | KvRecord.

Record DbHead := mkDbHead { db_store : bytes; db_pk : bytes; db_kind : UnitKind }.

(** [streams[0]] is [ur_content] and [streams[1]] is [ur_meta]. *)
Record UnitRecord := mkUnit {
  ur_uuid : bytes;
  ur_content : option StreamMeta;
  ur_meta : option StreamMeta;
  ur_parent : option Z;
  ur_concurrent_strains : list Z;
  ur_content_suite : option Z;
  ur_frag_suites : list Z;
  ur_signature : option bytes;
  ur_db : option DbHead;
  ur_superseded : list Z;
}.

(** ** Encoding *)

(** A [u32] count and the entries. *)
Definition counted {A} (enc : A → bytes) (l : list A) : bytes :=
  le_bytes 4 (blen l) ++ concat (enc <$> l).

Definition loc_bytes (l : BlockLoc) : bytes := le_bytes 8 (addr l) ++ le_bytes 4 (blk_len l).
Definition pin_bytes (p : CommitBitmap) : bytes :=
  bm_commit p ++ le_bytes 4 (blen (bm_bits p)) ++ bm_bits p.

Definition encode_stream_meta (sm : StreamMeta) : bytes :=
  counted (le_bytes 8) (sm_unit_map sm) ++
  counted loc_bytes (sm_locations sm) ++
  le_bytes 4 (blen (VersionVector.to_bytes (sm_vv sm))) ++ VersionVector.to_bytes (sm_vv sm) ++
  byte1 (sm_fragsize_exp sm) ++
  le_bytes 4 (sm_last_frag_length sm) ++
  counted pin_bytes (sm_pins sm).

(** [None] is a zero flag byte, [Some] a one and the payload. *)
Definition flagged {A} (enc : A → bytes) (o : option A) : bytes :=
  match o with
  | None => byte1 0
  | Some a => byte1 1 ++ enc a
  end.

Definition stream_flags (r : UnitRecord) : Z :=
  Z.lor (if ur_content r is Some _ then 1 else 0) (if ur_meta r is Some _ then 2 else 0).

Definition stream_bytes (o : option StreamMeta) : bytes :=
  match o with
  | None => []
  | Some sm => encode_stream_meta sm
  end.

Definition kind_byte (k : UnitKind) : Z :=
  match k with
  | Blob => 0
  | KvRecord => 1
  end.

Definition db_bytes (d : DbHead) : bytes := db_store d ++ db_pk d ++ byte1 (kind_byte (db_kind d)).

Definition encode_fields (r : UnitRecord) : bytes :=
  ur_uuid r ++ flagged (le_bytes 8) (ur_parent r) ++ byte1 (stream_flags r) ++
  stream_bytes (ur_content r) ++ stream_bytes (ur_meta r) ++
  counted (le_bytes 8) (ur_concurrent_strains r) ++
  flagged (le_bytes 2) (ur_content_suite r) ++
  counted (le_bytes 2) (ur_frag_suites r) ++
  flagged id (ur_signature r) ++
  flagged db_bytes (ur_db r) ++
  counted (le_bytes 8) (ur_superseded r).

(** ** Decoding *)

Definition short (what : string) : Error := Integrity ("UnitRecord decode: buffer too short " ++ what).

Definition read_u32_le : Rd Z := rd_le 4 (short "(need u32)").
Definition read_u64_le : Rd Z := rd_le 8 (short "(need u64)").
Definition read_bytes (n : Z) : Rd bytes := rd_get n (short "(need N bytes)").

Definition read_loc : Rd BlockLoc :=
  addr ← read_u64_le; len ← read_u32_le; mret (mkBlockLoc addr len).

Definition read_pin : Rd CommitBitmap :=
  commit ← read_bytes 16;
  bits_len ← read_u32_le;
  bits ← rd_get bits_len (short "for pin bits");
  mret (mkBitmap commit bits).

Definition decode_stream_meta : Rd StreamMeta :=
  unit_map ← rd_counted 0 8 (short "(need u32)") (Integrity "unit_map length exceeds buffer") read_u64_le;
  locations ← rd_counted 0 12 (short "(need u32)") (Integrity "locations length exceeds buffer") read_loc;
  _ ← rd_require (blen unit_map =? blen locations)
        (Integrity "StreamMeta: unit_map and locations length mismatch");
  vv_len ← read_u32_le;
  vv_slice ← rd_get vv_len (short "for vv");
  vv ← rd_lift (VersionVector.from_bytes vv_slice);
  fragsize_exp ← rd_byte (short "for fragsize_exp");
  last_frag_length ← read_u32_le;
  pins ← rd_counted 0 20 (short "(need u32)") (Integrity "pins_count exceeds buffer") read_pin;
  mret (mkStream unit_map locations vv fragsize_exp last_frag_length pins).

(** A flag byte 0 or 1 and the payload of 1. *)
Definition read_flagged {A} (what : string) (f : Rd A) : Rd (option A) :=
  flag ← rd_byte (short ("for " ++ what));
  if flag =? 0 then mret None
  else if flag =? 1 then a ← f; mret (Some a)
  else rd_fail (Integrity ("UnitRecord decode: invalid " ++ what)).

(** One round of the loop over the two streams. *)
Definition decode_stream (flags idx : Z) : Rd (option StreamMeta) :=
  if Z.land flags (Z.shiftl 1 idx) =? 0 then mret None
  else
    sm ← rd_before_end 4 (Integrity "UnitRecord decode: buffer exhausted before stream data")
           (rd_body 4 decode_stream_meta);
    mret (Some sm).

Definition read_db : Rd DbHead :=
  store ← read_bytes 16;
  pk ← read_bytes 16;
  kind_byte ← rd_byte (short "for db kind");
  kind ← (if kind_byte =? 0 then mret Blob
          else if kind_byte =? 1 then mret KvRecord
          else rd_fail (Integrity "UnitRecord decode: invalid db kind"));
  mret (mkDbHead store pk kind).

(** The fields from offset 8 on; the last four bytes are the CRC. *)
Definition decode_fields : Rd UnitRecord :=
  uuid ← read_bytes 16;
  parent ← read_flagged "parent_flag" read_u64_le;
  stream_flags ← rd_byte (short "for stream_flags");
  _ ← rd_require (Z.land stream_flags 252 =? 0) (Integrity "UnitRecord decode: unknown stream flags");
  content ← decode_stream stream_flags 0;
  meta ← decode_stream stream_flags 1;
  _ ← rd_require
        match content with
        | Some sm => (MIN_FRAGSIZE_EXP <=? sm_fragsize_exp sm) && (sm_fragsize_exp sm <=? MAX_FRAGSIZE_EXP)
        | None => true
        end (Integrity "content stream fragsize_exp out of range");
  concurrent_strains ← rd_optional 4 [] (rd_counted 4 8 (short "(need u32)")
        (Integrity "UnitRecord decode: strains_count exceeds buffer") read_u64_le);
  content_suite ← rd_optional 4 None
        (read_flagged "content_suite_flag" (rd_le 2 (short "(need N bytes)")));
  frag_suites ← rd_optional 4 [] (rd_counted 4 2 (short "(need u32)")
        (Integrity "UnitRecord decode: frag_suites count exceeds buffer")
        (rd_le 2 (short "(need N bytes)")));
  signature ← rd_optional 4 None (read_flagged "sig_flag" (read_bytes 64));
  db ← rd_optional 4 None (read_flagged "db_flag" read_db);
  superseded ← rd_optional 4 [] (rd_counted 4 8 (short "(need u32)")
        (Integrity "UnitRecord decode: superseded count exceeds buffer") read_u64_le);
  mret (mkUnit uuid content meta parent concurrent_strains content_suite frag_suites signature db
          superseded).

Section codec.
Context `{!Crc32}.

(** [UnitRecord::encode] *)
Definition encode (r : UnitRecord) : bytes :=
  let body := UNIT_MAGIC ++ encode_fields r in
  body ++ le_bytes 4 (crc32 body).

(** [UnitRecord::decode] *)
Definition decode (buf : bytes) : res UnitRecord :=
  if blen buf <? 30 then Err (short "(need 30)")
  else
    '(magic, _) ← read_bytes 8 buf 0;
    if negb (bool_decide (magic = UNIT_MAGIC)) then Err (Integrity "UnitRecord decode: bad magic")
    else
      let body_end := blen buf - 4 in
      '(stored_crc, _) ← read_u32_le buf body_end;
      body ← index_range buf 0 body_end;
      if negb (stored_crc =? crc32 body) then Err (Integrity "UnitRecord decode: CRC mismatch")
      else
        '(r, _) ← decode_fields buf 8;
        Ok r.

End codec.

(** ** The signing payload *)

Definition SIG_MAGIC : bytes := bstr "sfsu-sig".
Definition DB_TAG : bytes := bstr "sfsu-db".

Definition stream_sig_bytes (o : option StreamMeta) : bytes :=
  match o with
  | None => []
  | Some sm =>
      counted (le_bytes 8) (sm_unit_map sm) ++
      le_bytes 4 (blen (VersionVector.to_bytes (sm_vv sm))) ++ VersionVector.to_bytes (sm_vv sm) ++
      byte1 (sm_fragsize_exp sm) ++ le_bytes 4 (sm_last_frag_length sm)
  end.

(** [UnitRecord::signing_payload] *)
Definition signing_payload (r : UnitRecord) : bytes :=
  SIG_MAGIC ++ ur_uuid r ++ byte1 (stream_flags r) ++
  stream_sig_bytes (ur_content r) ++ stream_sig_bytes (ur_meta r) ++
  match ur_db r with
  | None => []
  | Some db => DB_TAG ++ db_bytes db
  end.

Record ParsedStreamSig := mkStreamSig {
  ps_unit_map : list Z;
  ps_vv_bytes : bytes;
  ps_fragsize_exp : Z;
  ps_last_frag_length : Z;
}.

Record ParsedSigningPayload := mkSigPayload {
  pp_uuid : bytes;
  pp_content : option ParsedStreamSig;
  pp_meta : option ParsedStreamSig;
}.

(** One round of the loop over the two streams. *)
Definition parse_stream_sig (flags idx : Z) : Rd (option ParsedStreamSig) :=
  if Z.land flags (Z.shiftl 1 idx) =? 0 then mret None
  else
    unit_map ← rd_counted 0 8 (short "(need u32)")
      (Integrity "signing_payload: unit_map length exceeds buffer") read_u64_le;
    vv_len ← read_u32_le;
    vv_bytes ← rd_get vv_len (Integrity "signing_payload: vv_bytes truncated");
    fragsize_exp ← rd_byte (Integrity "signing_payload: too short for fragsize_exp");
    last_frag_length ← read_u32_le;
    mret (Some (mkStreamSig unit_map vv_bytes fragsize_exp last_frag_length)).

Definition parse_sig_fields : Rd ParsedSigningPayload :=
  magic ← rd_get 8 (Integrity "signing_payload: too short for magic");
  _ ← rd_require (bool_decide (magic = SIG_MAGIC)) (Integrity "signing_payload: bad magic");
  uuid ← read_bytes 16;
  stream_flags ← rd_byte (Integrity "signing_payload: too short for stream_flags");
  _ ← rd_require (Z.land stream_flags 252 =? 0) (Integrity "signing_payload: unknown stream flags");
  content ← parse_stream_sig stream_flags 0;
  meta ← parse_stream_sig stream_flags 1;
  mret (mkSigPayload uuid content meta).

(** [parse_signing_payload] *)
Definition parse_signing_payload (buf : bytes) : res ParsedSigningPayload :=
  '(p, off) ← parse_sig_fields buf 0;
  if negb (off =? blen buf) then Err (Integrity "signing_payload: trailing bytes after parse")
  else Ok p.

(** ** Commit bitmaps *)

(** [bits[byte]] after [op], for a byte in range. *)
Definition update_byte (bits : bytes) (i : nat) (op : Z → Z) : bytes :=
  match bits !! i with
  | Some b => <[i := byte.of_Z (op (byte.unsigned b))]> bits
  | None => bits
  end.

Definition bitmap_set_bit (bits : bytes) (frag : Z) : bytes :=
  let byte := Z.to_nat (frag `div` 8) in
  let bit := 7 - frag `mod` 8 in
  let bits := bits ++ zeros (S byte - length bits) in
  update_byte bits byte (λ b, Z.lor b (Z.shiftl 1 bit)).

Definition bitmap_get_bit (bits : bytes) (frag : Z) : bool :=
  let byte := frag `div` 8 in
  let bit := 7 - frag `mod` 8 in
  match get_byte bits byte with
  | Some b => negb (Z.land b (Z.shiftl 1 bit) =? 0)
  | None => false
  end.

Definition bitmap_clear_bit (bits : bytes) (frag : Z) : bytes :=
  let byte := Z.to_nat (frag `div` 8) in
  let bit := 7 - frag `mod` 8 in
  update_byte bits byte (λ b, Z.land b (Z.lxor 255 (Z.shiftl 1 bit))).

(** ** Well-formed records *)

Definition loc_ok (l : BlockLoc) : Prop := u64 (addr l) ∧ u32 (blk_len l).
Definition pin_ok (p : CommitBitmap) : Prop := blen (bm_commit p) = 16 ∧ blen (bm_bits p) < 2 ^ 32.
Definition list_ok {A} (P : A → Prop) (l : list A) : Prop := blen l < 2 ^ 32 ∧ Forall P l.
Definition opt_ok {A} (P : A → Prop) (o : option A) : Prop :=
  match o with
  | Some a => P a
  | None => True
  end.

(** What [decode_stream_meta] accepts: the maps are parallel, the vector is
    sorted, every field fits its width. *)
Definition stream_ok (sm : StreamMeta) : Prop :=
  list_ok u64 (sm_unit_map sm) ∧ list_ok loc_ok (sm_locations sm) ∧
  blen (sm_unit_map sm) = blen (sm_locations sm) ∧
  (VersionVector.wf (sm_vv sm) ∧ blen (VersionVector.entries (sm_vv sm)) < 2 ^ 16) ∧
  u8 (sm_fragsize_exp sm) ∧ u32 (sm_last_frag_length sm) ∧ list_ok pin_ok (sm_pins sm).

Definition content_exp_ok (sm : StreamMeta) : Prop :=
  MIN_FRAGSIZE_EXP ≤ sm_fragsize_exp sm ≤ MAX_FRAGSIZE_EXP.
Definition db_ok (d : DbHead) : Prop := blen (db_store d) = 16 ∧ blen (db_pk d) = 16.

Definition unit_ok (r : UnitRecord) : Prop :=
  blen (ur_uuid r) = 16 ∧
  opt_ok (λ sm, stream_ok sm ∧ content_exp_ok sm) (ur_content r) ∧
  opt_ok stream_ok (ur_meta r) ∧
  opt_ok u64 (ur_parent r) ∧
  list_ok u64 (ur_concurrent_strains r) ∧
  opt_ok u16 (ur_content_suite r) ∧
  list_ok u16 (ur_frag_suites r) ∧
  opt_ok (λ s, blen s = 64) (ur_signature r) ∧
  opt_ok db_ok (ur_db r) ∧
  list_ok u64 (ur_superseded r).

(** ** Reading back *)

Lemma blen_UNIT_MAGIC : blen UNIT_MAGIC = 8.
Proof. done. Qed.
#[local] Hint Rewrite blen_UNIT_MAGIC : blen.

Lemma reads_counted_ok {A} k margin w e1 e2 (f : Rd A) (enc : A → bytes) (P : A → Prop) l :
  0 < w → margin ≤ k → (∀ x, P x → w ≤ blen (enc x)) → (∀ x, P x → reads k f (enc x) x) →
  list_ok P l → reads k (rd_counted margin w e1 e2 f) (counted enc l) l.
Proof.
  intros ?? Hw Hf [? HP]. apply reads_counted; [done..| |];
    (eapply Forall_impl; [exact HP|]); auto.
Qed.

Lemma reads_flagged {A} k what (f : Rd A) (enc : A → bytes) o :
  opt_ok (λ a, reads k f (enc a) a) o → reads k (read_flagged what f) (flagged enc o) o.
Proof.
  intros Ho. unfold read_flagged. destruct o as [a|]; cbn [flagged].
  - eapply reads_bind; [by apply reads_byte|]. eapply reads_bind_last; [exact Ho|apply reads_ret].
  - eapply reads_bind_last; [by apply reads_byte|apply reads_ret].
Qed.

Lemma reads_loc k l : loc_ok l → reads k read_loc (loc_bytes l) l.
Proof.
  intros [? ?]. eapply reads_bind; [by apply reads_u64|]. eapply reads_bind_last; [by apply reads_u32|].
  destruct l. apply reads_ret.
Qed.

Lemma reads_pin k p : pin_ok p → reads k read_pin (pin_bytes p) p.
Proof.
  intros [? ?]. pose proof (blen_nonneg (bm_bits p)). eapply reads_bind; [by apply reads_get|].
  eapply reads_bind; [apply reads_u32; width_lia|]. eapply reads_bind_last; [by apply reads_get|].
  destruct p. apply reads_ret.
Qed.

Lemma reads_u64s k margin e1 e2 l :
  margin ≤ k → list_ok u64 l → reads k (rd_counted margin 8 e1 e2 read_u64_le) (counted (le_bytes 8) l) l.
Proof.
  intros. eapply reads_counted_ok; [done..| | |done]; intros.
  - by rewrite blen_le_bytes.
  - by apply reads_u64.
Qed.

Lemma vv_bytes_u32 v : blen (VersionVector.entries v) < 2 ^ 16 → u32 (blen (VersionVector.to_bytes v)).
Proof.
  rewrite VersionVector.to_bytes_length. pose proof (blen_nonneg (VersionVector.entries v)). width_lia.
Qed.

Lemma reads_stream_meta sm : stream_ok sm → reads 0 decode_stream_meta (encode_stream_meta sm) sm.
Proof.
  intros (Hm&Hl&Heq&(Hv&Hvl)&?&?&Hp). unfold decode_stream_meta, encode_stream_meta.
  eapply reads_bind; [by apply reads_u64s|].
  eapply reads_bind.
  { eapply reads_counted_ok; [done..| | |exact Hl]; [|by apply reads_loc].
    intros l _. unfold loc_bytes. blia. }
  eapply reads_bind_nil; [apply reads_require; lia|].
  eapply reads_bind; [by apply reads_u32, vv_bytes_u32|].
  eapply reads_bind; [by apply reads_get|].
  eapply reads_bind_nil; [by apply reads_lift, VersionVector.from_bytes_to_bytes|].
  eapply reads_bind; [by apply reads_byte|]. eapply reads_bind; [by apply reads_u32|].
  eapply reads_bind_last.
  { eapply reads_counted_ok; [done..| | |exact Hp]; [|by apply reads_pin].
    intros p [? ?]. unfold pin_bytes. autorewrite with blen. pose proof (blen_nonneg (bm_bits p)). lia. }
  destruct sm. apply reads_ret.
Qed.

Lemma blen_counted_pos {A} (enc : A → bytes) l : 0 < blen (counted enc l).
Proof. unfold counted. autorewrite with blen. pose proof (blen_nonneg (concat (enc <$> l))). lia. Qed.
Lemma blen_flagged_pos {A} (enc : A → bytes) o : 0 < blen (flagged enc o).
Proof. destruct o; cbn [flagged]; autorewrite with blen; [pose proof (blen_nonneg (enc a))|]; lia. Qed.

Lemma reads_stream flags idx o :
  opt_ok stream_ok o → (Z.land flags (Z.shiftl 1 idx) =? 0) = (if o is Some _ then false else true) →
  reads 4 (decode_stream flags idx) (stream_bytes o) o.
Proof.
  intros Ho Hf. unfold decode_stream. rewrite Hf. destruct o as [sm|]; [|apply reads_ret].
  eapply reads_bind_last; [|apply reads_ret]. apply reads_before_end; [done| |].
  - unfold stream_bytes, encode_stream_meta. autorewrite with blen.
    pose proof (blen_counted_pos (le_bytes 8) (sm_unit_map sm)).
    pose proof (blen_counted_pos loc_bytes (sm_locations sm)).
    pose proof (blen_counted_pos pin_bytes (sm_pins sm)).
    pose proof (blen_nonneg (VersionVector.to_bytes (sm_vv sm))). lia.
  - apply reads_body; [done|]. by apply reads_stream_meta.
Qed.

Lemma reads_db k d : db_ok d → reads k read_db (db_bytes d) d.
Proof.
  intros [? ?]. do 2 (eapply reads_bind; [by apply reads_get|]).
  eapply reads_bind_last; [apply reads_byte; by destruct (db_kind d)|].
  eapply (reads_bind_nil _ _ _ _ (db_kind d)); [|destruct d; apply reads_ret].
  destruct (db_kind d); apply reads_ret.
Qed.

Lemma reads_fields r : unit_ok r → reads 4 decode_fields (encode_fields r) r.
Proof.
  intros (?&Hc&Hm&Hp&?&Hs&Hf&Hsig&Hdb&?). unfold decode_fields, encode_fields.
  eapply reads_bind; [by apply reads_get|].
  eapply reads_bind.
  { apply reads_flagged. destruct (ur_parent r); [|done]. by apply reads_u64. }
  eapply reads_bind; [apply reads_byte; unfold stream_flags; by destruct (ur_content r), (ur_meta r)|].
  eapply reads_bind_nil.
  { apply reads_require. unfold stream_flags. by destruct (ur_content r), (ur_meta r). }
  eapply reads_bind.
  { apply reads_stream; [by destruct (ur_content r) as [sm|]; [destruct Hc|]|].
    unfold stream_flags. by destruct (ur_content r), (ur_meta r). }
  eapply reads_bind.
  { apply reads_stream; [done|]. unfold stream_flags. by destruct (ur_content r), (ur_meta r). }
  eapply reads_bind_nil.
  { apply reads_require. destruct (ur_content r) as [sm|]; [|done]. destruct Hc as [_ Hc].
    unfold content_exp_ok in Hc. lia. }
  eapply reads_bind; [apply reads_optional; [done|apply blen_counted_pos|by apply reads_u64s]|].
  eapply reads_bind.
  { apply reads_optional; [done|apply blen_flagged_pos|]. apply reads_flagged.
    destruct (ur_content_suite r); [|done]. by apply reads_u16. }
  eapply reads_bind.
  { apply reads_optional; [done|apply blen_counted_pos|].
    eapply reads_counted_ok; [done..| | |exact Hf]; intros; [by rewrite blen_le_bytes|by apply reads_u16]. }
  eapply reads_bind.
  { apply reads_optional; [done|apply blen_flagged_pos|]. apply reads_flagged.
    destruct (ur_signature r); [|done]. by apply reads_get. }
  eapply reads_bind.
  { apply reads_optional; [done|apply blen_flagged_pos|]. apply reads_flagged.
    destruct (ur_db r); [|done]. by apply reads_db. }
  eapply reads_bind_last; [apply reads_optional; [done|apply blen_counted_pos|by apply reads_u64s]|].
  destruct r. apply reads_ret.
Qed.

(** ** What decoding accepts *)

Lemma yields_u64 e : yields (rd_le 8 e) u64.
Proof. apply yields_le. Qed.
Lemma yields_u32 e : yields (rd_le 4 e) u32.
Proof. apply yields_le. Qed.
Lemma yields_u16 e : yields (rd_le 2 e) u16.
Proof. apply yields_le. Qed.

Lemma yields_list_ok {A} margin w e1 e2 (f : Rd A) P :
  yields f P → yields (rd_counted margin w e1 e2 f) (list_ok P).
Proof. apply yields_counted. Qed.

Lemma yields_flagged {A} what (f : Rd A) P : yields f P → yields (read_flagged what f) (opt_ok P).
Proof.
  intros Hf. eapply yields_bind; [apply yields_byte|]. intros b _.
  destruct (b =? 0); [by apply yields_ret|]. destruct (b =? 1); [|apply yields_fail].
  eapply yields_bind; [exact Hf|]. intros. by apply yields_ret.
Qed.

Lemma yields_loc : yields read_loc loc_ok.
Proof.
  eapply yields_bind; [apply yields_u64|]. intros. eapply yields_bind; [apply yields_u32|].
  intros. by apply yields_ret.
Qed.

Lemma yields_pin : yields read_pin pin_ok.
Proof.
  eapply yields_bind; [apply yields_get|]. intros. eapply yields_bind; [apply yields_u32|].
  intros n Hn. eapply yields_bind; [apply yields_get|]. intros bits Hb.
  apply yields_ret. split; cbn in *; width_lia.
Qed.

Lemma yields_stream_meta : yields decode_stream_meta stream_ok.
Proof.
  eapply yields_bind; [apply yields_list_ok, yields_u64|]. intros um Hum.
  eapply yields_bind; [apply yields_list_ok, yields_loc|]. intros locs Hlocs.
  eapply yields_bind; [apply yields_require|]. intros ? Heq; cbv beta in Heq.
  eapply yields_bind; [apply yields_u32|]. intros n Hn.
  eapply yields_bind; [apply yields_get|]. intros vvb Hvvb.
  eapply yields_bind; [apply yields_lift; intros ?; apply VersionVector.from_bytes_inv|].
  intros vv (Hv&Hvl&_).
  eapply yields_bind; [apply yields_byte|]. intros ex Hex.
  eapply yields_bind; [apply yields_u32|]. intros lf Hlf.
  eapply yields_bind; [apply yields_list_ok, yields_pin|]. intros pins Hpins.
  apply yields_ret. unfold stream_ok; cbn. split_and!; try done. lia.
Qed.

Lemma yields_stream flags idx : yields (decode_stream flags idx) (opt_ok stream_ok).
Proof.
  unfold decode_stream. destruct (_ =? 0); [by apply yields_ret|].
  eapply yields_bind; [apply yields_before_end, yields_body, yields_stream_meta|].
  intros. by apply yields_ret.
Qed.

Lemma yields_db : yields read_db db_ok.
Proof.
  eapply yields_bind; [apply yields_get|]. intros st Hst.
  eapply yields_bind; [apply yields_get|]. intros pk Hpk.
  eapply yields_bind; [apply yields_byte|]. intros kb _.
  eapply (yields_bind _ _ (λ _, True)); [by intros ?????|]. intros k _. by apply yields_ret.
Qed.

Lemma list_ok_nil {A} (P : A → Prop) : list_ok P [].
Proof. split; [by_compute|constructor]. Qed.

(** An optional trailing field; its absence is an accepted value. *)
Ltac yields_opt tac :=
  eapply yields_bind;
    [eapply yields_optional; [|tac]; first [apply list_ok_nil|exact I]|].

Lemma yields_fields : yields decode_fields unit_ok.
Proof.
  eapply yields_bind; [apply yields_get|]. intros uuid ?.
  eapply yields_bind; [apply yields_flagged, yields_u64|]. intros parent ?.
  eapply yields_bind; [apply yields_byte|]. intros flags _.
  eapply yields_bind; [apply yields_require|]. intros ? _.
  eapply yields_bind; [apply yields_stream|]. intros content Hc.
  eapply yields_bind; [apply yields_stream|]. intros meta ?.
  eapply yields_bind; [apply yields_require|]. intros ? Hexp; cbv beta in Hexp.
  yields_opt ltac:(apply yields_list_ok, yields_u64). intros strains ?.
  yields_opt ltac:(apply yields_flagged, yields_u16). intros suite ?.
  yields_opt ltac:(apply yields_list_ok, yields_u16). intros fs ?.
  yields_opt ltac:(apply yields_flagged, yields_get). intros sig ?.
  yields_opt ltac:(apply yields_flagged, yields_db). intros db ?.
  yields_opt ltac:(apply yields_list_ok, yields_u64). intros sup ?.
  apply yields_ret. unfold unit_ok; cbn. split_and!; try done.
  destruct content as [sm|]; [|done]. split; [done|]. unfold content_exp_ok. lia.
Qed.

(** ** Panic freedom *)

#[local] Hint Resolve VersionVector.from_bytes_no_panic : panic.

Lemma safe_stream_meta k : safe k decode_stream_meta.
Proof. unfold decode_stream_meta, read_loc, read_pin. solve_safe. Qed.

Lemma safe_fields : safe 4 decode_fields.
Proof.
  unfold decode_fields, read_flagged, decode_stream, read_db. pose proof (safe_stream_meta 0). solve_safe.
Qed.

Lemma safe_sig_fields : safe 0 parse_sig_fields.
Proof. unfold parse_sig_fields, parse_stream_sig. solve_safe. Qed.

(** ** Properties *)

Section properties.
Context `{!Crc32}.

Lemma blen_encode_fields r : unit_ok r → 22 ≤ blen (encode_fields r).
Proof.
  intros (?&_). unfold encode_fields. autorewrite with blen.
  pose proof (blen_nonneg (stream_bytes (ur_content r))). pose proof (blen_nonneg (stream_bytes (ur_meta r))).
  pose proof (blen_counted_pos (le_bytes 8) (ur_concurrent_strains r)).
  pose proof (blen_counted_pos (le_bytes 2) (ur_frag_suites r)).
  pose proof (blen_counted_pos (le_bytes 8) (ur_superseded r)).
  pose proof (blen_flagged_pos (le_bytes 8) (ur_parent r)).
  pose proof (blen_flagged_pos (le_bytes 2) (ur_content_suite r)).
  pose proof (blen_flagged_pos id (ur_signature r)). pose proof (blen_flagged_pos db_bytes (ur_db r)). lia.
Qed.

(** The body and the checksum of a record that ends in the CRC of its body. *)
Lemma crc_frame body e :
  let enc := body ++ le_bytes 4 (crc32 body) in
  blen enc = blen body + 4 ∧ rd_le 4 e enc (blen enc - 4) = Ok (crc32 body, blen enc) ∧
  index_range enc 0 (blen enc - 4) = Ok body.
Proof.
  intros enc. assert (blen enc = blen body + 4) as Hl by (unfold enc; blia).
  replace (blen enc - 4) with (blen body) by lia. split_and!; [done| |].
  - rewrite (reads_u32 0 e (crc32 body) (crc32_u32 _) enc (blen body) []);
      [by rewrite Hl, blen_le_bytes| |done]. rewrite app_nil_r. apply at_cursor_app.
  - eapply index_range_cursor; [apply at_cursor_start|done|done].
Qed.

Lemma decode_encode r : unit_ok r → decode (encode r) = Ok r.
Proof.
  intros Hr. pose proof (blen_encode_fields r Hr). set (body := UNIT_MAGIC ++ encode_fields r).
  destruct (crc_frame body (short "(need u32)")) as (Hlen&Hcrc&Hbody).
  change (body ++ le_bytes 4 (crc32 body)) with (encode r) in *.
  assert (blen body = 8 + blen (encode_fields r)) by (unfold body; blia).
  assert (at_cursor (encode r) 0 (UNIT_MAGIC ++ encode_fields r ++ le_bytes 4 (crc32 body))) as Hc
    by (rewrite app_assoc; apply at_cursor_start).
  unfold decode. replace (blen (encode r) <? 30) with false by lia.
  eapply bind_step; [by eapply (reads_get 0 8); [|exact Hc|apply blen_nonneg]|].
  cbv beta iota. branch false. eapply bind_step; [exact Hcrc|].
  eapply bind_step; [exact Hbody|]. cbv beta iota. rewrite Z.eqb_refl. cbn [negb].
  rewrite (reads_fields r Hr (encode r) 8 (le_bytes 4 (crc32 body))); [done| |by rewrite blen_le_bytes].
  by eapply at_cursor_skip.
Qed.

(** C36. Unit records round-trip: a record whose fields fit decodes from its
    encoding to itself. On any bytes, decoding returns or reports an error
    without unwinding, and what it accepts is well formed: parallel fragment
    maps, a sorted version vector, a content fragment exponent within bounds.
    So re-encoding an accepted record and decoding it again is the identity. *)
Theorem unit_codec_roundtrip r :
  unit_ok r →
  decode (encode r) = Ok r ∧
  ∀ buf, no_panic (decode buf) ∧
    ∀ r', decode buf = Ok r' → unit_ok r' ∧ decode (encode r') = Ok r'.
Proof.
  intros Hr. split; [by apply decode_encode|]. intros buf. split.
  - unfold decode. panic_step; [auto with panic|].
    apply no_panic_bind; [by apply (safe_get 0), blen_nonneg|]. intros [m o] _.
    panic_step; [auto with panic|]. cbv zeta.
    apply no_panic_bind; [by apply (safe_le 0), blen_nonneg|]. intros [crc o'] _.
    apply no_panic_bind; [apply no_panic_index_range; lia|]. intros body _.
    panic_step; [auto with panic|].
    apply no_panic_bind; [apply safe_fields; lia|]. intros [] _. auto with panic.
  - intros r' Hd. assert (unit_ok r') as Hr'; [|by auto using decode_encode].
    unfold decode in Hd. case_match; [done|]. apply bind_ok in Hd as ([m o]&_&Hd).
    case_match; [done|]. cbv zeta in Hd. apply bind_ok in Hd as ([crc o']&_&Hd).
    apply bind_ok in Hd as (body&_&Hd). case_match; [done|].
    apply bind_ok in Hd as ([r2 o2]&Hf&[= ->]). by eapply yields_fields.
Qed.

End properties.

(** *** The signed view of a record *)

Definition sig_view (sm : StreamMeta) : ParsedStreamSig :=
  mkStreamSig (sm_unit_map sm) (VersionVector.to_bytes (sm_vv sm)) (sm_fragsize_exp sm)
    (sm_last_frag_length sm).
Definition signed_view (r : UnitRecord) : ParsedSigningPayload :=
  mkSigPayload (ur_uuid r) (sig_view <$> ur_content r) (sig_view <$> ur_meta r).

(** The payload without its database suffix. *)
Definition sig_prefix (r : UnitRecord) : bytes :=
  SIG_MAGIC ++ ur_uuid r ++ byte1 (stream_flags r) ++
  stream_sig_bytes (ur_content r) ++ stream_sig_bytes (ur_meta r).
Definition db_suffix (o : option DbHead) : bytes :=
  match o with
  | None => []
  | Some db => DB_TAG ++ db_bytes db
  end.

Lemma signing_payload_split r : signing_payload r = sig_prefix r ++ db_suffix (ur_db r).
Proof. unfold signing_payload, sig_prefix. by rewrite <-!app_assoc. Qed.

Lemma unit_ok_streams r : unit_ok r → opt_ok stream_ok (ur_content r) ∧ opt_ok stream_ok (ur_meta r).
Proof. intros (_&Hc&Hm&_). split; [|done]. by destruct (ur_content r); [destruct Hc|]. Qed.

Lemma reads_stream_sig flags idx o :
  opt_ok stream_ok o → (Z.land flags (Z.shiftl 1 idx) =? 0) = (if o is Some _ then false else true) →
  reads 0 (parse_stream_sig flags idx) (stream_sig_bytes o) (sig_view <$> o).
Proof.
  intros Ho Hf. unfold parse_stream_sig. rewrite Hf. destruct o as [sm|]; [|apply reads_ret].
  destruct Ho as (Hm&_&_&(Hv&Hvl)&?&?&_). cbn [stream_sig_bytes].
  eapply reads_bind; [by apply reads_u64s|].
  eapply reads_bind; [by apply reads_u32, vv_bytes_u32|].
  eapply reads_bind; [by apply reads_get|]. eapply reads_bind; [by apply reads_byte|].
  eapply reads_bind_last; [by apply reads_u32|]. apply reads_ret.
Qed.

Lemma reads_sig_fields r : unit_ok r → reads 0 parse_sig_fields (sig_prefix r) (signed_view r).
Proof.
  intros Hr. pose proof Hr as (?&_). destruct (unit_ok_streams r Hr).
  unfold parse_sig_fields, sig_prefix. eapply reads_bind; [by apply reads_get|].
  eapply reads_bind_nil; [apply reads_require; by rewrite bool_decide_true|].
  eapply reads_bind; [by apply reads_get|].
  eapply reads_bind; [apply reads_byte; unfold stream_flags; by destruct (ur_content r), (ur_meta r)|].
  eapply reads_bind_nil.
  { apply reads_require. unfold stream_flags. by destruct (ur_content r), (ur_meta r). }
  eapply reads_bind.
  { apply reads_stream_sig; [done|]. unfold stream_flags. by destruct (ur_content r), (ur_meta r). }
  eapply reads_bind_last.
  { apply reads_stream_sig; [done|]. unfold stream_flags. by destruct (ur_content r), (ur_meta r). }
  apply reads_ret.
Qed.

Lemma parse_sig_prefix r :
  unit_ok r → parse_sig_fields (signing_payload r) 0 = Ok (signed_view r, blen (sig_prefix r)).
Proof.
  intros Hr. rewrite signing_payload_split.
  by rewrite (reads_sig_fields r Hr _ 0 (db_suffix (ur_db r)) (at_cursor_start _) (blen_nonneg _)).
Qed.

Lemma db_suffix_inj d1 d2 : opt_ok db_ok d1 → opt_ok db_ok d2 → db_suffix d1 = db_suffix d2 → d1 = d2.
Proof.
  destruct d1 as [[s1 p1 k1]|], d2 as [[s2 p2 k2]|]; try done. intros [Hs1 Hp1] [Hs2 Hp2]; cbn in *.
  unfold db_bytes; cbn. intros [= Heq]. unfold blen in *.
  apply app_inj_1 in Heq as [-> Heq]; [|lia]. apply app_inj_1 in Heq as [-> Heq]; [|lia].
  destruct k1, k2; done.
Qed.

Lemma stream_sig_view o1 o2 :
  sig_view <$> o1 = sig_view <$> o2 → stream_sig_bytes o1 = stream_sig_bytes o2.
Proof.
  assert (∀ o, stream_sig_bytes o = default [] ((λ p,
    counted (le_bytes 8) (ps_unit_map p) ++ le_bytes 4 (blen (ps_vv_bytes p)) ++ ps_vv_bytes p ++
    byte1 (ps_fragsize_exp p) ++ le_bytes 4 (ps_last_frag_length p)) <$> (sig_view <$> o))) as Hview
    by (by intros []).
  intros Heq. by rewrite !Hview, Heq.
Qed.

(** C22. A signature over the payload binds the logical record: two well-formed
    records have the same payload exactly when they agree on the identity, on
    the presence, fragment versions, version vector and geometry of both
    streams, and on the database head. *)
Theorem signing_payload_binding r1 r2 :
  unit_ok r1 → unit_ok r2 →
  signing_payload r1 = signing_payload r2 ↔
  signed_view r1 = signed_view r2 ∧ ur_db r1 = ur_db r2.
Proof.
  intros Hr1 Hr2. split.
  - intros Heq. pose proof (parse_sig_prefix r1 Hr1) as H1. rewrite Heq, parse_sig_prefix in H1 by done.
    assert (blen (sig_prefix r2) = blen (sig_prefix r1)) as Hl by congruence.
    split; [congruence|]. rewrite !signing_payload_split in Heq.
    apply app_inj_1 in Heq as [_ Heq]; [|unfold blen in Hl; lia].
    apply db_suffix_inj in Heq; [done|apply Hr1|apply Hr2].
  - intros [Hv Hdb]. unfold signing_payload, stream_flags. injection Hv as -> Hc Hm.
    rewrite (stream_sig_view _ _ Hc), (stream_sig_view _ _ Hm), Hdb.
    destruct (ur_content r1), (ur_content r2), (ur_meta r1), (ur_meta r2);
      first [reflexivity|discriminate Hc|discriminate Hm].
Qed.

Lemma parse_signing_payload_no_panic buf : no_panic (parse_signing_payload buf).
Proof.
  unfold parse_signing_payload. apply no_panic_bind; [apply safe_sig_fields, blen_nonneg|].
  intros [p o] _. panic_step; auto with panic.
Qed.

Lemma parse_signing_payload_of r :
  unit_ok r →
  parse_signing_payload (signing_payload r) =
    match ur_db r with
    | None => Ok (signed_view r)
    | Some _ => Err (Integrity "signing_payload: trailing bytes after parse")
    end.
Proof.
  intros Hr. unfold parse_signing_payload. rewrite parse_sig_prefix by done. cbn [mbind res_bind].
  rewrite signing_payload_split, blen_app. destruct (ur_db r) as [d|]; cbn [db_suffix].
  - rewrite blen_app. change (blen DB_TAG) with 7. pose proof (blen_nonneg (db_bytes d)).
    by replace (blen (sig_prefix r) =? _) with false by lia.
  - by replace (blen (sig_prefix r) =? _) with true by (rewrite blen_nil; lia).
Qed.

(** C37. Parsing a signing payload recovers the signed view of the record when
    the record has no database head. With a database head the payload is
    rejected as carrying trailing bytes, although [signing_payload] produced
    it. No payload makes the parser unwind. *)
Theorem parse_signing_payload_spec r :
  unit_ok r →
  parse_signing_payload (signing_payload r) =
    match ur_db r with
    | None => Ok (signed_view r)
    | Some _ => Err (Integrity "signing_payload: trailing bytes after parse")
    end ∧
  ∀ buf, no_panic (parse_signing_payload buf).
Proof.
  intros Hr. split; [by apply parse_signing_payload_of|apply parse_signing_payload_no_panic].
Qed.

(** *** Commit bitmaps *)

Lemma land_bit b n : 0 ≤ n → negb (Z.land b (Z.shiftl 1 n) =? 0) = Z.testbit b n.
Proof.
  intros Hn. rewrite Z.shiftl_1_l. destruct (Z.testbit b n) eqn:E.
  - apply negb_true_iff, Z.eqb_neq. intros H0. apply (f_equal (λ z, Z.testbit z n)) in H0.
    rewrite Z.land_spec, E, Z.pow2_bits_true, Z.bits_0 in H0 by done. done.
  - apply negb_false_iff, Z.eqb_eq. apply Z.bits_inj'. intros m Hm.
    rewrite Z.land_spec, Z.bits_0. destruct (decide (m = n)) as [->|]; [by rewrite E|].
    rewrite Z.pow2_bits_false by done. apply andb_false_r.
Qed.

(** Bit [n] of byte [i], [false] out of range. *)
Definition byte_bit (bits : bytes) (i n : Z) : bool :=
  match bits !! Z.to_nat i with
  | Some b => Z.testbit (byte.unsigned b) n
  | None => false
  end.

Lemma get_bit_byte bits frag :
  0 ≤ frag → bitmap_get_bit bits frag = byte_bit bits (frag `div` 8) (7 - frag `mod` 8).
Proof.
  intros. unfold bitmap_get_bit, byte_bit, get_byte.
  replace (0 <=? frag `div` 8) with true by lia. destruct (bits !! _); [|done].
  cbn. apply land_bit. lia.
Qed.

Lemma byte_bit_zeros bits k i n : byte_bit (bits ++ zeros k) i n = byte_bit bits i n.
Proof.
  unfold byte_bit. destruct (bits !! Z.to_nat i) eqn:E; [by rewrite (lookup_app_l_Some _ _ _ _ E)|].
  rewrite lookup_app_r by (by apply lookup_ge_None). unfold zeros.
  destruct (replicate k _ !! _) eqn:Er; [|done]. apply lookup_replicate in Er as [-> _].
  apply Z.bits_0.
Qed.

(** Updating one byte with a bitwise operation on eight bits. *)
Lemma byte_bit_update bits j op i n :
  (j < length bits)%nat → 0 ≤ i → 0 ≤ n < 8 →
  byte_bit (update_byte bits j op) i n =
    if decide (Z.of_nat j = i)
    then match bits !! j with Some b => Z.testbit (op (byte.unsigned b)) n | None => false end
    else byte_bit bits i n.
Proof.
  intros Hj Hi Hn. unfold update_byte, byte_bit.
  destruct (lookup_lt_is_Some_2 bits j Hj) as [b Hb]. rewrite Hb. case_decide as Hji.
  - subst i. rewrite Nat2Z.id, list_lookup_insert_eq by done.
    rewrite byte.unsigned_of_Z. unfold byte.wrap. rewrite Z.mod_pow2_bits_low by lia. done.
  - by rewrite list_lookup_insert_ne by lia.
Qed.

(** The bitmap operations are those of a set of fragments: setting marks
    exactly the given fragment, extending the bitmap when needed, and clearing
    unmarks exactly it. *)
Theorem bitmap_bits_spec bits frag i :
  0 ≤ frag → 0 ≤ i →
  bitmap_get_bit (bitmap_set_bit bits frag) i = (frag =? i) || bitmap_get_bit bits i ∧
  bitmap_get_bit (bitmap_clear_bit bits frag) i = negb (frag =? i) && bitmap_get_bit bits i.
Proof.
  intros Hf Hi. rewrite !get_bit_byte by done. unfold bitmap_set_bit, bitmap_clear_bit; cbv zeta.
  assert ((frag =? i) = bool_decide (frag `div` 8 = i `div` 8) && (7 - frag `mod` 8 =? 7 - i `mod` 8)) as ->.
  { case_bool_decide; lia. }
  split.
  - rewrite <-(byte_bit_zeros bits (S (Z.to_nat (frag `div` 8)) - length bits) (i `div` 8)).
    set (bits' := bits ++ _). assert (Z.to_nat (frag `div` 8) < length bits')%nat as Hl
      by (unfold bits'; rewrite length_app; unfold zeros; rewrite length_replicate; lia).
    rewrite byte_bit_update by (done || lia). rewrite Z2Nat.id by lia.
    case_decide as Hd; [|by rewrite bool_decide_false]. rewrite bool_decide_true by done.
    destruct (lookup_lt_is_Some_2 _ _ Hl) as [b Hb]. unfold byte_bit. rewrite <-Hd, Hb.
    rewrite Z.lor_spec, Z.shiftl_1_l, Z.pow2_bits_eqb by lia. cbn. apply orb_comm.
  - destruct (decide (Z.to_nat (frag `div` 8) < length bits)%nat) as [Hl|Hl].
    + rewrite byte_bit_update by (done || lia). rewrite Z2Nat.id by lia.
      case_decide as Hd; [|by rewrite bool_decide_false]. rewrite bool_decide_true by done.
      destruct (lookup_lt_is_Some_2 _ _ Hl) as [b Hb]. unfold byte_bit. rewrite <-Hd, Hb.
      rewrite Z.land_spec, Z.lxor_spec, Z.shiftl_1_l, Z.pow2_bits_eqb by lia.
      change 255 with (Z.ones 8). rewrite Z.ones_spec_low by lia. cbn. apply andb_comm.
    + unfold update_byte. rewrite lookup_ge_None_2 by lia.
      case_bool_decide as Hd; [|done]. unfold byte_bit. rewrite <-Hd, lookup_ge_None_2 by lia.
      by rewrite andb_false_r.
Qed.

(** ** Witnesses *)

Section witnesses.
Import Concrete.

Definition ex_stream (vv : VersionVector.t) : StreamMeta :=
  mkStream [1; 2] [mkBlockLoc 8192 4096; mkBlockLoc 16384 100] vv 12 100
    [mkBitmap (replicate 16 (byte.of_Z 3)) (byte1 128)].

Definition ex_unit (db : option DbHead) : UnitRecord :=
  mkUnit (replicate 16 (byte.of_Z 5)) (Some (ex_stream (VersionVector.mk [(0, 2)])))
    None (Some 4096) [12288] (Some 1) [1; 2] (Some (zeros 64)) db [].

Definition ex_db : DbHead := mkDbHead (zeros 16) (replicate 16 (byte.of_Z 8)) KvRecord.

Lemma ex_unit_ok db : opt_ok db_ok db → unit_ok (ex_unit db).
Proof.
  intros. unfold unit_ok, stream_ok, list_ok, content_exp_ok. cbn -[Z.le Z.lt Z.pow].
  split_and!; try done; repeat constructor; by_compute.
Qed.

Lemma unit_codec_roundtrip_witness : decode (encode (ex_unit None)) = Ok (ex_unit None).
Proof. exact (proj1 (unit_codec_roundtrip (ex_unit None) (ex_unit_ok None I))). Defined.

Lemma signing_payload_binding_witness : signing_payload (ex_unit None) ≠ signing_payload (ex_unit (Some ex_db)).
Proof.
  intros Heq.
  destruct (proj1 (signing_payload_binding (ex_unit None) (ex_unit (Some ex_db))
    (ex_unit_ok None I) (ex_unit_ok (Some ex_db) (conj eq_refl eq_refl))) Heq) as [_ Hdb].
  discriminate Hdb.
Defined.

Lemma parse_signing_payload_spec_witness :
  parse_signing_payload (signing_payload (ex_unit (Some ex_db))) =
    Err (Integrity "signing_payload: trailing bytes after parse").
Proof.
  exact (proj1 (parse_signing_payload_spec (ex_unit (Some ex_db))
    (ex_unit_ok (Some ex_db) (conj eq_refl eq_refl)))).
Defined.

(** A record that ends with the flag of [content_suite]: the two bytes of the
    suite are then taken from the CRC, behind the end of the body. *)
Lemma decode_suite_from_crc :
  let body := UNIT_MAGIC ++ zeros 16 ++ byte1 0 ++ byte1 0 ++ le_bytes 4 0 ++ byte1 1 in
  decode (body ++ le_bytes 4 (crc32 body)) =
    Ok (mkUnit (zeros 16) None None None [] (Some (crc32 body `mod` 2 ^ 16)) [] None None []).
Proof. vm_compute. reflexivity. Qed.

End witnesses.
