(* ===== verification/WriterSet.v ===== *)
(** * Writer sets and record signatures

    The writer set of a container ([version/writerset.rs]): its canonical
    signed encoding, succession and membership; the Ed25519 wrapper of
    [crypto/sign.rs] over the third-party primitive, which is the class
    [Ed25519]; the signature checks of unit records ([verify_record_signature]
    of [version/store.rs]) and of framed verifiable blobs
    ([version/verify_trailer.rs]). *)

From S2P Require Import Prelude.
From S2P Require Import Vector.
From S2P Require Import Header.
From S2P Require Import Unit.

(** ** Ed25519 *)

(** [ed25519_dalek]: a signing key is its 32-byte seed; a signature made with
    a seed verifies under the public key of that seed (RFC 8032). *)
Class Ed25519 := {
  ed_pubkey : bytes → bytes;
  ed_sign : bytes → bytes → bytes;
  ed_verify : bytes → bytes → bytes → bool;
  ed_pubkey_length : ∀ seed, blen (ed_pubkey seed) = 32;
  ed_sign_length : ∀ seed msg, blen (ed_sign seed msg) = 64;
  ed_verify_sign : ∀ seed msg, ed_verify (ed_pubkey seed) msg (ed_sign seed msg) = true;
}.

Section sign.
Context `{!Ed25519}.

(** [SigningKeyHandle]: the key pair of a seed. *)
Record SigningKeyHandle := mkSigningKey { sk_seed : bytes }.

Definition keypair_from_seed (seed : bytes) : bytes * SigningKeyHandle :=
  (ed_pubkey seed, mkSigningKey seed).
Definition sign (sk : SigningKeyHandle) (msg : bytes) : bytes := ed_sign (sk_seed sk) msg.
Definition keypair_pubkey (sk : SigningKeyHandle) : bytes := ed_pubkey (sk_seed sk).
Definition verify (pubkey msg sig : bytes) : bool := ed_verify pubkey msg sig.

Lemma verify_sign sk msg : verify (keypair_pubkey sk) msg (sign sk msg) = true.
Proof. apply ed_verify_sign. Qed.

End sign.

(** ** Writer sets *)

Module WriterSet.

Definition TAG : bytes := bstr "sfsu-wset".
Definition PUBKEY_LEN : Z := 32.
Definition MIN_BLOB_LEN : Z := 9 + 8 + 8 + PUBKEY_LEN + 4 + 4 + 64.

Record t := mk {
  epoch : Z;
  key_epoch : Z;
  owner_pubkey : bytes;
  writers : list bytes;
  removed : list bytes;
}.

#[global] Instance t_eq_dec : EqDecision t.
Proof. solve_decision. Defined.

Definition signing_bytes (ws : t) : bytes :=
  TAG ++ le_bytes 8 (epoch ws) ++ le_bytes 8 (key_epoch ws) ++ owner_pubkey ws ++
  le_bytes 4 (blen (writers ws)) ++ concat (writers ws) ++
  le_bytes 4 (blen (removed ws)) ++ concat (removed ws).

(** [checked_add] and [checked_mul] on [usize]. *)
Definition checked (z : Z) (msg : string) : res Z :=
  if z <? 2 ^ 64 then Ok z else Err (Integrity msg).

Section seal.
Context `{!Ed25519}.

Definition seal (ws : t) (owner : SigningKeyHandle) : bytes :=
  signing_bytes ws ++ sign owner (signing_bytes ws).

Definition open (blob : bytes) : res t :=
  if blen blob <? MIN_BLOB_LEN then Err (Integrity "writer-set blob too short")
  else
    tag ← index_range blob 0 9;
    if negb (bool_decide (tag = TAG)) then Err (Integrity "writer-set: wrong domain tag")
    else
      epoch ← index_range blob 9 17;
      key_epoch ← index_range blob 17 25;
      owner_pubkey ← index_range blob 25 57;
      n ← index_range blob 57 61;
      let n := le_val n in
      writers_bytes ← checked (n * PUBKEY_LEN) "writer-set: writer count overflows usize";
      writers_end ← checked (61 + writers_bytes) "writer-set: writers region overflows usize";
      r_end ← checked (writers_end + 4) "writer-set: removed-count field overflows usize";
      if blen blob <? r_end then Err (Integrity "writer-set: blob too short for n")
      else
        r ← index_range blob writers_end r_end;
        let r := le_val r in
        removed_bytes ← checked (r * PUBKEY_LEN) "writer-set: removed count overflows usize";
        signing_region_len ← checked (r_end + removed_bytes) "writer-set: removed region overflows usize";
        expected_total ← checked (signing_region_len + 64) "writer-set: total length overflows usize";
        if negb (blen blob =? expected_total) then Err (Integrity "writer-set: unexpected length")
        else
          writers ← index_range blob 61 writers_end;
          removed ← index_range blob r_end signing_region_len;
          sig ← index_range blob signing_region_len (signing_region_len + 64);
          signing_region ← index_range blob 0 signing_region_len;
          if negb (verify owner_pubkey signing_region sig)
          then Err (Integrity "writer-set: owner signature verification failed")
          else Ok (mk (le_val epoch) (le_val key_epoch) owner_pubkey
                      (chunks 32 writers) (chunks 32 removed)).

End seal.

Definition contains (ws : t) (pubkey : bytes) : bool := bool_decide (pubkey ∈ writers ws).

Definition is_authorized_reader (ws : t) (pubkey : bytes) : bool :=
  bool_decide (pubkey ∈ writers ws) || bool_decide (pubkey ∈ removed ws).

Definition is_valid_successor_of (self prev : t) : bool :=
  if epoch self <=? epoch prev then false
  else if negb (bool_decide (owner_pubkey self = owner_pubkey prev)) then false
  else if key_epoch self <? key_epoch prev then false
  else forallb (contains self) (writers prev) || (key_epoch prev <? key_epoch self).

(** What fits the encoding. *)
Definition keys_ok (l : list bytes) : Prop := blen l < 2 ^ 32 ∧ Forall (λ k, length k = 32%nat) l.
Definition wf (ws : t) : Prop :=
  u64 (epoch ws) ∧ u64 (key_epoch ws) ∧ length (owner_pubkey ws) = 32%nat ∧
  keys_ok (writers ws) ∧ keys_ok (removed ws).

Lemma blen_keys (l : list bytes) : Forall (λ k, length k = 32%nat) l → blen (concat l) = 32 * blen l.
Proof.
  induction 1 as [|k l Hk _ IH]; [done|]. cbn [concat]. rewrite blen_app, blen_cons, IH.
  unfold blen. lia.
Qed.

Lemma blen_TAG : blen TAG = 9.
Proof. done. Qed.
#[local] Hint Rewrite blen_TAG : blen.

Lemma checked_ok z msg : z < 2 ^ 64 → checked z msg = Ok z.
Proof. intros. unfold checked. by replace (z <? 2 ^ 64) with true by lia. Qed.

Lemma checked_Ok z msg z' : checked z msg = Ok z' → z' = z.
Proof. unfold checked. case_match; [|done]. by intros [= <-]. Qed.

(** The keys of a region of [32 * n] bytes. *)
Lemma chunks_keys (s : bytes) n :
  blen s = n * 32 → 0 ≤ n →
  Forall (λ k, length k = 32%nat) (chunks 32 s) ∧ blen (chunks 32 s) = n ∧ concat (chunks 32 s) = s.
Proof.
  intros Hs Hn. pose proof (concat_chunks 32 s ltac:(lia)) as Hc.
  assert (Forall (λ k, length k = 32%nat) (chunks 32 s)) as Hf.
  { apply Forall_lookup. intros i k. rewrite chunks_lookup by lia. case_decide; [|done].
    intros [= <-]. rewrite length_take, length_drop. unfold blen in Hs. lia. }
  split_and!; [done| |done]. apply blen_keys in Hf. rewrite Hc in Hf. lia.
Qed.

Section codec.
Context `{!Ed25519}.

Lemma open_signed ws sig :
  wf ws → blen sig = 64 → verify (owner_pubkey ws) (signing_bytes ws) sig = true →
  open (signing_bytes ws ++ sig) = Ok ws.
Proof.
  intros (He&Hk&Ho&[Hn Hw]&[Hr Hd]) Hsig Hver.
  pose proof (blen_keys _ Hw) as Hwl. pose proof (blen_keys _ Hd) as Hdl.
  assert (blen (owner_pubkey ws) = 32) as Ho' by (unfold blen; lia).
  set (blob := signing_bytes ws ++ sig).
  assert (blen blob = 65 + 32 * blen (writers ws) + 32 * blen (removed ws) + 64) as Hbl.
  { unfold blob, signing_bytes. rewrite !blen_app, !blen_le_bytes, Hwl, Hdl, Ho', Hsig.
    change (blen TAG) with 9. lia. }
  pose proof (blen_nonneg (writers ws)). pose proof (blen_nonneg (removed ws)).
  assert (signing_bytes ws ++ sig = blob) as Hblob by done.
  pose proof (at_cursor_start blob) as Hc. rewrite <-Hblob in Hc at 2.
  unfold signing_bytes in Hc. rewrite <-!app_assoc in Hc.
  unfold open, MIN_BLOB_LEN, PUBKEY_LEN. branch false.
  cursor_bind Hc. rewrite bool_decide_true by done. cbn [negb].
  do 4 cursor_bind Hc. cbv zeta. rewrite !le_val_u32, !le_val_u64 by (done || unfold u32; lia).
  do 3 (rewrite checked_ok by lia; cbn [mbind res_bind]). branch false.
  cursor_at Hc 61.
  eapply at_cursor_skip in Hc as Hc2; [|reflexivity].
  cursor_bind Hc2. rewrite le_val_u32 by (unfold u32; lia).
  do 3 (rewrite checked_ok by lia; cbn [mbind res_bind]).
  replace (blen blob =? _) with true by lia. cbn [negb].
  cursor_bind Hc. cursor_bind Hc2.
  rewrite <-(app_nil_r sig) in Hc2. cursor_bind Hc2.
  eapply bind_step.
  { apply (index_range_cursor blob 0 (signing_bytes ws) sig); [rewrite Hblob; apply at_cursor_start|done|].
    rewrite <-Hblob, blen_app in Hbl. lia. }
  cbv beta. rewrite Hver. cbn [negb]. rewrite !chunks_concat by (lia || done). by destruct ws.
Qed.

Lemma open_inv blob ws :
  open blob = Ok ws →
  wf ws ∧ ∃ sig, blen sig = 64 ∧ blob = signing_bytes ws ++ sig ∧
    verify (owner_pubkey ws) (signing_bytes ws) sig = true.
Proof.
  unfold open, PUBKEY_LEN, checked. case_match; [done|].
  intros (tag&Htag&Hb)%bind_ok. case_bool_decide as Ht; cbn [negb] in Hb; [|done].
  apply bind_ok in Hb as (e&He&(k&Hk&(o&Ho&(n&Hn&Hb)%bind_ok)%bind_ok)%bind_ok).
  repeat (case_match; [|done]; cbn [mbind res_bind] in Hb).
  case_match; [done|]. apply bind_ok in Hb as (r&Hr&Hb).
  repeat (case_match; [|done]; cbn [mbind res_bind] in Hb).
  case_match eqn:Htot; [done|]. apply negb_false_iff, Z.eqb_eq in Htot.
  apply bind_ok in Hb as (w&Hw&(d&Hd&(sig&Hs&(reg&Hreg&Hb)%bind_ok)%bind_ok)%bind_ok).
  case_match eqn:Hver; [done|]. apply negb_false_iff in Hver. injection Hb as <-.
  pose proof (index_range_app _ _ _ _ _ _ Htag
    (index_range_app _ _ _ _ _ _ He
    (index_range_app _ _ _ _ _ _ Hk
    (index_range_app _ _ _ _ _ _ Ho
    (index_range_app _ _ _ _ _ _ Hn
    (index_range_app _ _ _ _ _ _ Hw
    (index_range_app _ _ _ _ _ _ Hr Hd))))))) as Hall.
  rewrite Hreg in Hall. injection Hall as ->.
  pose proof (index_range_app _ _ _ _ _ _ Hreg Hs) as Hblob.
  rewrite <-Htot, index_range_all in Hblob. injection Hblob as ->.
  clear Hreg Htag. apply index_range_blen with (n := 8) in He, Hk; [|lia..].
  apply index_range_blen with (n := 4) in Hn, Hr; [|lia..].
  apply index_range_blen with (n := 32) in Ho; [|lia..].
  apply index_range_blen with (n := le_val n * 32) in Hw; [|lia].
  apply index_range_blen with (n := le_val r * 32) in Hd; [|lia].
  apply index_range_blen with (n := 64) in Hs; [|lia].
  pose proof (le_val_range n 4 Hn). pose proof (le_val_range r 4 Hr).
  destruct (chunks_keys w (le_val n)) as (?&Hwn&Hwc); [lia..|].
  destruct (chunks_keys d (le_val r)) as (?&Hdn&Hdc); [lia..|].
  assert (tag ++ e ++ k ++ o ++ n ++ w ++ r ++ d = signing_bytes
    (mk (le_val e) (le_val k) o (chunks 32 w) (chunks 32 d))) as Heq.
  { unfold signing_bytes. cbn [epoch key_epoch owner_pubkey writers removed].
    rewrite Hwn, Hdn, Hwc, Hdc, Ht. unfold blen in *. by rewrite !le_bytes_val by lia. }
  rewrite Heq in Hver. rewrite Heq. split; [|by exists sig].
  split_and!; [by apply (le_val_range _ 8)|by apply (le_val_range _ 8)|unfold blen in *; cbn; lia|..];
    split; cbn; (done || lia).
Qed.

(** C39. [open] accepts exactly the canonical encodings with a valid signature of
    the owner they name: the signed bytes determine every field. *)
Theorem writer_set_open_exact blob ws :
  open blob = Ok ws ↔
  wf ws ∧ ∃ sig, blen sig = 64 ∧ blob = signing_bytes ws ++ sig ∧
    verify (owner_pubkey ws) (signing_bytes ws) sig = true.
Proof. split; [apply open_inv|]. intros (?&sig&?&->&?). by apply open_signed. Qed.

Lemma no_panic_checked z msg : no_panic (checked z msg).
Proof. unfold checked. case_match; auto with panic. Qed.

Lemma open_no_panic blob : no_panic (open blob).
Proof.
  unfold open, PUBKEY_LEN, MIN_BLOB_LEN, PUBKEY_LEN.
  destruct (Z.ltb_spec (blen blob) (9 + 8 + 8 + 32 + 4 + 4 + 64)); [apply no_panic_err|].
  apply no_panic_bind; [apply no_panic_index_range; lia|]. intros tag _. case_match; [apply no_panic_err|].
  do 3 (apply no_panic_bind; [apply no_panic_index_range; lia|]; intros ??).
  apply no_panic_bind; [apply no_panic_index_range; lia|]. intros n Hn.
  apply (le_val_index_range _ _ _ _ 4) in Hn; [|lia]. cbv zeta.
  do 3 (apply no_panic_bind; [apply no_panic_checked|]; intros ? ->%checked_Ok).
  destruct (Z.ltb_spec (blen blob) (61 + le_val n * 32 + 4)); [apply no_panic_err|].
  apply no_panic_bind; [apply no_panic_index_range; lia|]. intros r Hr.
  apply (le_val_index_range _ _ _ _ 4) in Hr; [|lia].
  do 3 (apply no_panic_bind; [apply no_panic_checked|]; intros ? ->%checked_Ok).
  destruct (Z.eqb_spec (blen blob) (61 + le_val n * 32 + 4 + le_val r * 32 + 64)); [|apply no_panic_err].
  do 4 (apply no_panic_bind; [apply no_panic_index_range; lia|]; intros ??).
  case_match; auto with panic.
Qed.

End codec.

(** ** Succession *)

(** [ws] follows [prev] through any number of accepted edits. *)
Definition follows : t → t → Prop := rtc (λ prev next, is_valid_successor_of next prev = true).

Lemma successor_inv next prev :
  is_valid_successor_of next prev = true ↔
  epoch prev < epoch next ∧ owner_pubkey next = owner_pubkey prev ∧ key_epoch prev ≤ key_epoch next ∧
  (writers prev ⊆ writers next ∨ key_epoch prev < key_epoch next).
Proof.
  unfold is_valid_successor_of.
  assert (forallb (contains next) (writers prev) = true ↔ writers prev ⊆ writers next) as Hsub.
  { rewrite forallb_forall. unfold contains. setoid_rewrite bool_decide_eq_true.
    setoid_rewrite <-list_elem_of_In. done. }
  destruct (Z.leb_spec (epoch next) (epoch prev)); [split; [done|lia]|].
  case_bool_decide; cbn [negb]; [|split; [done|naive_solver]].
  destruct (Z.ltb_spec (key_epoch next) (key_epoch prev)); [split; [done|lia]|].
  rewrite orb_true_iff, Z.ltb_lt, Hsub. naive_solver.
Qed.

(** Along a chain the owner never changes, the counters never go back, every
    step is visible in the epoch, and a writer only disappears across a re-key. *)
Lemma follows_spec prev ws :
  follows prev ws →
  owner_pubkey ws = owner_pubkey prev ∧ epoch prev ≤ epoch ws ∧ key_epoch prev ≤ key_epoch ws ∧
  (epoch ws = epoch prev → ws = prev) ∧
  (key_epoch ws = key_epoch prev → writers prev ⊆ writers ws).
Proof.
  induction 1 as [ws|prev mid ws Hs _ (Ho&He&Hk&Hid&Hw)]; [done|].
  apply successor_inv in Hs as (?&?&?&Hsub). split_and!; [congruence|lia..|].
  intros Heq. destruct Hsub as [Hsub|]; [|lia]. etrans; [exact Hsub|]. apply Hw. lia.
Qed.

End WriterSet.
