(* ===== verification/Commit.v ===== *)
(** * Commit records (crates/sfs-core/src/commit.rs)

    A named snapshot: commit identity, title, message, parents, and the content
    and meta versions of each unit. A Rust [String] is a byte list that is valid
    UTF-8; [utf8_valid] is the check of [String::from_utf8]. *)

From S2P Require Import Prelude.
From S2P Require Import Text.
From S2P Require Import Reader.
From S2P Require Import Crypto.
From S2P Require Import Unit.

Definition COMMIT_MAGIC : bytes := bstr "sfsc" ++ byte1 0 ++ bstr "c1" ++ byte1 0.

Record Commit := mkCommit {
  cm_title : bytes;
  cm_message : bytes;
  cm_commitish : bytes;
  cm_parents : list bytes;
  cm_entries : list (bytes * Z * Z);
}.

(** ** The codec *)

Definition commit_entry_bytes (e : bytes * Z * Z) : bytes :=
  e.1.1 ++ le_bytes 8 e.1.2 ++ le_bytes 8 e.2.

Definition encode_commit_fields (c : Commit) : bytes :=
  cm_commitish c ++
  le_bytes 4 (blen (cm_title c)) ++ cm_title c ++
  le_bytes 4 (blen (cm_message c)) ++ cm_message c ++
  counted id (cm_parents c) ++
  counted commit_entry_bytes (cm_entries c).

Definition commit_short (what : string) : Error := Integrity ("Commit decode: buffer too short " ++ what).

Definition read_uuid : Rd bytes := rd_get 16 (commit_short "(need 16 bytes for UUID)").
Definition commit_read_u32_le : Rd Z := rd_le 4 (commit_short "(need u32)").
Definition commit_read_u64_le : Rd Z := rd_le 8 (commit_short "(need u64)").

Definition read_entry : Rd (bytes * Z * Z) :=
  uuid ← read_uuid;
  content_ver ← commit_read_u64_le;
  meta_ver ← commit_read_u64_le;
  mret (uuid, content_ver, meta_ver).

(** The fields from offset 8 on. *)
Definition decode_commit_fields : Rd Commit :=
  commitish ← read_uuid;
  title_len ← commit_read_u32_le;
  title_bytes ← rd_get title_len (commit_short "for title");
  title ← rd_lift (from_utf8 title_bytes (Integrity "Commit decode: title is not valid UTF-8"));
  msg_len ← commit_read_u32_le;
  msg_bytes ← rd_get msg_len (commit_short "for message");
  message ← rd_lift (from_utf8 msg_bytes (Integrity "Commit decode: message is not valid UTF-8"));
  parents ← rd_counted 0 16 (commit_short "(need u32)")
    (Integrity "Commit decode: parents_len exceeds buffer") read_uuid;
  entries ← rd_counted 0 32 (commit_short "(need u32)")
    (Integrity "Commit decode: entries_len exceeds buffer") read_entry;
  mret (mkCommit title message commitish parents entries).

Section commit.
Context `{!Crc32}.

(** [Commit::encode] *)
Definition encode_commit (c : Commit) : bytes :=
  let body := COMMIT_MAGIC ++ encode_commit_fields c in
  body ++ le_bytes 4 (crc32 body).

(** [Commit::decode] *)
Definition decode_commit (buf : bytes) : res Commit :=
  if blen buf <? 44 then Err (commit_short "(need 44)")
  else
    magic ← index_range buf 0 8;
    if negb (bool_decide (magic = COMMIT_MAGIC)) then Err (Integrity "Commit decode: bad magic")
    else
      let body_end := blen buf - 4 in
      '(stored_crc, _) ← commit_read_u32_le buf body_end;
      body ← index_range buf 0 body_end;
      if negb (stored_crc =? crc32 body) then Err (Integrity "Commit decode: CRC mismatch")
      else
        '(c, _) ← decode_commit_fields buf 8;
        Ok c.

(** ** Properties *)

Definition string_ok (s : bytes) : Prop := utf8_valid s = true ∧ blen s < 2 ^ 32.
Definition uuid_ok (u : bytes) : Prop := blen u = 16.
Definition commit_ok (c : Commit) : Prop :=
  string_ok (cm_title c) ∧ string_ok (cm_message c) ∧ uuid_ok (cm_commitish c) ∧
  list_ok uuid_ok (cm_parents c) ∧
  list_ok (λ e, uuid_ok e.1.1 ∧ u64 e.1.2 ∧ u64 e.2) (cm_entries c).

Lemma blen_COMMIT_MAGIC : blen COMMIT_MAGIC = 8.
Proof. done. Qed.
#[local] Hint Rewrite blen_COMMIT_MAGIC : blen.

Lemma reads_commit_fields c : commit_ok c → reads 0 decode_commit_fields (encode_commit_fields c) c.
Proof.
  intros ([Ht ?]&[Hm ?]&?&Hp&He). unfold decode_commit_fields, encode_commit_fields.
  pose proof (blen_nonneg (cm_title c)). pose proof (blen_nonneg (cm_message c)).
  eapply reads_bind; [by apply reads_get|].
  eapply reads_bind; [apply reads_u32; width_lia|]. eapply reads_bind; [by apply reads_get|].
  eapply reads_bind_nil; [apply reads_lift; unfold from_utf8; by rewrite Ht|].
  eapply reads_bind; [apply reads_u32; width_lia|]. eapply reads_bind; [by apply reads_get|].
  eapply reads_bind_nil; [apply reads_lift; unfold from_utf8; by rewrite Hm|].
  eapply reads_bind.
  { eapply reads_counted_ok; [done..| | |exact Hp]; intros x Hx.
    - cbn. unfold uuid_ok in Hx. lia.
    - by apply reads_get. }
  eapply (reads_bind_last _ _ _ _ (cm_entries c)); [|destruct c; apply reads_ret].
  eapply reads_counted_ok; [done..| | |exact He]; intros [[u cv] mv] (Hu&?&?); cbn in *.
  - unfold commit_entry_bytes, uuid_ok in *. cbn. autorewrite with blen. lia.
  - eapply reads_bind; [by apply reads_get|]. eapply reads_bind; [by apply reads_u64|].
    eapply reads_bind_last; [by apply reads_u64|]. apply reads_ret.
Qed.

Lemma yields_commit_fields : yields decode_commit_fields commit_ok.
Proof.
  assert (∀ s e r, from_utf8 s e = Ok r → r = s ∧ utf8_valid s = true) as Hutf
    by (intros s e r; unfold from_utf8; destruct (utf8_valid s); by intros [= <-]).
  eapply yields_bind; [apply yields_get|]. intros u Hu.
  eapply yields_bind; [apply yields_u32|]. intros n Hn.
  eapply yields_bind; [apply yields_get|]. intros tb Htb; cbv beta in Htb.
  eapply yields_bind; [apply yields_lift; intros ?; apply Hutf|]. intros t [-> Ht].
  eapply yields_bind; [apply yields_u32|]. intros m Hm.
  eapply yields_bind; [apply yields_get|]. intros mb Hmb; cbv beta in Hmb.
  eapply yields_bind; [apply yields_lift; intros ?; apply Hutf|]. intros ms [-> Hms].
  eapply yields_bind; [apply yields_list_ok, yields_get|]. intros ps Hps.
  eapply yields_bind; [apply (yields_list_ok _ _ _ _ _ (λ e, uuid_ok e.1.1 ∧ u64 e.1.2 ∧ u64 e.2))|].
  { eapply yields_bind; [apply yields_get|]. intros eu Heu.
    eapply yields_bind; [apply yields_u64|]. intros cv Hcv.
    eapply yields_bind; [apply yields_u64|]. intros mv Hmv. by apply yields_ret. }
  intros es Hes. apply yields_ret. unfold commit_ok, string_ok; cbn. split_and!; try done; width_lia.
Qed.

Lemma safe_commit_fields : safe 0 decode_commit_fields.
Proof.
  unfold decode_commit_fields, read_entry.
  assert (∀ s e, no_panic (from_utf8 s e)) by (intros; unfold from_utf8; by destruct (utf8_valid s)).
  solve_safe.
Qed.

Lemma blen_commit_fields c : commit_ok c → 32 ≤ blen (encode_commit_fields c).
Proof.
  intros (_&_&Hu&_). unfold encode_commit_fields, counted, uuid_ok in *. autorewrite with blen.
  pose proof (blen_nonneg (cm_title c)). pose proof (blen_nonneg (cm_message c)).
  pose proof (blen_nonneg (concat (id <$> cm_parents c))).
  pose proof (blen_nonneg (concat (commit_entry_bytes <$> cm_entries c))). lia.
Qed.

Lemma decode_encode_commit c : commit_ok c → decode_commit (encode_commit c) = Ok c.
Proof.
  intros Hr. pose proof (blen_commit_fields c Hr). set (body := COMMIT_MAGIC ++ encode_commit_fields c).
  destruct (crc_frame body (commit_short "(need u32)")) as (Hlen&Hcrc&Hbody).
  change (body ++ le_bytes 4 (crc32 body)) with (encode_commit c) in *.
  assert (blen body = 8 + blen (encode_commit_fields c)) by (unfold body; blia).
  assert (at_cursor (encode_commit c) 0
    (COMMIT_MAGIC ++ encode_commit_fields c ++ le_bytes 4 (crc32 body))) as Hc
    by (rewrite app_assoc; apply at_cursor_start).
  unfold decode_commit. replace (blen (encode_commit c) <? 44) with false by lia.
  eapply bind_step; [eapply index_range_cursor; [exact Hc|lia|blia]|]. branch false.
  eapply bind_step; [exact Hcrc|]. eapply bind_step; [exact Hbody|].
  cbv beta iota. rewrite Z.eqb_refl. cbn [negb].
  rewrite (reads_commit_fields c Hr (encode_commit c) 8 (le_bytes 4 (crc32 body)));
    [done| |by rewrite blen_le_bytes]. by eapply at_cursor_skip.
Qed.

(** Commit records round-trip: a commit whose title and message are valid
    UTF-8 and whose counts fit decodes from its encoding to itself; decoding
    any bytes never unwinds and accepts only such commits, so that the result
    can be encoded and decoded again. *)
Lemma commit_codec_roundtrip c :
  commit_ok c →
  decode_commit (encode_commit c) = Ok c ∧
  ∀ buf, no_panic (decode_commit buf) ∧
    ∀ c', decode_commit buf = Ok c' → commit_ok c' ∧ decode_commit (encode_commit c') = Ok c'.
Proof.
  intros Hr. split; [by apply decode_encode_commit|]. intros buf. split.
  - unfold decode_commit. panic_step; [auto with panic|].
    apply no_panic_bind; [apply no_panic_index_range; lia|]. intros m _.
    panic_step; [auto with panic|]. cbv zeta.
    apply no_panic_bind; [by apply (safe_le 0), blen_nonneg|]. intros [crc o'] _.
    apply no_panic_bind; [apply no_panic_index_range; lia|]. intros body _.
    panic_step; [auto with panic|].
    apply no_panic_bind; [apply safe_commit_fields, blen_nonneg|]. intros [] _. auto with panic.
  - intros c' Hd. assert (commit_ok c') as Hc'; [|by auto using decode_encode_commit].
    unfold decode_commit in Hd. case_match; [done|]. apply bind_ok in Hd as (m&_&Hd).
    case_match; [done|]. cbv zeta in Hd. apply bind_ok in Hd as ([crc o']&_&Hd).
    apply bind_ok in Hd as (body&_&Hd). case_match; [done|].
    apply bind_ok in Hd as ([r2 o2]&Hf&[= ->]). by eapply yields_commit_fields.
Qed.

End commit.

(** ** Witness *)

Section witnesses.
Import Concrete.

Definition ex_commit : Commit :=
  mkCommit (bstr "snapshot") (byte.of_Z 195 :: byte.of_Z 164 :: bstr " message") (zeros 16)
    [replicate 16 (byte.of_Z 1)] [(replicate 16 (byte.of_Z 2), 7, 0)].

End witnesses.
