(* ===== verification/Attr.v ===== *)
(** * File attributes ([sfs-mount/src/attr.rs])

    The record of the metadata stream of a unit: its codec in three versions,
    with the extended attributes of the third, and the attributes that the
    mount derives from it. *)

From S2P Require Import Prelude.
From S2P Require Import Text.
From S2P Require Import Reader.
From S2P Require Import Crypto.
From S2P Require Import Unit.

Module FileKind.
Inductive t := File | Dir | Symlink.
#[global] Instance t_eq_dec : EqDecision t.
Proof. solve_decision. Defined.
End FileKind.

Module FsAttr.
Record t := mk {
  size : Z;
  blocks : Z;
  mode : Z;
  uid : Z;
  gid : Z;
  atime : Z;
  mtime : Z;
  ctime : Z;
  kind : FileKind.t;
  nlink : Z;
  atime_nsec : Z;
  mtime_nsec : Z;
  ctime_nsec : Z;
}.
End FsAttr.

Definition ATTR_MAGIC : bytes := bstr "sfsa".
Definition ATTR_VERSION_V1 : Z := 1.
Definition ATTR_VERSION : Z := 2.
Definition ATTR_VERSION_V3 : Z := 3.
Definition MAX_XATTR_TOTAL : Z := 64 * 1024.
Definition FIXED_HDR : Z := 48.

Definition kind_from_u8 (v : Z) : res FileKind.t :=
  if v =? 0 then Ok FileKind.File
  else if v =? 1 then Ok FileKind.Dir
  else if v =? 2 then Ok FileKind.Symlink
  else Err (Integrity "attr decode: unknown FileKind discriminant").
Definition kind_to_u8 (k : FileKind.t) : Z :=
  match k with FileKind.File => 0 | FileKind.Dir => 1 | FileKind.Symlink => 2 end.

(** [size.div_ceil(512)] *)
Definition blocks_for_size (size : Z) : Z := (size + 511) `div` 512.

(** ** Encoding *)

(** The lengths are cast to their width. *)
Definition encode_body (attr : FsAttr.t) (symlink_target : option bytes) (version : Z) : bytes :=
  let target_bytes := default [] symlink_target in
  ATTR_MAGIC ++ byte1 version ++ byte1 (kind_to_u8 (FsAttr.kind attr)) ++
  le_bytes 4 (FsAttr.mode attr) ++ le_bytes 4 (FsAttr.uid attr) ++ le_bytes 4 (FsAttr.gid attr) ++
  le_bytes 4 (FsAttr.nlink attr) ++
  le_bytes 8 (FsAttr.atime attr) ++ le_bytes 8 (FsAttr.mtime attr) ++ le_bytes 8 (FsAttr.ctime attr) ++
  le_bytes 4 (FsAttr.atime_nsec attr) ++ le_bytes 4 (FsAttr.mtime_nsec attr) ++ le_bytes 4 (FsAttr.ctime_nsec attr) ++
  le_bytes 2 (blen target_bytes) ++ target_bytes.

(** One entry of the section of extended attributes. *)
Definition encode_xattr (e : bytes * bytes) : bytes :=
  le_bytes 2 (blen e.1) ++ e.1 ++ le_bytes 4 (blen e.2) ++ e.2.

(** ** Decoding *)

(** The last four bytes of the buffer are the checksum. *)
Definition CRC_LEN : Z := 4.

(** [read_u16_le], [read_u32_le], [read_i64_le] *)
Definition attr_read_u16_le : Rd Z := rd_le 2 (Integrity "attr decode: buffer too short (need u16)").
Definition attr_read_u32_le : Rd Z := rd_le 4 (Integrity "attr decode: buffer too short (need u32)").
Definition attr_read_i64_le : Rd Z :=
  s ← rd_get 8 (Integrity "attr decode: buffer too short (need i64)"); mret (le_val_i64 s).

(** [if off + n > body_end { return Err(e) }; &buf[off..off + n]; off += n] *)
Definition rd_slice (n : Z) (e : Error) : Rd bytes := λ buf off,
  if blen buf - CRC_LEN <? off + n then Err e
  else s ← index_range buf off (off + n); Ok (s, off + n).

(** The loop of [decode_xattr_section]. *)
Fixpoint decode_xattrs (count : nat) (xattrs : StrMap.t bytes) : Rd (StrMap.t bytes) :=
  match count with
  | O => mret xattrs
  | S count' =>
      name_len ← attr_read_u16_le;
      name ← rd_slice name_len (Integrity "attr decode: xattr name_len exceeds body");
      name ← rd_lift (from_utf8 name (Integrity "attr decode: xattr name not UTF-8"));
      value_len ← attr_read_u32_le;
      value ← rd_slice value_len (Integrity "attr decode: xattr value_len exceeds body");
      match StrMap.get xattrs name with
      | Some _ => rd_fail (Integrity "attr decode: duplicate xattr name")
      | None => decode_xattrs count' (StrMap.insert xattrs name value)
      end
  end.

(** [kind_from_u8(buf[off])?; off += 1] *)
Definition rd_kind : Rd FileKind.t := λ buf off,
  b ← index_byte buf off; k ← kind_from_u8 b; Ok (k, off + 1).

(** [if off != body_end]; the error message computes [body_end - off], which
    unwinds when the cursor is past the end. *)
Definition rd_at_end (e : Error) : Rd () := λ buf off,
  let body_end := blen buf - CRC_LEN in
  if off =? body_end then Ok ((), off) else if body_end <? off then Panic else Err e.

Definition decode_xattr_section : Rd (StrMap.t bytes) :=
  count ← attr_read_u32_le;
  xattrs ← decode_xattrs (Z.to_nat count) [];
  rd_at_end (Integrity "attr decode: trailing bytes after xattr section");;
  mret xattrs.

(** The fields from offset 5 on. *)
Definition decode_attr_fields (version : Z) : Rd (FsAttr.t * option bytes * StrMap.t bytes) :=
  kind ← rd_kind;
  mode ← attr_read_u32_le;
  uid ← attr_read_u32_le;
  gid ← attr_read_u32_le;
  nlink ← attr_read_u32_le;
  atime ← attr_read_i64_le;
  mtime ← attr_read_i64_le;
  ctime ← attr_read_i64_le;
  '(atime_nsec, mtime_nsec, ctime_nsec) ←
    (if ATTR_VERSION <=? version then
       a ← attr_read_u32_le;
       m ← attr_read_u32_le;
       c ← attr_read_u32_le;
       mret (a, m, c)
     else mret (0, 0, 0));
  symlink_len ← attr_read_u16_le;
  target ← rd_slice symlink_len (Integrity "attr decode: symlink_len exceeds remaining body");
  symlink_target ←
    (if symlink_len =? 0 then mret None
     else s ← rd_lift (from_utf8 target (Integrity "attr decode: symlink target not UTF-8")); mret (Some s));
  xattrs ← (if ATTR_VERSION_V3 <=? version then decode_xattr_section else mret []);
  mret (FsAttr.mk 0 0 mode uid gid atime mtime ctime kind nlink atime_nsec mtime_nsec ctime_nsec,
        symlink_target, xattrs).

Section attr.
Context `{!Crc32}.

Definition encode_meta (attr : FsAttr.t) (symlink_target : option bytes) : bytes :=
  let buf := encode_body attr symlink_target ATTR_VERSION in
  buf ++ le_bytes 4 (crc32 buf).

Definition encode_meta_xattrs (attr : FsAttr.t) (symlink_target : option bytes) (xattrs : StrMap.t bytes) : bytes :=
  match xattrs with
  | [] => encode_meta attr symlink_target
  | _ =>
      let buf := encode_body attr symlink_target ATTR_VERSION_V3 ++
        le_bytes 4 (blen xattrs) ++ concat (encode_xattr <$> xattrs) in
      buf ++ le_bytes 4 (crc32 buf)
  end.

Definition decode_meta_xattrs (buf : bytes) : res (FsAttr.t * option bytes * StrMap.t bytes) :=
  if blen buf <? FIXED_HDR + 4 then Err (Integrity "attr decode: buffer too short")
  else
    magic ← index_range buf 0 4;
    if negb (bool_decide (magic = ATTR_MAGIC)) then Err (Integrity "attr decode: bad magic")
    else
      version ← index_byte buf 4;
      if negb (version =? ATTR_VERSION_V1) && negb (version =? ATTR_VERSION) && negb (version =? ATTR_VERSION_V3)
      then Err (Integrity "attr decode: unsupported version")
      else
        let body_end := blen buf - 4 in
        '(stored_crc, _) ← attr_read_u32_le buf body_end;
        body ← index_range buf 0 body_end;
        if negb (stored_crc =? crc32 body) then Err (Integrity "attr decode: CRC mismatch")
        else '(r, _) ← decode_attr_fields version buf 5; Ok r.

Definition decode_meta (buf : bytes) : res (FsAttr.t * option bytes) :=
  '(attr, symlink, _) ← decode_meta_xattrs buf; Ok (attr, symlink).

(** ** Attributes of a unit *)

Definition synthesise_default (content_size default_uid default_gid : Z) : FsAttr.t :=
  let '(kind, mode, nlink) :=
    if content_size =? 0 then (FileKind.Dir, 16877, 2) else (FileKind.File, 33188, 1) in
  FsAttr.mk 0 0 mode default_uid default_gid 0 0 0 kind nlink 0 0 0.

(** [attr.size = content_size; attr.blocks = blocks_for_size(content_size)] *)
Definition set_size (content_size : Z) (a : FsAttr.t) : FsAttr.t :=
  FsAttr.mk content_size (blocks_for_size content_size) (FsAttr.mode a) (FsAttr.uid a) (FsAttr.gid a)
    (FsAttr.atime a) (FsAttr.mtime a) (FsAttr.ctime a) (FsAttr.kind a) (FsAttr.nlink a)
    (FsAttr.atime_nsec a) (FsAttr.mtime_nsec a) (FsAttr.ctime_nsec a).

(** The decoded attributes; a failed decode falls back to the defaults. *)
Definition decoded_or (default : FsAttr.t) (meta_stream : option bytes) : res FsAttr.t :=
  match meta_stream with
  | Some bs =>
      match decode_meta bs with
      | Ok (a, _) => Ok a
      | Err _ => Ok default
      | Panic => Panic
      end
  | None => Ok default
  end.

Definition attr_from_unit (meta_stream : option bytes) (content_size default_uid default_gid : Z) : res FsAttr.t :=
  attr ← decoded_or (synthesise_default content_size default_uid default_gid) meta_stream;
  Ok (set_size content_size attr).

Definition synthesise_default_kind (has_content : bool) (default_uid default_gid : Z) : FsAttr.t :=
  let '(kind, mode, nlink) :=
    if has_content then (FileKind.File, 33188, 1) else (FileKind.Dir, 16877, 2) in
  FsAttr.mk 0 0 mode default_uid default_gid 0 0 0 kind nlink 0 0 0.

Definition attr_from_unit_kind (has_content_stream : bool) (meta_stream : option bytes)
    (content_size default_uid default_gid : Z) : res FsAttr.t :=
  attr ← decoded_or (synthesise_default_kind has_content_stream default_uid default_gid) meta_stream;
  Ok (set_size content_size attr).

Lemma attr_from_unit_size m n u g a : attr_from_unit m n u g = Ok a → FsAttr.size a = n.
Proof. unfold attr_from_unit. destruct (decoded_or _ m); [|done..]. by intros [= <-]. Qed.
Lemma attr_from_unit_kind_size h m n u g a : attr_from_unit_kind h m n u g = Ok a → FsAttr.size a = n.
Proof. unfold attr_from_unit_kind. destruct (decoded_or _ m); [|done..]. by intros [= <-]. Qed.

(** ** Reading back *)

Record attr_ok (a : FsAttr.t) : Prop := {
  ao_mode : u32 (FsAttr.mode a);
  ao_uid : u32 (FsAttr.uid a);
  ao_gid : u32 (FsAttr.gid a);
  ao_nlink : u32 (FsAttr.nlink a);
  ao_atime : i64 (FsAttr.atime a);
  ao_mtime : i64 (FsAttr.mtime a);
  ao_ctime : i64 (FsAttr.ctime a);
  ao_atime_nsec : u32 (FsAttr.atime_nsec a);
  ao_mtime_nsec : u32 (FsAttr.mtime_nsec a);
  ao_ctime_nsec : u32 (FsAttr.ctime_nsec a);
}.
Definition target_ok (t : option bytes) : Prop :=
  match t with Some s => utf8_valid s = true ∧ 0 < blen s < 2 ^ 16 | None => True end.
Definition xattr_ok (e : bytes * bytes) : Prop :=
  utf8_valid e.1 = true ∧ blen e.1 < 2 ^ 16 ∧ blen e.2 < 2 ^ 32.
Definition xattrs_ok (x : StrMap.t bytes) : Prop :=
  StrMap.sorted x ∧ blen x < 2 ^ 32 ∧ Forall xattr_ok x.

(** What the record holds of the attributes. *)
Definition stored_attr (a : FsAttr.t) : FsAttr.t :=
  FsAttr.mk 0 0 (FsAttr.mode a) (FsAttr.uid a) (FsAttr.gid a) (FsAttr.atime a) (FsAttr.mtime a) (FsAttr.ctime a)
    (FsAttr.kind a) (FsAttr.nlink a) (FsAttr.atime_nsec a) (FsAttr.mtime_nsec a) (FsAttr.ctime_nsec a).

Lemma reads_i64 k z : i64 z → reads k attr_read_i64_le (le_bytes 8 z) z.
Proof.
  intros Hz. eapply reads_bind_last; [by apply reads_get|]. rewrite le_val_i64_bytes by done. apply reads_ret.
Qed.

Lemma reads_slice k e s : CRC_LEN ≤ k → reads k (rd_slice (blen s) e) s s.
Proof.
  intros Hk buf off rest Hc Hr. pose proof Hc as (?&Hlen&_). rewrite blen_app in Hlen. unfold rd_slice.
  replace (blen buf - CRC_LEN <? off + blen s) with false by lia. by erewrite index_range_cursor by done.
Qed.

Lemma reads_kind k f : reads k rd_kind (byte1 (kind_to_u8 f)) f.
Proof.
  intros buf off rest Hc _. unfold rd_kind. erewrite index_byte_cursor by (done || by destruct f). by destruct f.
Qed.

Lemma reads_xattr_loop k x : ∀ acc,
  CRC_LEN ≤ k → StrMap.sorted (acc ++ x) → Forall xattr_ok x →
  reads k (decode_xattrs (length x) acc) (concat (encode_xattr <$> x)) (acc ++ x).
Proof.
  induction x as [|[name value] x IH]; intros acc Hk Hs Hx; cbn [decode_xattrs length fmap list_fmap concat].
  { rewrite app_nil_r. apply reads_ret. }
  apply Forall_cons in Hx as [(Hu&Hn&Hv) Hx]. cbn [fst snd] in *. unfold encode_xattr. cbn [fst snd]. rewrite <-!app_assoc.
  eapply reads_bind; [apply reads_u16; pose proof (blen_nonneg name); width_lia|].
  eapply reads_bind; [by apply reads_slice|]. eapply reads_bind_nil; [apply reads_lift; by apply from_utf8_ok|].
  eapply reads_bind; [apply reads_u32; pose proof (blen_nonneg value); width_lia|].
  eapply reads_bind; [by apply reads_slice|].
  destruct (StrMap.insert_last acc name value) as [Hi Hg].
  { apply Forall_forall. intros e He. unfold StrMap.sorted in Hs. rewrite StronglySorted_app in Hs.
    destruct Hs as (Hs&_). apply (Hs e (name, value)); [done|by left]. }
  rewrite Hg, Hi. replace (acc ++ (name, value) :: x) with ((acc ++ [(name, value)]) ++ x) by by rewrite <-app_assoc.
  apply IH; [done| |done]. by rewrite <-app_assoc.
Qed.

(** [reads] with nothing but the checksum after the encoding. *)
Definition ends {A} (f : Rd A) (enc : bytes) (a : A) : Prop :=
  ∀ buf off rest, at_cursor buf off (enc ++ rest) → blen rest = CRC_LEN → f buf off = Ok (a, off + blen enc).

Lemma rd_ends_bind {A B} (f : Rd A) (g : A → Rd B) e1 e2 a b :
  reads CRC_LEN f e1 a → ends (g a) e2 b → ends (f ≫= g) (e1 ++ e2) b.
Proof.
  intros Hf Hg buf off rest Hc Hr. rewrite <-app_assoc in Hc. unfold mbind, Rd_bind.
  rewrite (Hf buf off (e2 ++ rest)); [|done|rewrite blen_app; pose proof (blen_nonneg e2); lia].
  rewrite (Hg buf (off + blen e1) rest); [by rewrite blen_app, Z.add_assoc| |done]. by eapply at_cursor_skip.
Qed.
Lemma ends_bind_nil {A B} (f : Rd A) (g : A → Rd B) e a b :
  reads CRC_LEN f [] a → ends (g a) e b → ends (f ≫= g) e b.
Proof. intros. change e with ([] ++ e). by eapply rd_ends_bind. Qed.
Lemma ends_bind_last {A B} (f : Rd A) (g : A → Rd B) e a b :
  ends f e a → (∀ buf off, g a buf off = Ok (b, off)) → ends (f ≫= g) e b.
Proof. intros Hf Hg buf off rest Hc Hr. unfold mbind, Rd_bind. by rewrite (Hf buf off rest). Qed.

Lemma ends_xattrs x : xattrs_ok x → ends decode_xattr_section (le_bytes 4 (blen x) ++ concat (encode_xattr <$> x)) x.
Proof.
  intros (Hs&Hl&Hx). pose proof (blen_nonneg x). eapply rd_ends_bind; [apply reads_u32; width_lia|].
  intros buf off rest Hc Hr. unfold blen at 1. rewrite Nat2Z.id. unfold mbind, Rd_bind.
  rewrite (reads_xattr_loop CRC_LEN x [] ltac:(done) Hs Hx buf off rest Hc) by lia. unfold rd_at_end.
  pose proof Hc as (?&Hlen&_). rewrite blen_app in Hlen. replace (_ =? _) with true by lia. done.
Qed.

(** The section of extended attributes of a version. *)
Definition xattr_bytes (x : StrMap.t bytes) : bytes :=
  match x with [] => [] | _ => le_bytes 4 (blen x) ++ concat (encode_xattr <$> x) end.
Definition version_of (x : StrMap.t bytes) : Z := match x with [] => ATTR_VERSION | _ => ATTR_VERSION_V3 end.

Definition attr_fields (a : FsAttr.t) (t : option bytes) (x : StrMap.t bytes) : bytes :=
  byte1 (kind_to_u8 (FsAttr.kind a)) ++
  le_bytes 4 (FsAttr.mode a) ++ le_bytes 4 (FsAttr.uid a) ++ le_bytes 4 (FsAttr.gid a) ++ le_bytes 4 (FsAttr.nlink a) ++
  le_bytes 8 (FsAttr.atime a) ++ le_bytes 8 (FsAttr.mtime a) ++ le_bytes 8 (FsAttr.ctime a) ++
  (le_bytes 4 (FsAttr.atime_nsec a) ++ le_bytes 4 (FsAttr.mtime_nsec a) ++ le_bytes 4 (FsAttr.ctime_nsec a)) ++
  le_bytes 2 (blen (default [] t)) ++ default [] t ++ xattr_bytes x.

Lemma reads_target k t :
  target_ok t → reads k (if blen (default [] t) =? 0 then mret None
    else s ← rd_lift (from_utf8 (default [] t) (Integrity "attr decode: symlink target not UTF-8")); mret (Some s)) [] t.
Proof.
  destruct t as [s|]; cbn; [|intros; apply reads_ret]. intros [Hu Hl]. replace (blen s =? 0) with false by lia.
  eapply reads_bind_nil; [apply reads_lift; by apply from_utf8_ok|]. apply reads_ret.
Qed.

Lemma ends_fields a t x :
  attr_ok a → target_ok t → xattrs_ok x → ends (decode_attr_fields (version_of x)) (attr_fields a t x) (stored_attr a, t, x).
Proof.
  intros [] Ht Hx. unfold decode_attr_fields, attr_fields.
  eapply rd_ends_bind; [apply reads_kind|]. do 4 (eapply rd_ends_bind; [by apply reads_u32|]).
  do 3 (eapply rd_ends_bind; [by apply reads_i64|]).
  eapply (rd_ends_bind _ _ _ _ (FsAttr.atime_nsec a, FsAttr.mtime_nsec a, FsAttr.ctime_nsec a)).
  { replace (ATTR_VERSION <=? version_of x) with true by by destruct x.
    do 2 (eapply reads_bind; [by apply reads_u32|]). eapply reads_bind_last; [by apply reads_u32|]. apply reads_ret. }
  eapply rd_ends_bind; [apply reads_u16; destruct t as [s|]; [destruct Ht; cbn; width_lia|done]|].
  eapply rd_ends_bind; [by apply reads_slice|]. eapply ends_bind_nil; [by apply reads_target|].
  eapply ends_bind_last; [|done]. destruct x as [|e x]; [|by apply (ends_xattrs (e :: x))].
  intros buf off rest _ _. cbn. by rewrite Z.add_0_r.
Qed.

Lemma encode_meta_fields a t x :
  let body := ATTR_MAGIC ++ byte1 (version_of x) ++ attr_fields a t x in
  encode_meta_xattrs a t x = body ++ le_bytes 4 (crc32 body).
Proof.
  cbv zeta. assert (∀ v, encode_body a t v ++ xattr_bytes x = ATTR_MAGIC ++ byte1 v ++ attr_fields a t x) as Hb.
  { intros v. unfold encode_body, attr_fields. by rewrite <-!app_assoc. }
  rewrite <-Hb. destruct x as [|e x]; [|done]. cbn [xattr_bytes]. by rewrite app_nil_r.
Qed.

Lemma decode_encode_meta a t x :
  attr_ok a → target_ok t → xattrs_ok x → decode_meta_xattrs (encode_meta_xattrs a t x) = Ok (stored_attr a, t, x).
Proof.
  intros Ha Ht Hx. rewrite encode_meta_fields. set (body := _ ++ _ ++ _).
  destruct (crc_frame body (Integrity "attr decode: buffer too short (need u32)")) as (Hlen&Hcrc&Hbody).
  cbv zeta in *. set (enc := body ++ le_bytes 4 (crc32 body)) in *.
  assert (at_cursor enc 0 (ATTR_MAGIC ++ byte1 (version_of x) ++ attr_fields a t x ++ le_bytes 4 (crc32 body))) as Hc.
  { unfold enc, body. rewrite <-!app_assoc. apply at_cursor_start. }
  assert (blen body = 60 + blen (default [] t) + blen (xattr_bytes x)) as Hbl.
  { unfold body, attr_fields. autorewrite with blen. change (blen ATTR_MAGIC) with 4. lia. }
  pose proof (blen_nonneg (default [] t)). pose proof (blen_nonneg (xattr_bytes x)).
  unfold decode_meta_xattrs. replace (blen enc <? FIXED_HDR + 4) with false by (unfold FIXED_HDR; lia).
  eapply bind_step; [eapply index_range_cursor; [exact Hc|lia|done]|]. branch false.
  assert (at_cursor enc 4 (byte1 (version_of x) ++ attr_fields a t x ++ le_bytes 4 (crc32 body))) as Hc4 by by eapply at_cursor_skip.
  eapply bind_step; [eapply index_byte_cursor; [exact Hc4|done|by destruct x]|].
  replace (negb _ && _ && _) with false by by destruct x. cbv zeta beta iota.
  eapply bind_step; [exact Hcrc|]. eapply bind_step; [exact Hbody|]. cbv beta iota. rewrite Z.eqb_refl. cbn [negb].
  rewrite (ends_fields a t x Ha Ht Hx enc 5 (le_bytes 4 (crc32 body))); [done| |done]. by eapply at_cursor_skip.
Qed.

(** ** Where decoding unwinds *)

(** An outcome that is an error or a value with [R]. *)
Definition returns {A} (r : res (A * Z)) (R : A → Z → Prop) : Prop :=
  match r with Ok (a, off) => R a off | Err _ => True | Panic => False end.

(** At an offset within the buffer, [f] does not unwind, and what it returns is
    related by [P] to the bytes it has read. *)
Definition decodes {A} (f : Rd A) (P : A → bytes → Prop) : Prop :=
  ∀ buf off, 0 ≤ off ≤ blen buf → returns (f buf off) (λ a off', ∃ s, index_range buf off off' = Ok s ∧ P a s).

Lemma decodes_get n e : 0 ≤ n → decodes (rd_get n e) (λ a s, a = s ∧ blen s = n).
Proof.
  intros Hn buf off Ho. unfold rd_get. destruct (get_range buf off (off + n)) as [s|] eqn:E; [|done].
  assert (index_range buf off (off + n) = Ok s) as Hs by (unfold index_range; by rewrite E).
  exists s. split_and!; [done..|]. eapply index_range_blen; [exact Hs|lia].
Qed.
Lemma decodes_le n e : decodes (rd_le (Z.of_nat n) e) (λ z s, s = le_bytes n z ∧ 0 ≤ z < 2 ^ (8 * Z.of_nat n)).
Proof.
  intros buf off Ho. pose proof (decodes_get (Z.of_nat n) e ltac:(lia) buf off Ho) as Hg. unfold rd_le, mbind, Rd_bind.
  destruct (rd_get _ e buf off) as [[a o]| |]; [|done..]. destruct Hg as (s&Hs&->&Hl). exists s.
  split; [done|]. split; [|by apply le_val_range]. symmetry. apply le_bytes_val. unfold blen in Hl. lia.
Qed.
Lemma decodes_i64 : decodes attr_read_i64_le (λ z s, s = le_bytes 8 z ∧ i64 z).
Proof.
  intros buf off Ho. pose proof (decodes_get 8 (Integrity "attr decode: buffer too short (need i64)") ltac:(lia) buf off Ho) as Hg.
  unfold attr_read_i64_le, mbind, Rd_bind. destruct (rd_get _ _ buf off) as [[a o]| |]; [|done..].
  destruct Hg as (s&Hs&->&Hl). exists s. split; [done|]. pose proof (le_val_range s _ Hl) as Hr.
  assert (s = le_bytes 8 (le_val s)) as Hb by (symmetry; apply le_bytes_val; unfold blen in Hl; lia).
  unfold le_val_i64. destruct (Z.ltb_spec (le_val s) (2 ^ 63)); split; [done|unfold i64; lia| |unfold i64; lia].
  rewrite Hb at 1. rewrite (le_split_mod (_ - _)). change (2 ^ (Z.of_nat 8 * 8)) with (2 ^ 64).
  by rewrite <-(Z.mod_add _ 1), Z.mod_small by lia; do 2 f_equal; lia.
Qed.
Lemma index_byte_range buf i z : index_byte buf i = Ok z → index_range buf i (i + 1) = Ok (byte1 z).
Proof.
  unfold index_byte, get_byte. destruct (Z.leb_spec 0 i); [|done]. destruct (buf !! Z.to_nat i) as [x|] eqn:Hx; [|done].
  cbn. intros [= <-]. pose proof (lookup_lt_Some _ _ _ Hx). rewrite index_range_ok by (unfold blen; lia).
  replace (Z.to_nat (i + 1 - i)) with 1%nat by lia. rewrite (drop_S _ _ _ Hx). unfold byte1. by rewrite byte.of_Z_unsigned.
Qed.

Lemma kind_returns buf off :
  0 ≤ off < blen buf → returns (rd_kind buf off) (λ k off', index_range buf off off' = Ok (byte1 (kind_to_u8 k))).
Proof.
  intros Ho. unfold rd_kind. pose proof (no_panic_index_byte buf off Ho) as Hn.
  destruct (index_byte buf off) as [z| |] eqn:Ez; [|done..]. apply index_byte_range in Ez. cbn. unfold kind_from_u8.
  repeat (destruct (_ =? _) eqn:E; [apply Z.eqb_eq in E; cbn; by rewrite Ez, E|clear E]). done.
Qed.

Lemma decodes_ret {A} (a : A) : decodes (mret a) (λ b s, b = a ∧ s = []).
Proof. intros buf off Ho. exists []. split; [|done]. rewrite index_range_ok by lia. by rewrite Z.sub_diag. Qed.
Lemma decodes_utf8 s e : decodes (rd_lift (from_utf8 s e)) (λ t x, t = s ∧ utf8_valid s = true ∧ x = []).
Proof.
  intros buf off Ho. unfold rd_lift, from_utf8. destruct (utf8_valid s); [|done]. cbn. exists [].
  split; [|done]. rewrite index_range_ok by lia. by rewrite Z.sub_diag.
Qed.

Lemma decodes_bind {A B} (f : Rd A) (g : A → Rd B) P R :
  decodes f P → (∀ a s, P a s → decodes (g a) (λ b s', R b (s ++ s'))) → decodes (f ≫= g) R.
Proof.
  intros Hf Hg buf off Ho. specialize (Hf buf off Ho). unfold mbind, Rd_bind. destruct (f buf off) as [[a o]| |]; [|done..].
  destruct Hf as (s&Hs&HP). pose proof Hs as (?&?&_)%index_range_Ok. specialize (Hg a s HP buf o ltac:(lia)).
  destruct (g a buf o) as [[b o']| |]; [|done..]. destruct Hg as (s'&Hs'&HR). exists (s ++ s').
  split; [by eapply index_range_app|done].
Qed.

(** A sequence that unwinds does so after its first part has returned. *)
Lemma panics_bind {A B} (f : Rd A) (g : A → Rd B) P buf off pre :
  decodes f P → (f ≫= g) buf off = Panic → index_range buf 0 off = Ok pre →
  ∃ a s off', P a s ∧ index_range buf 0 off' = Ok (pre ++ s) ∧ g a buf off' = Panic.
Proof.
  intros Hf Hp Hpre. pose proof Hpre as (?&?&_)%index_range_Ok. specialize (Hf buf off ltac:(lia)).
  unfold mbind, Rd_bind in Hp. destruct (f buf off) as [[a o]| |]; [|done..]. destruct Hf as (s&Hs&HP).
  exists a, s, o. split_and!; [done| |done]. by eapply index_range_app.
Qed.

Lemma returns_bind {A B} (f : Rd A) (g : A → Rd B) P buf off R :
  decodes f P → 0 ≤ off ≤ blen buf → (∀ a s off', P a s → 0 ≤ off' ≤ blen buf → returns (g a buf off') R) →
  returns ((f ≫= g) buf off) R.
Proof.
  intros Hf Ho Hg. specialize (Hf buf off Ho). unfold mbind, Rd_bind. destruct (f buf off) as [[a o]| |]; [|done..].
  destruct Hf as (s&(?&?&_)%index_range_Ok&HP). apply (Hg a s); [done|lia].
Qed.
Lemma returns_slice {B} n e (g : bytes → Rd B) buf off R :
  0 ≤ n → 0 ≤ off → (∀ s, index_range buf off (off + n) = Ok s → off + n ≤ blen buf - CRC_LEN → returns (g s buf (off + n)) R) →
  returns ((rd_slice n e ≫= g) buf off) R.
Proof.
  intros Hn Ho Hg. unfold rd_slice, mbind, Rd_bind. destruct (Z.ltb_spec (blen buf - CRC_LEN) (off + n)); [done|].
  unfold CRC_LEN in *. destruct (index_range buf off (off + n)) as [s| |] eqn:E; cbn.
  - by apply Hg.
  - rewrite index_range_ok in E by lia. done.
  - rewrite index_range_ok in E by lia. done.
Qed.

(** An entry of the extended attributes ends within the body. *)
Lemma xattrs_returns n : ∀ acc buf off,
  0 ≤ off ≤ blen buf →
  returns (decode_xattrs n acc buf off) (λ _ off', n = O ∧ off' = off ∨ 0 ≤ off' ≤ blen buf - CRC_LEN).
Proof.
  induction n as [|n IH]; intros acc buf off Ho; cbn [decode_xattrs]; [by left|].
  eapply returns_bind; [apply (decodes_le 2)|done|]. intros l s1 o1 [_ ?] ?.
  apply returns_slice; [lia..|]. intros name _ ?.
  eapply returns_bind; [apply decodes_utf8|unfold CRC_LEN in *; lia|]. intros name' s2 o2 _ ?.
  eapply returns_bind; [apply (decodes_le 4)|done|]. intros l' s3 o3 [_ ?] ?.
  apply returns_slice; [lia..|]. intros v _ ?. destruct (StrMap.get acc name'); [done|].
  specialize (IH (StrMap.insert acc name' v) buf (o3 + l') ltac:(unfold CRC_LEN in *; lia)).
  destruct (decode_xattrs n _ buf (o3 + l')) as [[? o]| |]; [|done..]. right. destruct IH as [[_ ->]|?]; lia.
Qed.

Lemma section_panics buf off :
  0 ≤ off ≤ blen buf →
  decode_xattr_section buf off = Panic ↔ index_range buf off (off + 4) = Ok (zeros 4) ∧ blen buf < off + 8.
Proof.
  intros Ho. unfold decode_xattr_section, mbind at 1, Rd_bind at 1.
  pose proof (decodes_le 4 (Integrity "attr decode: buffer too short (need u32)") buf off Ho) as Hc.
  change (rd_le (Z.of_nat 4) _) with attr_read_u32_le in Hc. split.
  - destruct (attr_read_u32_le buf off) as [[n o]| |]; [|done..]. destruct Hc as (s&Hs&->&Hn).
    pose proof Hs as (?&?&Hl&_)%index_range_Ok. rewrite blen_le_bytes in Hl.
    pose proof (xattrs_returns (Z.to_nat n) [] buf o ltac:(lia)) as Hx. unfold mbind, Rd_bind.
    destruct (decode_xattrs _ [] buf o) as [[x o']| |]; [|done..]. unfold rd_at_end, CRC_LEN in *.
    destruct (Z.eqb_spec o' (blen buf - 4)); [done|]. destruct (Z.ltb_spec (blen buf - 4) o'); [|done]. intros _.
    destruct Hx as [[Hz ->]|?]; [|lia]. assert (n = 0) as -> by lia. replace (off + 4) with o by lia. split; [done|lia].
  - intros [Hz Hl]. unfold attr_read_u32_le, rd_le, rd_get, mbind, Rd_bind in *.
    unfold index_range in Hz. destruct (get_range buf off (off + 4)) as [s|]; [|done]. injection Hz as ->. cbn.
    change (Z.to_nat (le_val _)) with O. cbn. unfold rd_at_end, CRC_LEN. replace (_ =? _) with false by lia. by replace (_ <? _) with true by lia.
Qed.

(** A record of the third version that ends before the count of its extended
    attributes does, where the count, read on into the checksum, is zero. *)
Definition cut_section (buf : bytes) : Prop :=
  ∃ a t z, attr_ok a ∧ target_ok t ∧ blen z < 4 ∧
    let body := encode_body a t ATTR_VERSION_V3 ++ z in
    buf = body ++ le_bytes 4 (crc32 body) ∧ take 4 (z ++ le_bytes 4 (crc32 body)) = zeros 4.

Lemma decodes_u32 : decodes attr_read_u32_le (λ z s, s = le_bytes 4 z ∧ u32 z).
Proof. apply (decodes_le 4). Qed.
Lemma decodes_u16 : decodes attr_read_u16_le (λ z s, s = le_bytes 2 z ∧ u16 z).
Proof. apply (decodes_le 2). Qed.

(** The seconds' fractions of the versions that have them. *)
Lemma decodes_nsec v :
  decodes
    (if ATTR_VERSION <=? v then
       a ← attr_read_u32_le; m ← attr_read_u32_le; c ← attr_read_u32_le; mret (a, m, c)
     else mret (0, 0, 0))
    (λ x s, ATTR_VERSION ≤ v → u32 x.1.1 ∧ u32 x.1.2 ∧ u32 x.2 ∧ s = le_bytes 4 x.1.1 ++ le_bytes 4 x.1.2 ++ le_bytes 4 x.2).
Proof.
  destruct (Z.leb_spec ATTR_VERSION v).
  - eapply decodes_bind; [apply (decodes_le 4)|]. intros x1 s1 [-> ?]. eapply decodes_bind; [apply (decodes_le 4)|].
    intros x2 s2 [-> ?]. eapply decodes_bind; [apply (decodes_le 4)|]. intros x3 s3 [-> ?].
    intros buf off Ho. pose proof (decodes_ret (x1, x2, x3) buf off Ho) as (s&?&_&->). exists []. split; [done|]. intros _.
    cbn [fst snd]. rewrite app_nil_r. done.
  - intros buf off Ho. pose proof (decodes_ret (0, 0, 0) buf off Ho) as (s&?&_&->). exists []. split; [done|lia].
Qed.

Lemma decodes_target target :
  blen target < 2 ^ 16 →
  decodes (if blen target =? 0 then mret None
    else s ← rd_lift (from_utf8 target (Integrity "attr decode: symlink target not UTF-8")); mret (Some s))
    (λ t s, s = [] ∧ target_ok t ∧ default [] t = target).
Proof.
  intros Hl. destruct (Z.eqb_spec (blen target) 0) as [Hz|Hz].
  - intros buf off Ho. destruct (decodes_ret (@None bytes) buf off Ho) as (s&?&_&->). exists []. split_and!; [done..|].
    by destruct target.
  - pose proof (blen_nonneg target). eapply decodes_bind; [apply decodes_utf8|]. intros t s (->&Hu&->) buf off Ho.
    destruct (decodes_ret (Some target) buf off Ho) as (s&?&_&->). exists [].
    split; [done|]. split; [done|]. split; [|done]. split; [done|lia].
Qed.

Lemma fields_panic v buf :
  decode_attr_fields v buf 5 = Panic → 5 < blen buf → index_range buf 0 5 = Ok (ATTR_MAGIC ++ byte1 v) →
  ATTR_VERSION_V3 ≤ v ∧ ∃ a t off, attr_ok a ∧ target_ok t ∧ index_range buf 0 off = Ok (encode_body a t v) ∧
    off ≤ blen buf - CRC_LEN ∧ decode_xattr_section buf off = Panic.
Proof.
  intros Hp Hl Hpre. unfold decode_attr_fields in Hp. unfold mbind at 1, Rd_bind at 1 in Hp.
  pose proof (kind_returns buf 5 ltac:(lia)) as Hk. destruct (rd_kind buf 5) as [[kind o]| |]; [|done..]. cbn in Hk.
  eapply index_range_app in Hk; [|exact Hpre]. clear Hpre.
  destruct (panics_bind _ _ _ _ _ _ decodes_u32 Hp Hk) as (mode&?&?&[-> ?]&Hpre&Hp'). clear Hp Hk; rename Hp' into Hp.
  destruct (panics_bind _ _ _ _ _ _ decodes_u32 Hp Hpre) as (uid&?&?&[-> ?]&Hk&Hp'). clear Hp Hpre; rename Hp' into Hp.
  destruct (panics_bind _ _ _ _ _ _ decodes_u32 Hp Hk) as (gid&?&?&[-> ?]&Hpre&Hp'). clear Hp Hk; rename Hp' into Hp.
  destruct (panics_bind _ _ _ _ _ _ decodes_u32 Hp Hpre) as (nlink&?&?&[-> ?]&Hk&Hp'). clear Hp Hpre; rename Hp' into Hp.
  destruct (panics_bind _ _ _ _ _ _ decodes_i64 Hp Hk) as (atime&?&?&[-> ?]&Hpre&Hp'). clear Hp Hk; rename Hp' into Hp.
  destruct (panics_bind _ _ _ _ _ _ decodes_i64 Hp Hpre) as (mtime&?&?&[-> ?]&Hk&Hp'). clear Hp Hpre; rename Hp' into Hp.
  destruct (panics_bind _ _ _ _ _ _ decodes_i64 Hp Hk) as (ctime&?&?&[-> ?]&Hpre&Hp'). clear Hp Hk; rename Hp' into Hp.
  destruct (panics_bind _ _ _ _ _ _ (decodes_nsec v) Hp Hpre) as ([[an mn] cn]&ns&?&Hns&Hk&Hp'). clear Hp Hpre; rename Hp' into Hp.
  destruct (panics_bind _ _ _ _ _ _ decodes_u16 Hp Hk) as (tl&?&?&[-> ?]&Hpre&Hp'). clear Hp Hk; rename Hp' into Hp.
  pose proof Hpre as (?&?&_)%index_range_Ok. unfold mbind at 1, Rd_bind at 1, rd_slice in Hp. unfold CRC_LEN in *.
  destruct (Z.ltb_spec (blen buf - 4) (x8 + tl)); [done|].
  destruct (index_range buf x8 (x8 + tl)) as [target| |] eqn:Et; [|done..|by rewrite index_range_ok in Et by (width_lia)].
  cbn [mbind res_bind] in Hp. eapply index_range_app in Et as Hk; [|exact Hpre].
  assert (blen target = tl) as <- by (eapply index_range_blen; [exact Et|lia]).
  destruct (panics_bind _ _ _ _ _ _ (decodes_target target ltac:(width_lia)) Hp Hk) as (t&s&o'&(->&Htok&Hdef)&Hk'&Hp').
  rewrite app_nil_r in Hk'. pose proof (index_range_blen _ _ _ _ _ Hk eq_refl) as Hl1.
  rewrite (index_range_blen _ _ _ _ _ Hk' eq_refl) in Hl1. assert (o' = x8 + blen target) as -> by lia. unfold mbind, Rd_bind in Hp'.
  destruct (Z.leb_spec ATTR_VERSION_V3 v) as [Hv|]; [|done]. split; [done|].
  destruct (Hns ltac:(unfold ATTR_VERSION, ATTR_VERSION_V3 in *; lia)) as (?&?&?&->). cbn [fst snd] in *.
  exists (FsAttr.mk 0 0 mode uid gid atime mtime ctime kind nlink an mn cn), t, (x8 + blen target).
  split; [by split|]. split; [done|]. split_and!; [|lia|by destruct (decode_xattr_section _ _) as [[]| |]].
  rewrite Hk. unfold encode_body. cbn. rewrite Hdef, <-!app_assoc. done.
Qed.

Lemma frame_bytes buf crc :
  4 ≤ blen buf → attr_read_u32_le buf (blen buf - 4) = Ok crc →
  ∃ body, index_range buf 0 (blen buf - 4) = Ok body ∧ buf = body ++ le_bytes 4 crc.1.
Proof.
  intros Hl Hc. pose proof (decodes_u32 buf (blen buf - 4) ltac:(lia)) as Hd. rewrite Hc in Hd. destruct crc as [crc o].
  destruct Hd as (s&Hs&->&_). pose proof Hs as (?&?&Hb&_)%index_range_Ok. rewrite blen_le_bytes in Hb.
  assert (index_range buf 0 (blen buf - 4) = Ok (take (Z.to_nat (blen buf - 4 - 0)) (drop (Z.to_nat 0) buf))) as Hbody
    by (apply index_range_ok; lia).
  eexists. split; [exact Hbody|]. eapply index_range_app in Hs as Ha; [|exact Hbody].
  replace o with (blen buf) in Ha by lia. rewrite index_range_all in Ha. by injection Ha.
Qed.

Lemma decode_meta_cut buf : decode_meta_xattrs buf = Panic → cut_section buf.
Proof.
  unfold decode_meta_xattrs, FIXED_HDR. destruct (Z.ltb_spec (blen buf) (48 + 4)); [done|].
  destruct (index_range buf 0 4) as [magic| |] eqn:Em; [|by rewrite index_range_ok in Em by lia..]. cbn [mbind res_bind].
  case_bool_decide as Hm; cbn [negb]; [subst magic|done].
  pose proof (no_panic_index_byte buf 4 ltac:(lia)) as Hv. destruct (index_byte buf 4) as [v| |] eqn:Ev; [|done..].
  cbn [mbind res_bind]. apply index_byte_range in Ev. destruct (negb _ && _ && _) eqn:Eok; [done|].
  pose proof (decodes_u32 buf (blen buf - 4) ltac:(lia)) as Hd. cbv zeta.
  destruct (attr_read_u32_le buf (blen buf - 4)) as [crc| |] eqn:Ec; [|done..]. cbn [mbind res_bind].
  destruct (frame_bytes buf crc ltac:(lia) Ec) as (body&Hbody&Hbuf). destruct crc as [crc o]. rewrite Hbody. cbn [mbind res_bind fst] in *.
  destruct (Z.eqb_spec crc (crc32 body)) as [->|]; [|done]. cbn [negb].
  destruct (decode_attr_fields v buf 5) as [[]| |] eqn:Ef; [done..|]. intros _.
  destruct (fields_panic v buf Ef ltac:(lia) (index_range_app _ _ _ _ _ _ Em Ev)) as (H3&a&t&off&Ha&Ht&Hpre&Hoff&Hsec).
  pose proof Hpre as (?&?&Hbl&_)%index_range_Ok. unfold ATTR_VERSION_V3, ATTR_VERSION, ATTR_VERSION_V1, CRC_LEN in *.
  assert (v = 3) as -> by lia. apply section_panics in Hsec as [Hz Hlen]; [|lia].
  assert (index_range buf off (blen buf - 4) = Ok (take (Z.to_nat (blen buf - 4 - off)) (drop (Z.to_nat off) buf))) as Hrest
    by (apply index_range_ok; lia).
  set (z := take _ _) in *. pose proof (index_range_app _ _ _ _ _ _ Hpre Hrest) as Hb. rewrite Hbody in Hb.
  assert (body = encode_body a t 3 ++ z) as -> by congruence. clear Hb.
  exists a, t, z. split_and!; [done..|erewrite (index_range_blen _ _ _ _ _ Hrest eq_refl); lia|]. cbv zeta.
  change ATTR_VERSION_V3 with 3. split; [done|].
  apply index_range_Ok in Hz as (_&_&_&->). replace (Z.to_nat (off + 4 - off)) with 4%nat by lia. f_equal.
  set (crc := le_bytes 4 _) in *. rewrite Hbuf, <-app_assoc. symmetry. apply drop_app_length'. unfold blen in *. lia.
Qed.

(** [f] unwinds at the bytes [enc] with [tail] after them up to the end. *)
Definition unwinds {A} (tail : bytes) (f : Rd A) (enc : bytes) : Prop :=
  ∀ buf off, at_cursor buf off (enc ++ tail) → f buf off = Panic.

Lemma unwinds_bind {A B} tail (f : Rd A) (g : A → Rd B) e1 e2 a :
  CRC_LEN ≤ blen tail → reads CRC_LEN f e1 a → unwinds tail (g a) e2 → unwinds tail (f ≫= g) (e1 ++ e2).
Proof.
  intros Ht Hf Hg buf off Hc. rewrite <-app_assoc in Hc. unfold mbind, Rd_bind.
  rewrite (Hf buf off (e2 ++ tail)); [|done|rewrite blen_app; pose proof (blen_nonneg e2); lia].
  apply Hg. by eapply at_cursor_skip.
Qed.

Lemma zeros_prefix_long tail : take 4 tail = zeros 4 → CRC_LEN ≤ blen tail.
Proof.
  intros Hz. apply (f_equal length) in Hz. rewrite length_take in Hz. change (length (zeros 4)) with 4%nat in Hz.
  unfold blen, CRC_LEN. lia.
Qed.

Lemma unwinds_section tail : blen tail < 8 → take 4 tail = zeros 4 → unwinds tail decode_xattr_section [].
Proof.
  intros Hl Hz buf off Hc. cbn [app] in Hc. pose proof Hc as (?&Hb&_).
  pose proof (zeros_prefix_long tail Hz). unfold CRC_LEN in *.
  apply section_panics; [lia|]. split; [|lia]. rewrite <-(take_drop 4 tail), Hz in Hc. by eapply index_range_cursor.
Qed.

Lemma unwinds_fields a t tail :
  attr_ok a → target_ok t → blen tail < 8 → take 4 tail = zeros 4 →
  unwinds tail (decode_attr_fields ATTR_VERSION_V3) (attr_fields a t []).
Proof.
  intros [] Ht Hl Hz. unfold decode_attr_fields, attr_fields, CRC_LEN.
  pose proof (zeros_prefix_long tail Hz).
  eapply unwinds_bind; [done|apply reads_kind|]. do 4 (eapply unwinds_bind; [done|by apply reads_u32|]).
  do 3 (eapply unwinds_bind; [done|by apply reads_i64|]).
  eapply (unwinds_bind _ _ _ _ _ (FsAttr.atime_nsec a, FsAttr.mtime_nsec a, FsAttr.ctime_nsec a)); [done|..].
  { do 2 (eapply reads_bind; [by apply reads_u32|]). eapply reads_bind_last; [by apply reads_u32|]. apply reads_ret. }
  eapply unwinds_bind; [done|apply reads_u16; destruct t as [s|]; [destruct Ht; cbn; width_lia|done]|].
  eapply unwinds_bind; [done|by apply reads_slice|]. change (xattr_bytes []) with ([] ++ [] : bytes).
  eapply unwinds_bind; [done|by apply reads_target|]. intros buf off Hc. unfold mbind, Rd_bind.
  replace (ATTR_VERSION_V3 <=? ATTR_VERSION_V3) with true by done. cbv iota. by rewrite (unwinds_section tail Hl Hz buf off Hc).
Qed.

Lemma cut_meta_unwinds buf : cut_section buf → decode_meta_xattrs buf = Panic.
Proof.
  intros (a&t&z&Ha&Ht&Hz&Hbuf&Htk). cbv zeta in *. set (body := _ ++ z) in *.
  destruct (crc_frame body (Integrity "attr decode: buffer too short (need u32)")) as (Hlen&Hcrc&Hbody).
  cbv zeta in *. rewrite <-Hbuf in *.
  assert (encode_body a t ATTR_VERSION_V3 = ATTR_MAGIC ++ byte1 ATTR_VERSION_V3 ++ attr_fields a t []) as He.
  { unfold encode_body, attr_fields. cbn [xattr_bytes]. by rewrite app_nil_r, <-!app_assoc. }
  assert (60 ≤ blen body) as Hbl.
  { unfold body. rewrite He. unfold attr_fields. autorewrite with blen. change (blen ATTR_MAGIC) with 4.
    pose proof (blen_nonneg (default [] t)). pose proof (blen_nonneg z). pose proof (blen_nonneg (xattr_bytes [])). lia. }
  set (tail := z ++ le_bytes 4 (crc32 body)) in *.
  assert (at_cursor buf 0 (ATTR_MAGIC ++ byte1 ATTR_VERSION_V3 ++ attr_fields a t [] ++ tail)) as Hc.
  { rewrite Hbuf. unfold body at 1, tail. rewrite He, <-!app_assoc. apply at_cursor_start. }
  unfold decode_meta_xattrs. replace (blen buf <? FIXED_HDR + 4) with false by (unfold FIXED_HDR; lia).
  eapply bind_step; [eapply index_range_cursor; [exact Hc|lia|done]|]. branch false.
  eapply at_cursor_skip in Hc; [|reflexivity].
  eapply bind_step; [eapply index_byte_cursor; [exact Hc|done|done]|].
  replace (negb _ && _ && _) with false by done. cbv zeta beta iota.
  eapply bind_step; [exact Hcrc|]. eapply bind_step; [exact Hbody|]. cbv beta iota. rewrite Z.eqb_refl. cbn [negb].
  eapply at_cursor_skip in Hc; [|reflexivity]. 
  rewrite (unwinds_fields a t tail Ha Ht ltac:(unfold tail; rewrite blen_app, blen_le_bytes; lia) Htk buf 5 Hc). done.
Qed.

End attr.

(** C34. The attribute record round-trips: attributes, the target of a symbolic
    link and extended attributes that fit their widths decode from their
    encoding to themselves (but for the size, which is not stored). Decoding any
    other bytes returns a value or an error, with one exception: it unwinds,
    with overflow checks, on exactly the records of version 3 that end, with a
    valid checksum, before the count of their extended attributes does, and
    whose count, read on into the checksum, is zero. *)
Theorem attr_codec_roundtrip `{!Crc32} a t x :
  attr_ok a → target_ok t → xattrs_ok x →
  decode_meta_xattrs (encode_meta_xattrs a t x) = Ok (stored_attr a, t, x) ∧
  ∀ buf, decode_meta_xattrs buf = Panic ↔ cut_section buf.
Proof.
  intros. split; [by apply decode_encode_meta|]. intros buf. split; [apply decode_meta_cut|apply cut_meta_unwinds].
Qed.

Section attr_witnesses.
Import Concrete.

Definition ex_attr : FsAttr.t := FsAttr.mk 0 0 33188 1000 100 (-5) 1700000000 1700000001 FileKind.File 1 999999999 0 7.

(** Three zero bytes in place of the section, and a checksum that begins with a
    fourth. *)
Definition ex_cut_attr : FsAttr.t := FsAttr.mk 0 0 33188 1000 100 (-5) 1700000000 171 FileKind.File 1 999999999 0 7.
Definition ex_cut : bytes :=
  let body := encode_body ex_cut_attr None ATTR_VERSION_V3 ++ zeros 3 in body ++ le_bytes 4 (crc32 body).

Lemma attr_codec_roundtrip_witness :
  decode_meta_xattrs (encode_meta_xattrs ex_attr (Some (bstr "target")) [(bstr "user.a", []); (bstr "user.b", bstr "v")]) =
    Ok (ex_attr, Some (bstr "target"), [(bstr "user.a", []); (bstr "user.b", bstr "v")]) ∧
  decode_meta_xattrs ex_cut = Panic.
Proof.
  assert (attr_ok ex_attr) as Ha by (split; by_compute).
  assert (target_ok (Some (bstr "target"))) as Ht by by_compute.
  assert (xattrs_ok [(bstr "user.a", []); (bstr "user.b", bstr "v")]) as Hx.
  { split; [repeat constructor|]. split; [by_compute|]. repeat constructor; by_compute. }
  destruct (attr_codec_roundtrip ex_attr (Some (bstr "target")) _ Ha Ht Hx) as [Hrt Hcut]. split; [exact Hrt|].
  apply Hcut. exists ex_cut_attr, None, (zeros 3). split; [split; by_compute|]. split; [exact I|]. split; [by_compute|].
  split; [reflexivity|]. vm_compute. reflexivity.
Defined.

End attr_witnesses.
