(* ===== verification/Inode.v ===== *)
(** * Inode numbers ([sfs-mount/src/inode.rs])

    The table of a mount that numbers the units: two hash maps that are the
    inverse of each other, and the counter of the next number. *)

From S2P Require Import Prelude.

Module InodeTable.

Record t := mk { forward : gmap Z bytes; reverse : gmap bytes Z; next_ino : Z }.

Definition ROOT_INO : Z := 1.
Definition SENTINEL_ROOT_UUID : bytes := zeros 16.

Definition new : t := mk {[ROOT_INO := SENTINEL_ROOT_UUID]} {[SENTINEL_ROOT_UUID := ROOT_INO]} 2.

(** The [assert_eq!] unwinds. *)
Definition set_root_uuid (uuid : bytes) : St t () := λ i,
  let reverse1 :=
    match forward i !! ROOT_INO with
    | Some old_uuid => delete old_uuid (reverse i)
    | None => reverse i
    end in
  let i' := mk (<[ROOT_INO := uuid]> (forward i)) reverse1 (next_ino i) in
  match reverse1 !! uuid with
  | Some existing_ino =>
      if existing_ino =? ROOT_INO then (Ok (), mk (forward i') (<[uuid := ROOT_INO]> reverse1) (next_ino i))
      else (Panic, i')
  | None => (Ok (), mk (forward i') (<[uuid := ROOT_INO]> reverse1) (next_ino i))
  end.

Definition get_or_assign (uuid : bytes) : St t Z := λ i,
  match reverse i !! uuid with
  | Some ino => (Ok ino, i)
  | None =>
      let ino := next_ino i in
      match add64 (next_ino i) 1 with
      | Ok next => (Ok ino, mk (<[ino := uuid]> (forward i)) (<[uuid := ino]> (reverse i)) next)
      | Err e => (Err e, i)
      | Panic => (Panic, i)
      end
  end.

Definition uuid_of (i : t) (ino : Z) : option bytes := forward i !! ino.
Definition ino_of (i : t) (uuid : bytes) : option Z := reverse i !! uuid.

Definition forget (ino : Z) (i : t) : t :=
  if ino =? ROOT_INO then i
  else
    match forward i !! ino with
    | Some uuid => mk (delete ino (forward i)) (delete uuid (reverse i)) (next_ino i)
    | None => i
    end.

(** ** Invariant *)

(** The two maps are inverse to each other, the root has a number, and the
    numbers in use are below the next one. *)
Record wf (i : t) : Prop := {
  wf_inverse : ∀ ino uuid, forward i !! ino = Some uuid ↔ reverse i !! uuid = Some ino;
  wf_root : is_Some (forward i !! ROOT_INO);
  wf_below : ∀ ino uuid, forward i !! ino = Some uuid → 1 ≤ ino < next_ino i;
  wf_next : 2 ≤ next_ino i < 2 ^ 64;
}.

Lemma wf_inj i ino ino' uuid :
  wf i → forward i !! ino = Some uuid → forward i !! ino' = Some uuid → ino = ino'.
Proof. intros Hi H1 H2. apply (wf_inverse _ Hi) in H1, H2. congruence. Qed.

Lemma table_wf_new : wf new.
Proof.
  split; cbn [forward reverse next_ino new]; [|by exists SENTINEL_ROOT_UUID| |lia].
  - intros ino uuid. rewrite !lookup_singleton_Some. naive_solver.
  - intros ino uuid [<- _]%lookup_singleton_Some. unfold ROOT_INO. lia.
Qed.

Lemma forget_spec ino i :
  wf i → wf (forget ino i) ∧
  ∀ ino', forward (forget ino i) !! ino' = if decide (ino' = ino ∧ ino ≠ ROOT_INO) then None else forward i !! ino'.
Proof.
  intros Hi. unfold forget. destruct (Z.eqb_spec ino ROOT_INO) as [->|Hr].
  { split; [done|]. intros ino'. by rewrite decide_False by naive_solver. }
  destruct (forward i !! ino) as [uuid|] eqn:E.
  - pose proof E as Er. apply (wf_inverse _ Hi) in Er. split; [split; cbn|].
    + intros j v. rewrite !lookup_delete_Some, (wf_inverse _ Hi). split; intros [Hne Hj]; (split; [|done]).
      * intros <-. congruence.
      * intros <-. apply (wf_inverse _ Hi) in Hj. congruence.
    + rewrite lookup_delete_ne by done. apply Hi.
    + intros j v [_ Hj]%lookup_delete_Some. by eapply Hi.
    + apply Hi.
  + intros j. cbn. case_decide as Hj; [destruct Hj as [-> _]; apply lookup_delete_eq|]. by rewrite lookup_delete_ne by naive_solver.
  - split; [done|]. intros j. case_decide as Hj; [by destruct Hj as [-> _]|done].
Qed.

Lemma get_or_assign_spec uuid i :
  wf i → next_ino i + 1 < 2 ^ 64 →
  ∃ ino i', get_or_assign uuid i = (Ok ino, i') ∧ wf i' ∧ forward i' !! ino = Some uuid ∧
    (∀ j v, forward i !! j = Some v → forward i' !! j = Some v) ∧
    (∀ j v, forward i' !! j = Some v → forward i !! j = Some v ∨ j = ino ∧ v = uuid).
Proof.
  intros Hi Hn. unfold get_or_assign. destruct (reverse i !! uuid) as [ino|] eqn:E.
  { exists ino, i. apply (wf_inverse _ Hi) in E as Hf. split_and!; auto. }
  rewrite add64_ok by done. assert (forward i !! next_ino i = None) as Hfresh.
  { apply eq_None_not_Some. intros [v Hv]. apply (wf_below _ Hi) in Hv. lia. }
  eexists _, _. split; [done|]. split; [split; cbn|cbn].
  - intros j v. rewrite !lookup_insert_Some. split.
    + intros [[<- <-]|[Hj Hv]]; [by left|right]. apply (wf_inverse _ Hi) in Hv. split; [congruence|done].
    + intros [[<- <-]|[Hv Hj]]; [by left|right]. apply (wf_inverse _ Hi) in Hj. split; [congruence|done].
  - apply lookup_insert_is_Some'. right. apply Hi.
  - pose proof (wf_next _ Hi). intros j v [[<- <-]|[_ Hj]]%lookup_insert_Some; [lia|]. apply (wf_below _ Hi) in Hj. lia.
  - pose proof (wf_next _ Hi). lia.
  - split_and!; [by rewrite lookup_insert_eq|intros j v Hj; rewrite lookup_insert_ne by congruence; done|].
    intros j v [[<- <-]|[_ Hj]]%lookup_insert_Some; auto.
Qed.

Lemma set_root_spec uuid i :
  wf i → (∀ ino, reverse i !! uuid = Some ino → ino = ROOT_INO) →
  ∃ i', set_root_uuid uuid i = (Ok (), i') ∧ wf i' ∧ forward i' = <[ROOT_INO := uuid]> (forward i).
Proof.
  intros Hi Hu. destruct (wf_root _ Hi) as [old Hold]. unfold set_root_uuid. rewrite Hold.
  pose proof Hold as Hold'. apply (wf_inverse _ Hi) in Hold'.
  assert (delete old (reverse i) !! uuid = None) as ->.
  { apply eq_None_not_Some. intros [j [Hne Hj]%lookup_delete_Some]. apply Hu in Hj as Hr. subst j.
    apply (wf_inverse _ Hi) in Hj. congruence. }
  eexists. split; [done|]. split; [split; cbn|done].
  - intros j v. rewrite !lookup_insert_Some, lookup_delete_Some. split.
    + intros [[<- <-]|[Hj Hv]]; [by left|right]. apply (wf_inverse _ Hi) in Hv as Hr. split_and!; [|congruence|done].
      intros <-. by apply Hu in Hr.
    + intros [[<- <-]|[Hv [Hne Hj]]]; [by left|right]. apply (wf_inverse _ Hi) in Hj. split; [|done]. intros <-. congruence.
  - by rewrite lookup_insert_eq.
  - pose proof (wf_next _ Hi). unfold ROOT_INO. intros j v [[<- <-]|[_ Hj]]%lookup_insert_Some; [lia|by eapply Hi].
  - apply Hi.
Qed.

(** ** Histories *)

Inductive Op := GetOrAssign (uuid : bytes) | SetRootUuid (uuid : bytes) | Forget (ino : Z).

(** [None] when the operation unwinds. *)
Definition apply_op (i : t) (o : Op) : option t :=
  match o with
  | GetOrAssign uuid => match get_or_assign uuid i with (Ok _, i') => Some i' | _ => None end
  | SetRootUuid uuid => match set_root_uuid uuid i with (Ok _, i') => Some i' | _ => None end
  | Forget ino => Some (forget ino i)
  end.
Fixpoint apply_ops (i : t) (l : list Op) : option t :=
  match l with
  | [] => Some i
  | o :: l' => i ← apply_op i o; apply_ops i l'
  end.

(** The numbers of [i] other than the root's keep their meaning in [i']. *)
Definition keeps_numbers (i i' : t) : Prop :=
  next_ino i ≤ next_ino i' ∧
  ∀ ino uuid, ino ≠ ROOT_INO → ino < next_ino i → forward i' !! ino = Some uuid → forward i !! ino = Some uuid.

Lemma apply_op_spec i o i' : wf i → apply_op i o = Some i' → wf i' ∧ keeps_numbers i i'.
Proof.
  intros Hi. destruct o as [uuid|uuid|ino]; cbn [apply_op].
  - destruct (Z.lt_ge_cases (next_ino i + 1) (2 ^ 64)) as [Hn|Hn].
    + destruct (get_or_assign_spec uuid i Hi Hn) as (ino&i1&E&Hw&_&_&Hnew). rewrite E. intros [= <-]. split; [done|].
      revert E. unfold get_or_assign. destruct (reverse i !! uuid); [intros [= <- <-]; by split|].
      rewrite add64_ok by done. intros [= <- <-]. split; [cbn; lia|]. intros j v _ Hj. cbn.
      rewrite lookup_insert_ne by lia. done.
    + unfold get_or_assign. destruct (reverse i !! uuid); [by intros [= <-]|].
      unfold add64. by replace (_ <? _) with false by lia.
  - destruct (set_root_uuid uuid i) as [[[]|?|] i1] eqn:E; [|done..]. intros [= <-].
    assert (∀ ino, reverse i !! uuid = Some ino → ino = ROOT_INO) as Hu.
    { intros ino Hino. destruct (wf_root _ Hi) as [old Hold]. revert E. unfold set_root_uuid. rewrite Hold.
      destruct (decide (old = uuid)) as [->|Hne]; [apply (wf_inverse _ Hi) in Hold; congruence|].
      rewrite lookup_delete_ne, Hino by done. by destruct (Z.eqb_spec ino ROOT_INO). }
    destruct (set_root_spec uuid i Hi Hu) as (i2&E2&Hw&Hf). assert (i2 = i1) as -> by congruence.
    split; [done|]. split; [|intros ino v Hr _; by rewrite Hf, lookup_insert_ne].
    revert E. unfold set_root_uuid. repeat case_match; intros [= <-]; done.
  - intros [= <-]. destruct (forget_spec ino i Hi) as [Hw Hf]. split; [done|]. split.
    + unfold forget. by repeat case_match.
    + intros j v _ _. rewrite Hf. destruct (decide _); [done|auto].
Qed.

Lemma apply_ops_spec l : ∀ i i', wf i → apply_ops i l = Some i' → wf i' ∧ keeps_numbers i i'.
Proof.
  induction l as [|o l IH]; intros i i' Hi; cbn; [by intros [= <-]|].
  destruct (apply_op i o) as [i1|] eqn:E; [|done]. cbn. intros Hl.
  destruct (apply_op_spec _ _ _ Hi E) as (Hi1&Hn1&Hk1). destruct (IH _ _ Hi1 Hl) as (Hi'&Hn2&Hk2).
  split; [done|]. split; [lia|]. intros ino v Hr Hlt Hv. apply Hk1; [done..|]. apply Hk2; [done|lia|done].
Qed.

(** C33. The numbers of a mount identify its units: after any history of
    assignments, forgotten numbers and changes of the root, the table is a
    bijection between the numbers in use and their units, and a number that was
    given out never comes to stand for another unit. *)
Theorem inode_numbers_identify l1 l2 i1 i2 :
  apply_ops new l1 = Some i1 → apply_ops i1 l2 = Some i2 →
  (∀ ino uuid, uuid_of i2 ino = Some uuid ↔ ino_of i2 uuid = Some ino) ∧
  ∀ ino uuid uuid', ino ≠ ROOT_INO → uuid_of i1 ino = Some uuid → uuid_of i2 ino = Some uuid' → uuid = uuid'.
Proof.
  intros H1 H2. destruct (apply_ops_spec _ _ _ table_wf_new H1) as (Hw1&_).
  destruct (apply_ops_spec _ _ _ Hw1 H2) as (Hw2&_&Hk). split; [apply (wf_inverse _ Hw2)|].
  unfold uuid_of. intros ino u u' Hr Hu Hu'. pose proof (wf_below _ Hw1 _ _ Hu). apply Hk in Hu'; [congruence|done|lia].
Qed.

Lemma inode_numbers_identify_witness :
  ∃ i1 i2, apply_ops new [GetOrAssign (bstr "a"); SetRootUuid (bstr "r"); GetOrAssign (bstr "b")] = Some i1 ∧
    apply_ops i1 [Forget 2; GetOrAssign (bstr "a")] = Some i2 ∧ uuid_of i2 4 = Some (bstr "a") ∧
    ino_of i2 (bstr "b") = Some 3.
Proof.
  eexists _, _. split; [reflexivity|]. split; [reflexivity|]. split; [reflexivity|].
  by apply (inode_numbers_identify [GetOrAssign (bstr "a"); SetRootUuid (bstr "r"); GetOrAssign (bstr "b")]
    [Forget 2; GetOrAssign (bstr "a")] _ _ eq_refl eq_refl).
Defined.

End InodeTable.
