(* ===== verification/Retention.v ===== *)
(** * Retention (crates/sfs-core/src/retention.rs, EvictedBlock of version/store.rs)

    The self-describing evicted block, the scan of the eviction tail that
    rediscovers the blocks, and the strategies that decide which of them are
    dropped. The clock is the argument [now_utc]. *)

From S2P Require Import Prelude.
From S2P Require Import Reader.
From S2P Require Import Backend.
From S2P Require Import Crypto.
From S2P Require Import Unit.

(** ** Schedule *)

Definition SECS_PER_HOUR : Z := 3600.
Definition SECS_PER_DAY : Z := 86400.
Definition SECS_PER_MONTH : Z := 30 * SECS_PER_DAY.
Definition SECS_PER_YEAR : Z := 365 * SECS_PER_DAY.

Record Schedule := mkSchedule {
  keep_all_secs : Z;
  hourly_secs : Z;
  daily_secs : Z;
  monthly_secs : Z;
}.

Definition Schedule_DEFAULT : Schedule :=
  mkSchedule SECS_PER_HOUR (24 * SECS_PER_HOUR) (14 * SECS_PER_DAY) SECS_PER_YEAR.

Inductive BucketKey :=
| FullRes (slot : Z)
| Hour (slot : Z)
| Day (slot : Z)
| Month (slot : Z)
| Year (slot : Z).

#[global] Instance BucketKey_eq_dec : EqDecision BucketKey.
Proof. solve_decision. Defined.
#[global] Instance BucketKey_countable : Countable BucketKey.
Proof.
  refine (inj_countable'
    (λ k, match k with
          | FullRes s => (0, s) | Hour s => (1, s) | Day s => (2, s) | Month s => (3, s)
          | Year s => (4, s)
          end)
    (λ p : Z * Z, if decide (p.1 = 0) then FullRes p.2 else if decide (p.1 = 1) then Hour p.2
          else if decide (p.1 = 2) then Day p.2 else if decide (p.1 = 3) then Month p.2
          else Year p.2) _).
  by intros [].
Defined.

(** [Schedule::bucket]; the division of [i64] truncates. *)
Definition bucket (s : Schedule) (age timestamp : Z) : BucketKey :=
  if age <? keep_all_secs s then FullRes timestamp
  else if age <? hourly_secs s then Hour (Z.quot timestamp SECS_PER_HOUR)
  else if age <? daily_secs s then Day (Z.quot timestamp SECS_PER_DAY)
  else if age <? monthly_secs s then Month (Z.quot timestamp SECS_PER_MONTH)
  else Year (Z.quot timestamp SECS_PER_YEAR).

(** ** Strategies *)

Inductive EvictionStrategy :=
| TimeMachine (s : Schedule)
| KeepAll
| Horizon (keep : Z).

Definition EVICTION_CODE_TIME_MACHINE : Z := 0.
Definition EVICTION_CODE_KEEP_ALL : Z := 1.
Definition EVICTION_CODE_HORIZON_24H : Z := 2.

Definition to_eviction_code (s : EvictionStrategy) : Z :=
  match s with
  | TimeMachine _ => EVICTION_CODE_TIME_MACHINE
  | KeepAll => EVICTION_CODE_KEEP_ALL
  | Horizon _ => EVICTION_CODE_HORIZON_24H
  end.

Definition from_eviction_code (code : Z) : EvictionStrategy :=
  if code =? EVICTION_CODE_TIME_MACHINE then TimeMachine Schedule_DEFAULT
  else if code =? EVICTION_CODE_KEEP_ALL then KeepAll
  else if code =? EVICTION_CODE_HORIZON_24H then Horizon SECS_PER_DAY
  else KeepAll.

Record ScannedEvictedBlock := mkScanned {
  sb_uuid : bytes;
  sb_frag : Z;
  sb_length : Z;
  sb_old_version : Z;
  sb_commits : list bytes;
  sb_loc_addr : Z;
  sb_encoded_len : Z;
  sb_timestamp : Z;
  sb_inplace_addr : Z;
  sb_target_commit_seq : Z;
}.

Definition is_pinned (b : ScannedEvictedBlock) : bool := negb (bool_decide (sb_commits b = [])).

Definition I64_MIN : Z := - 2 ^ 63.

(** [a.saturating_sub(b)] on [i64]. *)
Definition sat_sub_i64 (a b : Z) : Z := Z.max I64_MIN (Z.min (2 ^ 63 - 1) (a - b)).

Definition age_of (now_utc : Z) (b : ScannedEvictedBlock) : Z := sat_sub_i64 now_utc (sb_timestamp b).

(** The indices of the elements that satisfy a test, in order. *)
Fixpoint indices_where {A} (p : nat → A → bool) (i : nat) (l : list A) : list nat :=
  match l with
  | [] => []
  | x :: l' => (if p i x then [i] else []) ++ indices_where p (S i) l'
  end.

Abbreviation BucketMap := (gmap BucketKey (Z * nat)).
Abbreviation Groups := (gmap (bytes * Z) BucketMap).

(** One round of the grouping loop. *)
Definition group_step (sched : Schedule) (now_utc : Z) (groups : Groups) (i : nat)
    (b : ScannedEvictedBlock) : Groups :=
  if is_pinned b then groups
  else
    let k := bucket sched (age_of now_utc b) (sb_timestamp b) in
    let bm := default ∅ (groups !! (sb_uuid b, sb_frag b)) in
    let entry := default (I64_MIN, i) (bm !! k) in
    let entry := if entry.1 <? sb_timestamp b then (sb_timestamp b, i) else entry in
    <[(sb_uuid b, sb_frag b) := <[k := entry]> bm]> groups.

Fixpoint group_loop (sched : Schedule) (now_utc : Z) (groups : Groups) (i : nat)
    (blocks : list ScannedEvictedBlock) : Groups :=
  match blocks with
  | [] => groups
  | b :: blocks' => group_loop sched now_utc (group_step sched now_utc groups i b) (S i) blocks'
  end.

(** The winning indices of all buckets. *)
Definition winners (groups : Groups) : gset nat :=
  list_to_set (bm ← (map_to_list groups).*2; (map_to_list (bm : BucketMap)).*2.*2).

(** [apply_strategy] *)
Definition apply_strategy (blocks : list ScannedEvictedBlock) (strategy : EvictionStrategy)
    (now_utc : Z) : list nat :=
  match strategy with
  | KeepAll => []
  | Horizon keep =>
      indices_where (λ _ b, negb (is_pinned b) && (keep <=? age_of now_utc b)) 0 blocks
  | TimeMachine sched =>
      let groups := group_loop sched now_utc ∅ 0 blocks in
      let w := winners groups in
      indices_where (λ i b, negb (is_pinned b) && negb (bool_decide (i ∈ w))) 0 blocks
  end.

(** [apply_strategy_ignoring_pins] *)
Definition unpin (b : ScannedEvictedBlock) : ScannedEvictedBlock :=
  mkScanned (sb_uuid b) (sb_frag b) (sb_length b) (sb_old_version b) [] (sb_loc_addr b)
    (sb_encoded_len b) (sb_timestamp b) (sb_inplace_addr b) (sb_target_commit_seq b).
Definition apply_strategy_ignoring_pins (blocks : list ScannedEvictedBlock)
    (strategy : EvictionStrategy) (now_utc : Z) : list nat :=
  apply_strategy (unpin <$> blocks) strategy now_utc.

(** ** The evicted block *)

Definition EVICT_MAGIC : bytes := bstr "sfse" ++ byte1 0 ++ bstr "b2" ++ byte1 0.
Definition EVICT_HEADER_SIZE : Z := 8 + 16 + 4 + 4 + 8 + 4 + 8 + 8 + 8.

Record EvictedBlock := mkEvicted {
  eb_uuid : bytes;
  eb_frag : Z;
  eb_length : Z;
  eb_old_version : Z;
  eb_commits : list bytes;
  eb_bytes : bytes;
  eb_timestamp : Z;
  eb_inplace_addr : Z;
  eb_target_commit_seq : Z;
}.

Definition evict_header (e : EvictedBlock) : bytes :=
  EVICT_MAGIC ++ eb_uuid e ++ le_bytes 4 (eb_frag e) ++ le_bytes 4 (eb_length e) ++
  le_bytes 8 (eb_old_version e) ++ le_bytes 4 (blen (eb_commits e)) ++ le_bytes 8 (eb_timestamp e) ++
  le_bytes 8 (eb_inplace_addr e) ++ le_bytes 8 (eb_target_commit_seq e).

(** The loop over the commits: [n] left, [off] into the buffer. *)
Fixpoint read_commits (buf : bytes) (n : nat) (off : Z) : res (list bytes * Z) :=
  match n with
  | O => Ok ([], off)
  | S n' =>
      c ← index_range buf off (off + 16);
      '(cs, off') ← read_commits buf n' (off + 16);
      Ok (c :: cs, off')
  end.

Section evicted.
Context `{!Crc32}.

(** [EvictedBlock::encode] *)
Definition encode_evicted (e : EvictedBlock) : bytes :=
  let out := evict_header e ++ concat (eb_commits e) ++ eb_bytes e in
  out ++ le_bytes 4 (crc32 out).

(** [EvictedBlock::decode] *)
Definition decode_evicted (buf : bytes) (byte_len : Z) : res EvictedBlock :=
  if 2 ^ 64 <=? EVICT_HEADER_SIZE + byte_len + 4 then Err (Integrity "evicted block length overflow")
  else if blen buf <? EVICT_HEADER_SIZE + byte_len + 4
  then Err (Integrity "evicted block buffer too short")
  else
    m ← index_range buf 0 8;
    if negb (bool_decide (m = EVICT_MAGIC)) then Err (Integrity "evicted block: bad magic")
    else
      uuid ← index_range buf 8 24;
      frag ← index_range buf 24 28;
      length ← index_range buf 28 32;
      old_version ← index_range buf 32 40;
      commits_count ← index_range buf 40 44;
      timestamp ← index_range buf 44 52;
      inplace_addr ← index_range buf 52 60;
      target_commit_seq ← index_range buf 60 68;
      if negb (le_val length =? byte_len)
      then Err (Integrity "evicted block: stored length != expected")
      else
        let commits_count := le_val commits_count in
        let total := EVICT_HEADER_SIZE + commits_count * 16 + byte_len + 4 in
        if 2 ^ 64 <=? total then Err (Integrity "evicted block total size overflow")
        else if blen buf <? total then Err (Integrity "evicted block buffer too short for commits")
        else
          stored_crc ← index_range buf (total - 4) total;
          body ← index_range buf 0 (total - 4);
          if negb (le_val stored_crc =? crc32 body) then Err (Integrity "evicted block: CRC mismatch")
          else
            '(commits, off) ← read_commits buf (Z.to_nat commits_count) EVICT_HEADER_SIZE;
            payload ← index_range buf off (off + byte_len);
            Ok (mkEvicted uuid (le_val frag) (le_val length) (le_val old_version) commits payload
                  (le_val_i64 timestamp) (le_val inplace_addr) (le_val target_commit_seq)).

(** One slot of [scan_eviction_tail]; a failed read or decode skips it. *)
Definition scan_slot (b : Backend.t) (addr container_len : Z) : res (option ScannedEvictedBlock) :=
  match Backend.read_at b addr 8 with
  | Panic => Panic
  | Err _ => Ok None
  | Ok magic =>
      if negb (bool_decide (magic = EVICT_MAGIC)) then Ok None
      else
        match Backend.read_at b addr EVICT_HEADER_SIZE with
        | Panic => Panic
        | Err _ => Ok None
        | Ok fixed_hdr =>
            length ← index_range fixed_hdr 28 32;
            commits_count ← index_range fixed_hdr 40 44;
            let total := EVICT_HEADER_SIZE + le_val commits_count * 16 + le_val length + 4 in
            end_ ← add64 addr total;
            if container_len <? end_ then Ok None
            else
              match Backend.read_at b addr total with
              | Panic => Panic
              | Err _ => Ok None
              | Ok buf =>
                  match decode_evicted buf (le_val length) with
                  | Panic => Panic
                  | Err _ => Ok None
                  | Ok block =>
                      Ok (Some (mkScanned (eb_uuid block) (eb_frag block) (eb_length block)
                        (eb_old_version block) (eb_commits block) addr (total `mod` 2 ^ 32)
                        (eb_timestamp block) (eb_inplace_addr block) (eb_target_commit_seq block)))
                  end
              end
        end
  end.

(** The loop over the aligned slots; it advances by a block per round. *)
Fixpoint scan_tail_loop (fuel : nat) (b : Backend.t) (addr container_len : Z)
  : res (list ScannedEvictedBlock) :=
  match fuel with
  | O => Panic
  | S fuel' =>
      end_ ← add64 addr BASE_BLOCK;
      if end_ <=? container_len then
        s ← scan_slot b addr container_len;
        next ← add64 addr BASE_BLOCK;
        rest ← scan_tail_loop fuel' b next container_len;
        Ok (match s with Some x => x :: rest | None => rest end)
      else Ok []
  end.

(** [scan_eviction_tail] *)
Definition scan_eviction_tail (b : Backend.t) (tail_low container_len : Z)
  : res (list ScannedEvictedBlock) :=
  if container_len <=? tail_low then Ok []
  else scan_tail_loop (S (Z.to_nat ((container_len - tail_low) `div` BASE_BLOCK))) b tail_low container_len.

End evicted.

(** ** The drop set *)

Lemma indices_where_spec {A} (p : nat → A → bool) n (l : list A) i :
  i ∈ indices_where p n l ↔ ∃ x, (n ≤ i)%nat ∧ l !! (i - n)%nat = Some x ∧ p i x = true.
Proof.
  revert n. induction l as [|x l IH]; intros n; cbn [indices_where].
  { split; [by intros ?%elem_of_nil|by intros (?&_&?&_)]. }
  rewrite elem_of_app, IH. split.
  - intros [Hi|(y&?&Hy&?)].
    + destruct (p n x) eqn:E; [|by apply elem_of_nil in Hi]. apply list_elem_of_singleton in Hi as ->.
      exists x. by rewrite Nat.sub_diag.
    + exists y. split; [lia|]. split; [|done]. by replace (i - n)%nat with (S (i - S n)) by lia.
  - intros (y&Hle&Hy&Hp). destruct (decide (i = n)) as [->|].
    + left. rewrite Nat.sub_diag in Hy. injection Hy as ->. rewrite Hp. by apply list_elem_of_singleton.
    + right. exists y. split; [lia|]. split; [|done].
      by replace (i - n)%nat with (S (i - S n)) in Hy by lia.
Qed.

Section time_machine.
Context (sched : Schedule) (now : Z).

(** The competition slot of an unpinned block. *)
Definition slot_of (b : ScannedEvictedBlock) : bytes * Z * BucketKey :=
  (sb_uuid b, sb_frag b, bucket sched (age_of now b) (sb_timestamp b)).

Definition candidate (b : ScannedEvictedBlock) (s : bytes * Z * BucketKey) : Prop :=
  is_pinned b = false ∧ slot_of b = s.

(** [j] beats every block of its slot: newer, or as new and earlier. *)
Definition beats (blocks : list ScannedEvictedBlock) (s : bytes * Z * BucketKey) (ts : Z) (j : nat) : Prop :=
  ∀ i b, blocks !! i = Some b → candidate b s →
    sb_timestamp b < ts ∨ (sb_timestamp b = ts ∧ (j ≤ i)%nat).

Definition slot_entry (g : Groups) (s : bytes * Z * BucketKey) : option (Z * nat) :=
  g !! s.1 ≫= λ bm : BucketMap, bm !! s.2.

Definition grouped (blocks : list ScannedEvictedBlock) (g : Groups) : Prop :=
  ∀ s, match slot_entry g s with
       | None => ∀ i b, blocks !! i = Some b → ¬ candidate b s
       | Some (ts, j) =>
           (∃ b, blocks !! j = Some b ∧ candidate b s ∧ sb_timestamp b = ts) ∧ beats blocks s ts j
       end.

Lemma slot_entry_step g i b s :
  is_pinned b = false →
  slot_entry (group_step sched now g i b) s =
    if decide (slot_of b = s)
    then let entry := default (I64_MIN, i) (slot_entry g s) in
         Some (if entry.1 <? sb_timestamp b then (sb_timestamp b, i) else entry)
    else slot_entry g s.
Proof.
  intros Hp. unfold group_step, slot_entry. rewrite Hp. cbv zeta. destruct s as [[u f] q]; cbn [fst snd].
  unfold slot_of. destruct (decide ((sb_uuid b, sb_frag b) = (u, f))) as [Huf|Huf].
  - rewrite Huf, lookup_insert_eq. cbn.
    destruct (decide (bucket sched (age_of now b) (sb_timestamp b) = q)) as [->|Hq].
    + rewrite lookup_insert_eq, decide_True by done.
      by destruct (g !! (u, f)).
    + rewrite lookup_insert_ne, decide_False by congruence. destruct (g !! (u, f)); [done|].
      apply lookup_empty.
  - rewrite lookup_insert_ne by done. by rewrite decide_False by congruence.
Qed.

Lemma grouped_step blocks g b :
  grouped blocks g → i64 (sb_timestamp b) → grouped (blocks ++ [b]) (group_step sched now g (length blocks) b).
Proof.
  intros Hg Hts s. specialize (Hg s).
  assert (∀ i b', (blocks ++ [b]) !! i = Some b' ↔
    blocks !! i = Some b' ∨ (i = length blocks ∧ b' = b)) as Hlk.
  { intros i b'. rewrite lookup_snoc_Some. split; [|naive_solver eauto using lookup_lt_Some].
    intros [[? ?]|[? ?]]; naive_solver. }
  destruct (is_pinned b) eqn:Hp.
  { assert (¬ candidate b s) by (intros [? _]; congruence).
    replace (slot_entry (group_step sched now g (length blocks) b) s) with (slot_entry g s)
      by (unfold group_step; by rewrite Hp).
    destruct (slot_entry g s) as [[ts j]|].
    - destruct Hg as ((b0&?&?&?)&Hb). split; [exists b0; rewrite Hlk; auto|].
      intros i b' [?|[-> ->]]%Hlk Hc; [by apply (Hb i b')|done].
    - intros i b' [?|[-> ->]]%Hlk; eauto. }
  rewrite slot_entry_step by done. case_decide as Hs; cbv zeta.
  2:{ assert (¬ candidate b s) by (intros [_ ?]; done). destruct (slot_entry g s) as [[ts j]|].
      - destruct Hg as ((b0&?&?&?)&Hb). split; [exists b0; rewrite Hlk; auto|].
        intros i b' [?|[-> ->]]%Hlk Hc; [by apply (Hb i b')|done].
      - intros i b' [?|[-> ->]]%Hlk; eauto. }
  assert (candidate b s) as Hcand by done.
  destruct (slot_entry g s) as [[ts j]|]; unfold default, from_option, id; cbn [fst].
  - destruct Hg as ((b0&Hb0&?&?)&Hb).
    assert (j < length blocks)%nat by eauto using lookup_lt_Some.
    destruct (Z.ltb_spec ts (sb_timestamp b)).
    + split; [exists b; rewrite Hlk; auto|]. intros i b' [Hi|[-> ->]]%Hlk Hc; [|right; split; [done|lia]].
      destruct (Hb i b' Hi Hc); left; lia.
    + split; [exists b0; rewrite Hlk; auto|]. intros i b' [Hi|[-> ->]]%Hlk Hc; [by apply (Hb i b')|].
      destruct (decide (sb_timestamp b = ts)); [right; split; [done|lia]|left; lia].
  - assert (beats (blocks ++ [b]) s (sb_timestamp b) (length blocks)) as Hbt.
    { intros i b' [Hi|[-> ->]]%Hlk Hc; [by destruct (Hg i b' Hi)|right; done]. }
    assert (∃ b0, (blocks ++ [b]) !! length blocks = Some b0 ∧ candidate b0 s ∧
      sb_timestamp b0 = sb_timestamp b) as Hex by (exists b; rewrite Hlk; auto).
    destruct (Z.ltb_spec I64_MIN (sb_timestamp b)); [done|].
    replace I64_MIN with (sb_timestamp b) by (unfold i64, I64_MIN in *; lia). done.
Qed.

Lemma group_loop_grouped blocks g rest :
  grouped blocks g → Forall (λ b, i64 (sb_timestamp b)) rest →
  grouped (blocks ++ rest) (group_loop sched now g (length blocks) rest).
Proof.
  intros Hg Hr. revert blocks g Hg.
  induction Hr as [|b rest Hb _ IH]; intros blocks g Hg; cbn [group_loop]; [by rewrite app_nil_r|].
  rewrite cons_middle, app_assoc.
  replace (S (length blocks)) with (length (blocks ++ [b])) by (rewrite length_app; cbn; lia).
  apply IH. by apply grouped_step.
Qed.

Lemma elem_of_winners g j : j ∈ winners g ↔ ∃ s ts, slot_entry g s = Some (ts, j).
Proof.
  unfold winners, slot_entry. rewrite elem_of_list_to_set, list_elem_of_bind. split.
  - intros (bm&Hj&Hbm). apply list_elem_of_fmap in Hbm as ([k bm']&->&Hbm).
    apply list_elem_of_fmap in Hj as ([ts j']&->&Hj). apply list_elem_of_fmap in Hj as ([q p]&Heq&Hj).
    apply elem_of_map_to_list in Hbm, Hj. cbn in *. exists (k, q), ts. cbn. rewrite Hbm. cbn. congruence.
  - intros ([k q]&ts&Hs). cbn in Hs. apply bind_Some in Hs as (bm&Hbm&Hq).
    exists bm. split.
    + apply list_elem_of_fmap. exists (ts, j). split; [done|].
      apply list_elem_of_fmap. exists (q, (ts, j)). split; [done|]. by apply elem_of_map_to_list.
    + apply list_elem_of_fmap. exists (k, bm). split; [done|]. by apply elem_of_map_to_list.
Qed.

Lemma groups_of_blocks blocks :
  Forall (λ b, i64 (sb_timestamp b)) blocks → grouped blocks (group_loop sched now ∅ 0 blocks).
Proof.
  intros. apply (group_loop_grouped [] ∅ blocks); [|done]. intros s. unfold slot_entry.
  rewrite lookup_empty. cbn. intros i b Hl. by rewrite lookup_nil in Hl.
Qed.

(** A block wins exactly when nothing in its slot beats it. *)
Lemma winner_spec blocks i b :
  Forall (λ b, i64 (sb_timestamp b)) blocks → blocks !! i = Some b → is_pinned b = false →
  i ∈ winners (group_loop sched now ∅ 0 blocks) ↔ beats blocks (slot_of b) (sb_timestamp b) i.
Proof.
  intros Hts Hi Hp. pose proof (groups_of_blocks blocks Hts) as Hg.
  rewrite elem_of_winners. split.
  - intros (s&ts&Hs). specialize (Hg s). rewrite Hs in Hg. destruct Hg as ((b0&Hb0&[_ Hc]&<-)&Hb).
    rewrite Hi in Hb0. injection Hb0 as <-. by rewrite Hc.
  - intros Hb. exists (slot_of b). specialize (Hg (slot_of b)).
    destruct (slot_entry _ (slot_of b)) as [[ts j]|]; [|by destruct (Hg i b)].
    destruct Hg as ((b0&Hb0&Hc0&<-)&Hb0'). exists (sb_timestamp b0). do 2 f_equal.
    destruct (Hb j b0 Hb0 Hc0) as [?|[? ?]], (Hb0' i b Hi ltac:(done)) as [?|[? ?]]; lia.
Qed.

End time_machine.

Lemma drop_exact blocks strategy now i :
  Forall (λ b, i64 (sb_timestamp b)) blocks →
  i ∈ apply_strategy blocks strategy now ↔
  ∃ b, blocks !! i = Some b ∧ is_pinned b = false ∧
    match strategy with
    | KeepAll => False
    | Horizon keep => keep ≤ age_of now b
    | TimeMachine s => ∃ j b', blocks !! j = Some b' ∧ candidate s now b' (slot_of s now b) ∧
        (sb_timestamp b < sb_timestamp b' ∨ (sb_timestamp b = sb_timestamp b' ∧ (j < i)%nat))
    end.
Proof.
  intros Hts. destruct strategy as [s| |keep]; cbn [apply_strategy].
  - rewrite indices_where_spec. split.
    + intros (b&_&Hb&Hp). rewrite Nat.sub_0_r in Hb. apply andb_prop in Hp as [Hp Hw].
      apply negb_true_iff in Hp, Hw. apply bool_decide_eq_false in Hw. exists b. split_and!; [done..|].
      assert (grouped s now blocks (group_loop s now ∅ 0 blocks)) as Hg by by apply groups_of_blocks.
      specialize (Hg (slot_of s now b)). destruct (slot_entry _ _) as [[ts j]|] eqn:Es;
        [|by destruct (Hg i b)]. destruct Hg as ((b'&Hb'&Hc'&<-)&Hbeats). exists j, b'.
      split_and!; [done..|]. assert (j ≠ i) by (intros ->; apply Hw, elem_of_winners; eauto).
      destruct (Hbeats i b Hb ltac:(done)) as [?|[? ?]]; [by left|right; split; [done|lia]].
    + intros (b&Hb&Hp&j&b'&Hb'&Hc&Hlt). exists b. rewrite Nat.sub_0_r, Hp. split_and!; [lia|done|].
      apply negb_true_iff, bool_decide_eq_false. rewrite (winner_spec s now blocks i b) by done.
      intros Hbeats. destruct (Hbeats j b' Hb' Hc) as [?|[? ?]], Hlt as [?|[? ?]]; lia.
  - split; [by intros ?%elem_of_nil|naive_solver].
  - rewrite indices_where_spec. setoid_rewrite Nat.sub_0_r. split.
    + intros (b&_&Hb&Hp). exists b. apply andb_prop in Hp as [Hp%negb_true_iff Hk]. split_and!; [done..|lia].
    + intros (b&Hb&Hp&Hk). exists b. rewrite Hp. split_and!; [lia|done|]. cbn. lia.
Qed.

(** In the youngest band a slot is a second of a fragment. *)
Lemma full_res_slot s now b b' :
  age_of now b < keep_all_secs s →
  slot_of s now b' = slot_of s now b ↔
  sb_uuid b' = sb_uuid b ∧ sb_frag b' = sb_frag b ∧ sb_timestamp b' = sb_timestamp b.
Proof.
  intros Ha. unfold slot_of, bucket at 2. rewrite (proj2 (Z.ltb_lt _ _) Ha). split.
  - intros [= -> -> Hb]. split_and!; [done..|]. unfold bucket in Hb. repeat case_match; congruence.
  - intros (->&->&Ht). unfold age_of in *. rewrite Ht. unfold bucket. by rewrite (proj2 (Z.ltb_lt _ _) Ha).
Qed.

(** C21. What the retention pass drops. A pinned block is never dropped.
    [KeepAll] drops nothing; [Horizon] drops the unpinned blocks that have
    reached the horizon; [TimeMachine] drops an unpinned block exactly when its
    bucket of the same fragment holds an unpinned block that is newer, or
    equally new and earlier in the scan, so that every bucket keeps its newest
    block. At the ages below [keep_all_secs] a bucket is one second wide: of the
    blocks of a fragment evicted in the same second only the first in the scan
    is kept, although the description of the schedule says that every block of
    this age is. *)
Theorem retention_drop_exact blocks strategy now i :
  Forall (λ b, i64 (sb_timestamp b)) blocks →
  (i ∈ apply_strategy blocks strategy now ↔
   ∃ b, blocks !! i = Some b ∧ is_pinned b = false ∧
     match strategy with
     | KeepAll => False
     | Horizon keep => keep ≤ age_of now b
     | TimeMachine s => ∃ j b', blocks !! j = Some b' ∧ candidate s now b' (slot_of s now b) ∧
         (sb_timestamp b < sb_timestamp b' ∨ (sb_timestamp b = sb_timestamp b' ∧ (j < i)%nat))
     end) ∧
  ∀ s b, strategy = TimeMachine s → blocks !! i = Some b → is_pinned b = false → age_of now b < keep_all_secs s →
    i ∈ apply_strategy blocks strategy now ↔
    ∃ j b', (j < i)%nat ∧ blocks !! j = Some b' ∧ is_pinned b' = false ∧
      sb_uuid b' = sb_uuid b ∧ sb_frag b' = sb_frag b ∧ sb_timestamp b' = sb_timestamp b.
Proof.
  intros Hts. split; [by apply drop_exact|]. intros s b -> Hb Hp Ha. rewrite drop_exact by done.
  assert (∀ b', candidate s now b' (slot_of s now b) ↔ is_pinned b' = false ∧
    sb_uuid b' = sb_uuid b ∧ sb_frag b' = sb_frag b ∧ sb_timestamp b' = sb_timestamp b) as Hc.
  { intros b'. unfold candidate. by rewrite full_res_slot. }
  split.
  - intros (b0&Hb0&_&j&b'&Hj&Hc'&Hlt). rewrite Hb in Hb0. injection Hb0 as <-. apply Hc in Hc' as (?&?&?&?).
    exists j, b'. split_and!; [|done..]. destruct Hlt as [?|[_ ?]]; lia.
  - intros (j&b'&Hlt&Hj&Hc'). exists b. split_and!; [done..|]. exists j, b'. split_and!; [done|by apply Hc|].
    right. destruct Hc' as (_&_&_&->). by split.
Qed.

(** ** The evicted block *)

Definition evicted_ok (e : EvictedBlock) : Prop :=
  blen (eb_uuid e) = 16 ∧ u32 (eb_frag e) ∧ u32 (eb_length e) ∧ u64 (eb_old_version e) ∧
  list_ok (λ c, blen c = 16) (eb_commits e) ∧ blen (eb_bytes e) = eb_length e ∧
  i64 (eb_timestamp e) ∧ u64 (eb_inplace_addr e) ∧ u64 (eb_target_commit_seq e).

Section evicted_codec.
Context `{!Crc32}.

Lemma blen_EVICT_MAGIC : blen EVICT_MAGIC = 8.
Proof. done. Qed.
#[local] Hint Rewrite blen_EVICT_MAGIC : blen.

Lemma blen_evict_header e : evicted_ok e → blen (evict_header e) = EVICT_HEADER_SIZE.
Proof. intros (?&_). unfold evict_header, EVICT_HEADER_SIZE. blia. Qed.

Lemma blen_concat_16 (l : list bytes) : Forall (λ c, blen c = 16) l → blen (concat l) = 16 * blen l.
Proof. induction 1 as [|c l Hc _ IH]; [done|]. cbn [concat]. autorewrite with blen. lia. Qed.

Lemma blen_encode_evicted e :
  evicted_ok e → blen (encode_evicted e) = EVICT_HEADER_SIZE + blen (eb_commits e) * 16 + eb_length e + 4.
Proof.
  intros He. pose proof (blen_evict_header e He). destruct He as (_&_&_&_&[_ Hc]&Hb&_).
  unfold encode_evicted. autorewrite with blen. rewrite blen_concat_16 by done. lia.
Qed.

Lemma read_commits_encoded buf (l : list bytes) off rest :
  Forall (λ c, blen c = 16) l → at_cursor buf off (concat l ++ rest) →
  read_commits buf (length l) off = Ok (l, off + 16 * blen l).
Proof.
  intros Hl. revert off. induction Hl as [|c l Hc _ IH]; intros off Hcur; cbn [read_commits length].
  { do 2 f_equal. unfold blen; cbn [length]. lia. }
  cbn [concat] in Hcur. rewrite <-app_assoc in Hcur. cursor_bind Hcur. rewrite Hc in Hcur.
  rewrite IH by done. cbn. rewrite blen_cons. do 2 f_equal. lia.
Qed.

Lemma read_commits_no_panic buf n off :
  0 ≤ off → off + 16 * Z.of_nat n ≤ blen buf →
  no_panic (read_commits buf n off) ∧
  ∀ l off', read_commits buf n off = Ok (l, off') →
    length l = n ∧ Forall (λ c, blen c = 16) l ∧ off' = off + 16 * Z.of_nat n.
Proof.
  revert off. induction n as [|n IH]; intros off ??; cbn [read_commits].
  { split; [auto with panic|]. intros l off' [= <- <-]. split_and!; [done|done|lia]. }
  destruct (IH (off + 16)) as [Hp Hr]; [lia..|]. split.
  - apply no_panic_bind; [apply no_panic_index_range; lia|]. intros c _.
    apply no_panic_bind; [done|]. intros [] _. auto with panic.
  - intros l off' (c&Hc&Hk)%bind_ok. apply bind_ok in Hk as ([cs o]&Hcs&[= <- <-]).
    apply Hr in Hcs as (<-&?&->). split_and!; [done| |cbn; lia].
    constructor; [|done]. eauto with fields.
Qed.

Lemma decode_encode_evicted e rest :
  evicted_ok e → decode_evicted (encode_evicted e ++ rest) (eb_length e) = Ok e.
Proof.
  intros He. pose proof (blen_encode_evicted e He) as Hlen. pose proof (blen_evict_header e He) as Hh.
  pose proof He as (?&?&?&?&[? Hc]&Hb&?&?&?). pose proof (blen_nonneg (eb_commits e)).
  pose proof (at_cursor_start (encode_evicted e ++ rest)) as Hcur.
  assert (EVICT_HEADER_SIZE = 68) as Hsz by done.
  set (out := evict_header e ++ concat (eb_commits e) ++ eb_bytes e).
  assert (blen out = blen (encode_evicted e) - 4) as Hout
    by (unfold encode_evicted; fold out; blia).
  assert (blen (encode_evicted e ++ rest) = blen (encode_evicted e) + blen rest) as Hbuf by blia.
  pose proof (blen_nonneg rest).
  assert (at_cursor (encode_evicted e ++ rest) 0 (out ++ le_bytes 4 (crc32 out) ++ rest)) as Hco
    by (unfold encode_evicted in Hcur at 2; fold out in Hcur; by rewrite <-app_assoc in Hcur).
  generalize dependent (encode_evicted e ++ rest). intros buf _ Hbuf Hco.
  pose proof Hco as Hf. unfold out, evict_header in Hf. rewrite <-!app_assoc in Hf.
  unfold decode_evicted. rewrite Hsz in *.
  replace (2 ^ 64 <=? _) with false by width_lia. replace (blen buf <? _) with false by lia.
  cursor_bind Hf. branch false. do 8 cursor_bind Hf.
  rewrite !le_val_u32, !le_val_u64 by (done || width_lia). rewrite le_val_i64_bytes by done.
  rewrite Z.eqb_refl. cbn [negb]. cbv zeta.
  replace (2 ^ 64 <=? _) with false by width_lia. replace (blen buf <? _) with false by lia.
  pose proof Hco as Hcrc. eapply at_cursor_skip in Hcrc; [|reflexivity].
  eapply bind_step; [eapply index_range_cursor; [exact Hcrc|lia|blia]|].
  eapply bind_step; [eapply index_range_cursor; [exact Hco|lia|lia]|]. cbv beta.
  rewrite le_val_u32, Z.eqb_refl by apply crc32_u32. cbn [negb].
  unfold blen at 1. rewrite Nat2Z.id. cursor_at Hf 68.
  rewrite (read_commits_encoded _ _ _ _ Hc Hf). cbn [mbind res_bind].
  eapply at_cursor_skip in Hf; [|reflexivity]. rewrite blen_concat_16 in Hf by done.
  eapply bind_step; [eapply index_range_cursor; [exact Hf|lia|lia]|]. by destruct e.
Qed.

Lemma decode_evicted_no_panic buf n : 0 ≤ n → no_panic (decode_evicted buf n).
Proof.
  intros Hn. unfold decode_evicted, EVICT_HEADER_SIZE. do 2 (panic_step; [auto with panic|]).
  assert (72 ≤ blen buf) by lia.
  apply no_panic_bind; [apply no_panic_index_range; lia|]. intros m _. panic_step; [auto with panic|].
  do 4 (apply no_panic_bind; [apply no_panic_index_range; lia|]; intros ? _).
  apply no_panic_bind; [apply no_panic_index_range; lia|]. intros cc Hcc.
  pose proof (index_range_u32 _ _ _ _ Hcc eq_refl) as [? _].
  do 3 (apply no_panic_bind; [apply no_panic_index_range; lia|]; intros ? _).
  panic_step; [auto with panic|]. cbv zeta. do 2 (panic_step; [auto with panic|]).
  do 2 (apply no_panic_bind; [apply no_panic_index_range; lia|]; intros ? _).
  panic_step; [auto with panic|].
  destruct (read_commits_no_panic buf (Z.to_nat (le_val cc)) (8 + 16 + 4 + 4 + 8 + 4 + 8 + 8 + 8))
    as [Hp Hr]; [lia..|].
  apply no_panic_bind; [done|]. intros [cs off] (_&_&->)%Hr.
  apply no_panic_bind; [apply no_panic_index_range; lia|]. auto with panic.
Qed.

(** ** The tail scan *)

(** What a slot contributes to the scan. *)
Definition slot_result (b : Backend.t) (container_len addr : Z) : option ScannedEvictedBlock :=
  match scan_slot b addr container_len with
  | Ok s => s
  | _ => None
  end.

Definition scanned_of (e : EvictedBlock) (addr : Z) : ScannedEvictedBlock :=
  mkScanned (eb_uuid e) (eb_frag e) (eb_length e) (eb_old_version e) (eb_commits e) addr
    (blen (encode_evicted e) `mod` 2 ^ 32) (eb_timestamp e) (eb_inplace_addr e) (eb_target_commit_seq e).

Lemma scan_slot_total b addr clen :
  Backend.wf b → 0 ≤ addr → addr < 2 ^ 63 → scan_slot b addr clen = Ok (slot_result b clen addr).
Proof.
  intros Hwf ??. assert (no_panic (scan_slot b addr clen) ∧ ∀ e, scan_slot b addr clen ≠ Err e) as [Hp He].
  { unfold scan_slot. pose proof (Backend.read_at_no_panic b addr 8 Hwf ltac:(lia) ltac:(lia)).
    destruct (Backend.read_at b addr 8); [|done..]. case_match; [done|].
    pose proof (Backend.read_at_no_panic b addr EVICT_HEADER_SIZE Hwf ltac:(lia) ltac:(done)).
    destruct (Backend.read_at b addr EVICT_HEADER_SIZE) as [hdr| |] eqn:Eh; [|done..].
    assert (blen hdr = 68).
    { unfold Backend.read_at in Eh. do 2 (case_match; [done|]).
      eapply index_range_blen; [done|]. unfold EVICT_HEADER_SIZE. lia. }
    assert (∀ x, 0 ≤ x → x + 4 ≤ 68 → ∃ s, index_range hdr x (x + 4) = Ok s) as Hix.
    { intros x ??. unfold index_range. destruct (get_range_is_Some hdr x (x + 4)) as [s ->]; [lia..|]. eauto. }
    destruct (Hix 28) as [ln Hln]; [lia..|]. destruct (Hix 40) as [cc Hcc]; [lia..|].
    change (28 + 4) with 32 in Hln. change (40 + 4) with 44 in Hcc.
    pose proof (index_range_u32 _ _ _ _ Hln eq_refl). pose proof (index_range_u32 _ _ _ _ Hcc eq_refl).
    rewrite Hln, Hcc. cbn [mbind res_bind]. set (total := EVICT_HEADER_SIZE + _ + _ + _).
    assert (0 ≤ total < 2 ^ 40) by (unfold total, EVICT_HEADER_SIZE; width_lia).
    rewrite add64_ok by lia. cbn. case_match; [done|].
    pose proof (Backend.read_at_no_panic b addr total Hwf ltac:(lia) ltac:(lia)).
    destruct (Backend.read_at b addr total) as [buf| |]; [|done..].
    pose proof (decode_evicted_no_panic buf (le_val ln) ltac:(width_lia)).
    by destruct (decode_evicted buf (le_val ln)). }
  unfold slot_result. destruct (scan_slot b addr clen) eqn:E; [done|by destruct (He e)|done].
Qed.

Lemma scan_slot_found b addr clen e :
  Backend.wf b → 0 ≤ addr → evicted_ok e → clen ≤ Backend.len b →
  addr + blen (encode_evicted e) ≤ clen →
  Backend.contents b addr (blen (encode_evicted e)) = encode_evicted e →
  slot_result b clen addr = Some (scanned_of e addr).
Proof.
  intros Hwf Ha He Hcl Hfit Hc. pose proof (Backend.wf_len_nonneg b Hwf).
  pose proof (blen_encode_evicted e He) as Hlen. pose proof (blen_evict_header e He) as Hh.
  pose proof He as (?&?&?&?&[? _]&Hb&_). pose proof (blen_nonneg (eb_commits e)).
  assert (EVICT_HEADER_SIZE = 68) as Hsz by done. rewrite Hsz in *.
  set (rest := concat (eb_commits e) ++ eb_bytes e ++ le_bytes 4 (crc32 (evict_header e ++ concat (eb_commits e) ++ eb_bytes e))).
  assert (encode_evicted e = evict_header e ++ rest) as Henc
    by (unfold encode_evicted, rest; by rewrite <-!app_assoc).
  assert (∀ n, 0 ≤ n ≤ 68 → Backend.contents b addr n = take (Z.to_nat n) (evict_header e)) as Hpre.
  { intros n Hn. unfold Backend.contents in *. apply (f_equal (take (Z.to_nat n))) in Hc.
    rewrite take_take, Nat.min_l in Hc by (unfold blen in *; lia). rewrite Hc, Henc.
    by rewrite take_app_le by (unfold blen in *; lia). }
  assert (0 ≤ eb_length e) by width_lia. unfold slot_result, scan_slot. rewrite Hsz.
  rewrite (Backend.read_at_ok b addr 8), (Backend.read_at_ok b addr 68) by (done || lia).
  rewrite !Hpre by lia. change (take (Z.to_nat 8) (evict_header e)) with EVICT_MAGIC.
  rewrite bool_decide_true by done. cbn [negb]. rewrite (take_ge (evict_header e)) by (unfold blen in *; lia).
  pose proof (at_cursor_start (evict_header e)) as Hf. unfold evict_header at 2 in Hf.
  rewrite <-(app_nil_r (le_bytes 8 (eb_target_commit_seq e))) in Hf.
  assert (index_range (evict_header e) 28 32 = Ok (le_bytes 4 (eb_length e))) as ->.
  { do 3 (eapply at_cursor_skip in Hf; [|reflexivity]). eapply index_range_cursor; [exact Hf|blia|blia]. }
  assert (index_range (evict_header e) 40 44 = Ok (le_bytes 4 (blen (eb_commits e)))) as ->.
  { do 5 (eapply at_cursor_skip in Hf; [|reflexivity]). eapply index_range_cursor; [exact Hf|blia|blia]. }
  cbn [mbind res_bind]. rewrite !le_val_u32 by width_lia. cbv zeta. rewrite <-Hlen.
  rewrite add64_ok by lia. cbn [mbind res_bind]. replace (clen <? _) with false by lia.
  rewrite Backend.read_at_ok by (done || lia). rewrite Hc.
  rewrite <-(app_nil_r (encode_evicted e)) at 1. by rewrite decode_encode_evicted.
Qed.

(** The addresses of [n] consecutive slots. *)
Definition slot_addrs (lo : Z) (n : nat) : list Z := (λ k, lo + 4096 * Z.of_nat k) <$> seq 0 n.

Lemma slot_addrs_S lo n : slot_addrs lo (S n) = lo :: slot_addrs (lo + 4096) n.
Proof.
  unfold slot_addrs. cbn [seq fmap list_fmap]. f_equal; [lia|].
  rewrite <-fmap_S_seq, <-list_fmap_compose. apply list_fmap_ext. intros i x _. cbn. lia.
Qed.

Lemma elem_of_slot_addrs lo n a :
  a ∈ slot_addrs lo n ↔ ∃ k, a = lo + 4096 * k ∧ 0 ≤ k < Z.of_nat n.
Proof.
  unfold slot_addrs. rewrite list_elem_of_fmap. setoid_rewrite elem_of_seq. split.
  - intros (k&->&?). exists (Z.of_nat k). lia.
  - intros (k&->&?). exists (Z.to_nat k). lia.
Qed.

(** The loop visits the aligned slots one after the other. *)
Lemma scan_tail_loop_spec fuel b addr clen :
  Backend.wf b → 0 ≤ addr → addr ≤ clen → clen < 2 ^ 63 →
  (Z.to_nat ((clen - addr) `div` 4096) < fuel)%nat →
  scan_tail_loop fuel b addr clen =
    Ok (omap (slot_result b clen) (slot_addrs addr (Z.to_nat ((clen - addr) `div` 4096)))).
Proof.
  intros Hwf. revert addr. induction fuel as [|fuel IH]; intros addr ????; [lia|].
  cbn [scan_tail_loop]. unfold BASE_BLOCK. rewrite add64_ok by lia. cbn [mbind res_bind].
  destruct (Z.leb_spec (addr + 4096) clen).
  - rewrite scan_slot_total by (done || lia). cbn [mbind res_bind]. rewrite IH by lia.
    replace (Z.to_nat ((clen - addr) `div` 4096)) with (S (Z.to_nat ((clen - (addr + 4096)) `div` 4096))) by lia.
    rewrite slot_addrs_S. cbn. by destruct (slot_result b clen addr).
  - by replace (Z.to_nat ((clen - addr) `div` 4096)) with 0%nat by lia.
Qed.

Lemma slot_result_addr b clen addr s : slot_result b clen addr = Some s → sb_loc_addr s = addr.
Proof.
  unfold slot_result, scan_slot. destruct (Backend.read_at b addr 8); [|done..]. destruct (negb _); [done|].
  destruct (Backend.read_at b addr EVICT_HEADER_SIZE) as [hdr| |]; [|done..].
  destruct (index_range hdr 28 32) as [ln| |]; [|done..]. destruct (index_range hdr 40 44) as [cc| |]; [|done..].
  cbn [mbind res_bind]. destruct (add64 _ _); [|done..]. cbn [mbind res_bind]. destruct (clen <? _); [done|].
  destruct (Backend.read_at b addr _); [|done..]. destruct (decode_evicted _ _); [|done..]. by intros [= <-].
Qed.

Lemma slots_sorted b clen lo n :
  StronglySorted (λ s s', sb_loc_addr s < sb_loc_addr s') (omap (slot_result b clen) (slot_addrs lo n)).
Proof.
  revert lo. induction n as [|n IH]; intros lo; [constructor|]. rewrite slot_addrs_S. cbn.
  destruct (slot_result b clen lo) as [s|] eqn:E; [|apply IH]. constructor; [apply IH|].
  apply Forall_forall. intros s' (a&(k&->&Hk)%elem_of_slot_addrs&Hs')%list_elem_of_omap.
  apply slot_result_addr in E, Hs'. lia.
Qed.


(** The evicted-block codec round-trips, also with bytes after the block,
    and decoding any bytes never unwinds. *)
Lemma evicted_roundtrip e rest :
  evicted_ok e →
  decode_evicted (encode_evicted e ++ rest) (eb_length e) = Ok e ∧
  ∀ buf n, 0 ≤ n → no_panic (decode_evicted buf n).
Proof.
  intros. split; [by apply decode_encode_evicted|]. intros. by apply decode_evicted_no_panic.
Qed.

End evicted_codec.

(** ** Witnesses *)

Section witnesses.
Import Concrete.

Definition ex_scanned (ts : Z) (commits : list bytes) : ScannedEvictedBlock :=
  mkScanned (zeros 16) 3 100 1 commits 8192 172 ts 0 0.

(** An hour of age, an hour later, and the earlier one pinned. *)
Definition ex_blocks : list ScannedEvictedBlock :=
  [ex_scanned 7300 []; ex_scanned 7400 []; ex_scanned 7350 [zeros 16]].

(** Two blocks of one fragment, evicted in the same second just now. *)
Definition ex_same_second : list ScannedEvictedBlock := [ex_scanned 20000 []; ex_scanned 20000 []].

Lemma retention_drop_exact_witness :
  0%nat ∈ apply_strategy ex_blocks (TimeMachine Schedule_DEFAULT) 20000 ∧
  1%nat ∈ apply_strategy ex_same_second (TimeMachine Schedule_DEFAULT) 20000.
Proof.
  split.
  - apply (proj1 (retention_drop_exact ex_blocks (TimeMachine Schedule_DEFAULT) 20000 0 ltac:(repeat constructor; by_compute))).
    exists (ex_scanned 7300 []). split_and!; [done..|]. exists 1%nat, (ex_scanned 7400 []).
    split_and!; [done|by split|left; by_compute].
  - apply (proj2 (retention_drop_exact ex_same_second (TimeMachine Schedule_DEFAULT) 20000 1
      ltac:(repeat constructor; by_compute)) Schedule_DEFAULT (ex_scanned 20000 []) eq_refl eq_refl eq_refl ltac:(by_compute)).
    exists 0%nat, (ex_scanned 20000 []). split_and!; done || by_compute.
Defined.

Definition ex_evicted : EvictedBlock :=
  mkEvicted (zeros 16) 3 8 1 [replicate 16 (byte.of_Z 4)] (bstr "payload!") (-5) 8192 9.

Lemma ex_evicted_ok : evicted_ok ex_evicted.
Proof. unfold evicted_ok, list_ok. split_and!; try done; try by_compute; repeat constructor. Qed.

Definition ex_tail : Backend.t :=
  let m := zeros 4096 ++ encode_evicted ex_evicted ++ zeros 4000 in Backend.mk m (blen m) false.

Lemma ex_tail_wf : Backend.wf ex_tail.
Proof. split; vm_compute; congruence. Qed.


End witnesses.
