(* ===== verification/Trie.v ===== *)
(** * Catalog trie (crates/sfs-core/src/catalog/trie.rs)

    The copy-on-write 256-way radix trie over byte keys: the node block formats
    (CRC and AES-GCM) with their backup copy, the node codecs, and the
    operations get, put, remove, scan and visit over the allocator and the
    backend. Random nonces are drawn from an entropy source that the state
    counts; profiling counters are left out. *)

From S2P Require Import Prelude.
From S2P Require Import Backend.
From S2P Require Import Crypto.
From S2P Require Import Alloc.

Definition NODE_MAGIC : bytes := bstr "SFTr".
Definition OFF_KIND : Z := 4.
Definition OFF_CRC : Z := 8.
Definition OFF_PAYLOAD : Z := 12.
Definition OFF_CT_LEN_GCM : Z := 5.
Definition OFF_NONCE_GCM : Z := 8.
Definition NONCE_SIZE : Z := 12.
Definition OFF_PAYLOAD_GCM : Z := 20.
Definition GCM_OVERHEAD : Z := 28.
Definition KIND_INTERNAL : Z := 0.
Definition KIND_LEAF : Z := 1.
Definition N_SLOTS : Z := 256.
Definition SLOTS_SIZE : Z := N_SLOTS * 8.
Definition MAX_VAL_LEN : Z := 16.
Definition INTERNAL_TERM_SIZE : Z := 2 + MAX_VAL_LEN.
Definition INTERNAL_PAYLOAD_SIZE : Z := INTERNAL_TERM_SIZE + SLOTS_SIZE.
Definition LEAF_HEADER_SIZE : Z := 3.
Definition NODE_BLOCK_SIZE : Z := BASE_BLOCK.
Definition PAYLOAD_CAP : Z := NODE_BLOCK_SIZE - OFF_PAYLOAD.
Definition PAYLOAD_CAP_GCM : Z := PAYLOAD_CAP - GCM_OVERHEAD.
Definition MAX_KEY_LEN : Z := PAYLOAD_CAP_GCM - LEAF_HEADER_SIZE - MAX_VAL_LEN.
Definition TRIE_MAX_DEPTH : Z := MAX_KEY_LEN + 64.
Definition TRIE_NODE_BUDGET : Z := Z.shiftl 1 20.
Definition NODE_ALLOC_SIZE : Z := 2 * BASE_BLOCK.

(** [getrandom]: the [n]-th nonce drawn. *)
Class Entropy := {
  draw : nat → bytes;
  draw_length : ∀ n, length (draw n) = 12%nat;
}.

Record NodeCrypto := mkNodeCrypto { meta_key : bytes; node_cipher : Z }.

(** ** Node payloads *)

Record Internal := mkInternal { term : option bytes; slots : list Z }.

Definition Internal_empty : Internal := mkInternal None (replicate 256 0).

(** [Internal::decode] *)
Definition decode_internal (block : bytes) : res Internal :=
  p ← index_range block OFF_PAYLOAD (OFF_PAYLOAD + INTERNAL_PAYLOAD_SIZE);
  present ← index_byte p 0;
  term ← (if negb (present =? 0) then
            vlen ← index_byte p 1;
            v ← index_range p 2 (2 + vlen);
            Ok (Some v)
          else Ok None);
  slot_bytes ← index_range p INTERNAL_TERM_SIZE (INTERNAL_TERM_SIZE + SLOTS_SIZE);
  Ok (mkInternal term ((λ c, le_val c) <$> chunks 8 slot_bytes)).

(** [Internal::encode]; the length of the value is a debug assertion. *)
Definition encode_internal (n : Internal) : res bytes :=
  head ← match term n with
         | Some v =>
             if negb (blen v <=? MAX_VAL_LEN) then Panic
             else Ok (byte1 1 ++ byte1 (blen v) ++ v ++ zeros (Z.to_nat (MAX_VAL_LEN - blen v)))
         | None => Ok (zeros (Z.to_nat INTERNAL_TERM_SIZE))
         end;
  Ok (head ++ concat (le_bytes 8 <$> slots n)).

Definition slot (n : Internal) (byte : Z) : Z := default 0 (slots n !! Z.to_nat byte).
Definition set_slot (n : Internal) (byte x : Z) : Internal :=
  mkInternal (term n) (<[Z.to_nat byte := x]> (slots n)).
Definition set_term (n : Internal) (t : option bytes) : Internal := mkInternal t (slots n).

(** [is_empty] *)
Definition internal_is_empty (n : Internal) : bool :=
  (if term n is Some _ then false else true) && forallb (λ s, s =? 0) (slots n).

(** [lone_child]: the loop over the slots from index [i] on. *)
Fixpoint lone_child_loop (i : nat) (idx : option nat) (l : list Z) : option nat :=
  match l with
  | [] => idx
  | s :: l' =>
      if negb (s =? 0) then
        match idx with
        | Some _ => None
        | None => lone_child_loop (S i) (Some i) l'
        end
      else lone_child_loop (S i) idx l'
  end.
Definition lone_child (n : Internal) : option nat :=
  if term n is Some _ then None else lone_child_loop 0 None (slots n).

(** [decode_leaf] *)
Definition decode_leaf (block : bytes) : res (bytes * bytes) :=
  p ← index_range block OFF_PAYLOAD (blen block);
  k ← index_range p 0 2;
  vlen ← index_byte p 2;
  let klen := le_val k in
  if MAX_KEY_LEN <? klen then Err (Integrity "leaf node klen exceeds MAX_KEY_LEN")
  else if MAX_VAL_LEN <? vlen then Err (Integrity "leaf node vlen exceeds MAX_VAL_LEN")
  else if blen p <? LEAF_HEADER_SIZE + klen + vlen then Err (Integrity "leaf node exceeds payload")
  else
    key ← index_range p LEAF_HEADER_SIZE (LEAF_HEADER_SIZE + klen);
    val ← index_range p (LEAF_HEADER_SIZE + klen) (LEAF_HEADER_SIZE + klen + vlen);
    Ok (key, val).

(** [encode_leaf]; the lengths are debug assertions. *)
Definition encode_leaf (key val : bytes) : res bytes :=
  if negb (blen key <=? MAX_KEY_LEN) then Panic
  else if negb (blen val <=? MAX_VAL_LEN) then Panic
  else Ok (le_bytes 2 (blen key) ++ byte1 (blen val) ++ key ++ val).

(** ** Node blocks *)

Definition node_aad (addr kind : Z) : bytes := le_bytes 8 addr ++ byte1 kind.

(** [block[0..8]] of the CRC layout. *)
Definition node_prefix (kind : Z) : bytes := NODE_MAGIC ++ byte1 kind ++ zeros 3.

Abbreviation TM A := (St ((Allocator.t * Backend.t) * nat) A).

Definition on_ab {A} (m : Allocator.M A) : TM A := λ '(ab, n), let '(r, ab') := m ab in (r, (ab', n)).
Definition get_be : TM Backend.t := λ s, (Ok s.1.2, s).

Section nodes.
Context `{!Crc32, !Hkdf, !AesGcm, !Entropy}.

Definition NodeCrypto_new (cipher : Z) (container_key : bytes) : NodeCrypto :=
  mkNodeCrypto (derive_meta_key container_key) cipher.

Definition random_nonce : TM bytes := λ '(ab, n), (Ok (draw n), (ab, S n)).

(** [node_crc]: every byte but the CRC field. *)
Definition node_crc (block : bytes) : Z := crc32 (take 8 block ++ drop 12 block).

Definition crc_block (kind : Z) (payload : bytes) : bytes :=
  let rest := payload ++ zeros (Z.to_nat (PAYLOAD_CAP - blen payload)) in
  let block := node_prefix kind ++ zeros 4 ++ rest in
  node_prefix kind ++ le_bytes 4 (node_crc block) ++ rest.

Definition gcm_block (kind : Z) (nonce ct : bytes) : bytes :=
  NODE_MAGIC ++ byte1 kind ++ le_bytes 2 (blen ct) ++ zeros 1 ++ nonce ++ ct ++
  zeros (Z.to_nat (NODE_BLOCK_SIZE - OFF_PAYLOAD_GCM - blen ct)).

(** [write_node_block] *)
Definition write_node_block (addr : Z) (crypto : NodeCrypto) (kind : Z) (payload : bytes) : TM () :=
  if node_cipher crypto =? CIPHER_AES256_GCM then
    if negb (blen payload <=? PAYLOAD_CAP_GCM) then lift Panic
    else
      nonce ← random_nonce;
      let ct := seal_with_nonce (meta_key crypto) nonce (node_aad addr kind) payload in
      if negb (blen ct =? blen payload + 16) then lift Panic
      else on_ab (Allocator.on_backend (λ b, Backend.write_at b addr (gcm_block kind nonce ct)))
  else
    if negb (OFF_PAYLOAD + blen payload <=? NODE_BLOCK_SIZE) then lift Panic
    else on_ab (Allocator.on_backend (λ b, Backend.write_at b addr (crc_block kind payload))).

(** [validate_node_block] *)
Definition validate_node_block (block : bytes) : res () :=
  m ← index_range block 0 4;
  if negb (bool_decide (m = NODE_MAGIC)) then Err (Integrity "bad magic")
  else
    stored ← index_range block OFF_CRC (OFF_CRC + 4);
    if negb (le_val stored =? node_crc block) then Err (Integrity "CRC mismatch") else Ok ().

(** [try_read_gcm_block] *)
Definition try_read_gcm_block (b : Backend.t) (addr : Z) (crypto : NodeCrypto) : res bytes :=
  raw ← Backend.read_at b addr NODE_BLOCK_SIZE;
  m ← index_range raw 0 4;
  if negb (bool_decide (m = NODE_MAGIC)) then Err (Integrity "bad magic")
  else
    kind ← index_byte raw OFF_KIND;
    ct_len ← index_range raw OFF_CT_LEN_GCM (OFF_CT_LEN_GCM + 2);
    let ct_len := le_val ct_len in
    if (ct_len <? 16) || (NODE_BLOCK_SIZE <? OFF_PAYLOAD_GCM + ct_len)
    then Err (Integrity "GCM node: ct_len out of range")
    else
      nonce ← index_range raw OFF_NONCE_GCM (OFF_NONCE_GCM + NONCE_SIZE);
      ct ← index_range raw OFF_PAYLOAD_GCM (OFF_PAYLOAD_GCM + ct_len);
      plaintext ← open_with_nonce (meta_key crypto) nonce (node_aad addr kind) ct;
      let copy := take (Z.to_nat PAYLOAD_CAP) plaintext in
      Ok (node_prefix kind ++ zeros 4 ++ copy ++ zeros (Z.to_nat (PAYLOAD_CAP - blen copy))).

(** [read_node_with_backup] *)
Definition read_node_with_backup (b : Backend.t) (primary_addr : Z) (crypto : NodeCrypto) : res bytes :=
  backup_addr ← add64 primary_addr BASE_BLOCK;
  if node_cipher crypto =? CIPHER_AES256_GCM then
    match try_read_gcm_block b primary_addr crypto with
    | Ok block => Ok block
    | Panic => Panic
    | Err _ =>
        match try_read_gcm_block b backup_addr crypto with
        | Ok block => Ok block
        | Panic => Panic
        | Err _ => Err (Integrity "node: both primary and backup GCM authentication failed")
        end
    end
  else
    let fallback :=
      backup ← Backend.read_at b backup_addr NODE_BLOCK_SIZE;
      match validate_node_block backup with
      | Ok _ => Ok backup
      | Panic => Panic
      | Err _ => Err (Integrity "node: both primary and backup corrupt")
      end in
    match Backend.read_at b primary_addr NODE_BLOCK_SIZE with
    | Panic => Panic
    | Err _ => fallback
    | Ok primary =>
        match validate_node_block primary with
        | Ok _ => Ok primary
        | Panic => Panic
        | Err _ => fallback
        end
    end.

(** [write_node_pair_no_flush] and [write_node_with_backup]; [flush] of the
    in-RAM store does nothing. *)
Definition write_node_pair_no_flush (primary_addr : Z) (crypto : NodeCrypto) (kind : Z) (payload : bytes)
  : TM () :=
  backup_addr ← lift (add64 primary_addr BASE_BLOCK);
  write_node_block backup_addr crypto kind payload;;
  write_node_block primary_addr crypto kind payload.

Definition flush_be : TM () := b ← get_be; lift (Backend.flush b).

Definition write_node_with_backup (primary_addr : Z) (crypto : NodeCrypto) (kind : Z) (payload : bytes)
  : TM () :=
  backup_addr ← lift (add64 primary_addr BASE_BLOCK);
  write_node_block backup_addr crypto kind payload;;
  flush_be;;
  write_node_block primary_addr crypto kind payload;;
  flush_be.

Definition alloc_and_write_node (crypto : NodeCrypto) (kind : Z) (payload : bytes) : TM Z :=
  loc ← on_ab (Allocator.alloc_aligned NODE_ALLOC_SIZE CatalogHead);
  write_node_with_backup (addr loc) crypto kind payload;;
  mret (addr loc).

Definition alloc_and_write_node_cow (crypto : NodeCrypto) (kind : Z) (payload : bytes) : TM Z :=
  loc ← on_ab (Allocator.alloc_aligned NODE_ALLOC_SIZE CatalogHead);
  write_node_pair_no_flush (addr loc) crypto kind payload;;
  mret (addr loc).

Definition alloc_internal_cow (crypto : NodeCrypto) (node : Internal) : TM Z :=
  p ← lift (encode_internal node); alloc_and_write_node_cow crypto KIND_INTERNAL p.

Definition alloc_leaf_cow (crypto : NodeCrypto) (key val : bytes) : TM Z :=
  p ← lift (encode_leaf key val); alloc_and_write_node_cow crypto KIND_LEAF p.

(** [free_node_cow]; the boolean of [free_reclaimable] is ignored. *)
Definition free_node_cow (node_addr : Z) : TM () :=
  on_ab (Allocator.on_alloc (λ a,
    '(_, a') ← Allocator.free_reclaimable a (mkBlockLoc node_addr NODE_ALLOC_SIZE); Ok a')).

Definition check_bounds (key val : bytes) : res () :=
  if MAX_KEY_LEN <? blen key then Err (Integrity "trie key too long")
  else if MAX_VAL_LEN <? blen val then Err (Integrity "trie value too long")
  else Ok ().

(** ** The trie *)

Record Trie := mkTrie { root : Z; crypto : NodeCrypto }.

Definition Trie_create (cipher : Z) (container_key : bytes) : TM Trie :=
  let crypto := NodeCrypto_new cipher container_key in
  payload ← lift (encode_internal Internal_empty);
  root ← alloc_and_write_node crypto KIND_INTERNAL payload;
  mret (mkTrie root crypto).

Definition Trie_open (root cipher : Z) (container_key : bytes) : Trie :=
  mkTrie root (NodeCrypto_new cipher container_key).

(** [get_at]; [rest] is [key] from [depth] on, so that [depth == key.len()] is
    [rest = []] and [key[depth]] its head. *)
Fixpoint get_at (b : Backend.t) (crypto : NodeCrypto) (node_addr : Z) (key rest : bytes)
  : res (option bytes) :=
  block ← read_node_with_backup b node_addr crypto;
  kind ← index_byte block OFF_KIND;
  if kind =? KIND_LEAF then
    '(stored_key, val) ← decode_leaf block;
    Ok (if bool_decide (stored_key = key) then Some val else None)
  else
    node ← decode_internal block;
    match rest with
    | [] => Ok (term node)
    | byte :: rest' =>
        let child := slot node (byte.unsigned byte) in
        if child =? 0 then Ok None else get_at b crypto child key rest'
    end.

Definition get (t : Trie) (b : Backend.t) (key : bytes) : res (option bytes) :=
  get_at b (crypto t) (root t) key key.

(** The length of the common prefix: the [while] loop of [branch_leaf]. *)
Fixpoint common_len (k1 k2 : bytes) : nat :=
  match k1, k2 with
  | x :: k1', y :: k2' => if bool_decide (x = y) then S (common_len k1' k2') else O
  | _, _ => O
  end.

(** [for di in (depth..d).rev()]: one node per shared byte, innermost first. *)
Fixpoint wrap_loop (crypto : NodeCrypto) (bs : bytes) (addr : Z) : TM Z :=
  match bs with
  | [] => mret addr
  | byte :: bs' =>
      addr' ← alloc_internal_cow crypto (set_slot Internal_empty (byte.unsigned byte) addr);
      wrap_loop crypto bs' addr'
  end.

(** [branch_leaf] *)
Definition branch_leaf (crypto : NodeCrypto) (old_key old_val new_key new_val : bytes) (depth : nat)
  : TM Z :=
  let min_len := Nat.min (length old_key) (length new_key) in
  let d := (depth + common_len (drop depth old_key) (drop depth new_key))%nat in
  if decide (d = min_len) then
    let '(short_key, short_val, long_key, long_val) :=
      if decide (length old_key < length new_key)%nat then (old_key, old_val, new_key, new_val)
      else (new_key, new_val, old_key, old_val) in
    long_leaf ← alloc_leaf_cow crypto long_key long_val;
    byte ← lift (index_byte long_key (Z.of_nat d));
    addr ← alloc_internal_cow crypto (set_slot (set_term Internal_empty (Some short_val)) byte long_leaf);
    wrap_loop crypto (rev (take (d - depth) (drop depth short_key))) addr
  else
    old_leaf ← alloc_leaf_cow crypto old_key old_val;
    new_leaf ← alloc_leaf_cow crypto new_key new_val;
    old_byte ← lift (index_byte old_key (Z.of_nat d));
    new_byte ← lift (index_byte new_key (Z.of_nat d));
    addr ← alloc_internal_cow crypto
             (set_slot (set_slot Internal_empty old_byte old_leaf) new_byte new_leaf);
    wrap_loop crypto (rev (take (d - depth) (drop depth old_key))) addr.

(** [put_at]; [rest] is [key] from [depth] on. *)
Fixpoint put_at (crypto : NodeCrypto) (node_addr : Z) (key val : bytes) (depth : nat) (rest : bytes) : TM Z :=
  b ← get_be;
  block ← lift (read_node_with_backup b node_addr crypto);
  kind ← lift (index_byte block OFF_KIND);
  new_addr ←
    (if kind =? KIND_LEAF then
       '(existing_key, existing_val) ← lift (decode_leaf block);
       if bool_decide (existing_key = key) then alloc_leaf_cow crypto key val
       else branch_leaf crypto existing_key existing_val key val depth
     else
       node ← lift (decode_internal block);
       match rest with
       | [] => alloc_internal_cow crypto (set_term node (Some val))
       | byte :: rest' =>
           let child := slot node (byte.unsigned byte) in
           new_child ← (if child =? 0 then alloc_leaf_cow crypto key val
                        else put_at crypto child key val (S depth) rest');
           alloc_internal_cow crypto (set_slot node (byte.unsigned byte) new_child)
       end);
  free_node_cow node_addr;;
  mret new_addr.

(** [put]: the trie with its new root. *)
Definition put (t : Trie) (key val : bytes) : TM Trie :=
  lift (check_bounds key val);;
  new_root ← put_at (crypto t) (root t) key val 0 key;
  mret (mkTrie new_root (crypto t)).

Inductive RemoveResult :=
| Absent
| Replaced (new_addr : Z)
| Pruned.

(** [rebuild_after_remove] *)
Definition rebuild_after_remove (crypto : NodeCrypto) (node : Internal) : TM RemoveResult :=
  if internal_is_empty node then mret Pruned
  else
    let rewrite_node : TM RemoveResult := x ← alloc_internal_cow crypto node; mret (Replaced x) in
    match lone_child node with
    | Some idx =>
        b ← get_be;
        child_block ← lift (read_node_with_backup b (slot node (Z.of_nat idx)) crypto);
        kind ← lift (index_byte child_block OFF_KIND);
        if kind =? KIND_LEAF then
          '(k, v) ← lift (decode_leaf child_block);
          x ← alloc_leaf_cow crypto k v;
          mret (Replaced x)
        else rewrite_node
    | None => rewrite_node
    end.

(** [remove_at]; [rest] is [key] from [depth] on. *)
Fixpoint remove_at (crypto : NodeCrypto) (node_addr : Z) (key rest : bytes) : TM RemoveResult :=
  b ← get_be;
  block ← lift (read_node_with_backup b node_addr crypto);
  kind ← lift (index_byte block OFF_KIND);
  if kind =? KIND_LEAF then
    '(stored_key, _) ← lift (decode_leaf block);
    if bool_decide (stored_key = key) then free_node_cow node_addr;; mret Pruned
    else mret Absent
  else
    node ← lift (decode_internal block);
    match rest with
    | [] =>
        match term node with
        | None => mret Absent
        | Some _ =>
            r ← rebuild_after_remove crypto (set_term node None);
            free_node_cow node_addr;;
            mret r
        end
    | byte :: rest' =>
        let child := slot node (byte.unsigned byte) in
        if child =? 0 then mret Absent
        else
          r ← remove_at crypto child key rest';
          match r with
          | Absent => mret Absent
          | Replaced new_child =>
              x ← alloc_internal_cow crypto (set_slot node (byte.unsigned byte) new_child);
              free_node_cow node_addr;;
              mret (Replaced x)
          | Pruned =>
              r ← rebuild_after_remove crypto (set_slot node (byte.unsigned byte) 0);
              free_node_cow node_addr;;
              mret r
          end
    end.

(** [remove]: whether the key existed, and the trie with its new root. *)
Definition remove (t : Trie) (key : bytes) : TM (bool * Trie) :=
  r ← remove_at (crypto t) (root t) key key;
  match r with
  | Absent => mret (false, t)
  | Replaced x => mret (true, mkTrie x (crypto t))
  | Pruned =>
      p ← lift (encode_internal Internal_empty);
      x ← alloc_and_write_node_cow (crypto t) KIND_INTERNAL p;
      mret (true, mkTrie x (crypto t))
  end.

(** ** Traversals

    [None] is an exhausted fuel; the number of rounds is bounded by the visit
    budget, see [visit_terminates] and [scan_terminates]. *)

(** [visit_nodes]: the entry of a node; [seen] are the addresses handed to the
    closure so far, newest first. *)
Definition visit_enter (b : Backend.t) (crypto : NodeCrypto) (visited : Z) (stack : list (list Z))
    (x : Z) : res (Z * list (list Z)) :=
  let visited := visited + 1 in
  if TRIE_NODE_BUDGET <? visited then
    Err (Integrity "trie visit budget exceeded: cyclic or oversized node graph")
  else if TRIE_MAX_DEPTH <=? blen stack then
    Err (Integrity "trie depth exceeded: crafted deep chain")
  else
    block ← read_node_with_backup b x crypto;
    kind ← index_byte block OFF_KIND;
    kids ← (if kind =? KIND_INTERNAL then
              node ← decode_internal block;
              Ok (filter (λ c, c ≠ 0) (slots node))
            else Ok []);
    Ok (visited, kids :: stack).

Fixpoint visit_loop (fuel : nat) (b : Backend.t) (crypto : NodeCrypto) (visited : Z)
    (stack : list (list Z)) (seen : list Z) : option (res (list Z)) :=
  match fuel with
  | O => None
  | S fuel' =>
      match stack with
      | [] => Some (Ok seen)
      | [] :: stack' => visit_loop fuel' b crypto visited stack' seen
      | (child :: top) :: stack' =>
          match visit_enter b crypto visited (top :: stack') child with
          | Ok (visited', stack'') => visit_loop fuel' b crypto visited' stack'' (child :: seen)
          | Err e => Some (Err e)
          | Panic => Some Panic
          end
      end
  end.

Definition TRAVERSAL_FUEL : nat := Z.to_nat (2 * TRIE_NODE_BUDGET + 4).

Definition visit_nodes (b : Backend.t) (root_addr : Z) (crypto : NodeCrypto) : option (res (list Z)) :=
  if root_addr =? 0 then Some (Ok [])
  else
    match visit_enter b crypto 0 [] root_addr with
    | Ok (visited, stack) => visit_loop TRAVERSAL_FUEL b crypto visited stack [root_addr]
    | Err e => Some (Err e)
    | Panic => Some Panic
    end.

Inductive Work :=
| Enter (addr : Z) (depth : Z) (byte : option Init.Byte.byte)
| Pop.

(** The non-empty slots with their byte, from index [i] on. *)
Fixpoint occupied (i : nat) (l : list Z) : list (Init.Byte.byte * Z) :=
  match l with
  | [] => []
  | c :: l' => (if c =? 0 then [] else [(byte.of_Z (Z.of_nat i), c)]) ++ occupied (S i) l'
  end.

(** One entered node of [scan_at]: the entries it emits and the children to
    descend into. *)
Definition scan_enter (b : Backend.t) (crypto : NodeCrypto) (prefix : bytes) (x depth : Z)
    (key_so_far : bytes) : res (list (bytes * bytes) * list (Init.Byte.byte * Z)) :=
  block ← read_node_with_backup b x crypto;
  kind ← index_byte block OFF_KIND;
  if kind =? KIND_LEAF then
    '(key, val) ← decode_leaf block;
    Ok (if (blen prefix <=? blen key) && bool_decide (take (length prefix) key = prefix)
        then [(key, val)] else [], [])
  else
    node ← decode_internal block;
    match prefix !! Z.to_nat depth with
    | Some byte =>
        let child := slot node (byte.unsigned byte) in
        Ok ([], if negb (child =? 0) then [(byte, child)] else [])
    | None =>
        Ok (match term node with Some v => [(key_so_far, v)] | None => [] end,
            occupied 0 (slots node))
    end.

(** [scan_at]; [key_so_far] is kept in order, its last byte is popped. *)
Fixpoint scan_loop (fuel : nat) (b : Backend.t) (crypto : NodeCrypto) (prefix : bytes)
    (visited : Z) (key_so_far : bytes) (stack : list Work) (out : list (bytes * bytes))
  : option (res (list (bytes * bytes))) :=
  match fuel with
  | O => None
  | S fuel' =>
      match stack with
      | [] => Some (Ok out)
      | Pop :: stack' => scan_loop fuel' b crypto prefix visited (removelast key_so_far) stack' out
      | Enter x depth byte :: stack' =>
          let visited := visited + 1 in
          if TRIE_NODE_BUDGET <? visited then
            Some (Err (Integrity "trie visit budget exceeded: cyclic or oversized node graph"))
          else if TRIE_MAX_DEPTH <? depth then
            Some (Err (Integrity "trie depth exceeded: crafted deep chain"))
          else
            let '(key_so_far, stack') :=
              match byte with
              | Some bb => (key_so_far ++ [bb], Pop :: stack')
              | None => (key_so_far, stack')
              end in
            match scan_enter b crypto prefix x depth key_so_far with
            | Ok (emitted, kids) =>
                scan_loop fuel' b crypto prefix visited key_so_far
                  (((λ k, Enter k.2 (depth + 1) (Some k.1)) <$> kids) ++ stack') (out ++ emitted)
            | Err e => Some (Err e)
            | Panic => Some Panic
            end
      end
  end.

Definition scan_prefix (t : Trie) (b : Backend.t) (prefix : bytes)
  : option (res (list (bytes * bytes))) :=
  scan_loop TRAVERSAL_FUEL b (crypto t) prefix 0 [] [Enter (root t) 0 None] [].

(** ** The catalogs *)

(** [KeyCatalog::get_path] *)
Definition get_path (t : Trie) (b : Backend.t) (path : bytes) : res (option bytes) :=
  r ← get t b path;
  match r with
  | Some v =>
      if negb (blen v =? 16) then Err (Integrity "KeyCatalog value for path is not a 16-byte uuid")
      else Ok (Some v)
  | None => Ok None
  end.
Definition put_path (t : Trie) (path uuid : bytes) : TM Trie := put t path uuid.
Definition remove_path (t : Trie) (path : bytes) : TM (bool * Trie) := remove t path.

(** [KeyCatalog::scan_paths] *)
Fixpoint check_uuids (l : list (bytes * bytes)) : res (list (bytes * bytes)) :=
  match l with
  | [] => Ok []
  | (k, v) :: l' =>
      if negb (blen v =? 16) then Err (Integrity "KeyCatalog value is not a 16-byte uuid")
      else rest ← check_uuids l'; Ok ((k, v) :: rest)
  end.
Definition scan_paths (t : Trie) (b : Backend.t) (prefix : bytes)
  : option (res (list (bytes * bytes))) :=
  (λ r, l ← r; check_uuids l) <$> scan_prefix t b prefix.

(** [IdCatalog] *)
Definition get_uuid (t : Trie) (b : Backend.t) (uuid : bytes) : res (option Z) :=
  r ← get t b uuid;
  match r with
  | Some v =>
      if negb (blen v =? 8) then Err (Integrity "IdCatalog value is not an 8-byte addr")
      else Ok (Some (le_val v))
  | None => Ok None
  end.
Definition put_uuid (t : Trie) (uuid : bytes) (record_addr : Z) : TM Trie :=
  put t uuid (le_bytes 8 record_addr).

Fixpoint check_addrs (l : list (bytes * bytes)) : res (list (bytes * Z)) :=
  match l with
  | [] => Ok []
  | (k, v) :: l' =>
      if negb (blen k =? 16) || negb (blen v =? 8)
      then Err (Integrity "IdCatalog entry has wrong widths")
      else rest ← check_addrs l'; Ok ((k, le_val v) :: rest)
  end.
Definition scan_all (t : Trie) (b : Backend.t) : option (res (list (bytes * Z))) :=
  (λ r, l ← r; check_addrs l) <$> scan_prefix t b [].

End nodes.

(** ** Node codecs *)

(** A node as the operations see it. *)
Inductive node :=
| NLeaf (key val : bytes)
| NInner (n : Internal).

Definition leaf_ok (k v : bytes) : Prop := blen k ≤ MAX_KEY_LEN ∧ blen v ≤ MAX_VAL_LEN.
Definition internal_ok (n : Internal) : Prop :=
  length (slots n) = 256%nat ∧ Forall u64 (slots n) ∧
  match term n with Some v => blen v ≤ MAX_VAL_LEN | None => True end.
Definition node_ok (nd : node) : Prop :=
  match nd with
  | NLeaf k v => leaf_ok k v
  | NInner n => internal_ok n
  end.

Definition node_kind (nd : node) : Z := match nd with NLeaf _ _ => KIND_LEAF | NInner _ => KIND_INTERNAL end.

(** The payload the allocation helpers write. *)
Definition node_payload (nd : node) : res bytes :=
  match nd with
  | NLeaf k v => encode_leaf k v
  | NInner n => encode_internal n
  end.

(** Kind and fields of a block in the CRC layout. *)
Definition decode_node (block : bytes) : res node :=
  kind ← index_byte block OFF_KIND;
  if kind =? KIND_LEAF then '(k, v) ← decode_leaf block; Ok (NLeaf k v)
  else n ← decode_internal block; Ok (NInner n).

Ltac trie_sizes :=
  unfold OFF_KIND, OFF_CRC, OFF_CT_LEN_GCM, OFF_NONCE_GCM, OFF_PAYLOAD_GCM, NONCE_SIZE, MAX_KEY_LEN,
    PAYLOAD_CAP_GCM, PAYLOAD_CAP, NODE_BLOCK_SIZE, GCM_OVERHEAD, OFF_PAYLOAD, LEAF_HEADER_SIZE,
    INTERNAL_PAYLOAD_SIZE, INTERNAL_TERM_SIZE, SLOTS_SIZE, N_SLOTS, MAX_VAL_LEN, NODE_ALLOC_SIZE,
    KIND_LEAF, KIND_INTERNAL, BASE_BLOCK in *.

Lemma blen_NODE_MAGIC : blen NODE_MAGIC = 4.
Proof. done. Qed.
Lemma blen_node_prefix kind : blen (node_prefix kind) = 8.
Proof. done. Qed.
#[local] Hint Rewrite blen_NODE_MAGIC blen_node_prefix : blen.

Lemma blen_concat_const {A} (enc : A → bytes) (l : list A) w :
  (∀ x, blen (enc x) = w) → blen (concat (enc <$> l)) = w * blen l.
Proof.
  intros Hw. induction l as [|x l IH]; cbn [fmap list_fmap concat]; autorewrite with blen; [lia|].
  rewrite Hw, IH. lia.
Qed.

Lemma encode_leaf_ok k v :
  leaf_ok k v → ∃ p, encode_leaf k v = Ok p ∧ p = le_bytes 2 (blen k) ++ byte1 (blen v) ++ k ++ v ∧
    blen p ≤ PAYLOAD_CAP_GCM.
Proof.
  intros [Hk Hv]. unfold encode_leaf. replace (blen k <=? MAX_KEY_LEN) with true by lia.
  replace (blen v <=? MAX_VAL_LEN) with true by lia. eexists. split_and!; [done..|].
  autorewrite with blen. trie_sizes. lia.
Qed.

Lemma encode_internal_ok n :
  internal_ok n → ∃ p, encode_internal n = Ok p ∧ blen p = INTERNAL_PAYLOAD_SIZE.
Proof.
  intros (Hl&_&Ht). unfold encode_internal.
  assert (blen (concat (le_bytes 8 <$> slots n)) = 2048) as Hs.
  { rewrite (blen_concat_const _ _ 8) by (intros; by rewrite blen_le_bytes). unfold blen. lia. }
  destruct (term n) as [v|]; cbn [mbind res_bind].
  - replace (blen v <=? MAX_VAL_LEN) with true by lia. cbn [negb mbind res_bind]. eexists. split; [done|].
    autorewrite with blen. rewrite Hs. pose proof (blen_nonneg v). trie_sizes. lia.
  - eexists. split; [done|]. rewrite blen_app, Hs, blen_zeros. done.
Qed.

Lemma node_payload_ok nd : node_ok nd → ∃ p, node_payload nd = Ok p ∧ blen p ≤ PAYLOAD_CAP_GCM.
Proof.
  destruct nd as [k v|n]; cbn.
  - intros (p&?&_&?)%encode_leaf_ok. eauto.
  - intros (p&?&Hp)%encode_internal_ok. exists p. split; [done|]. by rewrite Hp.
Qed.

(** A block decodes to the node whose payload it carries. *)
Lemma decode_leaf_payload k v hdr pad :
  leaf_ok k v → blen hdr = 12 →
  decode_leaf (hdr ++ (le_bytes 2 (blen k) ++ byte1 (blen v) ++ k ++ v) ++ pad) = Ok (k, v).
Proof.
  intros [Hk Hv] Hh. pose proof (blen_nonneg k). pose proof (blen_nonneg v). pose proof (blen_nonneg pad).
  unfold decode_leaf. set (p := (_ ++ _) ++ pad).
  eapply (bind_step _ _ p).
  { assert (at_cursor (hdr ++ p) (blen hdr) (p ++ [])) as Hc0 by (rewrite app_nil_r; apply at_cursor_app).
    eapply index_range_cursor; [exact Hc0|by trie_sizes|blia]. }
  pose proof (at_cursor_start p) as Hc. unfold p in Hc at 2. rewrite <-!app_assoc in Hc.
  assert (blen p = 3 + blen k + blen v + blen pad) as Hp by (unfold p; blia).
  cursor_bind Hc. cursor_bind Hc; [trie_sizes; width_lia|].
  rewrite le_val_u16 by (trie_sizes; width_lia). cbv zeta.
  replace (MAX_KEY_LEN <? blen k) with false by lia. replace (MAX_VAL_LEN <? blen v) with false by lia.
  replace (blen p <? _) with false by (trie_sizes; lia). trie_sizes.
  cursor_bind Hc. cursor_bind Hc. done.
Qed.

Lemma decode_internal_payload n p hdr pad :
  internal_ok n → encode_internal n = Ok p → blen hdr = 12 →
  decode_internal (hdr ++ p ++ pad) = Ok n.
Proof.
  intros Hn He Hh. pose proof Hn as (Hl&Hs&Ht).
  destruct (encode_internal_ok n Hn) as (p'&He'&Hp). rewrite He in He'. injection He' as <-.
  unfold decode_internal. eapply bind_step.
  { eapply index_range_cursor; [apply at_cursor_app|by trie_sizes|]. rewrite Hp, Hh. done. }
  assert (blen (concat (le_bytes 8 <$> slots n)) = 2048) as Hsl.
  { rewrite (blen_concat_const _ _ 8) by (intros; by rewrite blen_le_bytes). unfold blen. lia. }
  assert ((λ c, le_val c) <$> chunks 8 (concat (le_bytes 8 <$> slots n)) = slots n) as Hch.
  { rewrite chunks_concat by (lia || (apply Forall_fmap, Forall_true; intros; apply length_le_split)).
    rewrite <-list_fmap_compose. rewrite <-(list_fmap_id (slots n)) at 2.
    apply list_fmap_ext. intros i x Hx. cbn. rewrite Forall_forall in Hs.
    by apply le_val_u64, Hs, list_elem_of_lookup_2 with i. }
  unfold encode_internal in He. pose proof (at_cursor_start p) as Hc. trie_sizes.
  destruct n as [[v|] sl]; cbn [term slots] in *.
  - pose proof (blen_nonneg v). replace (blen v <=? 16) with true in He by lia.
    assert (p = byte1 1 ++ byte1 (blen v) ++ v ++ zeros (Z.to_nat (16 - blen v)) ++
            concat (le_bytes 8 <$> sl) ++ []) as Hp'.
    { rewrite app_nil_r. cbn [negb mbind res_bind] in He. rewrite <-!app_assoc in He. congruence. }
    rewrite Hp' in Hc at 2. cursor_bind Hc. cbn [Z.eqb negb].
    apply (bind_step _ _ (Some v)).
    { cursor_bind Hc; [width_lia|]. cursor_bind Hc. done. }
    do 3 (eapply at_cursor_skip in Hc; [|reflexivity]). cursor_bind Hc. by rewrite Hch.
  - assert (p = byte1 0 ++ zeros 17 ++ concat (le_bytes 8 <$> sl) ++ []) as Hp'.
    { rewrite app_nil_r. cbn [mbind res_bind] in He.
      change (zeros (Z.to_nat (2 + 16))) with (byte1 0 ++ zeros 17) in He.
      rewrite <-app_assoc in He. congruence. }
    rewrite Hp' in Hc at 2.
    cursor_bind Hc. cbn [Z.eqb negb]. eapply bind_step; [reflexivity|].
    eapply at_cursor_skip in Hc; [|reflexivity]. cursor_bind Hc. by rewrite Hch.
Qed.

Lemma decode_node_payload nd p hdr pad :
  node_ok nd → node_payload nd = Ok p → blen hdr = 4 →
  decode_node ((node_prefix (node_kind nd) ++ hdr) ++ p ++ pad) = Ok nd.
Proof.
  intros Hok Hp Hh.
  assert (blen (node_prefix (node_kind nd) ++ hdr) = 12) as Hl by blia.
  assert (index_byte ((node_prefix (node_kind nd) ++ hdr) ++ p ++ pad) OFF_KIND = Ok (node_kind nd)) as Hk
    by (by destruct nd).
  unfold decode_node. rewrite Hk. cbn [mbind res_bind]. destruct nd as [k v|n]; cbn [node_kind node_ok] in *.
  - destruct (encode_leaf_ok k v Hok) as (p'&He&Hp'&_). cbn [node_payload] in Hp.
    assert (p = p') as -> by congruence. rewrite Hp'.
    cbn [Z.eqb KIND_LEAF]. rewrite decode_leaf_payload by done. done.
  - cbn [Z.eqb KIND_LEAF KIND_INTERNAL]. by rewrite (decode_internal_payload n p).
Qed.
