(* ===== verification/Records.v ===== *)
(** * Unit records on the container

    The part of [version/store.rs] that writes and reads unit records: the
    signature a record carries and the membership scope it is checked under,
    the sealed block layout, and the blob of the writer set.  Also the
    verification of framed blobs by a party that holds no container key
    ([version/verify_trailer.rs]). *)

From S2P Require Import Prelude.
From S2P Require Import Vector.
From S2P Require Import Backend.
From S2P Require Import Crypto.
From S2P Require Import Header.
From S2P Require Import Alloc.
From S2P Require Import Unit.
From S2P Require Import WriterSet.
From S2P Require Import Trie.

(** [round_up_block] *)
Definition round_up_block (n : Z) : Z :=
  if n =? 0 then BASE_BLOCK else Z.land (n + BASE_BLOCK - 1) (Z.lnot (BASE_BLOCK - 1)).

(** [let mut block = vec![0u8; round_up_block(n)]; block[..n].copy_from_slice(s)] *)
Definition padded_block (s : bytes) : bytes :=
  s ++ zeros (Z.to_nat (round_up_block (blen s) - blen s)).

(** [addr_or_err] *)
Definition addr_or_err (a : Z) : res Z :=
  if a =? 0 then Err (Integrity "unit record address is unset (0)") else Ok a.

(** ** Record signatures *)

Inductive MembershipScope := Current | CurrentOrRemoved.

Inductive RecordSignIntent := Fresh | Preserve.

Section signatures.
Context `{!Ed25519}.

Definition writerset_verifying_member (ws : WriterSet.t) (payload sig : bytes)
    (scope : MembershipScope) : option bytes :=
  let verifies := λ m, Is_true (verify m payload sig) in
  match scope with
  | Current => head (filter verifies (WriterSet.writers ws))
  | CurrentOrRemoved => head (filter verifies (WriterSet.writers ws ++ WriterSet.removed ws))
  end.

Definition verify_record_signature (r : UnitRecord) (mode : SignMode) (writer_pubkey : bytes)
    (ws : option WriterSet.t) (scope : MembershipScope) : res (option bytes) :=
  match mode with
  | Unsigned => Ok None
  | Signed =>
      sig ← ok_or (ur_signature r)
        (Integrity "unit record: signature missing in Signed container");
      if negb (verify writer_pubkey (signing_payload r) sig)
      then Err (Integrity "unit record: signature verification failed")
      else Ok (Some writer_pubkey)
  | WriterSetMode =>
      ws ← ok_or ws
        (Integrity "unit record: WriterSet verification requested but no Writer-Set loaded");
      sig ← ok_or (ur_signature r)
        (Integrity "unit record: signature missing in WriterSet container");
      match writerset_verifying_member ws (signing_payload r) sig scope with
      | Some member => Ok (Some member)
      | None =>
          Err (Integrity "unit record: no authorized writer signature (WriterSet fail-closed)")
      end
  end.

(** [rec_owned.signature = Some(sign(sk, payload))] *)
Definition set_signature (r : UnitRecord) (sig : bytes) : UnitRecord :=
  mkUnit (ur_uuid r) (ur_content r) (ur_meta r) (ur_parent r) (ur_concurrent_strains r)
    (ur_content_suite r) (ur_frag_suites r) (Some sig) (ur_db r) (ur_superseded r).

(** The record [write_unit_record] encodes: the [match (sign_mode, intent)]. *)
Definition sign_record (r : UnitRecord) (mode : SignMode) (sk : option SigningKeyHandle)
    (ws : option WriterSet.t) (writer_pubkey : bytes) (intent : RecordSignIntent) : res UnitRecord :=
  match mode, intent with
  | Unsigned, _ => Ok r
  | Signed, Fresh =>
      sk ← ok_or sk
        (Integrity "write_unit_record: container is Signed but no signing key present (verify-only engine cannot write)");
      Ok (set_signature r (sign sk (signing_payload r)))
  | WriterSetMode, Fresh =>
      sk ← ok_or sk
        (Integrity "write_unit_record: container is WriterSet but no signing key present (verify-only engine cannot write)");
      ws ← ok_or ws (Integrity "write_unit_record: WriterSet mode but no Writer-Set loaded");
      if negb (WriterSet.contains ws (keypair_pubkey sk))
      then Err (Integrity "write_unit_record: signing key is not a member of the Writer-Set (non-member write rejected)")
      else Ok (set_signature r (sign sk (signing_payload r)))
  | Signed, Preserve =>
      sig ← ok_or (ur_signature r)
        (Integrity "write_unit_record: Preserve in Signed container but record has no signature (fail-closed)");
      if negb (verify writer_pubkey (signing_payload r) sig)
      then Err (Integrity "write_unit_record: Preserve signature does not verify under writer_pubkey (fail-closed)")
      else Ok r
  | WriterSetMode, Preserve =>
      sig ← ok_or (ur_signature r)
        (Integrity "write_unit_record: Preserve in WriterSet container but record has no signature (fail-closed)");
      ws ← ok_or ws (Integrity "write_unit_record: WriterSet mode but no Writer-Set loaded");
      match writerset_verifying_member ws (signing_payload r) sig CurrentOrRemoved with
      | None => Err (Integrity "write_unit_record: Preserve signature not verified by any Writer-Set member or removed-tombstone key (fail-closed)")
      | Some _ => Ok r
      end
  end.

(** What a reader accepts: the writer key of the header, or a member of the
    scope of the writer set, signed the logical record. *)
Definition in_scope (ws : WriterSet.t) (scope : MembershipScope) (m : bytes) : Prop :=
  m ∈ WriterSet.writers ws ∨ scope = CurrentOrRemoved ∧ m ∈ WriterSet.removed ws.
Definition authorised (r : UnitRecord) (mode : SignMode) (writer_pubkey : bytes)
    (ws : option WriterSet.t) (scope : MembershipScope) : Prop :=
  match mode with
  | Unsigned => True
  | Signed => ∃ sig, ur_signature r = Some sig ∧ verify writer_pubkey (signing_payload r) sig = true
  | WriterSetMode => ∃ w sig m, ws = Some w ∧ ur_signature r = Some sig ∧ in_scope w scope m ∧
      verify m (signing_payload r) sig = true
  end.

Lemma verifying_member_Some ws payload sig scope m :
  writerset_verifying_member ws payload sig scope = Some m → in_scope ws scope m ∧ verify m payload sig = true.
Proof.
  unfold writerset_verifying_member, in_scope.
  destruct scope; intros Hm%head_Some_elem_of; apply list_elem_of_filter in Hm as [Hv Hm];
    (split; [|by apply Is_true_eq_true]); [by left|]. apply elem_of_app in Hm as [?|?]; auto.
Qed.

Lemma verifying_member_None ws payload sig scope m :
  writerset_verifying_member ws payload sig scope = None → in_scope ws scope m → verify m payload sig = false.
Proof.
  unfold writerset_verifying_member, in_scope. intros Hn Hm.
  apply not_true_is_false. intros Hv%Is_true_eq_left.
  destruct scope; apply head_None in Hn.
  all: eapply (not_elem_of_nil m); rewrite <-Hn; apply list_elem_of_filter; split; [done|].
  - by destruct Hm as [|[? _]].
  - apply elem_of_app. naive_solver.
Qed.

Lemma verify_record_cases r mode pk ws scope :
  match verify_record_signature r mode pk ws scope with
  | Ok _ => authorised r mode pk ws scope
  | Err _ => ¬ authorised r mode pk ws scope
  | Panic => False
  end.
Proof.
  unfold verify_record_signature, authorised. generalize (signing_payload r). intros payload.
  destruct mode; [done|..].
  - destruct (ur_signature r) as [sig|]; cbn; [|by intros (?&?&_)].
    destruct (verify pk payload sig) eqn:E; cbn; [by exists sig|].
    intros (?&[= <-]&?). congruence.
  - destruct ws as [w|]; cbn; [|by intros (?&?&?&?&_)].
    destruct (ur_signature r) as [sig|]; cbn; [|by intros (?&?&?&_&?&_)].
    destruct (writerset_verifying_member w payload sig scope) as [m|] eqn:E.
    + apply verifying_member_Some in E as [??]. eauto 10.
    + intros (?&?&m&[= <-]&[= <-]&Hs&Hv). rewrite (verifying_member_None _ _ _ _ m E Hs) in Hv. done.
Qed.

Lemma verify_record_ok r mode pk ws scope :
  authorised r mode pk ws scope → ∃ m, verify_record_signature r mode pk ws scope = Ok m.
Proof.
  intros Ha. pose proof (verify_record_cases r mode pk ws scope) as Hc.
  destruct (verify_record_signature r mode pk ws scope) as [m|e|]; [by exists m|done..].
Qed.

Lemma authorised_weaken r mode pk ws scope : authorised r mode pk ws scope → authorised r mode pk ws CurrentOrRemoved.
Proof. unfold authorised, in_scope. destruct mode; naive_solver. Qed.

(** The key pair of a [Signed] container is the one its header names. *)
Definition key_matches (mode : SignMode) (sk : option SigningKeyHandle) (writer_pubkey : bytes) : Prop :=
  match mode, sk with Signed, Some sk => keypair_pubkey sk = writer_pubkey | _, _ => True end.

(** The scope a record is verified under before it is stored. *)
Definition intent_scope (intent : RecordSignIntent) : MembershipScope :=
  match intent with Fresh => Current | Preserve => CurrentOrRemoved end.

Lemma sign_record_authorised r mode sk ws pk intent r' :
  sign_record r mode sk ws pk intent = Ok r' → key_matches mode sk pk →
  authorised r' mode pk ws (intent_scope intent) ∧ signing_payload r' = signing_payload r ∧
  (r' = r ∨ intent = Fresh ∧ ∃ sig, r' = set_signature r sig ∧ blen sig = 64).
Proof.
  unfold sign_record, key_matches, authorised, in_scope, intent_scope.
  set (payload := signing_payload r).
  assert (∀ sig, signing_payload (set_signature r sig) = payload) as Hp by done.
  assert (signing_payload r = payload) as Hr by done. clearbody payload.
  destruct mode, intent; cbn [ok_or]; intros Hs Hk.
  1, 2: injection Hs as <-; auto.
  - destruct sk as [sk|]; [|done]. injection Hs as <-. rewrite Hp.
    split_and!; [eexists; split; [done|]; rewrite <-Hk; apply verify_sign|done|].
    right. split; [done|]. eexists. split; [done|apply ed_sign_length].
  - destruct (ur_signature r) as [sig|] eqn:Hsig; [|done]. cbn in Hs.
    destruct (verify pk payload sig) eqn:E; [|done]. injection Hs as <-. rewrite Hr. eauto 10.
  - destruct sk as [sk|]; [|done]. destruct ws as [w|]; [|done]. cbn in Hs.
    destruct (WriterSet.contains w (keypair_pubkey sk)) eqn:E; [|done]. injection Hs as <-.
    apply bool_decide_eq_true in E. rewrite Hp. split_and!; [|done|].
    + do 3 eexists. split_and!; [done|done|by left|apply verify_sign].
    + right. split; [done|]. eexists. split; [done|apply ed_sign_length].
  - destruct (ur_signature r) as [sig|] eqn:Hsig; [|done]. destruct ws as [w|]; [|done]. cbn [mbind res_bind ok_or] in Hs.
    destruct (writerset_verifying_member w payload sig CurrentOrRemoved) as [m|] eqn:E; [|done].
    injection Hs as <-. rewrite Hr. apply verifying_member_Some in E as [??]. eauto 10.
Qed.

End signatures.

(** ** Record blocks *)

Section blocks.
Context `{!Crc32, !Hkdf, !AesGcm, !Entropy, !Ed25519}.

(** [addr(8 LE) || 0x01] *)
Definition record_aad (a : Z) : bytes := le_bytes 8 a ++ byte1 1.

Definition write_block (a : Z) (block : bytes) : TM () :=
  on_ab (Allocator.on_backend (λ b, Backend.write_at b a block)).

Definition write_unit_record (r : UnitRecord) (cipher : Z) (key : bytes) (mode : SignMode)
    (sk : option SigningKeyHandle) (ws : option WriterSet.t) (writer_pubkey : bytes)
    (intent : RecordSignIntent) : TM Z :=
  r ← lift (sign_record r mode sk ws writer_pubkey intent);
  let encoded := encode r in
  if cipher =? CIPHER_AES256_GCM then
    let ct_len := blen encoded + 16 in
    let total := 4 + 12 + ct_len in
    loc ← on_ab (Allocator.alloc_aligned (total `mod` 2 ^ 32) CatalogHead);
    nonce ← random_nonce;
    let ct := seal_with_nonce (derive_meta_key key) nonce (record_aad (addr loc)) encoded in
    if negb (blen ct =? ct_len) then lift Panic
    else
      write_block (addr loc) (padded_block (le_bytes 4 (ct_len `mod` 2 ^ 32) ++ nonce ++ ct));;
      mret (addr loc)
  else
    let total := 4 + blen encoded in
    loc ← on_ab (Allocator.alloc_aligned (total `mod` 2 ^ 32) CatalogHead);
    write_block (addr loc) (padded_block (le_bytes 4 (blen encoded `mod` 2 ^ 32) ++ encoded));;
    mret (addr loc).

Definition read_unit_record (b : Backend.t) (a cipher : Z) (key : bytes) (mode : SignMode)
    (writer_pubkey : bytes) (ws : option WriterSet.t) : res UnitRecord :=
  len_buf ← Backend.read_at b a 4;
  let reclen := le_val len_buf in
  if cipher =? CIPHER_AES256_GCM then
    end_ ← add64 a (round_up_block (4 + 12 + reclen));
    if Backend.len b <? end_ then Err (Integrity "unit record (GCM) length exceeds container")
    else
      nonce ← Backend.read_at b (a + 4) 12;
      ct ← Backend.read_at b (a + 16) reclen;
      encoded ← open_with_nonce (derive_meta_key key) nonce (record_aad a) ct;
      r ← decode encoded;
      _ ← verify_record_signature r mode writer_pubkey ws CurrentOrRemoved;
      Ok r
  else
    end_ ← add64 a (round_up_block (4 + reclen));
    if Backend.len b <? end_ then Err (Integrity "unit record length exceeds container")
    else
      buf ← Backend.read_at b (a + 4) reclen;
      r ← decode buf;
      _ ← verify_record_signature r mode writer_pubkey ws CurrentOrRemoved;
      Ok r.

Definition unit_record_raw_size (b : Backend.t) (a cipher : Z) : res Z :=
  len_buf ← Backend.read_at b a 4;
  let reclen := le_val len_buf in
  if cipher =? CIPHER_AES256_GCM then Ok (4 + 12 + reclen) else Ok (4 + reclen).

(** ** The blob of the writer set *)

(** [encode_blob_loc], [decode_blob_loc] *)
Definition encode_blob_loc (a len : Z) : bytes := le_bytes 8 a ++ le_bytes 8 len.
Definition decode_blob_loc (field : bytes) : Z * Z := (le_val (take 8 field), le_val (drop 8 field)).

Definition store_writerset_blob (blob : bytes) : TM BlockLoc :=
  loc ← on_ab (Allocator.alloc_aligned (blen blob `mod` 2 ^ 32) LiveMid);
  let block := blob ++ zeros (Z.to_nat (round_up_to_block (blen blob) - blen blob)) in
  write_block (addr loc) block;;
  flush_be;;
  mret loc.

Definition load_and_verify_writerset (b : Backend.t) (field : option bytes) (expected_epoch : Z)
    (expected_owner : bytes) (header_key_epoch : Z) : res WriterSet.t :=
  field ← ok_or field
    (Integrity "load_and_verify_writerset: container has no Writer-Set blob location");
  let '(a, len) := decode_blob_loc field in
  if (a =? 0) || (len =? 0)
  then Err (Integrity "load_and_verify_writerset: Writer-Set blob address/length is zero")
  else
    blob ← Backend.read_at b a len;
    ws ← WriterSet.open blob;
    if negb (bool_decide (WriterSet.owner_pubkey ws = expected_owner))
    then Err (Integrity "load_and_verify_writerset: Writer-Set owner_pubkey does not match header")
    else if negb (WriterSet.epoch ws =? expected_epoch)
    then Err (Integrity "load_and_verify_writerset: Writer-Set epoch != header epoch")
    else if header_key_epoch <? WriterSet.key_epoch ws
    then Err (Integrity "load_and_verify_writerset: Writer-Set key_epoch exceeds header key_epoch")
    else Ok ws.

(** ** Record images *)

(** The block at [a] holds [r]. *)
Definition record_image (cipher : Z) (key : bytes) (a : Z) (r : UnitRecord) (blk : bytes) : Prop :=
  if cipher =? CIPHER_AES256_GCM then
    ∃ nonce, blen nonce = 12 ∧
      blk = padded_block (le_bytes 4 (blen (encode r) + 16) ++ nonce ++
              seal_with_nonce (derive_meta_key key) nonce (record_aad a) (encode r))
  else blk = padded_block (le_bytes 4 (blen (encode r)) ++ encode r).

(** The lengths [write_unit_record] casts to 32 bits. *)
Definition record_fits (r : UnitRecord) : Prop := blen (encode r) + 32 < 2 ^ 32.

Lemma round_up_block_footprint n : 0 ≤ n → round_up_block n = footprint n.
Proof.
  intros Hn. unfold round_up_block, footprint, round_up_to_block. destruct (Z.eqb_spec n 0) as [->|]; [done|].
  change (BASE_BLOCK - 1) with (Z.ones 12). rewrite <-Z.ldiff_land, Z.ldiff_ones_r by done.
  rewrite Z.shiftl_mul_pow2, Z.shiftr_div_pow2 by done. unfold BASE_BLOCK. cbn -[Z.div Z.mul Z.add Z.max]. lia.
Qed.

Lemma blen_padded s : blen (padded_block s) = footprint (blen s) ∧ blen s ≤ footprint (blen s).
Proof.
  pose proof (blen_nonneg s). rewrite <-round_up_block_footprint by done. unfold padded_block.
  rewrite blen_app, blen_zeros, round_up_block_footprint by done.
  assert (blen s ≤ footprint (blen s)); [|lia].
  unfold footprint, round_up_to_block. destruct (Z.eqb_spec (blen s) 0) as [->|]; [done|].
  change (BASE_BLOCK - 1) with (Z.ones 12). rewrite <-Z.ldiff_land, Z.ldiff_ones_r by done.
  rewrite Z.shiftl_mul_pow2, Z.shiftr_div_pow2 by done. unfold BASE_BLOCK. cbn -[Z.div Z.mul Z.add Z.max]. lia.
Qed.

(** A part of the payload of a padded block. *)
Lemma read_padded b a body x y z :
  Backend.wf b → 0 ≤ a → a + footprint (blen body) ≤ Backend.len b →
  Backend.contents b a (footprint (blen body)) = padded_block body → body = x ++ y ++ z →
  Backend.read_at b (a + blen x) (blen y) = Ok y.
Proof.
  intros Hwf Ha Hl Hc ->. destruct (blen_padded (x ++ y ++ z)) as [Hp _].
  unfold padded_block in *. rewrite <-!app_assoc in *.
  by eapply (Backend.read_at_part b a _ x y).
Qed.

Lemma read_record_image b a cipher key mode pk ws r blk :
  Backend.wf b → 0 ≤ a → a + blen blk ≤ Backend.len b → Backend.contents b a (blen blk) = blk →
  record_image cipher key a r blk → unit_ok r → record_fits r → authorised r mode pk ws CurrentOrRemoved →
  read_unit_record b a cipher key mode pk ws = Ok r.
Proof.
  intros Hwf Ha Hl Hc Hi Hok Hf [m Hm]%verify_record_ok. pose proof (Backend.wf_len_nonneg b Hwf).
  unfold record_fits in Hf. pose proof (decode_encode r Hok) as Hdec. revert Hdec Hf Hi.
  unfold read_unit_record, record_image. generalize (encode r). intros enc Hdec Hf Hi.
  pose proof (blen_nonneg enc) as Hnn. destruct (cipher =? CIPHER_AES256_GCM).
  - destruct Hi as (nonce&Hn&->). set (ct := seal_with_nonce _ _ _ _) in *.
    assert (blen ct = blen enc + 16) as Hct by (unfold ct, blen, seal_with_nonce; rewrite gcm_length; lia).
    rewrite <-Hct in *. set (body := le_bytes 4 _ ++ _) in *.
    assert (blen body = 16 + blen ct) as Hb by (unfold body; rewrite !blen_app, blen_le_bytes; lia).
    rewrite (proj1 (blen_padded body)) in *. pose proof (read_padded b a body) as Hread.
    pose proof (Hread [] (le_bytes 4 (blen ct)) _ Hwf Ha Hl Hc eq_refl) as Hr1.
    pose proof (Hread (le_bytes 4 (blen ct)) nonce _ Hwf Ha Hl Hc eq_refl) as Hr2.
    pose proof (Hread (le_bytes 4 (blen ct) ++ nonce) ct [] Hwf Ha Hl Hc) as Hr3.
    autorewrite with blen in Hr1, Hr2, Hr3. rewrite Hn in Hr2, Hr3. rewrite Z.add_0_r in Hr1.
    change (Z.of_nat 4) with 4 in *. rewrite Hr1. cbn [mbind res_bind]. rewrite le_val_u32 by (unfold u32; lia).
    rewrite round_up_block_footprint by lia. replace (4 + 12 + blen ct) with (blen body) by lia.
    rewrite add64_ok by lia. cbn [mbind res_bind]. branch false. rewrite Hr2. cbn [mbind res_bind].
    change (a + (4 + 12)) with (a + 16) in Hr3. rewrite Hr3 by (unfold body; by rewrite app_nil_r, <-app_assoc). cbn [mbind res_bind].
    unfold ct, open_with_nonce, seal_with_nonce. rewrite gcm_open_seal. cbn [ok_or mbind res_bind].
    rewrite Hdec. cbn [mbind res_bind]. by rewrite Hm.
  - subst blk. set (body := le_bytes 4 _ ++ _) in *.
    assert (blen body = 4 + blen enc) as Hb by (unfold body; rewrite !blen_app, blen_le_bytes; lia).
    rewrite (proj1 (blen_padded body)) in *. pose proof (read_padded b a body) as Hread.
    pose proof (Hread [] (le_bytes 4 (blen enc)) _ Hwf Ha Hl Hc eq_refl) as Hr1.
    pose proof (Hread (le_bytes 4 (blen enc)) enc [] Hwf Ha Hl Hc) as Hr2.
    autorewrite with blen in Hr1, Hr2. rewrite Z.add_0_r in Hr1.
    change (Z.of_nat 4) with 4 in *. rewrite Hr1. cbn [mbind res_bind]. rewrite le_val_u32 by (unfold u32; lia).
    rewrite round_up_block_footprint by lia. replace (4 + blen enc) with (blen body) by lia.
    rewrite add64_ok by lia. cbn [mbind res_bind]. branch false.
    rewrite Hr2 by (unfold body; by rewrite app_nil_r). cbn [mbind res_bind].
    rewrite Hdec. cbn [mbind res_bind]. by rewrite Hm.
Qed.

End blocks.

(** ** Framed verifiable blobs (verify_trailer.rs) *)

Module VerifyTrailer.

Definition MIN_BLOB : Z := 4 + 32 + 64 + 4.

Record ParsedFramedBlob := mkFramed {
  writer_pubkey : bytes;
  signature : bytes;
  framed_payload : bytes;
  uuid_from_proj : bytes;
}.

Definition parse_framed_blob (blob : bytes) : res ParsedFramedBlob :=
  if blen blob <? MIN_BLOB
  then Err (Integrity "verify_record_trailer: blob too short for framing header")
  else
    proj_len ← index_range blob 0 4;
    let proj_len := le_val proj_len in
    if negb ((4 + proj_len + (32 + 64 + 4) <? 2 ^ 64) && (4 + proj_len + (32 + 64 + 4) <=? blen blob))
    then Err (Integrity "verify_record_trailer: proj_len overflows blob bounds")
    else
      projection ← index_range blob 4 (4 + proj_len);
      if blen projection <? 16
      then Err (Integrity "verify_record_trailer: projection too short to contain uuid")
      else
        uuid_from_proj ← index_range projection 0 16;
        let off := 4 + proj_len in
        writer_pubkey ← index_range blob off (off + 32);
        signature ← index_range blob (off + 32) (off + 96);
        payload_len ← index_range blob (off + 96) (off + 100);
        let payload_len := le_val payload_len in
        if 2 ^ 64 <=? off + 100 + payload_len
        then Err (Integrity "verify_record_trailer: payload_len overflow")
        else if negb (off + 100 + payload_len =? blen blob)
        then Err (Integrity "verify_record_trailer: payload_len does not match blob end")
        else
          payload ← index_range blob (off + 100) (blen blob);
          Ok (mkFramed writer_pubkey signature payload uuid_from_proj).

Section verify.
Context `{!Ed25519}.

Definition verify_sig_and_uuid (pubkey payload sig uuid : bytes) : res () :=
  if negb (verify pubkey payload sig)
  then Err (Integrity "verify_record_trailer: signature verification failed")
  else
    parsed ← parse_signing_payload payload;
    if negb (bool_decide (pp_uuid parsed = uuid))
    then Err (Integrity "verify_record_trailer: uuid mismatch between trailer and projection")
    else Ok ().

Definition verify_record_trailer (blob : bytes) (ws : WriterSet.t) : res bytes :=
  parsed ← parse_framed_blob blob;
  if negb (WriterSet.contains ws (writer_pubkey parsed))
  then Err (Integrity "verify_record_trailer: writer not in current WriterSet")
  else
    verify_sig_and_uuid (writer_pubkey parsed) (framed_payload parsed) (signature parsed)
      (uuid_from_proj parsed);;
    Ok (writer_pubkey parsed).

Definition verify_record_trailer_single (blob pubkey : bytes) : res () :=
  parsed ← parse_framed_blob blob;
  verify_sig_and_uuid pubkey (framed_payload parsed) (signature parsed) (uuid_from_proj parsed).

End verify.

(** ** What is accepted *)

(** The wire layout. *)
Definition framed (proj pubkey sig payload : bytes) : bytes :=
  le_bytes 4 (blen proj) ++ proj ++ pubkey ++ sig ++ le_bytes 4 (blen payload) ++ payload.
Definition framed_ok (proj pubkey sig payload : bytes) : Prop :=
  16 ≤ blen proj < 2 ^ 32 ∧ blen pubkey = 32 ∧ blen sig = 64 ∧ blen payload < 2 ^ 32.

Lemma parse_framed proj pubkey sig payload :
  framed_ok proj pubkey sig payload →
  parse_framed_blob (framed proj pubkey sig payload) = Ok (mkFramed pubkey sig payload (take 16 proj)).
Proof.
  intros (Hp&Hk&Hs&Hl). set (blob := framed proj pubkey sig payload).
  pose proof (blen_nonneg payload).
  assert (blen blob = 104 + blen proj + blen payload) as Hb.
  { unfold blob, framed. rewrite !blen_app, !blen_le_bytes. lia. }
  pose proof (at_cursor_start blob) as Hc. unfold blob at 2 in Hc. unfold framed in Hc.
  unfold parse_framed_blob, MIN_BLOB. branch false. cursor_bind Hc. cbv zeta. rewrite le_val_u32 by (unfold u32; lia).
  replace (negb _) with false by lia. cursor_bind Hc. branch false.
  eapply bind_step; [apply index_range_ok; lia|]. cbv beta. cbn [Z.to_nat drop].
  do 3 cursor_bind Hc. rewrite le_val_u32 by (unfold u32; lia). branch false.
  replace (negb _) with false by lia. rewrite <-(app_nil_r payload) in Hc. cursor_bind Hc. done.
Qed.

Lemma parse_framed_inv blob p :
  parse_framed_blob blob = Ok p →
  ∃ proj, framed_ok proj (writer_pubkey p) (signature p) (framed_payload p) ∧ uuid_from_proj p = take 16 proj ∧
    blob = framed proj (writer_pubkey p) (signature p) (framed_payload p).
Proof.
  unfold parse_framed_blob. case_match; [done|]. intros (l&Hl&Hb)%bind_ok.
  case_match eqn:Hg; [done|]. apply negb_false_iff, andb_true_iff in Hg as [_ Hg].
  apply bind_ok in Hb as (proj&Hproj&Hb). case_match eqn:H16; [done|].
  apply bind_ok in Hb as (u&Hu&(k&Hk&(sig&Hs&(n&Hn&Hb)%bind_ok)%bind_ok)%bind_ok).
  case_match; [done|]. case_match eqn:Htot; [done|]. apply negb_false_iff, Z.eqb_eq in Htot.
  apply bind_ok in Hb as (payload&Hpay&[= <-]). cbn.
  pose proof (index_range_app _ _ _ _ _ _ Hl
    (index_range_app _ _ _ _ _ _ Hproj
    (index_range_app _ _ _ _ _ _ Hk
    (index_range_app _ _ _ _ _ _ Hs
    (index_range_app _ _ _ _ _ _ Hn Hpay))))) as Hall.
  rewrite index_range_all in Hall. injection Hall as Hblob.
  apply index_range_blen with (n := 4) in Hl, Hn; [|lia..].
  apply index_range_blen with (n := le_val l) in Hproj; [|lia].
  apply index_range_blen with (n := 32) in Hk; [|lia].
  apply index_range_blen with (n := 64) in Hs; [|lia].
  apply index_range_blen with (n := le_val n) in Hpay; [|lia].
  pose proof (le_val_range l 4 Hl). pose proof (le_val_range n 4 Hn).
  rewrite index_range_ok in Hu by lia. injection Hu as <-.
  exists proj. split_and!; [split_and!; lia|done|]. unfold framed.
  rewrite Hproj, Hpay, !le_bytes_val by (unfold blen in *; lia). done.
Qed.

Lemma parse_framed_no_panic blob : no_panic (parse_framed_blob blob).
Proof.
  unfold parse_framed_blob, MIN_BLOB. destruct (Z.ltb_spec (blen blob) (4 + 32 + 64 + 4)); [apply no_panic_err|].
  apply no_panic_bind; [apply no_panic_index_range; lia|]. intros l Hl. cbv zeta.
  apply (le_val_index_range _ _ _ _ 4) in Hl; [|lia].
  case_match eqn:Hg; [apply no_panic_err|]. apply negb_false_iff, andb_true_iff in Hg as [_ Hg].
  apply no_panic_bind; [apply no_panic_index_range; lia|]. intros proj Hproj.
  destruct (Z.ltb_spec (blen proj) 16); [apply no_panic_err|].
  do 3 (apply no_panic_bind; [apply no_panic_index_range; lia|]; intros ??).
  apply no_panic_bind; [apply no_panic_index_range; lia|]. intros n Hn.
  apply (le_val_index_range _ _ _ _ 4) in Hn; [|lia].
  case_match; [apply no_panic_err|]. case_match; [apply no_panic_err|].
  apply no_panic_bind; [apply no_panic_index_range; lia|]. intros. apply no_panic_ok.
Qed.

Section accept.
Context `{!Ed25519}.

(** The signature and the identity that the frame is checked for. *)
Definition vouched (proj pubkey sig payload : bytes) : Prop :=
  verify pubkey payload sig = true ∧
  ∃ parsed, parse_signing_payload payload = Ok parsed ∧ pp_uuid parsed = take 16 proj.

Lemma verify_sig_and_uuid_ok proj pubkey sig payload :
  verify_sig_and_uuid pubkey payload sig (take 16 proj) = Ok () ↔ vouched proj pubkey sig payload.
Proof.
  unfold verify_sig_and_uuid, vouched. destruct (verify pubkey payload sig); cbn [negb]; [|naive_solver].
  destruct (parse_signing_payload payload) as [pp|e|]; cbn [mbind res_bind]; [|naive_solver..].
  case_bool_decide; cbn [negb]; naive_solver.
Qed.

Lemma verify_sig_and_uuid_no_panic pubkey payload sig u : no_panic (verify_sig_and_uuid pubkey payload sig u).
Proof.
  unfold verify_sig_and_uuid. case_match; [apply no_panic_err|].
  apply no_panic_bind; [apply parse_signing_payload_no_panic|]. intros. case_match; auto with panic.
Qed.

(** C38. The verifier accepts exactly the frames whose writer is a current member,
    signed the payload, and names the unit the projection starts with; it
    returns that writer, and unwinds on no input. *)
Theorem record_trailer_exact (blob : bytes) (ws : WriterSet.t) :
  (∀ pubkey, verify_record_trailer blob ws = Ok pubkey ↔
     ∃ proj sig payload, blob = framed proj pubkey sig payload ∧ framed_ok proj pubkey sig payload ∧
       pubkey ∈ WriterSet.writers ws ∧ vouched proj pubkey sig payload) ∧
  (∀ pubkey, verify_record_trailer_single blob pubkey = Ok () ↔
     ∃ proj key sig payload, blob = framed proj key sig payload ∧ framed_ok proj key sig payload ∧
       vouched proj pubkey sig payload) ∧
  no_panic (verify_record_trailer blob ws) ∧
  ∀ pubkey, no_panic (verify_record_trailer_single blob pubkey).
Proof.
  unfold verify_record_trailer, verify_record_trailer_single, WriterSet.contains. split_and!.
  - intros pubkey. split.
    + intros (p&(proj&Hok&Hu&->)%parse_framed_inv&Hb)%bind_ok. case_bool_decide; [|done]. cbn [negb] in Hb.
      apply bind_ok in Hb as ([]&Hv&[= <-]). rewrite Hu in Hv. apply verify_sig_and_uuid_ok in Hv. eauto 10.
    + intros (proj&sig&payload&->&Hok&Hin&Hv%verify_sig_and_uuid_ok). rewrite parse_framed by done. cbn.
      rewrite bool_decide_true by done. cbn [negb]. by rewrite Hv.
  - intros pubkey. split.
    + intros (p&(proj&Hok&Hu&->)%parse_framed_inv&Hv)%bind_ok. rewrite Hu in Hv.
      apply verify_sig_and_uuid_ok in Hv. eauto 10.
    + intros (proj&key&sig&payload&->&Hok&Hv%verify_sig_and_uuid_ok). by rewrite parse_framed.
  - apply no_panic_bind; [apply parse_framed_no_panic|]. intros p _. case_match; [apply no_panic_err|].
    apply no_panic_bind; [apply verify_sig_and_uuid_no_panic|]. intros. apply no_panic_ok.
  - intros pubkey. apply no_panic_bind; [apply parse_framed_no_panic|]. intros. apply verify_sig_and_uuid_no_panic.
Qed.

(** The frame of a record that a member signed is accepted, unless the record
    is a database record, whose payload the verifier cannot parse. *)
Lemma genuine_trailer (r : UnitRecord) (sk : SigningKeyHandle) (ws : WriterSet.t) (proj : bytes) :
  unit_ok r → blen (signing_payload r) < 2 ^ 32 → blen proj < 2 ^ 32 → take 16 proj = ur_uuid r →
  keypair_pubkey sk ∈ WriterSet.writers ws →
  verify_record_trailer
    (framed proj (keypair_pubkey sk) (sign sk (signing_payload r)) (signing_payload r)) ws =
  match ur_db r with
  | None => Ok (keypair_pubkey sk)
  | Some _ => Err (Integrity "signing_payload: trailing bytes after parse")
  end.
Proof.
  intros Hr Hl Hp Hu Hin. pose proof (parse_signing_payload_of r Hr) as Hparse. revert Hparse Hl.
  generalize (signing_payload r). intros payload Hparse Hl. unfold verify_record_trailer.
  rewrite parse_framed.
  - cbn [mbind res_bind writer_pubkey signature framed_payload uuid_from_proj].
    unfold WriterSet.contains. rewrite bool_decide_true by done. cbn [negb].
    unfold verify_sig_and_uuid. rewrite verify_sign. cbn [negb]. rewrite Hparse, Hu.
    destruct (ur_db r); cbn [mbind res_bind]; [done|]. by rewrite bool_decide_true.
  - split_and!; [|done|apply ed_pubkey_length|apply ed_sign_length|done].
    destruct Hr as [Hr _]. rewrite <-Hu in Hr. unfold blen in *. rewrite length_take in Hr. lia.
Qed.

End accept.

End VerifyTrailer.
