(* ===== verification/NodeHeap.v ===== *)
(** * Catalog nodes on the store

    The trie seen one node at a time: [image] says what a node block holds,
    [readable] that a node can be read through its backup, and [node_heap]
    that the store holds a finite map of nodes in blocks of the allocator. The
    rules for [ends] give the effect of allocating, reading and freeing a node
    on that map, which is all that the theorems on the trie use. *)

From S2P Require Import Prelude.
From S2P Require Import BTree.
From S2P Require Import Backend.
From S2P Require Import Crypto.
From S2P Require Import Freelist.
From S2P Require Import Alloc.
From S2P Require Import AllocInv.
From S2P Require Import Trie.
Import Allocator.

Section images.
Context `{!Crc32, !Hkdf, !AesGcm, !Entropy} (c : NodeCrypto).

(** ** One copy of a node *)

(** The block at address [y] is a copy of [nd]. *)
Definition image (y : Z) (nd : node) (blk : bytes) : Prop :=
  ∃ p, node_payload nd = Ok p ∧
    if node_cipher c =? CIPHER_AES256_GCM then
      ∃ nonce, length nonce = 12%nat ∧
        blk = gcm_block (node_kind nd) nonce
                (seal_with_nonce (meta_key c) nonce (node_aad y (node_kind nd)) p)
    else blk = crc_block (node_kind nd) p.

(** What the operations see of a block. *)
Definition view (blk : bytes) (nd : node) : Prop :=
  index_byte blk OFF_KIND = Ok (node_kind nd) ∧
  match nd with
  | NLeaf k v => decode_leaf blk = Ok (k, v)
  | NInner n => decode_internal blk = Ok n
  end.

(** Reading one copy: the checks that [read_node_with_backup] makes of the
    primary and of the backup alike. *)
Definition read_copy (b : Backend.t) (y : Z) : res bytes :=
  if node_cipher c =? CIPHER_AES256_GCM then try_read_gcm_block b y c
  else
    blk ← Backend.read_at b y NODE_BLOCK_SIZE;
    validate_node_block blk;;
    Ok blk.

Definition readable (b : Backend.t) (y : Z) (nd : node) : Prop :=
  ∃ blk, read_node_with_backup b y c = Ok blk ∧ view blk nd.

Lemma decode_view blk nd :
  index_byte blk OFF_KIND = Ok (node_kind nd) → decode_node blk = Ok nd → view blk nd.
Proof.
  intros Hk. unfold decode_node. rewrite Hk. cbn [mbind res_bind]. intros Hd. split; [done|].
  destruct nd as [k v|n]; cbn [node_kind KIND_LEAF KIND_INTERNAL Z.eqb] in Hd.
  - destruct (decode_leaf blk) as [[k' v']| |]; cbn in Hd; congruence.
  - destruct (decode_internal blk); cbn in Hd; congruence.
Qed.

Lemma kind_at_prefix kind rest : kind = 0 ∨ kind = 1 → index_byte (node_prefix kind ++ rest) OFF_KIND = Ok kind.
Proof. by intros [-> | ->]. Qed.

Lemma node_kind_cases nd : node_kind nd = 0 ∨ node_kind nd = 1.
Proof. destruct nd; auto. Qed.

Lemma view_payload nd p hdr pad :
  node_ok nd → node_payload nd = Ok p → blen hdr = 4 →
  view (node_prefix (node_kind nd) ++ hdr ++ p ++ pad) nd.
Proof.
  intros Hok Hp Hh. apply decode_view; [apply kind_at_prefix, node_kind_cases|].
  rewrite app_assoc. by apply decode_node_payload.
Qed.

Lemma node_crc_block pre crc rest :
  length pre = 8%nat → length crc = 4%nat → node_crc (pre ++ crc ++ rest) = crc32 (pre ++ rest).
Proof.
  intros Hp Hc. unfold node_crc. rewrite (take_app_length' pre) by done. f_equal.
  rewrite app_assoc, drop_app_length'; [done|]. rewrite length_app. lia.
Qed.

Lemma blen_crc_block kind p : blen p ≤ PAYLOAD_CAP → blen (crc_block kind p) = NODE_BLOCK_SIZE.
Proof.
  intros Hp. pose proof (blen_nonneg p). unfold crc_block, node_prefix. cbv zeta.
  autorewrite with blen. trie_sizes. change (blen NODE_MAGIC) with 4. lia.
Qed.

Lemma validate_crc_block kind p : validate_node_block (crc_block kind p) = Ok ().
Proof.
  unfold validate_node_block, crc_block. cbv zeta. set (rest := p ++ _).
  set (z := node_crc (node_prefix kind ++ zeros 4 ++ rest)).
  assert (node_crc (node_prefix kind ++ le_bytes 4 z ++ rest) = z) as Hz.
  { unfold z. rewrite !node_crc_block by done. done. }
  assert (at_cursor (node_prefix kind ++ le_bytes 4 z ++ rest) 8 (le_bytes 4 z ++ rest)) as Hc.
  { change 8 with (blen (node_prefix kind)). apply at_cursor_app. }
  eapply (bind_step _ _ NODE_MAGIC).
  { pose proof (at_cursor_start (node_prefix kind ++ le_bytes 4 z ++ rest)) as Hs0.
    unfold node_prefix in Hs0 at 2. rewrite <-!app_assoc in Hs0.
    eapply index_range_cursor; [exact Hs0|done|done]. }
  rewrite bool_decide_true by done. cbn [negb]. trie_sizes. cursor_bind Hc.
  rewrite Hz, le_val_u32, Z.eqb_refl; [done|]. unfold z. rewrite node_crc_block by done. apply crc32_u32.
Qed.

Lemma read_crc_copy b y nd p :
  (node_cipher c =? CIPHER_AES256_GCM) = false →
  Backend.wf b → 0 ≤ y → y + NODE_BLOCK_SIZE ≤ Backend.len b → node_ok nd → node_payload nd = Ok p →
  Backend.contents b y NODE_BLOCK_SIZE = crc_block (node_kind nd) p →
  ∃ blk, read_copy b y = Ok blk ∧ view blk nd.
Proof.
  intros Hg Hwf Hy Hl Hok Hp Hb. unfold read_copy. rewrite Hg.
  rewrite Backend.read_at_ok by (done || by_compute). rewrite Hb. cbn [mbind res_bind].
  rewrite validate_crc_block. cbn [mbind res_bind]. eexists. split; [done|].
  unfold crc_block. cbv zeta. by apply view_payload.
Qed.

Lemma blen_gcm_block kind nonce ct :
  length nonce = 12%nat → blen ct ≤ NODE_BLOCK_SIZE - OFF_PAYLOAD_GCM →
  blen (gcm_block kind nonce ct) = NODE_BLOCK_SIZE.
Proof.
  intros Hn Hc. pose proof (blen_nonneg ct). assert (blen nonce = 12) by (unfold blen; lia).
  unfold gcm_block. autorewrite with blen. change (blen NODE_MAGIC) with 4. trie_sizes. lia.
Qed.

Lemma read_gcm_copy b y nd p nonce :
  (node_cipher c =? CIPHER_AES256_GCM) = true →
  Backend.wf b → 0 ≤ y → y + NODE_BLOCK_SIZE ≤ Backend.len b → node_ok nd → node_payload nd = Ok p →
  length nonce = 12%nat →
  Backend.contents b y NODE_BLOCK_SIZE =
    gcm_block (node_kind nd) nonce (seal_with_nonce (meta_key c) nonce (node_aad y (node_kind nd)) p) →
  ∃ blk, read_copy b y = Ok blk ∧ view blk nd.
Proof.
  intros Hg Hwf Hy Hl Hok Hp Hn Hb. unfold read_copy, try_read_gcm_block. rewrite Hg.
  rewrite Backend.read_at_ok by (done || by_compute). rewrite Hb. cbn [mbind res_bind].
  set (ct := seal_with_nonce _ _ _ _). set (raw := gcm_block _ _ _).
  destruct (node_payload_ok nd Hok) as (p'&Hp'&Hcap). rewrite Hp in Hp'. injection Hp' as <-.
  assert (blen ct = blen p + 16) as Hct by (unfold ct, blen, seal_with_nonce; rewrite gcm_length; lia).
  pose proof (blen_nonneg p). pose proof (at_cursor_start raw) as Hc. unfold raw at 2 in Hc. unfold gcm_block in Hc.
  assert (blen nonce = 12) as Hn' by (unfold blen; lia). trie_sizes.
  assert (u16 (blen ct)) as Hu by width_lia. change (blen NODE_MAGIC) with 4 in *.
  eexists. split; [|by apply (view_payload nd p (zeros 4) (zeros (Z.to_nat (4084 - blen p))))].
  eapply bind_step; [eapply index_range_cursor; [exact Hc|done|done]|].
  eapply at_cursor_skip in Hc; [|reflexivity]. rewrite bool_decide_true by done. cbn [negb].
  change (blen NODE_MAGIC) with 4 in Hc.
  eapply bind_step; [eapply index_byte_cursor; [exact Hc|done|by destruct (node_kind_cases nd) as [-> | ->]]|].
  eapply at_cursor_skip in Hc; [|reflexivity]. cursor_bind Hc. rewrite le_val_u16 by done. cbv zeta.
  replace ((blen ct <? 16) || (4096 <? 20 + blen ct)) with false by lia.
  eapply at_cursor_skip in Hc; [|reflexivity]. cursor_bind Hc. cursor_bind Hc.
  unfold ct at 1, open_with_nonce, seal_with_nonce. rewrite gcm_open_seal. cbn [ok_or mbind res_bind].
  by rewrite take_ge by (unfold blen in *; lia).
Qed.

Lemma read_copy_image b y nd :
  Backend.wf b → 0 ≤ y → y + NODE_BLOCK_SIZE ≤ Backend.len b → node_ok nd →
  image y nd (Backend.contents b y NODE_BLOCK_SIZE) →
  ∃ blk, read_copy b y = Ok blk ∧ view blk nd.
Proof.
  intros ???? (p&Hp&Hi). destruct (node_cipher c =? CIPHER_AES256_GCM) eqn:Hg.
  - destruct Hi as (nonce&?&?). by eapply read_gcm_copy.
  - by eapply read_crc_copy.
Qed.

Lemma read_primary b y blk :
  y + BASE_BLOCK < 2 ^ 64 → read_copy b y = Ok blk → read_node_with_backup b y c = Ok blk.
Proof.
  intros Hy. unfold read_copy, read_node_with_backup. rewrite add64_ok by done. cbn [mbind res_bind].
  destruct (node_cipher c =? CIPHER_AES256_GCM); [by intros ->|].
  destruct (Backend.read_at b y NODE_BLOCK_SIZE) as [blk'| |]; cbn; [|done..].
  by destruct (validate_node_block blk').
Qed.

Lemma read_backup b y e blk :
  y + BASE_BLOCK < 2 ^ 64 → read_copy b y = Err e → read_copy b (y + BASE_BLOCK) = Ok blk →
  read_node_with_backup b y c = Ok blk.
Proof.
  intros Hy. unfold read_copy, read_node_with_backup. rewrite add64_ok by done. cbn [mbind res_bind].
  destruct (node_cipher c =? CIPHER_AES256_GCM); [by intros -> ->|]. intros Hp Hb.
  set (fallback := mbind _ (Backend.read_at b (y + BASE_BLOCK) NODE_BLOCK_SIZE)).
  assert (fallback = Ok blk) as Hf.
  { unfold fallback. destruct (Backend.read_at b (y + BASE_BLOCK) NODE_BLOCK_SIZE) as [blk'| |];
      cbn in Hb |- *; [|done..]. by destruct (validate_node_block blk'). }
  destruct (Backend.read_at b y NODE_BLOCK_SIZE) as [blk'| |]; cbn in Hp; [|done..].
  by destruct (validate_node_block blk').
Qed.

(** A node is readable if one of its copies is intact and the primary, if it is
    not the intact one, is seen to be damaged. *)
Lemma readable_copy b y nd :
  Backend.wf b → 0 ≤ y → y + NODE_ALLOC_SIZE ≤ Backend.len b → node_ok nd →
  image y nd (Backend.contents b y NODE_BLOCK_SIZE) ∨
  (∃ e, read_copy b y = Err e) ∧
    image (y + BASE_BLOCK) nd (Backend.contents b (y + BASE_BLOCK) NODE_BLOCK_SIZE) →
  readable b y nd.
Proof.
  intros Hwf Hy Hl Hok Hcopy. pose proof (Backend.wf_len_nonneg b Hwf).
  unfold NODE_ALLOC_SIZE, NODE_BLOCK_SIZE, BASE_BLOCK in *. destruct Hcopy as [Hi|[[e He] Hi]].
  - destruct (read_copy_image b y nd) as (blk&Hr&Hv); [done..|trie_sizes; lia|done|done|].
    exists blk. split; [apply read_primary; [unfold BASE_BLOCK; lia|done]|done].
  - destruct (read_copy_image b (y + 4096) nd) as (blk&Hr&Hv); [done|lia|trie_sizes; lia|done|done|].
    exists blk. split; [eapply read_backup; [unfold BASE_BLOCK; lia|done|done]|done].
Qed.

(** ** Writing a node *)

Lemma write_node_block_run a b n y nd p :
  Backend.wf b → 0 ≤ y → y + NODE_BLOCK_SIZE ≤ Backend.len b → node_ok nd → node_payload nd = Ok p →
  ∃ b' n', write_node_block y c (node_kind nd) p ((a, b), n) = (Ok (), ((a, b'), n')) ∧
    Backend.wf b' ∧ Backend.len b' = Backend.len b ∧ Backend.no_grow b' = Backend.no_grow b ∧
    image y nd (Backend.contents b' y NODE_BLOCK_SIZE) ∧
    ∀ x, ¬ (y ≤ x < y + NODE_BLOCK_SIZE) → Backend.byte_at b' x = Backend.byte_at b x.
Proof.
  intros Hwf Hy Hl Hok Hp. destruct (node_payload_ok nd Hok) as (p'&Hp'&Hcap).
  rewrite Hp in Hp'. injection Hp' as <-.
  assert (∀ blk, blen blk = NODE_BLOCK_SIZE → image y nd blk → ∃ b',
    Backend.write_at b y blk = Ok b' ∧ Backend.wf b' ∧ Backend.len b' = Backend.len b ∧
    Backend.no_grow b' = Backend.no_grow b ∧ image y nd (Backend.contents b' y NODE_BLOCK_SIZE) ∧
    ∀ x, ¬ (y ≤ x < y + NODE_BLOCK_SIZE) → Backend.byte_at b' x = Backend.byte_at b x) as Hw.
  { intros blk Hblk Him. destruct (Backend.write_at_ok b y blk) as (b'&?&?&?&?&Hb'); [done..|lia|].
    exists b'. split_and!; [done..| |].
    - rewrite (Backend.contents_written b b' y blk) by (done || lia). rewrite Hblk, Z.sub_diag.
      change (Backend.contents b (y + NODE_BLOCK_SIZE) 0) with ([] : bytes). by rewrite app_nil_r.
    - intros x Hx. rewrite Hb', Hblk. by rewrite decide_False. }
  unfold write_node_block, image in *. destruct (node_cipher c =? CIPHER_AES256_GCM) eqn:Hg.
  - replace (blen p <=? PAYLOAD_CAP_GCM) with true by lia. cbn [negb].
    set (ct := seal_with_nonce (meta_key c) (draw n) (node_aad y (node_kind nd)) p).
    assert (blen ct = blen p + 16) as Hct by (unfold ct, blen, seal_with_nonce; rewrite gcm_length; lia).
    destruct (Hw (gcm_block (node_kind nd) (draw n) ct)) as (b'&Hb'&?).
    { apply blen_gcm_block; [apply draw_length|]. trie_sizes. lia. }
    { exists p. split; [done|]. exists (draw n). split; [apply draw_length|done]. }
    exists b', (S n). split; [|done]. st_unfold. unfold random_nonce. fold ct.
    replace (blen ct =? blen p + 16) with true by lia. cbn [negb]. unfold on_ab, on_backend.
    by rewrite Hb'.
  - replace (OFF_PAYLOAD + blen p <=? NODE_BLOCK_SIZE) with true by (trie_sizes; lia). cbn [negb].
    destruct (Hw (crc_block (node_kind nd) p)) as (b'&Hb'&?).
    { apply blen_crc_block. trie_sizes. lia. }
    { eauto. }
    exists b', n. split; [|done]. unfold on_ab, Allocator.on_backend. by rewrite Hb'.
Qed.

(** Both copies, the backup first. *)
Definition pair_image (y : Z) (nd : node) (b : Backend.t) : Prop :=
  image y nd (Backend.contents b y NODE_BLOCK_SIZE) ∧
  image (y + BASE_BLOCK) nd (Backend.contents b (y + BASE_BLOCK) NODE_BLOCK_SIZE).

Definition written (y : Z) (nd : node) (b b' : Backend.t) : Prop :=
  Backend.wf b' ∧ Backend.len b' = Backend.len b ∧ Backend.no_grow b' = Backend.no_grow b ∧
  pair_image y nd b' ∧
  ∀ x, ¬ (y ≤ x < y + NODE_ALLOC_SIZE) → Backend.byte_at b' x = Backend.byte_at b x.

Lemma flush_be_run s : flush_be s = (Ok (), s).
Proof. done. Qed.

Lemma write_pair_run a b n y nd p :
  Backend.wf b → 0 ≤ y → y + NODE_ALLOC_SIZE ≤ Backend.len b → node_ok nd → node_payload nd = Ok p →
  ∃ b' n', write_node_pair_no_flush y c (node_kind nd) p ((a, b), n) = (Ok (), ((a, b'), n')) ∧
    write_node_with_backup y c (node_kind nd) p ((a, b), n) = (Ok (), ((a, b'), n')) ∧
    written y nd b b'.
Proof.
  intros Hwf Hy Hl Hok Hp. pose proof (Backend.wf_len_nonneg b Hwf). trie_sizes.
  destruct (write_node_block_run a b n (y + 4096) nd p) as (b1&n1&Hr1&Hwf1&Hl1&Hg1&Hi1&Ho1);
    [done|lia|trie_sizes; lia|done|done|].
  destruct (write_node_block_run a b1 n1 y nd p) as (b2&n2&Hr2&Hwf2&Hl2&Hg2&Hi2&Ho2);
    [done|lia|trie_sizes; lia|done|done|].
  exists b2, n2. unfold write_node_pair_no_flush, write_node_with_backup, BASE_BLOCK.
  rewrite add64_ok by lia. trie_sizes. split_and!.
  - rewrite bind_run. unfold lift at 1. rewrite bind_run, Hr1. done.
  - rewrite bind_run. unfold lift at 1. rewrite bind_run, Hr1, bind_run, flush_be_run.
    by rewrite bind_run, Hr2.
  - unfold written, pair_image. trie_sizes. split_and!; [done|congruence|congruence|done| |].
    + rewrite (Backend.contents_ext b1 b2) with (off := y + 4096); [done|lia|lia|].
      intros i ?. apply Ho2. lia.
    + intros x Hx. rewrite Ho2, Ho1 by lia. done.
Qed.

(** ** Nodes in blocks of the allocator *)

Definition node_block (y : Z) : Block := mkBlock y NODE_ALLOC_SIZE CatalogHead.

Definition node_blocks (h : gmap Z node) : list Block := node_block <$> (map_to_list h).*1.

(** The store holds the nodes [h], the blocks [rest] and the payloads [packed];
    [fl] is the reclaim floor. *)
Record node_heap (fl : option Z) (h : gmap Z node) (rest packed : list Block)
    (a : Allocator.t) (b : Backend.t) : Prop := {
  nh_inv : inv a b (node_blocks h ++ rest) packed;
  nh_nodes : ∀ y nd, h !! y = Some nd → node_ok nd ∧ pair_image y nd b;
  nh_floor : reclaim_floor a = fl;
  nh_deferred : ∀ y, is_Some (h !! y) → y ∉ addr <$> deferred_free a;
}.

(** [free_node_cow] returns a node to the allocator in a reclaim scope that was
    opened before the node was allocated. *)
Definition reclaimable (fl : option Z) (y : Z) : bool := match fl with Some f => f <=? y | None => false end.

Definition reclaim (fl : option Z) (y : Z) (h : gmap Z node) : gmap Z node :=
  if reclaimable fl y then delete y h else h.

(** The header blocks and the nodes that are not reclaimable keep their bytes. *)
Definition kept (fl : option Z) (h : gmap Z node) (b : Backend.t) (h' : gmap Z node) (b' : Backend.t) : Prop :=
  (∀ x, x < 2 * BASE_BLOCK → Backend.byte_at b' x = Backend.byte_at b x) ∧
  ∀ y nd, h !! y = Some nd → reclaimable fl y = false → h' !! y = Some nd ∧
    Backend.contents b' y NODE_ALLOC_SIZE = Backend.contents b y NODE_ALLOC_SIZE.

(** The other blocks keep their contents; those of the tail may have moved. *)
Definition session_kept (a a' : Allocator.t) : Prop :=
  deferred_free a' = deferred_free a ∧ pack_less a a'.
Definition frame (fl : option Z) (h : gmap Z node) (rest : list Block) (s : Allocator.t * Backend.t)
    (h' : gmap Z node) (rest' : list Block) (s' : Allocator.t * Backend.t) : Prop :=
  kept fl h s.2 h' s'.2 ∧ session_kept s.1 s'.1 ∧ Backend.no_grow s'.2 = Backend.no_grow s.2 ∧
  ∃ delta, 0 ≤ delta ∧ Backend.len s'.2 = Backend.len s.2 + delta ∧ rest' = relocate delta <$> rest ∧
    ∀ blk, blk ∈ rest →
      Backend.contents s'.2 (b_addr (relocate delta blk)) (b_size blk) =
      Backend.contents s.2 (b_addr blk) (b_size blk).

Lemma relocate_relocate d d' blk : relocate d' (relocate d blk) = relocate (d + d') blk.
Proof. destruct blk as [x n []]; [done..|]. unfold relocate. cbn. f_equal. lia. Qed.
Lemma relocate_size d blk : b_size (relocate d blk) = b_size blk.
Proof. by destruct blk as [x n []]. Qed.

Lemma frame_refl fl h rest s : frame fl h rest s h rest s.
Proof.
  split_and!; [by split|split; [done|apply pack_less_refl]|done|]. exists 0. rewrite relocate_0. split_and!; [lia|lia|done|].
  intros blk _. by destruct blk as [x n []]; cbn; rewrite ?Z.add_0_r.
Qed.

Lemma kept_trans fl h1 b1 h2 b2 h3 b3 : kept fl h1 b1 h2 b2 → kept fl h2 b2 h3 b3 → kept fl h1 b1 h3 b3.
Proof.
  intros [Hb Hn] [Hb' Hn']. split; [intros x ?; by rewrite Hb', Hb|]. intros y nd Hy Hr.
  destruct (Hn y nd Hy Hr) as [Hy2 <-]. by apply Hn'.
Qed.

Lemma frame_trans fl h1 rest1 s1 h2 rest2 s2 h3 rest3 s3 :
  frame fl h1 rest1 s1 h2 rest2 s2 → frame fl h2 rest2 s2 h3 rest3 s3 → frame fl h1 rest1 s1 h3 rest3 s3.
Proof.
  intros (Hk&[Hd Ho]&Hg&d&?&Hl&->&Hc) (Hk'&[Hd' Ho']&Hg'&d'&?&Hl'&->&Hc'). split; [by eapply kept_trans|].
  split; [split; [congruence|by eapply pack_less_trans]|]. split; [congruence|]. exists (d + d'). split_and!; [lia|lia| |].
  - rewrite <-list_fmap_compose. apply list_fmap_ext. intros i blk _. apply relocate_relocate.
  - intros blk Hin. rewrite <-Hc by done. rewrite <-relocate_relocate.
    rewrite <-(relocate_size d blk) at 2. rewrite <-(relocate_size d blk) at 1. rewrite Hc'; [done|].
    apply list_elem_of_fmap. by exists blk.
Qed.

Lemma elem_of_node_blocks h y : node_block y ∈ node_blocks h ↔ is_Some (h !! y).
Proof.
  unfold node_blocks. rewrite list_elem_of_fmap. split.
  - intros (z&[= ->]&Hz). apply list_elem_of_fmap in Hz as ([z' nd]&->&Hin%elem_of_map_to_list). eauto.
  - intros [nd Hnd]. exists y. split; [done|]. apply list_elem_of_fmap. exists (y, nd).
    split; [done|]. by apply elem_of_map_to_list.
Qed.

Lemma node_blocks_insert h y nd : h !! y = None → node_blocks (<[y := nd]> h) ≡ₚ node_block y :: node_blocks h.
Proof. intros Hy. unfold node_blocks. by rewrite map_to_list_insert. Qed.

Lemma node_blocks_delete h y nd : h !! y = Some nd → node_blocks h ≡ₚ node_block y :: node_blocks (delete y h).
Proof.
  intros Hy. rewrite <-(insert_delete_id h y nd) at 1 by done. apply node_blocks_insert, lookup_delete_eq.
Qed.

Lemma relocate_node_blocks d h : relocate d <$> node_blocks h = node_blocks h.
Proof.
  unfold node_blocks. rewrite <-list_fmap_compose. by apply list_fmap_ext.
Qed.

(** A live catalog block lies below the forward frontier. *)
Lemma catalog_range a b live packed y :
  inv a b live packed → node_block y ∈ live →
  2 * BASE_BLOCK ≤ y ∧ y + NODE_ALLOC_SIZE ≤ live_hwm a ∧ live_hwm a ≤ tail_low a ∧
  tail_low a ≤ Backend.len b < 2 ^ 63.
Proof.
  intros Hi Hin. pose proof (g_blocks _ _ _ _ _ (i_geo _ _ _ _ Hi) _ Hin) as [_ _ Hz].
  pose proof (inv_small _ _ _ _ Hi). pose proof (g_marks _ _ _ _ _ (i_geo _ _ _ _ Hi)).
  unfold in_block in Hz. cbn in Hz. trie_sizes.
  pose proof (Hz y ltac:(lia)). pose proof (Hz (y + 8191) ltac:(lia)). lia.
Qed.

Lemma node_range fl h rest packed a b y :
  node_heap fl h rest packed a b → is_Some (h !! y) →
  2 * BASE_BLOCK ≤ y ∧ y + NODE_ALLOC_SIZE ≤ live_hwm a ∧ live_hwm a ≤ tail_low a ∧
  tail_low a ≤ Backend.len b < 2 ^ 63.
Proof.
  intros Hh Hy. eapply catalog_range; [apply Hh|]. apply elem_of_app. left. by apply elem_of_node_blocks.
Qed.

Lemma node_heap_readable fl h rest packed a b y nd :
  node_heap fl h rest packed a b → h !! y = Some nd → readable b y nd.
Proof.
  intros Hh Hy. pose proof (node_range _ _ _ _ _ _ y Hh ltac:(eauto)) as (?&?&?&?).
  destruct Hh as [Hi Hn _ _]. destruct (Hn y nd Hy) as (?&?&?).
  pose proof (i_backend _ _ _ _ Hi) as [? _].
  apply readable_copy; trie_sizes; [done|lia|lia|done|by left].
Qed.

Lemma block_of_node loc : blk_len loc = NODE_ALLOC_SIZE → block_of loc CatalogHead = node_block (addr loc).
Proof. intros Hl. unfold block_of. rewrite Hl. done. Qed.

(** A write to the newest block leaves the others alone. *)
Lemma written_elsewhere a b b' live packed y nd blk :
  inv a b (node_block y :: live) packed → written y nd b b' → blk ∈ live →
  Backend.contents b' (b_addr blk) (b_size blk) = Backend.contents b (b_addr blk) (b_size blk).
Proof.
  intros Hi (_&_&_&_&Ho) Hin. pose proof (g_disj _ _ _ _ _ (i_geo _ _ _ _ Hi)) as [Hd _].
  rewrite Forall_forall in Hd. specialize (Hd blk Hin).
  pose proof (live_extent_ok _ _ _ _ _ Hi ltac:(by right)) as (?&?&_). cbn in *.
  apply Backend.contents_ext; [lia|lia|]. intros i Hr. apply Ho. intros Hx.
  apply (Hd (b_addr blk + i)); unfold in_block; cbn; lia.
Qed.

Lemma pair_image_ext y nd b b' :
  0 ≤ y → Backend.contents b' y NODE_ALLOC_SIZE = Backend.contents b y NODE_ALLOC_SIZE →
  pair_image y nd b → pair_image y nd b'.
Proof.
  intros Hy Hc. assert (∀ i, 0 ≤ i < NODE_ALLOC_SIZE → Backend.byte_at b' (y + i) = Backend.byte_at b (y + i)) as Hb.
  { intros i Hi. apply (f_equal (λ l, l !! Z.to_nat i)) in Hc.
    rewrite !Backend.contents_lookup, !decide_True, Z2Nat.id in Hc by lia. done. }
  trie_sizes. unfold pair_image. trie_sizes.
  rewrite (Backend.contents_ext b b' y y 4096) by (try (intros; apply Hb); lia).
  rewrite (Backend.contents_ext b b' (y + 4096) (y + 4096) 4096); [done|lia|lia|].
  intros i Hi. replace (y + 4096 + i) with (y + (4096 + i)) by lia. apply Hb. lia.
Qed.

(** The live blocks after an allocation and a write to the new block. *)
Lemma alloc_contents a b live packed a1 b1 delta y nd b2 blk :
  inv a b live packed → 0 ≤ delta → moved (tail_low a) (Backend.len b) delta b b1 →
  inv a1 b1 (node_block y :: (relocate delta <$> live)) packed → written y nd b1 b2 → blk ∈ live →
  Backend.contents b2 (b_addr (relocate delta blk)) (b_size blk) = Backend.contents b (b_addr blk) (b_size blk).
Proof.
  intros Hi Hdl Hm Hi1 Hw Hin. rewrite <-(moved_contents _ _ _ _ _ _ blk Hi Hdl Hm Hin).
  rewrite <-(relocate_size delta blk). apply (written_elsewhere _ _ _ _ _ _ _ _ Hi1 Hw).
  apply list_elem_of_fmap. by exists blk.
Qed.

(** A fresh block is not parked for a deferred free. *)
Lemma fresh_not_deferred a b live packed a1 b1 delta y :
  inv a b live packed → inv a1 b1 (node_block y :: (relocate delta <$> live)) packed →
  (∀ loc r, block_of loc r ∈ live → r ≠ EvictionTail → relocate delta (block_of loc r) = block_of loc r) →
  y ∉ addr <$> deferred_free a.
Proof.
  intros Hi Hi1 Hrel Hin. destruct (i_session _ _ _ _ Hi) as [Hdef _ _ _ _].
  apply list_elem_of_fmap in Hin as (loc'&Heq&Hin). destruct (Hdef loc' Hin) as (r&Hrr&Hlive).
  pose proof (g_disj _ _ _ _ _ (i_geo _ _ _ _ Hi1)) as [Hdis _]. rewrite Forall_forall in Hdis.
  pose proof (live_extent_ok _ _ _ _ _ Hi Hlive) as (_&Hpos&_). cbn in Hpos.
  apply (Hdis (block_of loc' r)) with y; unfold in_block; cbn; [|trie_sizes; lia|lia].
  apply list_elem_of_fmap. exists (block_of loc' r). split; [symmetry; by apply Hrel|done].
Qed.

(** The node heap after writing a node into a fresh block. *)
Lemma node_heap_alloc fl h rest packed a b loc a1 b1 b2 nd :
  node_heap fl h rest packed a b →
  allocated a b (node_blocks h ++ rest) packed NODE_ALLOC_SIZE CatalogHead loc a1 b1 →
  Backend.no_grow b1 = Backend.no_grow b → node_ok nd → written (addr loc) nd b1 b2 →
  h !! addr loc = None ∧ ∃ rest',
    node_heap fl (<[addr loc := nd]> h) rest' packed a1 b2 ∧
    frame fl h rest (a, b) (<[addr loc := nd]> h) rest' (a1, b2).
Proof.
  intros [Hi Hn Hf Hd] (delta&Hdl&Hl&Hm&Hlen&Hi1&Er&Ed&Eo&_) Hg Hok Hw. set (y := addr loc) in *.
  rewrite block_of_node in Hi1 by done. fold y in Hi1.
  pose proof (λ blk, alloc_contents _ _ _ _ _ _ _ _ _ _ blk Hi Hdl Hm Hi1 Hw) as Hkeep.
  assert (y ∉ addr <$> deferred_free a) as Hyd.
  { eapply fresh_not_deferred; [done..|]. intros loc' r _ Hr. by destruct r. }
  rewrite fmap_app, relocate_node_blocks in Hi1.
  pose proof (catalog_range _ _ _ _ y Hi1 ltac:(by left)) as Hr.
  assert (h !! y = None) as Hfresh.
  { apply eq_None_not_Some. intros Hs%elem_of_node_blocks.
    pose proof (g_disj _ _ _ _ _ (i_geo _ _ _ _ Hi1)) as [Hdis _]. rewrite Forall_forall in Hdis.
    apply (Hdis (node_block y) ltac:(by apply elem_of_app; left) y); unfold in_block; cbn; trie_sizes; lia. }
  assert (∀ z ndz, h !! z = Some ndz →
    Backend.contents b2 z NODE_ALLOC_SIZE = Backend.contents b z NODE_ALLOC_SIZE) as Hnodes.
  { intros z ndz Hz. apply (Hkeep (node_block z)). apply elem_of_app. left. apply elem_of_node_blocks. eauto. }
  split; [done|]. exists (relocate delta <$> rest). pose proof Hw as (Hwf2&Hl2&Hg2&Hpi&Ho2). split.
  - split; [| |congruence|].
    + eapply inv_perm; [|eapply inv_write; [exact Hwf2|exact Hl2|exact Hi1]].
      by rewrite node_blocks_insert.
    + intros z ndz [[<- <-]|[Hne Hz]]%lookup_insert_Some; [done|].
      destruct (Hn z ndz Hz) as [Hokz Hpz]. split; [done|].
      pose proof (catalog_range _ _ _ _ z Hi ltac:(apply elem_of_app; left; apply elem_of_node_blocks; eauto)) as Hrz.
      trie_sizes. eapply (pair_image_ext z ndz b); [lia| |done]. by apply (Hnodes z ndz).
    + intros z [ndz [[<- _]|[_ Hz]]%lookup_insert_Some]; rewrite Ed; [done|apply Hd; eauto].
  - split; [split|split_and!; cbn; [split; [done|]; by unfold pack_less; rewrite Eo|congruence|]].
    + intros x Hx. pose proof (inv_small _ _ _ _ Hi). pose proof (g_marks _ _ _ _ _ (i_geo _ _ _ _ Hi)).
      destruct Hm as [Hlow _]. cbn. rewrite Ho2 by lia. apply Hlow. unfold BASE_BLOCK in *. lia.
    + intros z ndz Hz _. split; [|by apply (Hnodes z ndz)]. by rewrite lookup_insert_ne by (intros <-; congruence).
    + exists delta. split_and!; [done|lia|done|]. intros blk Hin. apply Hkeep. by apply elem_of_app; right.
Qed.

(** ** Rules *)

Section rules.
Context (fl : option Z) (packed : list Block).

Abbreviation TS := ((Allocator.t * Backend.t) * nat)%type.

(** [ends h rest s m Q E]: from a state that holds [h] and [rest], [m] returns
    with [Q] of the new nodes, or reports that a fixed device is full with [E]
    of them; it unwinds only if the store has reached 2 EiB. *)
Definition ends {A} (h : gmap Z node) (rest : list Block) (s : TS) (m : TM A)
    (Q : A → gmap Z node → Prop) (E : gmap Z node → Prop) : Prop :=
  match m s with
  | (Ok v, s') => ∃ h' rest', node_heap fl h' rest' packed s'.1.1 s'.1.2 ∧ frame fl h rest s.1 h' rest' s'.1 ∧ Q v h'
  | (Err e, s') => e = Io StorageFull ∧ Backend.no_grow s.1.2 = true ∧ ∃ h' rest',
      node_heap fl h' rest' packed s'.1.1 s'.1.2 ∧ frame fl h rest s.1 h' rest' s'.1 ∧ E h'
  | (Panic, s') => 2 ^ 61 ≤ Backend.len s'.1.2
  end.

Abbreviation holds h rest s := (node_heap fl h rest packed (fst (fst s)) (snd (fst s))).

Lemma ends_mono {A} h rest s (m : TM A) (Q Q' : A → gmap Z node → Prop) (E E' : gmap Z node → Prop) :
  ends h rest s m Q E → (∀ v h', Q v h' → Q' v h') → (∀ h', E h' → E' h') → ends h rest s m Q' E'.
Proof.
  unfold ends. destruct (m s) as [[v|e|] s']; [..|done].
  - intros (h'&rest'&?&?&?) HQ _. exists h', rest'. auto.
  - intros (?&?&h'&rest'&?&?&?) _ HE. split_and!; [done..|]. exists h', rest'. auto.
Qed.

Lemma ends_bind {A B} h rest s (m : TM A) (f : A → TM B) Q1 Q E :
  ends h rest s m Q1 E →
  (∀ v h' rest' s', holds h' rest' s' → Q1 v h' → ends h' rest' s' (f v) Q E) →
  ends h rest s (m ≫= f) Q E.
Proof.
  unfold ends. rewrite bind_run. destruct (m s) as [[v|e|] s']; [|done..].
  intros (h1&rest1&Hh1&Hf1&HQ1) Hf. specialize (Hf v h1 rest1 s' Hh1 HQ1). pose proof Hf1 as (_&_&Hg&_).
  destruct (f v s') as [[w|e|] s'']; [..|done].
  - destruct Hf as (h2&rest2&?&?&?). exists h2, rest2. eauto using frame_trans.
  - destruct Hf as (?&?&h2&rest2&?&?&?). split_and!; [done|congruence|]. exists h2, rest2.
    eauto using frame_trans.
Qed.

Lemma ends_ret {A} h rest s (v : A) Q E : holds h rest s → Q v h → ends h rest s (mret v) Q E.
Proof. intros ??. exists h, rest. eauto using frame_refl. Qed.

Lemma ends_lift {A B} h rest s (r : res A) v (f : A → TM B) Q E :
  r = Ok v → ends h rest s (f v) Q E → ends h rest s (lift r ≫= f) Q E.
Proof. by intros ->. Qed.

Lemma ends_get_be {A} h rest s (f : Backend.t → TM A) Q E :
  ends h rest s (f s.1.2) Q E → ends h rest s (get_be ≫= f) Q E.
Proof. done. Qed.

Lemma ends_alloc h rest s nd p Q E :
  holds h rest s → node_ok nd → node_payload nd = Ok p →
  (∀ y, h !! y = None → 2 * BASE_BLOCK ≤ y → u64 y → Q y (<[y := nd]> h)) → E h →
  ends h rest s (alloc_and_write_node_cow c (node_kind nd) p) Q E ∧
  ends h rest s (alloc_and_write_node c (node_kind nd) p) Q E.
Proof.
  destruct s as [[a b] n]. cbn [fst snd]. intros Hh Hok Hp HQ HE.
  pose proof (alloc_aligned_spec a b _ packed NODE_ALLOC_SIZE CatalogHead (nh_inv _ _ _ _ _ _ Hh)
    ltac:(by_compute)) as Hal.
  pose proof (alloc_aligned_grows NODE_ALLOC_SIZE CatalogHead (a, b)) as [Hlen Hg].
  unfold ends, alloc_and_write_node_cow, alloc_and_write_node. rewrite !bind_run. unfold on_ab.
  destruct (alloc_aligned NODE_ALLOC_SIZE CatalogHead (a, b)) as [[loc|e|] [a1 b1]]; cbn [fst snd] in *.
  - pose proof Hal as (delta&_&_&_&Hl&Hi1&_). rewrite block_of_node in Hi1 by done.
    pose proof (catalog_range _ _ _ _ _ Hi1 ltac:(by left)) as Hr.
    destruct (write_pair_run a1 b1 n (addr loc) nd p) as (b2&n2&Hw1&Hw2&Hw);
      [apply (i_backend _ _ _ _ Hi1)|trie_sizes; lia|trie_sizes; lia|done|done|].
    rewrite !bind_run, Hw1, Hw2. cbn.
    destruct (node_heap_alloc _ _ _ _ _ _ _ _ _ _ _ Hh Hal Hg Hok Hw) as (Hfr&rest'&Hh'&Hfm).
    trie_sizes. split; exists (<[addr loc := nd]> h), rest'; split_and!; try done.
    all: apply HQ; [done|trie_sizes; lia|width_lia].
  - destruct Hal as (->&?&[= -> ->]). split; split_and!; try done; exists h, rest; eauto using frame_refl.
  - split; lia.
Qed.

Lemma ends_alloc_leaf h rest s k v Q E :
  holds h rest s → leaf_ok k v →
  (∀ y, h !! y = None → 2 * BASE_BLOCK ≤ y → u64 y → Q y (<[y := NLeaf k v]> h)) → E h →
  ends h rest s (alloc_leaf_cow c k v) Q E.
Proof.
  intros Hh Hok HQ HE. destruct (node_payload_ok (NLeaf k v) Hok) as (p&Hp&_).
  unfold alloc_leaf_cow. eapply ends_lift; [exact Hp|]. by apply (ends_alloc h rest s (NLeaf k v)).
Qed.

Lemma ends_alloc_internal h rest s n Q E :
  holds h rest s → internal_ok n →
  (∀ y, h !! y = None → 2 * BASE_BLOCK ≤ y → u64 y → Q y (<[y := NInner n]> h)) → E h →
  ends h rest s (alloc_internal_cow c n) Q E.
Proof.
  intros Hh Hok HQ HE. destruct (node_payload_ok (NInner n) Hok) as (p&Hp&_).
  unfold alloc_internal_cow. eapply ends_lift; [exact Hp|]. by apply (ends_alloc h rest s (NInner n)).
Qed.

Lemma ends_read {A} h rest s y nd (f : bytes → TM A) Q E :
  holds h rest s → h !! y = Some nd →
  (∀ blk, view blk nd → ends h rest s (f blk) Q E) →
  ends h rest s (b ← get_be; lift (read_node_with_backup b y c) ≫= f) Q E.
Proof.
  intros Hh Hy Hf. destruct (node_heap_readable _ _ _ _ _ _ y nd Hh Hy) as (blk&Hr&Hv).
  apply ends_get_be. eapply ends_lift; [exact Hr|]. by apply Hf.
Qed.

Lemma node_pieces a b live y :
  inv a b live packed → node_block y ∈ live → drop_pieces (node_block y) packed = packed.
Proof.
  intros Hi Hin. apply filter_all. intros p Hp Hx.
  destruct (s_packed _ _ _ (i_session _ _ _ _ Hi) p Hp) as (?&base&Hb&?&?). cbn in Hx.
  enough (node_block y = pack_block base) by done.
  apply (all_disjoint_same live _ _ (b_addr p)); [apply (i_geo _ _ _ _ Hi)|done|done|done|].
  unfold in_block. cbn. lia.
Qed.

Lemma ends_free h rest s y nd Q E :
  holds h rest s → h !! y = Some nd → Q () (reclaim fl y h) → ends h rest s (free_node_cow y) Q E.
Proof.
  destruct s as [[a b] n]. cbn [fst snd]. intros Hh Hy HQ.
  unfold ends, free_node_cow, on_ab, on_alloc, free_reclaimable. rewrite (nh_floor _ _ _ _ _ _ Hh).
  unfold reclaim, reclaimable in HQ.
  assert (∃ h' rest', node_heap fl h' rest' packed a b ∧ frame fl h rest (a, b) h' rest' (a, b) ∧ h' = h) as Hsame
    by (exists h, rest; eauto using frame_refl).
  destruct fl as [f|] eqn:Efl; [destruct (f <=? y) eqn:Ef|]; cbn [addr].
  2, 3: rewrite ?Ef; cbn; destruct Hsame as (?&rest'&?&?&->); by exists h, rest'.
  rewrite Ef. destruct Hh as [Hi Hn Hfl Hd].
  assert (node_block y ∈ node_blocks h ++ rest) as Hin
    by (apply elem_of_app; left; apply elem_of_node_blocks; eauto).
  destruct (free_spec a b (node_blocks h ++ rest) (node_blocks (delete y h) ++ rest) packed
    (mkBlockLoc y NODE_ALLOC_SIZE) CatalogHead) as (a'&Hfree&Hi'&Ed&Er).
  { done. }
  { rewrite (node_blocks_delete h y nd) by done. done. }
  { apply Hd. eauto. }
  rewrite Hfree. cbn. change (block_of _ _) with (node_block y) in Hi'.
  rewrite (node_pieces _ _ _ y Hi Hin) in Hi'. exists (delete y h), rest. split; [|split; [|done]].
  - split; [done| |congruence|].
    + intros z ndz [_ Hz]%lookup_delete_Some. by apply Hn.
    + intros z [ndz [_ Hz]%lookup_delete_Some]. rewrite Ed. apply Hd. eauto.
  - split; [split; [done|]|split; [split; [done|by eapply free_pack]|by destruct (frame_refl None ∅ rest (a, b)) as (_&_&?)]].
    intros z ndz Hz Hr. split; [|done]. rewrite lookup_delete_ne; [done|]. intros <-. cbn in Hr. congruence.
Qed.

End rules.

End images.
