(* ===== verification/TrieMap.v ===== *)
(** * The catalog trie refines a finite map

    A ghost [tree] describes the nodes below an address of the node heap, with
    the keys that reach them. The theorems relate the operations of the trie to
    the finite map that [find] reads off the tree, and say what becomes of the
    nodes of other trees. *)

From S2P Require Import Prelude.
From S2P Require Import Backend.
From S2P Require Import Crypto.
From S2P Require Import Alloc.
From S2P Require Import AllocInv.
From S2P Require Import Trie.
From S2P Require Import NodeHeap.

Abbreviation byte := Init.Byte.byte.

(** ** Trees *)

Inductive tree :=
| TEmpty
| TLeaf (y : Z) (k v : bytes)
| TNode (y : Z) (tm : option bytes) (kids : byte → tree).

Definition addr_of (t : tree) : Z :=
  match t with
  | TEmpty => 0
  | TLeaf y _ _ | TNode y _ _ => y
  end.

Fixpoint mem (t : tree) (z : Z) : Prop :=
  match t with
  | TEmpty => False
  | TLeaf y _ _ => z = y
  | TNode y _ kids => z = y ∨ ∃ x, mem (kids x) z
  end.

(** The value below a node that the key [p] reaches, of the key [p ++ r]. *)
Fixpoint find (t : tree) (p r : bytes) : option bytes :=
  match t with
  | TEmpty => None
  | TLeaf _ k v => if decide (k = p ++ r) then Some v else None
  | TNode _ tm kids =>
      match r with
      | [] => tm
      | x :: r' => find (kids x) (p ++ [x]) r'
      end
  end.

(** The heap stores the tree under the key [p]; no node is shared. *)
Fixpoint stored (h : gmap Z node) (p : bytes) (t : tree) : Prop :=
  match t with
  | TEmpty => True
  | TLeaf y k v => y ≠ 0 ∧ h !! y = Some (NLeaf k v) ∧ p `prefix_of` k
  | TNode y tm kids =>
      (y ≠ 0 ∧ blen p ≤ MAX_KEY_LEN ∧
       ∃ n, h !! y = Some (NInner n) ∧ term n = tm ∧
            ∀ x, slot n (byte.unsigned x) = addr_of (kids x)) ∧
      (∀ x, stored h (p ++ [x]) (kids x)) ∧
      (∀ x, ¬ mem (kids x) y) ∧
      (∀ x x' z, mem (kids x) z → mem (kids x') z → x = x')
  end.

Lemma mem_stored h p t z : stored h p t → mem t z → is_Some (h !! z).
Proof.
  revert p. induction t as [|y k v|y tm kids IH]; intros p; cbn.
  - done.
  - intros (_&Hy&_) ->. eauto.
  - intros ((_&_&n&Hy&_)&Hk&_) [->|[x Hx]]; eauto.
Qed.

Lemma stored_mono h h' p t : stored h p t → (∀ z, mem t z → h' !! z = h !! z) → stored h' p t.
Proof.
  revert p. induction t as [|y k v|y tm kids IH]; intros p; cbn; intros Hs Hm.
  - done.
  - rewrite (Hm y) by done. done.
  - rewrite (Hm y) by by left. destruct Hs as (?&Hk&?). split; [done|split; [|done]].
    intros x. apply IH; [done|]. intros z Hz. apply Hm. eauto.
Qed.

Lemma addr_zero h p t : stored h p t → addr_of t = 0 → t = TEmpty.
Proof. destruct t; cbn; naive_solver. Qed.

Lemma mem_addr t : t ≠ TEmpty → mem t (addr_of t).
Proof. destruct t; cbn; naive_solver. Qed.

(** All bytes in ascending order. *)
Definition nth_byte (i : nat) : byte := byte.of_Z (Z.of_nat i).
Definition all_bytes : list byte := nth_byte <$> seq 0 256.

Lemma elem_of_all_bytes x : x ∈ all_bytes.
Proof.
  pose proof (byte.unsigned_range x). apply list_elem_of_fmap. exists (Z.to_nat (byte.unsigned x)).
  unfold nth_byte. rewrite Z2Nat.id, byte_of_unsigned by lia. split; [done|]. apply elem_of_seq. lia.
Qed.

#[global] Instance mem_dec t z : Decision (mem t z).
Proof.
  induction t as [|y k v|y tm kids IH]; cbn; [right; tauto|apply _|].
  destruct (decide (Exists (λ x, mem (kids x) z) all_bytes)) as [Hx|Hx].
  - left. right. apply Exists_exists in Hx as (x&_&?). eauto.
  - destruct (decide (z = y)); [left; by left|right]. intros [?|[x Hm]]; [done|].
    apply Hx, Exists_exists. eauto using elem_of_all_bytes.
Qed.

(** ** Slots *)

Lemma unsigned_inj (x x' : byte) : byte.unsigned x = byte.unsigned x' → x = x'.
Proof. intros Heq. by rewrite <-(byte_of_unsigned x), <-(byte_of_unsigned x'), Heq. Qed.

Definition upd (kids : byte → tree) (x : byte) (t : tree) (x' : byte) : tree :=
  if decide (x' = x) then t else kids x'.

Lemma upd_eq kids x t : upd kids x t x = t.
Proof. unfold upd. by rewrite decide_True. Qed.
Lemma upd_ne kids x t x' : x' ≠ x → upd kids x t x' = kids x'.
Proof. intros. unfold upd. by rewrite decide_False. Qed.

Lemma slot_set_slot n x y x' :
  length (slots n) = 256%nat →
  slot (set_slot n (byte.unsigned x) y) (byte.unsigned x') =
    if decide (x' = x) then y else slot n (byte.unsigned x').
Proof.
  intros Hl. unfold slot, set_slot. cbn [slots]. pose proof (byte.unsigned_range x).
  pose proof (byte.unsigned_range x'). case_decide as Hx.
  - subst. rewrite list_lookup_insert_eq; [done|lia].
  - rewrite list_lookup_insert_ne; [done|]. intros Heq. apply Hx, unsigned_inj. lia.
Qed.

Lemma set_slot_upd n kids x y t :
  length (slots n) = 256%nat → (∀ x, slot n (byte.unsigned x) = addr_of (kids x)) → addr_of t = y →
  ∀ x', slot (set_slot n (byte.unsigned x) y) (byte.unsigned x') = addr_of (upd kids x t x').
Proof. intros Hl Hk <- x'. rewrite slot_set_slot by done. unfold upd. by case_decide. Qed.

Lemma set_slot_ok n x y : internal_ok n → u64 y → internal_ok (set_slot n x y).
Proof.
  intros (Hl&Hs&Ht) Hy. split_and!; cbn; [by rewrite length_insert| |done]. by apply Forall_insert.
Qed.

Lemma set_term_ok n v : internal_ok n → (if v is Some v then blen v ≤ MAX_VAL_LEN else True) → internal_ok (set_term n v).
Proof. intros (Hl&Hs&Ht) Hv. by split_and!. Qed.

Lemma Internal_empty_ok : internal_ok Internal_empty.
Proof. split_and!; [done| |done]. apply Forall_replicate. by_compute. Qed.

Lemma Internal_empty_slot x : slot Internal_empty (byte.unsigned x) = 0.
Proof.
  unfold slot, Internal_empty. cbn [slots]. pose proof (byte.unsigned_range x).
  rewrite lookup_replicate_2 by lia. done.
Qed.

Section trees.
Context `{!Crc32, !Hkdf, !AesGcm, !Entropy} (c : NodeCrypto).

(** ** Lookup *)

Definition all_readable (b : Backend.t) (h : gmap Z node) : Prop :=
  ∀ y nd, h !! y = Some nd → readable c b y nd.

Lemma get_at_spec b h t p key r :
  all_readable b h → stored h p t → t ≠ TEmpty → key = p ++ r →
  get_at b c (addr_of t) key r = Ok (find t p r).
Proof.
  intros Hb. revert p r. induction t as [|y k v|y tm kids IH]; intros p r Hs Hne ->; [done|..].
  - destruct Hs as (_&Hy&_). destruct (Hb _ _ Hy) as (blk&Hr&Hk&Hd). cbn [addr_of].
    destruct r; cbn [get_at]; rewrite Hr; cbn [mbind res_bind]; rewrite Hk; cbn; rewrite Hd; cbn.
    all: by rewrite decide_bool_decide.
  - destruct Hs as ((_&_&n&Hy&<-&Hslot)&Hkids&_). destruct (Hb _ _ Hy) as (blk&Hr&Hk&Hd). cbn [addr_of].
    destruct r as [|x r]; cbn [get_at]; rewrite Hr; cbn [mbind res_bind]; rewrite Hk; cbn; rewrite Hd; cbn.
    { done. }
    rewrite Hslot. destruct (Z.eqb_spec (addr_of (kids x)) 0) as [E|E].
    + by rewrite (addr_zero _ _ _ (Hkids x) E).
    + rewrite (IH x (p ++ [x]) r) by (done || (intros Hx; by rewrite Hx in E) || by rewrite <-app_assoc). done.
Qed.

Section updates.
Context (fl : option Z) (packed : list Block).

Abbreviation ends := (ends c fl packed).
Abbreviation holds h rest s := (node_heap c fl h rest packed (fst (fst s)) (snd (fst s))).

(** What an update of [t] leaves of the heap: every node that is not both in
    [t] and reclaimable. *)
Definition keeps (t : tree) (h h' : gmap Z node) : Prop :=
  ∀ z nd, h !! z = Some nd → (mem t z → reclaimable fl z = false) → h' !! z = Some nd.

Lemma keeps_subseteq t h h' : h ⊆ h' → keeps t h h'.
Proof. intros Hh z nd Hz _. by eapply lookup_weaken. Qed.

Lemma keeps_trans t h h1 h2 : keeps t h h1 → h1 ⊆ h2 → keeps t h h2.
Proof. intros Hk Hs z nd Hz Hm. eapply lookup_weaken; [by apply Hk|done]. Qed.

Lemma keeps_fresh t h h' z : keeps t h h' → h' !! z = None → mem t z ∨ h !! z = None.
Proof.
  intros Hk Hz. destruct (h !! z) as [nd|] eqn:E; [|by right]. left. apply dec_stable. intros Hm.
  rewrite (Hk z nd) in Hz; done.
Qed.

Lemma fresh_subseteq (h : gmap Z node) y nd : h !! y = None → h ⊆ <[y := nd]> h.
Proof. apply insert_subseteq. Qed.

Lemma reclaim_ne y (h : gmap Z node) z : z ≠ y → reclaim fl y h !! z = h !! z.
Proof. intros. unfold reclaim. case_match; [by rewrite lookup_delete_ne|done]. Qed.

Lemma keeps_reclaim t h h' y : mem t y → keeps t h h' → keeps t h (reclaim fl y h').
Proof.
  intros Hy Hk z nd Hz Hm. destruct (decide (z = y)) as [->|Hne].
  - unfold reclaim. rewrite Hm by done. by apply Hk.
  - rewrite reclaim_ne by done. by apply Hk.
Qed.

Lemma stored_reclaim h p t y : stored h p t → ¬ mem t y → stored (reclaim fl y h) p t.
Proof. intros Hs Hy. eapply stored_mono; [done|]. intros z Hz. apply reclaim_ne. by intros ->. Qed.

Lemma stored_subseteq h h' p t : stored h p t → h ⊆ h' → stored h' p t.
Proof.
  intros Hs Hsub. eapply stored_mono; [done|]. intros z Hz.
  destruct (mem_stored _ _ _ _ Hs Hz) as [nd Hnd]. rewrite Hnd. by eapply lookup_weaken.
Qed.

(** A fresh internal node over stored children. *)
Lemma stored_node h p y n kids :
  h !! y = None → y ≠ 0 → blen p ≤ MAX_KEY_LEN →
  (∀ x, slot n (byte.unsigned x) = addr_of (kids x)) → (∀ x, stored h (p ++ [x]) (kids x)) →
  (∀ x x' z, mem (kids x) z → mem (kids x') z → x = x') →
  stored (<[y := NInner n]> h) p (TNode y (term n) kids).
Proof.
  intros Hy Hne Hp Hs Hk Hd.
  assert (∀ x, ¬ mem (kids x) y) as Hnot.
  { intros x Hx. destruct (mem_stored _ _ _ _ (Hk x) Hx) as [? ?]. congruence. }
  split; [|split; [|by split]].
  - split_and!; [done..|]. exists n. by rewrite lookup_insert_eq.
  - intros x. eapply stored_subseteq; [done|]. by apply fresh_subseteq.
Qed.

(** The children of a node after an update of the child at [x]. *)
Lemma upd_child h h1 p y tm kids x t1 :
  stored h p (TNode y tm kids) → stored h1 (p ++ [x]) t1 → keeps (kids x) h h1 →
  (∀ z, mem t1 z → mem (kids x) z ∨ h !! z = None) →
  (∀ x', stored h1 (p ++ [x']) (upd kids x t1 x')) ∧
  (∀ x1 x2 z, mem (upd kids x t1 x1) z → mem (upd kids x t1 x2) z → x1 = x2) ∧
  (∀ x', ¬ mem (upd kids x t1 x') y) ∧
  (∀ x' z, mem (upd kids x t1 x') z → mem (TNode y tm kids) z ∨ h !! z = None) ∧
  keeps (TNode y tm kids) h h1.
Proof.
  intros (Hy&Hkids&Hnot&Hdis) Ht1 Hk Hm.
  assert (is_Some (h !! y)) as [ndy Hhy] by (destruct Hy as (_&_&n&?&_); eauto).
  assert (∀ x' z, mem (kids x') z → h !! z ≠ None) as Hin.
  { intros x' z Hz. destruct (mem_stored _ _ _ _ (Hkids x') Hz) as [? ->]. done. }
  split_and!.
  - intros x'. unfold upd. case_decide as Hx; [by subst|]. eapply stored_mono; [apply Hkids|].
    intros z Hz. destruct (mem_stored _ _ _ _ (Hkids x') Hz) as [nd Hnd]. rewrite Hnd.
    apply Hk; [done|]. intros Hz'. by destruct Hx; apply (Hdis x' x z).
  - intros x1 x2 z. unfold upd. repeat case_decide; subst; intros H1' H2'; try done; [..|by eapply Hdis].
    + destruct (Hm z H1') as [?|?]; [by symmetry; eapply Hdis|]. by destruct (Hin x2 z).
    + destruct (Hm z H2') as [?|?]; [by eapply Hdis|]. by destruct (Hin x1 z).
  - intros x'. unfold upd. case_decide; [|apply Hnot]. intros Hz.
    destruct (Hm y Hz) as [?|?]; [by eapply Hnot|congruence].
  - intros x' z. unfold upd. case_decide; intros Hz; [|left; cbn; eauto].
    destruct (Hm z Hz); [left; cbn; eauto|by right].
  - intros z nd Hz Hr. apply Hk; [done|]. intros Hzx. apply Hr. cbn. eauto.
Qed.

(** The outcome of inserting the key [p ++ r] below [t]. *)
Definition put_post (h : gmap Z node) (t : tree) (p r val : bytes) (y' : Z) (h' : gmap Z node) : Prop :=
  ∃ t', addr_of t' = y' ∧ t' ≠ TEmpty ∧ u64 y' ∧ stored h' p t' ∧
    (∀ r', find t' p r' = if decide (r' = r) then Some val else find t p r') ∧
    (∀ z, mem t' z → mem t z ∨ h !! z = None) ∧ keeps t h h'.

(** The same before the superseded node is freed. *)
Definition put_mid (h : gmap Z node) (t : tree) (p r val : bytes) (y' : Z) (h' : gmap Z node) : Prop :=
  ∃ t', addr_of t' = y' ∧ t' ≠ TEmpty ∧ u64 y' ∧ stored h' p t' ∧
    (∀ r', find t' p r' = if decide (r' = r) then Some val else find t p r') ∧
    (∀ z, mem t' z → mem t z ∨ h !! z = None) ∧ keeps t h h' ∧
    ¬ mem t' (addr_of t) ∧ is_Some (h' !! addr_of t).

Lemma ends_put_mid h h1 rest s t p r val y' :
  holds h1 rest s → t ≠ TEmpty → put_mid h t p r val y' h1 →
  ends h1 rest s (free_node_cow (addr_of t);; mret y') (put_post h t p r val) (keeps t h).
Proof.
  intros Hh Hne (t'&Ha&Hne'&Hu&Hs&Hf&Hm&Hk&Hnot&[nd Hnd]).
  eapply (ends_bind _ _ _ _ _ _ _ _ (λ _ h', h' = reclaim fl (addr_of t) h1)).
  { by eapply ends_free. }
  intros _ h2 rest2 s2 Hh2 ->. apply ends_ret; [done|]. exists t'. split_and!; try done.
  - by apply stored_reclaim.
  - apply keeps_reclaim; [by apply mem_addr|done].
Qed.


(** ** Branching a leaf *)

(** A tree built of fresh nodes only, whose entries are those of [G]. *)
Definition grown_tree (h : gmap Z node) (p : bytes) (G : bytes → option bytes) (y : Z)
    (h' : gmap Z node) : Prop :=
  ∃ t, addr_of t = y ∧ t ≠ TEmpty ∧ u64 y ∧ stored h' p t ∧ (∀ r, find t p r = G (p ++ r)) ∧
    (∀ z, mem t z → h !! z = None) ∧ h ⊆ h'.

Lemma empty_upd_stored h p x t :
  stored h (p ++ [x]) t → ∀ x', stored h (p ++ [x']) (upd (λ _, TEmpty) x t x').
Proof. intros Ht x'. unfold upd. by case_decide; subst. Qed.

Lemma empty_upd_disjoint x t x1 x2 z :
  mem (upd (λ _, TEmpty) x t x1) z → mem (upd (λ _, TEmpty) x t x2) z → x1 = x2.
Proof. unfold upd. repeat case_decide; congruence || done. Qed.

Lemma empty_upd_slot x t x' :
  slot (set_slot Internal_empty (byte.unsigned x) (addr_of t)) (byte.unsigned x') =
  addr_of (upd (λ _, TEmpty) x t x').
Proof. by apply set_slot_upd; [|apply Internal_empty_slot|]. Qed.

Lemma wrap_loop_spec h0 p G bs :
  ∀ y h rest s, holds h rest s → grown_tree h0 (p ++ rev bs) G y h → blen (p ++ rev bs) ≤ MAX_KEY_LEN →
  (∀ r, G (p ++ r) ≠ None → rev bs `prefix_of` r) →
  ends h rest s (wrap_loop c bs y) (grown_tree h0 p G) (λ h', h0 ⊆ h').
Proof.
  induction bs as [|x bs IH]; intros y h rest s Hh Ht Hp HG; cbn [wrap_loop rev] in *.
  { apply ends_ret; [done|]. by rewrite app_nil_r in Ht. }
  destruct Ht as (t&<-&Hne&Hu&Hs&Hf&Hfr&Hsub). rewrite app_assoc in Hs, Hf, Hp. rewrite blen_app in Hp.
  change (blen [x]) with 1 in Hp.
  eapply (ends_bind _ _ _ _ _ _ _ _ (grown_tree h0 (p ++ rev bs) G)).
  - apply ends_alloc_internal; [done|by apply set_slot_ok; [apply Internal_empty_ok|]| |done].
    intros y' Hy' Hlo Hu'.
    exists (TNode y' None (upd (λ _, TEmpty) x t)). split_and!; try done.
    + apply (stored_node h (p ++ rev bs) y' (set_slot Internal_empty (byte.unsigned x) (addr_of t))).
      * done.
      * unfold BASE_BLOCK in Hlo. lia.
      * lia.
      * apply empty_upd_slot.
      * by apply empty_upd_stored.
      * intros *. apply empty_upd_disjoint.
    + intros [|x' r]; cbn [find].
      * rewrite app_nil_r. destruct (G (p ++ rev bs)) eqn:E; [|done].
        destruct (HG (rev bs)) as [q Hq]; [by rewrite E|]. apply (f_equal length) in Hq.
        rewrite !length_app in Hq. cbn in Hq. lia.
      * unfold upd. case_decide as Hx; [subst; rewrite Hf; by rewrite <-!app_assoc|]. cbn.
        destruct (G ((p ++ rev bs) ++ x' :: r)) eqn:E; [|done]. rewrite <-app_assoc in E.
        destruct (HG (rev bs ++ x' :: r)) as [q Hq]; [by rewrite E|].
        rewrite <-app_assoc in Hq. apply app_inv_head in Hq. injection Hq as <-. done.
    + intros z [->|[x' Hz]]; [eapply lookup_weaken_None; [exact Hy'|done]|].
      unfold upd in Hz. case_decide; [by apply Hfr|done].
    + etrans; [exact Hsub|by apply fresh_subseteq].
  - intros y' h1 rest1 s1 Hh1 Ht1. eapply IH; [done|done|lia|].
    intros r Hr. destruct (HG r Hr) as [q ->]. rewrite <-app_assoc. by eexists.
Qed.


Lemma common_len_split k1 k2 :
  ∃ q r1 r2, k1 = q ++ r1 ∧ k2 = q ++ r2 ∧ length q = common_len k1 k2 ∧
    match r1, r2 with x1 :: _, x2 :: _ => x1 ≠ x2 | _, _ => True end.
Proof.
  revert k2. induction k1 as [|x k1 IH]; intros k2; [by exists [], [], k2|].
  destruct k2 as [|x' k2]; [by exists [], (x :: k1), []|]. cbn [common_len].
  destruct (decide (x = x')) as [->|Hne].
  - rewrite bool_decide_true by done. destruct (IH k2) as (q&r1&r2&->&->&<-&?). by exists (x' :: q), r1, r2.
  - rewrite bool_decide_false by done. by exists [], (x :: k1), (x' :: k2).
Qed.

Lemma index_byte_app pre (x : byte) rest :
  index_byte (pre ++ x :: rest) (blen pre) = Ok (byte.unsigned x).
Proof.
  unfold index_byte, get_byte, blen. replace (0 <=? Z.of_nat (length pre)) with true by lia.
  rewrite Nat2Z.id, lookup_app_r, Nat.sub_diag by lia. done.
Qed.

(** One leaf, as a tree. *)
Lemma grown_leaf h h1 p y k v :
  h1 !! y = None → 2 * BASE_BLOCK ≤ y → u64 y → p `prefix_of` k → h ⊆ h1 →
  stored (<[y := NLeaf k v]> h1) p (TLeaf y k v) ∧ h !! y = None ∧ h ⊆ <[y := NLeaf k v]> h1.
Proof.
  intros Hy Hlo Hu Hp Hsub. split; [|split].
  - cbn. rewrite lookup_insert_eq. split_and!; [unfold BASE_BLOCK in Hlo; lia|done..].
  - by eapply lookup_weaken_None.
  - etrans; [exact Hsub|by apply fresh_subseteq].
Qed.

Lemma branch_wrap (p q : bytes) : rev (take (length (p ++ q) - length p) (drop (length p) (p ++ q))) = rev q.
Proof. rewrite drop_app_length, length_app. f_equal. apply take_ge. lia. Qed.

(** One key is a proper prefix of the other. *)
Lemma branch_prefix_spec h rest s p q x r sv lv (G : bytes → option bytes) :
  let short := p ++ q in let long := p ++ q ++ x :: r in
  holds h rest s → leaf_ok long lv → leaf_ok short sv →
  (∀ k, G k = if decide (k = long) then Some lv else if decide (k = short) then Some sv else None) →
  ends h rest s
    (long_leaf ← alloc_leaf_cow c long lv;
     byte ← lift (index_byte long (Z.of_nat (length short)));
     addr ← alloc_internal_cow c (set_slot (set_term Internal_empty (Some sv)) byte long_leaf);
     wrap_loop c (rev (take (length short - length p) (drop (length p) short))) addr)
    (grown_tree h p G) (λ h', h ⊆ h').
Proof.
  intros short long Hh Hlong [Hshort Hsv] HG.
  eapply (ends_bind _ _ _ _ _ _ _ _ (λ y h1, stored h1 (short ++ [x]) (TLeaf y long lv) ∧ h !! y = None ∧
    h ⊆ h1 ∧ u64 y)).
  { apply ends_alloc_leaf; [done|done| |done]. intros y Hy Hlo Hu.
    destruct (grown_leaf h h (short ++ [x]) y long lv) as (?&?&?); [done..| |done|done].
    exists r. unfold short, long. by rewrite <-!app_assoc. }
  intros y1 h1 rest1 s1 Hh1 (Hs1&Hf1&Hsub1&Hu1). eapply ends_lift.
  { unfold long. rewrite app_assoc. apply index_byte_app. }
  assert (internal_ok (set_term Internal_empty (Some sv))) as Hn by (by apply set_term_ok; [apply Internal_empty_ok|]).
  eapply (ends_bind _ _ _ _ _ _ _ _ (grown_tree h (p ++ rev (rev q)) G)).
  - apply ends_alloc_internal; [done|by apply set_slot_ok| |done].
    intros y Hy Hlo Hu. rewrite rev_involutive. fold short.
    exists (TNode y (Some sv) (upd (λ _, TEmpty) x (TLeaf y1 long lv))). split_and!; try done.
    + eapply (stored_node h1 short y (set_slot (set_term Internal_empty (Some sv)) (byte.unsigned x) y1)).
      * done.
      * unfold BASE_BLOCK in Hlo. lia.
      * done.
      * exact (empty_upd_slot x (TLeaf y1 long lv)).
      * by apply empty_upd_stored.
      * intros *. apply empty_upd_disjoint.
    + intros [|x' r']; cbn [find]; rewrite HG.
      * rewrite app_nil_r, decide_False, decide_True; [done..|].
        intros Heq%(f_equal length). unfold short, long in Heq. rewrite !length_app in Heq. cbn in Heq. lia.
      * rewrite (decide_False (P := _ = short)).
        2: { intros Heq%(f_equal length). rewrite !length_app in Heq. cbn in Heq. lia. }
        unfold upd. case_decide as Hx.
        { subst. cbn [find]. rewrite <-app_assoc. repeat case_decide; congruence || done. }
        cbn. rewrite decide_False; [done|]. unfold short, long.
        intros Heq. rewrite <-app_assoc in Heq. apply app_inv_head, app_inv_head in Heq. congruence.
    + intros z [->|[x' Hz]]; [by eapply lookup_weaken_None|].
      unfold upd in Hz. case_decide; [by cbn in Hz; subst|done].
    + etrans; [exact Hsub1|by apply fresh_subseteq].
  - intros y h2 rest2 s2 Hh2 Ht. unfold short. rewrite branch_wrap.
    eapply wrap_loop_spec; [done|done|by rewrite rev_involutive|].
    rewrite rev_involutive. intros r' Hr. rewrite HG in Hr. unfold short, long in Hr.
    destruct (decide (p ++ r' = _)) as [Hd|_]; [|destruct (decide (p ++ r' = _)) as [Hd|_]; [|done]].
    + apply app_inv_head in Hd as ->. by eexists.
    + apply app_inv_head in Hd as ->. done.
Qed.


(** The keys differ at a byte. *)
Lemma branch_fork_spec h rest s p q xo ro xn rn ov nv (G : bytes → option bytes) :
  let ok := p ++ q ++ xo :: ro in let nk := p ++ q ++ xn :: rn in
  let d := length (p ++ q) in
  holds h rest s → xo ≠ xn → leaf_ok ok ov → leaf_ok nk nv →
  (∀ k, G k = if decide (k = nk) then Some nv else if decide (k = ok) then Some ov else None) →
  ends h rest s
    (old_leaf ← alloc_leaf_cow c ok ov;
     new_leaf ← alloc_leaf_cow c nk nv;
     old_byte ← lift (index_byte ok (Z.of_nat d));
     new_byte ← lift (index_byte nk (Z.of_nat d));
     addr ← alloc_internal_cow c (set_slot (set_slot Internal_empty old_byte old_leaf) new_byte new_leaf);
     wrap_loop c (rev (take (d - length p) (q ++ xo :: ro))) addr)
    (grown_tree h p G) (λ h', h ⊆ h').
Proof.
  intros ok nk d Hh Hxx Hok Hnk HG. set (pq := p ++ q).
  assert (ok = pq ++ xo :: ro ∧ nk = pq ++ xn :: rn) as [Eo En] by (unfold ok, nk, pq; by rewrite <-!app_assoc).
  eapply (ends_bind _ _ _ _ _ _ _ _ (λ y h1, stored h1 (pq ++ [xo]) (TLeaf y ok ov) ∧ h !! y = None ∧
    h ⊆ h1 ∧ u64 y)).
  { apply ends_alloc_leaf; [done|done| |done]. intros y Hy Hlo Hu.
    destruct (grown_leaf h h (pq ++ [xo]) y ok ov) as (?&?&?); [done..| |done|done].
    exists ro. rewrite Eo. by rewrite <-app_assoc. }
  intros yo h1 rest1 s1 Hh1 (Hs1&Hf1&Hsub1&Hu1).
  eapply (ends_bind _ _ _ _ _ _ _ _ (λ y h2, stored h2 (pq ++ [xn]) (TLeaf y nk nv) ∧ h1 !! y = None ∧
    h1 ⊆ h2 ∧ u64 y)).
  { apply ends_alloc_leaf; [done|done| |done]. intros y Hy Hlo Hu.
    destruct (grown_leaf h1 h1 (pq ++ [xn]) y nk nv) as (?&?&?); [done..| |done|done].
    exists rn. rewrite En. by rewrite <-app_assoc. }
  intros yn h2 rest2 s2 Hh2 (Hs2&Hf2&Hsub2&Hu2).
  eapply ends_lift; [rewrite Eo; apply index_byte_app|]. eapply ends_lift; [rewrite En; apply index_byte_app|].
  set (kids := upd (upd (λ _, TEmpty) xo (TLeaf yo ok ov)) xn (TLeaf yn nk nv)).
  assert (yo ≠ yn) as Hyy by (intros ->; destruct (mem_stored _ _ _ yn Hs1) as [? ?]; [done|congruence]).
  assert (∀ x z, mem (kids x) z → x = xo ∧ z = yo ∨ x = xn ∧ z = yn) as Hmem.
  { intros x z. unfold kids, upd. repeat case_decide; cbn; naive_solver. }
  eapply (ends_bind _ _ _ _ _ _ _ _ (grown_tree h (p ++ rev (rev q)) G)).
  - apply ends_alloc_internal; [done|apply set_slot_ok; [apply set_slot_ok; [apply Internal_empty_ok|done]|done]| |].
    2: by etrans.
    intros y Hy Hlo Hu. rewrite rev_involutive. fold pq. exists (TNode y None kids). split_and!; try done.
    + apply (stored_node h2 pq y (set_slot (set_slot Internal_empty (byte.unsigned xo) yo) (byte.unsigned xn) yn)).
      * done.
      * unfold BASE_BLOCK in Hlo. lia.
      * destruct Hok as [Hl _]. rewrite Eo, blen_app in Hl. pose proof (blen_nonneg (xo :: ro)). lia.
      * apply set_slot_upd; [by cbn; rewrite length_insert| |done]. apply (empty_upd_slot xo (TLeaf yo ok ov)).
      * intros x. unfold kids, upd. case_decide as Hx; [rewrite Hx; exact Hs2|].
        case_decide as Hx'; [rewrite Hx'; by eapply stored_subseteq|done].
      * intros x x' z Hx%Hmem Hx'%Hmem. naive_solver.
    + intros [|x r]; cbn [find]; rewrite HG.
      { rewrite app_nil_r, !decide_False; [done| |].
        all: rewrite ?Eo, ?En; intros Heq%(f_equal length); rewrite !length_app in Heq; cbn in Heq; lia. }
      assert ((pq ++ [x]) ++ r = pq ++ x :: r) as EK by by rewrite <-app_assoc.
      assert (x ≠ xo → pq ++ x :: r ≠ ok) as Ho by (rewrite Eo; intros ? Heq%app_inv_head; congruence).
      assert (x ≠ xn → pq ++ x :: r ≠ nk) as Hn by (rewrite En; intros ? Heq%app_inv_head; congruence).
      unfold kids, upd. case_decide as Hx; [|case_decide as Hx']; cbn [find]; rewrite ?EK.
      * assert (pq ++ x :: r ≠ ok) by (apply Ho; congruence). repeat case_decide; congruence.
      * assert (pq ++ x :: r ≠ nk) by auto. repeat case_decide; congruence.
      * rewrite !decide_False by auto. done.
    + intros z [->|[x Hz%Hmem]]; [eapply lookup_weaken_None; [exact Hy|by etrans]|].
      destruct Hz as [[-> ->]|[-> ->]]; [done|by eapply lookup_weaken_None].
    + etrans; [exact Hsub1|]. etrans; [exact Hsub2|by apply fresh_subseteq].
  - intros y h3 rest3 s3 Hh3 Ht.
    replace (take (d - length p) (q ++ xo :: ro)) with q.
    2: { unfold d. rewrite length_app, take_app_length'; [done|lia]. }
    eapply wrap_loop_spec; [done|done| |].
    + rewrite rev_involutive. destruct Hok as [Hl _]. rewrite Eo, blen_app in Hl.
      pose proof (blen_nonneg (xo :: ro)). unfold pq in Hl. lia.
    + rewrite rev_involutive. intros r Hr. rewrite HG in Hr. unfold ok, nk in Hr.
      destruct (decide (p ++ r = _)) as [Hd|_]; [|destruct (decide (p ++ r = _)) as [Hd|_]; [|done]].
      all: apply app_inv_head in Hd as ->; by eexists.
Qed.


(** The two entries of a branched leaf. *)
Definition two_entries (ok ov nk nv k : bytes) : option bytes :=
  if decide (k = nk) then Some nv else if decide (k = ok) then Some ov else None.

Lemma branch_leaf_spec h rest s p ok ov nk nv :
  holds h rest s → p `prefix_of` ok → p `prefix_of` nk → ok ≠ nk → leaf_ok ok ov → leaf_ok nk nv →
  ends h rest s (branch_leaf c ok ov nk nv (length p)) (grown_tree h p (two_entries ok ov nk nv)) (λ h', h ⊆ h').
Proof.
  intros Hh [ro ->] [rn ->] Hne Hok Hnk. unfold branch_leaf. rewrite !drop_app_length.
  destruct (common_len_split ro rn) as (q&ro'&rn'&->&->&<-&Hdiff).
  rewrite <-!length_app. case_decide as Hd.
  - case_decide as Hs.
    + destruct ro' as [|xo ro']; [|repeat rewrite length_app in Hd; repeat rewrite length_app in Hs; cbn [length] in Hd, Hs; lia].
      destruct rn' as [|x rn']; [repeat rewrite length_app in Hs; cbn [length] in Hs; lia|].
      rewrite app_nil_r in *. apply (branch_prefix_spec h rest s p q x rn'); [done..|]. done.
    + destruct rn' as [|xn rn']; [|repeat rewrite length_app in Hd; repeat rewrite length_app in Hs; cbn [length] in Hd, Hs; lia].
      destruct ro' as [|x ro']; [done|].
      rewrite app_nil_r in *. apply (branch_prefix_spec h rest s p q x ro'); [done..|].
      intros k. unfold two_entries. repeat case_decide; congruence.
  - destruct ro' as [|xo ro'], rn' as [|xn rn'];
      [repeat rewrite length_app in Hd; cbn [length] in Hd; lia..|].
    by apply (branch_fork_spec h rest s p q xo ro' xn rn').
Qed.

(** ** Insertion *)

(** A leaf is replaced by a tree of fresh nodes. *)
Lemma put_mid_leaf h h1 y k v p r val y' :
  stored h p (TLeaf y k v) →
  grown_tree h p (two_entries k v (p ++ r) val) y' h1 → put_mid h (TLeaf y k v) p r val y' h1.
Proof.
  intros (?&Hy&_) (t&Ha&Hne&Hu&Hs&Hf&Hfr&Hsub). exists t. split_and!; try done.
  - intros r'. rewrite Hf. unfold two_entries. cbn.
    destruct (decide (r' = r)) as [->|Hr]; [by rewrite decide_True|].
    rewrite decide_False by (intros Heq; by apply app_inv_head in Heq).
    repeat case_decide; congruence.
  - auto.
  - by apply keeps_subseteq.
  - cbn. intros Hm%Hfr. congruence.
  - cbn. exists (NLeaf k v). by eapply lookup_weaken.
Qed.

Lemma two_entries_same k v v' k' : two_entries k v k v' k' = if decide (k' = k) then Some v' else None.
Proof. unfold two_entries. by repeat case_decide. Qed.

Lemma grown_single h h1 p y k v ov :
  h1 !! y = None → 2 * BASE_BLOCK ≤ y → u64 y → p `prefix_of` k → h ⊆ h1 →
  grown_tree h p (two_entries k ov k v) y (<[y := NLeaf k v]> h1).
Proof.
  intros Hy Hlo Hu Hp Hsub. destruct (grown_leaf h h1 p y k v) as (?&?&?); [done..|].
  exists (TLeaf y k v). split_and!; try done.
  - intros r. rewrite two_entries_same. cbn. repeat case_decide; congruence.
  - by intros z ->.
Qed.

(** An internal node is replaced by a fresh one over updated children. *)
Lemma put_mid_node h h1 y tm kids p r val y' n kids' :
  stored h p (TNode y tm kids) → h1 !! y' = None → 2 * BASE_BLOCK ≤ y' → u64 y' →
  (∀ x, slot n (byte.unsigned x) = addr_of (kids' x)) → (∀ x, stored h1 (p ++ [x]) (kids' x)) →
  (∀ x x' z, mem (kids' x) z → mem (kids' x') z → x = x') → (∀ x, ¬ mem (kids' x) y) →
  (∀ x z, mem (kids' x) z → mem (TNode y tm kids) z ∨ h !! z = None) →
  keeps (TNode y tm kids) h h1 → h1 !! y = h !! y →
  (∀ r', find (TNode y' (term n) kids') p r' =
     if decide (r' = r) then Some val else find (TNode y tm kids) p r') →
  put_mid h (TNode y tm kids) p r val y' (<[y' := NInner n]> h1).
Proof.
  intros ((?&?&n0&Hy&_)&_) Hy' Hlo Hu Hsl Hk Hd Hnot Hm Hkeep Hsame Hf.
  assert (y ≠ y') as Hne by congruence.
  exists (TNode y' (term n) kids'). split_and!; try done.
  - apply stored_node; try done. unfold BASE_BLOCK in Hlo. lia.
  - intros z [->|[x Hz]]; [by eapply keeps_fresh|by eapply Hm].
  - eapply keeps_trans; [done|by apply fresh_subseteq].
  - intros [?|[x Hz]]; [done|by apply (Hnot x)].
  - cbn [addr_of]. rewrite lookup_insert_ne, Hsame, Hy by done. eauto.
Qed.


Lemma node_internal_ok h rest (s : Allocator.t * Backend.t * nat) y n : holds h rest s → h !! y = Some (NInner n) → internal_ok n.
Proof. intros Hh Hy. by apply (nh_nodes _ _ _ _ _ _ _ Hh) in Hy as [? _]. Qed.

Lemma node_leaf_ok h rest (s : Allocator.t * Backend.t * nat) y k v : holds h rest s → h !! y = Some (NLeaf k v) → leaf_ok k v.
Proof. intros Hh Hy. by apply (nh_nodes _ _ _ _ _ _ _ Hh) in Hy as [? _]. Qed.

Lemma put_leaf_spec h rest s y k v p r val :
  holds h rest s → stored h p (TLeaf y k v) → leaf_ok (p ++ r) val →
  ends h rest s
    (if bool_decide (k = p ++ r) then alloc_leaf_cow c (p ++ r) val
     else branch_leaf c k v (p ++ r) val (length p))
    (put_mid h (TLeaf y k v) p r val) (λ h', keeps (TLeaf y k v) h h').
Proof.
  intros Hh Hs Hok. pose proof Hs as (_&Hy&Hp). pose proof (node_leaf_ok _ _ _ _ _ _ Hh Hy).
  eapply (ends_mono _ _ _ _ _ _ _ (grown_tree h p (two_entries k v (p ++ r) val)) _ (λ h', h ⊆ h')).
  - case_bool_decide as Hk.
    + apply ends_alloc_leaf; [done|done| |done]. intros y' ???. subst. by apply grown_single.
    + apply branch_leaf_spec; try done. by exists r.
  - intros y' h'. by apply put_mid_leaf.
  - intros h'. apply keeps_subseteq.
Qed.

Lemma keeps_mono t t' h h' : (∀ z, mem t z → mem t' z) → keeps t h h' → keeps t' h h'.
Proof. intros Hm Hk z nd Hz Hr. apply Hk; auto. Qed.

Lemma put_at_leaf h rest s y k v p r val :
  holds h rest s → stored h p (TLeaf y k v) → leaf_ok (p ++ r) val →
  ends h rest s (put_at c y (p ++ r) val (length p) r) (put_post h (TLeaf y k v) p r val) (keeps (TLeaf y k v) h).
Proof.
  intros Hh Hs Hok. pose proof Hs as (_&Hy&_). destruct r as [|x r]; cbn [put_at].
  all: eapply ends_read; [done|done|]; intros blk [Hk Hd].
  all: eapply ends_lift; [exact Hk|]; cbn [node_kind KIND_LEAF Z.eqb Pos.eqb].
  all: eapply ends_bind; [|intros y' h1 rest1 s1 Hh1 Hm; by apply (ends_put_mid _ _ _ _ (TLeaf y k v))].
  all: eapply ends_lift; [exact Hd|]; by apply put_leaf_spec.
Qed.

(** The child at a byte: a new leaf, or the insertion below it. *)
Lemma put_child_spec h rest s t p x r val m :
  holds h rest s → stored h (p ++ [x]) t → leaf_ok (p ++ x :: r) val →
  (t ≠ TEmpty → ends h rest s m (put_post h t (p ++ [x]) r val) (keeps t h)) →
  ends h rest s (if addr_of t =? 0 then alloc_leaf_cow c (p ++ x :: r) val else m)
    (put_post h t (p ++ [x]) r val) (keeps t h).
Proof.
  intros Hh Hs Hok Hm. destruct (Z.eqb_spec (addr_of t) 0) as [E|E]; [|apply Hm; by intros ->].
  rewrite (addr_zero _ _ _ Hs E). apply ends_alloc_leaf; [done|done| |by apply keeps_subseteq].
  intros y Hy Hlo Hu.
  destruct (grown_leaf h h (p ++ [x]) y (p ++ x :: r) val) as (?&?&?); [done..| |done|].
  { exists r. by rewrite <-app_assoc. }
  exists (TLeaf y (p ++ x :: r) val). split_and!; try done.
  - intros r'. cbn. rewrite <-app_assoc. cbn. repeat case_decide; simplify_eq; try done.
  - intros z ->. by right.
  - by apply keeps_subseteq.
Qed.

Lemma put_at_spec key val r :
  ∀ t p h rest s, holds h rest s → stored h p t → t ≠ TEmpty → key = p ++ r → leaf_ok key val →
  ends h rest s (put_at c (addr_of t) key val (length p) r) (put_post h t p r val) (keeps t h).
Proof.
  induction r as [|x r IH]; intros t p h rest s Hh Hs Hne Hkey Hok; destruct t as [|y k v|y tm kids]; try done.
  1, 3: subst; by apply put_at_leaf.
  all: pose proof Hs as ((_&Hp&n&Hy&Htm&Hsl)&Hkids&Hnot&Hdis); cbn [put_at addr_of].
  all: eapply ends_read; [done|done|]; intros blk [Hk Hd].
  all: eapply ends_lift; [exact Hk|]; cbn [node_kind KIND_INTERNAL KIND_LEAF Z.eqb].
  all: eapply ends_bind; [|intros y' h1 rest1 s1 Hh1 Hm; by apply (ends_put_mid _ _ _ _ (TNode y tm kids))].
  all: eapply ends_lift; [exact Hd|]; pose proof (node_internal_ok _ _ _ _ _ Hh Hy) as Hn.
  - apply ends_alloc_internal; [done|apply set_term_ok; [done|apply Hok]| |by apply keeps_subseteq].
    intros y' ???. eapply (put_mid_node _ _ _ _ kids); try done.
    + intros x z Hz. left. cbn. eauto.
    + by apply keeps_subseteq.
    + intros [|x r']; [by rewrite decide_True|]. by rewrite decide_False.
  - rewrite Hsl. subst key. eapply ends_bind.
    + eapply ends_mono; [eapply (put_child_spec h rest s (kids x) p x r val)|done|].
      * done.
      * done.
      * done.
      * intros Hx. replace (S (length p)) with (length (p ++ [x])) by (rewrite length_app; cbn; lia).
        apply IH; try done. by rewrite <-app_assoc.
      * intros h'. apply keeps_mono. cbn. eauto.
    + intros y1 h1 rest1 s1 Hh1 (t1&<-&Hne1&Hu1&Hs1&Hf1&Hm1&Hk1).
      destruct (upd_child h h1 p y tm kids x t1) as (Hst&Hds&Hny&Hmm&Hkk); [done..|].
      apply ends_alloc_internal; [done|by apply set_slot_ok| |done]. intros y2 ???.
      apply (put_mid_node _ _ _ _ kids _ _ _ _ _ (upd kids x t1)); try done.
      * by apply set_slot_upd; [apply Hn| |].
      * rewrite Hy. apply Hk1; [done|]. by intros Hx%Hnot.
      * intros [|x' r']; cbn [find]; [by rewrite decide_False|]. unfold upd.
        destruct (decide (x' = x)) as [->|Hx]; [|by rewrite decide_False by congruence].
        rewrite Hf1. repeat case_decide; congruence.
Qed.


(** ** Removal *)

Lemma lone_loop_Some i k l j : lone_child_loop i (Some k) l = Some j → j = k ∧ Forall (λ s, s = 0) l.
Proof.
  revert i. induction l as [|s l IH]; intros i; cbn.
  - intros [= ->]. auto.
  - destruct (Z.eqb_spec s 0); cbn; [|done]. intros [-> ?]%IH. auto.
Qed.

Lemma lone_loop_None i l j :
  lone_child_loop i None l = Some j →
  ∃ pre s post, l = pre ++ s :: post ∧ s ≠ 0 ∧ Forall (λ s, s = 0) (pre ++ post) ∧ j = (i + length pre)%nat.
Proof.
  revert i. induction l as [|s l IH]; intros i; cbn; [done|].
  destruct (Z.eqb_spec s 0); cbn.
  - intros (pre&s'&post&->&?&?&->)%IH. exists (s :: pre), s', post. split_and!; [done|done| |cbn; lia].
    by constructor.
  - intros [-> ?]%lone_loop_Some. exists [], s, l. cbn. split_and!; [done..|lia].
Qed.

(** The single child of a node without a value. *)
Lemma lone_child_spec n i :
  length (slots n) = 256%nat → lone_child n = Some i →
  term n = None ∧ ∃ x, Z.of_nat i = byte.unsigned x ∧
    slot n (byte.unsigned x) ≠ 0 ∧ ∀ x', x' ≠ x → slot n (byte.unsigned x') = 0.
Proof.
  intros Hl. unfold lone_child. destruct (term n); [done|].
  intros (pre&s&post&Hs&Hne&Hz&->)%lone_loop_None. split; [done|]. cbn [Nat.add].
  assert (length pre < 256)%nat as Hp by (rewrite Hs, length_app in Hl; cbn in Hl; lia).
  assert (Z.of_nat (length pre) = byte.unsigned (byte.of_Z (Z.of_nat (length pre)))) as Hx
    by (rewrite unsigned_byte; [done|width_lia]).
  exists (byte.of_Z (Z.of_nat (length pre))). rewrite <-Hx. unfold slot. rewrite Hs.
  split_and!; [done|by rewrite Nat2Z.id, list_lookup_middle|].
  intros x' Hx'. pose proof (byte.unsigned_range x').
  destruct ((pre ++ s :: post) !! Z.to_nat (byte.unsigned x')) as [z|] eqn:E; [|done]. cbn.
  rewrite Forall_app, !Forall_forall in Hz. destruct Hz as [Hz1 Hz2].
  apply lookup_app_Some in E as [E|[Hge E]]; [by eapply Hz1, list_elem_of_lookup_2|].
  destruct (Z.to_nat (byte.unsigned x') - length pre)%nat eqn:Hsub; cbn in E.
  - destruct Hx'. rewrite <-(byte_of_unsigned x'). f_equal. lia.
  - by eapply Hz2, list_elem_of_lookup_2.
Qed.

(** The node after the removal: gone, or a fresh tree with the same entries. *)
Definition rebuilt (h : gmap Z node) (p : bytes) (tm : option bytes) (kids : byte → tree)
    (r : RemoveResult) (h' : gmap Z node) : Prop :=
  match r with
  | Absent => False
  | Pruned => h' = h ∧ ∀ r, find (TNode 0 tm kids) p r = None
  | Replaced y => ∃ t', addr_of t' = y ∧ t' ≠ TEmpty ∧ u64 y ∧ stored h' p t' ∧
      (∀ r, find t' p r = find (TNode 0 tm kids) p r) ∧
      (∀ z, mem t' z → (∃ x, mem (kids x) z) ∨ h !! z = None) ∧ h ⊆ h'
  end.

Section rebuild.
Context (h : gmap Z node) (rest : list Block) (s : Allocator.t * Backend.t * nat).
Context (p : bytes) (n : Internal) (kids : byte → tree).
Hypothesis Hh : holds h rest s.
Hypothesis Hn : internal_ok n.
Hypothesis Hp : blen p ≤ MAX_KEY_LEN.
Hypothesis Hsl : ∀ x, slot n (byte.unsigned x) = addr_of (kids x).
Hypothesis Hk : ∀ x, stored h (p ++ [x]) (kids x).
Hypothesis Hd : ∀ x x' z, mem (kids x) z → mem (kids x') z → x = x'.

Lemma rebuild_alloc :
  ends h rest s (alloc_internal_cow c n) (λ y, rebuilt h p (term n) kids (Replaced y)) (λ h', h' = h).
Proof using All.
  apply ends_alloc_internal; [done|done| |done]. intros y Hy Hlo Hu.
  exists (TNode y (term n) kids). split_and!; try done.
  - apply stored_node; try done. unfold BASE_BLOCK in Hlo. lia.
  - intros z [->|Hz]; [by right|by left].
  - by apply fresh_subseteq.
Qed.

Lemma rebuild_rewrite :
  ends h rest s (x ← alloc_internal_cow c n; mret (Replaced x)) (rebuilt h p (term n) kids) (λ h', h' = h).
Proof using All.
  eapply ends_bind; [apply rebuild_alloc|]. intros y h1 rest1 s1 Hh1 Hr. by apply ends_ret.
Qed.

Lemma rebuild_lone x k v :
  term n = None → (∀ x', x' ≠ x → kids x' = TEmpty) → (∃ y, kids x = TLeaf y k v) → leaf_ok k v →
  ends h rest s (x ← alloc_leaf_cow c k v; mret (Replaced x)) (rebuilt h p (term n) kids) (λ h', h' = h).
Proof using All.
  intros Ht Hothers [yx Hx] Hok. pose proof (Hk x) as Hkx. rewrite Hx in Hkx. destruct Hkx as (_&_&Hpre).
  eapply (ends_bind _ _ _ _ _ _ _ _ (λ y, rebuilt h p (term n) kids (Replaced y))).
  - apply ends_alloc_leaf; [done|done| |done]. intros y Hy Hlo Hu.
    destruct (grown_leaf h h p y k v) as (?&?&?); [done..| |done|].
    { destruct Hpre as [q ->]. exists (x :: q). by rewrite <-app_assoc. }
    exists (TLeaf y k v). split_and!; try done.
    + destruct Hpre as [q ->]. intros [|x' r]; cbn [find].
      * rewrite app_nil_r, decide_False; [done|]. intros Heq%(f_equal length).
        rewrite !length_app in Heq. cbn in Heq. lia.
      * destruct (decide (x' = x)) as [->|Hne].
        -- rewrite Hx. cbn [find]. rewrite <-!app_assoc. done.
        -- rewrite Hothers by done. rewrite decide_False; [done|]. rewrite <-app_assoc.
           intros Heq%app_inv_head. injection Heq as ?. congruence.
    + intros z ->. by right.
  - intros y h1 rest1 s1 Hh1 Hr. by apply ends_ret.
Qed.

Lemma rebuild_spec :
  ends h rest s (rebuild_after_remove c n) (rebuilt h p (term n) kids) (λ h', h' = h).
Proof using All.
  unfold rebuild_after_remove. destruct (internal_is_empty n) eqn:He.
  - apply ends_ret; [done|]. split; [done|]. unfold internal_is_empty in He.
    apply andb_true_iff in He as [Ht Hz]. destruct (term n); [done|].
    intros [|x r]; [done|]. cbn. rewrite (addr_zero h (p ++ [x]) (kids x)); [done|done|].
    rewrite <-Hsl. unfold slot. destruct (slots n !! _) as [z|] eqn:E; [|done]. cbn.
    rewrite forallb_forall in Hz. apply Z.eqb_eq, Hz, list_elem_of_In. by eapply list_elem_of_lookup_2.
  - destruct (lone_child n) as [i|] eqn:El; [|apply rebuild_rewrite].
    destruct (lone_child_spec n i) as (Ht&x&Hi&Hne&Hz); [apply Hn|done|].
    rewrite Hi, Hsl. rewrite Hsl in Hne.
    assert (∀ x', x' ≠ x → kids x' = TEmpty) as Hothers.
    { intros x' ?. eapply addr_zero; [apply Hk|]. rewrite <-Hsl. by apply Hz. }
    pose proof (Hk x) as Hkx. destruct (kids x) as [|yx k v|yx tm kids'] eqn:Ex; [done|..]; cbn [addr_of].
    + destruct Hkx as (_&Hy&_). eapply ends_read; [done|done|]. intros blk [Hkind Hdec].
      eapply ends_lift; [exact Hkind|]. cbn [node_kind KIND_LEAF Z.eqb Pos.eqb].
      eapply ends_lift; [exact Hdec|]. cbv beta iota. eapply rebuild_lone; eauto.
      by eapply node_leaf_ok.
    + destruct Hkx as ((_&_&n'&Hy&_)&_). eapply ends_read; [done|done|]. intros blk [Hkind _].
      eapply ends_lift; [exact Hkind|]. apply rebuild_rewrite.
Qed.
End rebuild.

(** The outcome of removing the key [p ++ r] below [t]. *)
Definition remove_post (h : gmap Z node) (t : tree) (p r : bytes) (res : RemoveResult)
    (h' : gmap Z node) : Prop :=
  match res with
  | Absent => h' = h ∧ find t p r = None
  | Pruned => find t p r ≠ None ∧ (∀ r', r' ≠ r → find t p r' = None) ∧ keeps t h h'
  | Replaced y => find t p r ≠ None ∧ ∃ t', addr_of t' = y ∧ t' ≠ TEmpty ∧ u64 y ∧ stored h' p t' ∧
      (∀ r', find t' p r' = if decide (r' = r) then None else find t p r') ∧
      (∀ z, mem t' z → mem t z ∨ h !! z = None) ∧ keeps t h h'
  end.

(** A rebuilt node replaces the old one. *)
Lemma ends_rebuilt h h1 h2 rest s y tm kids p r tm' kids' res :
  let t := TNode y tm kids in
  holds h2 rest s → stored h p t → keeps t h h1 → h1 !! y = h !! y → (∀ x, ¬ mem (kids' x) y) →
  (∀ x z, mem (kids' x) z → mem t z ∨ h !! z = None) →
  (∀ r', find (TNode 0 tm' kids') p r' = if decide (r' = r) then None else find t p r') →
  find t p r ≠ None → rebuilt h1 p tm' kids' res h2 →
  ends h2 rest s (free_node_cow y;; mret res) (remove_post h t p r) (keeps t h).
Proof.
  intros t Hh ((?&?&n&Hy&_)&_) Hk Hsame Hnot Hm Hf Hr Hres.
  assert (mem t y) as Hty by by left.
  assert (h2 !! y = h !! y) as Hy2.
  { destruct res; cbn in Hres; [done| |by destruct Hres as [-> _]].
    destruct Hres as (_&_&_&_&_&_&_&Hsub). rewrite Hy. eapply lookup_weaken; [|exact Hsub]. congruence. }
  eapply (ends_bind _ _ _ _ _ _ _ _ (λ _ h', h' = reclaim fl y h2)).
  { eapply ends_free; [done|rewrite Hy2; exact Hy|done]. }
  intros _ h3 rest3 s3 Hh3 ->. apply ends_ret; [done|].
  destruct res as [|y'|]; cbn [rebuilt remove_post] in Hres |- *; [done|split; [done|]|].
  - destruct Hres as (t'&?&?&?&Hs'&Hf'&Hm'&Hsub). exists t'. split_and!; try done.
    + apply stored_reclaim; [done|]. intros [[x Hx]|Hx]%Hm'; [by apply (Hnot x)|congruence].
    + intros r'. by rewrite Hf', Hf.
    + intros z [[x Hx]|Hx]%Hm'; [by apply (Hm x)|by eapply keeps_fresh].
    + apply keeps_reclaim; [done|]. by eapply keeps_trans.
  - destruct Hres as [-> Hn]. split_and!; [done| |by apply keeps_reclaim].
    intros r' Hne. specialize (Hf r'). rewrite decide_False in Hf by done. by rewrite <-Hf.
Qed.

Lemma remove_at_leaf h rest s y k v p r :
  holds h rest s → stored h p (TLeaf y k v) →
  ends h rest s (remove_at c y (p ++ r) r) (remove_post h (TLeaf y k v) p r) (keeps (TLeaf y k v) h).
Proof.
  intros Hh (_&Hy&_). destruct r as [|x r]; cbn [remove_at].
  all: eapply ends_read; [done|done|]; intros blk [Hk Hd].
  all: eapply ends_lift; [exact Hk|]; cbn [node_kind KIND_LEAF Z.eqb Pos.eqb].
  all: eapply ends_lift; [exact Hd|]; cbv beta iota; case_bool_decide as Hkey;
    [|apply ends_ret; [done|]; cbn; split; [done|]; by rewrite decide_False].
  all: eapply (ends_bind _ _ _ _ _ _ _ _ (λ _ h', h' = reclaim fl y h)); [by eapply ends_free|].
  all: intros _ h1 rest1 s1 Hh1 ->; apply ends_ret; [done|]; cbn [remove_post find].
  all: rewrite decide_True by done; split_and!; [done| |apply keeps_reclaim; [done|by apply keeps_subseteq]].
  all: intros r' Hne; rewrite decide_False; [done|]; rewrite Hkey; intros Heq%app_inv_head; congruence.
Qed.

(** The entries of a node whose child at [x] lost the key [r]. *)
Lemma find_upd y y' tm kids x t1 p r :
  (∀ r', find t1 (p ++ [x]) r' = if decide (r' = r) then None else find (kids x) (p ++ [x]) r') →
  ∀ r', find (TNode y tm (upd kids x t1)) p r' =
    if decide (r' = x :: r) then None else find (TNode y' tm kids) p r'.
Proof.
  intros Hf [|x' r']; cbn [find]; [by rewrite decide_False|]. unfold upd.
  destruct (decide (x' = x)) as [->|Hx]; [|by rewrite decide_False by congruence].
  rewrite Hf. repeat case_decide; congruence.
Qed.

Lemma remove_at_spec key r :
  ∀ t p h rest s, holds h rest s → stored h p t → t ≠ TEmpty → key = p ++ r →
  ends h rest s (remove_at c (addr_of t) key r) (remove_post h t p r) (keeps t h).
Proof.
  induction r as [|x r IH]; intros t p h rest s Hh Hs Hne Hkey; destruct t as [|y k v|y tm kids]; try done.
  1, 3: subst; by apply remove_at_leaf.
  all: pose proof Hs as ((_&Hp&n&Hy&Htm&Hsl)&Hkids&Hnot&Hdis); cbn [remove_at addr_of].
  all: eapply ends_read; [done|done|]; intros blk [Hk Hd].
  all: eapply ends_lift; [exact Hk|]; cbn [node_kind KIND_INTERNAL KIND_LEAF Z.eqb].
  all: eapply ends_lift; [exact Hd|]; pose proof (node_internal_ok _ _ _ _ _ Hh Hy) as Hn.
  - destruct (term n) as [v|] eqn:Et; [|apply ends_ret; [done|]; cbn; by rewrite <-Htm].
    eapply ends_bind.
    { eapply ends_mono; [eapply (rebuild_spec h rest s p (set_term n None) kids); try done|done|].
      - by apply set_term_ok.
      - intros h' ->. by apply keeps_subseteq. }
    intros res h1 rest1 s1 Hh1 Hres.
    eapply (ends_rebuilt h h h1); try done; [by apply keeps_subseteq| | |by cbn; rewrite <-Htm].
    + intros x z Hz. left. cbn. eauto.
    + intros [|x r']; [by rewrite decide_True|]. by rewrite decide_False.
  - rewrite Hsl. destruct (Z.eqb_spec (addr_of (kids x)) 0) as [E|E].
    { apply ends_ret; [done|]. cbn. by rewrite (addr_zero _ _ _ (Hkids x) E). }
    eapply ends_bind.
    { eapply ends_mono; [apply (IH (kids x) (p ++ [x])); try done|done|].
      - intros Hx. by rewrite Hx in E.
      - by rewrite <-app_assoc.
      - intros h'. apply keeps_mono. cbn. eauto. }
    intros res h1 rest1 s1 Hh1 Hres. destruct res as [|y1|]; cbn [remove_post] in Hres.
    + destruct Hres as [-> Hf]. by apply ends_ret.
    + destruct Hres as (Hf&t1&<-&Hne1&Hu1&Hs1&Hf1&Hm1&Hk1).
      destruct (upd_child h h1 p y tm kids x t1) as (Hst&Hds&Hny&Hmm&Hkk); [done..|].
      eapply ends_bind.
      { eapply ends_mono;
          [eapply (rebuild_alloc h1 rest1 s1 p (set_slot n (byte.unsigned x) (addr_of t1)) (upd kids x t1))
          |done|by intros h' ->]; try done; [by apply set_slot_ok|by apply set_slot_upd; [apply Hn| |]]. }
      intros y2 h2 rest2 s2 Hh2 Hres.
      eapply (ends_rebuilt h h1 h2 _ _ _ _ _ _ _ (term n) (upd kids x t1)); try done.
      * rewrite Hy. apply Hk1; [done|]. by intros Hx%Hnot.
      * rewrite Htm. by apply find_upd.
    + destruct Hres as (Hf&Hothers&Hk1).
      destruct (upd_child h h1 p y tm kids x TEmpty) as (Hst&Hds&Hny&Hmm&Hkk); [done..|].
      eapply ends_bind.
      { eapply ends_mono;
          [eapply (rebuild_spec h1 rest1 s1 p (set_slot n (byte.unsigned x) 0) (upd kids x TEmpty))
          |done|by intros h' ->]; try done; [by apply set_slot_ok|by apply set_slot_upd; [apply Hn| |]]. }
      intros res h2 rest2 s2 Hh2 Hres.
      eapply (ends_rebuilt h h1 h2 _ _ _ _ _ _ _ (term n) (upd kids x TEmpty)); try done.
      * rewrite Hy. apply Hk1; [done|]. by intros Hx%Hnot.
      * rewrite Htm. apply find_upd. intros r'. cbn. case_decide; [done|]. by rewrite Hothers.
Qed.

End updates.
End trees.
