(* ===== verification/TrieScan.v ===== *)
(** * Traversals of the catalog trie

    [visit_nodes] and [scan_prefix] walk the trie with an explicit stack, a
    depth bound and a visit budget. On a stored [tree] they enumerate its nodes
    and its entries; on any store at all they stop. *)

From S2P Require Import Prelude.
From S2P Require Import Backend.
From S2P Require Import Crypto.
From S2P Require Import Alloc.
From S2P Require Import Trie.
From S2P Require Import NodeHeap.
From S2P Require Import TrieMap.

(** ** Enumerations of a tree *)

(** The addresses of the nodes in preorder. *)
Fixpoint nodes (t : tree) : list Z :=
  match t with
  | TEmpty => []
  | TLeaf y _ _ => [y]
  | TNode y _ kids => y :: (all_bytes ≫= λ x, nodes (kids x))
  end.

(** The children that a scan of [prefix] enters below the key [p]. *)
Definition branches (prefix p : bytes) : list byte :=
  match prefix !! length p with Some x => [x] | None => all_bytes end.

(** The entries that a scan emits, in order, and the nodes that it enters. *)
Fixpoint emits (prefix : bytes) (t : tree) (p : bytes) : list (bytes * bytes) :=
  match t with
  | TEmpty => []
  | TLeaf _ k v => if decide (prefix `prefix_of` k) then [(k, v)] else []
  | TNode _ tm kids =>
      (if prefix !! length p is Some _ then [] else if tm is Some v then [(p, v)] else []) ++
      (branches prefix p ≫= λ x, emits prefix (kids x) (p ++ [x]))
  end.
Fixpoint entered (prefix : bytes) (t : tree) (p : bytes) : list Z :=
  match t with
  | TEmpty => []
  | TLeaf y _ _ => [y]
  | TNode y _ kids => y :: (branches prefix p ≫= λ x, entered prefix (kids x) (p ++ [x]))
  end.

Lemma elem_of_nodes t z : z ∈ nodes t ↔ mem t z.
Proof.
  induction t as [|y k v|y tm kids IH]; cbn [nodes mem]; [apply elem_of_nil|apply list_elem_of_singleton|].
  rewrite elem_of_cons, list_elem_of_bind. setoid_rewrite IH. split.
  - intros [->|(x&?&_)]; [by left|right; eauto].
  - intros [->|[x ?]]; [by left|right; eauto using elem_of_all_bytes].
Qed.

(** The bytes ascend. *)
Lemma all_bytes_sorted : StronglySorted (λ x x' : byte, byte.unsigned x < byte.unsigned x') all_bytes.
Proof.
  unfold all_bytes. assert (∀ k i, (i + k ≤ 256)%nat →
    StronglySorted (λ x x' : byte, byte.unsigned x < byte.unsigned x') (nth_byte <$> seq i k)) as Hk.
  { induction k as [|k IH]; intros i Hi; [constructor|]. constructor; [by apply IH; lia|].
    apply Forall_fmap, Forall_forall. intros j Hj%elem_of_seq. unfold compose, nth_byte.
    rewrite !unsigned_byte by width_lia. lia. }
  apply Hk. lia.
Qed.

Lemma sorted_NoDup {A} (R : relation A) l : (∀ x, ¬ R x x) → StronglySorted R l → NoDup l.
Proof.
  intros HR. induction 1 as [|x l Hl IH Hx]; constructor; [|done]. intros Hin.
  rewrite Forall_forall in Hx. by eapply HR, Hx.
Qed.

Lemma NoDup_all_bytes : NoDup all_bytes.
Proof. eapply sorted_NoDup, all_bytes_sorted. intros x. cbn. lia. Qed.

Lemma NoDup_bind_disjoint {A} (f : byte → list A) l :
  NoDup l → (∀ x, NoDup (f x)) → (∀ x x' z, z ∈ f x → z ∈ f x' → x = x') → NoDup (l ≫= f).
Proof.
  intros Hl Hf Hd. induction Hl as [|x l Hx Hl IH]; cbn; [constructor|].
  apply NoDup_app. split_and!; [done| |done]. intros z Hz (x'&Hz'&Hin)%list_elem_of_bind.
  by rewrite (Hd x x' z Hz Hz') in Hx.
Qed.

Lemma NoDup_nodes h p t : stored h p t → NoDup (nodes t).
Proof.
  revert p. induction t as [|y k v|y tm kids IH]; intros p; cbn [nodes stored]; [constructor|intros; apply NoDup_singleton|].
  intros (_&Hk&Hnot&Hd). constructor.
  - intros (x&Hx%elem_of_nodes&_)%list_elem_of_bind. by apply (Hnot x).
  - apply NoDup_bind_disjoint; [apply NoDup_all_bytes|eauto|].
    intros x x' z Hx%elem_of_nodes Hx'%elem_of_nodes. by eapply Hd.
Qed.

Lemma entered_sublist prefix t p : entered prefix t p `sublist_of` nodes t.
Proof.
  revert p. induction t as [|y k v|y tm kids IH]; intros p; cbn [nodes entered]; [done..|].
  apply sublist_skip. unfold branches.
  assert (∀ x, x ∈ all_bytes) as Hall by apply elem_of_all_bytes. revert Hall. generalize all_bytes. intros l Hall.
  destruct (prefix !! length p) as [x|].
  - destruct (list_elem_of_split _ _ (Hall x)) as (l1&l2&->). rewrite bind_app. cbn. rewrite app_nil_r.
    by apply sublist_inserts_l, sublist_inserts_r.
  - clear Hall. induction l as [|x l IHl]; cbn; [done|]. by apply sublist_app.
Qed.

(** ** Slots as children *)

Lemma slots_children n : length (slots n) = 256%nat → slots n = (λ x, slot n (byte.unsigned x)) <$> all_bytes.
Proof.
  intros Hl. apply list_eq_same_length with 256%nat; [by rewrite length_fmap|done|].
  intros i z z' Hi Hz Hz'. unfold all_bytes in Hz'. rewrite <-list_fmap_compose, list_lookup_fmap in Hz'.
  rewrite lookup_seq_lt in Hz' by done. cbn in Hz'. injection Hz' as <-.
  unfold slot, nth_byte. rewrite unsigned_byte, Nat2Z.id, Hz by width_lia. done.
Qed.

Lemma occupied_seq (g : nat → Z) i k :
  occupied i (g <$> seq i k) = (λ j, (nth_byte j, g j)) <$> filter (λ j, g j ≠ 0) (seq i k).
Proof.
  revert i. induction k as [|k IH]; intros i; [done|].
  change (seq i (S k)) with (i :: seq (S i) k). rewrite fmap_cons. cbn [occupied]. rewrite IH.
  destruct (Z.eqb_spec (g i) 0) as [E|E].
  - by rewrite filter_cons_False by tauto.
  - by rewrite filter_cons_True by done.
Qed.

Lemma list_filter_fmap {A B} (f : A → B) (P : B → Prop) `{!∀ y, Decision (P y)} (l : list A) :
  filter P (f <$> l) = f <$> filter (λ x, P (f x)) l.
Proof.
  induction l as [|x l IH]; [done|]. rewrite fmap_cons, !filter_cons, IH. by case_decide.
Qed.

Lemma occupied_children n :
  length (slots n) = 256%nat →
  occupied 0 (slots n) =
    (λ x, (x, slot n (byte.unsigned x))) <$> filter (λ x, slot n (byte.unsigned x) ≠ 0) all_bytes.
Proof.
  intros Hl. rewrite (slots_children n Hl) at 1. unfold all_bytes. rewrite <-list_fmap_compose, occupied_seq.
  rewrite list_filter_fmap, <-list_fmap_compose. done.
Qed.

(** ** Runs on a stored tree *)

Section runs.
Context `{!Crc32, !Hkdf, !AesGcm, !Entropy} (c : NodeCrypto) (b : Backend.t) (h : gmap Z node).
Hypothesis Hread : all_readable c b h.
Hypothesis Hok : ∀ y nd, h !! y = Some nd → node_ok nd.

(** The key that reaches a node is no longer than a key. *)
Lemma stored_depth p t : stored h p t → t ≠ TEmpty → blen p ≤ MAX_KEY_LEN.
Proof using Hok.
  destruct t as [|y k v|y tm kids]; cbn [stored]; [done|..].
  - intros (_&Hy%Hok&q&->) _. destruct Hy as [Hy _]. rewrite blen_app in Hy. pose proof (blen_nonneg q). lia.
  - by intros ((_&?&_)&_) _.
Qed.

Lemma live_kid p x t : stored h (p ++ [x]) t → addr_of t ≠ 0 → t ≠ TEmpty.
Proof. by intros _ Hne ->. Qed.

Definition kid_addrs (t : tree) : list Z :=
  match t with
  | TNode _ _ kids => (λ x, addr_of (kids x)) <$> filter (λ x, addr_of (kids x) ≠ 0) all_bytes
  | _ => []
  end.

Lemma visit_enter_spec p t visited stack :
  stored h p t → t ≠ TEmpty → visited < TRIE_NODE_BUDGET → blen stack = blen p →
  visit_enter b c visited stack (addr_of t) = Ok (visited + 1, kid_addrs t :: stack).
Proof using Hread Hok.
  intros Hs Hne Hv Hst. pose proof (stored_depth p t Hs Hne) as Hd. unfold visit_enter. cbv zeta.
  replace (TRIE_NODE_BUDGET <? visited + 1) with false by lia.
  replace (TRIE_MAX_DEPTH <=? blen stack) with false by (unfold TRIE_MAX_DEPTH; lia).
  destruct t as [|y k v|y tm kids]; [done|..].
  - destruct Hs as (_&Hy&_). destruct (Hread _ _ Hy) as (blk&Hr&Hk&_). cbn [addr_of].
    rewrite Hr. cbn [mbind res_bind]. by rewrite Hk.
  - destruct Hs as ((_&_&n&Hy&_&Hsl)&_). destruct (Hread _ _ Hy) as (blk&Hr&Hk&Hdec). cbn [addr_of].
    rewrite Hr. cbn [mbind res_bind]. rewrite Hk. cbn [mbind res_bind node_kind].
    change (KIND_INTERNAL =? KIND_INTERNAL) with true. cbv iota. rewrite Hdec. cbn [mbind res_bind].
    do 3 f_equal. destruct (Hok _ _ Hy) as (Hl&_&_).
    rewrite (slots_children n Hl), list_filter_fmap. cbn [kid_addrs].
    rewrite (list_filter_iff _ (λ x, addr_of (kids x) ≠ 0)) by (intros x; by rewrite Hsl).
    apply list_fmap_ext. intros. apply Hsl.
Qed.

(** A node takes one round to enter and one to leave. *)
Lemma visit_kids p kids xs stack :
  (∀ x, stored h (p ++ [x]) (kids x)) → blen stack = blen p →
  (∀ x v f top seen, x ∈ xs → kids x ≠ TEmpty → 0 ≤ v → v + blen (nodes (kids x)) ≤ TRIE_NODE_BUDGET →
     visit_loop (2 * length (nodes (kids x)) + f) b c v ((addr_of (kids x) :: top) :: stack) seen =
     visit_loop f b c (v + blen (nodes (kids x))) (top :: stack) (rev (nodes (kids x)) ++ seen)) →
  ∀ v f seen, 0 ≤ v → v + blen (xs ≫= λ x, nodes (kids x)) ≤ TRIE_NODE_BUDGET →
  visit_loop (2 * length (xs ≫= λ x, nodes (kids x)) + f) b c v
    (((λ x, addr_of (kids x)) <$> filter (λ x, addr_of (kids x) ≠ 0) xs) :: stack) seen =
  visit_loop f b c (v + blen (xs ≫= λ x, nodes (kids x))) ([] :: stack)
    (rev (xs ≫= λ x, nodes (kids x)) ++ seen).
Proof using Type.
  intros Hk Hst. induction xs as [|x xs IH]; intros Hx v f seen Hv Hb.
  { cbn. by rewrite Z.add_0_r. }
  rewrite bind_cons in *. rewrite blen_app in *. rewrite length_app, rev_app_distr, filter_cons, <-app_assoc.
  pose proof (blen_nonneg (nodes (kids x))).
  case_decide as E.
  - rewrite fmap_cons. replace (2 * _ + f)%nat with
      (2 * length (nodes (kids x)) + (2 * length (xs ≫= λ x, nodes (kids x)) + f))%nat by lia.
    rewrite Hx; [|by left|by intros Ex; rewrite Ex in E|done|pose proof (blen_nonneg (xs ≫= λ x, nodes (kids x))); lia].
    rewrite IH; [by rewrite Z.add_assoc| |lia|lia]. intros x' **. apply Hx; [by right|done..].
  - rewrite (addr_zero _ _ _ (Hk x) E) in Hb |- *. cbn [nodes length rev app Nat.add] in *.
    change (blen []) with 0 in *. rewrite Z.add_0_l in *.
    apply IH; [intros x' **; apply Hx; [by right|done..]|done|done].
Qed.

Lemma visit_sub t :
  ∀ p v f top stack seen, stored h p t → t ≠ TEmpty → blen (top :: stack) = blen p →
  0 ≤ v → v + blen (nodes t) ≤ TRIE_NODE_BUDGET →
  visit_loop (2 * length (nodes t) + f) b c v ((addr_of t :: top) :: stack) seen =
  visit_loop f b c (v + blen (nodes t)) (top :: stack) (rev (nodes t) ++ seen).
Proof using Hread Hok.
  induction t as [|y k v0|y tm kids IH]; intros p v f top stack seen Hs Hne Hst Hv Hb; [done|..].
  - change (2 * length (nodes (TLeaf y k v0)) + f)%nat with (S (S f)). cbn [visit_loop].
    change (blen (nodes (TLeaf y k v0))) with 1 in *. by rewrite (visit_enter_spec p) by (done || lia).
  - cbn [nodes] in *. rewrite blen_cons in *. set (ns := all_bytes ≫= λ x, nodes (kids x)) in *.
    pose proof (blen_nonneg ns).
    replace (2 * length (y :: ns) + f)%nat with (S (2 * length ns + S f)) by (cbn [length]; lia).
    cbn [visit_loop]. rewrite (visit_enter_spec p) by (done || lia). cbn [kid_addrs].
    destruct Hs as (_&Hk&_). unfold ns. rewrite (visit_kids p kids).
    + fold ns. cbn [visit_loop rev]. rewrite <-app_assoc. cbn. f_equal. lia.
    + done.
    + done.
    + intros x v' f' top' seen' _ Hx Hv' Hb'. apply (IH x (p ++ [x])); try done.
      rewrite (blen_cons top'), Hst, blen_app. change (blen [x]) with 1. lia.
    + lia.
    + fold ns. lia.
Qed.

Lemma traversal_fuel n k : Z.of_nat n ≤ TRIE_NODE_BUDGET → (k ≤ 4)%nat → ∃ f, TRAVERSAL_FUEL = (2 * n + (k + f))%nat.
Proof using Type. intros Hn Hk. exists (TRAVERSAL_FUEL - 2 * n - k)%nat. unfold TRAVERSAL_FUEL. lia. Qed.

Lemma visit_nodes_run t :
  stored h [] t → t ≠ TEmpty → blen (nodes t) ≤ TRIE_NODE_BUDGET →
  visit_nodes b (addr_of t) c = Some (Ok (rev (nodes t))).
Proof using Hread Hok.
  intros Hs Hne Hb. unfold visit_nodes.
  destruct (Z.eqb_spec (addr_of t) 0) as [E|_]; [by apply (addr_zero _ _ _ Hs) in E|].
  rewrite (visit_enter_spec []) by done. rewrite Z.add_0_l.
  destruct (traversal_fuel (length (nodes t)) 4 Hb ltac:(lia)) as [f ->].
  destruct t as [|y k v|y tm kids]; [done| |].
  - change (2 * length (nodes (TLeaf y k v)) + (4 + f))%nat with (S (S (4 + f))). done.
  - cbn [kid_addrs nodes addr_of] in *. rewrite blen_cons in Hb. set (ns := all_bytes ≫= λ x, nodes (kids x)) in *.
    replace (2 * length (y :: ns) + (4 + f))%nat with (2 * length ns + S (S (4 + f)))%nat by (cbn [length]; lia).
    destruct Hs as (_&Hk&_). unfold ns. rewrite (visit_kids [] kids); [done|done|done| |lia|fold ns; lia].
    intros x v' f' top' seen' _ Hx Hv' Hb'. apply (visit_sub (kids x) [x]); try done. apply Hk.
Qed.

(** ** Prefix scans *)

(** The entries of one node. *)
Definition own (prefix : bytes) (t : tree) (p : bytes) : list (bytes * bytes) :=
  match t with
  | TEmpty => []
  | TLeaf _ k v => if decide (prefix `prefix_of` k) then [(k, v)] else []
  | TNode _ tm _ => if prefix !! length p is Some _ then [] else if tm is Some v then [(p, v)] else []
  end.
Definition kids_of (t : tree) : byte → tree := match t with TNode _ _ kids => kids | _ => λ _, TEmpty end.
Definition next (prefix : bytes) (t : tree) (p : bytes) : list byte :=
  match t with TNode _ _ _ => branches prefix p | _ => [] end.

Lemma emits_own prefix t p :
  emits prefix t p = own prefix t p ++ (next prefix t p ≫= λ x, emits prefix (kids_of t x) (p ++ [x])).
Proof using Type. destruct t; cbn [emits own next kids_of]; by rewrite ?app_nil_r. Qed.

Lemma entered_own prefix t p :
  t ≠ TEmpty →
  entered prefix t p = addr_of t :: (next prefix t p ≫= λ x, entered prefix (kids_of t x) (p ++ [x])).
Proof using Type. by destruct t. Qed.

Lemma prefix_test (prefix k : bytes) :
  (blen prefix <=? blen k) && bool_decide (take (length prefix) k = prefix) = bool_decide (prefix `prefix_of` k).
Proof using Type.
  apply eq_bool_prop_intro. rewrite andb_True, !Is_true_true, Z.leb_le, !bool_decide_eq_true. split.
  - intros [_ <-]. exists (drop (length prefix) k). by rewrite take_drop.
  - intros [q ->]. rewrite blen_app, take_app_length. split; [|done]. pose proof (blen_nonneg q). lia.
Qed.

Definition kid_entries (prefix : bytes) (t : tree) (p : bytes) : list (byte * Z) :=
  (λ x, (x, addr_of (kids_of t x))) <$> filter (λ x, addr_of (kids_of t x) ≠ 0) (next prefix t p).

Lemma scan_enter_spec prefix t p :
  stored h p t → t ≠ TEmpty →
  scan_enter b c prefix (addr_of t) (blen p) p = Ok (own prefix t p, kid_entries prefix t p).
Proof using Hread Hok.
  intros Hs Hne. unfold scan_enter, kid_entries. destruct t as [|y k v|y tm kids]; [done|..].
  - destruct Hs as (_&Hy&_). destruct (Hread _ _ Hy) as (blk&Hr&Hk&Hd). cbn [addr_of].
    rewrite Hr. cbn [mbind res_bind]. rewrite Hk. cbn. rewrite Hd. cbn. rewrite prefix_test.
    by rewrite decide_bool_decide.
  - destruct Hs as ((_&_&n&Hy&<-&Hsl)&_). destruct (Hread _ _ Hy) as (blk&Hr&Hk&Hd). cbn [addr_of].
    rewrite Hr. cbn [mbind res_bind]. rewrite Hk. cbn [mbind res_bind node_kind].
    change (KIND_INTERNAL =? KIND_LEAF) with false. cbv iota. rewrite Hd. cbn [mbind res_bind own next kids_of].
    unfold blen, branches. rewrite Nat2Z.id. destruct (prefix !! length p) as [x|].
    + rewrite Hsl. unfold filter. cbn [list_filter]. destruct (Z.eqb_spec (addr_of (kids x)) 0); cbn;
        by case_decide.
    + destruct (Hok _ _ Hy) as (Hl&_&_). rewrite (occupied_children n Hl).
      rewrite (list_filter_iff _ (λ x, addr_of (kids x) ≠ 0)) by (intros x; by rewrite Hsl).
      do 2 f_equal. apply list_fmap_ext. intros. by rewrite Hsl.
Qed.

Section scan.
Context (prefix : bytes).

(** Entering the children [xs] of a node and leaving them again. *)
Lemma scan_kids (kids : byte → tree) p xs :
  (∀ x, stored h (p ++ [x]) (kids x)) →
  (∀ x v f st out, kids x ≠ TEmpty → 0 ≤ v →
     v + blen (entered prefix (kids x) (p ++ [x])) ≤ TRIE_NODE_BUDGET →
     scan_loop (2 * length (entered prefix (kids x) (p ++ [x])) + f) b c prefix v p
       (Enter (addr_of (kids x)) (blen p + 1) (Some x) :: st) out =
     scan_loop f b c prefix (v + blen (entered prefix (kids x) (p ++ [x]))) p st
       (out ++ emits prefix (kids x) (p ++ [x]))) →
  ∀ v f st out, 0 ≤ v → v + blen (xs ≫= λ x, entered prefix (kids x) (p ++ [x])) ≤ TRIE_NODE_BUDGET →
  scan_loop (2 * length (xs ≫= λ x, entered prefix (kids x) (p ++ [x])) + f) b c prefix v p
    (((λ k : byte * Z, Enter k.2 (blen p + 1) (Some k.1)) <$>
      ((λ x, (x, addr_of (kids x))) <$> filter (λ x, addr_of (kids x) ≠ 0) xs)) ++ st) out =
  scan_loop f b c prefix (v + blen (xs ≫= λ x, entered prefix (kids x) (p ++ [x]))) p st
    (out ++ (xs ≫= λ x, emits prefix (kids x) (p ++ [x]))).
Proof using Type.
  intros Hk Hsub. induction xs as [|x xs IH]; intros v f st out Hv Hb.
  { cbn. by rewrite Z.add_0_r, app_nil_r. }
  rewrite !bind_cons in *. rewrite blen_app in *. rewrite length_app, filter_cons.
  set (es := xs ≫= λ x, entered prefix (kids x) (p ++ [x])) in *. set (e := entered prefix (kids x) _) in *.
  pose proof (blen_nonneg e). pose proof (blen_nonneg es).
  case_decide as E.
  - rewrite !fmap_cons. cbn [app fst snd].
    replace (2 * (length e + length es) + f)%nat with (2 * length e + (2 * length es + f))%nat by lia.
    unfold e. rewrite Hsub; [|by intros Ex; rewrite Ex in E|done|fold e; lia]. fold e.
    rewrite IH by lia. by rewrite Z.add_assoc, <-app_assoc.
  - unfold e in *. rewrite (addr_zero _ _ _ (Hk x) E) in *. cbn [entered emits length app Nat.add] in *.
    change (blen []) with 0 in *. rewrite Z.add_0_l in *. by apply IH.
Qed.

(** One entered node. *)
Lemma scan_step t p byte v f st out :
  let q := p ++ option_list byte in
  stored h q t → t ≠ TEmpty → v < TRIE_NODE_BUDGET →
  scan_loop (S f) b c prefix v p (Enter (addr_of t) (blen q) byte :: st) out =
  scan_loop f b c prefix (v + 1) q
    (((λ k : Init.Byte.byte * Z, Enter k.2 (blen q + 1) (Some k.1)) <$> kid_entries prefix t q) ++
     (if byte is Some _ then Pop :: st else st)) (out ++ own prefix t q).
Proof using Hread Hok.
  intros q Hs Hne Hv. pose proof (stored_depth _ _ Hs Hne). cbn [scan_loop].
  replace (TRIE_NODE_BUDGET <? v + 1) with false by lia.
  replace (TRIE_MAX_DEPTH <? blen q) with false by (unfold TRIE_MAX_DEPTH; lia).
  pose proof (scan_enter_spec prefix t q Hs Hne) as He. subst q.
  unfold option_list in *. destruct byte; cbn [option_rect] in *; rewrite ?app_nil_r in *; by rewrite He.
Qed.

Lemma scan_sub t :
  ∀ p x v f st out, stored h (p ++ [x]) t → t ≠ TEmpty → 0 ≤ v →
  v + blen (entered prefix t (p ++ [x])) ≤ TRIE_NODE_BUDGET →
  scan_loop (2 * length (entered prefix t (p ++ [x])) + f) b c prefix v p
    (Enter (addr_of t) (blen p + 1) (Some x) :: st) out =
  scan_loop f b c prefix (v + blen (entered prefix t (p ++ [x]))) p st (out ++ emits prefix t (p ++ [x])).
Proof using Hread Hok.
  induction t as [|y k v0|y tm kids IH]; intros p x v f st out Hs Hne Hv Hb; [done|..].
  all: replace (blen p + 1) with (blen (p ++ [x])) by (rewrite blen_app; done).
  all: rewrite emits_own; rewrite entered_own, blen_cons in * by done; cbn [next kids_of] in *.
  - change (2 * length _ + f)%nat with (S (S f)). change (blen ([] ≫= _)) with 0 in *.
    rewrite (scan_step _ p (Some x)) by (done || lia). cbn. by rewrite removelast_last, app_nil_r.
  - set (es := branches _ _ ≫= _) in *. pose proof (blen_nonneg es).
    cbn [length]. replace (2 * S (length es) + f)%nat with (S (2 * length es + S f)) by lia.
    rewrite (scan_step _ p (Some x)) by (done || lia). unfold kid_entries. change (option_list (Some x)) with [x]. cbn [next kids_of].
    destruct Hs as (_&Hk&_). unfold es. rewrite (scan_kids kids); [|done| |lia|fold es; lia].
    + fold es. cbn [scan_loop]. rewrite removelast_last, <-app_assoc. f_equal. lia.
    + intros. by apply IH.
Qed.

Lemma scan_prefix_run t :
  stored h [] t → t ≠ TEmpty → blen (nodes t) ≤ TRIE_NODE_BUDGET →
  scan_prefix (mkTrie (addr_of t) c) b prefix = Some (Ok (emits prefix t [])).
Proof using Hread Hok.
  intros Hs Hne Hb. unfold scan_prefix. cbn [root crypto].
  assert (blen (entered prefix t []) ≤ TRIE_NODE_BUDGET) as Hb'.
  { pose proof (sublist_length _ _ (entered_sublist prefix t [])). unfold blen in *. lia. }
  destruct (traversal_fuel (length (entered prefix t [])) 4 Hb' ltac:(lia)) as [f ->].
  rewrite emits_own. rewrite entered_own, blen_cons in * by done.
  set (es := next _ _ _ ≫= _) in *. pose proof (blen_nonneg es).
  cbn [length]. replace (2 * S (length es) + (4 + f))%nat with (S (2 * length es + S (4 + f))) by lia.
  rewrite (scan_step t [] None) by done. unfold kid_entries.
  change ([] ++ option_list None) with (@nil byte). unfold es.
  rewrite (scan_kids (kids_of t) []).
  - done.
  - destruct t as [|y k v|y tm kids]; [done|by intros x|apply Hs].
  - intros x v f' st out Hx Hv Hbx. destruct t as [|y k v0|y tm kids]; [done..|].
    apply (scan_sub _ []); try done. apply Hs.
  - lia.
  - fold es. lia.
Qed.

End scan.
End runs.

(** ** What a scan emits *)

Lemma compat_cases (prefix p : bytes) :
  p `prefix_of` prefix ∨ prefix `prefix_of` p →
  match prefix !! length p with
  | Some x => ∃ q, prefix = p ++ x :: q
  | None => prefix `prefix_of` p
  end.
Proof.
  intros Hc. destruct (prefix !! length p) as [x|] eqn:E.
  - assert (p `prefix_of` prefix) as [q ->].
    { destruct Hc as [?|[q ->]]; [done|]. apply lookup_lt_Some in E. rewrite length_app in E. lia. }
    rewrite lookup_app_r in E by lia. rewrite Nat.sub_diag in E.
    destruct q as [|x' q]; [done|]. injection E as ->. by exists q.
  - destruct Hc as [[q ->]|?]; [|done]. apply lookup_ge_None in E. rewrite length_app in E.
    destruct q as [|? q]; [by rewrite app_nil_r|]. cbn in E. lia.
Qed.

Lemma emits_spec h prefix t :
  ∀ p k v, stored h p t → p `prefix_of` prefix ∨ prefix `prefix_of` p →
  (k, v) ∈ emits prefix t p ↔ prefix `prefix_of` k ∧ ∃ r, k = p ++ r ∧ find t p r = Some v.
Proof.
  induction t as [|y k0 v0|y tm kids IH]; intros p k v Hs Hc; cbn [emits find].
  - split; [by intros ?%elem_of_nil|by intros (_&r&_&?)].
  - destruct Hs as (_&_&q&->). case_decide as Hp.
    + rewrite list_elem_of_singleton. split.
      * intros [= -> ->]. split; [done|]. exists q. by rewrite decide_True.
      * intros (_&r&->&Hf). case_decide as E; [|done]. injection Hf as ->. by rewrite E.
    + split; [by intros ?%elem_of_nil|]. intros (Hk&r&->&Hf). case_decide as E; [|done]. by rewrite <-E in Hk.
  - destruct Hs as (_&Hk&_). pose proof (compat_cases prefix p Hc) as Hcc. unfold branches.
    destruct (prefix !! length p) as [x|].
    + cbn. rewrite app_nil_r. destruct Hcc as [q ->].
      rewrite IH; [|done|left; exists q; by rewrite <-app_assoc]. split; intros (Hpre&r&->&Hf); (split; [done|]).
      * exists (x :: r). by rewrite <-app_assoc.
      * destruct Hpre as [q' Hq]. rewrite <-app_assoc in Hq. apply app_inv_head in Hq as ->.
        exists (q ++ q'). by rewrite <-app_assoc.
    + rewrite elem_of_app, list_elem_of_bind. setoid_rewrite IH; [|done|right; by apply prefix_app_r]. split.
      * intros [Hin|(x&(Hpre&r&->&Hf)&_)].
        -- destruct tm as [v'|]; [|by apply elem_of_nil in Hin].
           apply list_elem_of_singleton in Hin as [= -> ->]. split; [done|]. exists []. by rewrite app_nil_r.
        -- split; [done|]. exists (x :: r). by rewrite <-app_assoc.
      * intros (Hpre&r&->&Hf). destruct r as [|x r].
        -- left. rewrite Hf, app_nil_r. by left.
        -- right. exists x. split; [|apply elem_of_all_bytes]. split; [done|]. exists r. by rewrite <-app_assoc.
Qed.

(** Lexicographic order of byte strings. *)
Fixpoint key_lt (k1 k2 : bytes) : Prop :=
  match k1, k2 with
  | [], _ :: _ => True
  | x :: k1', x' :: k2' => byte.unsigned x < byte.unsigned x' ∨ x = x' ∧ key_lt k1' k2'
  | _, [] => False
  end.

Lemma key_lt_app p k1 k2 : key_lt k1 k2 → key_lt (p ++ k1) (p ++ k2).
Proof. induction p as [|x p IH]; cbn; [done|]. right. auto. Qed.

Lemma emits_prefix h prefix t : ∀ p k v, stored h p t → (k, v) ∈ emits prefix t p → p `prefix_of` k.
Proof.
  induction t as [|y k0 v0|y tm kids IH]; intros p k v Hs; cbn [emits]; [by intros ?%elem_of_nil|..].
  - case_decide; [|by intros ?%elem_of_nil]. intros [= -> _]%list_elem_of_singleton. apply Hs.
  - rewrite elem_of_app, list_elem_of_bind. intros [Hin|(x&Hin&_)].
    + repeat case_match; try by apply elem_of_nil in Hin. by apply list_elem_of_singleton in Hin as [= -> _].
    + apply IH in Hin; [|apply Hs]. etrans; [|done]. by apply prefix_app_r.
Qed.

Abbreviation entry_lt := (λ e e' : bytes * bytes, key_lt (fst e) (fst e')).

Lemma sorted_bind {A B} (R : relation A) (S : relation B) (f : A → list B) l :
  StronglySorted R l → (∀ x, StronglySorted S (f x)) →
  (∀ x x' y y', R x x' → y ∈ f x → y' ∈ f x' → S y y') → StronglySorted S (l ≫= f).
Proof.
  intros Hl Hf HR. induction Hl as [|x l Hl IH Hx]; cbn; [constructor|].
  apply StronglySorted_app_2; [|done|done]. intros y y' Hy (x'&Hy'&Hin)%list_elem_of_bind.
  rewrite Forall_forall in Hx. eauto.
Qed.

Lemma emits_sorted h prefix t : ∀ p, stored h p t → StronglySorted entry_lt (emits prefix t p).
Proof.
  induction t as [|y k0 v0|y tm kids IH]; intros p Hs; cbn [emits]; [constructor|..].
  - case_decide; repeat constructor.
  - destruct Hs as (_&Hk&_). apply StronglySorted_app_2.
    + intros [k v] [k' v'] Hin (x&Hin'&_)%list_elem_of_bind. cbn.
      apply (emits_prefix h) in Hin' as [q ->]; [|done].
      repeat case_match; try by apply elem_of_nil in Hin. apply list_elem_of_singleton in Hin as [= -> _].
      rewrite <-app_assoc. rewrite <-(app_nil_r p) at 1. by apply key_lt_app.
    + repeat case_match; repeat constructor.
    + eapply sorted_bind; [|eauto|].
      * unfold branches. case_match; [repeat constructor|apply all_bytes_sorted].
      * intros x x' [k v] [k' v'] Hx Hin Hin'. cbn.
        apply (emits_prefix h) in Hin as [q ->]; [|done]. apply (emits_prefix h) in Hin' as [q' ->]; [|done].
        rewrite <-!app_assoc. apply key_lt_app. cbn. by left.
Qed.

(** ** Termination on any store *)

Section termination.
Context `{!Crc32, !Hkdf, !AesGcm, !Entropy} (b : Backend.t) (c : NodeCrypto).

Lemma visit_enter_shape v stack x v' stack' :
  visit_enter b c v stack x = Ok (v', stack') → v' = v + 1 ∧ v' ≤ TRIE_NODE_BUDGET ∧ ∃ kids, stack' = kids :: stack.
Proof.
  unfold visit_enter. cbv zeta. destruct (Z.ltb_spec TRIE_NODE_BUDGET (v + 1)); [done|].
  case_match; [done|]. intros (blk&_&Hi)%bind_ok. apply bind_ok in Hi as (kind&_&Hi).
  apply bind_ok in Hi as (kids&_&[= <- <-]). eauto with lia.
Qed.

(** Each node of the budget is entered once and left once. *)
Lemma visit_loop_total fuel : ∀ v stack seen,
  v ≤ TRIE_NODE_BUDGET → 2 * (TRIE_NODE_BUDGET - v) + blen stack < Z.of_nat fuel →
  is_Some (visit_loop fuel b c v stack seen).
Proof.
  induction fuel as [|fuel IH]; intros v stack seen Hv Hf; [pose proof (blen_nonneg stack); lia|].
  cbn [visit_loop]. destruct stack as [|[|x top] stack]; [eauto|..]; rewrite blen_cons in Hf.
  - apply IH; lia.
  - destruct (visit_enter b c v (top :: stack) x) as [[v' stack']| |] eqn:E; [|eauto..].
    apply visit_enter_shape in E as (->&?&kids&->). apply IH; [done|]. rewrite !blen_cons. lia.
Qed.

Fixpoint pops (stack : list Work) : Z :=
  match stack with [] => 0 | Pop :: st => 1 + pops st | Enter _ _ _ :: st => pops st end.

Lemma pops_kids d (kids : list (byte * Z)) st : pops (((λ k, Enter k.2 d (Some k.1)) <$> kids) ++ st) = pops st.
Proof. by induction kids. Qed.

Lemma pops_nonneg st : 0 ≤ pops st.
Proof. induction st as [|[]]; cbn; lia. Qed.

Lemma scan_loop_total prefix fuel : ∀ v key st out,
  v ≤ TRIE_NODE_BUDGET → 2 * (TRIE_NODE_BUDGET - v) + pops st + 1 < Z.of_nat fuel →
  is_Some (scan_loop fuel b c prefix v key st out).
Proof.
  induction fuel as [|fuel IH]; intros v key st out Hv Hf; [pose proof (pops_nonneg st); lia|].
  cbn [scan_loop]. destruct st as [|[x d byte|] st]; [eauto| |apply IH; cbn [pops] in Hf; lia].
  destruct (Z.ltb_spec TRIE_NODE_BUDGET (v + 1)); [eauto|]. case_match; [eauto|].
  cbn [pops] in Hf. destruct byte as [x'|].
  all: destruct (scan_enter _ _ _ _ _ _) as [[emitted kids]| |]; [|eauto..].
  all: apply IH; [lia|]; rewrite pops_kids; cbn [pops]; lia.
Qed.

End termination.
