(* ===== verification/Catalog.v ===== *)
(** * The catalogs as finite maps

    [trie_at] says that the trie below a root stores a finite map in a set of
    nodes; the theorems state the operations of [catalog/trie.rs] on it. *)

From S2P Require Import Prelude.
From S2P Require Import Backend.
From S2P Require Import Crypto.
From S2P Require Import Alloc.
From S2P Require Import AllocInv.
From S2P Require Import Trie.
From S2P Require Import NodeHeap.
From S2P Require Import TrieMap.
From S2P Require Import TrieScan.

(** The trie below [r] stores [M]; its nodes are those of [N]. *)
Definition trie_at (h : gmap Z node) (r : Z) (M : gmap bytes bytes) (N : gset Z) : Prop :=
  ∃ t, addr_of t = r ∧ t ≠ TEmpty ∧ stored h [] t ∧ (∀ k, find t [] k = M !! k) ∧ (∀ z, z ∈ N ↔ mem t z).

(** Every node survives that is not both in [N] and reclaimable. *)
Definition spares (fl : option Z) (N : gset Z) (h h' : gmap Z node) : Prop :=
  ∀ z nd, h !! z = Some nd → (z ∈ N → reclaimable fl z = false) → h' !! z = Some nd.

(** The nodes [N'] that replace [N]: old nodes of [N] and fresh ones. *)
Definition fresh_from (h : gmap Z node) (N N' : gset Z) : Prop :=
  ∀ z, z ∈ N' → z ∈ N ∨ h !! z = None.

Lemma trie_at_intro h r M t :
  addr_of t = r → t ≠ TEmpty → stored h [] t → (∀ k, find t [] k = M !! k) →
  ∃ N, trie_at h r M N ∧ ∀ z, z ∈ N ↔ mem t z.
Proof.
  intros Ha Hne Hs Hf.
  assert (∀ z, z ∈ (list_to_set (nodes t) : gset Z) ↔ mem t z) as HN
    by (intros z; by rewrite elem_of_list_to_set, elem_of_nodes).
  eexists. split; [by exists t|done].
Qed.

Lemma trie_at_dom h r M N z : trie_at h r M N → z ∈ N → is_Some (h !! z).
Proof. intros (t&_&_&Hs&_&HN) Hz%HN. by eapply mem_stored. Qed.

Lemma trie_at_root h r M N : trie_at h r M N → r ∈ N.
Proof. intros (t&<-&Hne&_&_&HN). by apply HN, mem_addr. Qed.

(** A trie stays as it is while its nodes do. *)
Lemma trie_at_mono h h' r M N :
  trie_at h r M N → (∀ z, z ∈ N → h' !! z = h !! z) → trie_at h' r M N.
Proof.
  intros (t&?&?&Hs&?&HN) Hh. exists t. split_and!; try done. eapply stored_mono; [done|].
  intros z Hz. by apply Hh, HN.
Qed.

Lemma trie_at_spares fl h h' r M N N0 :
  trie_at h r M N → spares fl N0 h h' → (∀ z, z ∈ N → z ∈ N0 → reclaimable fl z = false) →
  trie_at h' r M N.
Proof.
  intros Ht Hs Hr. eapply trie_at_mono; [done|]. intros z Hz.
  destruct (trie_at_dom _ _ _ _ _ Ht Hz) as [nd Hnd]. rewrite Hnd. apply Hs; auto.
Qed.

Lemma spares_disjoint fl h h' r M N N0 :
  trie_at h r M N → spares fl N0 h h' → N ## N0 → trie_at h' r M N.
Proof. intros Ht Hs Hd. eapply trie_at_spares; [done..|]. set_solver. Qed.

Lemma fresh_disjoint h r M N0 N N' : trie_at h r M N → N ## N0 → fresh_from h N0 N' → N ## N'.
Proof.
  intros Ht Hd Hf z Hz [Hz'|Hz']%Hf; [set_solver|].
  destruct (trie_at_dom _ _ _ _ _ Ht Hz) as [? ?]. congruence.
Qed.

Lemma keeps_spares fl t (N : gset Z) h h' : (∀ z, z ∈ N ↔ mem t z) → keeps fl t h h' → spares fl N h h'.
Proof. intros HN Hk z nd Hz Hm. apply Hk; [done|]. intros ?%HN. auto. Qed.

Section catalogs.
Context `{!Crc32, !Hkdf, !AesGcm, !Entropy} (c : NodeCrypto).

Section refinement.
Context (fl : option Z) (packed : list Block).

Abbreviation ends := (ends c fl packed).
Abbreviation holds h rest s := (node_heap c fl h rest packed (fst (fst s)) (snd (fst s))).

(** What an update leaves: a trie at the new root with the new map, in nodes of
    the old trie and fresh ones, and every node that is not reclaimed. *)
Definition updated (h : gmap Z node) (N : gset Z) (M' : gmap bytes bytes) (t' : Trie) (h' : gmap Z node) : Prop :=
  crypto t' = c ∧ spares fl N h h' ∧ ∃ N', trie_at h' (root t') M' N' ∧ fresh_from h N N'.

Lemma check_bounds_ok key val : check_bounds key val = Ok () ↔ leaf_ok key val.
Proof.
  unfold check_bounds, leaf_ok. destruct (Z.ltb_spec MAX_KEY_LEN (blen key)); [split; [done|lia]|].
  destruct (Z.ltb_spec MAX_VAL_LEN (blen val)); [split; [done|lia]|]. split; [lia|done].
Qed.

Lemma put_spec h rest s r M N key val :
  holds h rest s → trie_at h r M N → leaf_ok key val →
  ends h rest s (put (mkTrie r c) key val) (updated h N (<[key := val]> M)) (spares fl N h).
Proof.
  intros Hh (t&<-&Hne&Hs&Hf&HN) Hok. unfold put. eapply ends_lift; [by apply check_bounds_ok|].
  eapply ends_bind.
  - eapply ends_mono; [apply (put_at_spec c fl packed key val key t [] h rest s); done|done|].
    intros h'. by apply keeps_spares.
  - intros y h1 rest1 s1 Hh1 (t'&<-&Hne'&_&Hs'&Hf'&Hm'&Hk'). apply ends_ret; [done|].
    destruct (trie_at_intro h1 (addr_of t') (<[key := val]> M) t') as (N'&Ht'&HN'); try done.
    { intros k. rewrite Hf'. destruct (decide (k = key)) as [->|Hk]; [by rewrite lookup_insert_eq|].
      by rewrite lookup_insert_ne, Hf by done. }
    split_and!; [done|by eapply keeps_spares|]. exists N'. split; [done|]. intros z Hz%HN'.
    destruct (Hm' z Hz) as [?|?]; [left; by apply HN|by right].
Qed.

Lemma spares_refl N h : spares fl N h h.
Proof. by intros z nd Hz _. Qed.

Lemma spares_subseteq N h h1 h2 : spares fl N h h1 → h1 ⊆ h2 → spares fl N h h2.
Proof. intros Hs Hsub z nd Hz Hm. eapply lookup_weaken; [by apply Hs|done]. Qed.

(** A fresh empty node is an empty trie. *)
Lemma trie_at_empty h y :
  h !! y = None → 2 * BASE_BLOCK ≤ y → trie_at (<[y := NInner Internal_empty]> h) y ∅ {[y]}.
Proof.
  intros Hy Hlo. exists (TNode y None (λ _, TEmpty)). split_and!; try done.
  - apply (stored_node h [] y Internal_empty (λ _, TEmpty)); try done.
    + unfold BASE_BLOCK in Hlo. lia.
    + apply Internal_empty_slot.
  - by intros [|x k].
  - intros z. rewrite elem_of_singleton. cbn. split; [by left|by intros [->|[x ?]]].
Qed.

Lemma remove_spec h rest s r M N key :
  holds h rest s → trie_at h r M N →
  ends h rest s (remove (mkTrie r c) key)
    (λ '(existed, t') h', existed = bool_decide (is_Some (M !! key)) ∧ updated h N (delete key M) t' h')
    (spares fl N h).
Proof.
  intros Hh (t&<-&Hne&Hs&Hf&HN). unfold remove. cbn [crypto root].
  eapply ends_bind.
  { eapply ends_mono; [apply (remove_at_spec c fl packed key key t [] h rest s); done|done|].
    intros h'. by apply keeps_spares. }
  intros res h1 rest1 s1 Hh1 Hres. destruct res as [|y|]; cbn [remove_post] in Hres.
  - destruct Hres as [-> Hnone]. rewrite Hf in Hnone. apply ends_ret; [done|].
    rewrite Hnone, delete_id by done. split; [done|]. split_and!; [done|apply spares_refl|].
    exists N. split; [by exists t|by left].
  - destruct Hres as (Hsome&t'&<-&Hne'&_&Hs'&Hf'&Hm'&Hk'). rewrite Hf in Hsome. apply ends_ret; [done|].
    destruct (trie_at_intro h1 (addr_of t') (delete key M) t') as (N'&Ht'&HN'); try done.
    { intros k. rewrite Hf'. destruct (decide (k = key)) as [->|Hk]; [by rewrite lookup_delete_eq|].
      by rewrite lookup_delete_ne, Hf by done. }
    split; [symmetry; by apply bool_decide_eq_true, not_eq_None_Some|].
    split_and!; [done|by eapply keeps_spares|]. exists N'. split; [done|]. intros z Hz%HN'.
    destruct (Hm' z Hz) as [?|?]; [left; by apply HN|by right].
  - destruct Hres as (Hsome&Hothers&Hk). rewrite Hf in Hsome.
    destruct (node_payload_ok (NInner Internal_empty) Internal_empty_ok) as (p&Hp&_).
    eapply ends_lift; [exact Hp|]. pose proof (keeps_spares fl t N h h1 HN Hk) as Hsp.
    eapply (ends_bind _ _ _ _ _ _ _ _ (λ y h', updated h N ∅ (mkTrie y c) h')).
    + apply (ends_alloc c fl packed h1 rest1 s1 (NInner Internal_empty)); [done|apply Internal_empty_ok|done| |done].
      intros y Hy Hlo _. split_and!; [done|eapply spares_subseteq; [done|by apply insert_subseteq]|].
      exists {[y]}. split; [by apply trie_at_empty|]. intros z ->%elem_of_singleton.
      destruct (keeps_fresh fl t h h1 y Hk Hy); [left; by apply HN|by right].
    + intros y h2 rest2 s2 Hh2 Hu. apply ends_ret; [done|]. split.
      * symmetry. by apply bool_decide_eq_true, not_eq_None_Some.
      * replace (delete key M) with (∅ : gmap bytes bytes); [done|]. apply map_eq. intros k. rewrite lookup_empty.
        destruct (decide (k = key)) as [->|Hne2]; [by rewrite lookup_delete_eq|].
        rewrite lookup_delete_ne by done. by rewrite <-Hf, Hothers.
Qed.

Lemma create_spec h rest s cipher key :
  c = NodeCrypto_new cipher key → holds h rest s →
  ends h rest s (Trie_create cipher key)
    (λ t h', crypto t = c ∧ h ⊆ h' ∧ trie_at h' (root t) ∅ {[root t]} ∧ h !! root t = None) (λ h', h' = h).
Proof.
  intros -> Hh. destruct (node_payload_ok (NInner Internal_empty) Internal_empty_ok) as (p&Hp&_).
  unfold Trie_create. cbv zeta. eapply ends_lift; [exact Hp|].
  eapply ends_bind; [|intros y h1 rest1 s1 Hh1 HQ; apply ends_ret; [done|]; split; [done|exact HQ]].
  apply (ends_alloc _ fl packed h rest s (NInner Internal_empty)); [done|apply Internal_empty_ok|done| |done].
  intros y Hy Hlo _. split_and!; [by apply insert_subseteq|by apply trie_at_empty|done].
Qed.

End refinement.
(** A new allocator holds no node. *)
Lemma init_heap b :
  Backend.wf b → aligned (Backend.len b) → 2 * BASE_BLOCK ≤ Backend.len b →
  node_heap c None ∅ [] [] (Allocator.new b) b.
Proof. intros. split; [by apply (init_inv b)|..]; try done. intros y [? [=]]. Qed.

(** ** Reading *)

(** The nodes [N] of [h] can be read from [b]. *)
Definition reads (b : Backend.t) (h : gmap Z node) (N : gset Z) : Prop :=
  ∀ y nd, y ∈ N → h !! y = Some nd → readable c b y nd ∧ node_ok nd.

Lemma node_heap_reads fl packed h rest a b N : node_heap c fl h rest packed a b → reads b h N.
Proof. intros Hh y nd _ Hy. split; [by eapply node_heap_readable|]. by eapply (nh_nodes _ _ _ _ _ _ _ Hh). Qed.

(** The trie on its own nodes. *)
Lemma trie_alone b h r M N :
  reads b h N → trie_at h r M N →
  ∃ h0 t, all_readable c b h0 ∧ (∀ y nd, h0 !! y = Some nd → node_ok nd) ∧ addr_of t = r ∧ t ≠ TEmpty ∧
    stored h0 [] t ∧ (∀ k, find t [] k = M !! k) ∧ nodes t ≡ₚ elements N.
Proof.
  intros Hr Ht. set (h0 := filter (λ p, p.1 ∈ N) h).
  assert (∀ y nd, h0 !! y = Some nd → y ∈ N ∧ h !! y = Some nd) as Hh0
    by (intros y nd [??]%map_lookup_filter_Some; auto).
  destruct (trie_at_mono h h0 r M N Ht) as (t&?&?&Hs&?&HN).
  { intros z Hz. destruct (trie_at_dom _ _ _ _ _ Ht Hz) as [nd Hnd]. rewrite Hnd.
    by apply map_lookup_filter_Some. }
  exists h0, t. split_and!; try done.
  - intros y nd [Hy Hnd]%Hh0. by apply Hr.
  - intros y nd [Hy Hnd]%Hh0. by eapply Hr.
  - apply NoDup_Permutation; [by eapply NoDup_nodes|apply NoDup_elements|].
    intros z. by rewrite elem_of_nodes, elem_of_elements, HN.
Qed.

Lemma get_spec b h r M N k : reads b h N → trie_at h r M N → get (mkTrie r c) b k = Ok (M !! k).
Proof.
  intros Hr Ht. destruct (trie_alone b h r M N Hr Ht) as (h0&t&Hread&_&<-&Hne&Hs&Hf&_).
  unfold get. cbn [root crypto]. by rewrite (get_at_spec c b h0 t [] k k), Hf.
Qed.

(** The entries of [M] below [prefix] in ascending order of the keys. *)
Definition entries_of (M : gmap bytes bytes) (prefix : bytes) (l : list (bytes * bytes)) : Prop :=
  StronglySorted entry_lt l ∧ ∀ k v, (k, v) ∈ l ↔ M !! k = Some v ∧ prefix `prefix_of` k.

Lemma size_nodes t (N : gset Z) : nodes t ≡ₚ elements N → blen (nodes t) = Z.of_nat (size N).
Proof. intros Hp. unfold blen. by rewrite Hp. Qed.

Lemma scan_spec b h r M N prefix :
  reads b h N → trie_at h r M N → Z.of_nat (size N) ≤ TRIE_NODE_BUDGET →
  ∃ l, scan_prefix (mkTrie r c) b prefix = Some (Ok l) ∧ entries_of M prefix l.
Proof.
  intros Hr Ht Hsz. destruct (trie_alone b h r M N Hr Ht) as (h0&t&Hread&Hok&<-&Hne&Hs&Hf&Hp).
  eexists. split; [apply (scan_prefix_run c b h0); try done; by rewrite (size_nodes t N)|].
  split; [by eapply emits_sorted|]. intros k v. rewrite (emits_spec h0); [|done|left; apply prefix_nil].
  setoid_rewrite <-Hf. split; [intros (?&?&->&?); auto|intros []; eauto].
Qed.

Lemma visit_spec b h r M N :
  reads b h N → trie_at h r M N → Z.of_nat (size N) ≤ TRIE_NODE_BUDGET →
  ∃ l, visit_nodes b r c = Some (Ok l) ∧ l ≡ₚ elements N.
Proof.
  intros Hr Ht Hsz. destruct (trie_alone b h r M N Hr Ht) as (h0&t&Hread&Hok&<-&Hne&Hs&Hf&Hp).
  eexists. split; [apply (visit_nodes_run c b h0); try done; by rewrite (size_nodes t N)|].
  rewrite <-Hp. symmetry. apply Permutation_rev.
Qed.

(** ** Damaged stores *)

(** Of each node in [N], one of the two copies that [b] holds is intact in
    [b'], the primary, if it is not the one, being seen to be damaged. *)
Definition one_copy_left (b b' : Backend.t) (N : gset Z) : Prop :=
  Backend.wf b' ∧ Backend.len b' = Backend.len b ∧ ∀ y, y ∈ N →
    Backend.contents b' y NODE_BLOCK_SIZE = Backend.contents b y NODE_BLOCK_SIZE ∨
    (∃ e, read_copy c b' y = Err e) ∧
      Backend.contents b' (y + BASE_BLOCK) NODE_BLOCK_SIZE = Backend.contents b (y + BASE_BLOCK) NODE_BLOCK_SIZE.

Lemma damaged_reads fl packed h rest a b b' N :
  node_heap c fl h rest packed a b → one_copy_left b b' N → reads b' h N.
Proof.
  intros Hh (Hwf&Hl&Hc) y nd Hy Hnd. destruct (nh_nodes _ _ _ _ _ _ _ Hh _ _ Hnd) as (Hok&Hp&Hb).
  split; [|done]. pose proof (node_range _ _ _ _ _ _ _ y Hh ltac:(eauto)) as (?&?&?&?).
  apply readable_copy; [done|unfold BASE_BLOCK in *; lia|lia|done|].
  destruct (Hc y Hy) as [->|[? ->]]; [by left|by right].
Qed.

End catalogs.

(** ** Properties *)

Section properties.
Context `{!Crc32, !Hkdf, !AesGcm, !Entropy}.

(** C9. [put] refines the insertion into a finite map. On a store that holds
    the nodes of the trie, a key or value beyond its bound is refused with
    nothing changed. Otherwise [put] returns a trie that stores the map with
    the entry set, built of old and fresh nodes, and every node of any other
    trie survives, as does every node of this trie that the reclaim scope does
    not cover; or a device of fixed size is full, with the same guarantee for
    the other nodes; it unwinds only on a store of 2 EiB. *)
Theorem catalog_put_refines fl packed h rest s (t : Trie) M N key val :
  node_heap (crypto t) fl h rest packed s.1.1 s.1.2 → trie_at h (root t) M N →
  match check_bounds key val with
  | Ok _ => ends (crypto t) fl packed h rest s (put t key val)
              (updated (crypto t) fl h N (<[key := val]> M)) (spares fl N h)
  | Err e => put t key val s = (Err e, s)
  | Panic => False
  end.
Proof.
  intros Hh Ht. destruct (check_bounds key val) as [[]|e|] eqn:E.
  - destruct t as [r c]. by apply put_spec, check_bounds_ok.
  - unfold put. by rewrite E.
  - unfold check_bounds in E. by repeat case_match.
Qed.

(** C10. [remove] refines the deletion from a finite map: it reports whether
    the key was present, and returns a trie that stores the map without it,
    with the guarantees of [put] for the other nodes. *)
Theorem catalog_remove_refines fl packed h rest s (t : Trie) M N key :
  node_heap (crypto t) fl h rest packed s.1.1 s.1.2 → trie_at h (root t) M N →
  ends (crypto t) fl packed h rest s (remove t key)
    (λ '(existed, t') h', existed = bool_decide (is_Some (M !! key)) ∧
       updated (crypto t) fl h N (delete key M) t' h')
    (spares fl N h).
Proof. intros Hh Ht. destruct t as [r c]. by apply remove_spec. Qed.

(** C15. Lookups survive the loss of one copy of every node: on a store that
    differs from the written one arbitrarily, as long as each node keeps an
    intact copy and a damaged primary copy is seen to be damaged, [get] returns
    the entry of the map for every key, and [scan_prefix], if the trie is
    within the visit budget, returns exactly the entries whose key has the
    prefix, in strictly ascending order of the keys. *)
Theorem catalog_lookup_survives fl packed h rest a b b' (t : Trie) M N :
  node_heap (crypto t) fl h rest packed a b → trie_at h (root t) M N → one_copy_left (crypto t) b b' N →
  (∀ k, get t b' k = Ok (M !! k)) ∧
  (Z.of_nat (size N) ≤ TRIE_NODE_BUDGET →
     ∀ prefix, ∃ l, scan_prefix t b' prefix = Some (Ok l) ∧ entries_of M prefix l).
Proof.
  destruct t as [r c]. cbn [crypto root]. intros Hh Ht Hc.
  pose proof (damaged_reads _ _ _ _ _ _ _ _ _ Hh Hc) as Hr. split.
  - intros k. by eapply get_spec.
  - intros Hsz prefix. by eapply scan_spec.
Qed.

(** C30. [visit_nodes], which feeds the reconstruction of the allocator, hands
    out every node of a trie within the visit budget exactly once and nothing
    else. *)
Theorem visit_nodes_exact fl packed h rest a b (t : Trie) M N :
  node_heap (crypto t) fl h rest packed a b → trie_at h (root t) M N →
  Z.of_nat (size N) ≤ TRIE_NODE_BUDGET →
  ∃ l, visit_nodes b (root t) (crypto t) = Some (Ok l) ∧ NoDup l ∧ ∀ z, z ∈ l ↔ z ∈ N.
Proof.
  destruct t as [r c]. cbn [crypto root]. intros Hh Ht Hsz.
  destruct (visit_spec c b h r M N (node_heap_reads _ _ _ _ _ _ _ N Hh) Ht Hsz) as (l&Hv&Hp).
  exists l. split_and!; [done|rewrite Hp; apply NoDup_elements|].
  intros z. by rewrite Hp, elem_of_elements.
Qed.

(** C31. The traversals stop on any store whatsoever, cyclic node graphs
    included: the model never exhausts the fuel it derives from the visit
    budget. *)
Theorem traversals_terminate (t : Trie) b prefix r c :
  is_Some (scan_prefix t b prefix) ∧ is_Some (visit_nodes b r c).
Proof.
  split.
  - unfold scan_prefix. apply scan_loop_total; [done|]. cbn [pops]. unfold TRAVERSAL_FUEL. lia.
  - unfold visit_nodes. case_match; [eauto|].
    destruct (visit_enter b c 0 [] r) as [[v stack]| |] eqn:E; [|eauto..].
    apply visit_enter_shape in E as (->&?&kids&->). apply visit_loop_total; [lia|].
    change (blen [kids]) with 1. unfold TRAVERSAL_FUEL. lia.
Qed.

End properties.

(** ** Concrete tries *)

Section witnesses.
Import Concrete.

#[local, refine] Instance ex_entropy : Entropy := {| draw n := le_bytes 12 (Z.of_nat n) |}.
Proof. done. Defined.

Definition ex_trie_key : bytes := replicate 32 (byte.of_Z 5).
Abbreviation ex_created := (Trie_create CIPHER_AES256_GCM ex_trie_key ((Allocator.new ex_b, ex_b), O)).
Definition ex_trie : Trie := mkTrie 8192 (NodeCrypto_new CIPHER_AES256_GCM ex_trie_key).
Definition ex_state := snd ex_created.

Lemma ex_created_ok : fst ex_created = Ok ex_trie.
Proof. vm_compute. reflexivity. Qed.

Lemma created_stored b cipher key t s :
  Backend.wf b → aligned (Backend.len b) → 2 * BASE_BLOCK ≤ Backend.len b →
  Trie_create cipher key ((Allocator.new b, b), O) = (Ok t, s) → crypto t = NodeCrypto_new cipher key →
  ∃ h rest, node_heap (crypto t) None h rest [] s.1.1 s.1.2 ∧ trie_at h (root t) ∅ {[root t]}.
Proof.
  intros Hwf Ha Hl Hrun Hc. pose proof (create_spec (crypto t) None [] ∅ [] ((Allocator.new b, b), O)
    cipher key Hc (init_heap _ _ Hwf Ha Hl)) as He. unfold ends in He. rewrite Hrun in He.
  destruct He as (h&rest&Hh&_&_&_&Ht&_). eauto.
Qed.

Lemma ex_run : ex_created = (Ok ex_trie, ex_state).
Proof. rewrite <-ex_created_ok. apply surjective_pairing. Qed.

Lemma ex_stored :
  ∃ s h rest, s = ex_state ∧ node_heap (crypto ex_trie) None h rest [] s.1.1 s.1.2 ∧
    trie_at h (root ex_trie) ∅ {[root ex_trie]}.
Proof.
  pose proof ex_run as Hrun. assert (∃ s, s = ex_state) as [s Hs] by (eexists; reflexivity). rewrite <-Hs in Hrun.
  destruct (created_stored ex_b CIPHER_AES256_GCM ex_trie_key ex_trie s ex_b_wf
    ltac:(by_compute) ltac:(by_compute) Hrun eq_refl) as (h&rest&?&?).
  exists s, h, rest. split_and!; assumption.
Qed.

Lemma catalog_put_refines_witness :
  ∃ s h rest, ends (crypto ex_trie) None [] h rest s (put ex_trie (bstr "a") (bstr "b"))
    (updated (crypto ex_trie) None h {[root ex_trie]} (<[bstr "a" := bstr "b"]> ∅)) (spares None {[root ex_trie]} h).
Proof.
  destruct ex_stored as (s&h&rest&_&Hh&Ht). exists s, h, rest.
  exact (catalog_put_refines None [] h rest s ex_trie ∅ {[root ex_trie]} (bstr "a") (bstr "b") Hh Ht).
Defined.

Lemma catalog_remove_refines_witness :
  ∃ s h rest, ends (crypto ex_trie) None [] h rest s (remove ex_trie (bstr "a"))
    (λ '(existed, t') h', existed = bool_decide (is_Some ((∅ : gmap bytes bytes) !! bstr "a")) ∧
       updated (crypto ex_trie) None h {[root ex_trie]} (delete (bstr "a") ∅) t' h') (spares None {[root ex_trie]} h).
Proof.
  destruct ex_stored as (s&h&rest&_&Hh&Ht). exists s, h, rest.
  exact (catalog_remove_refines None [] h rest s ex_trie ∅ {[root ex_trie]} (bstr "a") Hh Ht).
Defined.

(** The created store with its primary copy wiped. *)
Definition ex_wiped : Backend.t :=
  Backend.mk (take 8192 (Backend.mem (snd (fst ex_state))) ++ zeros 4096 ++ drop 12288 (Backend.mem (snd (fst ex_state))))
    20480 false.

Lemma ex_wiped_one_copy s : s = ex_state → one_copy_left (crypto ex_trie) s.1.2 ex_wiped {[root ex_trie]}.
Proof.
  intros ->. split_and!; [split; [vm_compute; reflexivity|by_compute]|vm_compute; reflexivity|].
  intros y ->%elem_of_singleton. right. split; [eexists; vm_compute; reflexivity|vm_compute; reflexivity].
Qed.

Lemma catalog_lookup_survives_witness :
  get ex_trie ex_wiped (bstr "a") = Ok ((∅ : gmap bytes bytes) !! bstr "a").
Proof.
  destruct ex_stored as (s&h&rest&Hs&Hh&Ht).
  exact (proj1 (catalog_lookup_survives None [] h rest _ _ ex_wiped ex_trie ∅ {[root ex_trie]} Hh Ht
    (ex_wiped_one_copy s Hs)) (bstr "a")).
Defined.

Lemma visit_nodes_exact_witness :
  ∃ b l, visit_nodes b (root ex_trie) (crypto ex_trie) = Some (Ok l) ∧ NoDup l.
Proof.
  destruct ex_stored as (s&h&rest&_&Hh&Ht). exists (snd (fst s)).
  destruct (visit_nodes_exact None [] h rest _ _ ex_trie ∅ {[root ex_trie]} Hh Ht) as (l&Hv&Hnd&_).
  { rewrite size_singleton. by_compute. }
  exists l. split; assumption.
Defined.

End witnesses.
