(* ===== verification/Engine.v ===== *)
(** * The engine: namespace operations, transactions and publication

    The part of [version/store.rs] that ties the catalogs, the allocator and
    the header together: creation of a container, lookup and renaming of
    paths, transactions and batches, and the publication of the catalog roots
    by a header commit. *)

From S2P Require Import Prelude.
From S2P Require Import Text.
From S2P Require Import Backend.
From S2P Require Import Crypto.
From S2P Require Import Header.
From S2P Require Import Alloc.
From S2P Require Import Unit.
From S2P Require Import Trie.

(** ** The record cache *)

Module RecordCache.

Record entry := mkEntry { e_addr : Z; rec : UnitRecord; last : Z }.
Record t := mk { cap : Z; tick : Z; map : gmap bytes entry }.

Definition new (cap : Z) : t := mk cap 0 ∅.

(** [get]: the record only if it was read at the current address. *)
Definition get (c : t) (uuid : bytes) (addr : Z) : res (option UnitRecord * t) :=
  tick ← add64 (tick c) 1;
  match map c !! uuid with
  | None => Ok (None, mk (cap c) tick (map c))
  | Some e =>
      if negb (e_addr e =? addr) then Ok (None, mk (cap c) tick (map c))
      else Ok (Some (rec e), mk (cap c) tick (<[uuid := mkEntry (e_addr e) (rec e) tick]> (map c)))
  end.

(** [self.map.iter().min_by_key(|(_, e)| e.last)] *)
Definition min_by_last (m : gmap bytes entry) : option (bytes * entry) :=
  foldl (λ best kv,
    match best with
    | None => Some kv
    | Some b => if last kv.2 <? last b.2 then Some kv else best
    end) None (map_to_list m).

Definition put (c : t) (uuid : bytes) (addr : Z) (r : UnitRecord) : res t :=
  if cap c =? 0 then Ok c
  else
    tick ← add64 (tick c) 1;
    let m :=
      if (cap c <=? Z.of_nat (size (map c))) && negb (bool_decide (is_Some (map c !! uuid))) then
        match min_by_last (map c) with
        | Some (lru, _) => delete lru (map c)
        | None => map c
        end
      else map c in
    Ok (mk (cap c) tick (<[uuid := mkEntry addr r tick]> m)).

Definition clear (c : t) : t := mk (cap c) (tick c) ∅.

End RecordCache.

(** ** The engine *)

Definition ENGINE_MAX_FRAGSIZE_EXP : Z := 22.
Definition RESOLVE_CACHE_CAP : Z := 4096.

(** [Engine], without the fields that no operation below touches; [store] is
    the allocator and the backend, with the count of nonces drawn. *)
Record Engine := mkEngine {
  store : (Allocator.t * Backend.t) * nat;
  header : ContainerHeader;
  key_catalog : Trie;
  id_catalog : Trie;
  suppress_commit : bool;
  inplace_undo_journaled : gset (bytes * Z);
  resolve_cache : gmap bytes bytes;
  record_cache : RecordCache.t;
  pending_wal_applied_seq : option Z;
  root_key : bytes;
}.

Definition alloc (e : Engine) : Allocator.t := (store e).1.1.
Definition backend (e : Engine) : Backend.t := (store e).1.2.

(** Assignments to the fields. *)
Definition set_store (s : (Allocator.t * Backend.t) * nat) (e : Engine) : Engine :=
  mkEngine s (header e) (key_catalog e) (id_catalog e) (suppress_commit e) (inplace_undo_journaled e)
    (resolve_cache e) (record_cache e) (pending_wal_applied_seq e) (root_key e).
Definition set_alloc (a : Allocator.t) (e : Engine) : Engine := set_store ((a, backend e), (store e).2) e.
Definition set_backend (b : Backend.t) (e : Engine) : Engine := set_store ((alloc e, b), (store e).2) e.
Definition set_header (h : ContainerHeader) (e : Engine) : Engine :=
  mkEngine (store e) h (key_catalog e) (id_catalog e) (suppress_commit e) (inplace_undo_journaled e)
    (resolve_cache e) (record_cache e) (pending_wal_applied_seq e) (root_key e).
Definition set_catalogs (k i : Trie) (e : Engine) : Engine :=
  mkEngine (store e) (header e) k i (suppress_commit e) (inplace_undo_journaled e)
    (resolve_cache e) (record_cache e) (pending_wal_applied_seq e) (root_key e).
Definition set_suppress (v : bool) (e : Engine) : Engine :=
  mkEngine (store e) (header e) (key_catalog e) (id_catalog e) v (inplace_undo_journaled e)
    (resolve_cache e) (record_cache e) (pending_wal_applied_seq e) (root_key e).
Definition set_undo (u : gset (bytes * Z)) (e : Engine) : Engine :=
  mkEngine (store e) (header e) (key_catalog e) (id_catalog e) (suppress_commit e) u
    (resolve_cache e) (record_cache e) (pending_wal_applied_seq e) (root_key e).
Definition set_resolve_cache (c : gmap bytes bytes) (e : Engine) : Engine :=
  mkEngine (store e) (header e) (key_catalog e) (id_catalog e) (suppress_commit e) (inplace_undo_journaled e)
    c (record_cache e) (pending_wal_applied_seq e) (root_key e).
Definition set_record_cache (c : RecordCache.t) (e : Engine) : Engine :=
  mkEngine (store e) (header e) (key_catalog e) (id_catalog e) (suppress_commit e) (inplace_undo_journaled e)
    (resolve_cache e) c (pending_wal_applied_seq e) (root_key e).
Definition set_pending_wal (p : option Z) (e : Engine) : Engine :=
  mkEngine (store e) (header e) (key_catalog e) (id_catalog e) (suppress_commit e) (inplace_undo_journaled e)
    (resolve_cache e) (record_cache e) p (root_key e).

(** [&mut self] methods of the engine. *)
Abbreviation EM A := (St Engine A).

Definition modify (f : Engine → Engine) : EM () := λ e, (Ok (), f e).
Definition gets {A} (f : Engine → A) : EM A := λ e, (Ok (f e), e).

Section engine.
Context `{!Crc32, !Hkdf, !Hmac, !AesGcm, !Entropy}.

(** A call of the key catalog with the backend and the allocator. *)
Definition on_key {A} (m : Trie → TM (A * Trie)) : EM A := λ e,
  match m (key_catalog e) (store e) with
  | (Ok (v, t'), s') => (Ok v, set_catalogs t' (id_catalog e) (set_store s' e))
  | (Err er, s') => (Err er, set_store s' e)
  | (Panic, s') => (Panic, set_store s' e)
  end.
Definition key_put (path uuid : bytes) : EM () :=
  on_key (λ t, t' ← put_path t path uuid; mret ((), t')).
Definition key_remove (path : bytes) : EM bool := on_key (λ t, remove_path t path).
Definition key_get (path : bytes) : EM (option bytes) := λ e, (get_path (key_catalog e) (backend e) path, e).
Definition on_id {A} (m : Trie → TM (A * Trie)) : EM A := λ e,
  match m (id_catalog e) (store e) with
  | (Ok (v, t'), s') => (Ok v, set_catalogs (key_catalog e) t' (set_store s' e))
  | (Err er, s') => (Err er, set_store s' e)
  | (Panic, s') => (Panic, set_store s' e)
  end.
Definition id_put (uuid : bytes) (record_addr : Z) : EM () :=
  on_id (λ t, t' ← put_uuid t uuid record_addr; mret ((), t')).

(** ** Creation and opening *)

(** The slot-0 header of a new container. *)
Definition boot_header (content_cipher : Z) (salt : bytes) (len : Z) : ContainerHeader :=
  mkHeader MAGIC FORMAT_VERSION CIPHER_AES256_GCM content_cipher
    (mkParams ENGINE_MAX_FRAGSIZE_EXP 0 BASE_BLOCK) (mkRoots 0 0) None 0 0 0 Unsigned
    (zeros 32) (zeros 32) 0 0 len salt false.

(** [ContainerHeader { roots, commit_seq, tail_low, ..base }] *)
Definition with_roots (base : ContainerHeader) (key_root id_root seq tail : Z) : ContainerHeader :=
  mkHeader (magic base) (format_version base) (cipher base) (content_cipher base) (params base)
    (mkRoots key_root id_root) (writer_set base) seq (wal_applied_seq base) (wal_region_offset base)
    (sign_mode base) (writer_pubkey base) (owner_pubkey base) (writer_set_epoch base)
    (hdr_key_epoch base) tail (salt base) (pad_blocks base).

(** [bootstrap_over_backend]; [n] nonces have been drawn before. *)
Definition bootstrap_over_backend (b : Backend.t) (n : nat) (cipher_id : Z) (root_key salt : bytes)
  : res Engine :=
  let boot := boot_header cipher_id salt (Backend.len b) in
  b ← write_slot0 boot b (Some root_key);
  Backend.flush b;;
  match (k ← Trie_create CIPHER_AES256_GCM root_key; i ← Trie_create CIPHER_AES256_GCM root_key; mret (k, i))
          ((Allocator.new b, b), n) with
  | (Ok (k, i), ((a, b), n)) =>
      let header := with_roots boot (root k) (root i) 1 (Allocator.tail_low a) in
      b ← commit b header (Some root_key);
      Ok (mkEngine ((a, b), n) header k i false ∅ ∅ (RecordCache.new 1024) None root_key)
  | (Err e, _) => Err e
  | (Panic, _) => Panic
  end.

(** [bootstrap_new_container] *)
Definition bootstrap_new_container (b : Backend.t) (n : nat) (root_key : bytes) : res Engine :=
  bootstrap_over_backend b n CIPHER_AES256_GCM root_key (zeros 16).

Definition known_content_cipher (cipher_id : Z) : bool :=
  (cipher_id =? CIPHER_NONE) || (cipher_id =? CIPHER_AES256_GCM) || (cipher_id =? CIPHER_XTS_AES256).

Definition create_in_memory_with_key (n : nat) (root_key : bytes) : res Engine :=
  b ← Backend.create_in_memory (64 * BASE_BLOCK);
  bootstrap_new_container b n root_key.
Definition create_in_memory_with_cipher_key_and_salt (n : nat) (cipher_id : Z) (root_key salt : bytes)
  : res Engine :=
  if negb (known_content_cipher cipher_id) then Err (Integrity "create: unknown content cipher suite")
  else b ← Backend.create_in_memory (64 * BASE_BLOCK); bootstrap_over_backend b n cipher_id root_key salt.
Definition create_in_memory_with_cipher_and_key (n : nat) (cipher_id : Z) (root_key : bytes) : res Engine :=
  if negb (known_content_cipher cipher_id) then Err (Integrity "create: unknown content cipher suite")
  else b ← Backend.create_in_memory (64 * BASE_BLOCK); bootstrap_over_backend b n cipher_id root_key (zeros 16).
Definition create_fixed_in_memory_with_cipher_and_key (n : nat) (len cipher_id : Z) (root_key : bytes)
  : res Engine :=
  if negb (known_content_cipher cipher_id) then Err (Integrity "create: unknown content cipher suite")
  else b ← Backend.create_in_memory_fixed len; bootstrap_over_backend b n cipher_id root_key (zeros 16).

(** The first half of [finish_open]: the header and the catalogs, before the
    allocator is rebuilt and the WAL replayed. *)
Definition open_catalogs (b : Backend.t) (root_key : bytes) : res (ContainerHeader * Trie * Trie) :=
  header ← load b (Some root_key);
  if negb (cipher header =? CIPHER_AES256_GCM)
  then Err (Integrity "open: container must use GCM metadata cipher")
  else Ok (header, Trie_open (key_root (roots header)) (cipher header) root_key,
           Trie_open (id_root (roots header)) (cipher header) root_key).

(** ** Publication *)

Definition abort_deferred : EM () := modify (λ e, set_alloc (Allocator.abort_deferred (alloc e)) e).

(** A call on the backend whose [Err] drops the parked blocks. *)
Definition or_abort (m : EM ()) : EM () := λ e,
  match m e with
  | (Err er, e') => (abort_deferred;; lift (Err er)) e'
  | r => r
  end.

(** [ContainerHeader { roots, commit_seq, wal_applied_seq, wal_region_offset,
    tail_low, ..self.header.clone() }] *)
Definition next_header (e : Engine) (seq applied region : Z) : ContainerHeader :=
  let h := header e in
  mkHeader (magic h) (format_version h) (cipher h) (content_cipher h) (params h)
    (mkRoots (root (key_catalog e)) (root (id_catalog e))) (writer_set h) seq applied region
    (sign_mode h) (writer_pubkey h) (owner_pubkey h) (writer_set_epoch h) (hdr_key_epoch h)
    (Allocator.tail_low (alloc e)) (salt h) (pad_blocks h).

Definition commit_header (next : ContainerHeader) : EM () := λ e,
  match commit (backend e) next (Some (root_key e)) with
  | Ok b' => (Ok (), set_backend b' e)
  | Err er => (Err er, e)
  | Panic => (Panic, e)
  end.
Definition publish_deferred : EM () := λ e,
  match Allocator.publish_deferred (alloc e) with
  | Ok a' => (Ok (), set_alloc a' e)
  | Err er => (Err er, e)
  | Panic => (Panic, e)
  end.
Definition flush_backend : EM () := λ e, (Backend.flush (backend e), e).

Definition publish : EM () :=
  suppressed ← gets suppress_commit;
  if (suppressed : bool) then mret ()
  else
    modify (λ e, set_record_cache (RecordCache.clear (record_cache e)) e);;
    or_abort flush_backend;;
    applied ← gets (λ e, default (wal_applied_seq (header e)) (pending_wal_applied_seq e));
    modify (set_pending_wal None);;
    region ← gets (λ e, default (wal_region_offset (header e)) (Allocator.wal_reservation_start (alloc e)));
    seq ← gets (λ e, add64 (commit_seq (header e)) 1);
    seq ← lift seq;
    next ← gets (λ e, next_header e seq applied region);
    or_abort (commit_header next);;
    modify (set_header next);;
    modify (set_undo ∅);;
    publish_deferred.

(** [transaction]: [finish_transaction] is what follows the call of [f]. *)
Definition finish_transaction {R} (prev : bool) (result : res R) : EM R :=
  (if negb prev then modify (λ e, set_alloc (Allocator.end_reclaim_scope (alloc e)) e) else mret ());;
  modify (set_suppress prev);;
  match result with
  | Ok value =>
      suppressed ← gets suppress_commit;
      (if negb suppressed then publish else mret ());;
      mret value
  | Err er => abort_deferred;; lift (Err er)
  | Panic => lift Panic
  end.
Definition caught {R} (f : EM R) : EM (res R) := λ e,
  match f e with
  | (Panic, e') => (Panic, e')
  | (r, e') => (Ok r, e')
  end.
Definition transaction {R} (f : EM R) : EM R :=
  prev ← gets suppress_commit;
  modify (set_suppress true);;
  (if negb prev then modify (λ e, set_alloc (Allocator.begin_reclaim_scope (alloc e)) e) else mret ());;
  result ← caught f;
  finish_transaction prev result.

(** [begin_batch], [commit_batch], [batch_active] *)
Definition begin_batch : EM () :=
  suppressed ← gets suppress_commit;
  if (suppressed : bool) then mret ()
  else
    modify (set_suppress true);;
    modify (λ e, set_alloc (Allocator.begin_reclaim_scope (alloc e)) e).
Definition commit_batch : EM () :=
  suppressed ← gets suppress_commit;
  if negb suppressed then mret ()
  else
    modify (λ e, set_alloc (Allocator.end_reclaim_scope (alloc e)) e);;
    modify (set_suppress false);;
    publish.
Definition batch_active (e : Engine) : bool := suppress_commit e.

(** ** Paths *)

(** [resolve_cache.remove(path)] *)
Definition forget (path : bytes) : EM () := modify (λ e, set_resolve_cache (delete path (resolve_cache e)) e).

(** [uuid_for_path] *)
Definition uuid_for_path (path : bytes) : EM bytes :=
  hit ← gets (λ e, resolve_cache e !! path);
  match hit with
  | Some uuid => mret uuid
  | None =>
      r ← key_get path;
      uuid ← lift (ok_or r (NotFound "path not found"));
      modify (λ e,
        let c := resolve_cache e in
        let c := if RESOLVE_CACHE_CAP <=? Z.of_nat (size c) then ∅ else c in
        set_resolve_cache (<[path := uuid]> c) e);;
      mret uuid
  end.

Definition rename (old new : bytes) : EM () :=
  r ← key_get old;
  uuid ← lift (ok_or r (NotFound "rename source missing"));
  target ← key_get new;
  if bool_decide (is_Some target) then lift (Err (Integrity "rename target exists"))
  else
    key_put new uuid;;
    key_remove old;;
    forget old;;
    forget new;;
    publish.

Definition link (existing_path new_path : bytes) : EM () :=
  r ← key_get existing_path;
  uuid ← lift (ok_or r (NotFound "link source missing"));
  target ← key_get new_path;
  if bool_decide (is_Some target) then lift (Err (Integrity "link target exists"))
  else
    key_put new_path uuid;;
    forget new_path;;
    publish.

(** [Engine::remove] *)
Definition unlink (path : bytes) : EM () :=
  existed ← key_remove path;
  if negb existed then lift (Err (NotFound "remove: path not found"))
  else
    forget path;;
    publish.

(** The traversal of [scan_paths] never runs out of fuel, see
    [traversals_terminate]. *)
Definition key_scan (prefix : bytes) : EM (list (bytes * bytes)) := λ e,
  (default Panic (scan_paths (key_catalog e) (backend e) prefix), e).

(** [Engine::list] *)
Fixpoint path_strings (l : list (bytes * bytes)) : res (list bytes) :=
  match l with
  | [] => Ok []
  | (k, _) :: l' => k ← from_utf8 k (Integrity "non-utf8 path key"); rest ← path_strings l'; Ok (k :: rest)
  end.
Definition list_paths (prefix : bytes) : EM (list bytes) :=
  pairs ← key_scan prefix; lift (path_strings pairs).

(** [rename_prefix] *)
Definition SLASH : Init.Byte.byte := byte.of_Z 47.
Definition is_sub (candidate base : bytes) : bool :=
  bool_decide (candidate = base) ||
  ((blen base <? blen candidate) && bool_decide (take (length base) candidate = base) &&
   bool_decide (candidate !! length base = Some SLASH)).
(** [is_exact || is_child] of a scanned key. *)
Definition at_or_below (base k : bytes) : bool :=
  (blen k =? blen base) || ((blen base <? blen k) && bool_decide (k !! length base = Some SLASH)).
Fixpoint collect_moves (old : bytes) (l : list (bytes * bytes)) : res (list (bytes * bytes)) :=
  match l with
  | [] => Ok []
  | (k, uuid) :: l' =>
      if negb (at_or_below old k) then collect_moves old l'
      else k ← from_utf8 k (Integrity "non-utf8 path key"); rest ← collect_moves old l'; Ok ((k, uuid) :: rest)
  end.
Fixpoint move_all (old new : bytes) (moves : list (bytes * bytes)) : EM () :=
  match moves with
  | [] => mret ()
  | (old_key, uuid) :: moves' =>
      let new_key := new ++ drop (length old) old_key in
      key_put new_key uuid;;
      key_remove old_key;;
      forget old_key;;
      forget new_key;;
      move_all old new moves'
  end.
Definition rename_prefix (old new : bytes) : EM Z :=
  if is_sub new old then lift (Err (Integrity "rename_prefix: target is (inside) the source"))
  else
    found ← key_scan old;
    moves ← lift (collect_moves old found);
    if bool_decide (moves = []) then lift (Err (NotFound "rename_prefix: source not found"))
    else
      targets ← key_scan new;
      if existsb (λ kv, at_or_below new kv.1) targets
      then lift (Err (Integrity "rename_prefix: target exists"))
      else
        transaction (move_all old new moves);;
        mret (blen moves).

End engine.
