(* ===== verification/Store.v ===== *)
(** * The content path of the engine: state and reads

    [version/store.rs]: the fields of [Engine] that the namespace operations of
    [Engine] do not touch, the resolution of the cipher suite of a fragment,
    the placement and reading of fragments, the WAL overlay, and the read
    operations [read], [read_at] and [unit_summary]. *)

From S2P Require Import Prelude.
From S2P Require Import Text.
From S2P Require Import BTree.
From S2P Require Import Vector.
From S2P Require Import Block.
From S2P Require Import Backend.
From S2P Require Import Crypto.
From S2P Require Import Header.
From S2P Require Import Alloc.
From S2P Require Import Unit.
From S2P Require Import WriterSet.
From S2P Require Import Trie.
From S2P Require Import Records.
From S2P Require Import Engine.

(** [getrandom] for a unit id: the one drawn at the [n]-th draw. *)
Class UuidSource := {
  draw_uuid : nat → bytes;
  draw_uuid_length : ∀ n, blen (draw_uuid n) = 16;
}.

(** [WalState] *)
Record WalState := mkWalState { write_cursor : Z; next_seq : Z }.

(** [Engine]: the fields of [Engine.Engine] and the ones of the content path;
    [system_time] is what [system_time_utc] returns during the call.  The
    crash-simulation switches, which only tests set, are off. *)
Record Store := mkStore {
  engine : Engine;
  eviction_clock : option Z;
  fragment_write_timestamps : gmap (bytes * Z) Z;
  wal : option WalState;
  wal_overlay : gmap bytes (BTreeMap.t bytes);
  local_alias : Z;
  signing_key : option SigningKeyHandle;
  loaded_writer_set : option WriterSet.t;
  system_time : Z;
}.

(** The fields that [bootstrap_over_backend] sets besides those of [Engine];
    [now] is the clock of the system. *)
Definition new_store (e : Engine) (now : Z) : Store := mkStore e None ∅ None ∅ 0 None None now.

Abbreviation SM A := (St Store A).

Definition set_engine (e : Engine) (s : Store) : Store :=
  mkStore e (eviction_clock s) (fragment_write_timestamps s) (wal s) (wal_overlay s) (local_alias s)
    (signing_key s) (loaded_writer_set s) (system_time s).
Definition set_timestamps (m : gmap (bytes * Z) Z) (s : Store) : Store :=
  mkStore (engine s) (eviction_clock s) m (wal s) (wal_overlay s) (local_alias s)
    (signing_key s) (loaded_writer_set s) (system_time s).
Definition set_wal_state (w : option WalState) (s : Store) : Store :=
  mkStore (engine s) (eviction_clock s) (fragment_write_timestamps s) w (wal_overlay s) (local_alias s)
    (signing_key s) (loaded_writer_set s) (system_time s).
Definition set_overlay (m : gmap bytes (BTreeMap.t bytes)) (s : Store) : Store :=
  mkStore (engine s) (eviction_clock s) (fragment_write_timestamps s) (wal s) m (local_alias s)
    (signing_key s) (loaded_writer_set s) (system_time s).
Definition set_loaded_writer_set (w : option WriterSet.t) (s : Store) : Store :=
  mkStore (engine s) (eviction_clock s) (fragment_write_timestamps s) (wal s) (wal_overlay s) (local_alias s)
    (signing_key s) w (system_time s).

(** Calls on the engine's other fields. *)
Definition on_engine {A} (m : EM A) : SM A := λ s,
  let '(r, e') := m (engine s) in (r, set_engine e' s).
Definition on_store {A} (m : TM A) : EM A := λ e,
  let '(r, st') := m (Engine.store e) in (r, set_store st' e).
Definition asks {A} (f : Store → A) : SM A := λ s, (Ok (f s), s).
Definition asks_res {A} (f : Store → res A) : SM A := λ s, (f s, s).
Definition update (f : Store → Store) : SM () := λ s, (Ok (), f s).

Definition hdr (s : Store) : ContainerHeader := header (engine s).
Definition bk (s : Store) : Backend.t := backend (engine s).

Definition is_hole (l : BlockLoc) : bool := (addr l =? 0) && (blk_len l =? 0).
Definition HOLE : BlockLoc := mkBlockLoc 0 0.

Definition empty_content_stream : StreamMeta :=
  mkStream [] [] VersionVector.new FRAGSIZE_FLOOR_EXP 0 [].

Definition old_stream (r : UnitRecord) : option StreamMeta := ur_content r.
Definition old_rec_frag_count (r : UnitRecord) : Z :=
  match old_stream r with Some sm => blen (sm_unit_map sm) | None => 0 end.

(** [1u64 << exp]; [UnitRecord::decode] bounds the exponent of a content stream. *)
Definition frag_bytes (exp : Z) : Z := Z.shiftl 1 exp.

Definition stream_byte_len (sm : StreamMeta) : Z :=
  let n := blen (sm_unit_map sm) in
  if n =? 0 then 0 else (n - 1) * frag_bytes (sm_fragsize_exp sm) + sm_last_frag_length sm.

(** The [while] loop pushes until the maps have [new_count] entries. *)
Definition grow_stream (sm : StreamMeta) (new_count : Z) : StreamMeta :=
  let missing := Z.to_nat (new_count - blen (sm_unit_map sm)) in
  mkStream (sm_unit_map sm ++ replicate missing 0) (sm_locations sm ++ replicate missing HOLE)
    (sm_vv sm) (sm_fragsize_exp sm) (sm_last_frag_length sm) (sm_pins sm).

(** ** Cipher suites of fragments *)

Definition record_content_suite (h : ContainerHeader) (r : UnitRecord) : Z :=
  default (cipher h) (ur_content_suite r).

Definition content_frag_suite_id (h : ContainerHeader) (r : UnitRecord) (frag : Z) : Z :=
  match ur_frag_suites r !! Z.to_nat frag with
  | Some id => id
  | None => record_content_suite h r
  end.

(** [if full.iter().all(|&s| s == first) { (first, []) } else { (cc, full) }] *)
Definition collapse_suites (first mixed : Z) (full : list Z) : Z * list Z :=
  if forallb (λ s, s =? first) full then (first, []) else (mixed, full).

Definition frag_suites_carryover (h : ContainerHeader) (old : UnitRecord) (n : Z) : Z * list Z :=
  let cc := content_cipher h in
  let old_n := old_rec_frag_count old in
  let full := (λ i, if i <? old_n then content_frag_suite_id h old i else cc) <$> seqZ 0 n in
  collapse_suites (default cc (head full)) cc full.

Definition import_frag_suites (h : ContainerHeader) (base : UnitRecord) (n frag imported : Z)
    : res (Z * list Z) :=
  let v := (λ i, if i =? frag then imported else content_frag_suite_id h base i) <$> seqZ 0 n in
  match v with
  | [] => Panic
  | first :: _ => Ok (collapse_suites first imported v)
  end.

(** [preserve_frag_suites]: a fragment whose location is the one [existing]
    records keeps its suite. *)
Definition preserved (existing : option UnitRecord) (i : Z) (l : BlockLoc) : option UnitRecord :=
  if is_hole l then None
  else
    ex ← existing;
    sm ← ur_content ex;
    el ← sm_locations sm !! Z.to_nat i;
    if negb (is_hole el) && (addr el =? addr l) && (blk_len el =? blk_len l) then Some ex else None.
Definition preserve_frag_suites (h : ContainerHeader) (existing : option UnitRecord)
    (locations : list BlockLoc) : Z * list Z :=
  let cc := content_cipher h in
  let full :=
    imap (λ i l, match preserved existing (Z.of_nat i) l with
                 | Some ex => content_frag_suite_id h ex (Z.of_nat i)
                 | None => cc
                 end) locations in
  collapse_suites (default cc (head full)) cc full.

(** ** WAL overlay *)

(** One write of [apply_overlay_to_read]. *)
Definition overlay_write_to_read (out : bytes) (write_offset : Z) (data : bytes)
    (read_offset read_end : Z) : res bytes :=
  write_end ← add64 write_offset (blen data);
  if write_end <=? read_offset then Ok out
  else
    let copy_start := Z.max read_offset write_offset in
    let copy_end := Z.min read_end write_end in
    if copy_end <=? copy_start then Ok out
    else
      let dst_start := copy_start - read_offset in
      let src_start := copy_start - write_offset in
      let copy_len := copy_end - copy_start in
      let out :=
        if blen out <? dst_start + copy_len
        then resize (Z.to_nat (dst_start + copy_len)) Init.Byte.x00 out else out in
      src ← index_range data src_start (src_start + copy_len);
      copy_at out dst_start src.

Fixpoint overlay_writes (ws : list (Z * bytes)) (out : bytes) (read_offset read_end : Z) : res bytes :=
  match ws with
  | [] => Ok out
  | (o, d) :: ws' =>
      out ← overlay_write_to_read out o d read_offset read_end;
      overlay_writes ws' out read_offset read_end
  end.

Definition apply_overlay_to_read (out : bytes) (writes : BTreeMap.t bytes) (read_offset read_len : Z)
    : res bytes :=
  read_end ← add64 read_offset read_len;
  overlay_writes (filter (λ e, e.1 < read_end) writes) out read_offset read_end.

Fixpoint apply_overlay_full (out : bytes) (writes : list (Z * bytes)) : res bytes :=
  match writes with
  | [] => Ok out
  | (write_offset, data) :: ws =>
      write_end ← add64 write_offset (blen data);
      let out := if blen out <? write_end then resize (Z.to_nat write_end) Init.Byte.x00 out else out in
      out ← copy_at out write_offset data;
      apply_overlay_full out ws
  end.

Definition apply_wal_overlay_partial (s : Store) (uuid out : bytes) (read_offset read_len : Z) : res bytes :=
  match wal_overlay s !! uuid with
  | Some writes => apply_overlay_to_read out writes read_offset read_len
  | None => Ok out
  end.
Definition apply_wal_overlay_full (s : Store) (uuid out : bytes) : res bytes :=
  match wal_overlay s !! uuid with
  | Some writes => apply_overlay_full out writes
  | None => Ok out
  end.

Section store.
Context `{!Crc32, !Hkdf, !Hmac, !Aes, !AesGcm, !Entropy, !Ed25519}.

(** ** Records and paths *)

(** [self.id_catalog.get_uuid(&self.backend, &uuid)] *)
Definition id_get (uuid : bytes) : EM (option Z) := λ e, (get_uuid (id_catalog e) (backend e) uuid, e).

Definition head_record_addr (path : bytes) : EM Z :=
  uuid ← uuid_for_path path;
  a ← id_get uuid;
  lift (ok_or a (NotFound "no record for path")).

(** [read_unit_record] and [write_unit_record] with the arguments every method
    of the engine passes. *)
Definition read_record_at (s : Store) (a : Z) : res UnitRecord :=
  read_unit_record (bk s) a (cipher (hdr s)) (root_key (engine s)) (sign_mode (hdr s))
    (writer_pubkey (hdr s)) (loaded_writer_set s).
Definition write_record (r : UnitRecord) (intent : RecordSignIntent) : SM Z := λ s,
  on_engine (on_store (write_unit_record r (cipher (hdr s)) (root_key (engine s)) (sign_mode (hdr s))
    (signing_key s) (loaded_writer_set s) (writer_pubkey (hdr s)) intent)) s.

(** The unit of a path and its decoded head record; [msg] is the error of a
    unit without a record. *)
Definition load_head (path : bytes) (msg : string) : SM (bytes * Z * UnitRecord) :=
  uuid ← on_engine (uuid_for_path path);
  a ← on_engine (id_get uuid);
  head_addr ← lift (ok_or a (NotFound msg));
  r ← asks_res (λ s, read_record_at s head_addr);
  mret (uuid, head_addr, r).

(** What follows the construction of a new head record: write it, point both
    catalogs at it, publish. *)
Definition install_record (path uuid : bytes) (r : UnitRecord) : SM () :=
  rec_addr ← write_record r Fresh;
  on_engine (id_put uuid rec_addr);;
  on_engine (key_put path uuid);;
  on_engine publish.

(** ** Fragments *)

Definition suite_of (id : Z) (msg : string) : res CipherSuite := ok_or (registry_get id) (Crypto msg).
Definition cipher_suite (h : ContainerHeader) : res CipherSuite :=
  suite_of (content_cipher h) "unknown content cipher suite id".
Definition cipher_for_frag (h : ContainerHeader) (r : UnitRecord) (frag : Z) : res CipherSuite :=
  suite_of (content_frag_suite_id h r frag) "unknown content cipher suite id".
Definition content_suite_from_opt (h : ContainerHeader) (suite : option Z) : res CipherSuite :=
  suite_of (default (cipher h) suite) "unknown content cipher suite id".

(** The context a fragment is sealed under; the index is cast to [u32]. *)
Definition frag_ctx (s : Store) (uuid : bytes) (frag version : Z) : BlockCtx :=
  mkBlockCtx uuid (frag `mod` 2 ^ 32) version (hdr_key_epoch (hdr s)).

Definition read_fragment (s : Store) (suite : CipherSuite) (uuid : bytes) (frag version : Z)
    (loc : BlockLoc) : res bytes :=
  ct ← Backend.read_at (bk s) (addr loc) (blk_len loc);
  open suite (root_key (engine s)) (frag_ctx s uuid frag version) ct.

(** [place_content_fragment] *)
Definition place_content_fragment (ct : bytes) : TM BlockLoc :=
  let len := blen ct in
  if (0 <? len) && (len <? BASE_BLOCK) then
    a ← on_ab (Allocator.alloc_packed len);
    write_block a ct;;
    mret (mkBlockLoc a (len `mod` 2 ^ 32))
  else
    loc ← on_ab (Allocator.alloc_aligned (len `mod` 2 ^ 32) LiveMid);
    write_block (addr loc) (padded_block ct);;
    mret (mkBlockLoc (addr loc) (len `mod` 2 ^ 32)).

(** ** Reads *)

(** The length of fragment [frag] of [n]. *)
Definition logical_frag_len (sm : StreamMeta) (frag : Z) : Z :=
  if frag =? blen (sm_unit_map sm) - 1 then sm_last_frag_length sm else frag_bytes (sm_fragsize_exp sm).

(** One round of the loop of [read]. *)
Definition read_one (s : Store) (r : UnitRecord) (sm : StreamMeta) (frag : Z) : res bytes :=
  loc ← index_list (sm_locations sm) frag;
  if is_hole loc then Ok (zeros (Z.to_nat (logical_frag_len sm frag)))
  else
    suite ← cipher_for_frag (hdr s) r frag;
    version ← index_list (sm_unit_map sm) frag;
    plain ← read_fragment s suite (ur_uuid r) frag version loc;
    let fragsize := frag_bytes (sm_fragsize_exp sm) in
    Ok (if frag =? blen (sm_unit_map sm) - 1
        then resize (Z.to_nat (sm_last_frag_length sm)) Init.Byte.x00 plain
        else if blen plain <? fragsize then resize (Z.to_nat fragsize) Init.Byte.x00 plain
        else plain).

Fixpoint read_all (s : Store) (r : UnitRecord) (sm : StreamMeta) (frags : list Z) : res bytes :=
  match frags with
  | [] => Ok []
  | frag :: frags' =>
      plain ← read_one s r sm frag;
      rest ← read_all s r sm frags';
      Ok (plain ++ rest)
  end.

(** The committed content of a record. *)
Definition read_content (s : Store) (r : UnitRecord) : res bytes :=
  match ur_content r with
  | None => Ok []
  | Some sm => read_all s r sm (seqZ 0 (blen (sm_unit_map sm)))
  end.

Definition read (path : bytes) : SM bytes :=
  head ← on_engine (head_record_addr path);
  r ← asks_res (λ s, read_record_at s head);
  out ← asks_res (λ s, read_content s r);
  asks_res (λ s, apply_wal_overlay_full s (ur_uuid r) out).

Inductive FragPlan :=
| Hole (zeros : Z)
| Real (suite : CipherSuite) (ctx : BlockCtx) (data : bytes) (take_from take_to : Z).

(** Phase A of [read_at]: the plan of one fragment. *)
Definition plan_frag (s : Store) (r : UnitRecord) (sm : StreamMeta) (offset bytes_to_read frag : Z)
    : res FragPlan :=
  loc ← index_list (sm_locations sm) frag;
  version ← index_list (sm_unit_map sm) frag;
  let frag_byte_start := frag * frag_bytes (sm_fragsize_exp sm) in
  let frag_byte_end := frag_byte_start + logical_frag_len sm frag in
  let take_from := Z.max offset frag_byte_start - frag_byte_start in
  let take_to := Z.min (offset + bytes_to_read) frag_byte_end - frag_byte_start in
  if is_hole loc then
    n ← sub64 take_to take_from;
    Ok (Hole n)
  else
    ciphertext ← Backend.read_at (bk s) (addr loc) (blk_len loc);
    suite ← cipher_for_frag (hdr s) r frag;
    Ok (Real suite (frag_ctx s (ur_uuid r) frag version) ciphertext take_from take_to).

Fixpoint plan_all (s : Store) (r : UnitRecord) (sm : StreamMeta) (offset bytes_to_read : Z)
    (frags : list Z) : res (list FragPlan) :=
  match frags with
  | [] => Ok []
  | frag :: frags' =>
      p ← plan_frag s r sm offset bytes_to_read frag;
      ps ← plan_all s r sm offset bytes_to_read frags';
      Ok (p :: ps)
  end.

(** Phase B: every fragment is opened under its own context.  The worker pool
    opens them in any order and the buffers are put back by index; of several
    failures the one reported depends on the schedule, here it is the first. *)
Fixpoint open_plans (key : bytes) (ps : list FragPlan) : res (list FragPlan) :=
  match ps with
  | [] => Ok []
  | Hole n :: ps' => rest ← open_plans key ps'; Ok (Hole n :: rest)
  | Real suite ctx data a b :: ps' =>
      plain ← open suite key ctx data;
      rest ← open_plans key ps';
      Ok (Real suite ctx plain a b :: rest)
  end.

(** Phase C: one entry of the plan. *)
Definition assemble_one (p : FragPlan) : res bytes :=
  match p with
  | Hole n => Ok (zeros (Z.to_nat n))
  | Real _ _ data take_from take_to =>
      let real_end := Z.min take_to (blen data) in
      s ← (if take_from <? real_end then index_range data take_from real_end else Ok []);
      Ok (s ++ (if real_end <? take_to then zeros (Z.to_nat (take_to - real_end)) else []))
  end.
Fixpoint assemble (ps : list FragPlan) : res bytes :=
  match ps with
  | [] => Ok []
  | p :: ps' => s ← assemble_one p; rest ← assemble ps'; Ok (s ++ rest)
  end.

(** The window of [read_at] over a decoded record. *)
Definition read_window (s : Store) (r : UnitRecord) (offset len : Z) : res bytes :=
  if len =? 0 then Ok []
  else
    match ur_content r with
    | None => apply_wal_overlay_partial s (ur_uuid r) [] offset len
    | Some sm =>
        let n_frags := blen (sm_unit_map sm) in
        if n_frags =? 0 then apply_wal_overlay_partial s (ur_uuid r) [] offset len
        else
          let exp := sm_fragsize_exp sm in
          let unit_size := (n_frags - 1) * frag_bytes exp + sm_last_frag_length sm in
          if unit_size <=? offset then apply_wal_overlay_partial s (ur_uuid r) [] offset len
          else
            let bytes_to_read := Z.min len (unit_size - offset) in
            start_frag ← frag_index offset exp;
            end_frag ← frag_index (offset + bytes_to_read - 1) exp;
            ps ← plan_all s r sm offset bytes_to_read (seqZ start_frag (end_frag - start_frag + 1));
            ps ← open_plans (root_key (engine s)) ps;
            out ← assemble ps;
            apply_wal_overlay_partial s (ur_uuid r) out offset len
    end.

(** The head record, from the cache when it was read at the current address. *)
Definition cached_record (uuid : bytes) (head_addr : Z) : SM UnitRecord :=
  hit ← asks_res (λ s, RecordCache.get (record_cache (engine s)) uuid head_addr);
  let '(cached, cache) := hit in
  on_engine (modify (set_record_cache cache));;
  match cached with
  | Some r => mret r
  | None =>
      r ← asks_res (λ s, read_record_at s head_addr);
      cache ← asks_res (λ s, RecordCache.put (record_cache (engine s)) uuid head_addr r);
      on_engine (modify (set_record_cache cache));;
      mret r
  end.

Definition read_at (path : bytes) (offset len : Z) : SM bytes :=
  uuid ← on_engine (uuid_for_path path);
  a ← on_engine (id_get uuid);
  head_addr ← lift (ok_or a (NotFound "no record for path"));
  r ← cached_record uuid head_addr;
  asks_res (λ s, read_window s r offset len).

(** [unit_summary] *)
Record UnitSummary := mkSummary {
  us_uuid : bytes;
  us_is_dir : bool;
  us_size : Z;
  us_fragment_count : Z;
  us_version : Z;
}.

Definition max_version (l : list Z) : Z := foldr Z.max 0 l.

Definition unit_summary (path : bytes) : SM UnitSummary :=
  head ← on_engine (head_record_addr path);
  r ← asks_res (λ s, read_record_at s head);
  mret
    match ur_content r with
    | Some sm =>
        mkSummary (ur_uuid r) false (stream_byte_len sm) (blen (sm_unit_map sm))
          (max_version (sm_unit_map sm))
    | None =>
        mkSummary (ur_uuid r) true 0 0
          (match ur_meta r with Some sm => max_version (sm_unit_map sm) | None => 0 end)
    end.

(** ** Directories *)

Record DirEntry := mkDirEntry { de_name : bytes; de_is_dir : bool; de_uuid : option bytes }.

Definition is_meta_only_unit (s : Store) (uuid : bytes) : res bool :=
  a ← get_uuid (id_catalog (engine s)) (bk s) uuid;
  match a with
  | None => Ok false
  | Some head_addr =>
      r ← read_record_at s head_addr;
      Ok (bool_decide (is_Some (ur_meta r)) && negb (bool_decide (is_Some (ur_content r))))
  end.

(** The first segment of a path and whether more follow; [remainder.find('/')]. *)
Fixpoint first_segment (remainder : bytes) : bytes * bool :=
  match remainder with
  | [] => ([], false)
  | x :: rest =>
      if bool_decide (x = SLASH) then ([], true)
      else let '(segment, has_deeper) := first_segment rest in (x :: segment, has_deeper)
  end.

(** The loop over the scanned paths. *)
Fixpoint list_segments (s : Store) (prefix : bytes) (pairs : list (bytes * bytes))
    (segments : StrMap.t (bool * option bytes)) : res (StrMap.t (bool * option bytes)) :=
  match pairs with
  | [] => Ok segments
  | (path_bytes, uuid) :: pairs' =>
      full_path ← from_utf8 path_bytes (Integrity "non-utf8 path key");
      if bool_decide (prefix `prefix_of` full_path) then
        let '(segment, has_deeper) := first_segment (drop (length prefix) full_path) in
        let entry := default (false, None) (StrMap.get segments segment) in
        entry ←
          (if has_deeper then Ok (true, entry.2)
           else if negb entry.1 then
             is_meta_only ← is_meta_only_unit s uuid;
             Ok (is_meta_only, Some uuid)
           else Ok (entry.1, Some uuid));
        list_segments s prefix pairs' (StrMap.insert segments segment entry)
      else Err (Integrity "scan_paths returned path without prefix")
  end.

Definition list_dir (prefix : bytes) : SM (list DirEntry) :=
  pairs ← on_engine (key_scan prefix);
  segments ← asks_res (λ s, list_segments s prefix pairs []);
  mret ((λ e, mkDirEntry e.1 e.2.1 e.2.2) <$> segments).

End store.
