(* ===== verification/StoreView.v ===== *)
(** * What a content stream stores

    [stored] relates the content stream of a record to the plaintexts of its
    fragments, and [content] is the file they form.  [read] returns that file;
    [read_at], which plans, decrypts and assembles only the fragments of its
    window, returns what [pread(2)] returns of it. *)

From S2P Require Import Prelude.
From S2P Require Import BTree.
From S2P Require Import Posix.
From S2P Require Import Vector.
From S2P Require Import Block.
From S2P Require Import Backend.
From S2P Require Import Crypto.
From S2P Require Import Header.
From S2P Require Import Alloc.
From S2P Require Import Unit.
From S2P Require Import WriterSet.
From S2P Require Import Trie.
From S2P Require Import Records.
From S2P Require Import Engine.
From S2P Require Import Store.
Import PosixFile.

(** The byte at [x] of fragments of [2 ^ exp] bytes. *)
Definition frag_byte (exp : Z) (plains : list bytes) (x : Z) : Init.Byte.byte :=
  fbyte (default [] (plains !! Z.to_nat (x `div` frag_bytes exp))) (x `mod` frag_bytes exp).

Definition content (sm : StreamMeta) (plains : list bytes) : bytes :=
  tabulate (frag_byte (sm_fragsize_exp sm) plains) (stream_byte_len sm).

Section view.
Context `{!Crc32, !Hkdf, !Hmac, !Aes, !AesGcm, !Entropy, !Ed25519}.

(** The plaintext of fragment [i]: a hole has none, any other opens. *)
Definition opens_to (s : Store) (r : UnitRecord) (sm : StreamMeta) (i : nat) (p : bytes) : Prop :=
  ∃ loc, sm_locations sm !! i = Some loc ∧
    if is_hole loc then p = []
    else ∃ version suite, sm_unit_map sm !! i = Some version ∧
      cipher_for_frag (hdr s) r (Z.of_nat i) = Ok suite ∧
      read_fragment s suite (ur_uuid r) (Z.of_nat i) version loc = Ok p.

(** The shape of a stream: its two tables have an entry per fragment, and its
    last fragment is not empty. *)
Record shaped (sm : StreamMeta) (n : Z) : Prop := {
  sh_map : blen (sm_unit_map sm) = n;
  sh_locs : blen (sm_locations sm) = n;
  sh_count : n < 2 ^ 32;
  sh_exp : content_exp_ok sm;
  sh_last : 0 < n → 0 < sm_last_frag_length sm ≤ frag_bytes (sm_fragsize_exp sm);
}.

Record stored (s : Store) (r : UnitRecord) (sm : StreamMeta) (plains : list bytes) : Prop := {
  st_shape : shaped sm (blen plains);
  st_frags : ∀ i p, plains !! i = Some p → opens_to s r sm i p ∧ blen p ≤ frag_bytes (sm_fragsize_exp sm);
}.

Lemma frag_bytes_pos sm : content_exp_ok sm → 4096 ≤ frag_bytes (sm_fragsize_exp sm) ≤ 2 ^ 25.
Proof.
  unfold content_exp_ok, MIN_FRAGSIZE_EXP, MAX_FRAGSIZE_EXP, frag_bytes. intros.
  rewrite Z.shiftl_1_l. split; [change 4096 with (2 ^ 12)|]; apply Z.pow_le_mono_r; lia.
Qed.

Lemma shaped_size sm n :
  shaped sm n → 0 ≤ n → stream_byte_len sm = if n =? 0 then 0 else (n - 1) * frag_bytes (sm_fragsize_exp sm) + sm_last_frag_length sm.
Proof. intros [Hm _ _ _ _] _. unfold stream_byte_len. by rewrite Hm. Qed.

Lemma shaped_frag_len sm n f : shaped sm n → 0 ≤ f < n →
  let fs := frag_bytes (sm_fragsize_exp sm) in
  0 < logical_frag_len sm f ≤ fs ∧ (f + 1 < n → logical_frag_len sm f = fs) ∧
  f * fs + logical_frag_len sm f = Z.min (stream_byte_len sm) ((f + 1) * fs).
Proof.
  intros Hsh Hf fs. pose proof (shaped_size _ _ Hsh ltac:(lia)) as Hs. destruct Hsh as [Hm _ _ He Hl].
  pose proof (frag_bytes_pos _ He). specialize (Hl ltac:(lia)). unfold logical_frag_len. rewrite Hm. fold fs in Hs, Hl |- *.
  destruct (Z.eqb_spec n 0); [lia|].
  destruct (Z.eqb_spec f (n - 1)) as [->|]; [nia|]. split_and!; [lia|lia|done|]. nia.
Qed.

Lemma index_list_ok {A} (l : list A) i x : 0 ≤ i → l !! Z.to_nat i = Some x → index_list l i = Ok x.
Proof. intros ? Hx. unfold index_list. replace (0 <=? i) with true by lia. by rewrite Hx. Qed.

Lemma is_hole_read sm plains s r i p :
  stored s r sm plains → plains !! i = Some p →
  ∃ loc version, sm_locations sm !! i = Some loc ∧ sm_unit_map sm !! i = Some version ∧
    if is_hole loc then p = []
    else ∃ suite, cipher_for_frag (hdr s) r (Z.of_nat i) = Ok suite ∧
      read_fragment s suite (ur_uuid r) (Z.of_nat i) version loc = Ok p.
Proof.
  intros [[Hm Hlo _ _ _] Hf] Hp. destruct (Hf i p Hp) as [(loc&Hloc&Ho) _].
  pose proof (lookup_lt_Some _ _ _ Hp). destruct (lookup_lt_is_Some_2 (sm_unit_map sm) i) as [v Hv];
    [unfold blen in *; lia|].
  exists loc, v. split_and!; [done..|]. destruct (is_hole loc); [done|].
  destruct Ho as (v'&suite&Hv'&?&?). rewrite Hv in Hv'. injection Hv' as <-. eauto.
Qed.

(** ** Full reads *)

Section one_stream.
Context (s : Store) (r : UnitRecord) (sm : StreamMeta) (plains : list bytes).
Hypothesis Hst : stored s r sm plains.

Local Abbreviation fs := (frag_bytes (sm_fragsize_exp sm)).
Local Abbreviation size := (stream_byte_len sm).
Local Abbreviation byte_of := (frag_byte (sm_fragsize_exp sm) plains).

Lemma fs_range : 4096 ≤ fs ≤ 2 ^ 25.
Proof. apply frag_bytes_pos, Hst. Qed.

Lemma stream_size : size = if blen plains =? 0 then 0 else (blen plains - 1) * fs + sm_last_frag_length sm.
Proof. eapply shaped_size; [apply Hst|apply blen_nonneg]. Qed.

Lemma size_range : 0 ≤ size ≤ blen plains * fs.
Proof.
  rewrite stream_size. pose proof fs_range. destruct Hst as [[_ _ _ _ Hl] _].
  pose proof (blen_nonneg plains). case_match; [nia|]. specialize (Hl ltac:(lia)). nia.
Qed.

Lemma frag_len f : 0 ≤ f < blen plains →
  0 < logical_frag_len sm f ≤ fs ∧ (f + 1 < blen plains → logical_frag_len sm f = fs) ∧
  f * fs + logical_frag_len sm f = Z.min size ((f + 1) * fs).
Proof. apply shaped_frag_len, Hst. Qed.

Lemma byte_in_frag f p j :
  plains !! Z.to_nat f = Some p → 0 ≤ f → 0 ≤ j < fs → byte_of (f * fs + j) = fbyte p j.
Proof.
  intros Hp Hf Hj. unfold frag_byte. rewrite Z.div_add_l, Z.div_small, Z.add_0_r by lia.
  rewrite Hp. cbn. f_equal. rewrite Z.add_comm, Z.mod_add by lia. by rewrite Z.mod_small.
Qed.

(** Bytes [from, to) of a fragment, zero-extended, as a piece of the file. *)
Lemma frag_segment f p from to F :
  plains !! Z.to_nat f = Some p → 0 ≤ f → 0 ≤ from ≤ to → to ≤ fs → blen F = to - from →
  (∀ x, 0 ≤ x < to - from → fbyte F x = fbyte p (from + x)) →
  F = segment byte_of (f * fs + from) (to - from).
Proof.
  intros Hp ???? HF. apply segment_ext; [lia|done|]. intros x Hx. rewrite HF by done.
  rewrite <-Z.add_assoc, (byte_in_frag f p) by (done || lia). done.
Qed.

Lemma plains_lookup f : 0 ≤ f < blen plains → ∃ p, plains !! Z.to_nat f = Some p ∧ blen p ≤ fs.
Proof.
  intros Hf. destruct (lookup_lt_is_Some_2 plains (Z.to_nat f)) as [p Hp]; [unfold blen in *; lia|].
  exists p. split; [done|]. by apply (st_frags _ _ _ _ Hst _ _ Hp).
Qed.

Lemma read_one_spec f : 0 ≤ f < blen plains →
  read_one s r sm f = Ok (segment byte_of (f * fs) (logical_frag_len sm f)).
Proof.
  intros Hf. destruct (plains_lookup f Hf) as (p&Hp&Hpl). destruct (frag_len f Hf) as (HL&HL'&_).
  pose proof fs_range.
  destruct (is_hole_read _ _ _ _ _ _ Hst Hp) as (loc&v&Hloc&Hv&Ho).
  assert (∀ F, blen F = logical_frag_len sm f → (∀ x, 0 ≤ x < logical_frag_len sm f → fbyte F x = fbyte p x) →
    F = segment byte_of (f * fs) (logical_frag_len sm f)) as Hseg.
  { intros F HF HF'. rewrite <-(Z.add_0_r (f * fs)), <-(Z.sub_0_r (logical_frag_len sm f)).
    apply (frag_segment f p); [done|lia|lia|lia|lia|]. intros x Hx. apply HF'. lia. }
  unfold read_one. rewrite (index_list_ok _ _ loc) by (done || lia). cbn [mbind res_bind].
  destruct (is_hole loc); [subst p|].
  - f_equal. apply Hseg; [rewrite blen_zeros; lia|]. intros x Hx.
    rewrite fbyte_zeros, fbyte_past by (rewrite blen_nil; lia). done.
  - destruct Ho as (suite&Hs&Hr). rewrite Z2Nat.id in Hs, Hr by lia. rewrite Hs. cbn [mbind res_bind].
    rewrite (index_list_ok _ _ v) by (done || lia). cbn [mbind res_bind]. rewrite Hr. cbn [mbind res_bind].
    f_equal. apply Hseg; unfold logical_frag_len in *.
    + destruct (Z.eqb_spec f (blen (sm_unit_map sm) - 1)); [rewrite blen_resize; lia|].
      destruct (Z.ltb_spec (blen p) fs); [rewrite blen_resize; lia|lia].
    + intros x Hx. destruct (f =? blen (sm_unit_map sm) - 1); [by rewrite fbyte_resize|].
      case_match; [by rewrite fbyte_resize|done].
Qed.

Lemma read_all_spec k f :
  0 ≤ f → f + Z.of_nat k = blen plains →
  read_all s r sm (seqZ f (Z.of_nat k)) = Ok (segment byte_of (f * fs) (size - f * fs)).
Proof.
  revert f. induction k as [|k IH]; intros f Hf Hk.
  - cbn. rewrite segment_empty; [done|]. pose proof size_range. nia.
  - rewrite seqZ_cons by lia. cbn [read_all]. rewrite read_one_spec by lia. cbn [mbind res_bind].
    destruct (frag_len f ltac:(lia)) as (HL&HL'&Hend). pose proof fs_range.
    replace (Z.pred (Z.of_nat (S k))) with (Z.of_nat k) by lia. change (Z.succ f) with (f + 1).
    rewrite IH by lia. cbn [mbind res_bind]. f_equal. destruct k as [|k].
    + pose proof size_range. replace (blen plains) with (f + 1) in * by lia.
      rewrite (segment_empty _ ((f + 1) * fs)), app_nil_r by lia. f_equal. lia.
    + replace ((f + 1) * fs) with (f * fs + logical_frag_len sm f) by lia.
      rewrite segment_app by lia. f_equal. lia.
Qed.

Lemma read_content_spec : ur_content r = Some sm → read_content s r = Ok (content sm plains).
Proof.
  intros Hc. unfold read_content. rewrite Hc. rewrite (sh_map _ _ (st_shape _ _ _ _ Hst)).
  unfold blen at 1. rewrite (read_all_spec (length plains) 0) by (unfold blen; lia).
  unfold content, tabulate. do 2 f_equal. lia.
Qed.

(** ** Windows *)

Context (offset n : Z).
Hypothesis Hoff : 0 ≤ offset.
Hypothesis Hn : 0 < n.
Hypothesis Hend : offset + n ≤ size.

Local Abbreviation key := (root_key (engine s)).
(** Where the window starts and ends in a fragment. *)
Local Abbreviation lo f := (Z.max offset (f * fs)).
Local Abbreviation hi f := (Z.min (offset + n) (f * fs + logical_frag_len sm f)).

(** How far the plaintext of a stored fragment falls short of the window. *)
Definition excess (f : Z) : Z :=
  match sm_locations sm !! Z.to_nat f, plains !! Z.to_nat f with
  | Some loc, Some p => if is_hole loc then 0 else Z.max 0 (lo f - f * fs - blen p)
  | _, _ => 0
  end.

Lemma plan_spec f : 0 ≤ f < blen plains → lo f ≤ hi f →
  ∃ p p', plan_frag s r sm offset n f = Ok p ∧ (∀ ps, open_plans key (p :: ps) = rest ← open_plans key ps; Ok (p' :: rest)) ∧
    assemble_one p' = Ok (zeros (Z.to_nat (excess f)) ++ segment byte_of (lo f) (hi f - lo f)).
Proof.
  intros Hf Hlh. destruct (plains_lookup f Hf) as (p&Hp&Hpl). destruct (frag_len f Hf) as (HL&HL'&_).
  pose proof fs_range. destruct (is_hole_read _ _ _ _ _ _ Hst Hp) as (loc&v&Hloc&Hv&Ho).
  set (from := lo f - f * fs). set (to := hi f - f * fs).
  assert (0 ≤ from ≤ to ∧ to ≤ logical_frag_len sm f) as (?&?) by lia.
  assert (∀ F, blen F = to - from → (∀ x, 0 ≤ x < to - from → fbyte F x = fbyte p (from + x)) →
    F = segment byte_of (lo f) (hi f - lo f)) as Hseg.
  { intros F HF HF'. rewrite (frag_segment f p from to F) by (done || lia). f_equal; lia. }
  unfold plan_frag, excess. rewrite (index_list_ok _ _ loc) by (done || lia). cbn [mbind res_bind].
  rewrite (index_list_ok _ _ v) by (done || lia). cbn [mbind res_bind]. rewrite Hloc, Hp. fold from to.
  destruct (is_hole loc); [subst p|].
  - rewrite sub64_ok by lia. exists (Hole (to - from)), (Hole (to - from)). split_and!; [done..|].
    cbn. f_equal. apply Hseg; [rewrite blen_zeros; lia|]. intros x Hx.
    rewrite fbyte_zeros, fbyte_past by (rewrite blen_nil; lia). done.
  - destruct Ho as (suite&Hs&Hr). rewrite Z2Nat.id in Hs, Hr by lia.
    unfold read_fragment in Hr. apply bind_ok in Hr as (ct&Hct&Hopen). rewrite Hct. cbn [mbind res_bind].
    rewrite Hs. cbn [mbind res_bind]. set (ctx := frag_ctx _ _ _ _) in *.
    exists (Real suite ctx ct from to), (Real suite ctx p from to). cbn [open_plans]. rewrite Hopen.
    cbn [mbind res_bind assemble_one]. split_and!; [done..|]. cbv zeta.
    remember (Z.min to (blen p)) as re eqn:Hre. clearbody from to. pose proof (blen_nonneg p).
    destruct (Z.ltb_spec from re).
    + rewrite index_range_ok by lia. cbn [mbind res_bind]. replace (Z.max 0 (from - blen p)) with 0 by lia.
      cbn [Z.to_nat zeros replicate app]. f_equal. apply Hseg.
      * rewrite blen_app, blen_take, blen_drop by lia. destruct (Z.ltb_spec re to); [rewrite blen_zeros; lia|]. change (blen []) with 0. lia.
      * intros x Hx. rewrite fbyte_app, blen_take, blen_drop by lia. case_decide.
        { by rewrite fbyte_take, fbyte_drop by lia. }
        replace (re <? to) with true by lia. rewrite fbyte_zeros, fbyte_past by lia. done.
    + cbn [mbind res_bind app]. f_equal. rewrite <-(Hseg (zeros (Z.to_nat (to - from)))).
      * destruct (Z.ltb_spec re to).
        { unfold zeros. rewrite <-replicate_add. f_equal. lia. }
        replace (Z.to_nat (Z.max 0 (from - blen p))) with 0%nat by lia. by replace (Z.to_nat (to - from)) with 0%nat by lia.
      * rewrite blen_zeros. lia.
      * intros x Hx. rewrite fbyte_zeros, fbyte_past by lia. done.
Qed.

Lemma excess_later f : offset ≤ f * fs → excess f = 0.
Proof.
  intros Hf. unfold excess. destruct (sm_locations sm !! Z.to_nat f); [|done].
  destruct (plains !! Z.to_nat f) as [p|]; [|done]. pose proof (blen_nonneg p). case_match; lia.
Qed.

Lemma window_spec k f :
  0 ≤ f → offset < (f + 1) * fs → f + Z.of_nat k = (offset + n - 1) `div` fs + 1 →
  ∃ ps ps', plan_all s r sm offset n (seqZ f (Z.of_nat k)) = Ok ps ∧ open_plans key ps = Ok ps' ∧
    assemble ps' = Ok (zeros (Z.to_nat (excess f)) ++ segment byte_of (lo f) (offset + n - lo f)).
Proof.
  pose proof fs_range. pose proof size_range.
  assert (0 ≤ (offset + n - 1) `div` fs < blen plains) as Hlast.
  { split; [apply Z.div_pos; lia|]. apply Z.div_lt_upper_bound; lia. }
  pose proof (Z.mul_div_le (offset + n - 1) fs ltac:(lia)) as Hle.
  pose proof (Z.mul_succ_div_gt (offset + n - 1) fs ltac:(lia)) as Hgt.
  set (e := (offset + n - 1) `div` fs) in *.
  revert f. induction k as [|k IH]; intros f Hf Hst0 Hk.
  - exists [], []. cbn. split_and!; [done..|]. rewrite excess_later, segment_empty by nia. done.
  - destruct (frag_len f ltac:(lia)) as (HL&HL'&HLe).
    assert (f * fs ≤ e * fs) by nia.
    assert (lo f ≤ hi f) as Hlh.
    { assert (offset ≤ f * fs + logical_frag_len sm f); [|lia]. lia. }
    destruct (plan_spec f ltac:(lia) Hlh) as (p&p'&Hp&Hop&Has).
    rewrite seqZ_cons by lia. replace (Z.pred (Z.of_nat (S k))) with (Z.of_nat k) by lia.
    change (Z.succ f) with (f + 1). destruct (IH (f + 1)) as (ps&ps'&Hps&Hops&Hass); [lia|lia|lia|].
    exists (p :: ps), (p' :: ps'). cbn [plan_all]. rewrite Hp. cbn [mbind res_bind]. rewrite Hps.
    split; [done|]. rewrite Hop, Hops. split; [done|]. cbn [assemble]. rewrite Has. cbn [mbind res_bind].
    rewrite Hass. cbn [mbind res_bind]. rewrite (excess_later (f + 1)) by lia.
    change (zeros (Z.to_nat 0) ++ ?F) with F.
    rewrite <-app_assoc. do 2 f_equal. destruct k as [|k].
    + assert (f = e) by lia. subst f. replace (hi e) with (offset + n) by lia.
      rewrite (segment_empty _ (lo (e + 1))), app_nil_r; [done|]. nia.
    + specialize (HL' ltac:(lia)). assert ((f + 1) * fs ≤ e * fs) by nia.
      replace (hi f) with ((f + 1) * fs) by lia. replace (lo (f + 1)) with (lo f + ((f + 1) * fs - lo f)) by lia.
      rewrite segment_app by lia. f_equal. lia.
Qed.

End one_stream.

(** The zeros [read_at] returns before the bytes asked for: the plaintext of
    the first fragment of the window may end before the window starts, when the
    file was extended after the fragment was written. *)
Definition surplus (sm : StreamMeta) (plains : list bytes) (offset : Z) : Z :=
  excess sm plains offset (offset `div` frag_bytes (sm_fragsize_exp sm)).

(** A unit without pending asynchronous writes. *)
Lemma read_window_spec s r sm plains offset len :
  stored s r sm plains → ur_content r = Some sm → wal_overlay s !! ur_uuid r = None →
  u64 offset → u64 len →
  read_window s r offset len =
    Ok (if (0 <? len) && (offset <? stream_byte_len sm)
        then zeros (Z.to_nat (surplus sm plains offset)) ++ pread (content sm plains) offset len else []).
Proof.
  intros Hst Hc Hov Hoff Hlen. pose proof (size_range _ _ _ _ Hst) as Hs. pose proof (fs_range _ _ _ _ Hst).
  pose proof (st_shape _ _ _ _ Hst) as [Hm Hlo Hcnt Hexp Hlast].
  unfold content. rewrite pread_tabulate by width_lia.
  unfold read_window, apply_wal_overlay_partial. rewrite Hov, Hc.
  destruct (Z.eqb_spec len 0) as [->|Hlen0]; [done|]. replace (0 <? len) with true by width_lia. cbn [andb].
  pose proof (stream_size _ _ _ _ Hst) as Hss. unfold stream_byte_len in *. rewrite Hm in *.
  destruct (Z.eqb_spec (blen plains) 0) as [E|E]; [by replace (offset <? 0) with false by width_lia|].
  set (size := (blen plains - 1) * _ + _) in *.
  destruct (Z.leb_spec size offset); [by replace (offset <? size) with false by lia|].
  replace (offset <? size) with true by lia. set (n := Z.min len (size - offset)).
  assert (∀ x, 0 ≤ x < size → frag_index x (sm_fragsize_exp sm) = Ok (x `div` frag_bytes (sm_fragsize_exp sm))) as Hfi.
  { intros x Hx. unfold frag_index, content_exp_ok, MIN_FRAGSIZE_EXP, MAX_FRAGSIZE_EXP, frag_bytes in *.
    replace (sm_fragsize_exp sm <? 32) with true by lia. rewrite Z.shiftl_1_l in *. rewrite Z.shiftr_div_pow2 by lia.
    rewrite Z.mod_small; [done|]. split; [apply Z.div_pos; lia|]. apply Z.div_lt_upper_bound; [lia|]. nia. }
  rewrite !Hfi by width_lia. cbn [mbind res_bind]. unfold surplus.
  pose proof (Z.mul_div_le offset (frag_bytes (sm_fragsize_exp sm)) ltac:(lia)).
  pose proof (Z.mul_succ_div_gt offset (frag_bytes (sm_fragsize_exp sm)) ltac:(lia)).
  pose proof (Z.div_le_mono offset (offset + n - 1) (frag_bytes (sm_fragsize_exp sm)) ltac:(lia) ltac:(width_lia)).
  set (k := (offset + n - 1) `div` _ - _ + 1).
  destruct (window_spec s r sm plains Hst offset n) with
    (k := Z.to_nat k) (f := offset `div` frag_bytes (sm_fragsize_exp sm)) as (ps&ps'&Hps&Hops&Has).
  - width_lia.
  - width_lia.
  - unfold stream_byte_len. rewrite Hm. replace (blen plains =? 0) with false by lia. fold size. lia.
  - apply Z.div_pos; width_lia.
  - lia.
  - lia.
  - rewrite Z2Nat.id in Hps by lia. rewrite Hps. cbn [mbind res_bind]. rewrite Hops. cbn [mbind res_bind].
    rewrite Has. cbn [mbind res_bind]. do 2 f_equal. replace (Z.max offset _) with offset by lia. f_equal. unfold n. width_lia.
Qed.

End view.
