(* ===== verification/Content.v ===== *)
(** * The content path of the engine: writes

    [version/store.rs]: creation of units, [write] with its copy-on-write and
    in-place paths, the re-chunking of a stream that outgrows its fragment
    size, [truncate] and [extend], the eviction of superseded fragments, and
    the metadata stream. *)

From S2P Require Import Prelude.
From S2P Require Import BTree.
From S2P Require Import Vector.
From S2P Require Import Block.
From S2P Require Import Backend.
From S2P Require Import Crypto.
From S2P Require Import Header.
From S2P Require Import Alloc.
From S2P Require Import Unit.
From S2P Require Import Retention.
From S2P Require Import WriterSet.
From S2P Require Import Trie.
From S2P Require Import Records.
From S2P Require Import Engine.
From S2P Require Import Store.

Definition INPLACE_BATCH_BYTES : Z := 64 * 1024 * 1024.

(** [a.div_ceil(b)] *)
Definition div_ceil (a b : Z) : Z := (a + b - 1) `div` b.

(** Assignments to the fields of a stream. *)
Definition sm_set_vv (v : VersionVector.t) (sm : StreamMeta) : StreamMeta :=
  mkStream (sm_unit_map sm) (sm_locations sm) v (sm_fragsize_exp sm) (sm_last_frag_length sm) (sm_pins sm).
Definition sm_set_exp (e : Z) (sm : StreamMeta) : StreamMeta :=
  mkStream (sm_unit_map sm) (sm_locations sm) (sm_vv sm) e (sm_last_frag_length sm) (sm_pins sm).
Definition sm_set_last (l : Z) (sm : StreamMeta) : StreamMeta :=
  mkStream (sm_unit_map sm) (sm_locations sm) (sm_vv sm) (sm_fragsize_exp sm) l (sm_pins sm).
Definition sm_set_pins (p : list CommitBitmap) (sm : StreamMeta) : StreamMeta :=
  mkStream (sm_unit_map sm) (sm_locations sm) (sm_vv sm) (sm_fragsize_exp sm) (sm_last_frag_length sm) p.
(** [sm.unit_map[frag] = v; sm.locations[frag] = l] *)
Definition sm_set_frag (frag version : Z) (l : BlockLoc) (sm : StreamMeta) : StreamMeta :=
  mkStream (<[Z.to_nat frag := version]> (sm_unit_map sm)) (<[Z.to_nat frag := l]> (sm_locations sm))
    (sm_vv sm) (sm_fragsize_exp sm) (sm_last_frag_length sm) (sm_pins sm).

(** A new version of the unit [uuid]: the fields every writer of a head record
    sets. *)
Definition successor (uuid : bytes) (old : UnitRecord) (head_addr : Z) (content meta : option StreamMeta)
    (suite : Z) (frag_suites : list Z) : UnitRecord :=
  mkUnit uuid content meta (Some head_addr) [] (Some suite) frag_suites None (ur_db old) [].

(** The commits that pin [frag], and the pins with its bit cleared. *)
Definition pinned_by (frag : Z) (pins : list CommitBitmap) : list bytes :=
  bm_commit <$> filter (λ p, Is_true (bitmap_get_bit (bm_bits p) frag)) pins.
Definition unpin_frag (frag : Z) (pins : list CommitBitmap) : list CommitBitmap :=
  (λ p, if bitmap_get_bit (bm_bits p) frag
        then mkBitmap (bm_commit p) (bitmap_clear_bit (bm_bits p) frag) else p) <$> pins.

(** Padding to the fragment size, or to the minimum of the suite. *)
Definition pad_plain (pad_blocks : bool) (exp min_len : Z) (plain : bytes) : bytes :=
  if pad_blocks then
    if blen plain <? frag_bytes exp then resize (Z.to_nat (frag_bytes exp)) Init.Byte.x00 plain else plain
  else if blen plain <? min_len then resize (Z.to_nat min_len) Init.Byte.x00 plain
  else plain.

(** [plain[..copy].copy_from_slice(&existing[..copy])] *)
Definition copy_prefix (plain existing : bytes) : bytes :=
  take (length plain) existing ++ drop (length existing) plain.

Section content.
Context `{!Crc32, !Hkdf, !Hmac, !Aes, !AesGcm, !Entropy, !Ed25519, !UuidSource}.

Definition write_timestamp (s : Store) : Z := default (system_time s) (eviction_clock s).

(** [evict_block] *)
Definition evict_block (uuid : bytes) (frag old_version : Z) (old_loc : BlockLoc)
    (commits : list bytes) (inplace_addr target_commit_seq : Z) : SM () :=
  timestamp ← asks (λ s, default (write_timestamp s) (fragment_write_timestamps s !! (uuid, frag)));
  stored ← asks_res (λ s, Backend.read_at (bk s) (addr old_loc) (blk_len old_loc));
  let encoded := encode_evicted (mkEvicted uuid frag (blk_len old_loc) old_version commits stored
                   timestamp inplace_addr target_commit_seq) in
  loc ← on_engine (on_store (on_ab (Allocator.alloc_aligned (blen encoded `mod` 2 ^ 32) EvictionTail)));
  on_engine (on_store (write_block (addr loc) (padded_block encoded))).

(** [self.fragment_write_timestamps.insert((uuid, frag), ts)] *)
Definition stamp (uuid : bytes) (frag ts : Z) : SM () :=
  update (λ s, set_timestamps (<[(uuid, frag) := ts]> (fragment_write_timestamps s)) s).

(** ** Writing a range *)

(** The plaintext of a touched fragment: the old bytes under the new ones. *)
Definition build_plain (s : Store) (old : UnitRecord) (uuid : bytes) (exp new_size offset end_ : Z)
    (data : bytes) (frag : Z) : res bytes :=
  let fragsize := frag_bytes exp in
  let frag_start := frag * fragsize in
  let plain := zeros (Z.to_nat (Z.min (new_size - frag_start) fragsize)) in
  plain ←
    match old_stream old with
    | Some osm =>
        if frag <? blen (sm_unit_map osm) then
          match sm_locations osm !! Z.to_nat frag with
          | Some old_loc =>
              if is_hole old_loc then Ok plain
              else
                old_ver ← index_list (sm_unit_map osm) frag;
                suite ← cipher_for_frag (hdr s) old frag;
                existing ← read_fragment s suite uuid frag old_ver old_loc;
                Ok (copy_prefix plain existing)
          | None => Ok plain
          end
        else Ok plain
    | None => Ok plain
    end;
  let write_lo := Z.max offset frag_start in
  let write_hi := Z.min end_ (frag_start + fragsize) in
  src ← index_range data (write_lo - offset) (write_lo - offset + (write_hi - write_lo));
  copy_at plain (write_lo - frag_start) src.

(** The committed block of a fragment, if it has one. *)
Definition existing_loc (old : UnitRecord) (frag : Z) : option BlockLoc :=
  match old_stream old with
  | Some osm =>
      if frag <? blen (sm_unit_map osm) then
        match sm_locations osm !! Z.to_nat frag with
        | Some l => if is_hole l then None else Some l
        | None => None
        end
      else None
  | None => None
  end.

(** [for (addr, blk) in pending_inplace { self.backend.write_at(addr, &blk)? }] *)
Fixpoint apply_inplace (pending : list (Z * bytes)) : TM () :=
  match pending with
  | [] => mret ()
  | (a, blk) :: rest => write_block a blk;; apply_inplace rest
  end.
Definition drain_inplace (pending : list (Z * bytes)) : SM () :=
  on_engine flush_backend;;
  on_engine (on_store (apply_inplace pending)).

(** Where the new ciphertext of a fragment goes: the slot of the old version
    when it can be reused, whose overwrite is deferred, or a fresh place. *)
Definition place_version (old : UnitRecord) (uuid : bytes) (frag : Z) (commits : list bytes)
    (ct : bytes) (pending : list (Z * bytes)) (pending_bytes : Z)
    : SM (BlockLoc * list (Z * bytes) * Z) :=
  let new_footprint := round_up_block (blen ct) in
  let existing := existing_loc old frag in
  already ← asks (λ s, bool_decide ((uuid, frag) ∈ inplace_undo_journaled (engine s)));
  let new_is_packed := (0 <? blen ct) && (blen ct <? BASE_BLOCK) in
  let reuse :=
    match existing with
    | Some l => negb new_is_packed && (BASE_BLOCK <=? blk_len l) &&
                (round_up_block (blk_len l) =? new_footprint) && negb already
    | None => false
    end in
  seq ← asks_res (λ s, add64 (commit_seq (hdr s)) 1);
  let old_version :=
    match old_stream old with Some osm => index_list (sm_unit_map osm) frag | None => Panic end in
  let journal := on_engine (modify (λ e, set_undo ({[(uuid, frag)]} ∪ inplace_undo_journaled e) e)) in
  match existing with
  | Some old_loc =>
      if (reuse : bool) then
        old_ver ← lift old_version;
        evict_block uuid frag old_ver old_loc commits (addr old_loc) seq;;
        journal;;
        let pending := pending ++ [(addr old_loc, padded_block ct)] in
        let pending_bytes := pending_bytes + new_footprint in
        let loc := mkBlockLoc (addr old_loc) (blen ct `mod` 2 ^ 32) in
        if INPLACE_BATCH_BYTES <=? pending_bytes then
          drain_inplace pending;;
          mret (loc, [], 0)
        else mret (loc, pending, pending_bytes)
      else
        (if (already : bool) then mret ()
         else
           old_ver ← lift old_version;
           evict_block uuid frag old_ver old_loc commits 0 0;;
           journal);;
        loc ← on_engine (on_store (place_content_fragment ct));
        mret (loc, pending, pending_bytes)
  | None =>
      loc ← on_engine (on_store (place_content_fragment ct));
      mret (loc, pending, pending_bytes)
  end.

(** The loop [for frag in first..=last] of [stage_write]. *)
Fixpoint stage_frags (old : UnitRecord) (uuid : bytes) (suite : CipherSuite)
    (exp new_size offset end_ : Z) (data : bytes) (sync_id : Z) (frags : list Z)
    (sm : StreamMeta) (pending : list (Z * bytes)) (pending_bytes : Z)
    : SM (StreamMeta * list (Z * bytes)) :=
  match frags with
  | [] => mret (sm, pending)
  | frag :: frags' =>
      plain ← asks_res (λ s, build_plain s old uuid exp new_size offset end_ data frag);
      let commits := pinned_by frag (sm_pins sm) in
      let sm := sm_set_pins (unpin_frag frag (sm_pins sm)) sm in
      new_ver ← asks_res (λ s, pack_dot (local_alias s) sync_id);
      ct ← asks_res (λ s,
        seal suite (root_key (engine s)) (frag_ctx s uuid frag new_ver)
          (pad_plain (pad_blocks (hdr s)) exp (min_plaintext_len suite) plain));
      placed ← place_version old uuid frag commits ct pending pending_bytes;
      let '(loc, pending, pending_bytes) := placed in
      ts ← asks write_timestamp;
      stamp uuid frag ts;;
      stage_frags old uuid suite exp new_size offset end_ data sync_id frags'
        (sm_set_frag frag new_ver loc sm) pending pending_bytes
  end.

(** [sm.vv.bump(self.local_alias)] *)
Definition bump_stream (sm : StreamMeta) : SM (Z * StreamMeta) :=
  b ← asks_res (λ s, VersionVector.bump (sm_vv sm) (local_alias s));
  let '(sync_id, v) := b in
  mret (sync_id, sm_set_vv v sm).

(** *** Re-chunking *)

(** The current content, in a buffer of the new size. *)
Fixpoint materialise (s : Store) (old : UnitRecord) (sm : StreamMeta) (uuid : bytes)
    (frags : list Z) (content : bytes) : res bytes :=
  match frags with
  | [] => Ok content
  | frag :: frags' =>
      loc ← index_list (sm_locations sm) frag;
      if is_hole loc then materialise s old sm uuid frags' content
      else
        version ← index_list (sm_unit_map sm) frag;
        suite ← cipher_for_frag (hdr s) old frag;
        plain ← read_fragment s suite uuid frag version loc;
        let plain := take (Z.to_nat (logical_frag_len sm frag)) plain in
        let start := frag * frag_bytes (sm_fragsize_exp sm) in
        let copy := Z.min (blen plain) (sat_sub (blen content) start) in
        content ← copy_at content start (take (Z.to_nat copy) plain);
        materialise s old sm uuid frags' content
  end.

(** Retire the old fragments: the pinned ones move to the tail, the whole-block
    ones without a pin are freed after the header flip. *)
Fixpoint retire_frags (sm : StreamMeta) (uuid : bytes) (frags : list Z) (retired : list BlockLoc)
    : SM (StreamMeta * list BlockLoc) :=
  match frags with
  | [] => mret (sm, retired)
  | frag :: frags' =>
      loc ← lift (index_list (sm_locations sm) frag);
      if is_hole loc then retire_frags sm uuid frags' retired
      else
        old_ver ← lift (index_list (sm_unit_map sm) frag);
        let commits := pinned_by frag (sm_pins sm) in
        let sm := sm_set_pins (unpin_frag frag (sm_pins sm)) sm in
        match commits with
        | [] => retire_frags sm uuid frags'
                  (if BASE_BLOCK <=? blk_len loc then retired ++ [loc] else retired)
        | _ =>
            evict_block uuid frag old_ver loc commits 0 0;;
            retire_frags sm uuid frags' retired
        end
  end.

Fixpoint rechunk_frags (uuid : bytes) (suite : CipherSuite) (new_exp new_size : Z) (content : bytes)
    (new_ver ts : Z) (frags : list Z) (locs : list BlockLoc) : SM (list BlockLoc) :=
  match frags with
  | [] => mret locs
  | frag :: frags' =>
      let frag_start := frag * frag_bytes new_exp in
      let frag_len := Z.min (new_size - frag_start) (frag_bytes new_exp) in
      plain ← lift (index_range content frag_start (frag_start + frag_len));
      ct ← asks_res (λ s,
        seal suite (root_key (engine s)) (frag_ctx s uuid frag new_ver)
          (pad_plain (pad_blocks (hdr s)) new_exp (min_plaintext_len suite) plain));
      loc ← on_engine (on_store (place_content_fragment ct));
      stamp uuid frag ts;;
      rechunk_frags uuid suite new_exp new_size content new_ver ts frags' (locs ++ [loc])
  end.

Definition stage_rechunk (uuid : bytes) (head_addr : Z) (old : UnitRecord) (offset : Z) (data : bytes)
    (new_size new_exp : Z) : SM (bytes * UnitRecord) :=
  let old_sm := default empty_content_stream (ur_content old) in
  let old_n := blen (sm_unit_map old_sm) in
  content ← asks_res (λ s,
    materialise s old old_sm uuid (seqZ 0 old_n) (zeros (Z.to_nat new_size)));
  content ← lift (copy_at content offset data);
  b ← bump_stream old_sm;
  let '(sync_id, old_sm) := b in
  new_ver ← asks_res (λ s, pack_dot (local_alias s) sync_id);
  r ← retire_frags old_sm uuid (seqZ 0 old_n) [];
  let '(old_sm, retired) := r in
  let new_n := div_ceil new_size (frag_bytes new_exp) in
  suite ← asks_res (λ s, cipher_suite (hdr s));
  ts ← asks write_timestamp;
  locs ← rechunk_frags uuid suite new_exp new_size content new_ver ts (seqZ 0 new_n) [];
  on_engine (modify (λ e, set_alloc (foldl Allocator.retire_block (alloc e) retired) e));;
  last ← lift (last_frag_length new_size new_exp);
  cc ← asks (λ s, content_cipher (hdr s));
  let new_sm := mkStream (replicate (Z.to_nat new_n) new_ver) locs (sm_vv old_sm) new_exp last
                  ((λ p, mkBitmap (bm_commit p) []) <$> sm_pins old_sm) in
  mret (uuid, successor uuid old head_addr (Some new_sm) (ur_meta old) cc []).

(** *** [stage_write] and [write] *)

(** The suites after a write of the fragments [first..=last]. *)
Definition written_suites (h : ContainerHeader) (old : UnitRecord) (first last count : Z) : list Z :=
  let cc := content_cipher h in
  let full := (λ i, if (first <=? i) && (i <=? last) then cc else content_frag_suite_id h old i)
                <$> seqZ 0 count in
  if forallb (λ s, s =? cc) full then [] else full.

Definition stage_write (path : bytes) (offset : Z) (data : bytes) : SM (bytes * UnitRecord) :=
  match data with
  | [] => lift (Err (Integrity "write: empty data"))
  | _ =>
      head ← load_head path "no record for path";
      let '(uuid, head_addr, old) := head in
      let sm := default empty_content_stream (ur_content old) in
      let end_ := offset + blen data in
      if 2 ^ 64 <=? end_ then lift (Err (Integrity "write: offset overflow"))
      else
        sm ← (if blen (sm_unit_map sm) =? 0
              then e ← lift (derive_fragsize_exp end_ FRAGSIZE_FLOOR_EXP ENGINE_MAX_FRAGSIZE_EXP);
                   mret (sm_set_exp e sm)
              else mret sm);
        let exp := sm_fragsize_exp sm in
        let old_size := stream_byte_len sm in
        if old_size <? offset then lift (Err (Integrity "gap write unsupported"))
        else
          let new_size := Z.max old_size end_ in
          needed_exp ← lift (derive_fragsize_exp new_size FRAGSIZE_FLOOR_EXP ENGINE_MAX_FRAGSIZE_EXP);
          if exp <? needed_exp then stage_rechunk uuid head_addr old offset data new_size needed_exp
          else
            let new_frag_count := div_ceil new_size (frag_bytes exp) in
            let sm := grow_stream sm new_frag_count in
            suite ← asks_res (λ s, cipher_suite (hdr s));
            first ← lift (frag_index offset exp);
            last ← lift (frag_index (end_ - 1) exp);
            b ← bump_stream sm;
            let '(sync_id, sm) := b in
            staged ← stage_frags old uuid suite exp new_size offset end_ data sync_id
                       (seqZ first (last - first + 1)) sm [] 0;
            let '(sm, pending) := staged in
            (match pending with [] => mret () | _ => drain_inplace pending end);;
            len ← lift (last_frag_length new_size exp);
            suites ← asks (λ s, written_suites (hdr s) old first last new_frag_count);
            cc ← asks (λ s, content_cipher (hdr s));
            mret (uuid, successor uuid old head_addr (Some (sm_set_last len sm)) (ur_meta old) cc suites)
  end.

Definition write (path : bytes) (offset : Z) (data : bytes) : SM () :=
  staged ← stage_write path offset data;
  let '(uuid, r) := staged in
  install_record path uuid r.

(** ** [truncate] and [extend] *)

(** The tail of [truncate] to zero. *)
Definition truncate_zero (path uuid : bytes) (head_addr : Z) (old : UnitRecord) : SM () :=
  cc ← asks (λ s, content_cipher (hdr s));
  install_record path uuid
    (successor uuid old head_addr (Some empty_content_stream) (ur_meta old) cc []).

(** Re-seal the last kept fragment under a fresh dot when the cut falls inside
    a stored one. *)
Definition reseal_last (old : UnitRecord) (uuid content : bytes) (sync_id exp frag_start new_size : Z)
    (sm : StreamMeta) : SM StreamMeta :=
  let last := blen (sm_unit_map sm) - 1 in
  loc ← lift (index_list (sm_locations sm) last);
  if negb (is_hole loc) && (sm_last_frag_length sm <? frag_bytes exp) then
    plain ← lift (index_range content frag_start new_size);
    suite ← asks_res (λ s, cipher_for_frag (hdr s) old last);
    new_ver ← asks_res (λ s, pack_dot (local_alias s) sync_id);
    ct ← asks_res (λ s,
      seal suite (root_key (engine s)) (frag_ctx s uuid last new_ver)
        (pad_plain (pad_blocks (hdr s)) exp (min_plaintext_len suite) plain));
    loc ← on_engine (on_store (place_content_fragment ct));
    mret (sm_set_frag last new_ver loc sm)
  else mret sm.

Definition truncate (path : bytes) (new_size : Z) : SM () :=
  head ← load_head path "truncate: no record for path";
  let '(uuid, head_addr, old) := head in
  match ur_content old with
  | None => mret ()
  | Some old_sm =>
      if stream_byte_len old_sm <=? new_size then mret ()
      else if new_size =? 0 then truncate_zero path uuid head_addr old
      else
        content ← read_at path 0 new_size;
        let actual := Z.min (blen content) new_size in
        if actual =? 0 then
          (* [self.truncate(path, 0)]: the same unit is loaded again *)
          head ← load_head path "truncate: no record for path";
          let '(uuid, head_addr, old) := head in
          match ur_content old with
          | None => mret ()
          | Some old_sm =>
              if stream_byte_len old_sm <=? 0 then mret () else truncate_zero path uuid head_addr old
          end
        else
          let exp := sm_fragsize_exp old_sm in
          let fragsize := frag_bytes exp in
          let count := div_ceil actual fragsize in
          let frag_start := (count - 1) * fragsize in
          let n := Z.to_nat count in
          let sm := mkStream (take n (sm_unit_map old_sm)) (take n (sm_locations old_sm)) (sm_vv old_sm)
                      exp ((actual - frag_start) `mod` 2 ^ 32)
                      ((λ p, mkBitmap (bm_commit p) (take (Z.to_nat (div_ceil count 8)) (bm_bits p)))
                         <$> sm_pins old_sm) in
          b ← bump_stream sm;
          let '(sync_id, sm) := b in
          sm ← reseal_last old uuid content sync_id exp frag_start actual sm;
          suites ← asks (λ s, frag_suites_carryover (hdr s) old count);
          install_record path uuid (successor uuid old head_addr (Some sm) (ur_meta old) suites.1 suites.2)
  end.

Definition extend (path : bytes) (new_size : Z) : SM () :=
  head ← load_head path "extend: no record for path";
  let '(uuid, head_addr, old) := head in
  match ur_content old with
  | None => mret ()
  | Some old_sm =>
      if new_size <=? stream_byte_len old_sm then mret ()
      else
        exp ← lift (if blen (sm_unit_map old_sm) =? 0
                    then derive_fragsize_exp new_size FRAGSIZE_FLOOR_EXP ENGINE_MAX_FRAGSIZE_EXP
                    else Ok (sm_fragsize_exp old_sm));
        let count := div_ceil new_size (frag_bytes exp) in
        let sm := grow_stream (sm_set_exp exp old_sm) count in
        len ← lift (last_frag_length new_size exp);
        b ← bump_stream (sm_set_last len sm);
        let '(_, sm) := b in
        suites ← asks (λ s, frag_suites_carryover (hdr s) old count);
        install_record path uuid (successor uuid old head_addr (Some sm) (ur_meta old) suites.1 suites.2)
  end.

(** ** The metadata stream *)

Definition meta_stream_aad (uuid : bytes) (a version : Z) : bytes :=
  byte1 2 ++ uuid ++ le_bytes 8 a ++ le_bytes 8 version.

Definition meta_seal_active (h : ContainerHeader) : bool := cipher h =? CIPHER_AES256_GCM.

(** The block a metadata stream is stored in; sealed, it is
    [nonce ‖ ct ‖ tag] under the address and the dot. *)
Definition store_meta_block (key : bytes) (sealing : bool) (uuid meta_bytes : bytes) (dot : Z) : TM BlockLoc :=
  let stored_len := if sealing then blen meta_bytes + 12 + 16 else blen meta_bytes in
  loc ← on_ab (Allocator.alloc_aligned (stored_len `mod` 2 ^ 32) LiveMid);
  stored ←
    (if sealing then
       nonce ← random_nonce;
       mret (nonce ++ seal_with_nonce (derive_meta_key key) nonce
                        (meta_stream_aad uuid (addr loc) dot) meta_bytes)
     else mret meta_bytes);
  write_block (addr loc) (padded_block stored);;
  mret (mkBlockLoc (addr loc) (blen stored `mod` 2 ^ 32)).

Definition meta_stream (dot : Z) (loc : BlockLoc) (vv : VersionVector.t) : StreamMeta :=
  mkStream [dot] [loc] vv 0 (blk_len loc) [].

Definition stage_meta_stream_versioned (uuid meta_bytes : bytes) (prior_vv : option VersionVector.t)
    : SM StreamMeta :=
  b ← asks_res (λ s, VersionVector.bump (default VersionVector.new prior_vv) (local_alias s));
  let '(meta_s, meta_vv) := b in
  dot ← asks_res (λ s, pack_dot (local_alias s) meta_s);
  key ← asks (λ s, root_key (engine s));
  sealing ← asks (λ s, meta_seal_active (hdr s));
  loc ← on_engine (on_store (store_meta_block key sealing uuid meta_bytes dot));
  mret (meta_stream dot loc meta_vv).

Definition stage_meta_stream (uuid meta_bytes : bytes) : SM StreamMeta :=
  stage_meta_stream_versioned uuid meta_bytes None.

Definition stage_meta_from_import (uuid plain : bytes) (meta_version : Z) (meta_vv : VersionVector.t)
    : SM StreamMeta :=
  key ← asks (λ s, root_key (engine s));
  sealing ← asks (λ s, meta_seal_active (hdr s));
  loc ← on_engine (on_store (store_meta_block key sealing uuid plain meta_version));
  mret (meta_stream meta_version loc meta_vv).

Definition write_meta (path meta_bytes : bytes) : SM () :=
  head ← load_head path "write_meta: no record for path";
  let '(uuid, head_addr, old) := head in
  sm ← stage_meta_stream_versioned uuid meta_bytes (sm_vv <$> ur_meta old);
  suites ← asks (λ s, frag_suites_carryover (hdr s) old (old_rec_frag_count old));
  install_record path uuid (successor uuid old head_addr (ur_content old) (Some sm) suites.1 suites.2).

(** The bytes of a stored metadata block. *)
Definition open_meta_block (s : Store) (uuid : bytes) (sm : StreamMeta) (msg : string) : res bytes :=
  loc ← index_list (sm_locations sm) 0;
  stored ← Backend.read_at (bk s) (addr loc) (blk_len loc);
  if meta_seal_active (hdr s) then
    if blen stored <? 12 + 16 then Err (Integrity msg)
    else
      let version := default 0 (head (sm_unit_map sm)) in
      open_with_nonce (derive_meta_key (root_key (engine s))) (take 12 stored)
        (meta_stream_aad uuid (addr loc) version) (drop 12 stored)
  else Ok stored.

Definition read_meta (path : bytes) : SM (option bytes) :=
  head ← load_head path "read_meta: no record for path";
  let '(uuid, _, r) := head in
  match ur_meta r with
  | None => mret None
  | Some sm =>
      if (blen (sm_unit_map sm) =? 0) || (blen (sm_locations sm) =? 0) then mret None
      else
        plain ← asks_res (λ s, open_meta_block s uuid sm "read_meta: sealed meta block too short");
        mret (Some plain)
  end.

Definition read_meta_plaintext (s : Store) (uuid : bytes) (sm : StreamMeta) : res bytes :=
  open_meta_block s uuid sm "read_meta_plaintext: sealed meta block too short".

Definition meta_stream_vv (path : bytes) : SM (option VersionVector.t) :=
  head ← load_head path "meta_stream_vv: no record for path";
  mret (sm_vv <$> ur_meta head.2).

(** ** Creation *)

(** [new_uuid] *)
Definition new_uuid : TM bytes := λ '(ab, n), (Ok (draw_uuid n), (ab, S n)).

Definition create_unit_inner (path : bytes) (content : bool) (db : option DbHead) (meta : option bytes)
    : SM bytes :=
  existing ← on_engine (key_get path);
  if bool_decide (is_Some existing) then lift (Err (Integrity "unit already exists"))
  else
    uuid ← on_engine (on_store new_uuid);
    meta_slot ←
      match meta with
      | Some bs => sm ← stage_meta_stream uuid bs; mret (Some sm)
      | None => mret (if content then None else Some empty_content_stream)
      end;
    cc ← asks (λ s, content_cipher (hdr s));
    let r := mkUnit uuid (if content then Some empty_content_stream else None) meta_slot None []
               (Some cc) [] None db [] in
    rec_addr ← write_record r Fresh;
    on_engine (id_put uuid rec_addr);;
    on_engine (key_put path uuid);;
    on_engine (forget path);;
    on_engine publish;;
    mret uuid.

Definition create_unit (path : bytes) : SM bytes := create_unit_inner path true None None.
Definition create_kv_unit (path store pk : bytes) : SM bytes :=
  create_unit_inner path true (Some (mkDbHead store pk KvRecord)) None.
Definition mkdir (path : bytes) : SM bytes := create_unit_inner path false None None.
Definition create_unit_with_meta (path meta_bytes : bytes) : SM bytes :=
  create_unit_inner path true None (Some meta_bytes).
Definition mkdir_with_meta (path meta_bytes : bytes) : SM bytes :=
  create_unit_inner path false None (Some meta_bytes).

Definition unit_db_head (path : bytes) : SM (option DbHead) :=
  head ← on_engine (head_record_addr path);
  r ← asks_res (λ s, read_record_at s head);
  mret (ur_db r).

End content.
