(* ===== verification/WalPath.v ===== *)
(** * Asynchronous writes through the write-ahead log

    [version/store.rs]: [enable_wal], [write_async], [checkpoint] and
    [replay_wal], which keep the pending writes of a unit as an ordered map
    from offset to data (the overlay that the reads of [Store] apply). *)

From S2P Require Import Prelude.
From S2P Require Import Text.
From S2P Require Import BTree.
From S2P Require Import Vector.
From S2P Require Import Block.
From S2P Require Import Backend.
From S2P Require Import Crypto.
From S2P Require Import Header.
From S2P Require Import Wal.
From S2P Require Import Alloc.
From S2P Require Import Unit.
From S2P Require Import WriterSet.
From S2P Require Import Trie.
From S2P Require Import Records.
From S2P Require Import Engine.
From S2P Require Import Store.
From S2P Require Import Content.

Definition WAL_REGION_SIZE : Z := 8 * 1024 * 1024.
Definition U32_MAX : Z := 2 ^ 32 - 1.

(** [overlay.entry(uuid).or_default().insert(offset, data)] *)
Definition overlay_insert (uuid : bytes) (offset : Z) (data : bytes)
    (o : gmap bytes (BTreeMap.t bytes)) : gmap bytes (BTreeMap.t bytes) :=
  <[uuid := BTreeMap.insert (default [] (o !! uuid)) offset data]> o.

Section wal_path.
Context `{!Crc32, !Hkdf, !Hmac, !Aes, !AesGcm, !Entropy, !Ed25519, !UuidSource}.

Definition wal_reservation : SM (option Z) := asks (λ s, Allocator.wal_reservation_start (alloc (engine s))).

(** [Option::expect], which unwinds. *)
Definition expect {A} (o : option A) : res A := match o with Some a => Ok a | None => Panic end.

Definition grow_backend (n : Z) : EM () := λ e,
  match Backend.grow (backend e) n with
  | Ok b' => (Ok (), set_backend b' e)
  | Err er => (Err er, e)
  | Panic => (Panic, e)
  end.

Definition enable_wal : SM () :=
  active ← asks (λ s, bool_decide (is_Some (wal s)));
  if (active : bool) then mret ()
  else
    region_start ← asks (λ s, Backend.len (bk s));
    new_len ← lift (add64 region_start WAL_REGION_SIZE);
    on_engine (grow_backend new_len);;
    on_engine (modify (λ e, set_alloc (Allocator.set_wal_reservation (alloc e) region_start) e));;
    seq ← asks_res (λ s, add64 (wal_applied_seq (hdr s)) 1);
    update (set_wal_state (Some (mkWalState 0 seq)));;
    on_engine publish.

Definition wal_mode_active (s : Store) : bool := bool_decide (is_Some (wal s)).

(** ** Checkpoints *)

(** [uuid_to_path]: of several names of a unit the last one scanned stays. *)
Definition uuid_to_path (pairs : list (bytes * bytes)) : gmap bytes bytes :=
  foldl (λ m '(k, uuid), if utf8_valid k then <[uuid := k]> m else m) ∅ pairs.

Fixpoint apply_unit_writes (path : bytes) (ws : list (Z * bytes)) : SM () :=
  match ws with
  | [] => mret ()
  | (ofs, data) :: ws' => write path ofs data;; apply_unit_writes path ws'
  end.

(** The loop over the pending units, in the iteration order of the map. *)
Fixpoint apply_pending (paths : gmap bytes bytes) (pending : list (bytes * BTreeMap.t bytes)) : SM () :=
  match pending with
  | [] => mret ()
  | (uuid, ws) :: pending' =>
      match paths !! uuid with
      | None => apply_pending paths pending'
      | Some path => apply_unit_writes path ws;; apply_pending paths pending'
      end
  end.

(** The outcome of [m], its error as a value. *)
Definition try {A} (m : SM A) : SM (res A) := λ s,
  match m s with
  | (Panic, s') => (Panic, s')
  | (r, s') => (Ok r, s')
  end.

Definition set_suppressed (v : bool) : SM () := on_engine (modify (set_suppress v)).

Definition checkpoint_inner : SM () :=
  pairs ← on_engine (key_scan []);
  let paths := uuid_to_path pairs in
  pending ← asks (λ s, map_to_list (wal_overlay s));
  w ← asks wal;
  match pending, w with
  | [], None => mret ()
  | _, _ =>
      applied ← asks (λ s, wal_applied_seq (hdr s));
      let max_seq :=
        match w with
        | Some w => if 1 <? next_seq w then next_seq w - 1 else applied
        | None => applied
        end in
      old_suppress ← asks (λ s, suppress_commit (engine s));
      set_suppressed true;;
      r ← try (apply_pending paths pending);
      match r with
      | Ok _ =>
          on_engine (modify (set_pending_wal (Some max_seq)));;
          set_suppressed old_suppress;;
          on_engine publish;;
          update (set_overlay ∅);;
          update (λ s, set_wal_state ((λ w, mkWalState 0 (next_seq w)) <$> wal s) s)
      | Err e => set_suppressed old_suppress;; lift (Err e)
      | Panic => lift Panic
      end
  end.

Definition checkpoint : SM () :=
  idle ← asks (λ s, bool_decide (wal_overlay s = ∅) && bool_decide (wal s = None));
  if (idle : bool) then mret () else checkpoint_inner.

(** ** Asynchronous writes *)

(** Append the encoded record at the cursor, flush, and show the data. *)
Definition append_record (uuid : bytes) (offset : Z) (data encoded : bytes) : SM () :=
  start ← wal_reservation;
  region_start ← lift (expect start);
  w ← asks wal;
  w ← lift (expect w);
  on_engine (on_store (write_block (region_start + write_cursor w) encoded));;
  on_engine flush_backend;;
  seq ← lift (add64 (next_seq w) 1);
  update (set_wal_state (Some (mkWalState (write_cursor w + blen encoded) seq)));;
  update (λ s, set_overlay (overlay_insert uuid offset data (wal_overlay s)) s).

Definition write_async (path : bytes) (offset : Z) (data : bytes) : SM () :=
  match data with
  | [] => lift (Err (Integrity "write_async: empty data"))
  | _ =>
      w ← asks wal;
      match w with
      | None => lift (Err (Integrity "write_async: WAL mode not enabled; call enable_wal() first"))
      | Some w =>
          uuid ← on_engine (uuid_for_path path);
          start ← wal_reservation;
          _ ← lift (expect start);
          suite ← asks_res (λ s, cipher_suite (hdr s));
          ct ← asks_res (λ s,
            seal suite (root_key (engine s))
              (mkBlockCtx uuid U32_MAX (next_seq w) (hdr_key_epoch (hdr s)))
              (pad_plain false 0 (min_plaintext_len suite) data));
          let encoded := encode_wal_record (mkWal (next_seq w) uuid offset (blen data `mod` 2 ^ 32) ct) in
          if WAL_REGION_SIZE <? write_cursor w + blen encoded then
            checkpoint;;
            w' ← asks wal;
            w' ← lift (expect w');
            if WAL_REGION_SIZE <? write_cursor w' + blen encoded
            then lift (Err (Integrity "write_async: WAL record too large for WAL region"))
            else append_record uuid offset data encoded
          else append_record uuid offset data encoded
      end
  end.

(** ** Replay *)

(** [plaintext.truncate(n)] and the insertion into the overlay, record by
    record; [max_seq] is the largest sequence number seen. *)
Fixpoint replay_records (s : Store) (suite : CipherSuite) (records : list WalRecord)
    (o : gmap bytes (BTreeMap.t bytes)) (max_seq : Z) : res (gmap bytes (BTreeMap.t bytes) * Z) :=
  match records with
  | [] => Ok (o, max_seq)
  | r :: records' =>
      match open suite (root_key (engine s))
              (mkBlockCtx (wal_uuid r) U32_MAX (wal_seq r) (hdr_key_epoch (hdr s))) (wal_ciphertext r) with
      | Ok plain =>
          replay_records s suite records'
            (overlay_insert (wal_uuid r) (wal_logical_offset r)
               (take (Z.to_nat (wal_plaintext_len r)) plain) o)
            (if max_seq <? wal_seq r then wal_seq r else max_seq)
      | Err _ => Err (Integrity "WAL replay: decrypt failed")
      | Panic => Panic
      end
  end.

Definition replay_wal : SM () :=
  region_start ← asks (λ s, wal_region_offset (hdr s));
  min_seq ← asks (λ s, wal_applied_seq (hdr s));
  records ← asks_res (λ s, scan_wal_region (bk s) region_start WAL_REGION_SIZE min_seq);
  match records with
  | [] =>
      seq ← lift (add64 min_seq 1);
      update (set_wal_state (Some (mkWalState 0 seq)))
  | _ =>
      suite ← asks_res (λ s, cipher_suite (hdr s));
      r ← asks_res (λ s, replay_records s suite records (wal_overlay s) min_seq);
      let '(o, max_seq) := r in
      update (set_overlay o);;
      seq ← lift (add64 max_seq 1);
      let cursor := foldr (λ r acc, blen (encode_wal_record r) + acc) 0 records in
      update (set_wal_state (Some (mkWalState cursor seq)))
  end.

End wal_path.
