(* ===== verification/History.v ===== *)
(** * Commits, history and checkouts

    [version/store.rs]: resolution of a fragment through the chain of unit
    records, named commits with their pin bitmaps, the history of a unit,
    checkouts by version and by commit, and eviction from the tail.  A chain of
    records that is longer than the container has bytes visits an address
    twice and the loop over it would not end; the fuel of the loops is one
    more than that, and running out of it is a [Panic]. *)

From S2P Require Import Prelude.
From S2P Require Import BTree.
From S2P Require Import Vector.
From S2P Require Import Block.
From S2P Require Import Backend.
From S2P Require Import Crypto.
From S2P Require Import Header.
From S2P Require Import Alloc.
From S2P Require Import Unit.
From S2P Require Import WriterSet.
From S2P Require Import Commit.
From S2P Require Import Retention.
From S2P Require Import Trie.
From S2P Require Import Records.
From S2P Require Import Engine.
From S2P Require Import Store.
From S2P Require Import Content.
From S2P Require Import WalPath.

Definition COMMIT_HEAD_KEY : bytes := bstr ".sfs/COMMIT_HEAD".

(** [format!("{b:02x}")] of every byte. *)
Definition hex_digit (d : Z) : Init.Byte.byte :=
  byte.of_Z (if d <? 10 then 48 + d else 87 + d).
Definition hex_of (u : bytes) : bytes :=
  concat ((λ b, [hex_digit (byte.unsigned b `div` 16); hex_digit (byte.unsigned b `mod` 16)]) <$> u).
Definition commit_path (commitish : bytes) : bytes := bstr ".sfs/commits/" ++ hex_of commitish.

(** [.max()] of the versions of a stream. *)
Definition stream_version (o : option StreamMeta) : Z :=
  match o with Some sm => max_version (sm_unit_map sm) | None => 0 end.

(** The suite a record names for a fragment. *)
Definition frag_suite_of (r : UnitRecord) (frag : Z) : option Z :=
  match ur_frag_suites r !! Z.to_nat frag with
  | Some id => Some id
  | None => ur_content_suite r
  end.

Definition chain_fuel (b : Backend.t) : nat := S (Z.to_nat (Backend.len b)).

Section history.
Context `{!Crc32, !Hkdf, !Hmac, !Aes, !AesGcm, !Entropy, !Ed25519, !UuidSource}.

(** ** Resolution *)

(** [PersistenceStore::resolve_with_version] *)
Fixpoint resolve_with_version (fuel : nat) (s : Store) (a frag at_version : Z)
    : res (option (BlockLoc * Z * option Z)) :=
  match fuel with
  | O => Panic
  | S fuel' =>
      r ← read_record_at s a;
      let next :=
        match ur_parent r with
        | Some p => resolve_with_version fuel' s p frag at_version
        | None => Ok None
        end in
      match ur_content r with
      | Some sm =>
          match sm_unit_map sm !! Z.to_nat frag with
          | Some ver =>
              if ver <=? at_version then
                loc ← ok_or (sm_locations sm !! Z.to_nat frag)
                  (Integrity "unit_map/locations length mismatch in record");
                Ok (Some (loc, ver, frag_suite_of r frag))
              else next
          | None => next
          end
      | None => next
      end
  end.

(** [PersistenceStore::resolve] *)
Fixpoint resolve (fuel : nat) (s : Store) (a frag at_version : Z) : res (option BlockLoc) :=
  match fuel with
  | O => Panic
  | S fuel' =>
      r ← read_record_at s a;
      let next :=
        match ur_parent r with
        | Some p => resolve fuel' s p frag at_version
        | None => Ok None
        end in
      match ur_content r with
      | Some sm =>
          match sm_unit_map sm !! Z.to_nat frag with
          | Some ver =>
              if ver <=? at_version then
                loc ← ok_or (sm_locations sm !! Z.to_nat frag)
                  (Integrity "unit_map/locations length mismatch in record");
                Ok (Some loc)
              else next
          | None => next
          end
      | None => next
      end
  end.

(** [PersistenceStore::resolve_current] *)
Definition resolve_current (s : Store) (a frag : Z) : res (option BlockLoc) :=
  a ← addr_or_err a;
  r ← read_record_at s a;
  match ur_content r with
  | None => Ok None
  | Some sm => Ok (sm_locations sm !! Z.to_nat frag)
  end.

(** ** History *)

Fixpoint history_loop (fuel : nat) (s : Store) (a : Z) : res (list Z) :=
  match fuel with
  | O => Panic
  | S fuel' =>
      r ← read_record_at s a;
      rest ← match ur_parent r with
             | Some p => history_loop fuel' s p
             | None => Ok []
             end;
      Ok match ur_content r with
         | Some sm =>
             if blen (sm_unit_map sm) =? 0 then rest else max_version (sm_unit_map sm) :: rest
         | None => rest
         end
  end.

Definition history (path : bytes) : SM (list Z) :=
  head ← on_engine (head_record_addr path);
  out ← asks_res (λ s, history_loop (chain_fuel (bk s)) s head);
  match out with
  | [] => lift (Err (NotFound "history: no content versions found for path"))
  | _ => mret out
  end.

(** [tail_history_index] *)
Definition tail_bounds (s : Store) : Z * Z :=
  (Allocator.tail_low (alloc (engine s)),
   default (Backend.len (bk s)) (Allocator.wal_reservation_start (alloc (engine s)))).

Definition tail_history_index (s : Store) (uuid : bytes) : res (gmap (Z * Z) BlockLoc) :=
  let '(low, high) := tail_bounds s in
  scanned ← scan_eviction_tail (bk s) low high;
  Ok (foldl (λ m b,
        if negb (bool_decide (sb_uuid b = uuid)) then m
        else
          let off := EVICT_HEADER_SIZE + blen (sb_commits b) * 16 in
          match m !! (sb_frag b, sb_old_version b) with
          | Some _ => m
          | None => <[(sb_frag b, sb_old_version b) :=
                      mkBlockLoc (sb_loc_addr b + off) (sb_length b)]> m
          end) ∅ scanned).

(** ** Checkouts *)

(** The first record of the chain whose content is not newer than [at]. *)
Fixpoint find_target (fuel : nat) (s : Store) (a at_version : Z) : res (option StreamMeta) :=
  match fuel with
  | O => Panic
  | S fuel' =>
      r ← read_record_at s a;
      let next :=
        match ur_parent r with
        | Some p => find_target fuel' s p at_version
        | None => Ok None
        end in
      match ur_content r with
      | Some sm =>
          if negb (blen (sm_unit_map sm) =? 0) && (max_version (sm_unit_map sm) <=? at_version)
          then Ok (Some sm) else next
      | None => next
      end
  end.

(** [frag < head_sm.unit_map.len() && c && !is_hole(head_sm.locations[frag])] *)
Definition head_live (head_sm : StreamMeta) (frag : Z) (c : bool) : res bool :=
  if (frag <? blen (sm_unit_map head_sm)) && c then
    loc ← index_list (sm_locations head_sm) frag;
    Ok (negb (is_hole loc))
  else Ok false.

(** The block, version and suite of one fragment of a checkout.  The index of
    the tail is built once in the source, at the first fragment that needs it. *)
Definition locate_frag (s : Store) (head_addr : Z) (head_rec : UnitRecord) (head_sm : StreamMeta)
    (fast : option bytes) (at_version frag : Z) : res (BlockLoc * Z * option Z) :=
  let pinned := match fast with Some bits => bitmap_get_bit bits frag | None => false end in
  fast_hit ← (if pinned then head_live head_sm frag true else Ok false);
  if (fast_hit : bool) then
    ver ← index_list (sm_unit_map head_sm) frag;
    loc ← index_list (sm_locations head_sm) frag;
    Ok (loc, ver, frag_suite_of head_rec frag)
  else
    resolved ← resolve_with_version (chain_fuel (bk s)) s head_addr frag at_version;
    match resolved with
    | None => Err (Integrity "checkout: fragment not found at version")
    | Some (chain_loc, ver, suite) =>
        is_current ← head_live head_sm frag
          (bool_decide (sm_unit_map head_sm !! Z.to_nat frag = Some ver));
        if is_hole chain_loc then Ok (chain_loc, ver, suite)
        else if (is_current : bool) then
          loc ← index_list (sm_locations head_sm) frag;
          Ok (loc, ver, suite)
        else
          idx ← tail_history_index s (ur_uuid head_rec);
          loc ← ok_or (idx !! (frag, ver)) (Integrity "checkout: superseded fragment not found in tail");
          Ok (loc, ver, suite)
    end.

Definition checkout_frag (s : Store) (head_addr : Z) (head_rec : UnitRecord) (head_sm target : StreamMeta)
    (fast : option bytes) (at_version frag : Z) : res bytes :=
  '(loc, ver, suite) ← locate_frag s head_addr head_rec head_sm fast at_version frag;
  let len := logical_frag_len target frag in
  if is_hole loc then Ok (zeros (Z.to_nat len))
  else
    suite ← content_suite_from_opt (hdr s) suite;
    plain ← read_fragment s suite (ur_uuid head_rec) frag ver loc;
    let plain :=
      if frag =? blen (sm_unit_map target) - 1 then take (Z.to_nat len) plain else plain in
    Ok (plain ++ (if blen plain <? len then zeros (Z.to_nat (len - blen plain)) else [])).

Fixpoint checkout_frags (s : Store) (head_addr : Z) (head_rec : UnitRecord) (head_sm target : StreamMeta)
    (fast : option bytes) (at_version : Z) (frags : list Z) : res bytes :=
  match frags with
  | [] => Ok []
  | frag :: frags' =>
      x ← checkout_frag s head_addr head_rec head_sm target fast at_version frag;
      rest ← checkout_frags s head_addr head_rec head_sm target fast at_version frags';
      Ok (x ++ rest)
  end.

Definition reconstruct_at (path : bytes) (at_version : Z) (fast : option bytes) : SM bytes :=
  head_addr ← on_engine (head_record_addr path);
  head_rec ← asks_res (λ s, read_record_at s head_addr);
  match ur_content head_rec with
  | None => mret []
  | Some head_sm =>
      target ← asks_res (λ s, find_target (chain_fuel (bk s)) s head_addr at_version);
      target ← lift (ok_or target (NotFound "checkout: no record with version found for path"));
      asks_res (λ s, checkout_frags s head_addr head_rec head_sm target fast at_version
                       (seqZ 0 (blen (sm_unit_map target))))
  end.

Definition checkout (path : bytes) (at_version : Z) : SM bytes := reconstruct_at path at_version None.

Definition checkout_at_commit (path commitish : bytes) : SM bytes :=
  uuid ← on_engine (uuid_for_path path);
  head_addr ← on_engine (head_record_addr path);
  head_rec ← asks_res (λ s, read_record_at s head_addr);
  match ur_content head_rec with
  | None => mret []
  | Some head_sm =>
      commit_bytes ← read (commit_path commitish);
      c ← lift (decode_commit commit_bytes);
      content_ver ← lift
        (ok_or ((λ e, e.1.2) <$> head (filter (λ e, e.1.1 = uuid) (cm_entries c)))
           (NotFound "checkout_at_commit: unit not pinned by commit"));
      let fast := bm_bits <$> head (filter (λ p, bm_commit p = commitish) (sm_pins head_sm)) in
      reconstruct_at path content_ver fast
  end.

(** ** Commits *)

(** Step 1: the versions the commit names. *)
Fixpoint collect_entries (paths : list bytes) : SM (list (bytes * Z * Z)) :=
  match paths with
  | [] => mret []
  | path :: paths' =>
      head ← load_head path "no record for path";
      let '(uuid, _, r) := head in
      rest ← collect_entries paths';
      mret ((uuid, stream_version (ur_content r), stream_version (ur_meta r)) :: rest)
  end.

(** Step 2: a pin bitmap with every present fragment set. *)
Definition all_bits (n : Z) : bytes := foldl bitmap_set_bit [] (seqZ 0 n).
Definition pin_record (commitish : bytes) (r : UnitRecord) : UnitRecord :=
  match ur_content r with
  | Some sm =>
      if 0 <? blen (sm_unit_map sm) then
        mkUnit (ur_uuid r)
          (Some (sm_set_pins (sm_pins sm ++ [mkBitmap commitish (all_bits (blen (sm_unit_map sm)))]) sm))
          (ur_meta r) (ur_parent r) (ur_concurrent_strains r) (ur_content_suite r) (ur_frag_suites r)
          (ur_signature r) (ur_db r) (ur_superseded r)
      else r
  | None => r
  end.

(** Write a record and point both catalogs at it, without publishing. *)
Definition stage_record (path uuid : bytes) (r : UnitRecord) : SM () :=
  rec_addr ← write_record r Fresh;
  on_engine (id_put uuid rec_addr);;
  on_engine (key_put path uuid).

Fixpoint pin_paths (commitish : bytes) (paths : list bytes) : SM () :=
  match paths with
  | [] => mret ()
  | path :: paths' =>
      head ← load_head path "no record for path";
      let '(uuid, _, r) := head in
      stage_record path uuid (pin_record commitish r);;
      pin_paths commitish paths'
  end.

(** The parent of the commit, from the HEAD unit; an unreadable one starts a
    new root. *)
Definition commit_parents : SM (list bytes) :=
  h ← on_engine (key_get COMMIT_HEAD_KEY);
  match h with
  | None => mret []
  | Some _ =>
      r ← try (read COMMIT_HEAD_KEY);
      mret match r with
           | Ok bs => if blen bs =? 16 then [bs] else []
           | _ => []
           end
  end.

Definition commit (paths : list bytes) (title message : bytes) : SM bytes :=
  checkpoint;;
  commitish ← on_engine (on_store new_uuid);
  parents ← commit_parents;
  entries ← collect_entries paths;
  old_suppress ← asks (λ s, suppress_commit (engine s));
  set_suppressed true;;
  pin_paths commitish paths;;
  let encoded := encode_commit (mkCommit title message commitish parents entries) in
  _ ← create_unit_inner (commit_path commitish) true None None;
  staged ← stage_write (commit_path commitish) 0 encoded;
  stage_record (commit_path commitish) staged.1 staged.2;;
  h ← on_engine (key_get COMMIT_HEAD_KEY);
  (if bool_decide (is_Some h) then mret ()
   else _ ← create_unit_inner COMMIT_HEAD_KEY true None None; mret ());;
  staged ← stage_write COMMIT_HEAD_KEY 0 commitish;
  stage_record COMMIT_HEAD_KEY staged.1 staged.2;;
  set_suppressed old_suppress;;
  on_engine publish;;
  mret commitish.

(** ** Eviction *)

Record EvictReport := mkReport {
  er_scanned : Z;
  er_kept : Z;
  er_dropped : Z;
  er_bytes_reclaimed : Z;
  er_pinned_kept : Z;
}.

Fixpoint free_dropped (blocks : list ScannedEvictedBlock) (drop_set : list nat) (reclaimed : Z) : SM Z :=
  match drop_set with
  | [] => mret reclaimed
  | i :: drop_set' =>
      b ← lift (index_list blocks (Z.of_nat i));
      let loc := mkBlockLoc (sb_loc_addr b) (sb_encoded_len b) in
      freed ← asks_res (λ s, Allocator.free (alloc (engine s)) loc);
      let '(ok, a) := freed in
      on_engine (modify (set_alloc a));;
      free_dropped blocks drop_set' (if (ok : bool) then reclaimed + footprint (sb_encoded_len b) else reclaimed)
  end.

Definition evict_with_strategy (now_utc : Z) (strategy : EvictionStrategy) : SM EvictReport :=
  checkpoint;;
  scanned ← asks_res (λ s, let '(low, high) := tail_bounds s in scan_eviction_tail (bk s) low high);
  let drops := apply_strategy scanned strategy now_utc in
  let no_pins := apply_strategy_ignoring_pins scanned strategy now_utc in
  let pinned_kept := blen (indices_where (λ i b, is_pinned b && bool_decide (i ∈ no_pins)) 0 scanned) in
  reclaimed ← free_dropped scanned drops 0;
  on_engine publish;;
  mret (mkReport (blen scanned) (blen scanned - blen drops) (blen drops) reclaimed pinned_kept).

Definition evict (now_utc : Z) : SM EvictReport :=
  code ← asks (λ s, eviction_code (params (hdr s)));
  evict_with_strategy now_utc (from_eviction_code code).

(** [write_with_timestamp] *)
Definition set_clock (c : option Z) (s : Store) : Store :=
  mkStore (engine s) c (fragment_write_timestamps s) (wal s) (wal_overlay s) (local_alias s)
    (signing_key s) (loaded_writer_set s) (system_time s).
Definition write_with_timestamp (path : bytes) (offset : Z) (data : bytes) (ts : Z) : SM () :=
  update (set_clock (Some ts));;
  r ← try (write path offset data);
  update (set_clock None);;
  lift r.

End history.
