(* ===== verification/Reopen.v ===== *)
(** * Opening a container

    [version/store.rs]: [finish_open] and [rebuild_allocator], which find the
    end of the forward area from the catalogs and the head records, register
    the evicted blocks of the tail and take back in-place overwrites that no
    header commit has published. *)

From S2P Require Import Prelude.
From S2P Require Import Backend.
From S2P Require Import Crypto.
From S2P Require Import Header.
From S2P Require Import Alloc.
From S2P Require Import Unit.
From S2P Require Import WriterSet.
From S2P Require Import Retention.
From S2P Require Import Trie.
From S2P Require Import Records.
From S2P Require Import Engine.
From S2P Require Import Store.
From S2P Require Import WalPath.

(** The closure [bump]. *)
Definition bump (a size max_end : Z) : res Z :=
  if a =? 0 then Ok max_end
  else end_ ← add64 a size; Ok (Z.max max_end end_).

(** [for loc in &sm.locations] *)
Fixpoint bump_locs (locs : list BlockLoc) (max_end : Z) : res Z :=
  match locs with
  | [] => Ok max_end
  | loc :: locs' =>
      max_end ← bump (addr loc) (round_up_block (blk_len loc)) max_end;
      bump_locs locs' max_end
  end.

(** [rec.streams.iter().flatten()] *)
Definition bump_stream (sm : option StreamMeta) (max_end : Z) : res Z :=
  match sm with Some sm => bump_locs (sm_locations sm) max_end | None => Ok max_end end.

(** The address handed to the callback of [for_each_node_block]. *)
Fixpoint bump_nodes (nodes : list Z) (max_end : Z) : res Z :=
  match nodes with
  | [] => Ok max_end
  | a :: nodes' =>
      end_ ← add64 a (2 * BASE_BLOCK);
      bump_nodes nodes' (Z.max max_end end_)
  end.

(** An exhausted fuel of a traversal, which does not happen
    ([traversals_terminate]). *)
Definition ran {A} (o : option (res A)) : res A := default Panic o.

Section reopen.
Context `{!Crc32, !Hkdf, !Hmac, !Aes, !AesGcm, !Entropy, !Ed25519, !UuidSource}.

Definition collect_trie_frontier (b : Backend.t) (root : Z) (crypto : NodeCrypto) (max_end : Z) : res Z :=
  if root =? 0 then Ok max_end
  else nodes ← ran (visit_nodes b root crypto); bump_nodes nodes max_end.

(** The head record of every unit. *)
Fixpoint bump_heads (b : Backend.t) (cipher : Z) (root_key : bytes) (entries : list (bytes * Z)) (max_end : Z) : res Z :=
  match entries with
  | [] => Ok max_end
  | (_, head_addr) :: entries' =>
      raw_size ← unit_record_raw_size b head_addr cipher;
      max_end ← bump head_addr (round_up_block raw_size) max_end;
      r ← read_unit_record b head_addr cipher root_key Unsigned (zeros 32) None;
      max_end ← bump_stream (ur_content r) max_end;
      max_end ← bump_stream (ur_meta r) max_end;
      bump_heads b cipher root_key entries' max_end
  end.

(** The end of the last block in use. *)
Definition forward_end (e : Engine) : res Z :=
  let b := backend e in
  let h := header e in
  let trie_crypto := NodeCrypto_new (cipher h) (root_key e) in
  max_end ← collect_trie_frontier b (key_root (roots h)) trie_crypto (2 * BASE_BLOCK);
  max_end ← collect_trie_frontier b (id_root (roots h)) trie_crypto max_end;
  max_end ←
    match writer_set h with
    | Some field =>
        let '(a, len) := decode_blob_loc field in
        if negb (a =? 0) && negb (len =? 0) then bump a (round_up_to_block len) max_end else Ok max_end
    | None => Ok max_end
    end;
  entries ← ran (scan_all (id_catalog e) b);
  bump_heads b (cipher h) (root_key e) entries max_end.

(** Where the scan of the tail starts: at the watermark of the header when it
    is plausible and the block below it is clear. *)
Definition tail_scan_start (b : Backend.t) (max_end hinted_tail_low container_len : Z) : res Z :=
  let frontier_aligned := round_up_to_block max_end in
  if (hinted_tail_low <? frontier_aligned) || (container_len <? hinted_tail_low) then Ok max_end
  else if frontier_aligned <? hinted_tail_low then
    probe ← Backend.read_at b (hinted_tail_low - BASE_BLOCK) BASE_BLOCK;
    Ok (if forallb (λ x, bool_decide (x = Init.Byte.x00)) probe then hinted_tail_low else max_end)
  else Ok hinted_tail_low.

(** An undo image of an overwrite that the header does not name. *)
Definition unpublished (active_seq : Z) (s : ScannedEvictedBlock) : bool :=
  negb (sb_inplace_addr s =? 0) && (active_seq <? sb_target_commit_seq s).

Definition undo_overwrite (s : ScannedEvictedBlock) (b : Backend.t) : res Backend.t :=
  buf ← Backend.read_at b (sb_loc_addr s) (sb_encoded_len s);
  ev ← decode_evicted buf (sb_length s);
  Backend.write_at b (sb_inplace_addr s) (padded_block (eb_bytes ev)).

Fixpoint undo_all (active_seq : Z) (scanned : list ScannedEvictedBlock) (b : Backend.t) : res Backend.t :=
  match scanned with
  | [] => Ok b
  | s :: scanned' =>
      if unpublished active_seq s then b ← undo_overwrite s b; undo_all active_seq scanned' b
      else undo_all active_seq scanned' b
  end.

(** The evicted blocks above the forward area. *)
Definition scan_tail (e : Engine) (max_end : Z) : res (list ScannedEvictedBlock) :=
  let wal_offset := wal_region_offset (header e) in
  let container_len := if wal_offset =? 0 then Backend.len (backend e) else wal_offset in
  scan_from ← tail_scan_start (backend e) max_end (hdr_tail_low (header e)) container_len;
  scan_eviction_tail (backend e) scan_from container_len.

Definition rebuild_allocator (e : Engine) : res Engine :=
  let h := header e in
  max_end ← forward_end e;
  _ ← add64 max_end (BASE_BLOCK - 1);  (* inside [round_up_to_block] *)
  let a := Allocator.set_forward_frontier (alloc e) max_end in
  let a := if wal_region_offset h =? 0 then a else Allocator.set_wal_reservation a (wal_region_offset h) in
  scanned ← scan_tail e max_end;
  let a := foldl (λ a s, Allocator.register_eviction_tail_block a (sb_loc_addr s) (sb_encoded_len s)) a scanned in
  b ← undo_all (commit_seq h) scanned (backend e);
  (if existsb (unpublished (commit_seq h)) scanned then Backend.flush b else Ok ());;
  Ok (set_store ((a, b), (Engine.store e).2) e).

(** The engine before its allocator is rebuilt; [n] nonces have been drawn
    before. *)
Definition opened_engine (b : Backend.t) (n : nat) (root_key : bytes) (header : ContainerHeader) (k i : Trie) : Engine :=
  mkEngine ((Allocator.new b, b), n) header k i false ∅ ∅ (RecordCache.new 1024) None root_key.

(** [now] is the clock of the system. *)
Definition finish_open (b : Backend.t) (n : nat) (root_key : bytes) (now : Z) : res Store :=
  '(header, k, i) ← open_catalogs b root_key;
  e ← rebuild_allocator (opened_engine b n root_key header k i);
  let s := new_store e now in
  if wal_region_offset header =? 0 then Ok s
  else
    match replay_wal s with
    | (Ok _, s) => Ok s
    | (Err er, _) => Err er
    | (Panic, _) => Panic
    end.

Definition open_in_memory_with_key (image : bytes) (n : nat) (root_key : bytes) (now : Z) : res Store :=
  b ← Backend.open_in_memory image;
  finish_open b n root_key now.

Definition snapshot (s : Store) : res bytes := Backend.snapshot (bk s).

End reopen.
