(* ===== verification/Mount.v ===== *)
(** * The mount ([sfs-mount/src/adapter.rs])

    The adapter between the requests of the kernel, which name files by inode
    and open handle, and the engine, which names them by path: the table of
    inodes, the path of every inode, the open handles with their write-back
    caches and read-ahead windows, and the window that batches commits. A
    request is one call; the locks make the calls on one handle and on the
    engine sequential. The counters of the read statistics are left out. *)

From S2P Require Import Prelude.
From S2P Require Import Text.
From S2P Require Import BTree.
From S2P Require Import WbCache.
From S2P Require Import Block.
From S2P Require Import Crypto.
From S2P Require Import Header.
From S2P Require Import Unit.
From S2P Require Import WriterSet.
From S2P Require Import Attr.
From S2P Require Import Inode.
From S2P Require Import Trie.
From S2P Require Import Records.
From S2P Require Import Engine.
From S2P Require Import Store.
From S2P Require Import Content.

(** The order in which a [HashMap] is iterated: some permutation of its
    entries. *)
Class HashOrder := {
  hash_iter : ∀ A, gmap Z A → list (Z * A);
  hash_iter_perm : ∀ A (m : gmap Z A), hash_iter A m ≡ₚ map_to_list m;
}.
Arguments hash_iter {_ A} _.

Module FsError.
(** The text of an I/O error: that of an error of the engine, or its own. *)
Inductive message := ToString (e : Error) | Text (s : string).
Inductive t :=
| NotFound
| NotEmpty
| Exists
| IsDir
| NotDir
| NoXattr
| Unsupported
| TooBig
| Io (m : message).

(** [From<sfs_core::Error>] *)
Definition from (e : Error) : t :=
  match e with
  | Prelude.NotFound _ => NotFound
  | other => Io (ToString other)
  end.
(** [map_err(|e| FsError::Io(e.to_string()))] *)
Definition io (e : Error) : t := Io (ToString e).
End FsError.

(** The outcome of a request. *)
Inductive reply (A : Type) :=
| Done (a : A)
| Failed (e : FsError.t)
| Unwound.
Arguments Done {A} _.
Arguments Failed {A} _.
Arguments Unwound {A}.

Module FsAdapter.

Record ReadAhead := mkReadAhead { gen : Z; start : Z; data : bytes }.

Record HandleState := mkHandle {
  h_ino : Z;
  cache : WbCache.t;
  readahead : option ReadAhead;
  seq_next : Z;
}.

Record BatchWindow := mkBatch { ops : Z; since : option Z }.

(** [clock] is the monotonic clock in nanoseconds and [unix_secs] the time of
    the system during the call. *)
Record t := mk {
  engine : Store;
  inodes : InodeTable.t;
  paths : gmap Z bytes;
  handles : gmap Z HandleState;
  uid : Z;
  gid : Z;
  next_dir_ino : Z;
  next_fh : Z;
  write_gen : Z;
  use_readahead : bool;
  batch : BatchWindow;
  clock : Z;
  unix_secs : Z;
}.

Definition COMMIT_MAX_OPS : Z := 512.
Definition COMMIT_WINDOW : Z := 1000 * 10 ^ 6.
Definition READAHEAD : Z := Z.shiftl 4 20.

Definition set_engine (s : Store) (a : t) : t :=
  mk s (inodes a) (paths a) (handles a) (uid a) (gid a) (next_dir_ino a) (next_fh a) (write_gen a)
    (use_readahead a) (batch a) (clock a) (unix_secs a).
Definition set_inodes (i : InodeTable.t) (a : t) : t :=
  mk (engine a) i (paths a) (handles a) (uid a) (gid a) (next_dir_ino a) (next_fh a) (write_gen a)
    (use_readahead a) (batch a) (clock a) (unix_secs a).
Definition set_paths (p : gmap Z bytes) (a : t) : t :=
  mk (engine a) (inodes a) p (handles a) (uid a) (gid a) (next_dir_ino a) (next_fh a) (write_gen a)
    (use_readahead a) (batch a) (clock a) (unix_secs a).
Definition set_handles (h : gmap Z HandleState) (a : t) : t :=
  mk (engine a) (inodes a) (paths a) h (uid a) (gid a) (next_dir_ino a) (next_fh a) (write_gen a)
    (use_readahead a) (batch a) (clock a) (unix_secs a).
Definition set_next_dir_ino (n : Z) (a : t) : t :=
  mk (engine a) (inodes a) (paths a) (handles a) (uid a) (gid a) n (next_fh a) (write_gen a)
    (use_readahead a) (batch a) (clock a) (unix_secs a).
Definition set_next_fh (n : Z) (a : t) : t :=
  mk (engine a) (inodes a) (paths a) (handles a) (uid a) (gid a) (next_dir_ino a) n (write_gen a)
    (use_readahead a) (batch a) (clock a) (unix_secs a).
Definition set_write_gen (n : Z) (a : t) : t :=
  mk (engine a) (inodes a) (paths a) (handles a) (uid a) (gid a) (next_dir_ino a) (next_fh a) n
    (use_readahead a) (batch a) (clock a) (unix_secs a).
Definition set_batch (b : BatchWindow) (a : t) : t :=
  mk (engine a) (inodes a) (paths a) (handles a) (uid a) (gid a) (next_dir_ino a) (next_fh a) (write_gen a)
    (use_readahead a) b (clock a) (unix_secs a).

(** ** Requests *)

Definition AM (A : Type) : Type := t → reply A * t.
#[global] Instance AM_ret : MRet AM := λ A x a, (Done x, a).
#[global] Instance AM_bind : MBind AM := λ A B k m a,
  match m a with
  | (Done x, a') => k x a'
  | (Failed e, a') => (Failed e, a')
  | (Unwound, a') => (Unwound, a')
  end.

Definition fail {A} (e : FsError.t) : AM A := λ a, (Failed e, a).
Definition unwind {A} : AM A := λ a, (Unwound, a).
Definition asks {A} (f : t → A) : AM A := λ a, (Done (f a), a).
Definition modify (f : t → t) : AM () := λ a, (Done (), f a).
Definition of_res {A} (f : Error → FsError.t) (r : res A) : reply A :=
  match r with Ok x => Done x | Err e => Failed (f e) | Panic => Unwound end.
Definition lift {A} (r : res A) : AM A := λ a, (of_res FsError.from r, a).

(** A call of the engine whose error is converted with [f]. *)
Definition call {A} (f : Error → FsError.t) (m : SM A) : AM A := λ a,
  let '(r, s') := m (engine a) in (of_res f r, set_engine s' a).
Definition on_db {A} (m : SM A) : AM A := call FsError.from m.
Definition on_db_io {A} (m : SM A) : AM A := call FsError.io m.

(** A call on the table of inodes. *)
Definition on_inodes {A} (m : St InodeTable.t A) : AM A := λ a,
  let '(r, i') := m (inodes a) in (of_res FsError.from r, set_inodes i' a).

(** [fetch_add(1)] *)
Definition fetch_add (n : Z) : Z := (n + 1) `mod` 2 ^ 64.

Definition from_engine (s : Store) (uid gid clock unix_secs : Z) : t :=
  mk s InodeTable.new {[InodeTable.ROOT_INO := bstr "/"]} ∅ uid gid ((2 ^ 64 - 1) `div` 2) 1 0 true
    (mkBatch 0 None) clock unix_secs.

Section adapter.
Context `{!Crc32, !Hkdf, !Hmac, !Aes, !AesGcm, !Entropy, !Ed25519, !UuidSource, !HashOrder}.

(** *** Commit window *)

Definition note_write : AM () :=
  modify (λ a, set_write_gen (fetch_add (write_gen a)) a);;
  b ← asks batch;
  now ← asks clock;
  ops' ← lift (add64 (ops b) 1);
  let opened := default now (since b) in
  let due := (COMMIT_MAX_OPS <=? ops') || (COMMIT_WINDOW <=? sat_sub now opened) in
  modify (set_batch (if due then mkBatch 0 None else mkBatch ops' (Some opened)));;
  if due then on_db (on_engine commit_batch) else mret ().

Definition commit_now : AM () :=
  on_db (on_engine commit_batch);;
  modify (set_batch (mkBatch 0 None)).

(** *** Paths and handles *)

Definition path_of (ino : Z) : AM bytes := λ a,
  match paths a !! ino with
  | Some p => (Done p, a)
  | None => (Failed FsError.NotFound, a)
  end.

Definition handle (fh : Z) : AM HandleState := λ a,
  match handles a !! fh with
  | Some h => (Done h, a)
  | None => (Failed FsError.NotFound, a)
  end.
Definition set_handle (fh : Z) (h : HandleState) : AM () :=
  modify (λ a, set_handles (<[fh := h]> (handles a)) a).

Definition join_path (parent name : bytes) : bytes :=
  if bool_decide (parent = bstr "/") then bstr "/" ++ name else parent ++ bstr "/" ++ name.
Definition to_dir_prefix (path : bytes) : bytes :=
  if bool_decide (path = bstr "/") then bstr "/" else path ++ bstr "/".

(** *** Attributes *)

Definition read_unit_record_for_path (path : bytes) : AM UnitRecord :=
  addr ← on_db (on_engine (head_record_addr path));
  on_db_io (asks_res (λ s, read_record_at s addr)).

Definition attr_for_path (path : bytes) : AM FsAttr.t :=
  r ← read_unit_record_for_path path;
  u ← asks uid;
  g ← asks gid;
  let has_content := bool_decide (is_Some (ur_content r)) in
  let content_size := match ur_content r with Some sm => stream_byte_len sm | None => 0 end in
  match ur_meta r with
  | Some meta_sm =>
      if (blen (sm_unit_map meta_sm) =? 0) || (blen (sm_locations meta_sm) =? 0)
      then lift (attr_from_unit_kind has_content None content_size u g)
      else
        meta ← on_db_io (read_meta path);
        lift
          match meta with
          | Some meta_buf => attr_from_unit (Some meta_buf) content_size u g
          | None => attr_from_unit_kind has_content None content_size u g
          end
  | None => lift (attr_from_unit_kind has_content None content_size u g)
  end.

Definition assign_ino (uuid path : bytes) : AM Z :=
  ino ← on_inodes (InodeTable.get_or_assign uuid);
  modify (λ a, set_paths (<[ino := path]> (paths a)) a);;
  mret ino.

Record LookupReply := mkLookup { l_ino : Z; l_attr : FsAttr.t }.

Definition lookup (parent_ino : Z) (name : bytes) : AM LookupReply :=
  parent_path ← path_of parent_ino;
  let child_path := join_path parent_path name in
  uuid ← on_db (on_engine (uuid_for_path child_path));
  ino ← assign_ino uuid child_path;
  attr ← attr_for_path child_path;
  mret (mkLookup ino attr).

Definition getattr (ino : Z) : AM FsAttr.t :=
  if ino =? InodeTable.ROOT_INO then
    u ← asks uid;
    g ← asks gid;
    lift (attr_from_unit None 0 u g)
  else path ← path_of ino; attr_for_path path.

(** *** Extended attributes *)

Definition load_meta_xattrs (path : bytes) : AM (FsAttr.t * option bytes * StrMap.t bytes) :=
  meta ← on_db_io (read_meta path);
  match meta with
  | Some buf => lift (decode_meta_xattrs buf)
  | None => attr ← attr_for_path path; mret (attr, None, [])
  end.

Definition store_meta_xattrs (path : bytes) (attr : FsAttr.t) (symlink : option bytes) (xattrs : StrMap.t bytes) : AM () :=
  let meta_bytes := encode_meta_xattrs attr symlink xattrs in
  on_db (on_engine begin_batch);;
  on_db (write_meta path meta_bytes);;
  note_write.

Definition starts_with (name : bytes) (p : string) : bool := bool_decide (bstr p `prefix_of` name).
Definition check_xattr_name (name : bytes) : bool :=
  starts_with name "user." || starts_with name "security." || starts_with name "trusted." ||
  bool_decide (name = bstr "system.posix_acl_access") || bool_decide (name = bstr "system.posix_acl_default").

Definition get_xattr (ino : Z) (name : bytes) : AM bytes :=
  path ← path_of ino;
  '(_, _, xattrs) ← load_meta_xattrs path;
  match StrMap.get xattrs name with
  | Some v => mret v
  | None => fail FsError.NoXattr
  end.

Definition list_xattrs (ino : Z) : AM (list bytes) :=
  path ← path_of ino;
  '(_, _, xattrs) ← load_meta_xattrs path;
  mret xattrs.*1.

(** The sum of the lengths of the names and values. *)
Definition xattr_total (x : StrMap.t bytes) : Z := foldr (λ e acc, blen e.1 + blen e.2 + acc) 0 x.

Definition set_xattr (ino : Z) (name value : bytes) : AM () :=
  if negb (check_xattr_name name) then fail FsError.Unsupported
  else
    path ← path_of ino;
    '(attr, symlink, xattrs) ← load_meta_xattrs path;
    let xattrs := StrMap.insert xattrs name value in
    if MAX_XATTR_TOTAL <? xattr_total xattrs then fail FsError.TooBig
    else store_meta_xattrs path attr symlink xattrs.

Definition remove_xattr (ino : Z) (name : bytes) : AM () :=
  if negb (check_xattr_name name) then fail FsError.Unsupported
  else
    path ← path_of ino;
    '(attr, symlink, xattrs) ← load_meta_xattrs path;
    match StrMap.get xattrs name with
    | None => fail FsError.NoXattr
    | Some _ => store_meta_xattrs path attr symlink (StrMap.remove xattrs name)
    end.

(** *** Directories *)

Record DirItem := mkDirItem { d_name : bytes; d_ino : Z; d_kind : FileKind.t }.

(** [iter().find(|(_, p)| *p == path)] *)
Definition ino_of_path (a : t) (path : bytes) : option Z :=
  (λ x, x.2.1) <$> list_find (λ e : Z * bytes, e.2 = path) (hash_iter (paths a)).

(** The number of a child without a unit of its own. *)
Definition intermediate_ino (child_path : bytes) : AM Z :=
  existing ← asks (λ a, ino_of_path a child_path);
  match existing with
  | Some ino => mret ino
  | None =>
      ino ← asks next_dir_ino;
      modify (λ a, set_next_dir_ino (fetch_add (next_dir_ino a)) a);;
      modify (λ a, set_paths (<[ino := child_path]> (paths a)) a);;
      mret ino
  end.

Fixpoint dir_items (path : bytes) (entries : list DirEntry) : AM (list DirItem) :=
  match entries with
  | [] => mret []
  | entry :: entries' =>
      let child_path := join_path path (de_name entry) in
      child_ino ←
        match de_uuid entry with
        | Some uuid => assign_ino uuid child_path
        | None => intermediate_ino child_path
        end;
      let kind := if de_is_dir entry then FileKind.Dir else FileKind.File in
      items ← dir_items path entries';
      mret (mkDirItem (de_name entry) child_ino kind :: items)
  end.

Definition readdir (ino : Z) : AM (list DirItem) :=
  path ← path_of ino;
  entries ← on_db (list_dir (to_dir_prefix path));
  dir_items path entries.

(** *** Open files *)

Definition open_fh (ino : Z) : AM Z :=
  path ← path_of ino;
  attr ← attr_for_path path;
  fh ← asks next_fh;
  modify (λ a, set_next_fh (fetch_add (next_fh a)) a);;
  set_handle fh (mkHandle ino (WbCache.new (FsAttr.size attr)) None 0);;
  mret fh.

(** The result is cast to [u32]. *)
Definition write (fh offset : Z) (data : bytes) : AM Z :=
  h ← handle fh;
  c ← lift (WbCache.write (cache h) offset data);
  set_handle fh (mkHandle (h_ino h) c (readahead h) (seq_next h));;
  mret (blen data `mod` 2 ^ 32).

(** The closure [base_reader] of [read_through]; its state is the engine and
    the window of the handle. *)
Definition base_miss (path : bytes) (cur_gen seq_prev base_off base_len : Z)
    : St (Store * option ReadAhead) bytes := λ '(s, ra),
  let seq := base_off =? seq_prev in
  let want := if seq then Z.max base_len READAHEAD else base_len in
  match Store.read_at path base_off want s with
  | (Ok big, s') =>
      (index_range big 0 (Z.min base_len (blen big)),
       (s', if seq && (base_len <? blen big) then Some (mkReadAhead cur_gen base_off big) else None))
  | (Err e, s') => (Err e, (s', ra))
  | (Panic, s') => (Panic, (s', ra))
  end.

Definition base_reader (use_ra : bool) (path : bytes) (cur_gen seq_prev base_off base_len : Z)
    : St (Store * option ReadAhead) bytes := λ '(s, ra),
  if negb use_ra then
    let '(r, s') := Store.read_at path base_off base_len s in (r, (s', ra))
  else
    match ra with
    | Some w =>
        match add64 base_off base_len with
        | Ok end_ =>
            if (gen w =? cur_gen) && (start w <=? base_off) && (end_ <=? start w + blen (data w)) then
              (index_range (data w) (base_off - start w) (base_off - start w + base_len), (s, ra))
            else base_miss path cur_gen seq_prev base_off base_len (s, ra)
        | Err e => (Err e, (s, ra))
        | Panic => (Panic, (s, ra))
        end
    | None => base_miss path cur_gen seq_prev base_off base_len (s, ra)
    end.

Definition read_through (fh offset size : Z) : AM bytes :=
  h ← handle fh;
  path ← path_of (h_ino h);
  cur_gen ← asks write_gen;
  use_ra ← asks use_readahead;
  s ← asks engine;
  let '(r, (s', ra')) :=
    WbCache.read_through (base_reader use_ra path cur_gen (seq_next h)) (cache h) offset size (s, readahead h) in
  modify (set_engine s');;
  set_handle fh (mkHandle (h_ino h) (cache h) ra' (seq_next h));;
  result ← lift r;
  next ← lift (add64 offset (blen result));
  set_handle fh (mkHandle (h_ino h) (cache h) ra' next);;
  mret result.

(** [iter().map(|(offset, data)| offset + data.len() as u64).max().unwrap_or(0)] *)
Fixpoint extents_end (extents : list (Z * bytes)) : res Z :=
  match extents with
  | [] => Ok 0
  | (offset, data) :: extents' =>
      end_ ← add64 offset (blen data);
      rest ← extents_end extents';
      Ok (Z.max end_ rest)
  end.

Fixpoint write_all (path : bytes) (extents : list (Z * bytes)) : AM () :=
  match extents with
  | [] => mret ()
  | (offset, data) :: extents' =>
      (if bool_decide (data = []) then mret () else on_db (Content.write path offset data));;
      write_all path extents'
  end.

(** The extents leave the cache before they are written. *)
Definition flush (fh : Z) : AM () :=
  h ← handle fh;
  path ← path_of (h_ino h);
  let '(dirty_ranges, c) := WbCache.take_dirty_ranges (cache h) in
  set_handle fh (mkHandle (h_ino h) c (readahead h) (seq_next h));;
  match dirty_ranges with
  | None => mret ()
  | Some extents =>
      on_db (on_engine begin_batch);;
      max_end ← lift (extents_end extents);
      summary ← on_db (unit_summary path);
      (if us_size summary <? max_end then on_db (extend path max_end) else mret ());;
      write_all path extents;;
      note_write
  end.

Definition fh_size (fh : Z) : AM Z := h ← handle fh; mret (WbCache.len (cache h)).

Definition fsync (fh : Z) : AM () := flush fh;; commit_now.

Definition release (fh : Z) : AM () :=
  flush fh;;
  modify (λ a, set_handles (delete fh (handles a)) a).

(** [size] is a [u32]. *)
Definition read (ino offset size : Z) : AM bytes :=
  path ← path_of ino;
  on_db (Store.read_at path offset size).

(** *** Creation *)

(** [0o100_000], [0o040_000], [0o120_000], [0o7777] and [0o777] *)
Definition S_IFREG : Z := 32768.
Definition S_IFDIR : Z := 16384.
Definition S_IFLNK : Z := 40960.
Definition PERM_BITS : Z := 4095.
Definition ALL_RWX : Z := 511.

Definition new_attr (a : t) (size mode : Z) (kind : FileKind.t) (nlink : Z) : FsAttr.t :=
  let now := unix_secs a in
  FsAttr.mk size 0 mode (uid a) (gid a) now now now kind nlink 0 0 0.

(** [engine.uuid_for_path(&child_path).is_ok()] *)
Definition path_exists (path : bytes) : AM bool := λ a,
  let '(r, s') := on_engine (uuid_for_path path) (engine a) in
  match r with
  | Panic => (Unwound, set_engine s' a)
  | _ => (Done (is_ok r), set_engine s' a)
  end.

(** What follows the creation of a unit. *)
Definition created (uuid child_path : bytes) : AM LookupReply :=
  ino ← assign_ino uuid child_path;
  attr_out ← attr_for_path child_path;
  mret (mkLookup ino attr_out).

Definition create_file (parent_ino : Z) (name : bytes) (mode : Z) : AM LookupReply :=
  parent_path ← path_of parent_ino;
  let child_path := join_path parent_path name in
  attr ← asks (λ a, new_attr a 0 (Z.lor S_IFREG (Z.land mode PERM_BITS)) FileKind.File 1);
  let meta_bytes := encode_meta attr None in
  exists_ ← path_exists child_path;
  if exists_ : bool then fail FsError.Exists
  else
    on_db (on_engine begin_batch);;
    uuid ← on_db (create_unit_with_meta child_path meta_bytes);
    note_write;;
    created uuid child_path.

Definition mkdir (parent_ino : Z) (name : bytes) (mode : Z) : AM LookupReply :=
  parent_path ← path_of parent_ino;
  let child_path := join_path parent_path name in
  attr ← asks (λ a, new_attr a 0 (Z.lor S_IFDIR (Z.land mode PERM_BITS)) FileKind.Dir 2);
  let meta_bytes := encode_meta attr None in
  exists_ ← path_exists child_path;
  if exists_ : bool then fail FsError.Exists
  else
    on_db (on_engine begin_batch);;
    uuid ← on_db (mkdir_with_meta child_path meta_bytes);
    note_write;;
    created uuid child_path.

Definition symlink (parent_ino : Z) (name target : bytes) : AM LookupReply :=
  parent_path ← path_of parent_ino;
  let child_path := join_path parent_path name in
  attr ← asks (λ a, new_attr a (blen target) (Z.lor S_IFLNK ALL_RWX) FileKind.Symlink 1);
  let meta_bytes := encode_meta attr None in
  exists_ ← path_exists child_path;
  if exists_ : bool then fail FsError.Exists
  else
    on_db (on_engine begin_batch);;
    uuid ← on_db (create_unit_with_meta child_path meta_bytes);
    on_db (Content.write child_path 0 target);;
    note_write;;
    created uuid child_path.

(** [debug_assert_eq!] *)
Definition link (source_ino newparent_ino : Z) (newname : bytes) : AM LookupReply :=
  source_path ← path_of source_ino;
  parent_path ← path_of newparent_ino;
  let new_path := join_path parent_path newname in
  on_db (on_engine (Engine.link source_path new_path));;
  uuid ← on_db (on_engine (uuid_for_path new_path));
  ino ← assign_ino uuid new_path;
  if negb (ino =? source_ino) then unwind
  else
    attr ← attr_for_path new_path;
    mret (mkLookup ino attr).

Definition readlink (ino : Z) : AM bytes :=
  path ← path_of ino;
  attr ← attr_for_path path;
  if negb (bool_decide (FsAttr.kind attr = FileKind.Symlink))
  then fail (FsError.Io (FsError.Text "readlink: not a symlink"))
  else
    bs ← on_db (Store.read path);
    if utf8_valid bs then mret bs
    else fail (FsError.Io (FsError.Text "readlink: target not UTF-8")).

(** *** Removal and renaming *)

(** What [unlink] and [rmdir] do with the number of the path. *)
Definition forget_ino (ino_opt : option Z) : AM () :=
  match ino_opt with
  | Some ino =>
      modify (λ a, set_paths (delete ino (paths a)) a);;
      modify (λ a, set_inodes (InodeTable.forget ino (inodes a)) a)
  | None => mret ()
  end.

Definition unlink (parent_ino : Z) (name : bytes) : AM () :=
  parent_path ← path_of parent_ino;
  let child_path := join_path parent_path name in
  ino_opt ← asks (λ a, ino_of_path a child_path);
  on_db (on_engine (Engine.unlink child_path));;
  forget_ino ino_opt.

Definition rmdir (parent_ino : Z) (name : bytes) : AM () :=
  parent_path ← path_of parent_ino;
  let child_path := join_path parent_path name in
  children ← on_db (list_dir (to_dir_prefix child_path));
  if negb (bool_decide (children = [])) then fail FsError.NotEmpty
  else
    ino_opt ← asks (λ a, ino_of_path a child_path);
    on_db (on_engine (Engine.unlink child_path));;
    forget_ino ino_opt.

(** The path of an inode after a rename. *)
Definition moved_path (old_path new_path : bytes) (has_children : bool) (p : bytes) : bytes :=
  if bool_decide (p = old_path) then new_path
  else if has_children && bool_decide ((old_path ++ bstr "/") `prefix_of` p)
  then new_path ++ bstr "/" ++ drop (length old_path + 1) p
  else p.

Definition rename (parent_ino : Z) (name : bytes) (newparent_ino : Z) (newname : bytes) : AM () :=
  parent_path ← path_of parent_ino;
  let old_path := join_path parent_path name in
  newparent_path ← path_of newparent_ino;
  let new_path := join_path newparent_path newname in
  children ← on_db (list_dir (to_dir_prefix old_path));
  let has_children := negb (bool_decide (children = [])) in
  (if has_children then on_db (on_engine (rename_prefix old_path new_path));; mret ()
   else on_db (on_engine (Engine.rename old_path new_path)));;
  modify (λ a, set_paths (moved_path old_path new_path has_children <$> paths a) a).

(** *** Attributes *)

(** [chmod], [chown] and [times]; the bits are those of a [u32]. *)
Definition apply_chmod (perm : Z) (a : FsAttr.t) : FsAttr.t :=
  let type_bits := Z.land (FsAttr.mode a) (2 ^ 32 - 1 - PERM_BITS) in
  FsAttr.mk (FsAttr.size a) (FsAttr.blocks a) (Z.lor type_bits (Z.land perm PERM_BITS)) (FsAttr.uid a) (FsAttr.gid a)
    (FsAttr.atime a) (FsAttr.mtime a) (FsAttr.ctime a) (FsAttr.kind a) (FsAttr.nlink a)
    (FsAttr.atime_nsec a) (FsAttr.mtime_nsec a) (FsAttr.ctime_nsec a).
Definition apply_chown (u g : option Z) (a : FsAttr.t) : FsAttr.t :=
  FsAttr.mk (FsAttr.size a) (FsAttr.blocks a) (FsAttr.mode a) (default (FsAttr.uid a) u) (default (FsAttr.gid a) g)
    (FsAttr.atime a) (FsAttr.mtime a) (FsAttr.ctime a) (FsAttr.kind a) (FsAttr.nlink a)
    (FsAttr.atime_nsec a) (FsAttr.mtime_nsec a) (FsAttr.ctime_nsec a).
Definition apply_times (atime mtime : option (Z * Z)) (a : FsAttr.t) : FsAttr.t :=
  let at_ := default (FsAttr.atime a, FsAttr.atime_nsec a) atime in
  let mt := default (FsAttr.mtime a, FsAttr.mtime_nsec a) mtime in
  FsAttr.mk (FsAttr.size a) (FsAttr.blocks a) (FsAttr.mode a) (FsAttr.uid a) (FsAttr.gid a)
    at_.1 mt.1 (FsAttr.ctime a) (FsAttr.kind a) (FsAttr.nlink a) at_.2 mt.2 (FsAttr.ctime_nsec a).
Definition set_ctime (now : Z) (a : FsAttr.t) : FsAttr.t :=
  FsAttr.mk (FsAttr.size a) (FsAttr.blocks a) (FsAttr.mode a) (FsAttr.uid a) (FsAttr.gid a)
    (FsAttr.atime a) (FsAttr.mtime a) now (FsAttr.kind a) (FsAttr.nlink a)
    (FsAttr.atime_nsec a) (FsAttr.mtime_nsec a) (FsAttr.ctime_nsec a).

(** The caches of the open handles of [ino], in the order of the table. *)
Fixpoint truncate_handles (ino new_size : Z) (l : list (Z * HandleState)) : AM () :=
  match l with
  | [] => mret ()
  | (fh, h) :: l' =>
      (if h_ino h =? ino then
         c ← lift (WbCache.truncate (cache h) new_size);
         set_handle fh (mkHandle (h_ino h) c (readahead h) (seq_next h))
       else mret ());;
      truncate_handles ino new_size l'
  end.

(** The branch [if let Some(new_size) = size]. *)
Definition change_size (ino : Z) (path : bytes) (new_size : Z) : AM () :=
  summary ← on_db (unit_summary path);
  let current_size := us_size summary in
  (if new_size <? current_size then on_db (Content.truncate path new_size)
   else if current_size <? new_size then on_db (extend path new_size)
   else mret ());;
  (if negb (new_size =? current_size) then modify (λ a, set_write_gen (fetch_add (write_gen a)) a) else mret ());;
  l ← asks (λ a, hash_iter (handles a));
  truncate_handles ino new_size l.

Definition setattr (ino : Z) (chmod : option Z) (chown : option (option Z * option Z))
    (times : option (option (Z * Z) * option (Z * Z))) (size : option Z) : AM FsAttr.t :=
  path ← path_of ino;
  attr ← attr_for_path path;
  let attr := match chmod with Some perm => apply_chmod perm attr | None => attr end in
  let attr := match chown with Some (u, g) => apply_chown u g attr | None => attr end in
  let attr := match times with Some (a, m) => apply_times a m attr | None => attr end in
  now ← asks unix_secs;
  let attr := set_ctime now attr in
  let attr := match size with Some n => set_size n attr | None => attr end in
  match size with Some n => change_size ino path n | None => mret () end;;
  on_db (write_meta path (encode_meta attr None));;
  attr_for_path path.

(** [Drop]: a failed commit is reported and ignored. *)
Definition drop_adapter : AM () := λ a,
  let '(r, s') := on_engine commit_batch (engine a) in
  (match r with Panic => Unwound | _ => Done () end, set_engine s' a).

End adapter.

End FsAdapter.
