(* ===== verification/EngineInv.v ===== *)
(** * Correctness of the engine

    [eng] relates an engine to the two finite maps its catalogs store, to the
    maps that the last header commit published, and to the store as of that
    commit. Every operation preserves it; [opens_as] says what a reopened store
    contains. *)

From S2P Require Import Prelude.
From S2P Require Import Backend.
From S2P Require Import Crypto.
From S2P Require Import Header.
From S2P Require Import Alloc.
From S2P Require Import AllocInv.
From S2P Require Import Trie.
From S2P Require Import NodeHeap.
From S2P Require Import TrieMap.
From S2P Require Import TrieScan.
From S2P Require Import Catalog.
From S2P Require Import Engine.

(** The namespace (path to uuid) and the records (uuid to address). *)
Definition maps : Type := (gmap bytes bytes * gmap bytes bytes)%type.

(** Bounds of the header slots as numbers. *)
Ltac slot_lia :=
  unfold is_slot, slots_ok, SLOT0_OFFSET, SLOT1_OFFSET, BASE_BLOCK, WIRE_SIZE_V12, HEADER_MAC_SIZE, BODY_SIZE_V12,
    BODY_SIZE_V11, BODY_SIZE_V8, BODY_SIZE_V7, BODY_SIZE_V6, BODY_SIZE_V5, BODY_SIZE_V4, BODY_SIZE_V2,
    BODY_SIZE_V1, SALT_LEN in *; lia.

(** ** Heap predicates

    What else the store is known to hold: a predicate on the blocks that are not
    catalog nodes, on the packed payloads, the allocator and the backend.  The
    contracts below hold for any predicate that the steps of the catalogs, a
    header commit and the release of deferred blocks preserve. *)
Class HeapPred := heap_pred : list Block → list Block → Allocator.t → Backend.t → Prop.

Class HeapExt (X : HeapPred) : Prop := {
  ext_frame fl h rest s h' rest' s' packed :
    frame fl h rest s h' rest' s' → X rest packed s.1 s.2 → X rest' packed s'.1 s'.2;
  ext_low rest packed a b b' :
    (∀ blk, blk ∈ rest → 2 * BASE_BLOCK ≤ b_addr blk) →
    (∀ x, 2 * BASE_BLOCK ≤ x → Backend.byte_at b' x = Backend.byte_at b x) →
    X rest packed a b → X rest packed a b';
  ext_publish live rest packed a a' b :
    inv a b live packed → rest ⊆ live →
    Allocator.publish_deferred a = Ok a' → Allocator.deferred_free a' = [] → X rest packed a b →
    X (release_all (Allocator.deferred_free a) rest) (filter (survives (Allocator.deferred_free a)) packed) a' b;
  ext_session rest packed a b fl d :
    d = Allocator.deferred_free a ∨ d = [] → X rest packed a b →
    X rest packed (Allocator.set_session a fl d (Allocator.open_pack a)) b;
}.

(** Nothing else is known. *)
Definition no_claims : HeapPred := λ _ _ _ _, True.

#[global] Instance no_claims_ext : HeapExt no_claims.
Proof. by split. Qed.

Section invariant.
Context `{!Crc32, !Hkdf, !Hmac, !AesGcm, !Entropy} {X : HeapPred} {HX : HeapExt X}.

Definition meta (root_key : bytes) : NodeCrypto := NodeCrypto_new CIPHER_AES256_GCM root_key.

(** ** Crashes *)

(** A crash may leave anything in the bytes that have been written since the
    store [b0] was last flushed, and may or may not have grown it. *)
Definition crash_image (b0 b torn : Backend.t) : Prop :=
  Backend.wf torn ∧ Backend.len b0 ≤ Backend.len torn ∧
  ∀ x, Backend.byte_at b x = Backend.byte_at b0 x → Backend.byte_at torn x = Backend.byte_at b0 x.

(** The header and the two catalogs that load from the store (the first steps
    of every open) are [hdr] and catalogs with exactly these entries. The head
    records that the ids lead to are not read. *)
Definition opens_as (b : Backend.t) (root_key : bytes) (hdr : ContainerHeader) (m : maps) : Prop :=
  ∃ k i, open_catalogs b root_key = Ok (hdr, k, i) ∧
    (∀ key, get k b key = Ok (m.1 !! key)) ∧ (∀ key, get i b key = Ok (m.2 !! key)).

(** ** The invariant *)

(** The roots of [hdr] lead to tries with the maps [m], in nodes that are not
    reclaimable and whose bytes are those of [b0]. *)
Definition rooted (fl : option Z) (h : gmap Z node) (b0 b : Backend.t) (hdr : ContainerHeader) (m : maps) : Prop :=
  ∃ Nk Ni, trie_at h (key_root (roots hdr)) m.1 Nk ∧ trie_at h (id_root (roots hdr)) m.2 Ni ∧
    ∀ y, y ∈ Nk ∪ Ni → reclaimable fl y = false ∧ y + NODE_ALLOC_SIZE ≤ Backend.len b0 ∧
      Backend.contents b y NODE_ALLOC_SIZE = Backend.contents b0 y NODE_ALLOC_SIZE.

(** The published state. *)
Record durable (e : Engine) (com : maps) (b0 : Backend.t) (h : gmap Z node) (rest packed : list Block) : Prop := {
  d_heap : node_heap (meta (root_key e)) (Allocator.reclaim_floor (alloc e)) h rest packed (alloc e) (backend e);
  d_slots : slots_ok b0;
  d_len : Backend.len b0 ≤ Backend.len (backend e);
  d_load : load b0 (Some (root_key e)) = Ok (header e);
  d_cipher : cipher (header e) = CIPHER_AES256_GCM;
  d_low : ∀ x, x < 2 * BASE_BLOCK → Backend.byte_at (backend e) x = Backend.byte_at b0 x;
  d_rooted : rooted (Allocator.reclaim_floor (alloc e)) h b0 (backend e) (header e) com;
  d_scope : suppress_commit e = false → Allocator.reclaim_floor (alloc e) = None;
  d_pending : if pending_wal_applied_seq e is Some s then u64 s else True;
  d_ext : heap_pred rest packed (alloc e) (backend e);
}.

(** The catalogs in memory. *)
Record current (e : Engine) (cur : maps) (h : gmap Z node) : Prop := {
  c_tries : ∃ Nk Ni, trie_at h (root (key_catalog e)) cur.1 Nk ∧ trie_at h (root (id_catalog e)) cur.2 Ni ∧ Nk ## Ni;
  c_key : crypto (key_catalog e) = meta (root_key e);
  c_id : crypto (id_catalog e) = meta (root_key e);
  c_uuids : map_Forall (λ _ u, blen u = 16) cur.1;
}.

Definition safe (e : Engine) (com : maps) (b0 : Backend.t) : Prop :=
  ∃ h rest packed, durable e com b0 h rest packed.
Definition eng (e : Engine) (cur com : maps) (b0 : Backend.t) : Prop :=
  ∃ h rest packed, durable e com b0 h rest packed ∧ current e cur h.

Lemma eng_safe e cur com b0 : eng e cur com b0 → safe e com b0.
Proof. intros (h&rest&packed&?&_). by exists h, rest, packed. Qed.

(** ** What survives a crash *)

Lemma contents_bytes b b' y n :
  Backend.contents b' y n = Backend.contents b y n → 0 ≤ y → 0 ≤ n →
  ∀ x, y ≤ x < y + n → Backend.byte_at b' x = Backend.byte_at b x.
Proof.
  intros Hc Hy Hn x Hx. apply (f_equal (λ l, l !! Z.to_nat (x - y))) in Hc.
  rewrite !Backend.contents_lookup, !decide_True, Z2Nat.id in Hc by lia.
  by replace (y + (x - y)) with x in Hc by lia.
Qed.

Lemma slots_torn b0 b torn :
  slots_ok b0 → (∀ x, x < 2 * BASE_BLOCK → Backend.byte_at b x = Backend.byte_at b0 x) → crash_image b0 b torn →
  slots_ok torn ∧ ∀ k, load torn k = load b0 k.
Proof.
  intros Hs Hlow (Hwf&Hl&Hb). assert (slots_ok torn) as Ht by (split; [done|destruct Hs; lia]).
  split; [done|]. intros k. apply load_ext; [done..|]. intros o Ho.
  apply Backend.contents_ext; [slot_lia..|]. intros x Hx. apply Hb, Hlow. slot_lia.
Qed.

(** A store that agrees with [b0] on the nodes of the roots. *)
Lemma rooted_opens fl h rest packed a b b0 torn key hdr m :
  node_heap (meta key) fl h rest packed a b → rooted fl h b0 b hdr m → cipher hdr = CIPHER_AES256_GCM →
  Backend.wf torn → Backend.len b0 ≤ Backend.len torn → load torn (Some key) = Ok hdr →
  (∀ x, Backend.byte_at b x = Backend.byte_at b0 x → 2 * BASE_BLOCK ≤ x → Backend.byte_at torn x = Backend.byte_at b0 x) →
  opens_as torn key hdr m.
Proof.
  intros Hh (Nk&Ni&Hk&Hi&Hn) Hc Hwf Hl Hload Hb.
  assert (∀ N, N ⊆ Nk ∪ Ni → reads (meta key) torn h N) as Hr.
  { intros N HN y nd Hy Hnd. destruct (nh_nodes _ _ _ _ _ _ _ Hh _ _ Hnd) as (Hok&Hp). split; [|done].
    destruct (Hn y (HN y Hy)) as (_&Hly&Hcy).
    pose proof (node_range _ _ _ _ _ _ _ y Hh ltac:(eauto)) as (?&_). unfold BASE_BLOCK in *.
    destruct (pair_image_ext (meta key) y nd b torn) as [Himg _]; [lia| |done|].
    - rewrite Hcy. apply Backend.contents_ext; [lia|lia|]. intros i Hi'.
      apply Hb; [|lia]. eapply (contents_bytes b0 b y NODE_ALLOC_SIZE); [done|lia|by_compute|lia].
    - apply readable_copy; [done|lia|lia|done|by left]. }
  exists (mkTrie (key_root (roots hdr)) (meta key)), (mkTrie (id_root (roots hdr)) (meta key)).
  split_and!.
  - unfold open_catalogs. rewrite Hload. cbn. rewrite Hc. done.
  - intros k. eapply get_spec; [apply (Hr Nk), union_subseteq_l|done].
  - intros k. eapply get_spec; [apply (Hr Ni), union_subseteq_r|done].
Qed.

Lemma safe_crash e com b0 torn :
  safe e com b0 → crash_image b0 (backend e) torn → opens_as torn (root_key e) (header e) com.
Proof.
  intros (h&rest&packed&Hd) Hcr. pose proof Hcr as (Hwf&Hl&Hb).
  destruct (slots_torn _ _ _ (d_slots _ _ _ _ _ _ Hd) (d_low _ _ _ _ _ _ Hd) Hcr) as [_ Hload].
  eapply rooted_opens; [apply Hd|apply Hd|apply Hd|done|done|rewrite Hload; apply Hd|auto].
Qed.

(** The store as it is opens with the published maps. *)
Lemma eng_opens e cur com b0 : eng e cur com b0 → opens_as (backend e) (root_key e) (header e) com.
Proof.
  intros He. pose proof (eng_safe _ _ _ _ He) as Hs. destruct He as (h&rest&packed&Hd&_).
  apply (safe_crash e com b0); [done|]. split_and!; [|by apply Hd|done].
  apply (i_backend _ _ _ _ (nh_inv _ _ _ _ _ _ _ (d_heap _ _ _ _ _ _ Hd))).
Qed.

(** ** Steps that do not publish *)

(** The fields that an unpublished step leaves alone. *)
Definition base (e e' : Engine) : Prop :=
  root_key e' = root_key e ∧ header e' = header e ∧ suppress_commit e' = suppress_commit e ∧
  pending_wal_applied_seq e' = pending_wal_applied_seq e ∧ Backend.no_grow (backend e') = Backend.no_grow (backend e).

Lemma base_refl e : base e e.
Proof. done. Qed.
Lemma base_trans e1 e2 e3 : base e1 e2 → base e2 e3 → base e1 e3.
Proof. unfold base. intuition congruence. Qed.

Lemma rooted_step fl h b h' b' b0 hdr m : rooted fl h b0 b hdr m → kept fl h b h' b' → rooted fl h' b0 b' hdr m.
Proof.
  intros (Nk&Ni&Hk&Hi&Hn) [_ Hkept].
  assert (∀ y, y ∈ Nk ∪ Ni → h' !! y = h !! y ∧
    Backend.contents b' y NODE_ALLOC_SIZE = Backend.contents b y NODE_ALLOC_SIZE) as Hy.
  { intros y Hy. assert (is_Some (h !! y)) as [nd Hnd]
      by (apply elem_of_union in Hy as [Hy|Hy]; [exact (trie_at_dom _ _ _ _ _ Hk Hy)|exact (trie_at_dom _ _ _ _ _ Hi Hy)]).
    destruct (Hkept y nd Hnd) as [-> ->]; [by apply Hn|]. auto. }
  exists Nk, Ni. split_and!.
  - eapply trie_at_mono; [done|]. intros z ?. apply Hy, elem_of_union. by left.
  - eapply trie_at_mono; [done|]. intros z ?. apply Hy, elem_of_union. by right.
  - intros y HN. destruct (Hn y HN) as (?&?&<-). split_and!; [done..|]. by apply Hy.
Qed.

Lemma durable_step e e' com b0 h rest packed h' rest' :
  durable e com b0 h rest packed → base e e' →
  node_heap (meta (root_key e)) (Allocator.reclaim_floor (alloc e)) h' rest' packed (alloc e') (backend e') →
  frame (Allocator.reclaim_floor (alloc e)) h rest (store e).1 h' rest' (store e').1 →
  durable e' com b0 h' rest' packed.
Proof.
  intros [] (Hk&Hh&Hs&Hp&Hg) Hheap Hfr. pose proof Hfr as (Hkept&_&_&delta&?&Hl&_). pose proof (nh_floor _ _ _ _ _ _ _ Hheap) as Hfl.
  pose proof Hkept as [Hlow _]. unfold alloc, backend in *.
  split; unfold alloc, backend; rewrite ?Hk, ?Hh, ?Hs, ?Hp, ?Hfl; try done.
  - lia.
  - intros x Hx. rewrite Hlow by done. by apply d_low0.
  - by eapply rooted_step.
  - by eapply (ext_frame _ _ _ _ _ _ _ _ Hfr).
Qed.

(** A run from the state of [e0]: it returns, fails as [F] says, or reports a
    full device; it unwinds only when the store or the commit counter is
    exhausted. *)
Definition exhausted (e : Engine) : Prop :=
  2 ^ 61 ≤ Backend.len (backend e) ∨ 2 ^ 64 - 1 ≤ commit_seq (header e).
Definition outcome {A} (e0 : Engine) (com : maps) (b0 : Backend.t) (r : res A * Engine)
    (Q : A → Engine → Prop) (F : Error → Engine → Prop) : Prop :=
  match r with
  | (Ok v, e') => Q v e'
  | (Err er, e') => F er e' ∨
      er = Io StorageFull ∧ Backend.no_grow (backend e0) = true ∧ base e0 e' ∧ safe e' com b0
  | (Panic, e') => exhausted e'
  end.

Lemma outcome_bind {A B} e0 com b0 e (m : EM A) (f : A → EM B) Q1 Q F :
  outcome e0 com b0 (m e) Q1 F → (∀ v e', Q1 v e' → outcome e0 com b0 (f v e') Q F) →
  outcome e0 com b0 ((m ≫= f) e) Q F.
Proof. unfold outcome. rewrite bind_run. destruct (m e) as [[v|er|] e']; [intros HQ Hf; by apply Hf|done..]. Qed.

Lemma outcome_mono {A} e0 com b0 (r : res A * Engine) (Q Q' : A → Engine → Prop) (F F' : Error → Engine → Prop) :
  outcome e0 com b0 r Q F → (∀ v e', Q v e' → Q' v e') → (∀ er e', F er e' → F' er e') →
  outcome e0 com b0 r Q' F'.
Proof. unfold outcome. destruct r as [[v|er|] e']; naive_solver. Qed.

Lemma outcome_ok {A} e0 com b0 (r : res A * Engine) (Q Q' : A → Engine → Prop) F :
  outcome e0 com b0 r Q F → (∀ v e', Q v e' → Q' v e') → outcome e0 com b0 r Q' F.
Proof. intros. by eapply outcome_mono. Qed.

Lemma outcome_base {A} e e1 com b0 (r : res A * Engine) Q F :
  base e e1 → outcome e1 com b0 r Q F → outcome e com b0 r Q F.
Proof.
  intros Hb. unfold outcome. destruct r as [[v|er|] e2]; [done| |done].
  intros [?|(?&?&?&?)]; [by left|right]. split_and!; try done; [by destruct Hb as (_&_&_&_&<-)|by eapply base_trans].
Qed.

(** ** Calls of the catalogs *)

Lemma on_key_spec {A} (m : Trie → TM (A * Trie)) (P : A → gmap bytes bytes → Prop) e cur com b0 F :
  eng e cur com b0 →
  (∀ h rest packed N, let fl := Allocator.reclaim_floor (alloc e) in
     node_heap (meta (root_key e)) fl h rest packed (alloc e) (backend e) →
     trie_at h (root (key_catalog e)) cur.1 N →
     ends (meta (root_key e)) fl packed h rest (store e) (m (key_catalog e))
       (λ '(v, t') h', ∃ K', P v K' ∧ map_Forall (λ _ u, blen u = 16) K' ∧ updated (meta (root_key e)) fl h N K' t' h')
       (spares fl N h)) →
  outcome e com b0 (on_key m e)
    (λ v e', base e e' ∧ resolve_cache e' = resolve_cache e ∧ ∃ K', P v K' ∧ eng e' (K', cur.2) com b0) F.
Proof.
  intros (h&rest&packed&Hd&[(Nk&Ni&Hk&Hi&Hdis) Hck Hci Hu]) Hm.
  specialize (Hm h rest packed Nk (d_heap _ _ _ _ _ _ Hd) Hk). unfold outcome, on_key, ends in *.
  destruct (m (key_catalog e) (store e)) as [[[v t']|er|] s']; [..|by left].
  - destruct Hm as (h'&rest'&Hh'&Hfr&K'&HP&HK'&Hct&Hsp&N'&Ht'&Hfresh).
    pose proof Hfr as (_&_&Hg&_). split; [by split_and!|]. split; [done|]. exists K'. split; [done|].
    exists h', rest', packed. split; [by eapply durable_step|]. split; try done.
    exists N', Ni. split_and!; [done|by eapply spares_disjoint|].
    symmetry. by eapply fresh_disjoint.
  - destruct Hm as (->&?&h'&rest'&Hh'&Hfr&_). pose proof Hfr as (_&_&Hg&_). right.
    split_and!; [done|done|by split_and!|]. exists h', rest', packed. by eapply durable_step.
Qed.

Lemma on_id_spec {A} (m : Trie → TM (A * Trie)) (P : A → gmap bytes bytes → Prop) e cur com b0 F :
  eng e cur com b0 →
  (∀ h rest packed N, let fl := Allocator.reclaim_floor (alloc e) in
     node_heap (meta (root_key e)) fl h rest packed (alloc e) (backend e) →
     trie_at h (root (id_catalog e)) cur.2 N →
     ends (meta (root_key e)) fl packed h rest (store e) (m (id_catalog e))
       (λ '(v, t') h', ∃ I', P v I' ∧ updated (meta (root_key e)) fl h N I' t' h') (spares fl N h)) →
  outcome e com b0 (on_id m e)
    (λ v e', base e e' ∧ resolve_cache e' = resolve_cache e ∧ ∃ I', P v I' ∧ eng e' (cur.1, I') com b0) F.
Proof.
  intros (h&rest&packed&Hd&[(Nk&Ni&Hk&Hi&Hdis) Hck Hci Hu]) Hm.
  specialize (Hm h rest packed Ni (d_heap _ _ _ _ _ _ Hd) Hi). unfold outcome, on_id, ends in *.
  destruct (m (id_catalog e) (store e)) as [[[v t']|er|] s']; [..|by left].
  - destruct Hm as (h'&rest'&Hh'&Hfr&I'&HP&Hct&Hsp&N'&Ht'&Hfresh).
    pose proof Hfr as (_&_&Hg&_). split; [by split_and!|]. split; [done|]. exists I'. split; [done|].
    exists h', rest', packed. split; [by eapply durable_step|]. split; try done.
    exists Nk, N'. split_and!; [by eapply spares_disjoint|done|by eapply fresh_disjoint].
  - destruct Hm as (->&?&h'&rest'&Hh'&Hfr&_). pose proof Hfr as (_&_&Hg&_). right.
    split_and!; [done|done|by split_and!|]. exists h', rest', packed. by eapply durable_step.
Qed.

(** A step that sets the maps to [cur'] and keeps the path cache. *)
Definition staged (e : Engine) (cur' com : maps) (b0 : Backend.t) (e' : Engine) : Prop :=
  base e e' ∧ resolve_cache e' = resolve_cache e ∧ eng e' cur' com b0.

Definition too_long (path : bytes) : Prop := MAX_KEY_LEN < blen path.

Lemma current_crypto e cur h : current e cur h →
  mkTrie (root (key_catalog e)) (meta (root_key e)) = key_catalog e ∧
  mkTrie (root (id_catalog e)) (meta (root_key e)) = id_catalog e.
Proof. intros [_ <- Hi _]. destruct (key_catalog e), (id_catalog e). cbn in *. by rewrite <-Hi. Qed.

Lemma put_unchecked t key val (s : (Allocator.t * Backend.t) * nat) :
  MAX_KEY_LEN < blen key → put t key val s = (Err (Integrity "trie key too long"), s).
Proof. intros Hl. unfold put, check_bounds. by replace (MAX_KEY_LEN <? blen key) with true by lia. Qed.

Lemma key_put_refused {B} path uuid e (k : () → EM B) :
  too_long path → (key_put path uuid ≫= k) e = (Err (Integrity "trie key too long"), e).
Proof.
  intros Hp. rewrite bind_run. unfold key_put, on_key, put_path. rewrite bind_run, put_unchecked by done. by destruct e.
Qed.

Lemma key_put_spec e K I com b0 path uuid :
  eng e (K, I) com b0 → blen uuid = 16 →
  outcome e com b0 (key_put path uuid e) (λ _, staged e (<[path := uuid]> K, I) com b0)
    (λ er e', er = Integrity "trie key too long" ∧ too_long path ∧ e' = e).
Proof.
  intros He Hu. destruct (Z.le_gt_cases (blen path) MAX_KEY_LEN) as [Hp|Hp].
  - eapply outcome_ok; [apply (on_key_spec _ (λ _ K', K' = <[path := uuid]> K)); [done|]
    |intros v e' (?&?&K'&->&?); by split_and!].
    intros h rest packed N fl Hh Ht. destruct He as (h0&rest0&packed0&_&Hc).
    rewrite <-(proj1 (current_crypto _ _ _ Hc)) at 1. eapply ends_bind.
    + eapply put_spec; [done..|]. split; [done|]. unfold MAX_VAL_LEN. lia.
    + intros t' h' rest' s' Hh' Hup. apply ends_ret; [done|]. eexists. split_and!; [done| |done].
      apply map_Forall_insert_2; [done|apply (c_uuids _ _ _ Hc)].
  - assert (too_long path) as Hl by (unfold too_long; lia).
    pose proof (key_put_refused path uuid e mret Hl) as Hr. rewrite bind_run in Hr. unfold outcome.
    destruct (key_put path uuid e) as [[[]|er|] e']; try done. left. injection Hr as -> ->. done.
Qed.

Lemma key_remove_spec e K I com b0 path F :
  eng e (K, I) com b0 →
  outcome e com b0 (key_remove path e)
    (λ v e', v = bool_decide (is_Some (K !! path)) ∧ staged e (delete path K, I) com b0 e') F.
Proof.
  intros He. eapply outcome_ok; [apply (on_key_spec _ (λ v K', v = bool_decide (is_Some (K !! path)) ∧ K' = delete path K)); [done|]
    |intros v e' (?&?&K'&[-> ->]&?); by split_and!].
  intros h rest packed N fl Hh Ht. destruct He as (h0&rest0&packed0&_&Hc).
  rewrite <-(proj1 (current_crypto _ _ _ Hc)) at 1.
  eapply ends_mono; [by apply remove_spec| |done]. intros [v t'] h' [-> Hup]. eexists. split_and!; [done..| |done].
  apply map_Forall_delete, (c_uuids _ _ _ Hc).
Qed.

Lemma id_put_spec e K I com b0 uuid addr F :
  eng e (K, I) com b0 → blen uuid = 16 →
  outcome e com b0 (id_put uuid addr e) (λ _, staged e (K, <[uuid := le_bytes 8 addr]> I) com b0) F.
Proof.
  intros He Hu. eapply outcome_ok; [apply (on_id_spec _ (λ _ I', I' = <[uuid := le_bytes 8 addr]> I)); [done|]
    |intros v e' (?&?&I'&->&?); by split_and!].
  intros h rest packed N fl Hh Ht. destruct He as (h0&rest0&packed0&_&Hc).
  rewrite <-(proj2 (current_crypto _ _ _ Hc)) at 1. eapply ends_bind.
  - eapply put_spec; [done..|]. split; [rewrite Hu; by_compute|]. rewrite blen_le_bytes. by_compute.
  - intros t' h' rest' s' Hh' Hup. apply ends_ret; [done|]. by eexists.
Qed.

Lemma key_get_spec e K I com b0 path : eng e (K, I) com b0 → key_get path e = (Ok (K !! path), e).
Proof.
  intros (h&rest&packed&Hd&Hc). pose proof (current_crypto _ _ _ Hc) as [Hk _].
  destruct Hc as [(Nk&Ni&Ht&_) _ _ Hu]. unfold key_get, get_path. rewrite <-Hk.
  rewrite (get_spec _ _ h _ K Nk); [|by eapply node_heap_reads, Hd|done]. cbn.
  destruct (K !! path) as [u|] eqn:E; [|done]. by rewrite (Hu _ _ E).
Qed.

(** ** Publication *)

Lemma run_gets {A B} (f : Engine → A) (k : A → EM B) e : (gets f ≫= k) e = k (f e) e.
Proof. done. Qed.
Lemma run_modify {B} (f : Engine → Engine) (k : () → EM B) e : (modify f ≫= k) e = k () (f e).
Proof. done. Qed.
Lemma run_step {A B} (m : EM A) (k : A → EM B) e v e' : m e = (Ok v, e') → (m ≫= k) e = k v e'.
Proof. intros Hm. by rewrite bind_run, Hm. Qed.

Lemma node_heap_low c fl h rest packed a b b' :
  node_heap c fl h rest packed a b → Backend.wf b' → Backend.len b' = Backend.len b →
  (∀ x, 2 * BASE_BLOCK ≤ x → Backend.byte_at b' x = Backend.byte_at b x) → node_heap c fl h rest packed a b'.
Proof.
  intros Hh Hwf Hl Hb. pose proof Hh as [Hi Hn Hf Hd]. split; [by eapply inv_write| |done|done].
  intros y nd Hy. destruct (Hn y nd Hy) as [Hok Hp]. split; [done|].
  pose proof (node_range _ _ _ _ _ _ _ y Hh ltac:(eauto)) as (?&_). unfold BASE_BLOCK in *.
  eapply (pair_image_ext c y nd b); [lia| |done]. apply Backend.contents_ext; [lia..|].
  intros x Hx. apply Hb. lia.
Qed.

Lemma rest_high c fl h rest packed a b blk :
  node_heap c fl h rest packed a b → blk ∈ rest → 2 * BASE_BLOCK ≤ b_addr blk.
Proof.
  intros Hh Hin. pose proof (nh_inv _ _ _ _ _ _ _ Hh) as Hi.
  assert (blk ∈ node_blocks h ++ rest) as Hin' by (apply elem_of_app; by right).
  pose proof (g_blocks _ _ _ _ _ (i_geo _ _ _ _ Hi) _ Hin') as [_ Hsz Hz].
  pose proof (live_extent_ok _ _ _ _ _ Hi Hin') as (_&Hpos&_). cbn in Hpos.
  pose proof (inv_small _ _ _ _ Hi). pose proof (g_marks _ _ _ _ _ (i_geo _ _ _ _ Hi)).
  specialize (Hz (b_addr blk) ltac:(unfold in_block; lia)). destruct (b_region blk); cbn in Hz; lia.
Qed.

Lemma release_nodes l h rest :
  (∀ y, is_Some (h !! y) → y ∉ addr <$> l) →
  release_all l (node_blocks h ++ rest) = node_blocks h ++ release_all l rest.
Proof.
  intros Hl. unfold release_all. rewrite filter_app. f_equal. apply filter_all.
  intros blk Hin. unfold node_blocks in Hin. apply list_elem_of_fmap in Hin as (y&->&Hy).
  apply Hl. apply list_elem_of_fmap in Hy as ([y' nd]&->&Hy%elem_of_map_to_list). eauto.
Qed.

Lemma node_heap_publish c fl h rest packed a b :
  node_heap c fl h rest packed a b →
  let d := Allocator.deferred_free a in
  ∃ a', Allocator.publish_deferred a = Ok a' ∧ Allocator.deferred_free a' = [] ∧
    node_heap c fl h (release_all d rest) (filter (survives d) packed) a' b.
Proof.
  intros [Hi Hn Hf Hd]. destruct (publish_deferred_spec a b _ packed Hi) as (a'&Hp&Hi'&Hd'&Hf').
  rewrite release_nodes in Hi' by done. eexists. split_and!; [done..|]. split; [done|done|congruence|].
  intros y _. rewrite Hd'. apply not_elem_of_nil.
Qed.

(** The catalogs in memory, once nothing is reclaimable, are fit for a header. *)
Lemma current_rooted c e cur h rest packed a b hdr :
  node_heap c None h rest packed a b → current e cur h →
  roots hdr = mkRoots (root (key_catalog e)) (root (id_catalog e)) → rooted None h b b hdr cur.
Proof.
  intros Hh [(Nk&Ni&Hk&Hi&_) _ _ _] Hr. exists Nk, Ni. rewrite Hr. split_and!; [done..|].
  intros y Hy. split_and!; [done| |done].
  assert (is_Some (h !! y)) as Hs by (apply elem_of_union in Hy as [Hy|Hy];
    [exact (trie_at_dom _ _ _ _ _ Hk Hy)|exact (trie_at_dom _ _ _ _ _ Hi Hy)]).
  pose proof (node_range _ _ _ _ _ _ _ y Hh Hs). lia.
Qed.

Lemma rooted_now fl h b0 b hdr m : rooted fl h b0 b hdr m → Backend.len b0 ≤ Backend.len b → rooted fl h b b hdr m.
Proof.
  intros (Nk&Ni&?&?&Hn) Hl. exists Nk, Ni. split_and!; [done..|]. intros y Hy.
  destruct (Hn y Hy) as (?&?&_). split_and!; [done|lia|done].
Qed.

Lemma durable_slots e com b0 h rest packed :
  durable e com b0 h rest packed → slots_ok (backend e) ∧ load (backend e) (Some (root_key e)) = Ok (header e).
Proof.
  intros Hd. pose proof (i_backend _ _ _ _ (nh_inv _ _ _ _ _ _ _ (d_heap _ _ _ _ _ _ Hd))) as [Hwf _].
  destruct (slots_torn b0 (backend e) (backend e)) as [Hs Hl]; [apply Hd|apply Hd| |].
  { split_and!; [done|apply Hd|done]. }
  split; [done|]. rewrite Hl. apply Hd.
Qed.

Lemma next_header_ok e com b0 h rest packed applied region :
  durable e com b0 h rest packed → commit_seq (header e) < 2 ^ 64 - 1 →
  (∃ cur, current e cur h) → u64 applied → u64 region →
  header_ok (next_header e (commit_seq (header e) + 1) applied region).
Proof.
  intros Hd Hs [cur [(Nk&Ni&Hk&Hi&_) _ _ _]] Ha Hr.
  pose proof (load_ok _ _ _ (d_slots _ _ _ _ _ _ Hd) (d_load _ _ _ _ _ _ Hd)) as Hok.
  pose proof (d_heap _ _ _ _ _ _ Hd) as Hh.
  pose proof (node_range _ _ _ _ _ _ _ _ Hh (trie_at_dom _ _ _ _ _ Hk (trie_at_root _ _ _ _ Hk))) as Hrk.
  pose proof (node_range _ _ _ _ _ _ _ _ Hh (trie_at_dom _ _ _ _ _ Hi (trie_at_root _ _ _ _ Hi))) as Hri.
  unfold NODE_ALLOC_SIZE, BASE_BLOCK in *.
  destruct Hok as (?&?&?&?&_&?&(?&_&_)&?&(?&?&_)&?). unfold header_ok, next_header. cbn -[Z.pow].
  split_and!; try done; width_lia.
Qed.

(** What a commit makes of the engine. *)
Definition published (e : Engine) (cur : maps) (e' : Engine) : Prop :=
  eng e' cur cur (backend e') ∧ root_key e' = root_key e ∧ resolve_cache e' = resolve_cache e ∧
  suppress_commit e' = suppress_commit e ∧ Backend.no_grow (backend e') = Backend.no_grow (backend e) ∧
  commit_seq (header e') = commit_seq (header e) + 1.

(** The header commit inside [publish] writes one slot: a store in which that
    slot is invalid or unwritten opens as before, one in which it is written
    opens with the catalogs in memory. *)
Definition commits (e : Engine) (cur com : maps) (hdr' : ContainerHeader) (b' : Backend.t) : Prop :=
  ∃ o, is_slot o ∧ ∀ torn, slots_ok torn → Backend.len (backend e) = Backend.len torn → same_outside (backend e) torn o →
    (is_ok (read_slot torn o None) = false ∨
     Backend.contents torn o WIRE_SIZE_V12 = Backend.contents (backend e) o WIRE_SIZE_V12 →
       opens_as torn (root_key e) (header e) com) ∧
    (Backend.contents torn o WIRE_SIZE_V12 = Backend.contents b' o WIRE_SIZE_V12 →
       opens_as torn (root_key e) hdr' cur).

Lemma same_outside_high b b' o x :
  is_slot o → same_outside b b' o → 2 * BASE_BLOCK ≤ x → Backend.byte_at b' x = Backend.byte_at b x.
Proof. intros Ho Hs Hx. apply Hs. destruct Ho as [-> | ->]; slot_lia. Qed.

Lemma commit_header_run e cur com b0 h rest packed applied region :
  let next := next_header e (commit_seq (header e) + 1) applied region in
  durable e com b0 h rest packed → current e cur h → suppress_commit e = false →
  commit_seq (header e) < 2 ^ 64 - 1 → u64 applied → u64 region →
  ∃ b', commit (backend e) next (Some (root_key e)) = Ok b' ∧ commits e cur com next b' ∧
    slots_ok b' ∧ load b' (Some (root_key e)) = Ok next ∧ Backend.len b' = Backend.len (backend e) ∧
    Backend.no_grow b' = Backend.no_grow (backend e) ∧
    (∀ x, 2 * BASE_BLOCK ≤ x → Backend.byte_at b' x = Backend.byte_at (backend e) x).
Proof.
  intros next Hd Hc Hsup Hseq Ha Hr. destruct (durable_slots _ _ _ _ _ _ Hd) as [Hs Hl].
  pose proof (next_header_ok _ _ _ _ _ _ applied region Hd Hseq ltac:(eauto) Ha Hr) as Hok.
  destruct (commit_run _ _ _ next (Some (root_key e)) Hs Hl Hok eq_refl) as (b'&_&Hrun&Hload&Hs'&Hlen&Hg&_).
  destruct (commit_torn _ _ _ next (Some (root_key e)) b' Hs Hl Hok Hrun) as (o&Ho&Hout&Htorn).
  exists b'. split_and!; try done; [|intros x; by eapply same_outside_high].
  exists o. split; [done|]. intros torn Hst Hlt Hot. destruct (Htorn torn Hst Hot) as (Hbad&Hold&Hnew).
  pose proof (d_heap _ _ _ _ _ _ Hd) as Hh. pose proof (d_scope _ _ _ _ _ _ Hd Hsup) as Hfl.
  assert (∀ hdr m, rooted None h (backend e) (backend e) hdr m → cipher hdr = CIPHER_AES256_GCM →
    load torn (Some (root_key e)) = Ok hdr → opens_as torn (root_key e) hdr m) as Hopen.
  { intros hdr m Hroot Hci Hlo. rewrite Hfl in Hh. eapply rooted_opens; [done..|apply Hst|lia|done|].
    intros x _ Hx. by eapply same_outside_high. }
  split.
  - intros Hor. apply Hopen; [|apply Hd|by destruct Hor; auto].
    rewrite <-Hfl. eapply rooted_now; [apply Hd|apply Hd].
  - intros Hcn. apply Hopen; [|apply Hd|auto]. rewrite Hfl in Hh. by eapply current_rooted.
Qed.

Lemma publish_run e cur com b0 :
  eng e cur com b0 → suppress_commit e = false → commit_seq (header e) < 2 ^ 64 - 1 →
  ∃ e', publish e = (Ok (), e') ∧ published e cur e' ∧ commits e cur com (header e') (backend e').
Proof.
  intros (h&rest&packed&Hd&Hc) Hsup Hseq.
  set (applied := default (wal_applied_seq (header e)) (pending_wal_applied_seq e)).
  set (region := default (wal_region_offset (header e)) (Allocator.wal_reservation_start (alloc e))).
  pose proof (load_ok _ _ _ (d_slots _ _ _ _ _ _ Hd) (d_load _ _ _ _ _ _ Hd)) as Hok.
  destruct Hok as (_&_&_&_&_&_&(Hsq&Hap&Hre)&_). pose proof (d_heap _ _ _ _ _ _ Hd) as Hh.
  assert (u64 applied) as Ha.
  { unfold applied. pose proof (d_pending _ _ _ _ _ _ Hd). by destruct (pending_wal_applied_seq e). }
  assert (u64 region) as Hr.
  { unfold region. pose proof (nh_inv _ _ _ _ _ _ _ Hh) as Hi. pose proof (i_top _ _ _ _ Hi) as Ht.
    pose proof (g_marks _ _ _ _ _ (i_geo _ _ _ _ Hi)). pose proof (inv_small _ _ _ _ Hi). unfold top in *.
    destruct (Allocator.wal_reservation_start (alloc e)); cbn in *; [|done]. unfold BASE_BLOCK in *. width_lia. }
  destruct (commit_header_run e cur com b0 h rest packed applied region Hd Hc Hsup Hseq Ha Hr)
    as (b'&Hrun&Hcom&Hs'&Hload&Hlen&Hg&Hhigh).
  set (next := next_header e _ _ _) in *. pose proof (d_scope _ _ _ _ _ _ Hd Hsup) as Hfl. rewrite Hfl in Hh.
  pose proof (node_heap_low _ _ _ _ _ _ _ b' Hh ltac:(apply Hs') Hlen Hhigh) as Hh'.
  destruct (node_heap_publish _ _ _ _ _ _ _ Hh') as (a'&Hpub&Hnd&Hh2).
  exists (mkEngine ((a', b'), (store e).2) next (key_catalog e) (id_catalog e) (suppress_commit e) ∅ (resolve_cache e)
    (RecordCache.clear (record_cache e)) None (root_key e)). split; [|split; [|done]].
  - unfold publish. rewrite run_gets, Hsup, run_modify.
    rewrite (run_step _ _ _ () (set_record_cache (RecordCache.clear (record_cache e)) e)) by done.
    rewrite run_gets, run_modify, !run_gets. cbn [header set_pending_wal set_record_cache commit_seq].
    unfold add64. replace (commit_seq (header e) + 1 <? 2 ^ 64) with true by lia.
    rewrite (run_step _ _ _ (commit_seq (header e) + 1) _) by done. rewrite run_gets.
    erewrite (run_step (or_abort _)).
    2: { unfold or_abort, commit_header. change (commit _ _ _) with (commit (backend e) next (Some (root_key e))).
         rewrite Hrun. done. }
    rewrite !run_modify. unfold publish_deferred. cbn [alloc store set_undo set_header set_backend set_store fst snd].
    change (alloc _) with (alloc e). rewrite Hpub, <-Hsup. reflexivity.
  - split_and!; try done.
    exists h, (release_all (Allocator.deferred_free (alloc e)) rest),
      (filter (survives (Allocator.deferred_free (alloc e))) packed). split; [split|]; cbn; try done.
    + by rewrite (nh_floor _ _ _ _ _ _ _ Hh2).
    + apply Hd.
    + rewrite (nh_floor _ _ _ _ _ _ _ Hh2). by eapply current_rooted.
    + intros _. by rewrite (nh_floor _ _ _ _ _ _ _ Hh2).
    + eapply ext_publish; [apply Hh'|intros blk ?; apply elem_of_app; by right|done..|]. eapply ext_low; [|exact Hhigh|apply Hd].
      intros blk Hin. eapply rest_high; [exact Hh|done].
    + by destruct Hc.
Qed.

(** ** Scopes *)

(** A change of the allocator's session only. *)
Lemma node_heap_session c fl h rest packed a b fl' d :
  node_heap c fl h rest packed a b → d = Allocator.deferred_free a ∨ d = [] →
  node_heap c fl' h rest packed (Allocator.set_session a fl' d (Allocator.open_pack a)) b.
Proof.
  intros [Hi Hn Hf Hd] Hcase. assert (∀ y, is_Some (h !! y) → y ∉ addr <$> d) as Hd'.
  { intros y Hy. destruct Hcase as [-> | ->]; [by apply Hd|apply not_elem_of_nil]. }
  split; [|done|done|done]. eapply inv_set_session; [done|]. destruct (i_session _ _ _ _ Hi) as [H1' H2' H3' H4' H5'].
  destruct Hcase as [-> | ->]; split; try done; [intros loc ?%elem_of_nil; done|constructor].
Qed.

(** The engine with another session and suppression flag. *)
Definition resession (fl : option Z) (d : list BlockLoc) (v : bool) (e : Engine) : Engine :=
  set_suppress v (set_alloc (Allocator.set_session (alloc e) fl d (Allocator.open_pack (alloc e))) e).

Definition session_ok (e : Engine) (fl : option Z) (d : list BlockLoc) (v : bool) : Prop :=
  (fl = Allocator.reclaim_floor (alloc e) ∨ fl = None ∨ fl = Some (Allocator.live_hwm (alloc e))) ∧
  (d = Allocator.deferred_free (alloc e) ∨ d = []) ∧ (v = false → fl = None).

Lemma durable_session e com b0 h rest packed fl d v :
  session_ok e fl d v → durable e com b0 h rest packed → durable (resession fl d v e) com b0 h rest packed.
Proof.
  intros (Hfl&Hdd&Hv) Hd. pose proof (d_heap _ _ _ _ _ _ Hd) as Hh. destruct Hd. split; cbn; try done.
  - by eapply node_heap_session.
  - destruct d_rooted0 as (Nk&Ni&Hk&Hi&Hn). exists Nk, Ni. split_and!; [done..|]. intros y Hy.
    destruct (Hn y Hy) as (Hr&?&?). split_and!; [|done..]. destruct Hfl as [-> |[-> | ->]]; [done..|].
    assert (is_Some (h !! y)) as Hs by (apply elem_of_union in Hy as [Hy|Hy];
      [exact (trie_at_dom _ _ _ _ _ Hk Hy)|exact (trie_at_dom _ _ _ _ _ Hi Hy)]).
    pose proof (node_range _ _ _ _ _ _ _ y Hh Hs) as (_&?&_). unfold NODE_ALLOC_SIZE, BASE_BLOCK in *. cbn. lia.
  - by apply ext_session.
Qed.

Lemma safe_session e com b0 fl d v : session_ok e fl d v → safe e com b0 → safe (resession fl d v e) com b0.
Proof. intros Hs (h&rest&packed&Hd). exists h, rest, packed. by apply durable_session. Qed.

Lemma eng_session e cur com b0 fl d v :
  session_ok e fl d v → eng e cur com b0 → eng (resession fl d v e) cur com b0.
Proof.
  intros Hs (h&rest&packed&Hd&Hc). exists h, rest, packed. split; [by apply durable_session|by destruct Hc].
Qed.

(** ** Completed operations *)

(** The path cache agrees with the namespace. *)
Definition coherent (e : Engine) (K : gmap bytes bytes) : Prop :=
  ∀ p u, resolve_cache e !! p = Some u → K !! p = Some u.

(** An operation that began at [e] has completed with the maps [cur]: inside a
    transaction or batch they are staged, otherwise they are published. *)
Definition completed (e : Engine) (cur com : maps) (b0 : Backend.t) (e' : Engine) : Prop :=
  coherent e' cur.1 ∧ root_key e' = root_key e ∧ suppress_commit e' = suppress_commit e ∧
  Backend.no_grow (backend e') = Backend.no_grow (backend e) ∧
  if suppress_commit e then base e e' ∧ eng e' cur com b0
  else commit_seq (header e') = commit_seq (header e) + 1 ∧ eng e' cur cur (backend e').

(** A failed operation leaves the maps [cur] in memory and publishes nothing. *)
Definition refused (e : Engine) (cur com : maps) (b0 : Backend.t) (e' : Engine) : Prop :=
  coherent e' cur.1 ∧ base e e' ∧ eng e' cur com b0.

Lemma publish_outcome e e1 cur com b0 F :
  base e e1 → coherent e1 cur.1 → eng e1 cur com b0 → commit_seq (header e) < 2 ^ 64 - 1 →
  outcome e com b0 (publish e1) (λ _, completed e cur com b0) F.
Proof.
  intros Hb Hco He Hseq. pose proof Hb as (Hk&Hh&Hs&Hp&Hg). unfold completed.
  destruct (suppress_commit e) eqn:E.
  - unfold outcome, publish. rewrite run_gets, Hs. by split_and!.
  - destruct (publish_run e1 cur com b0) as (e'&->&(He'&Hk'&Hrc&Hs'&Hg'&Hcs)&_); [done|done|congruence|].
    cbn. split_and!; [|congruence..|done]. intros p u Hpu. apply Hco. congruence.
Qed.

(** ** Transactions *)

(** A body, and how it may fail. *)
Definition body_ok {R} (f : EM R) (com : maps) (b0 : Backend.t) (e1 : Engine) (P : R → maps → Prop)
    (F : Error → maps → Prop) : Prop :=
  outcome e1 com b0 (f e1)
    (λ v e2, ∃ cur, P v cur ∧ refused e1 cur com b0 e2)
    (λ er e2, ∃ cur, F er cur ∧ refused e1 cur com b0 e2).

Definition in_scope (e : Engine) : Engine :=
  if suppress_commit e then e
  else resession (Some (Allocator.live_hwm (alloc e))) (Allocator.deferred_free (alloc e)) true e.

Lemma set_suppress_same v e : suppress_commit e = v → set_suppress v e = e.
Proof. intros <-. by destruct e. Qed.

Lemma in_scope_base e : base (set_suppress true e) (in_scope e).
Proof. unfold in_scope. destruct (suppress_commit e) eqn:E; [by split_and!|done]. Qed.

Lemma in_scope_eng e cur com b0 : eng e cur com b0 → eng (in_scope e) cur com b0.
Proof.
  intros He. unfold in_scope. case_match; [done|]. apply eng_session; [|done]. split_and!; [auto..|done].
Qed.

Lemma transaction_enter {R} (f : EM R) e cur com b0 :
  eng e cur com b0 → transaction f e = (caught f ≫= finish_transaction (suppress_commit e)) (in_scope e).
Proof.
  intros (h&rest&packed&Hd&_). unfold transaction, in_scope. rewrite run_gets, run_modify.
  destruct (suppress_commit e) eqn:E; cbn [negb].
  - rewrite set_suppress_same by done. done.
  - rewrite run_modify. unfold resession, Allocator.begin_reclaim_scope.
    pose proof (d_scope _ _ _ _ _ _ Hd E) as Hfl. change (alloc (set_suppress true e)) with (alloc e).
    rewrite Hfl. reflexivity.
Qed.

(** The scope is left before the commit; a failed body drops the parked blocks. *)
Definition left_scope (prev : bool) (d : list BlockLoc) (e : Engine) : Engine :=
  resession (if prev then Allocator.reclaim_floor (alloc e) else None) d prev e.

Lemma session_id a : Allocator.set_session a (Allocator.reclaim_floor a) (Allocator.deferred_free a) (Allocator.open_pack a) = a.
Proof. by destruct a. Qed.

Lemma finish_run {R} prev (r : res R) e2 :
  (prev = true → suppress_commit e2 = true) →
  finish_transaction prev r e2 =
    match r with
    | Ok v => (publish;; mret v) (left_scope prev (Allocator.deferred_free (alloc e2)) e2)
    | Err er => (Err er, left_scope prev [] e2)
    | Panic => (Panic, left_scope prev (Allocator.deferred_free (alloc e2)) e2)
    end.
Proof.
  intros Hs. unfold finish_transaction, left_scope, resession. destruct prev; cbn [negb].
  - rewrite session_id. destruct e2 as [[[a b] n] hd kc ic sc ij rc rec pw rk]. cbn in *. rewrite (Hs eq_refl).
    by destruct r.
  - by destruct r.
Qed.

Lemma left_scope_ok (prev : bool) e2 d :
  d = Allocator.deferred_free (alloc e2) ∨ d = [] →
  session_ok e2 (if prev then Allocator.reclaim_floor (alloc e2) else None) d prev.
Proof. intros Hd. destruct prev; split_and!; by auto. Qed.

Lemma left_scope_base e e2 d : base (in_scope e) e2 → base e (left_scope (suppress_commit e) d e2).
Proof. intros (?&?&?&?&?). unfold in_scope in *. destruct (suppress_commit e) eqn:E; by split_and!. Qed.

Lemma transaction_spec {R} (f : EM R) (P : R → maps → Prop) F e cur com b0 :
  eng e cur com b0 → commit_seq (header e) < 2 ^ 64 - 1 → body_ok f com b0 (in_scope e) P F →
  outcome e com b0 (transaction f e)
    (λ v e', ∃ cur', P v cur' ∧ completed e cur' com b0 e')
    (λ er e', ∃ cur', F er cur' ∧ refused e cur' com b0 e').
Proof.
  intros He Hseq Hf. rewrite (transaction_enter f e cur com b0 He). unfold body_ok, outcome in Hf.
  assert (∀ e2, base (in_scope e) e2 → suppress_commit e = true → suppress_commit e2 = true) as Hsc.
  { intros e2 (_&_&Hs&_) Hsup. rewrite Hs. unfold in_scope. by rewrite Hsup. }
  assert (Backend.no_grow (backend (in_scope e)) = Backend.no_grow (backend e)) as Hng
    by (unfold in_scope; by destruct (suppress_commit e)).
  rewrite bind_run. unfold caught. destruct (f (in_scope e)) as [[v|er|] e2]; [..|done].
  - destruct Hf as (cur'&HP&Hco&Hb&He2). rewrite finish_run by auto.
    set (e3 := left_scope _ _ e2). assert (eng e3 cur' com b0) as He3
      by (apply eng_session; [apply left_scope_ok; by left|done]).
    eapply (outcome_bind _ _ _ _ _ _ (λ _, completed e cur' com b0)).
    + apply publish_outcome; [by apply left_scope_base|done|done|done].
    + intros _ e' Hc. exists cur'. done.
  - assert (base (in_scope e) e2) as Hb by (by destruct Hf as [(?&_&_&?&_)|(_&_&?&_)]).
    rewrite finish_run by auto. unfold outcome. destruct Hf as [(cur'&HF&Hco&_&He2)|(->&Hg&_&Hsf)]; [left|right].
    + exists cur'. split; [done|]. split_and!; [done|by apply left_scope_base|].
      apply eng_session; [apply left_scope_ok; by right|done].
    + split_and!; [done|congruence|by apply left_scope_base|]. apply safe_session; [apply left_scope_ok; by right|done].
Qed.

(** ** Paths *)

Lemma eng_cache e cur com b0 rc : eng e cur com b0 → eng (set_resolve_cache rc e) cur com b0.
Proof. intros (h&rest&packed&[]&[]). by exists h, rest, packed. Qed.

Lemma set_resolve_same e : set_resolve_cache (resolve_cache e) e = e.
Proof. by destruct e. Qed.

(** Dropping a path from the cache after its entry changed. *)
Lemma coherent_forget e K K' path :
  coherent e K → (∀ p, p ≠ path → K' !! p = K !! p) →
  coherent (set_resolve_cache (delete path (resolve_cache e)) e) K'.
Proof.
  intros Hco HK p u Hp. cbn in Hp. apply lookup_delete_Some in Hp as [Hne Hp]. rewrite HK by done. by apply Hco.
Qed.

Lemma coherent_forget2 e K K' p1 p2 :
  coherent e K → (∀ p, p ≠ p1 → p ≠ p2 → K' !! p = K !! p) →
  coherent (set_resolve_cache (delete p2 (delete p1 (resolve_cache e))) e) K'.
Proof.
  intros Hco HK p u Hp. cbn in Hp. apply lookup_delete_Some in Hp as [Hne2 Hp].
  apply lookup_delete_Some in Hp as [Hne Hp]. rewrite HK by done. by apply Hco.
Qed.

Lemma coherent_same e e' K : resolve_cache e' = resolve_cache e → coherent e K → coherent e' K.
Proof. intros Hr Hco p u. rewrite Hr. apply Hco. Qed.

Lemma refused_refl e cur com b0 : eng e cur com b0 → coherent e cur.1 → refused e cur com b0 e.
Proof. intros He Hco. split; [done|]. by split; [apply base_refl|]. Qed.

(** ** Listings *)

(** The nodes of a store of at most 8 GiB are within the visit budget. *)
Lemma heap_size c fl h rest packed a b (N : gset Z) :
  node_heap c fl h rest packed a b → (∀ y, y ∈ N → is_Some (h !! y)) →
  Z.of_nat (size N) * NODE_ALLOC_SIZE ≤ Backend.len b.
Proof.
  intros Hh HN. set (f := λ y, y `div` NODE_ALLOC_SIZE).
  pose proof (i_backend _ _ _ _ (nh_inv _ _ _ _ _ _ _ Hh)) as [Hwf _].
  pose proof (Backend.wf_len_nonneg b Hwf) as Hlen.
  assert (∀ y, y ∈ N → 0 ≤ y ∧ y + NODE_ALLOC_SIZE ≤ Backend.len b) as Hr.
  { intros y Hy. pose proof (node_range _ _ _ _ _ _ _ y Hh (HN y Hy)). unfold BASE_BLOCK in *. lia. }
  assert (NoDup (f <$> elements N)) as Hnd.
  { apply NoDup_fmap_2_strong; [|apply NoDup_elements]. intros y y' Hy%elem_of_elements Hy'%elem_of_elements Heq.
    destruct (decide (y = y')) as [|Hne]; [done|]. exfalso.
    pose proof (all_disjoint_same (node_blocks h ++ rest) (node_block y) (node_block y')) as Hdis.
    destruct (Hr y Hy) as [? _], (Hr y' Hy') as [? _]. unfold f, NODE_ALLOC_SIZE, BASE_BLOCK in Heq.
    enough (node_block y = node_block y') as Hyy by by apply (f_equal b_addr) in Hyy.
    apply (Hdis (Z.max y y')); [apply (i_geo _ _ _ _ (nh_inv _ _ _ _ _ _ _ Hh))|..].
    1, 2: apply elem_of_app; left; apply elem_of_node_blocks; auto.
    all: unfold in_block; cbn; unfold NODE_ALLOC_SIZE, BASE_BLOCK; Z.to_euclidean_division_equations; lia. }
  assert (f <$> elements N ⊆ seqZ 0 (Backend.len b `div` NODE_ALLOC_SIZE)) as Hsub.
  { intros z (y&->&Hy%elem_of_elements)%list_elem_of_fmap. apply elem_of_seqZ. destruct (Hr y Hy).
    unfold f, NODE_ALLOC_SIZE, BASE_BLOCK in *. Z.to_euclidean_division_equations; lia. }
  apply (NoDup_submseteq _ _ Hnd), submseteq_length in Hsub. rewrite length_fmap, length_seqZ in Hsub.
  unfold size, set_size. cbn. unfold NODE_ALLOC_SIZE, BASE_BLOCK in *. Z.to_euclidean_division_equations; lia.
Qed.

Section ops.
Context (e : Engine) (K I : gmap bytes bytes) (com : maps) (b0 : Backend.t).
Hypothesis Heng : eng e (K, I) com b0.
Hypothesis Hco : coherent e K.
Hypothesis Hseq : commit_seq (header e) < 2 ^ 64 - 1.

Lemma uuid_in path u : K !! path = Some u → blen u = 16.
Proof using Heng. destruct Heng as (h&rest&packed&_&[_ _ _ Hu]). intros Hp. by eapply Hu. Qed.

Lemma rename_spec old new u :
  K !! old = Some u → K !! new = None → ¬ too_long new →
  outcome e com b0 (rename old new e) (λ _, completed e (delete old (<[new := u]> K), I) com b0) (λ _ _, False).
Proof using All.
  intros Hold Hnew Hlen. unfold rename.
  rewrite (run_step _ _ _ _ _ (key_get_spec _ _ _ _ _ old Heng)), Hold.
  rewrite (run_step (lift _) _ _ u e) by done.
  rewrite (run_step _ _ _ _ _ (key_get_spec _ _ _ _ _ new Heng)), Hnew.
  rewrite bool_decide_false by (by intros [? [=]]).
  eapply outcome_bind.
  { eapply outcome_mono; [apply (key_put_spec e K I com b0 new u Heng (uuid_in old u Hold))|done|].
    by intros er e' (_&?&_). }
  intros _ e1 (Hb1&Hc1&He1). eapply outcome_bind.
  { eapply outcome_base; [done|]. exact (key_remove_spec _ _ _ _ _ old _ He1). }
  intros v e2 (_&Hb2&Hc2&He2). unfold forget. rewrite !run_modify. apply publish_outcome; [| | |done].
  - eapply base_trans; [exact Hb1|]. eapply base_trans; [exact Hb2|]. done.
  - change (resolve_cache (set_resolve_cache ?c e2)) with c. cbn [fst].
    apply (coherent_forget2 e2 K); [eapply coherent_same; [|exact Hco]; congruence|].
    intros p Hp1 Hp2. by rewrite lookup_delete_ne, lookup_insert_ne by done.
  - by apply eng_cache, eng_cache.
Qed.

Lemma rename_refused old new :
  (K !! old = None → rename old new e = (Err (NotFound "rename source missing"), e)) ∧
  (is_Some (K !! old) → is_Some (K !! new) → rename old new e = (Err (Integrity "rename target exists"), e)) ∧
  (is_Some (K !! old) → K !! new = None → too_long new →
     rename old new e = (Err (Integrity "trie key too long"), e)).
Proof using Heng.
  unfold rename. rewrite (run_step _ _ _ _ _ (key_get_spec _ _ _ _ _ old Heng)). split_and!.
  - by intros ->.
  - intros [u ->] Hnew. rewrite (run_step (lift _) _ _ u e) by done.
    rewrite (run_step _ _ _ _ _ (key_get_spec _ _ _ _ _ new Heng)). by rewrite bool_decide_true.
  - intros [u ->] Hnew Hlen. rewrite (run_step (lift _) _ _ u e) by done.
    rewrite (run_step _ _ _ _ _ (key_get_spec _ _ _ _ _ new Heng)), Hnew.
    rewrite bool_decide_false by (by intros [? [=]]). by apply key_put_refused.
Qed.

Lemma link_spec existing new u :
  K !! existing = Some u → K !! new = None → ¬ too_long new →
  outcome e com b0 (link existing new e) (λ _, completed e (<[new := u]> K, I) com b0) (λ _ _, False).
Proof using All.
  intros Hold Hnew Hlen. unfold link.
  rewrite (run_step _ _ _ _ _ (key_get_spec _ _ _ _ _ existing Heng)), Hold.
  rewrite (run_step (lift _) _ _ u e) by done.
  rewrite (run_step _ _ _ _ _ (key_get_spec _ _ _ _ _ new Heng)), Hnew.
  rewrite bool_decide_false by (by intros [? [=]]).
  eapply outcome_bind.
  { eapply outcome_mono; [apply (key_put_spec e K I com b0 new u Heng (uuid_in existing u Hold))|done|].
    by intros er e' (_&?&_). }
  intros _ e1 (Hb1&Hc1&He1). unfold forget. rewrite run_modify. apply publish_outcome; [done| | |done].
  - apply (coherent_forget e1 K); [by eapply coherent_same|]. intros p Hp. cbn [fst]. by rewrite lookup_insert_ne.
  - by apply eng_cache.
Qed.

Lemma link_refused existing new :
  (K !! existing = None → link existing new e = (Err (NotFound "link source missing"), e)) ∧
  (is_Some (K !! existing) → is_Some (K !! new) → link existing new e = (Err (Integrity "link target exists"), e)) ∧
  (is_Some (K !! existing) → K !! new = None → too_long new →
     link existing new e = (Err (Integrity "trie key too long"), e)).
Proof using Heng.
  unfold link. rewrite (run_step _ _ _ _ _ (key_get_spec _ _ _ _ _ existing Heng)). split_and!.
  - by intros ->.
  - intros [u ->] Hnew. rewrite (run_step (lift _) _ _ u e) by done.
    rewrite (run_step _ _ _ _ _ (key_get_spec _ _ _ _ _ new Heng)). by rewrite bool_decide_true.
  - intros [u ->] Hnew Hlen. rewrite (run_step (lift _) _ _ u e) by done.
    rewrite (run_step _ _ _ _ _ (key_get_spec _ _ _ _ _ new Heng)), Hnew.
    rewrite bool_decide_false by (by intros [? [=]]). by apply key_put_refused.
Qed.

Lemma unlink_spec path :
  outcome e com b0 (unlink path e)
    (λ _ e', is_Some (K !! path) ∧ completed e (delete path K, I) com b0 e')
    (λ er e', er = NotFound "remove: path not found" ∧ K !! path = None ∧ refused e (K, I) com b0 e').
Proof using All.
  unfold unlink. eapply outcome_bind; [exact (key_remove_spec _ _ _ _ _ path _ Heng)|].
  intros v e1 (->&Hb1&Hc1&He1). case_bool_decide as Hp; cbn [negb].
  - unfold forget. rewrite run_modify.
    eapply (outcome_ok _ _ _ _ (λ _, completed e (delete path K, I) com b0)); [|intros v e' Hc; by split].
    apply publish_outcome; [done| | |done].
    + apply (coherent_forget e1 K); [by eapply coherent_same|]. intros p Hne. cbn [fst]. by rewrite lookup_delete_ne.
    + by apply eng_cache.
  - apply eq_None_not_Some in Hp. left. split_and!; [done|done|]. rewrite delete_id in He1 by done.
    split_and!; [by eapply coherent_same|done|done].
Qed.

(** [uuid_for_path] changes the cache only. *)
Lemma uuid_for_path_spec path :
  match K !! path with
  | Some u => ∃ rc, uuid_for_path path e = (Ok u, set_resolve_cache rc e) ∧ coherent (set_resolve_cache rc e) K
  | None => uuid_for_path path e = (Err (NotFound "path not found"), e)
  end.
Proof using Heng Hco.
  unfold uuid_for_path. rewrite run_gets. destruct (resolve_cache e !! path) as [u|] eqn:E.
  - rewrite (Hco _ _ E). exists (resolve_cache e). split; [by rewrite set_resolve_same|]. intros p u' Hp. by apply Hco.
  - rewrite (run_step _ _ _ _ _ (key_get_spec _ _ _ _ _ path Heng)).
    destruct (K !! path) as [u|] eqn:Ek; [|done]. rewrite (run_step (lift _) _ _ u e) by done. rewrite run_modify.
    eexists. split; [done|]. intros p u'. cbn. intros [[<- <-]|[Hne Hp]]%lookup_insert_Some; [done|].
    case_match; [done|]. by apply Hco.
Qed.

Lemma key_scan_spec prefix :
  Backend.len (backend e) ≤ 2 ^ 33 →
  ∃ l, key_scan prefix e = (Ok l, e) ∧ entries_of K prefix l.
Proof using Heng.
  intros Hlen. pose proof uuid_in as Hu. destruct Heng as (h&rest&packed&Hd&Hc).
  pose proof (current_crypto _ _ _ Hc) as [Hk _]. destruct Hc as [(Nk&Ni&Ht&_) _ _ _].
  pose proof (d_heap _ _ _ _ _ _ Hd) as Hh.
  pose proof (heap_size _ _ _ _ _ _ _ Nk Hh (λ y Hy, trie_at_dom _ _ _ _ _ Ht Hy)) as Hsz.
  destruct (scan_spec (meta (root_key e)) (backend e) h (root (key_catalog e)) K Nk prefix) as (l&Hl&Hs&Hin);
    [by eapply node_heap_reads|done| |].
  { unfold NODE_ALLOC_SIZE, BASE_BLOCK, TRIE_NODE_BUDGET in *. rewrite Z.shiftl_1_l. lia. }
  exists l. split; [|done]. unfold key_scan, scan_paths. rewrite <-Hk, Hl. cbn.
  assert (∀ l', l' ⊆ l → check_uuids l' = Ok l') as Hch; [|by rewrite Hch].
  intros l'. induction l' as [|[k v] l' IH]; intros Hsub; [done|]. cbn [check_uuids].
  rewrite (Hu k v); [|apply Hin, Hsub; by left]. cbn. rewrite IH; [done|]. intros x Hx. apply Hsub. by right.
Qed.

End ops.

(** ** A new container *)

(** An allocator with room for [k] nodes before the tail and nothing to reuse. *)
Definition roomy (a : Allocator.t) (k : Z) : Prop :=
  Allocator.free_head a = Freelist.Freelist.default ∧
  Allocator.live_hwm a + k * NODE_ALLOC_SIZE ≤ Allocator.tail_low a ∧ 0 ≤ Allocator.live_hwm a ∧
  Allocator.tail_low a < 2 ^ 63.

Lemma alloc_roomy a b k :
  roomy a k → 1 ≤ k →
  ∃ a', Allocator.alloc_aligned NODE_ALLOC_SIZE CatalogHead (a, b) =
    (Ok (mkBlockLoc (Allocator.live_hwm a) NODE_ALLOC_SIZE), (a', b)) ∧ roomy a' (k - 1).
Proof.
  intros (Hf&Hr&Hlo&Ht) Hk. unfold NODE_ALLOC_SIZE, BASE_BLOCK in *.
  unfold Allocator.alloc_aligned. rewrite bind_run. cbn [get_st fst snd].
  change (Allocator.freelist_for a CatalogHead) with (Allocator.free_head a). rewrite Hf.
  change (footprint _) with 8192. change (Freelist.Freelist.first_fit Freelist.Freelist.default 8192) with (@None Z).
  cbv iota. rewrite bind_run, bump_forward_run by lia.
  replace (Allocator.tail_low a <? Allocator.live_hwm a + 8192) with false by lia. cbn [mret St_ret].
  replace (Allocator.live_hwm a + 8192 <? 2 ^ 64) with true by lia.
  eexists. split; [reflexivity|]. unfold roomy, NODE_ALLOC_SIZE, BASE_BLOCK. cbn -[Z.mul Z.add Z.pow]. split_and!; [done|lia..].
Qed.

Lemma create_roomy c fl packed h rest a b n k cipher key :
  roomy a k → 1 ≤ k → node_heap c fl h rest packed a b → c = NodeCrypto_new cipher key →
  ∃ t a' b' n', Trie_create cipher key ((a, b), n) = (Ok t, ((a', b'), n')) ∧ roomy a' (k - 1) ∧
    Backend.len b' = Backend.len b.
Proof.
  intros Hr Hk Hh ->. destruct (alloc_roomy a b k Hr Hk) as (a'&Hal&Hr').
  pose proof (alloc_aligned_spec a b _ packed NODE_ALLOC_SIZE CatalogHead (nh_inv _ _ _ _ _ _ _ Hh) ltac:(by_compute)) as Hsp.
  rewrite Hal in Hsp. destruct Hsp as (delta&_&_&_&Hl&Hi1&_). rewrite block_of_node in Hi1 by done.
  pose proof (catalog_range _ _ _ _ _ Hi1 ltac:(by left)) as Hrg.
  destruct (node_payload_ok (NInner Internal_empty) Internal_empty_ok) as (p&Hp&_).
  destruct (write_pair_run (NodeCrypto_new cipher key) a' b n (Allocator.live_hwm a) (NInner Internal_empty) p)
    as (b'&n'&Hw1&Hw2&_&Hlb&_); [apply (i_backend _ _ _ _ Hi1)|unfold BASE_BLOCK in *; cbn in *; lia
    |cbn in *; lia|apply Internal_empty_ok|done|].
  unfold Trie_create. cbv zeta. cbn [node_payload] in Hp. rewrite bind_run. unfold lift. rewrite Hp. cbv iota.
  rewrite bind_run. unfold alloc_and_write_node. rewrite bind_run. unfold on_ab. rewrite Hal. cbn [addr]. rewrite bind_run.
  eexists _, a', b', n'. split; [|by split]. change KIND_INTERNAL with (node_kind (NInner Internal_empty)).
  by rewrite Hw2.
Qed.

(** Both catalogs of a new container. *)
Lemma create_both key b n :
  let c := meta key in
  Backend.wf b → aligned (Backend.len b) → 6 * BASE_BLOCK ≤ Backend.len b →
  ∃ k i a' b' n' h,
    (k ← Trie_create CIPHER_AES256_GCM key; i ← Trie_create CIPHER_AES256_GCM key; mret (k, i))
      ((Allocator.new b, b), n) = (Ok (k, i), ((a', b'), n')) ∧
    node_heap c None h [] [] a' b' ∧ Allocator.open_pack a' = None ∧ crypto k = c ∧ crypto i = c ∧ root k ≠ root i ∧
    trie_at h (root k) ∅ {[root k]} ∧ trie_at h (root i) ∅ {[root i]} ∧
    (∀ x, x < 2 * BASE_BLOCK → Backend.byte_at b' x = Backend.byte_at b x) ∧
    Backend.len b' = Backend.len b ∧ Backend.no_grow b' = Backend.no_grow b.
Proof.
  intros c Hwf Ha Hl. pose proof Hwf as [_ Hlt].
  pose proof (init_heap c b Hwf Ha ltac:(unfold BASE_BLOCK in *; lia)) as Hh.
  assert (roomy (Allocator.new b) 2) as Hr.
  { unfold roomy, NODE_ALLOC_SIZE, BASE_BLOCK in *. cbn -[Z.mul Z.add Z.pow]. unfold BASE_BLOCK. split_and!; [done|lia..]. }
  destruct (create_roomy c None [] ∅ [] _ b n 2 CIPHER_AES256_GCM key Hr ltac:(lia) Hh eq_refl) as (k&a1&b1&n1&Hk&Hr1&Hlb1).
  pose proof (create_spec c None [] ∅ [] ((Allocator.new b, b), n) CIPHER_AES256_GCM key eq_refl Hh) as Hs1.
  unfold ends in Hs1. rewrite Hk in Hs1. destruct Hs1 as (h1&rest1&Hh1&Hf1&Hc1&_&Ht1&_).
  destruct (create_roomy c None [] h1 rest1 a1 b1 n1 1 CIPHER_AES256_GCM key Hr1 ltac:(lia) Hh1 eq_refl)
    as (i&a2&b2&n2&Hi&_&Hlb2).
  pose proof (create_spec c None [] h1 rest1 ((a1, b1), n1) CIPHER_AES256_GCM key eq_refl Hh1) as Hs2.
  unfold ends in Hs2. rewrite Hi in Hs2. destruct Hs2 as (h2&rest2&Hh2&Hf2&Hc2&Hsub&Ht2&Hfresh).
  pose proof (frame_trans _ _ _ _ _ _ _ _ _ _ Hf1 Hf2) as ([Hlow _]&[_ Hpk]&Hg&delta&?&Hlen&->&_).
  cbn in Hlow, Hg, Hlen.
  assert (is_Some (h1 !! root k)) as Hk1 by (eapply trie_at_dom; [exact Ht1|by apply elem_of_singleton]).
  exists k, i, a2, b2, n2, h2. split_and!; try done.
  - rewrite bind_run, Hk, bind_run, Hi. done.
  - destruct (Allocator.open_pack a2) as [q|] eqn:E; [|done]. specialize (Hpk q E). done.
  - intros Heq. rewrite Heq, Hfresh in Hk1. by destruct Hk1.
  - eapply trie_at_mono; [exact Ht1|]. intros z ->%elem_of_singleton. destruct Hk1 as [nd Hnd].
    rewrite Hnd. by eapply lookup_weaken.
  - lia.
Qed.

Lemma bootstrap_spec b n cipher_id key sl :
  (∀ a' b', Allocator.open_pack a' = None → X [] [] a' b') →
  Backend.wf b → aligned (Backend.len b) → 6 * BASE_BLOCK ≤ Backend.len b → u16 cipher_id → blen sl = 16 →
  slot_header b SLOT1_OFFSET = None →
  ∃ e, bootstrap_over_backend b n cipher_id key sl = Ok e ∧ eng e (∅, ∅) (∅, ∅) (backend e) ∧ coherent e ∅ ∧
    suppress_commit e = false ∧ root_key e = key ∧ commit_seq (header e) = 1 ∧
    content_cipher (header e) = cipher_id ∧ salt (header e) = sl ∧ Backend.no_grow (backend e) = Backend.no_grow b ∧ Backend.len (backend e) = Backend.len b.
Proof.
  intros HX0 Hwf Ha Hl Hc Hsl Hs1. unfold bootstrap_over_backend. set (boot := boot_header _ _ _).
  pose proof Hwf as [_ Hlt]. assert (slots_ok b) as Hs by (split; [done|slot_lia]).
  assert (header_ok boot) as Hboot.
  { unfold header_ok, boot. cbn -[Z.pow Z.le Z.lt u16 u8 u32 u64 zeros].
    unfold CIPHER_AES256_GCM, ENGINE_MAX_FRAGSIZE_EXP, BASE_BLOCK, SLOT0_OFFSET in *. split_and!; try done; width_lia. }
  destruct (write_slot_ok boot b SLOT0_OFFSET (Some key)) as (b1&Hw&Hsb1&Hl1&Hout&Hr0&Hg1); [done|by left|done|].
  unfold write_slot0. change 0 with SLOT0_OFFSET at 1. rewrite Hw. cbn [mbind res_bind Backend.flush].
  assert (load b1 (Some key) = Ok boot) as Hload.
  { rewrite load_active by apply Hsb1. rewrite (active_intro b1 SLOT0_OFFSET boot); [done|by left|..].
    - unfold slot_header, read_slot in *. apply bind_ok in Hr0 as (raw&->&Hf). cbn. by rewrite (from_wire_keyless _ _ _ Hf).
    - intros h'. change (other_slot SLOT0_OFFSET) with SLOT1_OFFSET. unfold slot_header in *.
      rewrite (read_slot_ext b b1); [by rewrite Hs1|done|done|by right|].
      apply same_outside_other; [by right|done]. }
  destruct (create_both key b1 n) as (k&i&a2&b2&n2&h&Hrun&Hh&Hpk&Hck&Hci&Hne&Htk&Hti&Hlow&Hlen2&Hg2);
    [apply Hsb1|by rewrite Hl1|lia|].
  rewrite Hrun. cbv iota. set (hdr := with_roots _ _ _ _ _).
  pose proof (i_backend _ _ _ _ (nh_inv _ _ _ _ _ _ _ Hh)) as [Hwf2 _].
  assert (slots_ok b2 ∧ ∀ kk, load b2 kk = load b1 kk) as [Hsb2 Hload2] by (apply (slots_torn b1 b2 b2); [done..|split_and!; [done|lia|done]]).
  assert (header_ok hdr) as Hhdr.
  { pose proof (node_range _ _ _ _ _ _ _ _ Hh (trie_at_dom _ _ _ _ _ Htk (trie_at_root _ _ _ _ Htk))) as Hrk.
    pose proof (node_range _ _ _ _ _ _ _ _ Hh (trie_at_dom _ _ _ _ _ Hti (trie_at_root _ _ _ _ Hti))) as Hri.
    unfold NODE_ALLOC_SIZE, BASE_BLOCK in *. destruct Hboot as (?&?&?&?&_&?&(_&?&?)&?&(?&?&_)&?).
    unfold header_ok, hdr. cbn -[Z.pow Z.le Z.lt u16 u8 u32 u64 zeros boot]. split_and!; try done; width_lia. }
  destruct (commit_run b2 (Some key) boot hdr (Some key)) as (b3&o&Hcom&Hload3&Hsb3&Hl3&Hg3&Ho&Hout3&_);
    [done|by rewrite Hload2|done|done|].
  rewrite Hcom. cbn [mbind res_bind]. eexists. split; [reflexivity|].
  assert (node_heap (meta key) None h [] [] a2 b3) as Hh3.
  { eapply node_heap_low; [done|apply Hsb3|done|]. intros x. by eapply same_outside_high; [apply other_is_slot|]. }
  split; [|cbn; split_and!; try done; congruence].
  exists h, [], []. assert (Allocator.reclaim_floor a2 = None) as Hfl by apply Hh.
  assert (current (mkEngine ((a2, b3), n2) hdr k i false ∅ ∅ (RecordCache.new 1024) None key) (∅, ∅) h) as Hcur.
  { split; [|done..]. exists {[root k]}, {[root i]}. split_and!; [done..|]. cbn. set_solver. }
  split; [split|done]; cbn; rewrite ?Hfl; try done; [by eapply current_rooted|by apply HX0].
Qed.

End invariant.
