(* ===== verification/ContentHeap.v ===== *)
(** * Claims on the blocks of the store

    Unit records and fragments live in blocks of the allocator that are not
    catalog nodes: a record or a large fragment has whole blocks of its own, a
    small fragment is packed into a block it shares.  A map of claims says who
    owns which address and what is stored there; [claimed] is the heap predicate
    that the store holds those claims.  The lemmas give the effect of
    allocating, writing, overwriting and retiring a block on the claims. *)

From S2P Require Import Prelude.
From S2P Require Import BTree.
From S2P Require Import Backend.
From S2P Require Import Crypto.
From S2P Require Import Header.
From S2P Require Import Alloc.
From S2P Require Import AllocInv.
From S2P Require Import Trie.
From S2P Require Import NodeHeap.
From S2P Require Import TrieMap.
From S2P Require Import Catalog.
From S2P Require Import Engine.
From S2P Require Import EngineInv.

Ltac block_lia := unfold BASE_BLOCK in *; lia.

(** Who owns an address. *)
Inductive Owner := RecordOf (uuid : bytes) | FragOf (uuid : bytes) (frag : Z).

(** A block of [footprint len] bytes in a forward region, or a packed payload. *)
Inductive Claim := Whole (r : Region) (len : Z) (data : bytes) | Piece (data : bytes).

Abbreviation Claims := (gmap Z (Owner * Claim)).

Definition claim_ok (own packed : list Block) (a : Allocator.t) (b : Backend.t) (x : Z) (c : Claim) : Prop :=
  0 ≤ x ∧
  match c with
  | Whole r len data => r ≠ EvictionTail ∧ mkBlock x (footprint len) r ∈ own ∧ blen data = footprint len ∧
      Backend.contents b x (footprint len) = data ∧ x ∉ addr <$> Allocator.deferred_free a
  | Piece data => mkBlock x (blen data) LiveMid ∈ packed ∧ Backend.contents b x (blen data) = data
  end.

(** [packs] are the blocks that hold packed payloads; they are never retired. *)
Record claimed_by (C : Claims) (own : list Block) (packs : list Z) (packed : list Block)
    (a : Allocator.t) (b : Backend.t) : Prop := {
  cb_pieces : ∀ p, p ∈ packed →
    ∃ base, base ∈ packs ∧ base ≤ b_addr p ∧ b_addr p + b_size p ≤ base + BASE_BLOCK;
  cb_open : ∀ base used, Allocator.open_pack a = Some (base, used) → base ∈ packs;
  cb_packs : ∀ base, base ∈ packs → 0 ≤ base ∧ base ∉ addr <$> Allocator.deferred_free a;
  cb_claims : ∀ x o c, C !! x = Some (o, c) → claim_ok own packed a b x c;
}.

Definition claimed (C : Claims) : HeapPred := λ rest packed a b,
  ∃ own packs, rest ≡ₚ own ++ (pack_block <$> packs) ∧ claimed_by C own packs packed a b.

Lemma relocate_forward d x n r : r ≠ EvictionTail → relocate d (mkBlock x n r) = mkBlock x n r.
Proof. by destruct r. Qed.

Lemma relocate_packs d (packs : list Z) : relocate d <$> (pack_block <$> packs) = pack_block <$> packs.
Proof. rewrite <-list_fmap_compose. by apply list_fmap_ext. Qed.

(** Equal contents of a range give equal contents of its parts. *)
Lemma contents_inside b b' base n x m :
  0 ≤ base → base ≤ x → x + m ≤ base + n →
  Backend.contents b' base n = Backend.contents b base n → Backend.contents b' x m = Backend.contents b x m.
Proof.
  intros Hb Hx Hm Hc. apply Backend.contents_ext; [lia|lia|]. intros i Hi.
  eapply (contents_bytes b b' base n); [done|lia|lia|lia].
Qed.

(** Claims are kept by any step that keeps the contents of the other blocks. *)
Lemma claimed_by_frame C own packs packed a b a' b' d :
  claimed_by C own packs packed a b → session_kept a a' →
  (∀ blk, blk ∈ own ++ (pack_block <$> packs) →
     Backend.contents b' (b_addr (relocate d blk)) (b_size blk) = Backend.contents b (b_addr blk) (b_size blk)) →
  claimed_by C (relocate d <$> own) packs packed a' b'.
Proof.
  intros [Hp Ho Hk Hc] [Hd Hless] Hcont. split; [done| | |].
  - intros base used Hop. eapply Ho, Hless, Hop.
  - intros base Hb. rewrite Hd. by apply Hk.
  - intros x o c Hx. specialize (Hc x o c Hx) as [Hx0 Hok]. split; [done|]. destruct c as [r len data|data].
    + destruct Hok as (Hr&Hin&Hl&Hdat&Hdef). rewrite Hd. split_and!; [done| |done| |done].
      * apply list_elem_of_fmap. exists (mkBlock x (footprint len) r). by rewrite relocate_forward.
      * etrans; [|exact Hdat]. specialize (Hcont (mkBlock x (footprint len) r) ltac:(apply elem_of_app; by left)).
        by rewrite relocate_forward in Hcont.
    + destruct Hok as (Hin&Hdat). split; [done|]. etrans; [|exact Hdat]. destruct (Hp _ Hin) as (base&Hb&?&?). cbn in *.
      eapply (contents_inside b b' base BASE_BLOCK); [by apply Hk|done|done|].
      apply (Hcont (pack_block base)). apply elem_of_app. right. apply list_elem_of_fmap. eauto.
Qed.

#[global] Instance claimed_ext C : HeapExt (claimed C).
Proof.
  split.
  - intros fl h rest [a b] h' rest' [a' b'] packed (_&Hs&_&d&_&_&->&Hc) (own&packs&Hp&Hcl). cbn in *.
    exists (relocate d <$> own), packs. split.
    + rewrite Hp, fmap_app, relocate_packs. done.
    + eapply claimed_by_frame; [done..|]. intros blk Hin. apply Hc. by rewrite Hp.
  - intros rest packed a b b' Hhigh Hb (own&packs&Hp&[Hpc Ho Hk Hc]). exists own, packs. split; [done|].
    split; [done..|]. intros x o c Hx. specialize (Hc x o c Hx) as [Hx0 Hok]. split; [done|].
    assert (∀ y n, 2 * BASE_BLOCK ≤ y → Backend.contents b' y n = Backend.contents b y n) as Hsame.
    { intros y n Hy. unfold BASE_BLOCK in *. apply Backend.contents_ext; [lia..|]. intros i Hi. apply Hb. lia. }
    destruct c as [r len data|data].
    + destruct Hok as (?&Hin&?&Hdat&?). split_and!; [done..| |done]. rewrite Hsame; [done|].
      apply (Hhigh (mkBlock x (footprint len) r)). rewrite Hp. apply elem_of_app. by left.
    + destruct Hok as (Hin&Hdat). split; [done|]. rewrite Hsame; [done|]. destruct (Hpc _ Hin) as (base&Hbase&?&?).
      cbn in *. enough (2 * BASE_BLOCK ≤ base) by lia. apply (Hhigh (pack_block base)). rewrite Hp.
      apply elem_of_app. right. apply list_elem_of_fmap. eauto.
  - intros live rest packed a a' b Hi Hsub Hpub Hnd (own&packs&Hp&Hcl). pose proof Hcl as [Hpc Ho Hk Hc].
    assert (∀ p base, p ∈ packed → base ∈ packs → base ≤ b_addr p → b_addr p + b_size p ≤ base + BASE_BLOCK →
      survives (Allocator.deferred_free a) p) as Hsurv.
    { intros p base Hin Hbase ??. apply Forall_forall. intros loc Hloc Hx.
      pose proof (i_session _ _ _ _ Hi) as [Hdef _ Hpk _ _]. destruct (Hdef loc Hloc) as (r&_&Hl).
      destruct (Hpk p Hin) as (Hsz&_).
      assert (pack_block base ∈ live) as Hbl.
      { apply Hsub. rewrite Hp. apply elem_of_app. right. apply list_elem_of_fmap. eauto. }
      pose proof (all_disjoint_same live _ _ (b_addr p) (g_disj _ _ _ _ _ (i_geo _ _ _ _ Hi)) Hl Hbl) as Heq.
      destruct (Hk base Hbase) as [_ Hnot]. apply Hnot. apply list_elem_of_fmap. exists loc. split; [|done].
      enough (block_of loc r = pack_block base) as E by (by apply (f_equal b_addr) in E).
      apply Heq; unfold in_block; cbn in *; lia. }
    exists (release_all (Allocator.deferred_free a) own), packs. split.
    + unfold release_all. rewrite Hp, filter_app. f_equiv. rewrite filter_all; [done|].
      intros blk (base&->&Hbase)%list_elem_of_fmap. by apply Hk.
    + split.
      * intros p [_ Hin]%list_elem_of_filter. by apply Hpc.
      * intros base used Hop. eapply Ho, (publish_deferred_pack _ _ Hpub), Hop.
      * intros base Hbase. rewrite Hnd. split; [by apply Hk|apply not_elem_of_nil].
      * intros x o c Hx. specialize (Hc x o c Hx) as [Hx0 Hok]. split; [done|].
        destruct c as [r len data|data].
        { destruct Hok as (?&Hin&?&Hdat&Hdef). rewrite Hnd. split_and!; [done| |done|done|apply not_elem_of_nil].
          by apply list_elem_of_filter. }
        { destruct Hok as (Hin&Hdat). split; [|done]. apply list_elem_of_filter. split; [|done].
          destruct (Hpc _ Hin) as (base&Hbase&?&?). by eapply Hsurv. }
  - intros rest packed a b fl d Hd (own&packs&Hp&[Hpc Ho Hk Hc]). exists own, packs. split; [done|].
    assert (∀ y, y ∉ addr <$> Allocator.deferred_free a → y ∉ addr <$> d) as Hd'.
    { intros y Hy. destruct Hd as [-> | ->]; [done|apply not_elem_of_nil]. }
    split; [done|done| |].
    + intros base Hbase. destruct (Hk base Hbase). split; [done|]. by apply Hd'.
    + intros x o c Hx. specialize (Hc x o c Hx) as [Hx0 Hok]. split; [done|]. destruct c; [|done].
      destruct Hok as (?&?&?&?&?). split_and!; [done..|]. by apply Hd'.
Qed.

(** Fewer claims. *)
Lemma claimed_weaken C C' rest packed a b :
  (∀ x v, C' !! x = Some v → C !! x = Some v) → claimed C rest packed a b → claimed C' rest packed a b.
Proof.
  intros Hsub (own&packs&Hp&[Hpc Ho Hk Hc]). exists own, packs. split; [done|]. split; [done..|].
  intros x o c Hx. by eapply Hc, Hsub.
Qed.

Lemma claimed_empty a b : Allocator.open_pack a = None → claimed ∅ [] [] a b.
Proof.
  intros Ho. exists [], []. split; [done|]. split; [..|intros base used; by rewrite Ho| |].
  - by intros p ?%elem_of_nil.
  - by intros base ?%elem_of_nil.
  - by intros x o c ?%lookup_empty_Some.
Qed.


(** ** Writes inside one block *)

Lemma all_disjoint_app l1 l2 x y : all_disjoint (l1 ++ l2) → x ∈ l1 → y ∈ l2 → disjoint x y.
Proof.
  induction l1 as [|z l1 IH]; cbn; [by intros _ ?%elem_of_nil|]. intros [Hz Hl] [->|Hx]%elem_of_cons Hy; [|auto].
  rewrite Forall_app, !Forall_forall in Hz. by apply Hz.
Qed.

Lemma all_disjoint_suffix l1 l2 : all_disjoint (l1 ++ l2) → all_disjoint l2.
Proof. induction l1 as [|z l1 IH]; [done|]. cbn. intros [_ ?]. auto. Qed.

Lemma live_in_store a b live packed blk :
  inv a b live packed → blk ∈ live →
  2 * BASE_BLOCK ≤ b_addr blk ∧ 0 < b_size blk ∧ b_addr blk + b_size blk ≤ Backend.len b.
Proof.
  intros Hi Hin. pose proof (live_extent_ok _ _ _ _ _ Hi Hin) as (_&Hpos&_). cbn in Hpos.
  pose proof (g_blocks _ _ _ _ _ (i_geo _ _ _ _ Hi) _ Hin) as [_ _ Hz].
  pose proof (inv_small _ _ _ _ Hi). pose proof (g_marks _ _ _ _ _ (i_geo _ _ _ _ Hi)). pose proof (i_top _ _ _ _ Hi).
  pose proof (Hz (b_addr blk) ltac:(unfold in_block; lia)) as Hz1.
  pose proof (Hz (b_addr blk + b_size blk - 1) ltac:(unfold in_block; lia)) as Hz2.
  destruct (b_region blk); cbn in Hz1, Hz2; lia.
Qed.

(** [data] has been written at [x]. *)
Definition written_at (x : Z) (data : bytes) (b b' : Backend.t) : Prop :=
  Backend.wf b' ∧ Backend.len b' = Backend.len b ∧ Backend.no_grow b' = Backend.no_grow b ∧
  Backend.contents b' x (blen data) = data ∧
  ∀ y, ¬ (x ≤ y < x + blen data) → Backend.byte_at b' y = Backend.byte_at b y.

Lemma write_at_run b x data :
  Backend.wf b → 0 ≤ x → x + blen data ≤ Backend.len b →
  ∃ b', Backend.write_at b x data = Ok b' ∧ written_at x data b b'.
Proof.
  intros Hwf Hx Hl. destruct (Backend.write_at_ok b x data) as (b'&Hw&?&?&?&Hb'); [done..|].
  exists b'. split; [done|]. split_and!; [done..| |].
  - rewrite (Backend.contents_written b b' x data) by (done || lia). rewrite Z.sub_diag. apply app_nil_r.
  - intros y Hy. by rewrite Hb', decide_False.
Qed.

Lemma contents_away x data b b' y n :
  written_at x data b b' → 0 ≤ y → y + n ≤ x ∨ x + blen data ≤ y →
  Backend.contents b' y n = Backend.contents b y n.
Proof. intros (_&_&_&_&Hb) Hy Hor. apply Backend.contents_ext; [done..|]. intros i Hi. apply Hb. lia. Qed.

(** A block other than the one written to. *)
Lemma contents_other x data b b' blk blk' :
  written_at x data b b' → disjoint blk blk' → b_addr blk ≤ x → x + blen data ≤ b_addr blk + b_size blk →
  0 ≤ b_addr blk' →
  Backend.contents b' (b_addr blk') (b_size blk') = Backend.contents b (b_addr blk') (b_size blk').
Proof.
  intros (_&_&_&_&Hb) Hd ???. apply Backend.contents_ext; [done..|]. intros i Hi. apply Hb. intros Hx.
  apply (Hd (b_addr blk' + i)); unfold in_block; lia.
Qed.

Section steps.
Context `{!Crc32, !Hkdf, !AesGcm, !Entropy} (c : NodeCrypto) (fl : option Z) (h : gmap Z node).

Lemma node_heap_write rest packed a b b' blk x data :
  node_heap c fl h rest packed a b → blk ∈ rest → b_addr blk ≤ x → x + blen data ≤ b_addr blk + b_size blk →
  written_at x data b b' → node_heap c fl h rest packed a b' ∧ kept fl h b h b'.
Proof.
  intros Hh Hin Hx Hn Hw. pose proof Hh as [Hi Hnodes Hfl Hdef]. pose proof Hw as (Hwf&Hl&_&_&Hb).
  assert (blk ∈ node_blocks h ++ rest) as Hin' by (apply elem_of_app; by right).
  pose proof (live_in_store _ _ _ _ _ Hi Hin') as (?&?&?).
  assert (∀ y nd, h !! y = Some nd →
    Backend.contents b' y NODE_ALLOC_SIZE = Backend.contents b y NODE_ALLOC_SIZE) as Hsame.
  { intros y nd Hy. pose proof (node_range _ _ _ _ _ _ _ y Hh ltac:(eauto)) as (?&_). unfold BASE_BLOCK in *.
    apply (contents_other x data b b' blk (node_block y)); [done| |done|done|cbn; lia].
    apply disjoint_sym. eapply all_disjoint_app; [apply (i_geo _ _ _ _ Hi)| |done]. apply elem_of_node_blocks. eauto. }
  split.
  - split; [by eapply inv_write| |done|done]. intros y nd Hy. destruct (Hnodes y nd Hy) as [Hok Hp]. split; [done|].
    pose proof (node_range _ _ _ _ _ _ _ y Hh ltac:(eauto)) as (?&_). unfold BASE_BLOCK in *.
    eapply (pair_image_ext c y nd b); [lia|by eapply Hsame|done].
  - split.
    + intros y Hy. apply Hb. lia.
    + intros y nd Hy _. split; [done|by eapply Hsame].
Qed.

(** ** Allocation *)

Lemma node_heap_allocated rest packed a b len r loc a1 b1 :
  node_heap c fl h rest packed a b →
  allocated a b (node_blocks h ++ rest) packed len r loc a1 b1 →
  Backend.no_grow b1 = Backend.no_grow b →
  ∃ delta, 0 ≤ delta ∧ node_heap c fl h (block_of loc r :: (relocate delta <$> rest)) packed a1 b1 ∧
    frame fl h rest (a, b) h (relocate delta <$> rest) (a1, b1) ∧
    (∀ blk, blk ∈ node_blocks h ++ rest → disjoint (block_of loc r) (relocate delta blk)) ∧
    addr loc ∉ addr <$> Allocator.deferred_free a.
Proof.
  intros [Hi Hn Hf Hd] (delta&Hdl&Hl&Hm&Hlen&Hi1&Er&Ed&Eo&_) Hg.
  pose proof (g_disj _ _ _ _ _ (i_geo _ _ _ _ Hi1)) as [Hdis _]. rewrite Forall_forall in Hdis.
  assert (∀ blk, blk ∈ node_blocks h ++ rest → disjoint (block_of loc r) (relocate delta blk)) as Hfresh.
  { intros blk Hin. apply Hdis. apply list_elem_of_fmap. eauto. }
  assert (∀ y nd, h !! y = Some nd →
    Backend.contents b1 y NODE_ALLOC_SIZE = Backend.contents b y NODE_ALLOC_SIZE) as Hnodes.
  { intros y nd Hy. apply (moved_contents _ _ _ _ _ _ (node_block y) Hi Hdl Hm).
    apply elem_of_app. left. apply elem_of_node_blocks. eauto. }
  exists delta. split; [done|]. split_and!; [| |done|].
  - split; [|intros y nd Hy|congruence|intros y Hy; rewrite Ed; by apply Hd].
    + rewrite fmap_app, relocate_node_blocks in Hi1. eapply inv_perm; [|exact Hi1]. by rewrite Permutation_middle.
    + destruct (Hn y nd Hy) as [Hok Hp]. split; [done|].
      pose proof (catalog_range _ _ _ _ y Hi ltac:(apply elem_of_app; left; apply elem_of_node_blocks; eauto)) as (?&_).
      unfold BASE_BLOCK in *. eapply (pair_image_ext c y nd b); [lia|by eapply Hnodes|done].
  - split; [split|split_and!; cbn; [split; [done|by unfold pack_less; rewrite Eo]|done|]].
    + intros x Hx. cbn. pose proof (inv_small _ _ _ _ Hi). pose proof (g_marks _ _ _ _ _ (i_geo _ _ _ _ Hi)).
      destruct Hm as [Hlow _]. apply Hlow. unfold BASE_BLOCK in *. lia.
    + intros y nd Hy _. cbn. split; [done|by eapply Hnodes].
    + exists delta. split_and!; [done|lia|done|]. intros blk Hin.
      apply (moved_contents _ _ _ _ _ _ blk Hi Hdl Hm). apply elem_of_app. by right.
  - intros (loc'&Heq&Hin)%list_elem_of_fmap.
    destruct (i_session _ _ _ _ Hi) as [Hdef _ _ _ _]. destruct (Hdef loc' Hin) as (r'&Hr'&Hlive).
    pose proof (live_extent_ok _ _ _ _ _ Hi Hlive) as (_&Hpos&_). cbn in Hpos.
    pose proof (live_extent_ok _ _ _ _ _ Hi1 ltac:(by left)) as (_&Hpos1&_). cbn in Hpos1.
    apply (Hfresh _ Hlive (addr loc)); unfold in_block; [cbn; lia|].
    unfold block_of at 1 2 3. rewrite relocate_forward by done. cbn. lia.
Qed.

End steps.

(** ** Claims under writes *)

Section claim_steps.
Context (C : Claims) (own : list Block) (packs : list Z) (packed : list Block) (a : Allocator.t) (b b' : Backend.t).
Hypothesis Hcl : claimed_by C own packs packed a b.
Hypothesis Hdis : all_disjoint (own ++ (pack_block <$> packs)).

(** A whole block is overwritten: the other claims stay. *)
Lemma claimed_by_write blk data :
  blk ∈ own → 0 < b_size blk → blen data = b_size blk → written_at (b_addr blk) data b b' →
  claimed_by (delete (b_addr blk) C) own packs packed a b'.
Proof using Hcl Hdis.
  intros Hin Hpos Hl Hw. pose proof Hcl as [Hpc Ho Hk Hc]. split; [done..|].
  intros x o cl [Hne Hx]%lookup_delete_Some. specialize (Hc x o cl Hx) as [Hx0 Hok]. split; [done|].
  destruct cl as [r len data'|data'].
  - destruct Hok as (?&Hin'&Hl'&Hdat&?). split_and!; [done..| |done]. etrans; [|exact Hdat].
    apply (contents_other _ _ _ _ blk (mkBlock x (footprint len) r) Hw); [|lia|lia|done].
    intros y Hy Hy'. apply Hne.
    enough (blk = mkBlock x (footprint len) r) as -> by done.
    eapply (all_disjoint_same _ _ _ y Hdis); [apply elem_of_app; by left..|done|done].
  - destruct Hok as (Hin'&Hdat). split; [done|]. etrans; [|exact Hdat].
    destruct (Hpc _ Hin') as (base&Hbase&?&?). cbn in *. destruct (Hk base Hbase) as [? _].
    eapply (contents_inside b b' base BASE_BLOCK); [done..|].
    apply (contents_other _ _ _ _ blk (pack_block base) Hw); [|lia|lia|done].
    eapply all_disjoint_app; [exact Hdis|done|]. apply list_elem_of_fmap. eauto.
Qed.

(** A packed payload is written: all claims on other payloads stay. *)
Lemma claimed_by_write_piece p base data :
  p ∈ packed → base ∈ packs → base ≤ b_addr p → b_addr p + b_size p ≤ base + BASE_BLOCK →
  all_disjoint packed → blen data = b_size p → written_at (b_addr p) data b b' →
  (∀ o d, C !! b_addr p ≠ Some (o, Piece d)) →
  claimed_by C own packs packed a b'.
Proof using Hcl Hdis.
  intros Hin Hbase Hlo Hhi Hpd Hl Hw Hfree. pose proof Hcl as [Hpc Ho Hk Hc]. split; [done..|].
  intros x o cl Hx. specialize (Hc x o cl Hx) as [Hx0 Hok]. split; [done|].
  destruct cl as [r len data'|data'].
  - destruct Hok as (?&Hin'&Hl'&Hdat&?). split_and!; [done..| |done]. etrans; [|exact Hdat].
    apply (contents_other _ _ _ _ (pack_block base) (mkBlock x (footprint len) r) Hw); [|cbn; lia|cbn; lia|done].
    apply disjoint_sym. eapply all_disjoint_app; [exact Hdis|done|]. apply list_elem_of_fmap. eauto.
  - destruct Hok as (Hin'&Hdat). split; [done|]. etrans; [|exact Hdat].
    apply (contents_other _ _ _ _ p (mkBlock x (blen data') LiveMid) Hw); [|lia|lia|done].
    intros y Hy Hy'. assert (p = mkBlock x (blen data') LiveMid) as -> by
      by apply (all_disjoint_same _ _ _ y Hpd). by eapply Hfree.
Qed.

End claim_steps.

Lemma claimed_by_insert C own packs packed a b x o cl :
  claimed_by (delete x C) own packs packed a b → claim_ok own packed a b x cl →
  claimed_by (<[x := (o, cl)]> C) own packs packed a b.
Proof.
  intros [Hpc Ho Hk Hc] Hok. split; [done..|]. intros y o' cl' [[<- [= <- <-]]|[Hne Hy]]%lookup_insert_Some; [done|].
  apply (Hc y o'). by rewrite lookup_delete_ne.
Qed.

(** More blocks. *)
Lemma claimed_by_own C own packs packed a b blk :
  claimed_by C own packs packed a b → claimed_by C (blk :: own) packs packed a b.
Proof.
  intros [Hpc Ho Hk Hc]. split; [done..|]. intros x o cl Hx. specialize (Hc x o cl Hx) as [Hx0 Hok]. split; [done|].
  destruct cl; [|done]. destruct Hok as (?&?&?&?&?). split_and!; try done. by right.
Qed.

(** The address of a fresh block is not claimed. *)
Lemma fresh_unclaimed C own packs packed a b blk :
  claimed_by C own packs packed a b → 0 < b_size blk →
  (∀ blk', blk' ∈ own ++ (pack_block <$> packs) → disjoint blk blk') →
  (∀ p, p ∈ packed → 0 < b_size p) → C !! b_addr blk = None.
Proof.
  intros [Hpc _ _ Hc] Hpos Hd Hpp. destruct (C !! b_addr blk) as [[o cl]|] eqn:E; [|done]. exfalso.
  destruct (Hc _ _ _ E) as [Hx0 Hok]. destruct cl as [r len data|data].
  - destruct Hok as (_&Hin&_). eapply (Hd (mkBlock (b_addr blk) (footprint len) r)); [apply elem_of_app; by left|..];
      unfold in_block; cbn; [|split; [reflexivity|]]; [lia|]. unfold footprint, BASE_BLOCK. lia.
  - destruct Hok as (Hin&_). destruct (Hpc _ Hin) as (base&Hbase&?&?). specialize (Hpp _ Hin). cbn in *.
    apply (Hd (pack_block base)) with (b_addr blk); unfold in_block; cbn; [|lia|lia].
    apply elem_of_app. right. apply list_elem_of_fmap. eauto.
Qed.

(** ** Engines with claims *)

Section engines.
Context `{!Crc32, !Hkdf, !Hmac, !AesGcm, !Entropy}.

(** [eng] with the claims [C] on the store. *)
Definition ceng (C : Claims) : Engine → maps → maps → Backend.t → Prop := eng (X := claimed C).

Lemma eng_set_store C C' e cur com b0 h rest packed s' rest' packed' :
  durable (X := claimed C) e com b0 h rest packed → current e cur h →
  node_heap (meta (root_key e)) (Allocator.reclaim_floor (alloc e)) h rest' packed' s'.1.1 s'.1.2 →
  claimed C' rest' packed' s'.1.1 s'.1.2 →
  kept (Allocator.reclaim_floor (alloc e)) h (backend e) h s'.1.2 →
  Backend.len (backend e) ≤ Backend.len s'.1.2 → Backend.no_grow s'.1.2 = Backend.no_grow (backend e) →
  base e (set_store s' e) ∧ ceng C' (set_store s' e) cur com b0.
Proof.
  intros Hd [] Hh HX Hk Hl Hg. split; [by split_and!|]. exists h, rest', packed'. split; [|by split].
  pose proof (nh_floor _ _ _ _ _ _ _ Hh) as Hfl. pose proof Hk as [Hlow _]. destruct Hd.
  split; unfold alloc, backend in *; cbn; rewrite ?Hfl; try done.
  - lia.
  - intros x Hx. rewrite Hlow by done. by apply d_low.
  - by eapply rooted_step.
Qed.

(** The claims after a block of region [r] was filled. *)
Definition claim_in (r : Region) (x len : Z) (data : bytes) (o : Owner) (C : Claims) : Claims :=
  if decide (r = EvictionTail) then C else <[x := (o, Whole r len data)]> C.

Lemma kept_frame fl h b0 b h' b' rest s s' rest' :
  frame fl h rest (s, b0) h' rest' (s', b) → kept fl h' b h' b' → kept fl h b0 h' b'.
Proof. intros (Hk&_) Hk'. by eapply kept_trans. Qed.

Lemma alloc_fill_spec C e cur com b0 len r :
  ceng C e cur com b0 → u32 len →
  match Allocator.alloc_aligned len r (alloc e, backend e) with
  | (Ok loc, (a1, b1)) =>
      blk_len loc = len ∧ 2 * BASE_BLOCK ≤ addr loc ∧ addr loc + footprint len < 2 ^ 63 ∧ C !! addr loc = None ∧
      ∀ data n' o, blen data = footprint len →
        ∃ b2, Backend.write_at b1 (addr loc) data = Ok b2 ∧
          let e' := set_store ((a1, b2), n') e in
          base e e' ∧ ceng (claim_in r (addr loc) len data o C) e' cur com b0
  | (Err er, s') => er = Io StorageFull ∧ Backend.no_grow (backend e) = true ∧ s' = (alloc e, backend e)
  | (Panic, (_, b')) => 2 ^ 61 ≤ Backend.len b'
  end.
Proof.
  intros (h&rest&packed&Hd&Hcur) Hlen. pose proof (d_heap _ _ _ _ _ _ Hd) as Hh.
  pose proof (d_ext _ _ _ _ _ _ Hd) as HX. unfold heap_pred in HX.
  pose proof (alloc_aligned_spec _ _ _ packed len r (nh_inv _ _ _ _ _ _ _ Hh) Hlen) as Hal.
  pose proof (alloc_aligned_grows len r (alloc e, backend e)) as [Hgl Hg].
  destruct (Allocator.alloc_aligned len r (alloc e, backend e)) as [[loc|er|] [a1 b1]]; cbn [fst snd] in *; [..|lia].
  2: { done. }
  pose proof Hal as (_&_&_&_&Hlenl&_).
  destruct (node_heap_allocated _ _ _ _ _ _ _ _ _ _ _ _ Hh Hal Hg) as (delta&Hdl&Hh1&Hfr&Hfresh&Hnd).
  pose proof (ext_frame (X := claimed C) _ _ _ _ _ _ _ packed Hfr HX) as (own&packs&Hp&Hcl). cbn [fst snd] in Hcl.
  assert (block_of loc r = mkBlock (addr loc) (footprint len) r) as Hblk by (unfold block_of; by rewrite Hlenl).
  set (blk := block_of loc r) in *. clearbody blk. subst blk. set (blk := mkBlock (addr loc) (footprint len) r) in *.
  pose proof (nh_inv _ _ _ _ _ _ _ Hh1) as Hi1.
  assert (blk ∈ node_blocks h ++ blk :: (relocate delta <$> rest)) as Hin by (apply elem_of_app; right; by left).
  pose proof (live_in_store _ _ _ _ _ Hi1 Hin) as (Hlo&Hpos&Hhi). change (b_addr blk) with (addr loc) in *.
  change (b_size blk) with (footprint len) in *. pose proof (inv_small _ _ _ _ Hi1) as (_&Hsmall).
  assert (∀ blk', blk' ∈ own ++ (pack_block <$> packs) → disjoint blk blk') as Hdis'.
  { intros blk' Hb'. rewrite <-Hp in Hb'. apply list_elem_of_fmap in Hb' as (blk0&->&Hb0). apply Hfresh.
    apply elem_of_app. by right. }
  assert (C !! addr loc = None) as Hnone.
  { apply (fresh_unclaimed _ _ _ _ _ _ blk Hcl); [done|done|].
    intros p Hpin. by apply (s_packed _ _ _ (i_session _ _ _ _ Hi1) p). }
  split_and!; [done|done|lia|done|]. intros data n' o Hdata.
  destruct (write_at_run b1 (addr loc) data) as (b2&Hw&Hwr); [apply (i_backend _ _ _ _ Hi1)|block_lia|lia|].
  exists b2. split; [done|]. cbv zeta.
  destruct (node_heap_write _ _ _ _ _ _ _ b2 blk (addr loc) data Hh1) as [Hh2 Hk2]; [by left|done|change (b_size blk) with (footprint len); cbn; lia|done|].
  pose proof Hwr as (_&Hl2&Hg2&Hc2&_).
  eapply eng_set_store; [exact Hd|exact Hcur|exact Hh2| |by eapply kept_frame|cbn; lia|cbn; congruence].
  cbn [fst snd]. unfold claimed. exists (blk :: own), packs. split; [by rewrite Hp|].
  assert (claimed_by (delete (addr loc) C) (blk :: own) packs packed a1 b2) as Hcl2.
  { change (addr loc) with (b_addr blk).
    apply (claimed_by_write C (blk :: own) packs packed a1 b1 b2) with (data := data);
      [by apply claimed_by_own| |by left|done|done|done].
    cbn. split; [by apply Forall_forall|]. pose proof (g_disj _ _ _ _ _ (i_geo _ _ _ _ Hi1)) as Hall.
    apply all_disjoint_suffix in Hall as [_ Hall]. by rewrite Hp in Hall. }
  rewrite delete_id in Hcl2 by done. unfold claim_in. case_decide as Hr; [done|].
  apply claimed_by_insert; [by rewrite delete_id|]. split; [block_lia|]. split_and!; [done| |done|by rewrite <-Hdata|].
  - by left.
  - pose proof Hfr as (_&[Ed _]&_). cbn in Ed. by rewrite Ed.
Qed.

(** *** Packed payloads *)

Lemma node_heap_pack c fl h rest packed a b base used need :
  node_heap c fl h rest packed a b → pack_block base ∈ rest → 0 ≤ used → 0 < need → used + need ≤ BASE_BLOCK →
  (∀ p x, p ∈ packed → in_block p x → base ≤ x < base + BASE_BLOCK → x < base + used) →
  node_heap c fl h rest (mkBlock (base + used) need LiveMid :: packed)
    (Allocator.set_open_pack a (Some (base, used + need))) b.
Proof.
  intros [Hi Hn Hf Hd] Hin ????. split; [|done..]. apply inv_pack; [done| |done..]. apply elem_of_app. by right.
Qed.

Lemma pack_fill c fl h C own packs rest packed a b base x need :
  node_heap c fl h rest packed a b → rest ≡ₚ own ++ (pack_block <$> packs) → claimed_by C own packs packed a b →
  base ∈ packs → mkBlock x need LiveMid ∈ packed → base ≤ x → x + need ≤ base + BASE_BLOCK → C !! x = None →
  ∀ data o, blen data = need → ∃ b2, Backend.write_at b x data = Ok b2 ∧ node_heap c fl h rest packed a b2 ∧
    claimed (<[x := (o, Piece data)]> C) rest packed a b2 ∧ kept fl h b h b2 ∧
    Backend.len b2 = Backend.len b ∧ Backend.no_grow b2 = Backend.no_grow b.
Proof.
  intros Hh Hp Hcl Hbase Hin Hlo Hhi Hnone data o Hl. pose proof (nh_inv _ _ _ _ _ _ _ Hh) as Hi.
  assert (pack_block base ∈ rest) as Hb by (rewrite Hp; apply elem_of_app; right; apply list_elem_of_fmap; eauto).
  pose proof (live_in_store _ _ _ _ (pack_block base) Hi ltac:(apply elem_of_app; by right)) as (Hb0&_&Hb1). cbn in Hb0, Hb1.
  destruct (write_at_run b x data) as (b2&Hw&Hwr); [apply (i_backend _ _ _ _ Hi)|block_lia|lia|].
  destruct (node_heap_write _ _ _ _ _ _ _ b2 (pack_block base) x data Hh Hb) as [Hh2 Hk2]; [done|cbn; lia|done|].
  exists b2. pose proof Hwr as (_&?&?&Hc&_). split_and!; [done..| |done|done|done].
  exists own, packs. split; [done|].
  assert (all_disjoint (own ++ (pack_block <$> packs))) as Hdis.
  { pose proof (g_disj _ _ _ _ _ (i_geo _ _ _ _ Hi)) as Hall. by apply all_disjoint_suffix in Hall; rewrite Hp in Hall. }
  apply claimed_by_insert.
  - rewrite delete_id by done.
    apply (claimed_by_write_piece C own packs packed a b b2 Hcl Hdis (mkBlock x need LiveMid) base data);
      [done..|apply (i_session _ _ _ _ Hi)|done|done|]. cbn. intros o' d. by rewrite Hnone.
  - split; [block_lia|]. split; [by rewrite Hl|done].
Qed.

(** A packed payload at [x] is ready to be filled. *)
Definition pack_ready (C : Claims) (e : Engine) (cur com : maps) (b0 : Backend.t) (need x : Z)
    (a1 : Allocator.t) (b1 : Backend.t) : Prop :=
  2 * BASE_BLOCK ≤ x ∧ x + need < 2 ^ 63 ∧ C !! x = None ∧
  ∀ data n' o, blen data = need →
    ∃ b2, Backend.write_at b1 x data = Ok b2 ∧
      let e' := set_store ((a1, b2), n') e in
      base e e' ∧ ceng (<[x := (o, Piece data)]> C) e' cur com b0.

Section pack.
Context (C : Claims) (e : Engine) (cur com : maps) (b0 : Backend.t) (need : Z).
Context (h : gmap Z node) (rest packed : list Block).
Hypothesis Hd : durable (X := claimed C) e com b0 h rest packed.
Hypothesis Hcur : current e cur h.
Hypothesis Hneed : 0 < need < BASE_BLOCK.

(** In a fresh pack block. *)
Lemma pack_fresh loc a1 b1 :
  allocated (alloc e) (backend e) (node_blocks h ++ rest) packed BASE_BLOCK LiveMid loc a1 b1 →
  Backend.no_grow b1 = Backend.no_grow (backend e) → Backend.len (backend e) ≤ Backend.len b1 →
  addr loc < 2 ^ 64 ∧
  pack_ready C e cur com b0 need (addr loc) (Allocator.set_open_pack a1 (Some (addr loc, 0 + need))) b1.
Proof using All.
  intros Hal Hg Hgl. pose proof (d_heap _ _ _ _ _ _ Hd) as Hh. pose proof (d_ext _ _ _ _ _ _ Hd) as HX.
  unfold heap_pred in HX. pose proof Hal as (_&_&_&_&Hlenl&_).
  destruct (node_heap_allocated _ _ _ _ _ _ _ _ _ _ _ _ Hh Hal Hg) as (delta&Hdl&Hh1&Hfr&Hfresh&Hnd).
  pose proof (ext_frame (X := claimed C) _ _ _ _ _ _ _ packed Hfr HX) as (own&packs&Hp&Hcl). cbn [fst snd] in Hcl.
  assert (block_of loc LiveMid = pack_block (addr loc)) as Hblk by (unfold block_of; by rewrite Hlenl).
  rewrite Hblk in *. set (base := addr loc) in *. pose proof (nh_inv _ _ _ _ _ _ _ Hh1) as Hi1.
  assert (pack_block base ∈ node_blocks h ++ pack_block base :: (relocate delta <$> rest)) as Hin
    by (apply elem_of_app; right; by left).
  pose proof (live_in_store _ _ _ _ _ Hi1 Hin) as (Hlo&_&Hhi). cbn in Hlo, Hhi.
  pose proof (inv_small _ _ _ _ Hi1) as (_&Hsmall).
  assert (∀ blk', blk' ∈ own ++ (pack_block <$> packs) → disjoint (pack_block base) blk') as Hdis'.
  { intros blk' Hb'. rewrite <-Hp in Hb'. apply list_elem_of_fmap in Hb' as (blk0&->&Hb0). apply Hfresh.
    apply elem_of_app. by right. }
  assert (C !! base = None) as Hnone.
  { apply (fresh_unclaimed _ _ _ _ _ _ (pack_block base) Hcl); [done|done|].
    intros p Hpin. by apply (s_packed _ _ _ (i_session _ _ _ _ Hi1) p). }
  split; [block_lia|]. split_and!; [done|block_lia|done|]. intros data n' o Hdata.
  pose proof (node_heap_pack _ _ _ _ _ _ _ base 0 need Hh1 ltac:(by left) ltac:(lia) ltac:(lia) ltac:(lia)) as Hh2.
  rewrite Z.add_0_r in Hh2. specialize (Hh2 ltac:(
    intros p x Hpin Hx Hx'; exfalso; destruct (cb_pieces _ _ _ _ _ _ Hcl p Hpin) as (base'&Hb'&?&?);
    apply (Hdis' (pack_block base')) with x; unfold in_block in *; cbn; [|lia|lia];
    apply elem_of_app; right; apply list_elem_of_fmap; eauto)).
  edestruct (pack_fill _ _ _ C own (base :: packs) _ _ _ _ base base need Hh2) as (b2&Hw&Hh3&HX3&Hk3&Hl3&Hg3);
    [|split| |by left|lia|lia|done|exact Hdata|].
  - cbn. rewrite Hp. by rewrite Permutation_middle.
  - intros p [->|Hpin]%elem_of_cons; [exists base; split_and!; [by left|cbn; lia..]|].
    destruct (cb_pieces _ _ _ _ _ _ Hcl p Hpin) as (base'&?&?&?). exists base'. split_and!; [by right|done..].
  - cbn. intros ?? [= <- <-]. by left.
  - intros base' [->|Hb']%elem_of_cons; [|by apply (cb_packs _ _ _ _ _ _ Hcl)]. split; [block_lia|].
    pose proof Hfr as (_&[Ed _]&_). cbn in Ed |- *. by rewrite Ed.
  - intros x o' cl Hx. destruct (cb_claims _ _ _ _ _ _ Hcl x o' cl Hx) as [? Hok]. split; [done|].
    destruct cl; [done|]. destruct Hok. split; [by right|done].
  - by left.
  - exists b2. split; [done|]. eapply eng_set_store; [exact Hd|exact Hcur|exact Hh3|exact HX3| |cbn; lia|cbn; congruence].
    by eapply kept_frame.
Qed.

(** In the open pack block. *)
Lemma pack_room base used :
  Allocator.open_pack (alloc e) = Some (base, used) → used + need ≤ BASE_BLOCK →
  base + used < 2 ^ 64 ∧
  pack_ready C e cur com b0 need (base + used) (Allocator.set_open_pack (alloc e) (Some (base, used + need))) (backend e).
Proof using All.
  intros Eop Hfit. pose proof (d_heap _ _ _ _ _ _ Hd) as Hh. pose proof (d_ext _ _ _ _ _ _ Hd) as HX.
  pose proof (nh_inv _ _ _ _ _ _ _ Hh) as Hi.
  destruct (i_session _ _ _ _ Hi) as [_ _ Hpk _ Ho]. destruct (Ho _ _ Eop) as (Hu&Hb&Hfree).
  pose proof (live_in_store _ _ _ _ _ Hi Hb) as (Hlo&_&Hhi). cbn in Hlo, Hhi.
  pose proof (inv_small _ _ _ _ Hi) as (_&Hsmall).
  destruct HX as (own&packs&Hp&Hcl). pose proof (cb_open _ _ _ _ _ _ Hcl _ _ Eop) as Hbase.
  assert (C !! (base + used) = None) as Hnone.
  { destruct (C !! (base + used)) as [[o cl]|] eqn:E; [|done]. exfalso.
    destruct (cb_claims _ _ _ _ _ _ Hcl _ _ _ E) as [_ Hok]. destruct cl as [r len data|data].
    - destruct Hok as (_&Hin&_). pose proof (g_disj _ _ _ _ _ (i_geo _ _ _ _ Hi)) as Hall.
      apply all_disjoint_suffix in Hall. rewrite Hp in Hall.
      eapply (all_disjoint_app _ _ _ (pack_block base) Hall Hin) with (base + used);
        [apply list_elem_of_fmap; eauto|..]; unfold in_block; cbn; [|lia]. unfold footprint. block_lia.
    - destruct Hok as (Hin&_). destruct (Hpk _ Hin) as [Hpos _].
      cbn in Hpos. specialize (Hfree _ (base + used) Hin). unfold in_block in Hfree. cbn in Hfree. lia. }
  split; [block_lia|]. split_and!; [block_lia|block_lia|done|]. intros data n' o Hdata.
  assert (pack_block base ∈ rest) as Hbr by (rewrite Hp; apply elem_of_app; right; apply list_elem_of_fmap; eauto).
  pose proof (node_heap_pack _ _ _ _ _ _ _ base used need Hh Hbr ltac:(lia) ltac:(lia) Hfit Hfree) as Hh2.
  edestruct (pack_fill _ _ _ C own packs _ _ _ _ base (base + used) need Hh2 Hp) as (b2&Hw&Hh3&HX3&Hk3&Hl3&Hg3);
    [split|done|by left|lia|lia|done|exact Hdata|].
  - intros p [->|Hpin]%elem_of_cons; [exists base; split_and!; [done|cbn; lia..]|].
    by apply (cb_pieces _ _ _ _ _ _ Hcl p).
  - cbn. intros ?? [= <- <-]. done.
  - apply (cb_packs _ _ _ _ _ _ Hcl).
  - intros x o' cl Hx. destruct (cb_claims _ _ _ _ _ _ Hcl x o' cl Hx) as [? Hok]. split; [done|].
    destruct cl; [done|]. destruct Hok. split; [by right|done].
  - exists b2. split; [done|]. eapply eng_set_store; [exact Hd|exact Hcur|exact Hh3|exact HX3|done|cbn; lia|cbn; congruence].
Qed.

End pack.

Lemma alloc_packed_fill_spec C e cur com b0 need :
  ceng C e cur com b0 → 0 < need < BASE_BLOCK →
  match Allocator.alloc_packed need (alloc e, backend e) with
  | (Ok x, (a1, b1)) => pack_ready C e cur com b0 need x a1 b1
  | (Err er, s') => er = Io StorageFull ∧ Backend.no_grow (backend e) = true ∧ s' = (alloc e, backend e)
  | (Panic, (_, b')) => 2 ^ 61 ≤ Backend.len b'
  end.
Proof.
  intros (h&rest&packed&Hd&Hcur) Hneed.
  pose proof (nh_inv _ _ _ _ _ _ _ (d_heap _ _ _ _ _ _ Hd)) as Hi.
  pose proof (alloc_aligned_spec _ _ _ packed BASE_BLOCK LiveMid Hi ltac:(by_compute)) as Hal.
  pose proof (alloc_aligned_grows BASE_BLOCK LiveMid (alloc e, backend e)) as [Hgl Hg].
  rewrite alloc_packed_run by done. unfold add64.
  destruct (Allocator.open_pack (alloc e)) as [[base used]|] eqn:Eop;
    [destruct (Z.leb_spec (used + need) BASE_BLOCK) as [Hfit|Hfit]|].
  { destruct (pack_room C e cur com b0 need h rest packed Hd Hcur Hneed base used Eop Hfit) as [Hs Hr].
    by replace (base + used <? 2 ^ 64) with true by lia. }
  all: destruct (Allocator.alloc_aligned BASE_BLOCK LiveMid (alloc e, backend e)) as [[loc|er|] [a1 b1]];
    cbn [fst snd] in *; [|done|lia].
  all: destruct (pack_fresh C e cur com b0 need h rest packed Hd Hcur Hneed loc a1 b1 Hal Hg Hgl) as [Hs Hr].
  all: rewrite Z.add_0_r; by replace (addr loc <? 2 ^ 64) with true by lia.
Qed.

(** ** Claimed blocks *)

(** Reading a claimed block. *)
Lemma claim_read C e cur com b0 x o cl :
  ceng C e cur com b0 → C !! x = Some (o, cl) →
  2 * BASE_BLOCK ≤ x ∧
  match cl with
  | Whole r len data => blen data = footprint len ∧ x + footprint len ≤ Backend.len (backend e) ∧
      Backend.contents (backend e) x (footprint len) = data ∧
      ∀ n, 0 ≤ n ≤ footprint len → Backend.read_at (backend e) x n = Ok (take (Z.to_nat n) data)
  | Piece data => Backend.read_at (backend e) x (blen data) = Ok data
  end.
Proof.
  intros (h&rest&packed&Hd&Hcur) Hx. pose proof (nh_inv _ _ _ _ _ _ _ (d_heap _ _ _ _ _ _ Hd)) as Hi.
  pose proof (d_ext _ _ _ _ _ _ Hd) as (own&packs&Hp&Hcl). pose proof (i_backend _ _ _ _ Hi) as [Hwf _].
  destruct (cb_claims _ _ _ _ _ _ Hcl _ _ _ Hx) as [_ Hok]. destruct cl as [r len data|data].
  - destruct Hok as (_&Hin&Hl&Hc&_).
    pose proof (live_in_store _ _ _ _ (mkBlock x (footprint len) r) Hi
      ltac:(apply elem_of_app; right; rewrite Hp; apply elem_of_app; by left)) as (?&?&?). cbn in *.
    split_and!; [done..|]. intros n Hn. rewrite Backend.read_at_ok by (done || block_lia). f_equal.
    rewrite <-Hc. unfold Backend.contents. rewrite take_take. f_equal. lia.
  - destruct Hok as (Hin&Hc). destruct (cb_pieces _ _ _ _ _ _ Hcl _ Hin) as (base&Hbase&?&?). cbn in *.
    pose proof (live_in_store _ _ _ _ (pack_block base) Hi
      ltac:(apply elem_of_app; right; rewrite Hp; apply elem_of_app; right; apply list_elem_of_fmap; eauto)) as (?&_&?).
    cbn in *. split; [lia|]. rewrite Backend.read_at_ok; [by rewrite Hc|done|block_lia|apply blen_nonneg|lia].
Qed.

(** Overwriting a claimed block in place. *)
Lemma claim_overwrite C e cur com b0 x o r len old len' data n' :
  ceng C e cur com b0 → C !! x = Some (o, Whole r len old) →
  footprint len' = footprint len → blen data = footprint len →
  ∃ b2, Backend.write_at (backend e) x data = Ok b2 ∧
    let e' := set_store ((alloc e, b2), n') e in
    base e e' ∧ ceng (<[x := (o, Whole r len' data)]> C) e' cur com b0.
Proof.
  intros (h&rest&packed&Hd&Hcur) Hx Hf Hl. pose proof (d_heap _ _ _ _ _ _ Hd) as Hh.
  pose proof (nh_inv _ _ _ _ _ _ _ Hh) as Hi. pose proof (d_ext _ _ _ _ _ _ Hd) as (own&packs&Hp&Hcl).
  destruct (cb_claims _ _ _ _ _ _ Hcl _ _ _ Hx) as [Hx0 (Hr&Hin&_&_&Hdef)]. set (blk := mkBlock x (footprint len) r) in *.
  assert (blk ∈ rest) as Hblk by (rewrite Hp; apply elem_of_app; by left).
  pose proof (live_in_store _ _ _ _ blk Hi ltac:(apply elem_of_app; by right)) as (?&?&?). cbn in *.
  destruct (write_at_run (backend e) x data) as (b2&Hw&Hwr); [apply (i_backend _ _ _ _ Hi)|block_lia|lia|].
  exists b2. split; [done|]. pose proof Hwr as (_&Hl2&Hg2&Hc2&_).
  destruct (node_heap_write _ _ _ _ _ _ _ b2 blk x data Hh Hblk) as [Hh2 Hk2]; [done|cbn; lia|done|].
  eapply eng_set_store; [exact Hd|exact Hcur|exact Hh2| |done|cbn; lia|done].
  exists own, packs. split; [done|]. apply claimed_by_insert.
  - change x with (b_addr blk). apply (claimed_by_write C own packs packed (alloc e) (backend e) b2) with (data := data); try done.
    pose proof (g_disj _ _ _ _ _ (i_geo _ _ _ _ Hi)) as Hall. apply all_disjoint_suffix in Hall. by rewrite Hp in Hall.
  - split; [done|]. rewrite Hf. split_and!; [done..|by rewrite <-Hl|done].
Qed.

(** Giving up claims. *)
Lemma ceng_weaken C C' e cur com b0 :
  (∀ x v, C' !! x = Some v → C !! x = Some v) → ceng C e cur com b0 → ceng C' e cur com b0.
Proof.
  intros Hsub (h&rest&packed&Hd&Hcur). exists h, rest, packed. split; [|done]. destruct Hd. split; try done.
  by eapply (claimed_weaken C).
Qed.

(** Retiring a block: it is freed after the next header commit. *)
Lemma claim_retire C e cur com b0 loc o data :
  ceng C e cur com b0 → C !! addr loc = Some (o, Whole LiveMid (blk_len loc) data) →
  let e' := set_alloc (Allocator.retire_block (alloc e) loc) e in
  base e e' ∧ ceng (delete (addr loc) C) e' cur com b0.
Proof.
  intros (h&rest&packed&Hd&Hcur) Hx. pose proof (d_heap _ _ _ _ _ _ Hd) as Hh.
  pose proof (d_ext _ _ _ _ _ _ Hd) as (own&packs&Hp&Hcl).
  destruct (cb_claims _ _ _ _ _ _ Hcl _ _ _ Hx) as [_ (_&Hin&_&_&Hdef)].
  assert (block_of loc LiveMid ∈ rest) as Hblk by (rewrite Hp; apply elem_of_app; by left).
  pose proof Hh as [Hi Hn Hf Hnd].
  assert (all_disjoint (own ++ (pack_block <$> packs))) as Hall.
  { pose proof (g_disj _ _ _ _ _ (i_geo _ _ _ _ Hi)) as Hall. apply all_disjoint_suffix in Hall. by rewrite Hp in Hall. }
  assert (0 < b_size (block_of loc LiveMid)) as Hpos
    by (apply (live_in_store _ _ _ _ _ Hi); apply elem_of_app; by right). cbn in Hpos.
  unfold set_alloc. eapply eng_set_store; [exact Hd|exact Hcur|split; cbn|exists own, packs; split; [done|]|by split|cbn; lia|done].
  - eapply inv_retire; [done|by apply elem_of_app; right|done|done].
  - done.
  - done.
  - intros y Hy. rewrite fmap_app. cbn. intros [?|Heq%list_elem_of_singleton]%elem_of_app; [by eapply Hnd|].
    pose proof (g_disj _ _ _ _ _ (i_geo _ _ _ _ Hi)) as Hd0. subst y.
    apply (all_disjoint_app _ _ (node_block (addr loc)) (block_of loc LiveMid) Hd0 ltac:(by apply elem_of_node_blocks) Hblk (addr loc));
      unfold in_block; cbn; [unfold NODE_ALLOC_SIZE; block_lia|lia].
  - destruct Hcl as [Hpc Ho Hk Hc]. cbn [fst snd]. split; [done|done| |].
    + intros base Hbase. destruct (Hk base Hbase) as [? Hnb]. split; [done|]. cbn. rewrite fmap_app.
      intros [?|Heq%list_elem_of_singleton]%elem_of_app; [done|]. cbn in Heq. subst base.
      apply (all_disjoint_app _ _ (block_of loc LiveMid) (pack_block (addr loc)) Hall Hin
        ltac:(apply list_elem_of_fmap; eauto) (addr loc)); unfold in_block; cbn; block_lia.
    + intros x o' cl [Hne Hx']%lookup_delete_Some. destruct (Hc x o' cl Hx') as [? Hok]. split; [done|].
      destruct cl as [r len d|d]; [|done]. destruct Hok as (?&?&?&?&Hnx). split_and!; [done..|]. cbn. rewrite fmap_app.
      intros [?|Heq%list_elem_of_singleton]%elem_of_app; [done|]. cbn in Heq. congruence.
Qed.

End engines.
