(* ===== verification/ContentPlace.v ===== *)
(** * Placing fragments

    Runs of store operations ([soutcome]), and the steps a write is made of on
    the claims of the store: sealing a ciphertext into a fresh place, moving an
    old version to the eviction tail, deferring an overwrite in place and
    performing the deferred ones. *)

From S2P Require Import Prelude.
From S2P Require Import BTree.
From S2P Require Import Posix.
From S2P Require Import Vector.
From S2P Require Import Block.
From S2P Require Import Backend.
From S2P Require Import Crypto.
From S2P Require Import Header.
From S2P Require Import Alloc.
From S2P Require Import AllocInv.
From S2P Require Import Unit.
From S2P Require Import Retention.
From S2P Require Import WriterSet.
From S2P Require Import Trie.
From S2P Require Import Records.
From S2P Require Import NodeHeap.
From S2P Require Import TrieMap.
From S2P Require Import Catalog.
From S2P Require Import Engine.
From S2P Require Import Store.
From S2P Require Import StoreView.
From S2P Require Import Content.
From S2P Require Import EngineInv.
From S2P Require Import ContentHeap.
Import PosixFile.

Section content_place.
Context `{!Crc32, !Hkdf, !Hmac, !Aes, !AesGcm, !Entropy, !Ed25519, !UuidSource}.

(** ** Runs of store operations *)

(** A run from [s0]: it returns, fails as [F] says, or reports a full device
    with the published state intact; it unwinds only when the store or the
    commit counter is exhausted. *)
Definition soutcome {A} (s0 : Store) (com : maps) (b0 : Backend.t) (r : res A * Store)
    (Q : A → Store → Prop) (F : Error → Store → Prop) : Prop :=
  match r with
  | (Ok v, s') => Q v s'
  | (Err er, s') => F er s' ∨
      er = Io StorageFull ∧ Backend.no_grow (bk s0) = true ∧ base (engine s0) (engine s') ∧
      safe (X := no_claims) (engine s') com b0
  | (Panic, s') => exhausted (engine s')
  end.

Lemma soutcome_bind {A B} s0 com b0 s (m : SM A) (f : A → SM B) Q1 Q F :
  soutcome s0 com b0 (m s) Q1 F → (∀ v s', Q1 v s' → soutcome s0 com b0 (f v s') Q F) →
  soutcome s0 com b0 ((m ≫= f) s) Q F.
Proof. unfold soutcome. rewrite bind_run. destruct (m s) as [[v|er|] s']; [intros HQ Hf; by apply Hf|done..]. Qed.

Lemma soutcome_mono {A} s0 com b0 (r : res A * Store) (Q Q' : A → Store → Prop) (F F' : Error → Store → Prop) :
  soutcome s0 com b0 r Q F → (∀ v s', Q v s' → Q' v s') → (∀ er s', F er s' → F' er s') →
  soutcome s0 com b0 r Q' F'.
Proof. unfold soutcome. destruct r as [[v|er|] s']; naive_solver. Qed.

Lemma soutcome_base {A} s s1 com b0 (r : res A * Store) Q F :
  base (engine s) (engine s1) → soutcome s1 com b0 r Q F → soutcome s com b0 r Q F.
Proof.
  intros Hb. unfold soutcome, bk. destruct r as [[v|er|] s2]; [done| |done].
  intros [?|(?&?&?&?)]; [by left|right]. split_and!; try done; [by destruct Hb as (_&_&_&_&<-)|by eapply base_trans].
Qed.

Lemma run_asks {A B} (f : Store → A) (k : A → SM B) s : (asks f ≫= k) s = k (f s) s.
Proof. done. Qed.
Lemma run_asks_res {A B} (f : Store → res A) (k : A → SM B) s v : f s = Ok v → (asks_res f ≫= k) s = k v s.
Proof. intros Hf. rewrite bind_run. unfold asks_res. by rewrite Hf. Qed.
Lemma run_update {B} (f : Store → Store) (k : () → SM B) s : (update f ≫= k) s = k () (f s).
Proof. done. Qed.
Lemma run_lift {A B} (r : res A) (k : A → SM B) s v : r = Ok v → (lift r ≫= k) s = k v s.
Proof. by intros ->. Qed.
Lemma run_on_engine {A B} (m : EM A) (k : A → SM B) s v e' :
  m (engine s) = (Ok v, e') → (on_engine m ≫= k) s = k v (set_engine e' s).
Proof. intros Hm. rewrite bind_run. unfold on_engine. by rewrite Hm. Qed.

Lemma safe_weaken (X : HeapPred) e com b0 : safe (X := X) e com b0 → safe (X := no_claims) e com b0.
Proof. intros (h&rest&packed&[]). by exists h, rest, packed. Qed.

Lemma soutcome_engine {X : HeapPred} {A} s0 com b0 s (m : EM A) Q F (Q' : A → Store → Prop) (F' : Error → Store → Prop) :
  outcome (X := X) (engine s0) com b0 (m (engine s)) Q F →
  (∀ v e', Q v e' → Q' v (set_engine e' s)) → (∀ er e', F er e' → F' er (set_engine e' s)) →
  soutcome s0 com b0 (on_engine m s) Q' F'.
Proof.
  intros Ho HQ HF. unfold soutcome, on_engine, outcome in *. destruct (m (engine s)) as [[v|er|] e'].
  - auto.
  - destruct Ho as [?|(?&?&?&?)]; [left; auto|right]. split_and!; try done. by eapply safe_weaken.
  - done.
Qed.

(** ** Configuration *)

(** The fields of the header that no operation of the content path changes. *)
Definition config (h : ContainerHeader) : Z * Z * SignMode * bytes * Z * bool * option bytes :=
  (cipher h, content_cipher h, sign_mode h, writer_pubkey h, hdr_key_epoch h, pad_blocks h, writer_set h).

(** What publication and the requests on names leave alone. *)
Definition calm (e e' : Engine) : Prop :=
  config (header e') = config (header e) ∧ RecordCache.map (record_cache e') ⊆ RecordCache.map (record_cache e).
Definition calmly {A} (m : EM A) : Prop := ∀ e, calm e (m e).2.

#[local] Instance calm_preorder : PreOrder calm.
Proof. split; [done|]. intros e1 e2 e3 [] []. split; [congruence|by etrans]. Qed.

Lemma calmly_bind {A B} (m : EM A) (k : A → EM B) : calmly m → (∀ v, calmly (k v)) → calmly (m ≫= k).
Proof.
  intros Hm Hk e. rewrite bind_run. specialize (Hm e). destruct (m e) as [[v|?|] e1]; [|done..].
  etrans; [exact Hm|apply Hk].
Qed.
Lemma calmly_modify f : (∀ e, calm e (f e)) → calmly (modify f).
Proof. intros Hf e. apply Hf. Qed.
Lemma calmly_on_key {A} (m : Trie → TM (A * Trie)) : calmly (on_key m).
Proof. intros e. unfold on_key. by destruct (m _ _) as [[[]| |] ?]. Qed.
Lemma calmly_or_abort m : calmly m → calmly (or_abort m).
Proof. intros Hm e. unfold or_abort. specialize (Hm e). by destruct (m e) as [[?|?|] e1]. Qed.

Lemma calmly_key_put path u : calmly (key_put path u).
Proof. apply calmly_on_key. Qed.
Lemma calmly_key_remove path : calmly (key_remove path).
Proof. apply calmly_on_key. Qed.
Lemma calmly_forget path : calmly (forget path).
Proof. by apply calmly_modify. Qed.
Lemma calmly_key_get path : calmly (key_get path).
Proof. done. Qed.
Lemma calmly_lift {A} (r : res A) : calmly (lift r).
Proof. by intros e. Qed.

Lemma calmly_commit next : calmly (or_abort (commit_header next)).
Proof. apply calmly_or_abort. intros e. unfold commit_header. by destruct (commit _ _ _). Qed.

Lemma calmly_publish : calmly publish.
Proof.
  unfold publish. apply calmly_bind; [done|]. intros []; [done|].
  apply calmly_bind; [apply calmly_modify; split; [done|apply map_empty_subseteq]|]. intros _.
  apply calmly_bind; [by apply calmly_or_abort|]. intros _ e.
  rewrite run_gets, run_modify, !run_gets, bind_run. unfold lift. destruct (add64 _ 1) as [seq| |]; [|done..].
  rewrite run_gets. set (next := next_header _ _ _ _). assert (config next = config (header e)) as Hn by done. clearbody next.
  rewrite bind_run. set (e1 := set_pending_wal None e). pose proof (calmly_commit next e1) as Hc.
  destruct (or_abort (commit_header next) e1) as [[[]| |] e2]; [|done..]. rewrite !run_modify.
  unfold publish_deferred. destruct Hc. by destruct (Allocator.publish_deferred _).
Qed.


Lemma on_id_record_cache {A} (m : Trie → TM (A * Trie)) e r e' :
  on_id m e = (r, e') → record_cache e' = record_cache e.
Proof. unfold on_id. destruct (m _ _) as [[[]| |] ?]; by intros [= _ <-]. Qed.
Lemma on_key_record_cache {A} (m : Trie → TM (A * Trie)) e r e' :
  on_key m e = (r, e') → record_cache e' = record_cache e.
Proof. unfold on_key. destruct (m _ _) as [[[]| |] ?]; by intros [= _ <-]. Qed.

(** ** Filling a fresh block *)

(** A step that publishes nothing and leaves the caches alone. *)
Definition quiet (s s' : Store) : Prop :=
  base (engine s) (engine s') ∧ resolve_cache (engine s') = resolve_cache (engine s) ∧
  record_cache (engine s') = record_cache (engine s) ∧ wal_overlay s' = wal_overlay s ∧
  local_alias s' = local_alias s ∧ signing_key s' = signing_key s ∧ loaded_writer_set s' = loaded_writer_set s.

Lemma quiet_refl s : quiet s s.
Proof. done. Qed.
Lemma quiet_trans s1 s2 s3 : quiet s1 s2 → quiet s2 s3 → quiet s1 s3.
Proof.
  intros (Hb&?&?&?&?&?&?) (Hb'&?&?&?&?&?&?). split_and!; [by eapply base_trans|congruence..].
Qed.
Lemma quiet_hdr s s' : quiet s s' → hdr s' = hdr s ∧ root_key (engine s') = root_key (engine s).
Proof. by intros ((?&?&_)&_). Qed.
Lemma quiet_set_store s st : base (engine s) (set_store st (engine s)) → quiet s (set_engine (set_store st (engine s)) s).
Proof. done. Qed.

Lemma on_store_bind {A B} (m : TM A) (k : A → TM B) s :
  (on_engine (on_store m) ≫= λ x, on_engine (on_store (k x))) s = on_engine (on_store (m ≫= k)) s.
Proof.
  rewrite bind_run. unfold on_engine, on_store. rewrite bind_run.
  destruct (m (Engine.store (engine s))) as [[v|er|] st]; [|done..]. cbn. by destruct (k v st) as [[] st'].
Qed.

Lemma write_block_run x data a b b' n :
  Backend.write_at b x data = Ok b' → write_block x data ((a, b), n) = (Ok (), ((a, b'), n)).
Proof. intros Hw. unfold write_block, on_ab, Allocator.on_backend. by rewrite Hw. Qed.

Lemma set_store_same e : set_store (Engine.store e) e = e.
Proof. by destruct e. Qed.
Lemma set_engine_same s : set_engine (engine s) s = s.
Proof. by destruct s. Qed.

(** The result of an allocator call, put back in the store. *)
Definition back {A} (s : Store) (r : res A * ((Allocator.t * Backend.t) * nat)) : res A * Store :=
  (r.1, set_engine (set_store r.2 (engine s)) s).

Lemma on_ab_cases {A B} com b0 s (m : Allocator.M A) (k : A → TM B) Q F :
  safe (X := no_claims) (engine s) com b0 →
  match m (alloc (engine s), backend (engine s)) with
  | (Ok v, ab) => soutcome s com b0 (back s (k v (ab, (Engine.store (engine s)).2))) Q F
  | (Err er, s') => er = Io StorageFull ∧ Backend.no_grow (bk s) = true ∧ s' = (alloc (engine s), backend (engine s))
  | (Panic, (_, b')) => 2 ^ 61 ≤ Backend.len b'
  end →
  soutcome s com b0 (on_engine (on_store (on_ab m ≫= k)) s) Q F.
Proof.
  intros Hsafe Hm. unfold on_engine, on_store. rewrite bind_run. unfold on_ab.
  destruct s as [e]. destruct e as [[[a b] n]]. cbn in *.
  destruct (m (a, b)) as [[v|er|] [a' b']].
  - unfold back in Hm. cbn in Hm. by destruct (k v (a', b', n)) as [[] st'].
  - destruct Hm as (->&?&[= -> ->]). right. split_and!; [done|done|done|]. done.
  - cbn. left. done.
Qed.

Lemma alloc_block_spec {A} C s cur com b0 len r (k : BlockLoc → TM A) Q F :
  ceng C (engine s) cur com b0 → u32 len →
  (∀ loc a1 b1 n, blk_len loc = len → 2 * BASE_BLOCK ≤ addr loc → addr loc + footprint len < 2 ^ 63 →
    C !! addr loc = None →
    (∀ data n' o, blen data = footprint len → ∃ b2, Backend.write_at b1 (addr loc) data = Ok b2 ∧
       let e' := set_store ((a1, b2), n') (engine s) in
       base (engine s) e' ∧ ceng (claim_in r (addr loc) len data o C) e' cur com b0) →
    soutcome s com b0 (back s (k loc ((a1, b1), n))) Q F) →
  soutcome s com b0 (on_engine (on_store (on_ab (Allocator.alloc_aligned len r) ≫= k)) s) Q F.
Proof.
  intros Hc Hlen Hk. apply on_ab_cases; [by eapply safe_weaken, eng_safe|].
  pose proof (alloc_fill_spec C _ _ _ _ len r Hc Hlen) as Hal. destruct (Allocator.alloc_aligned _ _ _) as [[loc|er|] [a1 b1]]; [|done..].
  destruct Hal as (?&?&?&?&?). by apply Hk.
Qed.

(** The claim that [loc] holds the ciphertext [ct]. *)
Definition holds_ct (loc : BlockLoc) (ct : bytes) (c : Claim) : Prop :=
  blk_len loc = blen ct ∧ 0 < blen ct ∧
  (blen ct < BASE_BLOCK ∧ c = Piece ct ∨
   BASE_BLOCK ≤ blen ct ∧ c = Whole LiveMid (blen ct) (padded_block ct)).

Lemma place_spec C s cur com b0 o ct F :
  ceng C (engine s) cur com b0 → 0 < blen ct < 2 ^ 32 →
  soutcome s com b0 (on_engine (on_store (place_content_fragment ct)) s)
    (λ loc s', quiet s s' ∧ C !! addr loc = None ∧ is_hole loc = false ∧ loc_ok loc ∧
       ∃ c, holds_ct loc ct c ∧ ceng (<[addr loc := (o, c)]> C) (engine s') cur com b0) F.
Proof.
  intros Hc Hl. unfold place_content_fragment. rewrite Z.mod_small by lia.
  assert (∀ x, 2 * BASE_BLOCK ≤ x → is_hole (mkBlockLoc x (blen ct)) = false) as Hhole.
  { intros x Hx. unfold is_hole. cbn. unfold BASE_BLOCK in *. by replace (x =? 0) with false by lia. }
  replace (0 <? blen ct) with true by lia. cbn [andb]. destruct (Z.ltb_spec (blen ct) BASE_BLOCK) as [Hs|Hs].
  - apply on_ab_cases; [by eapply safe_weaken, eng_safe|].
    pose proof (alloc_packed_fill_spec C _ _ _ _ (blen ct) Hc ltac:(lia)) as Hal.
    destruct (Allocator.alloc_packed _ _) as [[x|er|] [a1 b1]]; [|done..]. destruct Hal as (Hlo&Hhi&Hn&Hf).
    destruct (Hf ct (Engine.store (engine s)).2 o eq_refl) as (b2&Hw&Hb&Hc').
    unfold back. rewrite bind_run, (write_block_run _ _ _ _ _ _ Hw). cbn. split_and!; [by apply quiet_set_store|done|auto|..].
    + split; cbn; unfold BASE_BLOCK in *; width_lia.
    + exists (Piece ct). split; [|done]. split_and!; [done|lia|by left].
  - apply (alloc_block_spec C _ cur); [done|width_lia|]. intros loc a1 b1 n Hbl Hlo Hhi Hn Hf.
    destruct (Hf (padded_block ct) n o) as (b2&Hw&Hb&Hc'); [apply blen_padded|].
    unfold back. rewrite bind_run, (write_block_run _ _ _ _ _ _ Hw). cbn. split_and!; [by apply quiet_set_store|done|auto|..].
    + destruct (blen_padded ct). split; cbn; unfold BASE_BLOCK in *; width_lia.
    + exists (Whole LiveMid (blen ct) (padded_block ct)). split; [|done]. split_and!; [done|lia|by right].
Qed.

(** A block that holds a ciphertext can be read back. *)
Lemma holds_ct_read C e cur com b0 loc o ct c :
  ceng C e cur com b0 → C !! addr loc = Some (o, c) → holds_ct loc ct c →
  2 * BASE_BLOCK ≤ addr loc ∧ Backend.read_at (backend e) (addr loc) (blk_len loc) = Ok ct.
Proof.
  intros Hc Hx (Hl&_&Hcase). destruct (claim_read _ _ _ _ _ _ _ _ Hc Hx) as [Hlo Hr]. split; [done|].
  destruct Hcase as [[? ->]|[? ->]]; [by rewrite Hl|]. destruct Hr as (_&_&_&Hr).
  destruct (blen_padded ct) as [_ ?]. pose proof (blen_nonneg ct). rewrite Hl, Hr by lia. f_equal.
  unfold padded_block, blen. by rewrite Nat2Z.id, take_app_length.
Qed.

Lemma evict_fragment_spec C s cur com b0 u frag ver loc o ct c ia seq F :
  ceng C (engine s) cur com b0 → C !! addr loc = Some (o, c) → holds_ct loc ct c → blen ct < 2 ^ 31 → blen u = 16 →
  soutcome s com b0 (evict_block u frag ver loc [] ia seq s)
    (λ _ s', quiet s s' ∧ inplace_undo_journaled (engine s') = inplace_undo_journaled (engine s) ∧
       ceng C (engine s') cur com b0) F.
Proof.
  intros Hc Hx Hh Hl Hu. destruct (holds_ct_read _ _ _ _ _ _ _ _ _ Hc Hx Hh) as [_ Hr].
  unfold evict_block. rewrite run_asks, (run_asks_res _ _ _ _ Hr), on_store_bind.
  set (enc := encode_evicted _). assert (blen enc < 2 ^ 32) as Hb.
  { unfold enc, encode_evicted, evict_header. cbn [eb_uuid eb_commits eb_bytes concat]. autorewrite with blen.
    change (blen EVICT_MAGIC) with 8. lia. }
  pose proof (blen_nonneg enc). rewrite Z.mod_small by lia. clearbody enc.
  apply (alloc_block_spec C _ cur); [done|width_lia|]. intros l a1 b1 n Hbl Hlo Hhi Hn Hf.
  destruct (Hf (padded_block enc) n o) as (b2&Hw&Hbs&Hc'); [apply blen_padded|].
  unfold back. rewrite (write_block_run _ _ _ _ _ _ Hw). split_and!; [by apply quiet_set_store|done|done].
Qed.

(** ** Deferred overwrites *)

Section pending.
Context (u : bytes) (P : Z → Prop).

(** Performing the overwrites [G] of fragments in [P] turns the claims [C]
    into [V]. *)
Inductive pending_ok : Claims → list (Z * bytes) → Claims → Prop :=
| pending_nil C : pending_ok C [] C
| pending_cons C x blk G V i len len' old :
    P i → C !! x = Some (FragOf u i, Whole LiveMid len old) →
    footprint len' = footprint len → blen blk = footprint len →
    pending_ok (<[x := (FragOf u i, Whole LiveMid len' blk)]> C) G V →
    pending_ok C ((x, blk) :: G) V.

Lemma pending_snoc C G V x blk i len len' old :
  pending_ok C G V → P i → V !! x = Some (FragOf u i, Whole LiveMid len old) →
  footprint len' = footprint len → blen blk = footprint len →
  pending_ok C (G ++ [(x, blk)]) (<[x := (FragOf u i, Whole LiveMid len' blk)]> V).
Proof.
  induction 1 as [C|C y blk' G V j l l' old' Hj Hy Hf Hb _ IH]; intros; cbn.
  - by econstructor; [..|constructor].
  - by econstructor; [..|apply IH].
Qed.

Lemma pending_none C G V x : pending_ok C G V → C !! x = None → V !! x = None.
Proof.
  induction 1 as [C|C y blk' G V j l l' old' Hj Hy Hf Hb _ IH]; intros Hx; [done|]. apply IH.
  rewrite lookup_insert_ne; [done|]. congruence.
Qed.

(** A fresh block does not interfere. *)
Lemma pending_fresh C G V x v :
  pending_ok C G V → C !! x = None → pending_ok (<[x := v]> C) G (<[x := v]> V).
Proof.
  induction 1 as [C|C y blk' G V j l l' old' Hj Hy Hf Hb _ IH]; intros Hx; [constructor|].
  assert (x ≠ y) by congruence. eapply pending_cons; [done|by rewrite lookup_insert_ne|done|done|].
  rewrite insert_insert_ne by done. apply IH. by rewrite lookup_insert_ne.
Qed.

(** The claims of others are not pending. *)
Lemma pending_other C G V x o c :
  pending_ok C G V → (∀ i, P i → o ≠ FragOf u i) → V !! x = Some (o, c) → C !! x = Some (o, c).
Proof.
  induction 1 as [C|C y blk' G V j l l' old' Hj Hy Hf Hb _ IH]; intros Ho Hx; [done|].
  specialize (IH Ho Hx). apply lookup_insert_Some in IH as [[_ [= Hjo _]]|[_ ?]]; [|done].
  by destruct (Ho j Hj).
Qed.

Lemma drain_run C G V e cur com b0 :
  pending_ok C G V → ceng C e cur com b0 →
  ∃ st, apply_inplace G (Engine.store e) = (Ok (), st) ∧ base e (set_store st e) ∧ ceng V (set_store st e) cur com b0.
Proof.
  intros HG. revert e. induction HG as [C|C y blk G V j l l' old Hj Hy Hf Hb _ IH]; intros e Hc.
  - exists (Engine.store e). by rewrite set_store_same.
  - destruct (claim_overwrite _ _ _ _ _ _ _ _ _ _ l' blk (Engine.store e).2 Hc Hy Hf Hb) as (b2&Hw&Hbs&Hc').
    destruct (IH _ Hc') as (st&Hrun&Hbs'&Hc2). exists st. cbn [apply_inplace].
    rewrite bind_run. replace (Engine.store e) with ((alloc e, backend e), (Engine.store e).2) at 1
      by (unfold alloc, backend; by destruct (Engine.store e) as [[]]).
    rewrite (write_block_run _ _ _ _ _ _ Hw). split_and!; [exact Hrun|by eapply base_trans|exact Hc2].
Qed.

End pending.

Lemma pending_mono u (P P' : Z → Prop) C G V :
  pending_ok u P C G V → (∀ i, P i → P' i) → pending_ok u P' C G V.
Proof. induction 1; intros; econstructor; eauto. Qed.

Lemma drain_spec u P C G V s cur com b0 F :
  pending_ok u P C G V → ceng C (engine s) cur com b0 →
  soutcome s com b0 (drain_inplace G s)
    (λ _ s', quiet s s' ∧ inplace_undo_journaled (engine s') = inplace_undo_journaled (engine s) ∧
       ceng V (engine s') cur com b0) F.
Proof.
  intros HG Hc. destruct (drain_run _ _ _ _ _ _ _ _ _ HG Hc) as (st&Hrun&Hb&Hc').
  unfold drain_inplace. rewrite (run_on_engine _ _ _ () (engine s)).
  2: { unfold flush_backend. done. }
  unfold soutcome, on_engine, on_store. cbn. rewrite Hrun. split_and!; done.
Qed.

(** ** One fragment of a write *)

(** The committed block of fragment [frag], when it has one. *)
Definition slot_ok (C : Claims) (u : bytes) (old : UnitRecord) (frag : Z) : Prop :=
  ∀ l, existing_loc old frag = Some l →
    ∃ ct c osm ver, C !! addr l = Some (FragOf u frag, c) ∧ holds_ct l ct c ∧ blen ct < 2 ^ 31 ∧
      old_stream old = Some osm ∧ index_list (sm_unit_map osm) frag = Ok ver.

(** The claims of other owners are kept. *)
Definition keeps (P : Owner → Prop) (C C' : Claims) : Prop :=
  ∀ x o c, C !! x = Some (o, c) → ¬ P o → C' !! x = Some (o, c).

Lemma keeps_refl P C : keeps P C C.
Proof. by intros x o c. Qed.
Lemma keeps_chain (P : Owner → Prop) C1 C2 C3 : keeps P C1 C2 → keeps P C2 C3 → keeps P C1 C3.
Proof. intros H1' H2' x o c ??. auto. Qed.
Lemma keeps_weaken (P Q : Owner → Prop) C C' : keeps P C C' → (∀ o, P o → Q o) → keeps Q C C'.
Proof. intros Hk HP x o c ? Ho. apply Hk; auto. Qed.
Lemma keeps_unclaimed P C x v : C !! x = None → keeps P C (<[x := v]> C).
Proof. intros Hx y o c Hy _. rewrite lookup_insert_ne; [done|]. congruence. Qed.
Lemma keeps_insert (P : Owner → Prop) C x o c o' c' : C !! x = Some (o, c) → P o → keeps P C (<[x := (o', c')]> C).
Proof. intros Hx HP y o2 c2 Hy Hn. rewrite lookup_insert_ne; [done|]. congruence. Qed.

(** What placing a version achieves: the block of [loc] will hold [ct] once the
    pending overwrites are done. *)
Definition placed (u : bytes) (frag : Z) (P : Z → Prop) (V : Claims) (s : Store) (ct : bytes) (cur com : maps) (b0 : Backend.t)
    (loc : BlockLoc) (G : list (Z * bytes)) (s' : Store) : Prop :=
  quiet s s' ∧ is_hole loc = false ∧ loc_ok loc ∧
  ∃ C' V' c, pending_ok u (λ i, P i ∨ i = frag) C' G V' ∧ ceng C' (engine s') cur com b0 ∧ holds_ct loc ct c ∧
    V' !! addr loc = Some (FragOf u frag, c) ∧ keeps (λ o, o = FragOf u frag) V V'.

Lemma placed_quiet u frag P V s s1 ct cur com b0 loc G s' :
  quiet s s1 → placed u frag P V s1 ct cur com b0 loc G s' → placed u frag P V s ct cur com b0 loc G s'.
Proof. intros Hq (?&Hr). split; [by eapply quiet_trans|done]. Qed.

Lemma quiet_base s s' : quiet s s' → base (engine s) (engine s').
Proof. by intros (?&_). Qed.

Lemma ceng_undo C e cur com b0 v : ceng C e cur com b0 → ceng C (set_undo v e) cur com b0.
Proof. intros (h&rest&packed&[]&[]). by exists h, rest, packed. Qed.

(** A fresh place. *)
Lemma place_fresh_spec u frag P C V G (pb : Z) s ct cur com b0 F :
  ceng C (engine s) cur com b0 → pending_ok u P C G V → 0 < blen ct < 2 ^ 31 →
  soutcome s com b0
    ((loc ← on_engine (on_store (place_content_fragment ct)); mret (loc, G, pb)) s)
    (λ '(loc, G', _) s', placed u frag P V s ct cur com b0 loc G' s') F.
Proof.
  intros Hc HG Hl. eapply soutcome_bind; [by eapply (place_spec C s cur com b0 (FragOf u frag)); [|lia]|].
  intros loc s' (Hq&Hn&Hh&Hok&c&Hct&Hc'). split_and!; [done..|].
  exists (<[addr loc := (FragOf u frag, c)]> C), (<[addr loc := (FragOf u frag, c)]> V), c. split_and!.
  - eapply pending_mono; [by apply pending_fresh|auto].
  - done.
  - done.
  - by rewrite lookup_insert_eq.
  - apply keeps_unclaimed. by eapply pending_none.
Qed.

Lemma frag_owner_inj (P : Z → Prop) u frag : ¬ P frag → ∀ i, P i → FragOf u frag ≠ FragOf u i.
Proof. intros Hn i Hi [= ->]. done. Qed.

Lemma place_version_spec u frag P C V G pb s old ct cur com b0 F :
  ceng C (engine s) cur com b0 → pending_ok u P C G V → ¬ P frag → slot_ok V u old frag → blen u = 16 →
  0 < blen ct < 2 ^ 31 → commit_seq (hdr s) < 2 ^ 64 - 1 →
  soutcome s com b0 (place_version old u frag [] ct G pb s)
    (λ '(loc, G', _) s', placed u frag P V s ct cur com b0 loc G' s') F.
Proof.
  intros Hc HG Hfrag Hslot Hu Hl Hseq. unfold place_version. rewrite run_asks.
  rewrite (run_asks_res _ _ _ (commit_seq (hdr s) + 1)) by (unfold add64; by replace (_ <? 2 ^ 64) with true by lia).
  destruct (existing_loc old frag) as [l|] eqn:Eex; [|by eapply place_fresh_spec].
  destruct (Hslot l Eex) as (ct0&c0&osm&ver&Hx&Hct0&Hl0&Hosm&Hver). rewrite Hosm, Hver.
  pose proof (pending_other _ _ _ _ _ _ _ _ HG (frag_owner_inj P u frag Hfrag) Hx) as HxC.
  assert (∀ ia seq, soutcome s com b0 (evict_block u frag ver l [] ia seq s)
    (λ _ s', quiet s s' ∧ inplace_undo_journaled (engine s') = inplace_undo_journaled (engine s) ∧
       ceng C (engine s') cur com b0) F) as Hev by (intros ia seq; by eapply evict_fragment_spec).
  set (already := bool_decide _). set (jn := on_engine (modify _)).
  assert (∀ s1, quiet s s1 → ceng C (engine s1) cur com b0 → ∃ s2, jn s1 = (Ok (), s2) ∧ quiet s s2 ∧ ceng C (engine s2) cur com b0) as Hjn.
  { intros s1 Hq1 Hc1. eexists. split; [done|]. split; [exact Hq1|by apply ceng_undo]. }
  clearbody jn.
  destruct (negb _ && _ && _ && _) eqn:Ereuse.
  - rewrite (run_lift _ _ _ ver) by done. eapply soutcome_bind; [apply Hev|].
    intros [] s1 (Hq1&_&Hc1). destruct (Hjn s1 Hq1 Hc1) as (s2&Hj&Hq2&Hc2). rewrite bind_run, Hj.
    apply andb_true_iff in Ereuse as [[[Enp El]%andb_true_iff Er]%andb_true_iff _].
    apply negb_true_iff in Enp. replace (0 <? blen ct) with true in Enp by lia. cbn in Enp.
    destruct Hct0 as (Hbl0&Hpos0&Hcase). destruct Hcase as [[? _]|[_ ->]]; [lia|].
    rewrite !round_up_block_footprint in Er by lia. apply Z.eqb_eq in Er. rewrite Hbl0 in Er.
    pose proof (pending_snoc u (λ i, P i ∨ i = frag) C G V (addr l) (padded_block ct) frag (blen ct0) (blen ct) _
      ltac:(eapply pending_mono; [exact HG|auto]) ltac:(by right) Hx ltac:(by rewrite <-Er)
      ltac:(rewrite (proj1 (blen_padded ct)); congruence)) as HG'.
    rewrite Z.mod_small by lia. pose proof (claim_read _ _ _ _ _ _ _ _ Hc HxC) as [Hlo _].
    assert (u64 (addr l)) as Hu64.
    { destruct Hc as (h&rest&packed&Hd&_). pose proof (nh_inv _ _ _ _ _ _ _ (d_heap _ _ _ _ _ _ Hd)) as Hi.
      pose proof (d_ext _ _ _ _ _ _ Hd) as (own&packs&Hp&Hcl).
      destruct (cb_claims _ _ _ _ _ _ Hcl _ _ _ HxC) as [_ (_&Hin&_)].
      pose proof (live_in_store _ _ _ _ _ Hi ltac:(apply elem_of_app; right; rewrite Hp; apply elem_of_app; by left)) as (?&?&?).
      cbn in *. pose proof (inv_small _ _ _ _ Hi). unfold BASE_BLOCK in *. width_lia. }
    assert (∀ s3 C3 G3, quiet s s3 → pending_ok u (λ i, P i ∨ i = frag) C3 G3
        (<[addr l := (FragOf u frag, Whole LiveMid (blen ct) (padded_block ct))]> V) → ceng C3 (engine s3) cur com b0 →
        placed u frag P V s ct cur com b0 (mkBlockLoc (addr l) (blen ct)) G3 s3) as Hdone.
    { intros s3 C3 G3 Hq3 HG3 Hc3. split_and!; [done| |split; [done|cbn; width_lia]|].
      - unfold is_hole. cbn. unfold BASE_BLOCK in *. by replace (addr l =? 0) with false by lia.
      - eexists C3, _, _. split_and!; [exact HG3|done| |by rewrite lookup_insert_eq|by eapply keeps_insert].
        split_and!; [done|lia|]. right. split; [lia|done]. }
    case_match.
    + eapply soutcome_bind; [apply (soutcome_base _ _ _ _ _ _ _ (quiet_base _ _ Hq2)); by eapply drain_spec|].
      intros [] s3 (Hq3&_&Hc3). eapply Hdone; [by eapply quiet_trans|constructor|done].
    + by eapply Hdone.
  - assert (∀ s1, quiet s s1 → ceng C (engine s1) cur com b0 → soutcome s com b0
      ((loc ← on_engine (on_store (place_content_fragment ct)); mret (loc, G, pb)) s1)
      (λ '(loc, G', _) s', placed u frag P V s ct cur com b0 loc G' s') F) as Hfresh.
    { intros s1 Hq1 Hc1. apply (soutcome_base _ s1); [by apply quiet_base|].
      eapply soutcome_mono; [by eapply place_fresh_spec| |done]. intros [[loc G'] pb'] s'. by apply placed_quiet. }
    destruct already; [by apply Hfresh|].
    eapply (soutcome_bind _ _ _ _ _ _ (λ _ s1, quiet s s1 ∧ ceng C (engine s1) cur com b0)).
    + rewrite (run_lift _ _ _ ver) by done. eapply soutcome_bind; [apply Hev|]. intros [] s1 (Hq1&_&Hc1).
      destruct (Hjn s1 Hq1 Hc1) as (s2&Hj&Hq2&Hc2). by rewrite Hj.
    + intros [] s1 [Hq1 Hc1]. by apply Hfresh.
Qed.

End content_place.

#[export] Hint Resolve calmly_bind calmly_key_put calmly_key_remove calmly_forget calmly_key_get calmly_lift calmly_publish : calm.
