(* ===== verification/ContentInv.v ===== *)
(** * Files

    The invariant [files] relates a store to a finite map from units to files: a
    file is the byte string its fragments form and the counter of its last
    version.  The lemmas say how the invariant depends on the claims of the
    store, and what writing and installing a new head record does to it. *)

From S2P Require Import Prelude.
From S2P Require Import BTree.
From S2P Require Import Posix.
From S2P Require Import Vector.
From S2P Require Import Block.
From S2P Require Import Backend.
From S2P Require Import Crypto.
From S2P Require Import Header.
From S2P Require Import Alloc.
From S2P Require Import AllocInv.
From S2P Require Import Unit.
From S2P Require Import WriterSet.
From S2P Require Import Trie.
From S2P Require Import Records.
From S2P Require Import NodeHeap.
From S2P Require Import TrieMap.
From S2P Require Import Catalog.
From S2P Require Import Engine.
From S2P Require Import Store.
From S2P Require Import StoreView.
From S2P Require Import Content.
From S2P Require Import EngineInv.
From S2P Require Import ContentHeap.
From S2P Require Import ContentPlace.
Import PosixFile.

(** The bytes of a file, the counter of its last version, and the offsets whose
    fragments may be stored short of their length. *)
Record File := mkFile { f_data : bytes; f_counter : Z; f_short : list Z }.

(** The version vector of a stream that only [alias] has written. *)
Definition vv_at (alias n : Z) : VersionVector.t := VersionVector.mk (if n =? 0 then [] else [(alias, n)]).

Lemma bump_vv_at alias n :
  0 ≤ n < 2 ^ 48 → VersionVector.bump (vv_at alias n) alias = Ok (n + 1, vv_at alias (n + 1)).
Proof.
  intros Hn. unfold vv_at, VersionVector.bump. cbn. replace (n + 1 =? 0) with false by lia.
  destruct (Z.eqb_spec n 0) as [->|]; [done|]. cbn. rewrite Z.eqb_refl. cbn.
  unfold add64. by replace (n + 1 <? 2 ^ 64) with true by lia.
Qed.

Lemma vv_at_ok alias n :
  u16 alias → 0 ≤ n < 2 ^ 49 → VersionVector.wf (vv_at alias n) ∧ blen (VersionVector.entries (vv_at alias n)) ≤ 1.
Proof.
  intros Ha Hn. unfold vv_at, VersionVector.wf. destruct (Z.eqb_spec n 0); cbn; [done|].
  unfold blen. cbn. split_and!; [width_lia|done|lia|width_lia|done|lia].
Qed.

Section content_inv.
Context `{!Crc32, !Hkdf, !Hmac, !Aes, !AesGcm, !Entropy, !Ed25519, !UuidSource}.

(** ** Fragments and streams *)

(** Fragment [i] of the stream [sm] of [r] has the plaintext [p]: a hole has
    none, the block of any other one is claimed and opens to it. *)
Definition frag_stored (C : Claims) (s : Store) (r : UnitRecord) (sm : StreamMeta) (i : nat) (p : bytes) : Prop :=
  ∃ loc v, sm_locations sm !! i = Some loc ∧ sm_unit_map sm !! i = Some v ∧
    if is_hole loc then p = []
    else ∃ suite ct c, cipher_for_frag (hdr s) r (Z.of_nat i) = Ok suite ∧
      open suite (root_key (engine s)) (frag_ctx s (ur_uuid r) (Z.of_nat i) v) ct = Ok p ∧ blen ct < 2 ^ 31 ∧
      holds_ct loc ct c ∧ C !! addr loc = Some (FragOf (ur_uuid r) (Z.of_nat i), c).

(** The largest file: its record fits a block of 4 GiB for any fragment size. *)
Definition MAX_FILE : Z := 2 ^ 38.

(** Fragment [i] is a hole, or has one of the offsets [short], or is stored in
    full as [p]. *)
Definition hole_at (sm : StreamMeta) (i : nat) : Prop :=
  ∃ loc, sm_locations sm !! i = Some loc ∧ is_hole loc = true.
Definition short_at (sm : StreamMeta) (short : list Z) (i : nat) : Prop :=
  ∃ x, x ∈ short ∧ x `div` frag_bytes (sm_fragsize_exp sm) = Z.of_nat i.
Definition full_at (sm : StreamMeta) (short : list Z) (i : nat) (p : bytes) : Prop :=
  hole_at sm i ∨ short_at sm short i ∨ logical_frag_len sm (Z.of_nat i) ≤ blen p.

Record stream_held (C : Claims) (s : Store) (r : UnitRecord) (sm : StreamMeta) (plains : list bytes) (f : File) : Prop := {
  hs_shape : shaped sm (blen plains);
  hs_frags : ∀ i p, plains !! i = Some p → frag_stored C s r sm i p ∧ blen p ≤ frag_bytes (sm_fragsize_exp sm);
  hs_pins : sm_pins sm = [];
  hs_vv : sm_vv sm = vv_at (local_alias s) (f_counter f);
  hs_counter : 0 ≤ f_counter f < 2 ^ 48;
  hs_len : blen (f_data f) = stream_byte_len sm;
  hs_bytes : ∀ x, 0 ≤ x → frag_byte (sm_fragsize_exp sm) plains x = fbyte (f_data f) x;
  hs_small : stream_byte_len sm ≤ MAX_FILE;
  hs_full : ∀ i p, plains !! i = Some p → full_at sm (f_short f) i p;
}.

(** The head record at [a]. *)
Record rec_held (C : Claims) (s : Store) (u : bytes) (a : Z) (r : UnitRecord) : Prop := {
  rh_claim : ∃ len blk, C !! a = Some (RecordOf u, Whole CatalogHead len blk) ∧
    record_image (cipher (hdr s)) (root_key (engine s)) a r blk;
  rh_ok : unit_ok r;
  rh_fits : record_fits r;
  rh_auth : authorised r (sign_mode (hdr s)) (writer_pubkey (hdr s)) (loaded_writer_set s) CurrentOrRemoved;
  rh_uuid : ur_uuid r = u;
}.

(** No unmerged strains, a metadata stream of bounded size in a block within
    2^63 bytes. *)
Definition slim (r : UnitRecord) : Prop :=
  ur_concurrent_strains r = [] ∧ ur_superseded r = [] ∧ blen (stream_bytes (ur_meta r)) ≤ 2 ^ 16 ∧
  match ur_meta r with Some m => Forall (λ l, addr l < 2 ^ 63) (sm_locations m) | None => True end.

Definition unit_held (C : Claims) (s : Store) (u : bytes) (f : File) (a : Z) : Prop :=
  ∃ r sm plains, rec_held C s u a r ∧ slim r ∧ ur_content r = Some sm ∧ stream_held C s r sm plains f.

(** The engine can sign a record of its own and seal a fragment. *)
Definition can_sign (s : Store) : Prop :=
  match sign_mode (hdr s) with
  | Unsigned => True
  | Signed => ∃ sk, signing_key s = Some sk ∧ keypair_pubkey sk = writer_pubkey (hdr s)
  | WriterSetMode => ∃ sk w, signing_key s = Some sk ∧ loaded_writer_set s = Some w ∧
      WriterSet.contains w (keypair_pubkey sk) = true
  end.
Record writer_ready (s : Store) : Prop := {
  wr_sign : can_sign s;
  wr_suite : ∃ suite, registry_get (content_cipher (hdr s)) = Some suite;
  wr_alias : u16 (local_alias s);
}.

Record files_with (C : Claims) (s : Store) (cur : maps) (F : gmap bytes File) (com : maps) (b0 : Backend.t) : Prop := {
  fw_eng : ceng C (engine s) cur com b0;
  fw_paths : coherent (engine s) cur.1;
  fw_units : ∀ u f, F !! u = Some f → ∃ a, cur.2 !! u = Some (le_bytes 8 a) ∧ u64 a ∧ unit_held C s u f a;
  fw_cache : ∀ u en, RecordCache.map (record_cache (engine s)) !! u = Some en →
    rec_held C s u (RecordCache.e_addr en) (RecordCache.rec en);
  fw_overlay : wal_overlay s = ∅;
  fw_ready : writer_ready s;
}.
Definition files (s : Store) (cur : maps) (F : gmap bytes File) (com : maps) (b0 : Backend.t) : Prop :=
  ∃ C, files_with C s cur F com b0.

(** ** Stability *)

(** The part of a store that the invariant depends on besides the claims. *)
Definition same_keys (s s' : Store) : Prop :=
  config (hdr s') = config (hdr s) ∧ root_key (engine s') = root_key (engine s) ∧
  local_alias s' = local_alias s ∧ signing_key s' = signing_key s ∧ loaded_writer_set s' = loaded_writer_set s.

Lemma quiet_keys s s' : quiet s s' → same_keys s s'.
Proof. intros ((?&Hh&_)&?&?&?&?&?&?). unfold same_keys, hdr. by rewrite Hh. Qed.

Lemma same_keys_trans s1 s2 s3 : same_keys s1 s2 → same_keys s2 s3 → same_keys s1 s3.
Proof. intros (?&?&?&?&?) (?&?&?&?&?). split_and!; congruence. Qed.

Ltac keys H := destruct H as ([= Kci Kcc Ksm Kpk Kep Kpad Kwr]&Krk&Kal&Ksk&Kws).

Lemma cipher_for_frag_config h h' r i : cipher h' = cipher h → cipher_for_frag h' r i = cipher_for_frag h r i.
Proof. intros Hc. unfold cipher_for_frag, content_frag_suite_id, record_content_suite. by rewrite Hc. Qed.

Lemma frag_stored_mono C C' s s' r sm i p :
  same_keys s s' → frag_stored C s r sm i p →
  (∀ x c, C !! x = Some (FragOf (ur_uuid r) (Z.of_nat i), c) → C' !! x = Some (FragOf (ur_uuid r) (Z.of_nat i), c)) →
  frag_stored C' s' r sm i p.
Proof.
  intros Hk (loc&v&Hl&Hv&Hcase) HC. keys Hk. exists loc, v. split_and!; [done..|]. destruct (is_hole loc); [done|].
  destruct Hcase as (suite&ct&c&?&Ho&?&?&?). exists suite, ct, c.
  rewrite (cipher_for_frag_config (hdr s)) by done. split_and!; [done| |done|done|auto].
  rewrite <-Ho. unfold frag_ctx. congruence.
Qed.

Lemma rec_held_mono C C' s s' u a r :
  same_keys s s' → rec_held C s u a r →
  (∀ c, C !! a = Some (RecordOf u, c) → C' !! a = Some (RecordOf u, c)) → rec_held C' s' u a r.
Proof.
  intros Hk [(len&blk&Hx&Himg) ? ? Hau ?] HC. keys Hk. split; try done.
  - exists len, blk. split; [auto|]. congruence.
  - congruence.
Qed.

Lemma stream_held_mono C C' s s' r sm plains f :
  same_keys s s' → stream_held C s r sm plains f →
  (∀ x i c, C !! x = Some (FragOf (ur_uuid r) i, c) → C' !! x = Some (FragOf (ur_uuid r) i, c)) →
  stream_held C' s' r sm plains f.
Proof.
  intros Hk [] HC. split; try done.
  - intros i p Hp. destruct (hs_frags0 i p Hp). split; [|done]. eapply frag_stored_mono; [done..|]. auto.
  - keys Hk. congruence.
Qed.

Lemma unit_held_mono (P : Owner → Prop) C C' s s' u f a :
  same_keys s s' → keeps P C C' → ¬ P (RecordOf u) → (∀ i, ¬ P (FragOf u i)) →
  unit_held C s u f a → unit_held C' s' u f a.
Proof.
  intros Hk HC Hr Hf (r&sm&plains&Hrec&Hs&Hc&Hst). exists r, sm, plains. split_and!; [|done..|].
  - eapply rec_held_mono; [done..|]. auto.
  - pose proof (rh_uuid _ _ _ _ _ Hrec) as Hu. eapply stream_held_mono; [done..|]. rewrite Hu. auto.
Qed.

Lemma writer_ready_keys s s' : same_keys s s' → writer_ready s → writer_ready s'.
Proof.
  intros Hk []. keys Hk. unfold can_sign in *. split; unfold can_sign; by rewrite ?Ksm, ?Ksk, ?Kpk, ?Kws, ?Kcc, ?Kal.
Qed.

(** ** Reading what is held *)

Lemma frag_stored_opens C s cur com b0 r sm i p :
  ceng C (engine s) cur com b0 → frag_stored C s r sm i p → opens_to s r sm i p.
Proof.
  intros Hc (loc&v&Hl&Hv&Hcase). exists loc. split; [done|]. destruct (is_hole loc); [done|].
  destruct Hcase as (suite&ct&c&?&Ho&_&Hct&Hx). exists v, suite. split_and!; [done..|].
  destruct (holds_ct_read _ _ _ _ _ _ _ _ _ Hc Hx Hct) as [_ Hr]. unfold read_fragment, bk. by rewrite Hr.
Qed.

Lemma stream_held_stored C s cur com b0 r sm plains f :
  ceng C (engine s) cur com b0 → stream_held C s r sm plains f → stored s r sm plains.
Proof. intros Hc []. split; [done|]. intros i p Hp. destruct (hs_frags0 i p Hp). split; [|done]. by eapply frag_stored_opens. Qed.

Lemma held_content C s r sm plains f : stream_held C s r sm plains f → f_data f = content sm plains.
Proof.
  intros []. unfold content, tabulate. apply segment_ext; [|done|].
  - rewrite <-hs_len0. apply blen_nonneg.
  - intros x Hx. by rewrite hs_bytes0 by lia.
Qed.

Lemma rec_read C s cur com b0 u a r :
  ceng C (engine s) cur com b0 → rec_held C s u a r → read_record_at s a = Ok r.
Proof.
  intros Hc [(len&blk&Hx&Himg) Hok Hfit Hau _]. destruct (claim_read _ _ _ _ _ _ _ _ Hc Hx) as (Hlo&Hbl&Hend&Hcon&_).
  unfold read_record_at. eapply read_record_image; [| | |by rewrite Hbl|done..].
  - destruct Hc as (h&rest&packed&Hd&_). apply (i_backend _ _ _ _ (nh_inv _ _ _ _ _ _ _ (d_heap _ _ _ _ _ _ Hd))).
  - block_lia.
  - unfold bk. lia.
Qed.

Lemma rec_held_unique C s cur com b0 u u' a r r' :
  ceng C (engine s) cur com b0 → rec_held C s u a r → rec_held C s u' a r' → r = r'.
Proof. intros Hc H1' H2'. pose proof (rec_read _ _ _ _ _ _ _ _ Hc H1'). pose proof (rec_read _ _ _ _ _ _ _ _ Hc H2'). congruence. Qed.

(** ** Records of bounded size *)

Lemma blen_counted {A} (enc : A → bytes) w l : (∀ x, blen (enc x) = w) → blen (counted enc l) = 4 + w * blen l.
Proof.
  intros Hw. unfold counted. rewrite blen_app, blen_le_bytes. f_equal.
  induction l as [|x l IH]; [change (0 = w * 0); lia|]. cbn [fmap list_fmap concat]. rewrite blen_app, Hw, IH, blen_cons. lia.
Qed.

Lemma blen_stream sm n :
  blen (sm_unit_map sm) = n → blen (sm_locations sm) = n → blen (VersionVector.entries (sm_vv sm)) ≤ 1 →
  sm_pins sm = [] → blen (encode_stream_meta sm) ≤ 40 + 20 * n.
Proof.
  intros Hm Hl Hv Hp. unfold encode_stream_meta, VersionVector.to_bytes. rewrite Hp.
  assert (blen (concat (VersionVector.entry_bytes <$> VersionVector.entries (sm_vv sm))) ≤ 10) as He.
  { destruct (VersionVector.entries (sm_vv sm)) as [|x [|y l]]; cbn [fmap list_fmap concat]; [done| |].
    - unfold VersionVector.entry_bytes. rewrite app_nil_r, blen_app, !blen_le_bytes. done.
    - autorewrite with blen in Hv. pose proof (blen_nonneg l). lia. }
  autorewrite with blen. rewrite (blen_counted _ 8) by (intros; apply blen_le_bytes).
  rewrite (blen_counted loc_bytes 12) by (intros; unfold loc_bytes; by rewrite blen_app, !blen_le_bytes).
  change (blen (counted pin_bytes [])) with 4. rewrite Hm, Hl. lia.
Qed.

Lemma slim_size r sm n :
  unit_ok r → slim r → ur_content r = Some sm → blen (sm_unit_map sm) = n → blen (sm_locations sm) = n →
  blen (VersionVector.entries (sm_vv sm)) ≤ 1 → sm_pins sm = [] → blen (ur_frag_suites r) ≤ n →
  blen (encode r) ≤ 2 ^ 17 + 22 * n.
Proof.
  intros Hok (Hs&Hsup&Hm&_) Hc ???? Hf. pose proof (blen_stream sm n) as Hsm.
  destruct Hok as (Hu&_&_&_&_&_&_&Hsig&Hdb&_). unfold encode, encode_fields. rewrite Hc, Hs, Hsup.
  cbn [stream_bytes]. unfold flagged.
  assert (blen (match ur_signature r with Some a => byte1 1 ++ id a | None => byte1 0 end) ≤ 65) as Hsz.
  { destruct (ur_signature r) as [sg|]; cbn in Hsig; [change (id sg) with sg|]; autorewrite with blen; lia. }
  assert (blen (match ur_db r with Some a => byte1 1 ++ db_bytes a | None => byte1 0 end) ≤ 34) as Hdz.
  { destruct (ur_db r); cbn in Hdb; [destruct Hdb; unfold db_bytes|]; autorewrite with blen; lia. }
  assert (blen (match ur_parent r with Some a => byte1 1 ++ le_bytes 8 a | None => byte1 0 end) ≤ 9) as Hpz.
  { destruct (ur_parent r); autorewrite with blen; lia. }
  assert (blen (match ur_content_suite r with Some a => byte1 1 ++ le_bytes 2 a | None => byte1 0 end) ≤ 3) as Hcz.
  { destruct (ur_content_suite r); autorewrite with blen; lia. }
  autorewrite with blen. rewrite blen_UNIT_MAGIC, (blen_counted (le_bytes 2) 2), !(blen_counted (le_bytes 8) 8) by (intros; apply blen_le_bytes).
  change (blen (A := Z) []) with 0. lia.
Qed.

(** The record of a new version. *)
Lemma successor_ok u old a sm n cc suites alias v :
  unit_ok old → ur_uuid old = u → slim old → u64 a → shaped sm n → 0 ≤ n ≤ 2 ^ 26 → sm_vv sm = vv_at alias v → u16 alias → 0 ≤ v < 2 ^ 48 →
  u32 (sm_last_frag_length sm) → sm_pins sm = [] → Forall u64 (sm_unit_map sm) → Forall loc_ok (sm_locations sm) → u16 cc →
  Forall u16 suites → blen suites ≤ n →
  let r := successor u old a (Some sm) (ur_meta old) cc suites in
  unit_ok r ∧ slim r ∧ blen (encode r) + 96 < 2 ^ 32.
Proof.
  intros Hok <- Hsl Ha Hsh Hn Hvv Hal Hv Hl32 Hp Hm Hl Hcc Hsu Hbs r.
  destruct (vv_at_ok alias v Hal ltac:(lia)) as [Hvwf Hvl]. rewrite <-Hvv in Hvwf, Hvl.
  destruct Hsh as [Hbm Hbl _ He _]. destruct Hsl as (_&_&Hmeta&Hmlow).
  assert (unit_ok r) as Hr.
  { destruct Hok as (?&_&?&_&_&_&_&_&?&_). unfold content_exp_ok, MIN_FRAGSIZE_EXP, MAX_FRAGSIZE_EXP in He.
    unfold unit_ok, stream_ok, content_exp_ok, list_ok. cbn -[Z.pow Z.lt Z.le]. rewrite Hp.
    split_and!; try done; try apply Forall_nil_2; unfold MIN_FRAGSIZE_EXP, MAX_FRAGSIZE_EXP; width_lia. }
  assert (slim r) as Hsl by done. split_and!; [done..|].
  pose proof (slim_size r sm n Hr Hsl eq_refl Hbm Hbl Hvl Hp Hbs). lia.
Qed.

Lemma held_count C s r sm plains f : stream_held C s r sm plains f → 0 ≤ blen plains ≤ 2 ^ 26.
Proof.
  intros []. pose proof (shaped_size _ _ hs_shape0 (blen_nonneg _)) as Hs. unfold MAX_FILE in *.
  destruct hs_shape0 as [_ _ _ He Hl]. pose proof (frag_bytes_pos _ He). pose proof (blen_nonneg plains).
  rewrite Hs in hs_small0. revert hs_small0. case_match; [lia|]. specialize (Hl ltac:(lia)). nia.
Qed.

Lemma successor_held C s u old a sm cc suites plains f :
  let r := successor u old a (Some sm) (ur_meta old) cc suites in
  stream_held C s r sm plains f → unit_ok old → ur_uuid old = u → slim old → u64 a → u16 (local_alias s) →
  u32 (sm_last_frag_length sm) → Forall u64 (sm_unit_map sm) → Forall loc_ok (sm_locations sm) → u16 cc →
  Forall u16 suites → blen suites ≤ blen plains →
  unit_ok r ∧ slim r ∧ blen (encode r) + 96 < 2 ^ 32.
Proof.
  intros r Hst ???????????. pose proof (held_count _ _ _ _ _ _ Hst). destruct Hst.
  by eapply (successor_ok u old a sm (blen plains) cc suites (local_alias s) (f_counter f)).
Qed.

(** ** Writing a head record *)

(** [r] or [r] with a signature. *)
Definition signs (r r' : UnitRecord) : Prop := r' = r ∨ ∃ sig, r' = set_signature r sig ∧ blen sig = 64.

Lemma sign_ready s r :
  can_sign s → ∃ r', sign_record r (sign_mode (hdr s)) (signing_key s) (loaded_writer_set s) (writer_pubkey (hdr s)) Fresh = Ok r' ∧
    authorised r' (sign_mode (hdr s)) (writer_pubkey (hdr s)) (loaded_writer_set s) CurrentOrRemoved ∧ signs r r'.
Proof.
  unfold can_sign. intros Hs. set (mode := sign_mode (hdr s)) in *. set (pk := writer_pubkey (hdr s)) in *.
  assert (∃ r', sign_record r mode (signing_key s) (loaded_writer_set s) pk Fresh = Ok r') as [r' Hr'].
  { unfold sign_record. destruct mode; [by eexists|..].
    - destruct Hs as (sk&->&_). by eexists.
    - destruct Hs as (sk&w&->&->&Hin). cbn [ok_or mbind res_bind]. rewrite Hin. by eexists. }
  exists r'. split; [done|]. apply sign_record_authorised in Hr' as (Hau&_&Hor).
  - split; [by eapply authorised_weaken|]. unfold signs. naive_solver.
  - unfold key_matches. destruct mode; [done| |done]. by destruct Hs as (sk&->&?).
Qed.

Lemma signs_ok r r' : signs r r' → unit_ok r → unit_ok r'.
Proof. intros [->|(sig&->&?)] Hr; [done|]. unfold unit_ok in *. cbn. destruct_and! Hr. by split_and!. Qed.

Lemma signs_size r r' : signs r r' → unit_ok r → blen (encode r') ≤ blen (encode r) + 64.
Proof.
  intros [->|(sig&->&Hsig)] Hr; [lia|]. unfold encode, encode_fields. cbn [ur_uuid ur_content ur_meta ur_parent
    ur_concurrent_strains ur_content_suite ur_frag_suites ur_signature ur_db ur_superseded set_signature].
  change (stream_flags (set_signature r sig)) with (stream_flags r). autorewrite with blen.
  cbn [flagged]. change (id sig) with sig. rewrite !blen_app, blen_byte1.
  destruct (ur_signature r) as [sg|] eqn:E; cbn [flagged]; autorewrite with blen; [change (id sg) with sg; pose proof (blen_nonneg sg)|]; lia.
Qed.

Lemma write_record_spec C s cur com b0 r F :
  ceng C (engine s) cur com b0 → can_sign s → unit_ok r → blen (encode r) + 96 < 2 ^ 32 →
  soutcome s com b0 (write_record r Fresh s)
    (λ a s', quiet s s' ∧ C !! a = None ∧ u64 a ∧ ∃ r' c, signs r r' ∧
       let C' := <[a := (RecordOf (ur_uuid r), c)]> C in
       ceng C' (engine s') cur com b0 ∧ rec_held C' s' (ur_uuid r) a r') F.
Proof.
  intros Hc Hs Hok Hfit. destruct (sign_ready s r Hs) as (r'&Hsign&Hau&Hsg).
  pose proof (signs_ok _ _ Hsg Hok) as Hok'. pose proof (signs_size _ _ Hsg Hok) as Hsz.
  assert (record_fits r') as Hfit' by (unfold record_fits; lia).
  assert (cipher (hdr s) = CIPHER_AES256_GCM) as Hgcm by (destruct Hc as (h&rest&packed&Hd&_); apply Hd).
  unfold write_record, write_unit_record. rewrite Hsign, Hgcm.
  change (on_engine (on_store (lift (Ok r') ≫= ?k)) s) with (on_engine (on_store (k r')) s). cbv beta zeta.
  change (CIPHER_AES256_GCM =? CIPHER_AES256_GCM) with true. cbv iota.
  pose proof (blen_nonneg (encode r')). rewrite !Z.mod_small by lia.
  assert (u32 (4 + 12 + (blen (encode r') + 16))) as Hu32 by width_lia. pose proof (footprint_spec _ Hu32) as (?&?&_).
  apply (alloc_block_spec C _ cur); [done|done|]. intros loc a1 b1 n Hbl Hlo Hhi Hn Hf.
  unfold back. rewrite bind_run. cbn [random_nonce]. set (ct := seal_with_nonce _ _ _ _).
  assert (blen ct = blen (encode r') + 16) as Hct by (unfold ct, blen, seal_with_nonce; rewrite gcm_length; lia).
  rewrite Hct, Z.eqb_refl. cbn [negb].
  set (body := le_bytes 4 _ ++ _). assert (blen body = 4 + 12 + (blen (encode r') + 16)) as Hb.
  { unfold body. autorewrite with blen. rewrite Hct. unfold blen at 1. rewrite draw_length. lia. }
  destruct (Hf (padded_block body) (S n) (RecordOf (ur_uuid r))) as (b2&Hw&Hbs&Hc'); [rewrite <-Hb; apply blen_padded|].
  rewrite bind_run, (write_block_run _ _ _ _ _ _ Hw). cbn [fst snd mret St_ret soutcome].
  split_and!; [by apply quiet_set_store|done|unfold BASE_BLOCK in *; width_lia|].
  eexists r', _. split; [done|]. cbv zeta. split; [exact Hc'|]. split; [|done..|by destruct Hsg as [->|(?&->&_)]].
  eexists _, _. split; [by rewrite lookup_insert_eq|]. unfold record_image, hdr. cbn [set_engine engine set_store header root_key].
  fold (hdr s). rewrite Hgcm. change (CIPHER_AES256_GCM =? CIPHER_AES256_GCM) with true. cbv iota.
  exists (draw n). split; [unfold blen; by rewrite draw_length|done].
Qed.

(** ** Loading a head record *)

Lemma id_get_spec X e K I com b0 u a :
  eng (X := X) e (K, I) com b0 → I !! u = Some (le_bytes 8 a) → u64 a → id_get u e = (Ok (Some a), e).
Proof.
  intros (h&rest&packed&Hd&Hc) Hu Ha. pose proof (current_crypto _ _ _ Hc) as [_ Hi].
  destruct Hc as [(Nk&Ni&_&Ht&_) _ _ _]. unfold id_get, get_uuid. rewrite <-Hi.
  rewrite (get_spec _ _ h _ I Ni); [|by eapply node_heap_reads, Hd|done]. cbn [mbind res_bind]. rewrite Hu.
  change (blen (le_bytes 8 a) =? 8) with true. cbn [negb]. by rewrite le_val_u64.
Qed.

(** Steps that only change the caches of paths. *)
Definition recached (s s' : Store) : Prop := ∃ rc, s' = set_engine (set_resolve_cache rc (engine s)) s.

Lemma files_recached C s cur F com b0 rc :
  files_with C s cur F com b0 → coherent (set_resolve_cache rc (engine s)) cur.1 →
  files_with C (set_engine (set_resolve_cache rc (engine s)) s) cur F com b0.
Proof.
  intros [] Hco. set (s' := set_engine _ s). assert (same_keys s s') as Hk by done. split; try done.
  - by apply eng_cache.
  - intros u f Hu. destruct (fw_units0 u f Hu) as (a&?&?&?). exists a. split_and!; [done..|].
    by eapply (unit_held_mono (λ _, False)); [done|apply keeps_refl|auto..].
  - intros u en Hu. eapply rec_held_mono; [done|by apply fw_cache0|done].
  - by eapply writer_ready_keys.
Qed.

Lemma load_head_spec C s K I F com b0 path u f msg :
  files_with C s (K, I) F com b0 → K !! path = Some u → F !! u = Some f →
  ∃ s' a r sm plains, load_head path msg s = (Ok (u, a, r), s') ∧ recached s s' ∧
    files_with C s' (K, I) F com b0 ∧ u64 a ∧ I !! u = Some (le_bytes 8 a) ∧
    rec_held C s' u a r ∧ slim r ∧ ur_content r = Some sm ∧ stream_held C s' r sm plains f.
Proof.
  intros Hf Hp Hu. pose proof (uuid_for_path_spec _ _ _ _ _ (fw_eng _ _ _ _ _ _ Hf) (fw_paths _ _ _ _ _ _ Hf) path) as Hup.
  rewrite Hp in Hup. destruct Hup as (rc&Hrun&Hco).
  pose proof (files_recached _ _ _ _ _ _ rc Hf Hco) as Hf'. set (s' := set_engine _ s) in *.
  destruct (fw_units _ _ _ _ _ _ Hf' u f Hu) as (a&HI&Ha&r&sm&plains&Hrec&Hsl&Hc&Hst).
  exists s', a, r, sm, plains. split; [|split_and!; try done; by exists rc].
  unfold load_head. rewrite (run_on_engine _ _ _ _ _ Hrun). fold s'.
  rewrite (run_on_engine _ _ _ (Some a) (engine s')) by (by eapply id_get_spec; [apply Hf'|..]).
  rewrite set_engine_same. rewrite (run_lift _ _ _ a) by done.
  rewrite (run_asks_res _ _ _ r) by (by eapply rec_read; [apply Hf'|]). done.
Qed.

(** ** Installing a head record *)

(** An operation that began at [s] has completed with the files [F]: inside a
    batch they are staged, otherwise they are published. *)
Definition settled (s : Store) (K I : gmap bytes bytes) (F : gmap bytes File) (com : maps) (b0 : Backend.t) (s' : Store) : Prop :=
  same_keys s s' ∧ suppress_commit (engine s') = suppress_commit (engine s) ∧
  Backend.no_grow (bk s') = Backend.no_grow (bk s) ∧
  if suppress_commit (engine s) then base (engine s) (engine s') ∧ files s' (K, I) F com b0
  else commit_seq (hdr s') = commit_seq (hdr s) + 1 ∧ files s' (K, I) F (K, I) (bk s').

(** Everything but the unit [u]. *)
Record others (C : Claims) (s : Store) (K I : gmap bytes bytes) (F : gmap bytes File) (com : maps) (b0 : Backend.t) (u : bytes) : Prop := {
  ot_eng : ceng C (engine s) (K, I) com b0;
  ot_paths : coherent (engine s) K;
  ot_units : ∀ u' f, F !! u' = Some f → u' ≠ u → ∃ a, I !! u' = Some (le_bytes 8 a) ∧ u64 a ∧ unit_held C s u' f a;
  ot_cache : ∀ u' en, RecordCache.map (record_cache (engine s)) !! u' = Some en →
    rec_held C s u' (RecordCache.e_addr en) (RecordCache.rec en);
  ot_overlay : wal_overlay s = ∅;
  ot_ready : writer_ready s;
}.

Lemma files_others C s K I F com b0 u : files_with C s (K, I) F com b0 → others C s K I F com b0 u.
Proof. intros []. split; try done. eauto. Qed.

(** The other units do not depend on the fragments of [u]. *)
Lemma others_mono C C' s s' K I I' F com b0 u :
  others C s K I F com b0 u → quiet s s' → keeps (λ o, ∃ i, o = FragOf u i) C C' →
  ceng C' (engine s') (K, I') com b0 → (∀ u', u' ≠ u → I' !! u' = I !! u') → others C' s' K I' F com b0 u.
Proof.
  intros [] Hq HC Hc HI. pose proof (quiet_keys _ _ Hq) as Hk. destruct Hq as (_&Hrc&Hcc&Hov&_). split; [done|..].
  - by eapply coherent_same.
  - intros u' f Hu' Hne. destruct (ot_units0 u' f Hu' Hne) as (a&?&?&Hun). exists a. rewrite HI by done. split_and!; [done..|].
    eapply unit_held_mono; [done..| | |done]; [by intros (?&?)|]. intros i (?&[= ? ?]). done.
  - intros u' en. rewrite Hcc. intros Hen. eapply rec_held_mono; [done|by apply ot_cache0|].
    intros c Hx. apply HC; [done|]. by intros (?&?).
  - congruence.
  - by eapply writer_ready_keys.
Qed.

Lemma signs_held r r' C s sm plains f :
  signs r r' → slim r → ur_content r = Some sm → stream_held C s r sm plains f →
  slim r' ∧ ur_content r' = Some sm ∧ stream_held C s r' sm plains f.
Proof. intros [->|(sig&->&_)] Hsl Hc Hst; [done|]. split_and!; [done..|]. by destruct Hst. Qed.

(** Both catalogs point at the new record; the files are as [F'] says. *)
Lemma publish_files C s s1 K I F F' com b0 u Fl :
  others C s1 K I F com b0 u → base (engine s) (engine s1) → same_keys s s1 → (∀ u', u' ≠ u → F' !! u' = F !! u') →
  (∀ f, F' !! u = Some f → ∃ a, I !! u = Some (le_bytes 8 a) ∧ u64 a ∧ unit_held C s1 u f a) →
  commit_seq (hdr s) < 2 ^ 64 - 1 →
  soutcome s com b0 (on_engine publish s1) (λ _, settled s K I F' com b0) Fl.
Proof.
  intros [He Hp Hu Hcc Hov Hr] Hb Hk0 HF Hnew Hseq.
  pose proof (publish_outcome (X := claimed C) (engine s) (engine s1) (K, I) com b0 (λ _ _, False) Hb Hp He Hseq) as Ho.
  unfold soutcome, on_engine, outcome in *. destruct (publish (engine s1)) as [[[]|er|] e'] eqn:Ep; [..|done].
  2: { destruct Ho as [[]|(?&?&?&?)]. right. split_and!; try done. by eapply safe_weaken. }
  pose proof (calmly_publish (engine s1)) as [Hcf Hmap]. rewrite Ep in Hcf, Hmap. cbn [snd] in Hcf, Hmap. destruct Ho as (Hco&Hkey&Hsup&Hgr&Hcase).
  set (s' := set_engine e' s1).
  assert (same_keys s1 s') as Hk1 by (split_and!; try done; destruct Hb as (?&_); cbn; congruence).
  assert (∀ com' b0', ceng C e' (K, I) com' b0' → files s' (K, I) F' com' b0') as Hfin.
  { intros com' b0' Hc'. exists C. split; try done.
    - intros u' f Hf. destruct (decide (u' = u)) as [->|Hne].
      + destruct (Hnew f Hf) as (a&?&?&?). exists a. split_and!; [done..|].
        by eapply (unit_held_mono (λ _, False)); [done|apply keeps_refl|auto..].
      + rewrite HF in Hf by done. destruct (Hu u' f Hf Hne) as (a&?&?&?). exists a. split_and!; [done..|].
        by eapply (unit_held_mono (λ _, False)); [done|apply keeps_refl|auto..].
    - intros u' en Hen. eapply rec_held_mono; [done|apply Hcc; by eapply lookup_weaken|done].
    - by eapply writer_ready_keys. }
  split_and!; [by eapply same_keys_trans|done|done|].
  destruct (suppress_commit (engine s)); destruct Hcase; (split; [done|]); by apply Hfin.
Qed.

(** A step of one of the catalogs. *)
Lemma catalog_step C s s1 (m : EM ()) cur' com b0 (F0 : Error → Engine → Prop) F :
  quiet s s1 → outcome (X := claimed C) (engine s1) com b0 (m (engine s1)) (λ _, staged (X := claimed C) (engine s1) cur' com b0) F0 →
  (∀ r e', m (engine s1) = (r, e') → record_cache e' = record_cache (engine s1)) → (∀ er e', ¬ F0 er e') →
  soutcome s com b0 (on_engine m s1) (λ _ s2, quiet s s2 ∧ ceng C (engine s2) cur' com b0) F.
Proof.
  intros Hq Ho Hrc HF. apply (soutcome_base _ s1); [by apply quiet_base|].
  unfold soutcome, on_engine, outcome in *. destruct (m (engine s1)) as [[[]|er|] e'] eqn:Em; [| |done].
  - destruct Ho as (Hb&Hres&Hc). split; [|done]. eapply quiet_trans; [done|]. split_and!; try done. by eapply Hrc.
  - destruct Ho as [Hf|(?&?&?&?)]; [by destruct (HF er e')|]. right. split_and!; try done. by eapply safe_weaken.
Qed.

Lemma install_spec C s K I F com b0 path u r sm plains f Fl :
  others C s K I F com b0 u → K !! path = Some u → blen path ≤ MAX_KEY_LEN → ur_uuid r = u → unit_ok r → slim r →
  ur_content r = Some sm → stream_held C s r sm plains f → blen (encode r) + 96 < 2 ^ 32 →
  commit_seq (hdr s) < 2 ^ 64 - 1 →
  soutcome s com b0 (install_record path u r s)
    (λ _ s', ∃ a, settled s K (<[u := le_bytes 8 a]> I) (<[u := f]> F) com b0 s') Fl.
Proof.
  intros Hot Hpath Hlen Hu Hok Hsl Hc Hst Hfit Hseq. unfold install_record.
  eapply soutcome_bind; [eapply write_record_spec; [apply Hot|apply Hot|done|done]|].
  intros a s1 (Hq1&Hna&Ha&r'&c&Hsg&Hc1&Hrec). set (C1 := <[a := _]> C) in *.
  assert (blen u = 16) as Hu16 by (subst u; apply Hok).
  eapply soutcome_bind.
  { eapply (catalog_step C1 s s1); [done|by apply id_put_spec|apply on_id_record_cache|].
    instantiate (1 := λ _ _, False). naive_solver. }
  intros [] s2 [Hq2 Hc2]. eapply soutcome_bind.
  { eapply (catalog_step C1 s s2); [done|by apply key_put_spec|apply on_key_record_cache|].
    unfold too_long. intros ?? (_&?&_). lia. }
  intros [] s3 [Hq3 Hc3]. rewrite insert_id in Hc3 by done.
  eapply soutcome_mono; [eapply (publish_files C1 s s3 K (<[u := le_bytes 8 a]> I) F (<[u := f]> F))| |done].
  - eapply others_mono; [done..|by apply keeps_unclaimed|done|]. intros u' ?. by rewrite lookup_insert_ne.
  - by apply quiet_base.
  - by apply quiet_keys.
  - intros u' ?. by rewrite lookup_insert_ne.
  - rewrite lookup_insert_eq. intros f' [= <-]. exists a. rewrite lookup_insert_eq. split_and!; [done..|].
    destruct (signs_held _ _ _ _ _ _ _ Hsg Hsl Hc Hst) as (Hsl'&Hc'&Hst').
    assert (same_keys s1 s3) as Hk13.
    { pose proof (quiet_keys _ _ Hq1) as (?&?&?&?&?). pose proof (quiet_keys _ _ Hq3) as (?&?&?&?&?). split_and!; congruence. }
    exists r', sm, plains. split_and!; [|done..|].
    + rewrite <-Hu. eapply rec_held_mono; [done..|auto].
    + eapply stream_held_mono; [by apply quiet_keys|done|]. intros x i c0 Hx.
      unfold C1. rewrite lookup_insert_ne; [done|]. congruence.
  - done.
  - intros [] s' Hs'. by exists a.
Qed.

(** The record [r] of a new version of [u], a file [f], is ready. *)
Definition staged_as (s : Store) (K I : gmap bytes bytes) (F : gmap bytes File) (com : maps) (b0 : Backend.t) (u : bytes) (f : File)
    (r : UnitRecord) (s' : Store) : Prop :=
  quiet s s' ∧ ∃ C sm plains, others C s' K I F com b0 u ∧ ur_uuid r = u ∧ (unit_ok r ∧ slim r ∧ blen (encode r) + 96 < 2 ^ 32) ∧
    ur_content r = Some sm ∧ stream_held C s' r sm plains f.

Lemma settled_base s s1 K I F com b0 s' :
  base (engine s) (engine s1) → same_keys s s1 → settled s1 K I F com b0 s' → settled s K I F com b0 s'.
Proof.
  intros Hb Hk (Hk'&Hs&Hg&Hcase). pose proof Hb as (_&Hh&Hsup&_&Hgr). unfold settled, hdr, bk in *.
  split_and!; [by eapply same_keys_trans|congruence|congruence|]. rewrite <-Hsup. destruct (suppress_commit (engine s1)).
  - destruct Hcase. split; [by eapply base_trans|done].
  - rewrite <-Hh. done.
Qed.

Lemma install_staged s K I F com b0 path u f r s1 Fl :
  staged_as s K I F com b0 u f r s1 → K !! path = Some u → blen path ≤ MAX_KEY_LEN → commit_seq (hdr s) < 2 ^ 64 - 1 →
  soutcome s com b0 (install_record path u r s1)
    (λ _ s', ∃ a, settled s K (<[u := le_bytes 8 a]> I) (<[u := f]> F) com b0 s') Fl.
Proof.
  intros (Hq&C&sm&plains&Hot&Hu&(Hok&Hsl&Hfit)&Hc&Hst) Hp Hl Hseq. pose proof (quiet_hdr _ _ Hq) as [Hh _].
  apply (soutcome_base _ s1); [by apply quiet_base|].
  eapply soutcome_mono; [eapply install_spec; [done..|by rewrite Hh]| |done].
  intros [] s' [a Hs]. exists a. eapply settled_base; [by apply quiet_base|by apply quiet_keys|done].
Qed.

End content_inv.
