(* ===== verification/ContentWrite.v ===== *)
(** * Writes

    [write] stages a new version of the touched fragments, or of all of them
    when the stream outgrows its fragment size, and installs the new head
    record: on the files it is [pwrite(2)]. *)

From S2P Require Import Prelude.
From S2P Require Import BTree.
From S2P Require Import Posix.
From S2P Require Import Vector.
From S2P Require Import Block.
From S2P Require Import Backend.
From S2P Require Import Crypto.
From S2P Require Import Header.
From S2P Require Import Alloc.
From S2P Require Import AllocInv.
From S2P Require Import Unit.
From S2P Require Import WriterSet.
From S2P Require Import Trie.
From S2P Require Import Records.
From S2P Require Import NodeHeap.
From S2P Require Import TrieMap.
From S2P Require Import Catalog.
From S2P Require Import Engine.
From S2P Require Import Store.
From S2P Require Import StoreView.
From S2P Require Import Content.
From S2P Require Import EngineInv.
From S2P Require Import ContentHeap.
From S2P Require Import ContentPlace.
From S2P Require Import ContentInv.
Import PosixFile.

(** ** Fragments of a file *)

Definition exp_ok (exp : Z) : Prop := MIN_FRAGSIZE_EXP ≤ exp ≤ MAX_FRAGSIZE_EXP.

Lemma frag_bytes_range exp : exp_ok exp → 4096 ≤ frag_bytes exp ≤ 2 ^ 25.
Proof. apply (frag_bytes_pos (mkStream [] [] VersionVector.new exp 0 [])). Qed.

Lemma frag_byte_at exp plains i j :
  exp_ok exp → 0 ≤ i → 0 ≤ j < frag_bytes exp →
  frag_byte exp plains (i * frag_bytes exp + j) = fbyte (default [] (plains !! Z.to_nat i)) j.
Proof.
  intros He Hi Hj. unfold frag_byte. rewrite Z.div_add_l, Z.div_small, Z.add_0_r by lia.
  f_equal. rewrite Z.add_comm, Z.mod_add by lia. by rewrite Z.mod_small.
Qed.

(** Every offset is in one fragment. *)
Lemma split_offset exp x : exp_ok exp → 0 ≤ x →
  ∃ i j, x = i * frag_bytes exp + j ∧ 0 ≤ i ∧ 0 ≤ j < frag_bytes exp.
Proof.
  intros He Hx. pose proof (frag_bytes_range _ He). exists (x `div` frag_bytes exp), (x `mod` frag_bytes exp).
  pose proof (Z.div_mod x (frag_bytes exp)). pose proof (Z.mod_pos_bound x (frag_bytes exp)).
  pose proof (Z.div_pos x (frag_bytes exp)). lia.
Qed.

Lemma frag_index_ok exp x : exp_ok exp → 0 ≤ x < 2 ^ 40 → frag_index x exp = Ok (x `div` frag_bytes exp).
Proof.
  intros He Hx. pose proof (frag_bytes_range _ He). unfold exp_ok, MIN_FRAGSIZE_EXP, MAX_FRAGSIZE_EXP in He.
  unfold frag_index. replace (exp <? 32) with true by lia. rewrite Z.shiftr_div_pow2 by lia.
  unfold frag_bytes in *. rewrite Z.shiftl_1_l in *. rewrite Z.mod_small; [done|].
  split; [apply Z.div_pos; lia|]. apply Z.div_lt_upper_bound; [lia|]. nia.
Qed.

(** The number of fragments of a file of [u] bytes and the length of the last one. *)
Lemma chop_ok exp u : exp_ok exp → 0 < u ≤ MAX_FILE →
  let fs := frag_bytes exp in let n := div_ceil u fs in
  0 < n ≤ 2 ^ 26 ∧ ∃ l, last_frag_length u exp = Ok l ∧ 0 < l ≤ fs ∧ (n - 1) * fs + l = u ∧
    ∀ x, 0 ≤ x < u → x `div` fs < n.
Proof.
  intros He Hu fs n. pose proof (frag_bytes_range _ He). unfold exp_ok, MIN_FRAGSIZE_EXP, MAX_FRAGSIZE_EXP, MAX_FILE in *.
  assert (fs = 2 ^ exp) as Hfs by (unfold fs, frag_bytes; by rewrite Z.shiftl_1_l).
  assert (n = (u - 1) `div` fs + 1) as Hn.
  { unfold n, div_ceil. replace (u + fs - 1) with (u - 1 + 1 * fs) by lia. by rewrite Z.div_add by lia. }
  rewrite last_frag_length_value by (rewrite <-?Hfs; lia). rewrite <-Hfs.
  pose proof (Z.div_mod (u - 1) fs ltac:(lia)). pose proof (Z.mod_pos_bound (u - 1) fs ltac:(lia)).
  change (Z.div (u - 1) fs) with ((u - 1) `div` fs) in *. set (q := (u - 1) `div` fs) in *.
  assert (0 ≤ q) by (apply Z.div_pos; lia).
  split; [nia|]. eexists. split_and!; [done|nia|nia|nia|].
  intros x Hx. rewrite Hn. enough (x `div` fs ≤ q) by lia. apply Z.div_le_mono; lia.
Qed.

Lemma derive_ok u : 0 ≤ u ≤ MAX_FILE →
  ∃ e, derive_fragsize_exp u FRAGSIZE_FLOOR_EXP ENGINE_MAX_FRAGSIZE_EXP = Ok e ∧ exp_ok e.
Proof.
  intros Hu. unfold MAX_FILE in *. destruct (Z.eq_dec u 0) as [->|]; [by exists FRAGSIZE_FLOOR_EXP|].
  unfold FRAGSIZE_FLOOR_EXP, ENGINE_MAX_FRAGSIZE_EXP. rewrite derive_fragsize_exp_schedule by (by_compute || lia).
  eexists. split; [done|]. unfold exp_ok, MIN_FRAGSIZE_EXP, MAX_FRAGSIZE_EXP. lia.
Qed.

(** ** Padding *)

Lemma pad_plain_spec pb exp min_len p :
  exp_ok exp → 0 ≤ min_len ≤ 16 → blen p ≤ frag_bytes exp →
  let q := pad_plain pb exp min_len p in
  min_len ≤ blen q ∧ blen p ≤ blen q ≤ frag_bytes exp ∧ ∀ x, 0 ≤ x → fbyte q x = fbyte p x.
Proof.
  intros He Hm Hp q. pose proof (frag_bytes_range _ He). pose proof (blen_nonneg p).
  assert (∀ n, blen p ≤ n → ∀ x, 0 ≤ x → fbyte (resize (Z.to_nat n) Init.Byte.x00 p) x = fbyte p x) as Hr.
  { intros n Hn x Hx. destruct (Z.lt_ge_cases x n); [by rewrite fbyte_resize by lia|].
    rewrite !fbyte_past; [done|lia|rewrite blen_resize; lia]. }
  unfold q, pad_plain. destruct pb; case_match; rewrite ?blen_resize by lia; split_and!; try lia; try done;
    intros; apply Hr; lia.
Qed.

Section content_write.
Context `{!Crc32, !Hkdf, !Hmac, !Aes, !AesGcm, !Entropy, !Ed25519, !UuidSource}.

Lemma min_plaintext_range id cs : registry_get id = Some cs → 0 ≤ min_plaintext_len cs ≤ 16.
Proof. unfold registry_get. intros Hg. repeat (case_match; [injection Hg as <-; cbn; lia|]). done. Qed.

(** The plaintext stored for fragment [i] of the file [F]. *)
Definition frag_plain (s : Store) (suite : CipherSuite) (exp : Z) (F : bytes) (i : Z) : bytes :=
  pad_plain (pad_blocks (hdr s)) exp (min_plaintext_len suite) (pread F (i * frag_bytes exp) (frag_bytes exp)).

Lemma frag_plain_keys s s' suite exp F i : same_keys s s' → frag_plain s' suite exp F i = frag_plain s suite exp F i.
Proof. intros ([= ? ? ? ? ? Hp]&_). unfold frag_plain. by rewrite Hp. Qed.

Lemma frag_plain_spec s id suite exp F i :
  registry_get id = Some suite → exp_ok exp → 0 ≤ i →
  let p := frag_plain s suite exp F i in
  min_plaintext_len suite ≤ blen p ∧
  Z.max 0 (Z.min (blen F - i * frag_bytes exp) (frag_bytes exp)) ≤ blen p ≤ frag_bytes exp ∧
  ∀ j, 0 ≤ j < frag_bytes exp → fbyte p j = fbyte F (i * frag_bytes exp + j).
Proof.
  intros Hs He Hi p. pose proof (frag_bytes_range _ He). pose proof (blen_nonneg F).
  assert (blen (pread F (i * frag_bytes exp) (frag_bytes exp)) =
    Z.max 0 (Z.min (blen F - i * frag_bytes exp) (frag_bytes exp))) as Hl by (rewrite blen_pread; lia).
  destruct (pad_plain_spec (pad_blocks (hdr s)) exp (min_plaintext_len suite)
    (pread F (i * frag_bytes exp) (frag_bytes exp)) He (min_plaintext_range _ _ Hs) ltac:(lia)) as (?&?&Hb).
  split_and!; [done|unfold p, frag_plain; lia..|]. intros j Hj. unfold p, frag_plain. rewrite Hb by lia. by rewrite fbyte_pread by lia.
Qed.

(** Sealing it. *)
Lemma seal_frag s id suite exp F i c :
  registry_get id = Some suite → exp_ok exp → 0 ≤ i → i * frag_bytes exp < blen F →
  ∃ ct, seal suite (root_key (engine s)) c (frag_plain s suite exp F i) = Ok ct ∧
    open suite (root_key (engine s)) c ct = Ok (frag_plain s suite exp F i) ∧ 0 < blen ct < 2 ^ 31.
Proof.
  intros Hs He Hi HF. pose proof (frag_bytes_range _ He).
  destruct (frag_plain_spec s id suite exp F i Hs He Hi) as (Hmin&Hlen&_).
  pose proof (suite_roundtrip id suite (root_key (engine s)) c (frag_plain s suite exp F i) Hs) as Hrt.
  replace (min_plaintext_len suite <=? _) with true in Hrt by lia. destruct Hrt as (ct&?&?&Hl).
  exists ct. split_and!; [done|done|..]; destruct (authenticated suite); lia.
Qed.

(** ** Suites *)

Lemma lookup_seqZ_fmap {A} (g : Z → A) n i : 0 ≤ i < n → (g <$> seqZ 0 n) !! Z.to_nat i = Some (g i).
Proof. intros Hi. rewrite list_lookup_fmap, (lookup_seqZ_lt 0 n) by lia. cbn. do 2 f_equal. lia. Qed.

Lemma lookup_seqZ_fmap_Some {A} (g : Z → A) n i x :
  (g <$> seqZ 0 n) !! i = Some x → x = g (Z.of_nat i) ∧ Z.of_nat i < n.
Proof.
  rewrite list_lookup_fmap. intros (y&Hy&->)%fmap_Some. apply lookup_seqZ in Hy as [-> ?]. split; [f_equal|]; lia.
Qed.

Lemma blen_seqZ_fmap {A} (g : Z → A) n : 0 ≤ n → blen (g <$> seqZ 0 n) = n.
Proof. intros. rewrite blen_fmap. unfold blen. rewrite length_seqZ. lia. Qed.

(** A table of suites that is dropped when it is constant. *)
Lemma collapsed_suite (g : Z → Z) n cc i :
  0 ≤ i < n →
  default cc ((if forallb (λ x, x =? cc) (g <$> seqZ 0 n) then [] else g <$> seqZ 0 n) !! Z.to_nat i) = g i.
Proof.
  intros Hi. destruct (forallb _ _) eqn:E; [|by rewrite lookup_seqZ_fmap].
  apply (forallb_forall (λ x, x =? cc)) with (x := g i) in E; [cbv beta in E; rewrite lookup_nil; cbn [default]; lia|].
  apply list_elem_of_In. apply list_elem_of_lookup. exists (Z.to_nat i). by apply lookup_seqZ_fmap.
Qed.

Lemma written_suite h u old first last n i a c m :
  0 ≤ i < n →
  content_frag_suite_id h (successor u old a c m (content_cipher h) (written_suites h old first last n)) i =
    if (first <=? i) && (i <=? last) then content_cipher h else content_frag_suite_id h old i.
Proof.
  intros Hi. unfold content_frag_suite_id at 1, record_content_suite. cbn [ur_frag_suites ur_content_suite successor default].
  pose proof (collapsed_suite (λ i, if (first <=? i) && (i <=? last) then content_cipher h else content_frag_suite_id h old i)
    n (content_cipher h) i Hi) as Hc. cbv beta in Hc. rewrite <-Hc. unfold written_suites. by destruct (_ !! _).
Qed.

Lemma suite_id_ok h old i : u16 (cipher h) → unit_ok old → u16 (content_frag_suite_id h old i).
Proof.
  intros Hh (_&_&_&_&_&Hcs&[_ Hfs]&_). unfold content_frag_suite_id, record_content_suite.
  destruct (ur_frag_suites old !! Z.to_nat i) eqn:E; [by eapply (Forall_lookup_1 _ _ _ _ Hfs)|].
  by destruct (ur_content_suite old).
Qed.

Lemma written_suites_ok h old first last n :
  u16 (cipher h) → u16 (content_cipher h) → unit_ok old → 0 ≤ n →
  Forall u16 (written_suites h old first last n) ∧ blen (written_suites h old first last n) ≤ n.
Proof.
  intros ??? Hn. unfold written_suites. destruct (forallb _ _); [by split; [constructor|]|].
  rewrite blen_seqZ_fmap by done. split; [|lia]. apply Forall_fmap, Forall_forall. intros i _. cbn.
  case_match; [done|by apply suite_id_ok].
Qed.

Lemma ceng_header C e cur com b0 : ceng C e cur com b0 → u16 (cipher (header e)) ∧ u16 (content_cipher (header e)).
Proof. intros (h&rest&packed&Hd&_). apply (load_ok _ _ _ (d_slots _ _ _ _ _ _ Hd) (d_load _ _ _ _ _ _ Hd)). Qed.

(** ** One version of a range *)

(** The bytes of the fragments, when the stream is empty under any fragment size. *)
Lemma old_bytes C s r sm plains f exp i j :
  stream_held C s r sm plains f → (plains = [] ∨ sm_fragsize_exp sm = exp) → exp_ok exp → 0 ≤ i → 0 ≤ j < frag_bytes exp →
  fbyte (default [] (plains !! Z.to_nat i)) j = fbyte (f_data f) (i * frag_bytes exp + j).
Proof.
  intros Hst [->|<-] He Hi Hj.
  - pose proof (hs_len _ _ _ _ _ _ Hst) as Hl. rewrite (shaped_size _ _ (hs_shape _ _ _ _ _ _ Hst)) in Hl by apply blen_nonneg.
    change (blen (f_data f) = 0) in Hl. pose proof (frag_bytes_range _ He).
    rewrite (fbyte_past (f_data f)) by nia. done.
  - rewrite <-(frag_byte_at (sm_fragsize_exp sm)) by done. apply (hs_bytes _ _ _ _ _ _ Hst). pose proof (frag_bytes_range _ He). nia.
Qed.

Lemma fbyte_copy_prefix plain existing x :
  0 ≤ x < blen plain → (∀ y, 0 ≤ y → fbyte plain y = Init.Byte.x00) → fbyte (copy_prefix plain existing) x = fbyte existing x.
Proof.
  intros Hx Hz. unfold copy_prefix. rewrite fbyte_app by lia. unfold blen in *. rewrite length_take. case_decide.
  - rewrite <-(Nat2Z.id (length plain)). by rewrite fbyte_take by lia.
  - rewrite <-(Nat2Z.id (length existing)) at 1. rewrite fbyte_drop by lia. rewrite Hz by lia.
    symmetry. apply fbyte_past. unfold blen. lia.
Qed.

Lemma blen_copy_prefix plain existing : blen (copy_prefix plain existing) = blen plain.
Proof. unfold copy_prefix, blen. rewrite length_app, length_take, length_drop. lia. Qed.

Section range.
Context (u : bytes) (old : UnitRecord) (osm : StreamMeta) (plains : list bytes) (f : File) (exp offset : Z) (data : bytes).
Hypothesis Hu : ur_uuid old = u.
Hypothesis Hu16 : blen u = 16.
Hypothesis Hold : ur_content old = Some osm.
Hypothesis Hexp : plains = [] ∨ sm_fragsize_exp osm = exp.
Hypothesis He : exp_ok exp.
Hypothesis Hdata : data ≠ [].
Hypothesis Hoff : 0 ≤ offset ≤ blen (f_data f).
Local Abbreviation fs := (frag_bytes exp).
Local Abbreviation end_ := (offset + blen data).
Local Abbreviation F' := (pwrite (f_data f) offset data).
Local Abbreviation new_size := (Z.max (blen (f_data f)) end_).

Lemma new_size_ok : blen F' = new_size ∧ 0 < blen data.
Proof. split; [by apply blen_pwrite; [lia|]|]. destruct data; [done|]. rewrite blen_cons. pose proof (blen_nonneg l). lia. Qed.

Lemma build_plain_spec C0 s0 C s cur com b0 frag :
  stream_held C0 s0 old osm plains f → ceng C (engine s) cur com b0 →
  (∀ p, plains !! Z.to_nat frag = Some p → frag_stored C s old osm (Z.to_nat frag) p) →
  0 ≤ frag → frag * fs < end_ → offset < (frag + 1) * fs →
  build_plain s old u exp new_size offset end_ data frag = Ok (pread F' (frag * fs) fs).
Proof.
  intros Hst Hc Hfr Hf Hlo Hhi. pose proof (frag_bytes_range _ He). destruct new_size_ok as [HF' Hpos].
  pose proof (hs_shape _ _ _ _ _ _ Hst) as [Hmap Hlocs _ _ _].
  unfold build_plain, old_stream. rewrite Hold, Hmap. set (pz := zeros _).
  assert (blen pz = Z.min (new_size - frag * fs) fs) as Hpz by (unfold pz; rewrite blen_zeros; lia).
  assert (∀ y, 0 ≤ y → fbyte pz y = Init.Byte.x00) as Hzero by (intros; apply fbyte_zeros). clearbody pz.
  assert (∃ q, (if frag <? blen plains then
      match sm_locations osm !! Z.to_nat frag with
      | Some old_loc => if is_hole old_loc then Ok pz else
          old_ver ← index_list (sm_unit_map osm) frag;
          suite ← cipher_for_frag (hdr s) old frag;
          existing ← read_fragment s suite u frag old_ver old_loc;
          Ok (copy_prefix pz existing)
      | None => Ok pz end else Ok pz) = Ok q ∧ blen q = blen pz ∧
      ∀ j, 0 ≤ j < blen pz → fbyte q j = fbyte (f_data f) (frag * fs + j)) as (q&->&Hq&Hqb).
  { assert (∀ q, (∀ j, 0 ≤ j < blen pz → fbyte q j = fbyte (default [] (plains !! Z.to_nat frag)) j) → blen q = blen pz →
      ∀ j, 0 ≤ j < blen pz → fbyte q j = fbyte (f_data f) (frag * fs + j)) as Hbytes.
    { intros q Hq Hl j Hj. rewrite Hq by done. eapply old_bytes; [done..|lia]. }
    destruct (Z.ltb_spec frag (blen plains)) as [Hlt|Hge].
    2: { exists pz. split_and!; [done..|]. apply Hbytes; [|done]. intros j Hj. rewrite Hzero by lia.
         rewrite lookup_ge_None_2 by (unfold blen in *; lia). done. }
    destruct (lookup_lt_is_Some_2 plains (Z.to_nat frag)) as [p Hp]; [unfold blen in *; lia|].
    destruct (Hfr p Hp) as (loc&v&Hloc&Hv&Hcase). pose proof (frag_stored_opens _ _ _ _ _ _ _ _ _ Hc (Hfr p Hp)) as (loc'&Hloc'&Ho).
    rewrite Hloc in Hloc'. injection Hloc' as <-. rewrite Hloc. destruct (is_hole loc).
    - subst p. exists pz. split_and!; [done..|]. apply Hbytes; [|done]. intros j Hj. by rewrite Hp, Hzero by lia.
    - destruct Ho as (v'&suite&Hv'&Hsu&Hr). rewrite Z2Nat.id in Hsu, Hr by lia. rewrite Hu in Hr.
      rewrite (index_list_ok _ _ v') by (done || lia). cbn [mbind res_bind]. rewrite Hsu. cbn [mbind res_bind].
      rewrite Hr. cbn [mbind res_bind]. eexists. split_and!; [done|apply blen_copy_prefix|].
      apply Hbytes; [|apply blen_copy_prefix]. intros j Hj. rewrite Hp. by apply fbyte_copy_prefix. }
  cbn [mbind res_bind]. rewrite index_range_ok by lia. cbn [mbind res_bind]. set (src := take _ _).
  assert (blen src = Z.min end_ (frag * fs + fs) - Z.max offset (frag * fs)) as Hsrc.
  { unfold src. rewrite blen_take, blen_drop by lia. lia. }
  assert (src ≠ []) as Hne by (intros E; rewrite E, blen_nil in Hsrc; lia).
  rewrite copy_at_pwrite by lia. f_equal. apply file_ext.
  - rewrite blen_pread by lia. rewrite blen_pwrite by (done || lia). lia.
  - intros x Hx. rewrite blen_pwrite in Hx by (done || lia). assert (0 ≤ x < blen pz) as Hx' by lia.
    rewrite fbyte_pread, !fbyte_pwrite by lia. case_decide.
    + rewrite decide_True by lia. unfold src. rewrite fbyte_take, fbyte_drop by lia. f_equal. lia.
    + rewrite decide_False by lia. by apply Hqb.
Qed.

(** *** The loop over the touched fragments *)

Context (C0 : Claims) (s0 : Store) (cur com : maps) (b0 : Backend.t) (suite : CipherSuite) (sync_id new_ver : Z) (sm0 : StreamMeta).
Hypothesis Hst : stream_held C0 s0 old osm plains f.
Hypothesis Hsuite : registry_get (content_cipher (hdr s0)) = Some suite.
Hypothesis Hdot : pack_dot (local_alias s0) sync_id = Ok new_ver.
Hypothesis Hdot64 : u64 new_ver.
Hypothesis Hseq : commit_seq (hdr s0) < 2 ^ 64 - 1.
Hypothesis Hpins : sm_pins sm0 = [].

(** Fragment [i] of [sm] is the new version, once the overwrites are done. *)
Definition version_at (V : Claims) (sm : StreamMeta) (i : Z) : Prop :=
  ∃ loc ct c, sm_locations sm !! Z.to_nat i = Some loc ∧ sm_unit_map sm !! Z.to_nat i = Some new_ver ∧
    is_hole loc = false ∧
    open suite (root_key (engine s0)) (frag_ctx s0 u i new_ver) ct = Ok (frag_plain s0 suite exp F' i) ∧
    blen ct < 2 ^ 31 ∧ holds_ct loc ct c ∧ V !! addr loc = Some (FragOf u i, c).

(** The fragments from [first] to below [fr] are done. *)
Record staging (first fr : Z) (s : Store) (sm : StreamMeta) (G : list (Z * bytes)) (C V : Claims) : Prop := {
  sg_quiet : quiet s0 s;
  sg_pending : pending_ok u (λ i, i < fr) C G V;
  sg_eng : ceng C (engine s) cur com b0;
  sg_keeps : keeps (λ o, ∃ i, first ≤ i < fr ∧ o = FragOf u i) C0 V;
  sg_frame : blen (sm_unit_map sm) = blen (sm_unit_map sm0) ∧ blen (sm_locations sm) = blen (sm_locations sm0) ∧
    sm_vv sm = sm_vv sm0 ∧ sm_fragsize_exp sm = sm_fragsize_exp sm0 ∧ sm_pins sm = [];
  sg_done : ∀ i, first ≤ i < fr → version_at V sm i;
  sg_rest : ∀ i, 0 ≤ i → ¬ (first ≤ i < fr) →
    sm_locations sm !! Z.to_nat i = sm_locations sm0 !! Z.to_nat i ∧
    sm_unit_map sm !! Z.to_nat i = sm_unit_map sm0 !! Z.to_nat i;
  sg_ok : Forall u64 (sm_unit_map sm) ∧ Forall loc_ok (sm_locations sm);
}.

Lemma staging_slot first fr s sm G C V :
  staging first fr s sm G C V → 0 ≤ fr → slot_ok V u old fr.
Proof using Hu Hold Hst.
  intros Hsg Hfr l. unfold existing_loc, old_stream. rewrite Hold.
  pose proof (hs_shape _ _ _ _ _ _ Hst) as [Hmap _ _ _ _]. rewrite Hmap.
  destruct (Z.ltb_spec fr (blen plains)); [|done].
  destruct (lookup_lt_is_Some_2 plains (Z.to_nat fr)) as [p Hp]; [unfold blen in *; lia|].
  destruct (hs_frags _ _ _ _ _ _ Hst _ _ Hp) as [(loc&v&Hloc&Hv&Hcase) _]. rewrite Hloc.
  destruct (is_hole loc); [done|]. intros [= <-]. destruct Hcase as (su&ct&c&_&_&?&?&Hx).
  rewrite Z2Nat.id, Hu in Hx by lia. exists ct, c, osm, v. split_and!; [|done..|by apply index_list_ok].
  eapply (sg_keeps _ _ _ _ _ _ _ Hsg); [done|]. intros (i&?&[= ->]). lia.
Qed.

Lemma staging_frag first fr s sm G C V p :
  staging first fr s sm G C V → 0 ≤ fr → plains !! Z.to_nat fr = Some p → frag_stored C s old osm (Z.to_nat fr) p.
Proof using Hu Hst.
  intros Hsg Hfr Hp. destruct (hs_frags _ _ _ _ _ _ Hst _ _ Hp) as [Hf _].
  eapply frag_stored_mono; [by eapply quiet_keys, Hsg|exact Hf|]. rewrite Z2Nat.id, Hu by lia. intros x c Hx.
  eapply pending_other; [by apply Hsg| |].
  - intros i Hi [= ->]. lia.
  - eapply (sg_keeps _ _ _ _ _ _ _ Hsg); [done|]. intros (i&?&[= ->]). lia.
Qed.

(** One fragment more. *)
Lemma staging_step first fr s sm G G' ct loc s1 ts C V :
  staging first fr s sm G C V → 0 ≤ first ≤ fr → fr < blen (sm_unit_map sm0) → fr < blen (sm_locations sm0) →
  open suite (root_key (engine s0)) (frag_ctx s0 u fr new_ver) ct = Ok (frag_plain s0 suite exp F' fr) → blen ct < 2 ^ 31 →
  placed u fr (λ i, i < fr) V s ct cur com b0 loc G' s1 →
  ∃ C' V', staging first (fr + 1) (set_timestamps ts s1)
    (sm_set_frag fr new_ver loc (sm_set_pins (unpin_frag fr (sm_pins sm)) sm)) G' C' V'.
Proof using Hdot64.
  intros [Hq HG Hc Hk (Hm&Hl&Hvv&Hx&Hp) Hdone Hrest [Hok1 Hok2]] Hfirst Hfr Hfl Hopen Hct
    (Hq1&Hh&Hlok&C'&V'&c&HG'&Hc'&Hct'&Hat&Hk').
  assert (∀ i, 0 ≤ i → i ≠ fr → Z.to_nat fr ≠ Z.to_nat i) as Hnat by lia.
  exists C', V'. split; cbn.
  - eapply quiet_trans; [done|]. exact Hq1.
  - eapply pending_mono; [done|]. cbn. lia.
  - done.
  - intros x o c0 Hx0 Hno. apply Hk'; [apply Hk; [done|]|].
    + intros (i&?&->). apply Hno. exists i. split; [lia|done].
    + intros ->. apply Hno. exists fr. split; [lia|done].
  - rewrite Hp. unfold blen in *. rewrite !length_insert. done.
  - intros i Hi. destruct (decide (i = fr)) as [->|Hne].
    + exists loc, ct, c. unfold sm_set_frag. cbn. rewrite !list_lookup_insert_eq by (unfold blen in *; lia). by split_and!.
    + destruct (Hdone i ltac:(lia)) as (loc'&ct'&c'&?&?&?&?&?&?&?). exists loc', ct', c'. cbn.
      rewrite !list_lookup_insert_ne by (apply Hnat; lia). split_and!; try done. apply Hk'; [done|]. intros [= ->]. lia.
  - intros i Hi Hno. rewrite !list_lookup_insert_ne by (apply Hnat; lia). apply Hrest; [done|lia].
  - split; by apply Forall_insert.
Qed.

Lemma stage_frags_spec k first fr s sm G pb C V Fl :
  staging first fr s sm G C V → 0 ≤ first ≤ fr → offset < (first + 1) * fs →
  (fr + Z.of_nat k - 1) * fs < end_ → fr + Z.of_nat k ≤ blen (sm_unit_map sm0) → blen (sm_locations sm0) = blen (sm_unit_map sm0) →
  soutcome s0 com b0
    (stage_frags old u suite exp new_size offset end_ data sync_id (seqZ fr (Z.of_nat k)) sm G pb s)
    (λ '(sm', G') s', ∃ C' V', staging first (fr + Z.of_nat k) s' sm' G' C' V') Fl.
Proof using All.
  revert fr s sm G pb C V. induction k as [|k IH]; intros fr s sm G pb C V Hsg Hfirst Hoff' Hend Hcnt Hlocs.
  { exists C, V. by rewrite Z.add_0_r. }
  rewrite seqZ_cons by lia. replace (Z.pred (Z.of_nat (S k))) with (Z.of_nat k) by lia. change (Z.succ fr) with (fr + 1).
  pose proof (frag_bytes_range _ He) as Hfs. destruct new_size_ok as [HF' Hpos]. cbn [stage_frags].
  assert (fr * fs < end_) as Hfe by nia. pose proof (sg_quiet _ _ _ _ _ _ _ Hsg) as Hq.
  destruct (quiet_hdr _ _ Hq) as [Hhdr Hkey]. pose proof Hq as (_&_&_&_&Hal&_).
  rewrite (run_asks_res _ _ _ (pread F' (fr * fs) fs)).
  2: { eapply build_plain_spec; [exact Hst|by apply Hsg| |lia|done|nia]. intros p Hp. eapply staging_frag; [done|lia|done]. }
  pose proof (sg_frame _ _ _ _ _ _ _ Hsg) as (_&_&_&_&Hsp). rewrite Hsp. change (pinned_by fr []) with (@nil bytes).
  rewrite (run_asks_res _ _ _ new_ver) by (by rewrite Hal).
  destruct (seal_frag s0 _ suite exp F' fr (frag_ctx s0 u fr new_ver) Hsuite He ltac:(lia) ltac:(lia)) as (ct&Hseal&Hopen&Hct).
  rewrite (run_asks_res _ _ _ ct).
  2: { rewrite Hkey, Hhdr. unfold frag_ctx. rewrite Hhdr. exact Hseal. }
  eapply soutcome_bind.
  { apply (soutcome_base _ s); [by apply quiet_base|].
    eapply place_version_spec; [by apply Hsg|by apply Hsg|cbn; lia|eapply staging_slot; [done|lia]|done|done|by rewrite Hhdr]. }
  intros [[loc G'] pb'] s1 Hpl. rewrite run_asks. unfold stamp. rewrite run_update.
  destruct (staging_step _ _ _ _ _ _ _ _ _ (<[(u, fr) := write_timestamp s1]> (fragment_write_timestamps s1)) _ _
    Hsg ltac:(lia) ltac:(lia) ltac:(lia) Hopen ltac:(lia) Hpl) as (C'&V'&Hsg'). rewrite Hsp in Hsg'.
  eapply soutcome_mono; [eapply IH; [exact Hsg'|lia..]| |done].
  intros [sm' G2] s' (C2&V2&Hd). exists C2, V2. by replace (fr + Z.of_nat (S k)) with (fr + 1 + Z.of_nat k) by lia.
Qed.

Lemma staging_drain first fr s sm G C V Fl :
  staging first fr s sm G C V →
  soutcome s0 com b0 ((match G with [] => mret () | _ => drain_inplace G end) s)
    (λ _ s', staging first fr s' sm [] V V) Fl.
Proof.
  intros Hsg. pose proof Hsg as [Hq HG Hc Hk Hfr Hdone Hrest Hok].
  destruct G as [|g G]; [inversion HG; subst; exact Hsg|].
  apply (soutcome_base _ s); [by apply quiet_base|]. eapply soutcome_mono; [by eapply drain_spec| |done].
  intros [] s' (Hq'&_&Hc'). split; try done; [by eapply quiet_trans|apply pending_nil].
Qed.

(** *** The new stream *)

Hypothesis Hsmall : new_size ≤ MAX_FILE.
Local Abbreviation count := (div_ceil new_size fs).
Local Abbreviation first := (offset `div` fs).
Local Abbreviation last := ((end_ - 1) `div` fs).
Hypothesis Hsm0 : sm0 = sm_set_vv (vv_at (local_alias s0) (f_counter f + 1)) (grow_stream (sm_set_exp exp osm) count).

Definition touched (i : Z) : bool := (first <=? i) && (i <=? last).
Definition new_plain (i : Z) : bytes :=
  if touched i then frag_plain s0 suite exp F' i else default [] (plains !! Z.to_nat i).

(** A byte that was written is in a touched fragment. *)
Lemma touched_spec i j : 0 ≤ j < fs → offset ≤ i * fs + j < end_ → touched i = true.
Proof using He Hoff.
  intros Hj Hx. pose proof (frag_bytes_range _ He). unfold touched.
  assert ((i * fs + j) `div` fs = i) as Hi by (rewrite Z.div_add_l, Z.div_small; lia).
  pose proof (Z.div_le_mono offset (i * fs + j) fs ltac:(lia) ltac:(lia)).
  pose proof (Z.div_le_mono (i * fs + j) (end_ - 1) fs ltac:(lia) ltac:(lia)). lia.
Qed.

Lemma touched_range i : touched i = true → i * fs < end_ ∧ offset < (i + 1) * fs ∧ 0 ≤ i < count.
Proof using Hoff He Hdata Hsmall.
  pose proof (frag_bytes_range _ He). destruct new_size_ok as [_ Hpos].
  destruct (chop_ok exp new_size He ltac:(lia)) as (_&_&_&_&_&Hlt). specialize (Hlt (end_ - 1) ltac:(lia)).
  unfold touched. intros Ht. pose proof (Z.mul_succ_div_gt offset fs ltac:(lia)).
  pose proof (Z.mul_div_le (end_ - 1) fs ltac:(lia)). pose proof (Z.div_pos offset fs ltac:(lia) ltac:(lia)). nia.
Qed.

(** The fragments do not get fewer. *)
Lemma count_grows : blen plains ≤ count.
Proof using Hoff He Hdata Hsmall Hst Hexp.
  pose proof (frag_bytes_range _ He). destruct new_size_ok as [_ Hpos]. destruct Hexp as [->|E]; [change (blen []) with 0|].
  { destruct (chop_ok exp new_size He ltac:(lia)) as (?&_). lia. }
  destruct (chop_ok exp new_size He ltac:(lia)) as (?&l&_&?&Hl&_).
  pose proof (hs_shape _ _ _ _ _ _ Hst) as Hsh. pose proof (hs_len _ _ _ _ _ _ Hst) as Hlen.
  rewrite (shaped_size _ _ Hsh), E in Hlen by apply blen_nonneg. pose proof (sh_last _ _ Hsh) as Hla. rewrite E in Hla.
  pose proof (blen_nonneg plains). destruct (Z.eqb_spec (blen plains) 0); [lia|]. specialize (Hla ltac:(lia)). nia.
Qed.

(** The bytes of the new fragments are those of the new file. *)
Lemma new_plain_bytes i j : 0 ≤ i → 0 ≤ j < fs → fbyte (new_plain i) j = fbyte F' (i * fs + j).
Proof using All.
  intros Hi Hj. unfold new_plain. destruct (touched i) eqn:Et.
  - destruct (frag_plain_spec s0 _ suite exp F' i Hsuite He Hi) as (_&_&Hb). by apply Hb.
  - rewrite (old_bytes C0 s0 old osm plains f exp) by done. rewrite fbyte_pwrite by (pose proof (frag_bytes_range _ He); nia).
    rewrite decide_False; [done|]. intros Hx. rewrite (touched_spec i j Hj Hx) in Et. done.
Qed.

Lemma new_plain_len i : 0 ≤ i → blen (new_plain i) ≤ fs.
Proof using All.
  intros Hi. pose proof (frag_bytes_range _ He). unfold new_plain. destruct (touched i).
  - destruct (frag_plain_spec s0 _ suite exp F' i Hsuite He Hi) as (_&?&_). lia.
  - destruct (plains !! Z.to_nat i) as [p|] eqn:Hp; [|change (0 ≤ fs); lia]. destruct Hexp as [->|E]; [done|]. rewrite <-E.
    apply (hs_frags _ _ _ _ _ _ Hst _ _ Hp).
Qed.

(** An untouched fragment has no new bytes. *)
Lemma untouched_len i : 0 ≤ i < count → touched i = false → Z.min new_size ((i + 1) * fs) ≤ blen (f_data f).
Proof using All.
  intros Hi Ht. pose proof (frag_bytes_range _ He). destruct new_size_ok as [_ Hpos].
  destruct (chop_ok exp new_size He ltac:(lia)) as (_&l&_&?&Hl&_).
  destruct (Z.le_gt_cases (Z.min new_size ((i + 1) * fs)) (blen (f_data f))) as [|Hgt]; [done|]. exfalso.
  assert (i * fs < new_size) by nia.
  rewrite (touched_spec i (Z.min new_size ((i + 1) * fs) - 1 - i * fs)) in Ht; [done|lia|lia].
Qed.

(** The offsets that the write does not cover. *)
Definition uncovered (offset len : Z) (short : list Z) : list Z := filter (λ x, ¬ (offset ≤ x < offset + len)) short.

Lemma untouched_full i :
  0 ≤ i < count → touched i = false →
  hole_at osm (Z.to_nat i) ∨
  (∃ x, x ∈ uncovered offset (blen data) (f_short f) ∧ x `div` fs = i) ∨
  Z.min new_size ((i + 1) * fs) - i * fs ≤ blen (default [] (plains !! Z.to_nat i)).
Proof using All.
  intros Hi Ht. pose proof (untouched_len i Hi Ht) as Hul. pose proof (frag_bytes_range _ He) as Hfs.
  destruct (chop_ok exp new_size He) as (_&l&_&?&Hl&_); [destruct new_size_ok; lia|].
  assert (i * fs < new_size) as Hlt by nia. assert (0 ≤ i * fs) by nia. clear Hl.
  pose proof (hs_len _ _ _ _ _ _ Hst) as Hlen. pose proof (hs_shape _ _ _ _ _ _ Hst) as Hsh.
  pose proof (shaped_size _ _ Hsh (blen_nonneg _)) as Hsz. destruct Hexp as [E|E].
  { rewrite E in Hsz. change (stream_byte_len osm = 0) in Hsz. lia. }
  assert (i < blen plains) as Hin.
  { rewrite E in Hsz. pose proof (sh_last _ _ Hsh) as Hla. rewrite E in Hla. pose proof (blen_nonneg plains).
    revert Hsz. destruct (Z.eqb_spec (blen plains) 0); intros Hsz; [rewrite Hlen, Hsz in Hul; lia|]. rewrite Hlen, Hsz in Hul. specialize (Hla ltac:(lia)). nia. }
  destruct (shaped_frag_len _ _ i Hsh ltac:(lia)) as (_&_&Hll). rewrite E in Hll.
  destruct (lookup_lt_is_Some_2 plains (Z.to_nat i)) as [p Hp]; [unfold blen in *; lia|]. rewrite Hp. cbn.
  destruct (hs_full _ _ _ _ _ _ Hst _ _ Hp) as [?|[(x&Hx&Hxi)|Hdp]]; [by left|right; left|right; right].
  - rewrite Z2Nat.id, E in Hxi by lia. exists x. split; [|done]. apply list_elem_of_filter. split; [|done]. intros Hcov.
    pose proof (Z.div_mod x fs ltac:(lia)) as Hxm. pose proof (Z.mod_pos_bound x fs ltac:(lia)).
    rewrite (touched_spec i (x `mod` fs)) in Ht; [done|lia|]. rewrite <-Hxi. lia.
  - rewrite Z2Nat.id in Hdp by lia. lia.
Qed.

Lemma sm0_lookup i : 0 ≤ i < count →
  match sm_locations osm !! Z.to_nat i, sm_unit_map osm !! Z.to_nat i with
  | Some loc, Some v => sm_locations sm0 !! Z.to_nat i = Some loc ∧ sm_unit_map sm0 !! Z.to_nat i = Some v
  | _, _ => sm_locations sm0 !! Z.to_nat i = Some HOLE ∧ sm_unit_map sm0 !! Z.to_nat i = Some 0
  end.
Proof using All.
  intros Hi. rewrite Hsm0. cbn. pose proof (hs_shape _ _ _ _ _ _ Hst) as [Hm Hl _ _ _]. rewrite Hm.
  destruct (Z.lt_ge_cases i (blen plains)).
  - destruct (lookup_lt_is_Some_2 (sm_locations osm) (Z.to_nat i)) as [loc Hloc]; [unfold blen in *; lia|].
    destruct (lookup_lt_is_Some_2 (sm_unit_map osm) (Z.to_nat i)) as [v Hv]; [unfold blen in *; lia|].
    rewrite Hloc, Hv. by rewrite !lookup_app_l by (unfold blen in *; lia).
  - rewrite (lookup_ge_None_2 (sm_locations osm)) by (unfold blen in *; lia).
    rewrite !lookup_app_r by (unfold blen in *; lia). rewrite !lookup_replicate_2 by (unfold blen in *; lia). done.
Qed.

(** An untouched fragment is what it was. *)
Lemma untouched_stored s1 sm V r i :
  staging first (last + 1) s1 sm [] V V → 0 ≤ i < count → touched i = false →
  ur_uuid r = u → cipher_for_frag (hdr s1) r i = cipher_for_frag (hdr s1) old i →
  frag_stored V s1 r sm (Z.to_nat i) (default [] (plains !! Z.to_nat i)).
Proof using All.
  intros Hsg Hi Ht Hur Hci. assert (¬ (first ≤ i < last + 1)) as Hno by (unfold touched in Ht; lia).
  destruct (sg_rest _ _ _ _ _ _ _ Hsg i ltac:(lia) Hno) as [Hl Hm]. pose proof (sm0_lookup i Hi) as Hsm.
  destruct (plains !! Z.to_nat i) as [p|] eqn:Hp.
  - destruct (hs_frags _ _ _ _ _ _ Hst _ _ Hp) as [Hfr _].
    assert (frag_stored V s1 old osm (Z.to_nat i) p) as (loc&v&Hloc&Hv&Hcase).
    { eapply frag_stored_mono; [by eapply quiet_keys, Hsg|exact Hfr|]. rewrite Z2Nat.id, Hu by lia. intros x c Hx.
      eapply (sg_keeps _ _ _ _ _ _ _ Hsg); [done|]. intros (i'&?&[= ->]). lia. }
    rewrite Hloc, Hv in Hsm. destruct Hsm as [E1 E2]. exists loc, v. rewrite Hl, Hm, E1, E2. split_and!; [done..|].
    cbn. destruct (is_hole loc); [done|]. rewrite Z2Nat.id in * by lia. by rewrite Hci, Hur, <-Hu.
  - pose proof (hs_shape _ _ _ _ _ _ Hst) as [_ Hbl _ _ _]. apply lookup_ge_None in Hp.
    rewrite (lookup_ge_None_2 (sm_locations osm)) in Hsm by (unfold blen in *; lia).
    destruct Hsm as [E1 E2]. exists HOLE, 0. rewrite Hl, Hm, E1, E2. done.
Qed.

Lemma write_held l s1 sm V a :
  staging first (last + 1) s1 sm [] V V → last_frag_length new_size exp = Ok l → f_counter f + 1 < 2 ^ 48 →
  let sm' := sm_set_last l sm in
  let r := successor u old a (Some sm') (ur_meta old) (content_cipher (hdr s1)) (written_suites (hdr s1) old first last count) in
  stream_held V s1 r sm' (new_plain <$> seqZ 0 count) (mkFile F' (f_counter f + 1) (uncovered offset (blen data) (f_short f))).
Proof using All.
  intros Hsg Hlast Hctr sm' r. pose proof (frag_bytes_range _ He) as Hfs. destruct new_size_ok as [HF' Hpos].
  destruct (chop_ok exp new_size He ltac:(lia)) as (Hcnt&l'&Hl'&Hl&Hsz&_). rewrite Hlast in Hl'. injection Hl' as <-.
  pose proof count_grows as Hgrow. pose proof (hs_shape _ _ _ _ _ _ Hst) as [Hm0 Hl0 _ _ _].
  pose proof (sg_frame _ _ _ _ _ _ _ Hsg) as (Hm&Hlo&Hvv&Hx&Hp). pose proof (sg_quiet _ _ _ _ _ _ _ Hsg) as Hq.
  destruct (quiet_hdr _ _ Hq) as [Hhdr Hkey]. pose proof Hq as (_&_&_&_&Hal&_).
  assert (blen (new_plain <$> seqZ 0 count) = count) as Hbl by (apply blen_seqZ_fmap; lia).
  assert (sm_fragsize_exp sm' = exp) as Hx' by (cbn; by rewrite Hx, Hsm0).
  assert (shaped sm' count) as Hsh.
  { rewrite Hsm0 in Hm, Hlo. cbn in Hm, Hlo. rewrite Hm0, blen_app, blen_replicate in Hm. rewrite Hm0, blen_app, blen_replicate in Hlo. split; cbn -[frag_bytes].
    - lia.
    - lia.
    - lia.
    - unfold content_exp_ok. rewrite Hx'. done.
    - rewrite Hx, Hsm0. cbn -[frag_bytes]. lia. }
  assert (stream_byte_len sm' = new_size) as Hsize.
  { rewrite (shaped_size _ _ Hsh) by lia. rewrite Hx'. destruct (Z.eqb_spec count 0); [lia|]. cbn. lia. }
  split.
  - by rewrite Hbl.
  - intros i p (->&Hi)%lookup_seqZ_fmap_Some. rewrite Hx'. split; [|apply new_plain_len; lia].
    pose proof (written_suite (hdr s1) u old first last count (Z.of_nat i) a (Some sm') (ur_meta old) ltac:(lia)) as Hws. fold r in Hws.
    unfold new_plain. fold (touched (Z.of_nat i)) in Hws. destruct (touched (Z.of_nat i)) eqn:Et.
    + destruct (sg_done _ _ _ _ _ _ _ Hsg (Z.of_nat i)) as (loc&ct&c&?&?&Hh&Ho&?&?&?); [unfold touched in Et; lia|].
      rewrite Nat2Z.id in *. exists loc, new_ver. split_and!; [done..|]. rewrite Hh. exists suite, ct, c.
      unfold cipher_for_frag, suite_of. rewrite Hws, Hhdr, Hsuite, Hkey. change (ur_uuid r) with u.
      split_and!; [done| |done..]. unfold frag_ctx in *. by rewrite Hhdr.
    + pose proof (untouched_stored s1 sm V r (Z.of_nat i) Hsg ltac:(lia) Et eq_refl) as Hun. rewrite Nat2Z.id in Hun.
      rewrite Nat2Z.id. apply Hun. unfold cipher_for_frag. by rewrite Hws.
  - exact Hp.
  - cbn. rewrite Hvv, Hsm0, Hal. done.
  - pose proof (hs_counter _ _ _ _ _ _ Hst). cbn. lia.
  - by rewrite Hsize.
  - rewrite Hx'. intros x Hx0. destruct (split_offset exp x He Hx0) as (i&j&->&Hi&Hj). rewrite frag_byte_at by done.
    destruct (Z.lt_ge_cases i count).
    + rewrite lookup_seqZ_fmap by lia. by apply new_plain_bytes.
    + rewrite lookup_ge_None_2 by (unfold blen in *; lia). symmetry. apply fbyte_past. cbn. nia.
  - by rewrite Hsize.
  - cbn [f_short]. intros i p (->&Hi)%lookup_seqZ_fmap_Some. unfold full_at, short_at, hole_at. rewrite Hx'.
    destruct (shaped_frag_len _ _ (Z.of_nat i) Hsh ltac:(lia)) as (_&_&Hll). rewrite Hx', Hsize in Hll.
    unfold new_plain. destruct (touched (Z.of_nat i)) eqn:Et.
    + destruct (frag_plain_spec s0 _ suite exp F' (Z.of_nat i) Hsuite He ltac:(lia)) as (_&?&_). right. right. lia.
    + destruct (untouched_full (Z.of_nat i) ltac:(lia) Et) as [(loc&Hloc&Hh)|[?|?]]; [left|by right; left|right; right; lia].
      rewrite Nat2Z.id in Hloc. exists loc. split; [|done]. cbn [sm' sm_locations sm_set_last].
      destruct (sg_rest _ _ _ _ _ _ _ Hsg (Z.of_nat i)) as [Hl1 _]; [lia|unfold touched in Et; lia|].
      pose proof (sm0_lookup (Z.of_nat i) ltac:(lia)) as Hsm. rewrite Nat2Z.id in *. rewrite Hloc in Hsm.
      destruct (lookup_lt_is_Some_2 (sm_unit_map osm) i) as [v Hv]; [apply lookup_lt_Some in Hloc; unfold blen in *; lia|].
      rewrite Hv in Hsm. by rewrite Hl1, (proj1 Hsm).
Qed.

End range.

(** ** Staging a write *)

Lemma staged_intro C s s1 C1 K I F com b0 u f' r sm plains :
  others C s K I F com b0 u → quiet s s1 → keeps (λ o, ∃ i, o = FragOf u i) C C1 → ceng C1 (engine s1) (K, I) com b0 →
  ur_uuid r = u → unit_ok r ∧ slim r ∧ blen (encode r) + 96 < 2 ^ 32 → ur_content r = Some sm →
  stream_held C1 s1 r sm plains f' → staged_as s K I F com b0 u f' r s1.
Proof. intros Hot Hq Hk Hc ????. split; [done|]. exists C1, sm, plains. split; [by eapply others_mono|]. by repeat (split; [done|]). Qed.

(** What a write starts from. *)
Record writing (C : Claims) (s : Store) (K I : gmap bytes bytes) (F : gmap bytes File) (com : maps) (b0 : Backend.t) (u : bytes)
    (a : Z) (old : UnitRecord) (osm : StreamMeta) (plains : list bytes) (f : File) (offset : Z) (data : bytes) : Prop := {
  w_others : others C s K I F com b0 u;
  w_addr : u64 a;
  w_rec : rec_held C s u a old;
  w_slim : slim old;
  w_content : ur_content old = Some osm;
  w_held : stream_held C s old osm plains f;
  w_seq : commit_seq (hdr s) < 2 ^ 64 - 1;
  w_counter : f_counter f + 1 < 2 ^ 48;
  w_data : data ≠ [];
  w_offset : 0 ≤ offset ≤ blen (f_data f);
  w_end : offset + blen data ≤ MAX_FILE;
}.

Definition written (f : File) (offset : Z) (data : bytes) : File :=
  mkFile (pwrite (f_data f) offset data) (f_counter f + 1) (uncovered offset (blen data) (f_short f)).

Section staging_write.
Context {C : Claims} {s : Store} {K I : gmap bytes bytes} {F : gmap bytes File} {com : maps} {b0 : Backend.t} {u : bytes}
  {a : Z} {old : UnitRecord} {osm : StreamMeta} {plains : list bytes} {f : File} {offset : Z} {data : bytes}.
Hypothesis Hw : writing C s K I F com b0 u a old osm plains f offset data.
Local Abbreviation end_ := (offset + blen data).
Local Abbreviation new_size := (Z.max (blen (f_data f)) end_).

Lemma writing_ok : unit_ok old ∧ stream_ok osm ∧ blen u = 16 ∧ ur_uuid old = u ∧ u16 (local_alias s) ∧ new_size ≤ MAX_FILE ∧
  ∃ suite, registry_get (content_cipher (hdr s)) = Some suite.
Proof.
  destruct Hw as [Hot _ Hrec _ Hc Hst _ _ _ _ ?]. pose proof (rh_ok _ _ _ _ _ Hrec) as Hok. pose proof (rh_uuid _ _ _ _ _ Hrec) as Hu.
  split_and!; [done| |by destruct Hok as [<- _]; rewrite Hu|done|apply (ot_ready _ _ _ _ _ _ _ _ Hot)| |apply (ot_ready _ _ _ _ _ _ _ _ Hot)].
  - destruct Hok as (_&Hs&_). rewrite Hc in Hs. by destruct Hs.
  - rewrite (hs_len _ _ _ _ _ _ Hst). pose proof (hs_small _ _ _ _ _ _ Hst). lia.
Qed.

(** The new version of the touched fragments. *)
Definition restage (exp : Z) : SM (bytes * UnitRecord) :=
  let count := div_ceil new_size (frag_bytes exp) in
  let sm := grow_stream (sm_set_exp exp osm) count in
  suite ← asks_res (λ s, cipher_suite (hdr s));
  first ← lift (frag_index offset exp);
  last ← lift (frag_index (end_ - 1) exp);
  b ← bump_stream sm;
  let '(sync_id, sm) := b in
  staged ← stage_frags old u suite exp new_size offset end_ data sync_id (seqZ first (last - first + 1)) sm [] 0;
  let '(sm, pending) := staged in
  (match pending with [] => mret () | _ => drain_inplace pending end);;
  len ← lift (last_frag_length new_size exp);
  suites ← asks (λ s, written_suites (hdr s) old first last count);
  cc ← asks (λ s, content_cipher (hdr s));
  mret (u, successor u old a (Some (sm_set_last len sm)) (ur_meta old) cc suites).

Lemma restage_spec exp Fl :
  exp_ok exp → (plains = [] ∨ sm_fragsize_exp osm = exp) →
  soutcome s com b0 (restage exp s)
    (λ '(u', r) s', u' = u ∧ staged_as s K I F com b0 u (written f offset data) r s') Fl.
Proof.
  intros He Hexp. destruct writing_ok as (Hok&Hsok&Hu16&Hu&Hal&Hsmall&suite&Hsuite). pose proof Hw as [Hot Ha _ Hsl Hc Hst Hseq Hctr Hdata Hoff Hend].
  pose proof (frag_bytes_range _ He) as Hfs. destruct (new_size_ok f offset data Hdata Hoff) as [HF' Hpos].
  destruct (chop_ok exp new_size He ltac:(lia)) as (Hcnt&l&Hl&Hlr&Hsz&Hlt). unfold MAX_FILE in Hsmall.
  unfold restage. rewrite (run_asks_res _ _ _ suite) by (unfold cipher_suite, suite_of; by rewrite Hsuite).
  rewrite (run_lift _ _ _ (offset `div` frag_bytes exp)) by (apply frag_index_ok; [done|lia]).
  rewrite (run_lift _ _ _ ((end_ - 1) `div` frag_bytes exp)) by (apply frag_index_ok; [done|lia]).
  set (first := offset `div` _). set (last := (end_ - 1) `div` _). set (count := div_ceil _ _) in *.
  pose proof (hs_counter _ _ _ _ _ _ Hst) as Hcr.
  unfold bump_stream. rewrite bind_run, (run_asks_res _ _ _ (f_counter f + 1, vv_at (local_alias s) (f_counter f + 1))).
  2: { cbn. rewrite (hs_vv _ _ _ _ _ _ Hst). by apply bump_vv_at. }
  cbn [mret St_ret]. set (sm0 := sm_set_vv _ _).
  pose proof (pack_dot_add (local_alias s) (f_counter f + 1) Hal ltac:(lia)) as Hdot. set (new_ver := _ * 2 ^ 16 + _) in Hdot.
  assert (u64 new_ver) as Hdot64 by (unfold new_ver; width_lia).
  assert (blen plains ≤ count) as Hgrow by by eapply count_grows.
  pose proof (hs_shape _ _ _ _ _ _ Hst) as [Hm0 Hl0 _ _ _].
  assert (blen (sm_unit_map sm0) = count ∧ blen (sm_locations sm0) = count) as [Hbm Hbl].
  { cbn. rewrite Hm0. split; rewrite blen_app, blen_replicate; lia. }
  assert (staging u f exp offset data C s (K, I) com b0 suite new_ver sm0 first first s sm0 [] C C) as Hsg0.
  { split; try done; [apply pending_nil|apply Hot|apply keeps_refl|split_and!; try done; apply Hst|intros; lia|].
    destruct Hsok as ([_ ?]&[_ ?]&_). cbn. split; (apply Forall_app; split; [done|]); by apply Forall_replicate. }
  assert (first ≤ last) as Hfl by (apply Z.div_le_mono; lia).
  assert (0 ≤ first) by (apply Z.div_pos; lia).
  pose proof (Z.mul_succ_div_gt offset (frag_bytes exp) ltac:(lia)) as Hgt. fold first in Hgt.
  pose proof (Z.mul_div_le (end_ - 1) (frag_bytes exp) ltac:(lia)) as Hle. fold last in Hle.
  pose proof (Hlt (end_ - 1) ltac:(lia)) as Hlast. fold last in Hlast.
  eapply soutcome_bind.
  { replace (last - first + 1) with (Z.of_nat (Z.to_nat (last - first + 1))) by lia.
    eapply stage_frags_spec; [done..| | |exact Hsg0|lia|lia| |lia|lia]; [done|apply Hst|]. nia. }
  intros [sm G] s1 (C1&V&Hsg). replace (first + _) with (last + 1) in Hsg by lia.
  eapply soutcome_bind; [by eapply staging_drain|]. intros [] s2 Hsg2.
  rewrite (run_lift _ _ _ l) by done. rewrite !run_asks. split; [done|].
  pose proof (sg_quiet _ _ _ _ _ _ _ _ _ _ _ _ _ _ _ _ _ _ _ _ Hsg2) as Hq.
  pose proof (sg_eng _ _ _ _ _ _ _ _ _ _ _ _ _ _ _ _ _ _ _ _ Hsg2) as Hc2. pose proof (ceng_header _ _ _ _ _ Hc2) as [Hci Hcc].
  pose proof (sg_ok _ _ _ _ _ _ _ _ _ _ _ _ _ _ _ _ _ _ _ _ Hsg2) as [Hmok Hlok]. destruct Hq as (_&_&_&_&Halias&_).
  assert (∀ r, r = successor u old a (Some (sm_set_last l sm)) (ur_meta old) (content_cipher (hdr s2)) (written_suites (hdr s2) old first last count) →
    stream_held V s2 r (sm_set_last l sm) (new_plain plains f exp offset data s suite <$> seqZ 0 count) (written f offset data)) as Hheld.
  { intros r ->. eapply write_held; try done. apply Hst. }
  specialize (Hheld _ eq_refl).
  destruct (written_suites_ok (hdr s2) old first last count Hci Hcc Hok ltac:(lia)) as [Hws Hwl].
  eapply (staged_intro C s s2 V); [done|apply Hsg2| |done|done| |done|exact Hheld].
  - eapply keeps_weaken; [apply Hsg2|]. intros o (i&_&->). by exists i.
  - eapply successor_held; [exact Hheld|try done..].
    + by rewrite Halias.
    + cbn. width_lia.
    + rewrite blen_seqZ_fmap by lia. done.
Qed.

End staging_write.

End content_write.
