(* ===== verification/ContentRechunk.v ===== *)
(** * Re-chunking, and [write] as [pwrite(2)]

    When a stream outgrows its fragment size, [stage_rechunk] reads the whole
    content, cuts it anew, places every fragment and retires the old ones.
    With the copy-on-write path of [ContentWrite] this makes [write] the
    [pwrite(2)] of files without gaps. *)

From S2P Require Import Prelude.
From S2P Require Import BTree.
From S2P Require Import Posix.
From S2P Require Import Vector.
From S2P Require Import Block.
From S2P Require Import Backend.
From S2P Require Import Crypto.
From S2P Require Import Header.
From S2P Require Import Alloc.
From S2P Require Import AllocInv.
From S2P Require Import Unit.
From S2P Require Import WriterSet.
From S2P Require Import Trie.
From S2P Require Import Records.
From S2P Require Import NodeHeap.
From S2P Require Import TrieMap.
From S2P Require Import Catalog.
From S2P Require Import Engine.
From S2P Require Import Store.
From S2P Require Import StoreView.
From S2P Require Import Content.
From S2P Require Import EngineInv.
From S2P Require Import ContentHeap.
From S2P Require Import ContentPlace.
From S2P Require Import ContentInv.
From S2P Require Import ContentWrite.
Import PosixFile.

(** The whole-block locations of a stream. *)
Definition whole (l : BlockLoc) : bool := negb (is_hole l) && (BASE_BLOCK <=? blk_len l).

Section rechunk.
Context `{!Crc32, !Hkdf, !Hmac, !Aes, !AesGcm, !Entropy, !Ed25519, !UuidSource}.

(** ** Reading the old content *)

Lemma materialise_spec C s cur com b0 old osm plains f n :
  ceng C (engine s) cur com b0 → stream_held C s old osm plains f → blen (f_data f) ≤ n →
  ∀ k fr content, 0 ≤ fr → fr + Z.of_nat k = blen plains → blen content = n →
    (∀ x, 0 ≤ x → fbyte content x = if decide (x < fr * frag_bytes (sm_fragsize_exp osm)) then fbyte (f_data f) x else Init.Byte.x00) →
    materialise s old osm (ur_uuid old) (seqZ fr (Z.of_nat k)) content = Ok (ftruncate (f_data f) n).
Proof.
  intros Hc Hst Hn. pose proof (hs_shape _ _ _ _ _ _ Hst) as Hsh. pose proof (sh_exp _ _ Hsh) as He.
  change (exp_ok (sm_fragsize_exp osm)) in He. pose proof (frag_bytes_range _ He) as Hfs. set (fs := frag_bytes _) in *.
  pose proof (hs_len _ _ _ _ _ _ Hst) as Hlen. pose proof (blen_nonneg (f_data f)).
  induction k as [|k IH]; intros fr content Hfr Hk Hl Hb.
  - cbn. f_equal. apply file_ext; [rewrite blen_ftruncate; lia|]. intros x Hx. unfold ftruncate. rewrite fbyte_resize by lia.
    rewrite Hb by lia. case_decide as Hlt; [done|]. symmetry. apply fbyte_past. rewrite Hlen, (shaped_size _ _ Hsh) by lia.
    fold fs. pose proof (sh_last _ _ Hsh) as Hla. fold fs in Hla. case_match; [lia|]. specialize (Hla ltac:(lia)). nia.
  - rewrite seqZ_cons by lia. replace (Z.pred (Z.of_nat (S k))) with (Z.of_nat k) by lia. change (Z.succ fr) with (fr + 1).
    destruct (lookup_lt_is_Some_2 plains (Z.to_nat fr)) as [p Hp]; [unfold blen in *; lia|].
    destruct (hs_frags _ _ _ _ _ _ Hst _ _ Hp) as [Hfst Hpl]. fold fs in Hpl.
    pose proof (frag_stored_opens _ _ _ _ _ _ _ _ _ Hc Hfst) as (loc&Hloc&Ho).
    assert (∀ j, 0 ≤ j < fs → fbyte p j = fbyte (f_data f) (fr * fs + j)) as Hpb.
    { intros j Hj. rewrite <-(old_bytes C s old osm plains f (sm_fragsize_exp osm)) by (done || by right). by rewrite Hp. }
    destruct (shaped_frag_len _ _ fr Hsh ltac:(lia)) as (Hll&_&Hend). fold fs in Hll, Hend.
    assert (∀ content', blen content' = n → (∀ x, 0 ≤ x → fbyte content' x = if decide (fr * fs ≤ x < fr * fs + fs) then fbyte (f_data f) x else fbyte content x) →
      materialise s old osm (ur_uuid old) (seqZ (fr + 1) (Z.of_nat k)) content' = Ok (ftruncate (f_data f) n)) as Hstep.
    { intros content' Hl' Hb'. apply IH; [lia|lia|done|]. intros x Hx. rewrite Hb', Hb by done.
      repeat case_decide; first [done|lia]. }
    cbn [materialise]. rewrite (index_list_ok _ _ loc) by (done || lia). cbn [mbind res_bind]. destruct (is_hole loc).
    + subst p. apply Hstep; [done|]. intros x Hx. case_decide; [|done]. rewrite Hb, decide_False by lia.
      replace x with (fr * fs + (x - fr * fs)) by lia. by rewrite <-Hpb by lia.
    + destruct Ho as (v&suite&Hv&Hsu&Hr). rewrite Z2Nat.id in Hsu, Hr by lia.
      rewrite (index_list_ok _ _ v) by (done || lia). cbn [mbind res_bind]. rewrite Hsu. cbn [mbind res_bind].
      rewrite Hr. cbn [mbind res_bind]. fold fs. set (q := take _ p).
      assert (blen q = Z.min (logical_frag_len osm fr) (blen p)) as Hq by (unfold q; rewrite blen_take; lia).
      pose proof (blen_nonneg p). assert (Z.min (blen q) (sat_sub (blen content) (fr * fs)) = blen q) as -> by (unfold sat_sub; lia).
      rewrite take_ge by (unfold blen; lia). rewrite copy_at_pwrite by lia. cbn [mbind res_bind].
      assert (∀ x, 0 ≤ x → fbyte (pwrite content (fr * fs) q) x =
        if decide (fr * fs ≤ x < fr * fs + fs) then fbyte (f_data f) x else fbyte content x) as Hpw.
      { intros x Hx. rewrite fbyte_pwrite by lia. case_decide as H1'.
        - rewrite decide_True by lia. unfold q. rewrite fbyte_take by lia. rewrite Hpb by lia. f_equal. lia.
        - case_decide as H2'; [|done]. rewrite Hb, decide_False by lia. symmetry.
          destruct (Z.lt_ge_cases (x - fr * fs) (blen p)).
          + apply fbyte_past. lia.
          + replace x with (fr * fs + (x - fr * fs)) by lia. rewrite <-Hpb by lia. by apply fbyte_past. }
      apply Hstep; [|done]. destruct (decide (q = [])) as [->|Hq0]; [done|]. rewrite blen_pwrite by (done || lia). lia.
Qed.

(** ** Retiring the old fragments *)

Lemma unpin_none frag sm : sm_pins sm = [] → sm_set_pins (unpin_frag frag (sm_pins sm)) sm = sm.
Proof. intros Hp. destruct sm. cbn in *. by subst. Qed.

Lemma retire_frags_run s sm u k fr retired :
  sm_pins sm = [] → blen (sm_locations sm) = blen (sm_unit_map sm) → 0 ≤ fr → fr + Z.of_nat k = blen (sm_unit_map sm) →
  retire_frags sm u (seqZ fr (Z.of_nat k)) retired s =
    (Ok (sm, retired ++ filter whole (drop (Z.to_nat fr) (sm_locations sm))), s).
Proof.
  intros Hp Hbl. revert fr retired. induction k as [|k IH]; intros fr retired Hfr Hk.
  { cbn. rewrite drop_ge by (unfold blen in *; lia). by rewrite app_nil_r. }
  rewrite seqZ_cons by lia. replace (Z.pred (Z.of_nat (S k))) with (Z.of_nat k) by lia. change (Z.succ fr) with (fr + 1).
  destruct (lookup_lt_is_Some_2 (sm_locations sm) (Z.to_nat fr)) as [loc Hloc]; [unfold blen in *; lia|].
  destruct (lookup_lt_is_Some_2 (sm_unit_map sm) (Z.to_nat fr)) as [v Hv]; [unfold blen in *; lia|].
  rewrite (drop_S _ _ _ Hloc), filter_cons. replace (S (Z.to_nat fr)) with (Z.to_nat (fr + 1)) by lia.
  cbn [retire_frags]. rewrite (run_lift _ _ _ loc) by (by apply index_list_ok).
  destruct (is_hole loc) eqn:Eh.
  - rewrite IH by lia. rewrite decide_False; [done|]. unfold whole. rewrite Eh. by intros ?.
  - rewrite (run_lift _ _ _ v) by (by apply index_list_ok). rewrite unpin_none by done. rewrite Hp.
    change (pinned_by fr []) with (@nil bytes). cbv iota. rewrite IH by lia.
    destruct (BASE_BLOCK <=? blk_len loc) eqn:Eb.
    + rewrite decide_True by (unfold whole; by rewrite Eh, Eb). by rewrite <-app_assoc.
    + rewrite decide_False; [done|]. unfold whole. rewrite Eh, Eb. by intros ?.
Qed.

Lemma retire_all_spec u L C e cur com b0 fr :
  ceng C e cur com b0 →
  (∀ i l, L !! i = Some l → whole l → ∃ d, C !! addr l = Some (FragOf u (fr + Z.of_nat i), Whole LiveMid (blk_len l) d)) →
  let e' := set_alloc (foldl Allocator.retire_block (alloc e) (filter whole L)) e in
  base e e' ∧ ∃ C', ceng C' e' cur com b0 ∧ ∀ x, x ∉ addr <$> filter whole L → C' !! x = C !! x.
Proof.
  revert fr C e. induction L as [|l L IH]; intros fr C e Hc HL e'.
  { split; [done|]. exists C. split; [|done]. unfold e', set_alloc. cbn.
    replace (set_store _ e) with e; [done|]. destruct e as [[[]]]. done. }
  assert (∀ i l', L !! i = Some l' → whole l' → ∃ d, C !! addr l' = Some (FragOf u (fr + 1 + Z.of_nat i), Whole LiveMid (blk_len l') d)) as HL'.
  { intros i l' Hi Hw. destruct (HL (S i) l' Hi Hw) as [d Hd]. exists d. rewrite Hd. do 3 f_equal. lia. }
  unfold e'. clear e'. rewrite filter_cons. case_decide as Hw; [|by apply (IH (fr + 1))].
  destruct (HL 0%nat l eq_refl Hw) as [d Hd].
  destruct (claim_retire _ _ _ _ _ _ _ _ Hc Hd) as [Hb1 Hc1]. set (e1 := set_alloc _ e) in *.
  destruct (IH (fr + 1) (delete (addr l) C) e1 Hc1) as [Hb2 (C'&Hc2&Hsame)].
  { intros i l' Hi Hw'. destruct (HL' i l' Hi Hw') as [d' Hd']. exists d'. rewrite lookup_delete_ne; [done|].
    intros E. rewrite <-E, Hd in Hd'. injection Hd' as Hx _ _. lia. }
  split; [eapply base_trans; [exact Hb1|exact Hb2]|]. exists C'. split; [exact Hc2|]. intros x Hx. rewrite fmap_cons in Hx.
  apply not_elem_of_cons in Hx as [Hne Hx]. rewrite Hsame by done. by rewrite lookup_delete_ne.
Qed.

(** ** Placing the new fragments *)

Section placing.
Context (C0 : Claims) (s0 : Store) (cur com : maps) (b0 : Backend.t) (u : bytes) (suite : CipherSuite) (exp : Z) (F : bytes) (ver ts : Z).
Hypothesis Hsuite : registry_get (content_cipher (hdr s0)) = Some suite.
Hypothesis He : exp_ok exp.
Local Abbreviation fs := (frag_bytes exp).

(** Fragment [i] has a fresh place. *)
Definition rechunked (C : Claims) (locs : list BlockLoc) (i : Z) : Prop :=
  ∃ loc ct c, locs !! Z.to_nat i = Some loc ∧ is_hole loc = false ∧
    open suite (root_key (engine s0)) (frag_ctx s0 u i ver) ct = Ok (frag_plain s0 suite exp F i) ∧ blen ct < 2 ^ 31 ∧
    holds_ct loc ct c ∧ C !! addr loc = Some (FragOf u i, c) ∧ C0 !! addr loc = None.

Record rechunking (fr : Z) (s : Store) (locs : list BlockLoc) (C : Claims) : Prop := {
  rc_quiet : quiet s0 s;
  rc_eng : ceng C (engine s) cur com b0;
  rc_keeps : keeps (λ _, False) C0 C;
  rc_len : blen locs = fr;
  rc_frags : ∀ i, 0 ≤ i < fr → rechunked C locs i;
  rc_ok : Forall loc_ok locs;
}.

Lemma rechunk_frags_spec k fr s locs C Fl :
  rechunking fr s locs C → 0 ≤ fr → (fr + Z.of_nat k - 1) * fs < blen F →
  soutcome s0 com b0
    (rechunk_frags u suite exp (blen F) F ver ts (seqZ fr (Z.of_nat k)) locs s)
    (λ locs' s', ∃ C', rechunking (fr + Z.of_nat k) s' locs' C') Fl.
Proof using All.
  revert fr s locs C. induction k as [|k IH]; intros fr s locs C Hrc Hfr Hend.
  { exists C. by rewrite Z.add_0_r. }
  pose proof (frag_bytes_range _ He) as Hfs. pose proof Hrc as [Hq Hc Hk Hlen Hfrags Hok].
  destruct (quiet_hdr _ _ Hq) as [Hhdr Hkey]. assert (fr * fs < blen F) as Hlt by nia.
  rewrite seqZ_cons by lia. replace (Z.pred (Z.of_nat (S k))) with (Z.of_nat k) by lia. change (Z.succ fr) with (fr + 1).
  cbn [rechunk_frags]. rewrite (run_lift _ _ _ (pread F (fr * fs) fs)).
  2: { rewrite index_range_ok by lia. unfold pread. f_equal. rewrite Z.add_simpl_l. apply file_ext.
       - rewrite !blen_take, blen_drop by lia. lia.
       - intros x Hx. rewrite blen_take, blen_drop in Hx by lia. by rewrite !fbyte_take by lia. }
  destruct (seal_frag s0 _ suite exp F fr (frag_ctx s0 u fr ver) Hsuite He Hfr Hlt) as (ct&Hseal&Hopen&Hct).
  rewrite (run_asks_res _ _ _ ct).
  2: { rewrite Hkey, Hhdr. unfold frag_ctx. rewrite Hhdr. exact Hseal. }
  eapply soutcome_bind.
  { apply (soutcome_base _ s); [by apply quiet_base|]. eapply (place_spec C s cur com b0 (FragOf u fr)); [done|lia]. }
  intros loc s1 (Hq1&Hn&Hh&Hlok&c&Hhold&Hc1). unfold stamp. rewrite run_update. set (s2 := set_timestamps _ s1).
  assert (rechunking (fr + 1) s2 (locs ++ [loc]) (<[addr loc := (FragOf u fr, c)]> C)) as Hrc1.
  { split.
    - eapply quiet_trans; [done|exact Hq1].
    - exact Hc1.
    - eapply keeps_chain; [done|by apply keeps_unclaimed].
    - rewrite blen_app, Hlen. done.
    - assert (C0 !! addr loc = None) as Hn0.
      { destruct (C0 !! addr loc) as [[o c']|] eqn:E; [|done]. by rewrite (Hk _ _ _ E) in Hn by auto. }
      intros i Hi. destruct (decide (i = fr)) as [->|Hne].
      + exists loc, ct, c. rewrite lookup_app_r by (unfold blen in *; lia). replace (_ - _)%nat with 0%nat by (unfold blen in *; lia).
        rewrite lookup_insert_eq. split_and!; try done. lia.
      + destruct (Hfrags i ltac:(lia)) as (loc'&ct'&c'&?&?&?&?&?&?&?). exists loc', ct', c'.
        rewrite lookup_app_l by (unfold blen in *; lia). rewrite lookup_insert_ne by congruence. by split_and!.
    - apply Forall_app. split; [done|]. by constructor. }
  eapply soutcome_mono; [eapply IH; [exact Hrc1|lia..]| |done].
  intros locs' s' [C' Hd]. exists C'. by replace (fr + Z.of_nat (S k)) with (fr + 1 + Z.of_nat k) by lia.
Qed.

(** The stream that results, and its file; [C] keeps the fresh places. *)
Lemma rechunk_held C1 C s1 s locs n l c old a :
  rechunking n s1 locs C1 → quiet s0 s → (∀ x, C0 !! x = None → C !! x = C1 !! x) →
  n = div_ceil (blen F) fs → 0 < blen F ≤ MAX_FILE → last_frag_length (blen F) exp = Ok l →
  0 ≤ c < 2 ^ 48 →
  let sm := mkStream (replicate (Z.to_nat n) ver) locs (vv_at (local_alias s) c) exp l [] in
  let r := successor u old a (Some sm) (ur_meta old) (content_cipher (hdr s)) [] in
  stream_held C s r sm (frag_plain s0 suite exp F <$> seqZ 0 n) (mkFile F c []).
Proof using All.
  intros [_ _ _ Hlen Hfrags _] Hq HC Hn HF Hl Hc sm r. pose proof (frag_bytes_range _ He) as Hfs.
  destruct (chop_ok exp (blen F) He HF) as (Hcnt&l'&Hl'&Hlr&Hsz&_). rewrite Hl in Hl'. injection Hl' as <-. rewrite <-Hn in *.
  destruct (quiet_hdr _ _ Hq) as [Hhdr Hkey].
  assert (shaped sm n) as Hsh.
  { split; cbn -[frag_bytes]; [rewrite blen_replicate; lia|done|lia|done|lia]. }
  assert (stream_byte_len sm = blen F) as Hsize.
  { rewrite (shaped_size _ _ Hsh) by lia. destruct (Z.eqb_spec n 0); [lia|]. cbn -[frag_bytes]. lia. }
  split.
  - by rewrite blen_seqZ_fmap by lia.
  - intros i p (->&Hi)%lookup_seqZ_fmap_Some.
    destruct (frag_plain_spec s0 _ suite exp F (Z.of_nat i) Hsuite He ltac:(lia)) as (_&?&_). split; [|cbn -[frag_bytes]; lia].
    destruct (Hfrags (Z.of_nat i) ltac:(lia)) as (loc&ct&cl&Hloc&Hh&Ho&?&?&?&Hn0). rewrite Nat2Z.id in Hloc.
    exists loc, ver. cbn [sm_locations sm_unit_map sm]. split; [done|]. split; [apply lookup_replicate_2; lia|]. rewrite Hh.
    exists suite, ct, cl. unfold cipher_for_frag, suite_of, content_frag_suite_id, record_content_suite.
    change (ur_frag_suites r) with (@nil Z). rewrite lookup_nil. change (ur_content_suite r) with (Some (content_cipher (hdr s))). cbn [default from_option id].
    rewrite Hhdr, Hsuite, Hkey, HC by done. change (ur_uuid r) with u. split_and!; [done| |done..].
    unfold frag_ctx in *. by rewrite Hhdr.
  - done.
  - done.
  - done.
  - done.
  - cbn [sm sm_fragsize_exp f_data]. intros x Hx. destruct (split_offset exp x He Hx) as (i&j&->&Hi&Hj). rewrite frag_byte_at by done.
    destruct (Z.lt_ge_cases i n).
    + rewrite lookup_seqZ_fmap by lia. cbn [default].
      destruct (frag_plain_spec s0 _ suite exp F i Hsuite He Hi) as (_&_&Hb). by apply Hb.
    + rewrite lookup_ge_None_2 by (rewrite length_fmap, length_seqZ; lia). symmetry. apply fbyte_past. nia.
  - lia.
  - intros i p (->&Hi)%lookup_seqZ_fmap_Some. right. right.
    destruct (shaped_frag_len _ _ (Z.of_nat i) Hsh ltac:(lia)) as (_&_&Hll). rewrite Hsize in Hll. cbn [sm sm_fragsize_exp] in Hll.
    destruct (frag_plain_spec s0 _ suite exp F (Z.of_nat i) Hsuite He ltac:(lia)) as (_&?&_). lia.
Qed.

End placing.

(** ** [stage_rechunk] *)

Lemma held_weaken_short C s r sm plains F c l : stream_held C s r sm plains (mkFile F c []) → stream_held C s r sm plains (mkFile F c l).
Proof.
  intros Hst. pose proof (hs_full _ _ _ _ _ _ Hst) as Hfull. destruct Hst. split; try done. intros i p Hp. destruct (Hfull i p Hp) as [?|[(x&[]%elem_of_nil&_)|?]]; [by left|by right; right].
Qed.

Lemma whole_claimed C s old osm plains f :
  stream_held C s old osm plains f → ∀ i loc, sm_locations osm !! i = Some loc → whole loc →
  ∃ d, C !! addr loc = Some (FragOf (ur_uuid old) (Z.of_nat i), Whole LiveMid (blk_len loc) d).
Proof.
  intros Hst i loc Hloc Hwh. pose proof (hs_shape _ _ _ _ _ _ Hst) as [_ Hl0 _ _ _].
  destruct (lookup_lt_is_Some_2 plains i) as [p Hp]; [apply lookup_lt_Some in Hloc; unfold blen in *; lia|].
  destruct (hs_frags _ _ _ _ _ _ Hst _ _ Hp) as [(loc'&v&Hloc'&_&Hcase) _]. rewrite Hloc in Hloc'. injection Hloc' as <-.
  unfold whole in Hwh. destruct (is_hole loc); [done|]. destruct Hcase as (?&ct&c&_&_&_&(Hbl&_&Hor)&Hx).
  destruct Hor as [[? ->]|[? ->]].
  - exfalso. apply Is_true_eq_true in Hwh. cbn in Hwh. lia.
  - exists (padded_block ct). by rewrite Hbl.
Qed.

Lemma stage_rechunk_spec C s K I F com b0 u a old osm plains f offset data new_exp Fl :
  writing C s K I F com b0 u a old osm plains f offset data → exp_ok new_exp →
  soutcome s com b0 (stage_rechunk u a old offset data (Z.max (blen (f_data f)) (offset + blen data)) new_exp s)
    (λ '(u', r) s', u' = u ∧ staged_as s K I F com b0 u (written f offset data) r s') Fl.
Proof.
  intros Hw He. destruct (writing_ok Hw) as (Hok&Hsok&Hu16&Hu&Hal&Hsmall&suite&Hsuite).
  pose proof Hw as [Hot Ha _ Hsl Hc Hst Hseq Hctr Hdata Hoff Hend].
  destruct (new_size_ok f offset data Hdata Hoff) as [HF' Hpos]. set (n := Z.max _ _) in *. set (F' := pwrite _ _ _) in *.
  pose proof (hs_shape _ _ _ _ _ _ Hst) as [Hm0 Hl0 _ _ _]. pose proof (ot_eng _ _ _ _ _ _ _ _ Hot) as Hce.
  unfold stage_rechunk. rewrite Hc. change (default empty_content_stream (Some osm)) with osm. cbv zeta.
  rewrite (run_asks_res _ _ _ (ftruncate (f_data f) n)).
  2: { rewrite Hm0, <-Hu. unfold blen at 1. eapply (materialise_spec C s); [done|done|lia|lia|unfold blen; lia| |].
       - rewrite blen_zeros. lia.
       - intros x Hx. rewrite fbyte_zeros, decide_False by lia. done. }
  rewrite (run_lift _ _ _ F').
  2: { rewrite copy_at_pwrite by (rewrite ?blen_ftruncate; lia). f_equal. apply file_ext.
       - rewrite HF', blen_pwrite, blen_ftruncate by (done || lia). lia.
       - intros x Hx. unfold F'. rewrite !fbyte_pwrite by lia. case_decide; [done|]. unfold ftruncate.
         rewrite blen_pwrite, blen_ftruncate in Hx by (done || lia). by rewrite fbyte_resize by lia. }
  pose proof (hs_counter _ _ _ _ _ _ Hst) as Hcr.
  unfold bump_stream. rewrite bind_run, (run_asks_res _ _ _ (f_counter f + 1, vv_at (local_alias s) (f_counter f + 1))).
  2: { rewrite (hs_vv _ _ _ _ _ _ Hst). by apply bump_vv_at. }
  cbn [mret St_ret]. set (osm' := sm_set_vv _ osm).
  pose proof (pack_dot_add (local_alias s) (f_counter f + 1) Hal ltac:(lia)) as Hdot. set (ver := _ * 2 ^ 16 + _) in Hdot.
  rewrite (run_asks_res _ _ _ ver) by done. rewrite bind_run.
  assert (blen (sm_unit_map osm) = Z.of_nat (length plains)) as Hm1 by exact Hm0. rewrite Hm1.
  rewrite (retire_frags_run s osm' u (length plains) 0 []) by (first [apply Hst|cbn; unfold blen in *; lia]).
  change (drop (Z.to_nat 0) (sm_locations osm')) with (sm_locations osm). cbn [app].
  rewrite (run_asks_res _ _ _ suite) by (unfold cipher_suite, suite_of; by rewrite Hsuite). rewrite run_asks.
  destruct (chop_ok new_exp n He ltac:(lia)) as (Hcnt&l&Hl&Hlr&Hsz&_). set (count := div_ceil _ _) in *.
  pose proof (frag_bytes_range _ He) as Hfs.
  eapply soutcome_bind.
  { replace count with (Z.of_nat (Z.to_nat count)) by lia. rewrite <-HF'.
    eapply (rechunk_frags_spec C s (K, I) com b0 u suite new_exp F' ver _ Hsuite He _ 0 s [] C); [|lia|rewrite Z.add_0_l, Z2Nat.id; lia].
    split; [done|done|apply keeps_refl|done|intros; lia|constructor]. }
  intros locs s1 (C1&Hrc). fold n in Hrc. fold count in Hrc. rewrite Z.add_0_l, Z2Nat.id in Hrc by lia.
  pose proof Hrc as [Hq1 Hc1 Hk1 Hlen Hfr Hlok].
  destruct (retire_all_spec u (sm_locations osm) C1 (engine s1) (K, I) com b0 0 Hc1) as [Hb2 (C2&Hc2&Hsame)].
  { intros i loc Hloc Hwh. destruct (whole_claimed _ _ _ _ _ _ Hst i loc Hloc Hwh) as [d Hd].
    exists d. rewrite Z.add_0_l, <-Hu. apply Hk1; [done|auto]. }
  assert (∀ x, x ∈ addr <$> filter whole (sm_locations osm) → ∃ i c, C !! x = Some (FragOf u i, c)) as Hret.
  { intros x (loc&->&[Hwh (i&Hi)%list_elem_of_lookup]%list_elem_of_filter)%list_elem_of_fmap.
    destruct (whole_claimed _ _ _ _ _ _ Hst i loc Hi Hwh) as [d Hd]. rewrite Hu in Hd. eauto. }
  rewrite (run_on_engine _ _ _ () (set_alloc (foldl Allocator.retire_block (alloc (engine s1)) (filter whole (sm_locations osm))) (engine s1))) by done.
  set (s2 := set_engine _ s1). rewrite (run_lift _ _ _ l) by done. rewrite run_asks. split; [done|].
  assert (quiet s s2) as Hq2 by (eapply quiet_trans; [exact Hq1|]; by split_and!).
  pose proof (ceng_header _ _ _ _ _ Hc2) as [_ Hcc].
  rewrite (hs_pins _ _ _ _ _ _ Hst : sm_pins osm' = []). cbn [fmap list_fmap].
  assert (local_alias s2 = local_alias s) as Hal2 by apply Hq2.
  change (sm_vv osm') with (vv_at (local_alias s) (f_counter f + 1)). rewrite <-Hal2.
  set (r := successor _ _ _ _ _ _ _).
  assert (stream_held C2 s2 r (mkStream (replicate (Z.to_nat count) ver) locs (vv_at (local_alias s2) (f_counter f + 1)) new_exp l [])
    (frag_plain s suite new_exp F' <$> seqZ 0 count) (written f offset data)) as Hheld.
  { apply held_weaken_short. eapply (rechunk_held C s); try done; fold F'; [|by rewrite HF'|rewrite HF'; lia|by rewrite HF'|lia].
    intros x Hx. apply Hsame. intros (i&c&E)%Hret. congruence. }
  eapply (staged_intro C s s2 C2); [done|done| |exact Hc2|done| |done|exact Hheld].
  - intros x o c Hx Ho. rewrite Hsame; [by apply Hk1; auto|]. intros (i&c'&E)%Hret. apply Ho. exists i. congruence.
  - eapply successor_held; [exact Hheld|try done..].
    + by rewrite Hal2.
    + cbn. width_lia.
    + cbn. apply Forall_replicate. unfold ver. width_lia.
    + rewrite blen_seqZ_fmap by lia. change (0 ≤ count). lia.
Qed.

(** ** [write] *)

Lemma recached_keys s s' : recached s s' → base (engine s) (engine s') ∧ same_keys s s' ∧ hdr s' = hdr s.
Proof. intros [rc ->]. by split_and!. Qed.

(** The fragment size a write to the stream [osm] uses. *)
Lemma write_exp C s old osm plains f end_ :
  stream_held C s old osm plains f → 0 ≤ end_ ≤ MAX_FILE →
  ∃ exp, exp_ok exp ∧ (plains = [] ∨ sm_fragsize_exp osm = exp) ∧
    (∀ s', (if blen (sm_unit_map osm) =? 0
      then e ← lift (derive_fragsize_exp end_ FRAGSIZE_FLOOR_EXP ENGINE_MAX_FRAGSIZE_EXP); mret (sm_set_exp e osm)
      else mret osm : SM StreamMeta) s' = (Ok (sm_set_exp exp osm), s')) ∧
    stream_byte_len (sm_set_exp exp osm) = blen (f_data f).
Proof.
  intros Hst Hend. pose proof (hs_shape _ _ _ _ _ _ Hst) as [Hm _ _ He _]. rewrite (hs_len _ _ _ _ _ _ Hst). unfold stream_byte_len. cbn.
  rewrite Hm. destruct (Z.eqb_spec (blen plains) 0) as [E|E].
  - destruct (derive_ok end_ Hend) as (e&->&?). exists e. split_and!; [done| |done..].
    left. destruct plains; [done|]. rewrite blen_cons in E. pose proof (blen_nonneg plains). lia.
  - exists (sm_fragsize_exp osm). split_and!; [done|by right| |done]. by destruct osm.
Qed.

Lemma stage_write_spec C s K I F com b0 path u f offset data :
  files_with C s (K, I) F com b0 → K !! path = Some u → F !! u = Some f → commit_seq (hdr s) < 2 ^ 64 - 1 →
  f_counter f + 1 < 2 ^ 48 → data ≠ [] → 0 ≤ offset → offset + blen data ≤ MAX_FILE →
  ∃ s1, recached s s1 ∧ files_with C s1 (K, I) F com b0 ∧
    if blen (f_data f) <? offset then stage_write path offset data s = (Err (Integrity "gap write unsupported"), s1)
    else soutcome s1 com b0 (stage_write path offset data s)
      (λ '(u', r) s', u' = u ∧ staged_as s1 K I F com b0 u (written f offset data) r s') (λ _ _, False).
Proof.
  intros Hf Hp Hu Hseq Hctr Hdata Hoff Hend.
  destruct (load_head_spec C s K I F com b0 path u f "no record for path" Hf Hp Hu)
    as (s1&a&old&osm&plains&Hload&Hrec&Hf1&Ha&HI&Hrh&Hsl&Hc&Hst).
  exists s1. split_and!; [done..|]. destruct (recached_keys _ _ Hrec) as (_&_&Hhdr).
  unfold stage_write. destruct data as [|d data]; [done|]. set (dd := d :: data) in *.
  rewrite bind_run, Hload. rewrite Hc. change (default empty_content_stream (Some osm)) with osm. cbv zeta.
  pose proof (blen_nonneg dd). unfold MAX_FILE in Hend.
  destruct (Z.leb_spec (2 ^ 64) (offset + blen dd)); [lia|].
  destruct (write_exp C s1 old osm plains f (offset + blen dd) Hst ltac:(unfold MAX_FILE; lia)) as (exp&He&Hexp&Hrun&Hsz).
  rewrite bind_run, Hrun, Hsz. cbn [sm_fragsize_exp sm_set_exp]. destruct (Z.ltb_spec (blen (f_data f)) offset) as [|Hle]; [done|].
  assert (writing C s1 K I F com b0 u a old osm plains f offset dd) as Hw.
  { split; try done; [by apply files_others|by rewrite Hhdr]. }
  destruct (writing_ok Hw) as (_&_&_&_&_&Hsmall&_).
  destruct (derive_ok (Z.max (blen (f_data f)) (offset + blen dd)) ltac:(lia)) as (needed&Hn&Hnok).
  rewrite (run_lift _ _ _ needed) by done. destruct (Z.ltb_spec exp needed).
  - by apply (stage_rechunk_spec C s1 K I F com b0 u a old osm plains f offset dd).
  - by apply (restage_spec Hw exp).
Qed.

Lemma write_file_spec s K I F com b0 path u f offset data :
  files s (K, I) F com b0 → K !! path = Some u → blen path ≤ MAX_KEY_LEN → F !! u = Some f → commit_seq (hdr s) < 2 ^ 64 - 1 →
  f_counter f + 1 < 2 ^ 48 → data ≠ [] → 0 ≤ offset → offset + blen data ≤ MAX_FILE →
  soutcome s com b0 (write path offset data s)
    (λ _ s', offset ≤ blen (f_data f) ∧
       ∃ a, settled s K (<[u := le_bytes 8 a]> I) (<[u := written f offset data]> F) com b0 s')
    (λ er s', er = Integrity "gap write unsupported" ∧ blen (f_data f) < offset ∧ recached s s' ∧ files s' (K, I) F com b0).
Proof.
  intros [C Hf] Hp Hl Hu Hseq Hctr Hdata Hoff Hend.
  destruct (stage_write_spec C s K I F com b0 path u f offset data Hf Hp Hu Hseq Hctr Hdata Hoff Hend) as (s1&Hrec&Hf1&Hstage).
  destruct (recached_keys _ _ Hrec) as (Hb&Hk&Hhdr). unfold write. destruct (Z.ltb_spec (blen (f_data f)) offset).
  - rewrite bind_run, Hstage. left. split_and!; [done..|]. by exists C.
  - apply (soutcome_base _ s1); [done|]. eapply soutcome_bind.
    { eapply soutcome_mono; [exact Hstage| |by intros]. intros v s' Hv. exact Hv. }
    intros [u' r] s2 [-> Hst]. eapply soutcome_mono; [eapply (install_staged _ _ _ _ _ _ _ _ _ _ _ (λ _ _, False)); [done..|by rewrite Hhdr]| |done].
    intros [] s' [a Hs]. split; [done|]. exists a. by eapply settled_base.
Qed.

End rechunk.
