(* ===== verification/ContentOps.v ===== *)
(** * Reads and the size of files

    [read], [read_at], [create_unit], [truncate] and [extend] on the files of
    the invariant. *)

From S2P Require Import Prelude.
From S2P Require Import BTree.
From S2P Require Import Posix.
From S2P Require Import Vector.
From S2P Require Import Block.
From S2P Require Import Backend.
From S2P Require Import Crypto.
From S2P Require Import Header.
From S2P Require Import Alloc.
From S2P Require Import AllocInv.
From S2P Require Import Unit.
From S2P Require Import WriterSet.
From S2P Require Import Trie.
From S2P Require Import Records.
From S2P Require Import NodeHeap.
From S2P Require Import TrieMap.
From S2P Require Import Catalog.
From S2P Require Import Engine.
From S2P Require Import Store.
From S2P Require Import StoreView.
From S2P Require Import Content.
From S2P Require Import EngineInv.
From S2P Require Import ContentHeap.
From S2P Require Import ContentPlace.
From S2P Require Import ContentInv.
From S2P Require Import ContentWrite.
From S2P Require Import ContentRechunk.
Import PosixFile.

Section ops.
Context `{!Crc32, !Hkdf, !Hmac, !Aes, !AesGcm, !Entropy, !Ed25519, !UuidSource}.

(** ** Reads *)

Lemma head_addr_spec C s K I F com b0 path u f :
  files_with C s (K, I) F com b0 → K !! path = Some u → F !! u = Some f →
  ∃ s' a r sm plains, on_engine (uuid_for_path path) s = (Ok u, s') ∧ id_get u (engine s') = (Ok (Some a), engine s') ∧
    recached s s' ∧ files_with C s' (K, I) F com b0 ∧ rec_held C s' u a r ∧ ur_content r = Some sm ∧ stream_held C s' r sm plains f.
Proof.
  intros Hf Hp Hu. pose proof (uuid_for_path_spec _ _ _ _ _ (fw_eng _ _ _ _ _ _ Hf) (fw_paths _ _ _ _ _ _ Hf) path) as Hup.
  rewrite Hp in Hup. destruct Hup as (rc&Hrun&Hco).
  pose proof (files_recached _ _ _ _ _ _ rc Hf Hco) as Hf'. set (s' := set_engine _ s) in *.
  destruct (fw_units _ _ _ _ _ _ Hf' u f Hu) as (a&HI&Ha&r&sm&plains&Hrec&Hsl&Hc&Hst).
  exists s', a, r, sm, plains. split_and!; try done.
  - unfold on_engine. by rewrite Hrun.
  - by eapply id_get_spec; [apply Hf'|..].
  - by exists rc.
Qed.

Lemma head_record_spec C s K I F com b0 path u f :
  files_with C s (K, I) F com b0 → K !! path = Some u → F !! u = Some f →
  ∃ s' a r sm plains, on_engine (head_record_addr path) s = (Ok a, s') ∧ read_record_at s' a = Ok r ∧ recached s s' ∧
    files_with C s' (K, I) F com b0 ∧ ur_content r = Some sm ∧ stream_held C s' r sm plains f.
Proof.
  intros Hf Hp Hu. destruct (head_addr_spec C s K I F com b0 path u f Hf Hp Hu)
    as (s1&a&r&sm&plains&Hup&Hid&Hrec&Hf1&Hrh&Hc&Hst). pose proof (fw_eng _ _ _ _ _ _ Hf1) as Hc1.
  exists s1, a, r, sm, plains. split_and!; try done; [|by eapply rec_read].
  revert Hup. unfold head_record_addr, on_engine. rewrite bind_run.
  destruct (uuid_for_path path (engine s)) as [[u'|er|] e1]; intros [= Hu' Hs1]; try done. subst u'.
  assert (engine s1 = e1) as <- by by rewrite <-Hs1. rewrite bind_run, Hid. cbn. by rewrite <-Hs1.
Qed.

Lemma read_spec s K I F com b0 path u f :
  files s (K, I) F com b0 → K !! path = Some u → F !! u = Some f →
  ∃ s', read path s = (Ok (f_data f), s') ∧ recached s s' ∧ files s' (K, I) F com b0.
Proof.
  intros [C Hf] Hp Hu. destruct (head_record_spec C s K I F com b0 path u f Hf Hp Hu)
    as (s1&a&r&sm&plains&Hhd&Hrd&Hrec&Hf1&Hc&Hst). pose proof (fw_eng _ _ _ _ _ _ Hf1) as Hc1.
  exists s1. split_and!; [|done|by exists C]. unfold read. rewrite bind_run, Hhd.
  rewrite (run_asks_res _ _ _ r) by done.
  pose proof (stream_held_stored _ _ _ _ _ _ _ _ _ Hc1 Hst) as Hstored.
  rewrite (run_asks_res _ _ _ (f_data f)) by (rewrite (held_content _ _ _ _ _ _ Hst); by eapply read_content_spec).
  unfold asks_res, apply_wal_overlay_full. by rewrite (fw_overlay _ _ _ _ _ _ Hf1), lookup_empty.
Qed.

Lemma unit_summary_spec s K I F com b0 path u f :
  files s (K, I) F com b0 → K !! path = Some u → F !! u = Some f →
  ∃ s' sum, unit_summary path s = (Ok sum, s') ∧ us_size sum = blen (f_data f) ∧ recached s s' ∧ files s' (K, I) F com b0.
Proof.
  intros [C Hf] Hp Hu. destruct (head_record_spec C s K I F com b0 path u f Hf Hp Hu)
    as (s1&a&r&sm&plains&Hhd&Hrd&Hrec&Hf1&Hc&Hst).
  exists s1. unfold unit_summary. rewrite bind_run, Hhd. rewrite (run_asks_res _ _ _ r) by done. rewrite Hc.
  eexists. split_and!; [done|by rewrite (hs_len _ _ _ _ _ _ Hst)|done|by exists C].
Qed.

(** Reads change the caches only. *)
Definition reread (s s' : Store) : Prop :=
  ∃ rc cache, s' = set_engine (set_record_cache cache (set_resolve_cache rc (engine s))) s.

Lemma files_record_cache C s cur F com b0 cache :
  files_with C s cur F com b0 →
  (∀ u en, RecordCache.map cache !! u = Some en → rec_held C s u (RecordCache.e_addr en) (RecordCache.rec en)) →
  files_with C (set_engine (set_record_cache cache (engine s)) s) cur F com b0.
Proof.
  intros [He ? Hu ? ? ?] Hcache. set (s' := set_engine _ s). assert (same_keys s s') as Hk by done. split; try done.
  - destruct He as (h&rest&packed&[]&[]). by exists h, rest, packed.
  - intros u f Hf. destruct (Hu u f Hf) as (a&?&?&?). exists a. split_and!; [done..|].
    by eapply (unit_held_mono (λ _, False)); [done|apply keeps_refl|auto..].
  - intros u en Hen. eapply rec_held_mono; [done|by apply Hcache|done].
  - by eapply writer_ready_keys.
Qed.

Lemma cache_get_spec c u a :
  RecordCache.tick c + 1 < 2 ^ 64 →
  ∃ r c', RecordCache.get c u a = Ok (r, c') ∧ RecordCache.tick c' = RecordCache.tick c + 1 ∧
    (∀ x, r = Some x → ∃ en, RecordCache.map c !! u = Some en ∧ RecordCache.e_addr en = a ∧ RecordCache.rec en = x) ∧
    ∀ u' en', RecordCache.map c' !! u' = Some en' → ∃ en, RecordCache.map c !! u' = Some en ∧
      RecordCache.e_addr en' = RecordCache.e_addr en ∧ RecordCache.rec en' = RecordCache.rec en.
Proof.
  intros Ht. unfold RecordCache.get. rewrite add64_ok by lia. cbn [mbind res_bind].
  destruct (RecordCache.map c !! u) as [en|] eqn:Een; [destruct (Z.eqb_spec (RecordCache.e_addr en) a) as [Ea|Ea]|]; cbn [negb].
  - eexists _, _. split_and!; [done..| |]; [intros x [= <-]; by exists en|].
    cbn. intros u' en' [[<- <-]|[_ ?]]%lookup_insert_Some; [by exists en|by exists en'].
  - eexists _, _. split_and!; [done..|]. intros u' en' ?. by exists en'.
  - eexists _, _. split_and!; [done..|]. intros u' en' ?. by exists en'.
Qed.

Lemma cache_put_spec c u a r :
  RecordCache.tick c + 1 < 2 ^ 64 →
  ∃ c', RecordCache.put c u a r = Ok c' ∧ RecordCache.tick c' ≤ RecordCache.tick c + 1 ∧
    ∀ u' en, RecordCache.map c' !! u' = Some en →
    u' = u ∧ RecordCache.e_addr en = a ∧ RecordCache.rec en = r ∨ RecordCache.map c !! u' = Some en.
Proof.
  intros Ht. unfold RecordCache.put. case_match; [eexists; split_and!; [done|lia|auto]|]. rewrite add64_ok by lia. cbn [mbind res_bind].
  eexists. split; [done|]. split; [done|]. cbn. intros u' en [[<- <-]|[_ Hm]]%lookup_insert_Some; [by left|right].
  revert Hm. case_match; [|done]. destruct (RecordCache.min_by_last _) as [[lru ?]|]; [|done].
  by intros [_ ?]%lookup_delete_Some.
Qed.

Lemma set_record_cache_twice c c' e : set_record_cache c' (set_record_cache c e) = set_record_cache c' e.
Proof. done. Qed.

Lemma cached_record_spec C s K I F com b0 u a r :
  files_with C s (K, I) F com b0 → rec_held C s u a r → RecordCache.tick (record_cache (engine s)) + 2 < 2 ^ 64 →
  ∃ cache, let s' := set_engine (set_record_cache cache (engine s)) s in
    cached_record u a s = (Ok r, s') ∧ files_with C s' (K, I) F com b0 ∧
    RecordCache.tick cache ≤ RecordCache.tick (record_cache (engine s)) + 2.
Proof.
  intros Hf Hrh Htick. pose proof (fw_cache _ _ _ _ _ _ Hf) as Hcache. unfold cached_record.
  destruct (cache_get_spec (record_cache (engine s)) u a ltac:(lia)) as (hit&c1&Hget&Ht1&Hhit&Hc1).
  rewrite (run_asks_res _ _ _ (hit, c1)) by done. rewrite (run_on_engine _ _ _ () (set_record_cache c1 (engine s))) by done.
  set (s1 := set_engine _ s).
  assert (∀ u' en, RecordCache.map c1 !! u' = Some en → rec_held C s u' (RecordCache.e_addr en) (RecordCache.rec en)) as Hheld.
  { intros u' en' Hen'. destruct (Hc1 u' en' Hen') as (en&Hen&->&->). by apply Hcache. }
  assert (files_with C s1 (K, I) F com b0) as Hf1 by by apply files_record_cache.
  destruct hit as [x|].
  - destruct (Hhit x eq_refl) as (en&Hen&Ea&<-). exists c1. cbv zeta. split; [|split; [done|lia]].
    pose proof (Hcache u en Hen) as Hh. rewrite Ea in Hh. by rewrite (rec_held_unique _ _ _ _ _ _ _ _ _ _ (fw_eng _ _ _ _ _ _ Hf) Hh Hrh).
  - assert (rec_held C s1 u a r) as Hrh1 by (eapply rec_held_mono; [|exact Hrh|done]; done).
    rewrite (run_asks_res _ _ _ r) by (eapply rec_read; [apply Hf1|done]).
    destruct (cache_put_spec c1 u a r ltac:(lia)) as (c2&Hput&Ht2&Hc2).
    rewrite (run_asks_res _ _ _ c2) by done. rewrite (run_on_engine _ _ _ () (set_record_cache c2 (engine s1))) by done.
    exists c2. cbv zeta. split; [done|]. split; [|lia].
    apply (files_record_cache C s); [done|]. intros u' en Hen. destruct (Hc2 u' en Hen) as [(->&->&->)|?]; [done|by apply Hheld].
Qed.

(** A file whose fragments are stored in full or not at all has no surplus. *)
Lemma dense_surplus C s r sm plains f offset :
  stream_held C s r sm plains f → f_short f = [] → 0 ≤ offset < stream_byte_len sm → surplus sm plains offset = 0.
Proof.
  intros Hst Hd Ho. pose proof (hs_shape _ _ _ _ _ _ Hst) as Hsh. pose proof (frag_bytes_pos _ (sh_exp _ _ Hsh)).
  unfold surplus, excess. set (fs := frag_bytes _) in *. set (i := offset `div` fs).
  pose proof (Z.mul_div_le offset fs ltac:(lia)) as Hle. pose proof (Z.mul_succ_div_gt offset fs ltac:(lia)) as Hgt.
  assert (0 ≤ i) by (apply Z.div_pos; lia). fold i in Hle, Hgt.
  destruct (sm_locations sm !! Z.to_nat i) as [loc|] eqn:El; [|done]. destruct (plains !! Z.to_nat i) as [p|] eqn:Hp; [|done].
  destruct (is_hole loc) eqn:Eh; [done|].
  destruct (hs_full _ _ _ _ _ _ Hst _ _ Hp) as [(loc'&?&?)|[(x&Hx&_)|Hl]]; [congruence|rewrite Hd in Hx; by apply elem_of_nil in Hx|].
  rewrite Z2Nat.id in Hl by done.
  apply lookup_lt_Some in Hp. destruct (shaped_frag_len _ _ i Hsh ltac:(unfold blen; lia)) as (_&_&He). fold fs in He. lia.
Qed.

Lemma read_at_with C s K I F com b0 path u f offset len :
  files_with C s (K, I) F com b0 → K !! path = Some u → F !! u = Some f → u64 offset → u64 len →
  RecordCache.tick (record_cache (engine s)) + 2 < 2 ^ 64 →
  ∃ s' k, read_at path offset len s = (Ok (zeros k ++ pread (f_data f) offset len), s') ∧ reread s s' ∧
    files_with C s' (K, I) F com b0 ∧ (f_short f = [] ∨ offset = 0 → k = 0%nat) ∧
    RecordCache.tick (record_cache (engine s')) ≤ RecordCache.tick (record_cache (engine s)) + 2.
Proof.
  intros Hf Hp Hu Ho Hl Htick. destruct (head_addr_spec C s K I F com b0 path u f Hf Hp Hu)
    as (s1&a&r&sm&plains&Hup&Hid&(rc&Hs1)&Hf1&Hrh&Hc&Hst).
  destruct (cached_record_spec C s1 K I F com b0 u a r Hf1 Hrh) as (cache&Hcr&Hf2&Ht2); [by rewrite Hs1|].
  set (s2 := set_engine _ s1) in *. assert (same_keys s1 s2) as Hk12 by done.
  pose proof (stream_held_mono C C _ _ _ _ _ _ Hk12 Hst ltac:(auto)) as Hst2.
  pose proof (stream_held_stored _ _ _ _ _ _ _ _ _ (fw_eng _ _ _ _ _ _ Hf2) Hst2) as Hstored.
  assert (read_at path offset len s = (read_window s2 r offset len, s2)) as ->.
  { unfold read_at. rewrite bind_run, Hup. rewrite (run_on_engine _ _ _ _ _ Hid), set_engine_same.
    rewrite (run_lift _ _ _ a) by done. by rewrite bind_run, Hcr. }
  rewrite (read_window_spec s2 r sm plains offset len Hstored Hc) by (try done; rewrite (fw_overlay _ _ _ _ _ _ Hf2); apply lookup_empty).
  rewrite <-(held_content _ _ _ _ _ _ Hst2). pose proof (hs_len _ _ _ _ _ _ Hst2) as Hlen.
  assert (reread s s2) as Hrr by (exists rc, cache; unfold s2; by rewrite Hs1).
  assert (RecordCache.tick (record_cache (engine s2)) ≤ RecordCache.tick (record_cache (engine s)) + 2) by (rewrite Hs1 in Ht2; exact Ht2).
  exists s2. destruct (Z.ltb_spec 0 len); [destruct (Z.ltb_spec offset (stream_byte_len sm)) as [Hlt|Hge]|]; cbn [andb].
  - exists (Z.to_nat (surplus sm plains offset)). split_and!; [done|done|done| |done].
    intros [Hd| ->].
    + by rewrite (dense_surplus _ _ _ _ _ _ offset Hst2 Hd) by width_lia.
    + unfold surplus, excess. rewrite Z.div_0_l by (pose proof (frag_bytes_pos _ (sh_exp _ _ (hs_shape _ _ _ _ _ _ Hst2))); lia).
      destruct (sm_locations sm !! _); [|done]. destruct (plains !! _) as [p|]; [|done]. pose proof (blen_nonneg p). case_match; lia.
  - exists 0%nat. split_and!; [|done..]. do 2 f_equal. cbn. unfold pread.
    rewrite drop_ge by (unfold blen in *; width_lia). by rewrite take_nil.
  - exists 0%nat. split_and!; [|done..]. do 2 f_equal. cbn. unfold pread.
    by replace (Z.to_nat len) with 0%nat by width_lia.
Qed.

Lemma read_at_spec s K I F com b0 path u f offset len :
  files s (K, I) F com b0 → K !! path = Some u → F !! u = Some f → u64 offset → u64 len →
  RecordCache.tick (record_cache (engine s)) + 2 < 2 ^ 64 →
  ∃ s' k, read_at path offset len s = (Ok (zeros k ++ pread (f_data f) offset len), s') ∧ reread s s' ∧
    files s' (K, I) F com b0 ∧ (f_short f = [] ∨ offset = 0 → k = 0%nat) ∧
    RecordCache.tick (record_cache (engine s')) ≤ RecordCache.tick (record_cache (engine s)) + 2.
Proof.
  intros [C Hf] ?????. destruct (read_at_with C s K I F com b0 path u f offset len) as (s'&k&?&?&?&?&?); [done..|].
  exists s', k. split_and!; [done|done|by exists C|done|done].
Qed.

(** ** Creation *)

Definition empty_file : File := mkFile [] 0 [].

Lemma empty_held C s r : stream_held C s r empty_content_stream [] empty_file.
Proof.
  by split.
Qed.

(** The record of a unit without content. *)
Definition fresh_unit (u : bytes) (cc : Z) (db : option DbHead) : UnitRecord :=
  mkUnit u (Some empty_content_stream) None None [] (Some cc) [] None db [].

Lemma fresh_unit_ok u cc db :
  blen u = 16 → u16 cc → opt_ok db_ok db →
  let r := fresh_unit u cc db in unit_ok r ∧ slim r ∧ blen (encode r) + 96 < 2 ^ 32.
Proof.
  intros Hu Hcc Hdb r. assert (slim r) as Hsl by done. assert (unit_ok r) as Hr.
  { unfold unit_ok, stream_ok, content_exp_ok, list_ok. cbn -[Z.pow Z.lt Z.le]. split_and!; try done; try apply Forall_nil_2; by_compute. }
  split_and!; [done..|]. pose proof (slim_size r empty_content_stream 0 Hr Hsl eq_refl eq_refl eq_refl) as Hs.
  change (blen (VersionVector.entries (sm_vv empty_content_stream))) with 0 in Hs. change (blen (ur_frag_suites r)) with 0 in Hs.
  specialize (Hs ltac:(lia) eq_refl ltac:(lia)). lia.
Qed.

Lemma ceng_draw C e cur com b0 n : ceng C e cur com b0 → ceng C (set_store ((alloc e, backend e), n) e) cur com b0.
Proof. intros (h&rest&packed&[]&[]). by exists h, rest, packed. Qed.

(** What [create_unit_inner] does for a unit with content and no metadata. *)
Lemma create_unit_spec s K I F com b0 path db :
  let u := draw_uuid (Engine.store (engine s)).2 in
  files s (K, I) F com b0 → blen path ≤ MAX_KEY_LEN → K !! path = None → I !! u = None → opt_ok db_ok db →
  commit_seq (hdr s) < 2 ^ 64 - 1 →
  soutcome s com b0 (create_unit_inner path true db None s)
    (λ v s', v = u ∧ ∃ a, settled s (<[path := u]> K) (<[u := le_bytes 8 a]> I) (<[u := empty_file]> F) com b0 s') (λ _ _, False).
Proof.
  intros u [C Hf] Hlen Hp Hfresh Hdb Hseq. pose proof (fw_eng _ _ _ _ _ _ Hf) as Hc.
  assert (blen u = 16) as Hu16 by apply draw_uuid_length.
  unfold create_unit_inner. rewrite (run_on_engine _ _ _ None (engine s)) by (rewrite (key_get_spec _ _ _ _ _ path Hc); by rewrite Hp).
  rewrite set_engine_same. change (bool_decide (is_Some None)) with false. cbv iota.
  set (e1 := set_store ((alloc (engine s), backend (engine s)), S (Engine.store (engine s)).2) (engine s)).
  rewrite (run_on_engine _ _ _ u e1).
  2: { unfold on_store, new_uuid, e1, u, alloc, backend. by destruct (Engine.store (engine s)) as [[a b] n]. }
  set (s1 := set_engine e1 s). rewrite bind_run. cbn [mret St_ret]. rewrite run_asks.
  fold (fresh_unit u (content_cipher (hdr s1)) db). set (r := fresh_unit _ _ _).
  assert (ceng C e1 (K, I) com b0) as Hc1 by by apply ceng_draw. pose proof (ceng_header _ _ _ _ _ Hc1) as [_ Hcc].
  assert (quiet s s1) as Hq1 by done.
  destruct (fresh_unit_ok u (content_cipher (hdr s1)) db Hu16 Hcc Hdb) as (Hok&Hsl&Hfit).
  assert (writer_ready s1) as Hr1 by (eapply writer_ready_keys; [by apply quiet_keys|apply Hf]).
  eapply soutcome_bind; [apply (soutcome_base _ s1); [by apply quiet_base|]; eapply write_record_spec; [exact Hc1|apply Hr1|done|done]|].
  intros a s2 (Hq2&Hna&Ha&r'&c&Hsg&Hc2&Hrec). set (C1 := <[a := _]> C) in *. change (ur_uuid r) with u in Hrec.
  assert (quiet s s2) as Hq02 by by eapply quiet_trans.
  eapply soutcome_bind.
  { eapply (catalog_step C1 s s2); [done|by apply id_put_spec|apply on_id_record_cache|].
    instantiate (1 := λ _ _, False). naive_solver. }
  intros [] s3 [Hq3 Hc3]. eapply soutcome_bind.
  { eapply (catalog_step C1 s s3); [done|by apply key_put_spec|apply on_key_record_cache|].
    unfold too_long. intros ?? (_&?&_). lia. }
  intros [] s4 [Hq4 Hc4]. unfold forget.
  rewrite (run_on_engine _ _ _ () (set_resolve_cache (delete path (resolve_cache (engine s4))) (engine s4))) by done.
  set (s5 := set_engine _ s4).
  assert (base (engine s) (engine s5)) as Hb5 by exact (quiet_base _ _ Hq4).
  assert (same_keys s s5) as Hk5 by exact (quiet_keys _ _ Hq4).
  assert (same_keys s1 s2) as Hk12 by by apply quiet_keys.
  assert (same_keys s2 s5) as Hk25.
  { pose proof (quiet_keys _ _ Hq02) as (?&?&?&?&?). destruct Hk5 as (?&?&?&?&?). split_and!; congruence. }
  assert (keeps (λ _, False) C C1) as HC1 by by apply keeps_unclaimed.
  eapply soutcome_bind.
  { eapply (publish_files C1 s s5 (<[path := u]> K) (<[u := le_bytes 8 a]> I) F (<[u := empty_file]> F) com b0 u); try done.
    - split; try done.
      + by apply eng_cache.
      + apply (coherent_forget (engine s4) K); [|intros p Hne; by rewrite lookup_insert_ne].
        eapply coherent_same; [|apply Hf]. apply Hq4.
      + intros u' f Hu' Hne. destruct (fw_units _ _ _ _ _ _ Hf u' f Hu') as (a'&?&?&?). exists a'.
        rewrite lookup_insert_ne by done. split_and!; [done..|]. eapply (unit_held_mono (λ _, False)); [exact Hk5|done|auto..].
      + intros u' en Hen. eapply rec_held_mono; [exact Hk5| |].
        * apply (fw_cache _ _ _ _ _ _ Hf). rewrite <-Hen. f_equal. f_equal. symmetry. apply Hq4.
        * intros c' Hx. apply HC1; [done|auto].
      + destruct Hq4 as (_&_&_&Hov&_). change (wal_overlay s4 = ∅). rewrite Hov. apply Hf.
      + eapply writer_ready_keys; [exact Hk5|apply Hf].
    - intros u' ?. by rewrite lookup_insert_ne.
    - rewrite lookup_insert_eq. intros f [= <-]. exists a. rewrite lookup_insert_eq. split_and!; [done..|].
      destruct (signs_held _ _ C1 s5 _ _ _ Hsg Hsl eq_refl (empty_held C1 s5 r)) as (Hsl'&Hcc'&Hst').
      exists r', empty_content_stream, []. split_and!; [|done..]. eapply rec_held_mono; [exact Hk25|done|auto]. }
  intros [] s' Hs. split; [done|]. by exists a.
Qed.

(** ** Suites that are carried over *)

Lemma carried_suite h u old n i a c m :
  0 ≤ i < n →
  content_frag_suite_id h (successor u old a c m (frag_suites_carryover h old n).1 (frag_suites_carryover h old n).2) i =
    if i <? old_rec_frag_count old then content_frag_suite_id h old i else content_cipher h.
Proof.
  intros Hi. unfold frag_suites_carryover, collapse_suites. set (g := λ i, if i <? _ then _ else _).
  change (if i <? old_rec_frag_count old then content_frag_suite_id h old i else content_cipher h) with (g i).
  pose proof (collapsed_suite g n (default (content_cipher h) (head (g <$> seqZ 0 n))) i Hi) as Hc. rewrite <-Hc.
  destruct (forallb _ _).
  - unfold content_frag_suite_id, record_content_suite. cbn [fst snd ur_frag_suites ur_content_suite successor].
    rewrite !lookup_nil. done.
  - unfold content_frag_suite_id, record_content_suite. cbn [fst snd ur_frag_suites ur_content_suite successor].
    by rewrite lookup_seqZ_fmap.
Qed.

Lemma carried_ok h old n :
  u16 (cipher h) → u16 (content_cipher h) → unit_ok old → 0 ≤ n →
  u16 (frag_suites_carryover h old n).1 ∧ Forall u16 (frag_suites_carryover h old n).2 ∧ blen (frag_suites_carryover h old n).2 ≤ n.
Proof.
  intros Hh Hc Hok Hn. unfold frag_suites_carryover, collapse_suites. set (g := λ i, if i <? _ then _ else _).
  assert (∀ i, u16 (g i)) as Hg by (intros i; unfold g; case_match; [by apply suite_id_ok|done]).
  assert (Forall u16 (g <$> seqZ 0 n)) as Hall by (apply Forall_fmap, Forall_forall; intros i _; apply Hg).
  destruct (forallb _ _); cbn [fst snd]; [|by rewrite blen_seqZ_fmap].
  split_and!; [|constructor|done]. destruct (g <$> seqZ 0 n); [done|]. by inversion Hall.
Qed.

(** A fragment whose entries and suite are kept. *)
Lemma frag_kept C s old osm r sm i p :
  frag_stored C s old osm i p → sm_locations sm !! i = sm_locations osm !! i → sm_unit_map sm !! i = sm_unit_map osm !! i →
  content_frag_suite_id (hdr s) r (Z.of_nat i) = content_frag_suite_id (hdr s) old (Z.of_nat i) → ur_uuid r = ur_uuid old →
  frag_stored C s r sm i p.
Proof.
  intros (loc&v&Hl&Hv&Hcase) El Em Es Eu. exists loc, v. rewrite El, Em. split_and!; [done..|]. destruct (is_hole loc); [done|].
  unfold cipher_for_frag in *. by rewrite Es, Eu.
Qed.

(** ** [extend] *)

(** The fragment that was the last one may be stored short. *)
Definition extended (f : File) (n : Z) : File :=
  mkFile (ftruncate (f_data f) n) (f_counter f + 1) (blen (f_data f) :: f_short f).

(** What a change of size starts from. *)
Record resizing (C : Claims) (s : Store) (K I : gmap bytes bytes) (F : gmap bytes File) (com : maps) (b0 : Backend.t) (u : bytes)
    (a : Z) (old : UnitRecord) (osm : StreamMeta) (plains : list bytes) (f : File) : Prop := {
  z_others : others C s K I F com b0 u;
  z_addr : u64 a;
  z_rec : rec_held C s u a old;
  z_slim : slim old;
  z_content : ur_content old = Some osm;
  z_held : stream_held C s old osm plains f;
  z_counter : f_counter f + 1 < 2 ^ 48;
}.

Lemma extend_full C s old osm plains f sm count i :
  stream_held C s old osm plains f → (plains = [] ∨ sm_fragsize_exp osm = sm_fragsize_exp sm) →
  shaped sm count → blen (f_data f) < stream_byte_len sm →
  (∀ loc, sm_locations osm !! i = Some loc → sm_locations sm !! i = Some loc) →
  (plains !! i = None → hole_at sm i) → Z.of_nat i < count →
  full_at sm (blen (f_data f) :: f_short f) i (default [] (plains !! i)).
Proof.
  intros Hst Hexp Hsh Hn Hkeep Hnew Hi. destruct (plains !! i) as [p|] eqn:Hp; [|left; auto].
  destruct Hexp as [->|E]; [done|]. cbn [default from_option id]. pose proof (hs_len _ _ _ _ _ _ Hst) as Hlen.
  destruct (hs_full _ _ _ _ _ _ Hst _ _ Hp) as [(loc&?&?)|[(x&Hx&Hxi)|Hl]]; [left; exists loc; auto|right; left|].
  { exists x. rewrite <-E. split; [by right|done]. }
  right. pose proof (hs_shape _ _ _ _ _ _ Hst) as Hsh0. apply lookup_lt_Some in Hp.
  pose proof (frag_bytes_pos _ (sh_exp _ _ Hsh)) as Hfs.
  destruct (shaped_frag_len _ _ (Z.of_nat i) Hsh0 ltac:(unfold blen; lia)) as (Hl0&_&He0).
  destruct (shaped_frag_len _ _ (Z.of_nat i) Hsh ltac:(lia)) as (_&_&He1). rewrite E in He0, Hl0.
  unfold full_at, short_at. set (fs := frag_bytes _) in *.
  destruct (Z.lt_ge_cases (stream_byte_len osm) ((Z.of_nat i + 1) * fs)) as [Hlt|Hge]; [left|right; lia].
  exists (blen (f_data f)). split; [by left|]. symmetry. apply (Z.div_unique_pos _ _ _ (blen (f_data f) - Z.of_nat i * fs)); nia.
Qed.

Lemma extend_held C s K I F com b0 u a old osm plains f n exp l :
  resizing C s K I F com b0 u a old osm plains f → exp_ok exp → (plains = [] ∨ sm_fragsize_exp osm = exp) →
  blen (f_data f) < n ≤ MAX_FILE → last_frag_length n exp = Ok l →
  let count := div_ceil n (frag_bytes exp) in
  let sm := sm_set_vv (vv_at (local_alias s) (f_counter f + 1)) (sm_set_last l (grow_stream (sm_set_exp exp osm) count)) in
  let cs := frag_suites_carryover (hdr s) old count in
  staged_as s K I F com b0 u (extended f n) (successor u old a (Some sm) (ur_meta old) cs.1 cs.2) s.
Proof.
  intros [Hot Ha Hrec Hsl Hc Hst Hctr] He Hexp Hn Hl count sm cs. pose proof (rh_ok _ _ _ _ _ Hrec) as Hok.
  pose proof (rh_uuid _ _ _ _ _ Hrec) as Hu.
  pose proof (frag_bytes_range _ He) as Hfs. pose proof (blen_nonneg (f_data f)). set (fs := frag_bytes exp) in *.
  destruct (chop_ok exp n He ltac:(lia)) as (Hcnt&l'&Hl'&Hlr&Hsz&_). rewrite Hl in Hl'. injection Hl' as <-. fold fs count in Hcnt, Hsz, Hlr.
  pose proof (hs_shape _ _ _ _ _ _ Hst) as Hsh0. pose proof Hsh0 as [Hm0 Hl0 _ _ Hla0]. pose proof (hs_len _ _ _ _ _ _ Hst) as Hlen.
  assert (blen plains ≤ count) as Hgrow.
  { pose proof (blen_nonneg plains). destruct Hexp as [->|E]; [change (blen []) with 0; lia|].
    rewrite (shaped_size _ _ Hsh0), E in Hlen by lia. rewrite E in Hla0. fold fs in Hlen, Hla0.
    revert Hlen. destruct (Z.eqb_spec (blen plains) 0); [lia|]. intros Hlen. specialize (Hla0 ltac:(lia)). nia. }
  assert (shaped sm count) as Hsh.
  { split; cbn -[frag_bytes]; [| |lia|done|by fold fs; lia].
    - rewrite Hm0, blen_app, blen_replicate. lia.
    - rewrite Hm0, blen_app, blen_replicate. lia. }
  assert (stream_byte_len sm = n) as Hsize.
  { rewrite (shaped_size _ _ Hsh) by lia. destruct (Z.eqb_spec count 0); [lia|]. cbn -[frag_bytes]. fold fs. lia. }
  set (r := successor _ _ _ _ _ _ _).
  assert (stream_held C s r sm ((λ i, default [] (plains !! Z.to_nat i)) <$> seqZ 0 count) (extended f n)) as Hheld.
  { split.
    - by rewrite blen_seqZ_fmap by lia.
    - intros i p (->&Hi)%lookup_seqZ_fmap_Some. rewrite Nat2Z.id. destruct (plains !! i) as [p|] eqn:Hp; cbn [default from_option id].
      + pose proof (lookup_lt_Some _ _ _ Hp) as Hlt. destruct (hs_frags _ _ _ _ _ _ Hst _ _ Hp) as [Hf Hpl]. split.
        * eapply frag_kept; [done|cbn; apply lookup_app_l; unfold blen in *; lia|cbn; apply lookup_app_l; unfold blen in *; lia| |by rewrite Hu].
          unfold r, cs. rewrite carried_suite by lia. unfold old_rec_frag_count, old_stream. rewrite Hc, Hm0.
          replace (Z.of_nat i <? blen plains) with true by (unfold blen; lia). done.
        * destruct Hexp as [->|<-]; [done|exact Hpl].
      + apply lookup_ge_None in Hp. split; [|change (0 ≤ fs); lia]. exists HOLE, 0. cbn. rewrite Hm0.
        rewrite !lookup_app_r by (unfold blen in *; lia). rewrite !lookup_replicate_2 by (unfold blen in *; lia). done.
    - apply (hs_pins _ _ _ _ _ _ Hst).
    - done.
    - pose proof (hs_counter _ _ _ _ _ _ Hst). cbn. lia.
    - cbn [extended f_data]. rewrite blen_ftruncate; lia.
    - cbn [sm sm_fragsize_exp f_data extended sm_set_vv sm_set_last grow_stream sm_set_exp]. intros x Hx.
      destruct (split_offset exp x He Hx) as (i&j&->&Hi&Hj). rewrite frag_byte_at by done.
      assert (fbyte (default [] (((λ i, default [] (plains !! Z.to_nat i)) <$> seqZ 0 count) !! Z.to_nat i)) j =
        fbyte (default [] (plains !! Z.to_nat i)) j) as ->.
      { destruct (Z.lt_ge_cases i count); [by rewrite lookup_seqZ_fmap by lia|].
        rewrite lookup_ge_None_2 by (rewrite length_fmap, length_seqZ; lia).
        rewrite (lookup_ge_None_2 plains) by (unfold blen in *; lia). done. }
      rewrite (old_bytes C s old osm plains f exp) by done. unfold ftruncate. fold fs.
      destruct (Z.lt_ge_cases (i * fs + j) n); [by rewrite fbyte_resize by (fold fs in Hj; nia)|].
      rewrite !fbyte_past; [done|rewrite blen_resize; lia|lia].
    - lia.
    - intros i p (->&Hi)%lookup_seqZ_fmap_Some. rewrite Nat2Z.id. eapply (extend_full C s old osm plains f); [done..|lia| | |lia].
      + intros loc Hloc. cbn. by apply lookup_app_l_Some.
      + intros Hp%lookup_ge_None. exists HOLE. cbn. rewrite Hm0, lookup_app_r, lookup_replicate_2 by (unfold blen in *; lia). done. }
  pose proof (ceng_header _ _ _ _ _ (ot_eng _ _ _ _ _ _ _ _ Hot)) as [Hci Hcc].
  destruct (carried_ok (hdr s) old count Hci Hcc Hok ltac:(lia)) as (Hs1&Hs2&Hs3).
  eapply (staged_intro C s s C); [done|done|apply keeps_refl|apply Hot|done| |done|exact Hheld].
  assert (stream_ok osm) as ([_ ?]&[_ ?]&_) by (destruct Hok as (_&Hs&_); rewrite Hc in Hs; by destruct Hs).
  eapply successor_held; [exact Hheld|try done..].
  - apply (ot_ready _ _ _ _ _ _ _ _ Hot).
  - cbn. width_lia.
  - cbn. apply Forall_app. split; [done|]. by apply Forall_replicate.
  - cbn. apply Forall_app. split; [done|]. by apply Forall_replicate.
  - by rewrite blen_seqZ_fmap by lia.
Qed.

Lemma load_resizing C s K I F com b0 path u f msg :
  files_with C s (K, I) F com b0 → K !! path = Some u → F !! u = Some f → f_counter f + 1 < 2 ^ 48 →
  ∃ s1 a old osm plains, load_head path msg s = (Ok (u, a, old), s1) ∧ recached s s1 ∧
    files_with C s1 (K, I) F com b0 ∧ resizing C s1 K I F com b0 u a old osm plains f.
Proof.
  intros Hf Hp Hu Hctr. destruct (load_head_spec C s K I F com b0 path u f msg Hf Hp Hu)
    as (s1&a&old&osm&plains&Hload&Hrec&Hf1&Ha&HI&Hrh&Hsl&Hc&Hst).
  exists s1, a, old, osm, plains. split_and!; [done..|]. split; try done. by apply files_others.
Qed.

Lemma extend_spec s K I F com b0 path u f n :
  files s (K, I) F com b0 → K !! path = Some u → blen path ≤ MAX_KEY_LEN → F !! u = Some f → commit_seq (hdr s) < 2 ^ 64 - 1 →
  f_counter f + 1 < 2 ^ 48 → 0 ≤ n ≤ MAX_FILE →
  soutcome s com b0 (extend path n s)
    (λ _ s', if n <=? blen (f_data f) then recached s s' ∧ files s' (K, I) F com b0
             else ∃ a, settled s K (<[u := le_bytes 8 a]> I) (<[u := extended f n]> F) com b0 s') (λ _ _, False).
Proof.
  intros [C Hf] Hp Hl Hu Hseq Hctr Hn.
  destruct (load_resizing C s K I F com b0 path u f "extend: no record for path" Hf Hp Hu Hctr)
    as (s1&a&old&osm&plains&Hload&Hrec&Hf1&Hz). pose proof Hz as [Hot Ha Hrh Hsl Hc Hst _].
  destruct (recached_keys _ _ Hrec) as (Hb&Hk&Hhdr).
  unfold extend. rewrite bind_run, Hload, Hc, <-(hs_len _ _ _ _ _ _ Hst).
  destruct (Z.leb_spec n (blen (f_data f))); [by split; [|exists C]|].
  assert (∃ exp, exp_ok exp ∧ (plains = [] ∨ sm_fragsize_exp osm = exp) ∧
    (if blen (sm_unit_map osm) =? 0 then derive_fragsize_exp n FRAGSIZE_FLOOR_EXP ENGINE_MAX_FRAGSIZE_EXP
     else Ok (sm_fragsize_exp osm)) = Ok exp) as (e&Hee&Hexpe&Hde).
  { pose proof (hs_shape _ _ _ _ _ _ Hst) as [Hm _ _ ? _]. rewrite Hm. destruct (Z.eqb_spec (blen plains) 0) as [E|E].
    - destruct (derive_ok n Hn) as (e&->&?). exists e. split_and!; [done| |done].
      left. destruct plains; [done|]. rewrite blen_cons in E. pose proof (blen_nonneg plains). lia.
    - exists (sm_fragsize_exp osm). split_and!; [done|by right|done]. }
  rewrite (run_lift _ _ _ e Hde). pose proof (blen_nonneg (f_data f)).
  destruct (chop_ok e n Hee ltac:(lia)) as (_&l&Hll&_). rewrite (run_lift _ _ _ l Hll).
  unfold bump_stream. rewrite bind_run, (run_asks_res _ _ _ (f_counter f + 1, vv_at (local_alias s1) (f_counter f + 1))).
  2: { cbn. rewrite (hs_vv _ _ _ _ _ _ Hst). apply bump_vv_at. apply (hs_counter _ _ _ _ _ _ Hst). }
  cbn [mret St_ret]. rewrite run_asks. apply (soutcome_base _ s1); [done|].
  eapply soutcome_mono; [eapply (install_staged s1 K I F com b0 path u (extended f n) _ s1 (λ _ _, False))| |done].
  - eapply extend_held; [done..|lia|done].
  - done.
  - done.
  - by rewrite Hhdr.
  - intros [] s' [a' Hs]. exists a'. by eapply settled_base.
Qed.

(** ** [truncate] *)

(** To zero bytes the version vector is dropped as well. *)
Definition truncated (f : File) (n : Z) : File :=
  if n =? 0 then empty_file else mkFile (ftruncate (f_data f) n) (f_counter f + 1) (f_short f).

Section cut.
Context {C : Claims} {s : Store} {K I : gmap bytes bytes} {F : gmap bytes File} {com : maps} {b0 : Backend.t} {u : bytes}
  {a : Z} {old : UnitRecord} {osm : StreamMeta} {plains : list bytes} {f : File}.
Hypothesis Hz : resizing C s K I F com b0 u a old osm plains f.
Context (n : Z).
Hypothesis Hn : 0 < n < blen (f_data f).
Local Abbreviation exp := (sm_fragsize_exp osm).
Local Abbreviation fs := (frag_bytes exp).
Local Abbreviation count := (div_ceil n fs).
Local Abbreviation last := (count - 1).
Local Abbreviation F' := (ftruncate (f_data f) n).

Lemma cut_range : exp_ok exp ∧ 4096 ≤ fs ≤ 2 ^ 25 ∧ 0 < count ≤ blen plains ∧ count ≤ 2 ^ 26 ∧ last * fs < n ≤ count * fs ∧ n ≤ MAX_FILE.
Proof.
  destruct Hz as [_ _ _ _ _ Hst _]. pose proof (hs_shape _ _ _ _ _ _ Hst) as Hsh. pose proof (sh_exp _ _ Hsh) as He.
  pose proof (frag_bytes_range exp He) as Hfs. pose proof (hs_small _ _ _ _ _ _ Hst) as Hsm. pose proof (hs_len _ _ _ _ _ _ Hst) as Hlen.
  destruct (chop_ok exp n He ltac:(lia)) as (Hcnt&l&_&Hl&Hsz&_). pose proof (sh_last _ _ Hsh) as Hla.
  rewrite (shaped_size _ _ Hsh) in Hlen, Hsm by apply blen_nonneg. pose proof (blen_nonneg plains).
  revert Hlen Hsm. destruct (Z.eqb_spec (blen plains) 0); [lia|]. intros Hlen Hsm. specialize (Hla ltac:(lia)).
  split_and!; try done; nia.
Qed.

(** What [reseal_last] makes of the last fragment. *)
Record cut_last (sm sm' : StreamMeta) (lp : bytes) (C' : Claims) (s' : Store) : Prop := {
  cl_frame : blen (sm_unit_map sm') = count ∧ blen (sm_locations sm') = count ∧ sm_vv sm' = sm_vv sm ∧
    sm_fragsize_exp sm' = exp ∧ sm_last_frag_length sm' = sm_last_frag_length sm ∧ sm_pins sm' = [];
  cl_rest : ∀ i, 0 ≤ i < last → sm_locations sm' !! Z.to_nat i = sm_locations osm !! Z.to_nat i ∧
    sm_unit_map sm' !! Z.to_nat i = sm_unit_map osm !! Z.to_nat i;
  cl_stored : ∀ r, ur_uuid r = u → content_frag_suite_id (hdr s') r last = content_frag_suite_id (hdr s') old last →
    frag_stored C' s' r sm' (Z.to_nat last) lp;
  cl_bytes : blen lp ≤ fs ∧ (∀ j, 0 ≤ j < fs → fbyte lp j = fbyte F' (last * fs + j)) ∧
    (hole_at sm' (Z.to_nat last) ∨ short_at osm (f_short f) (Z.to_nat last) ∨ n - last * fs ≤ blen lp);
  cl_ok : Forall u64 (sm_unit_map sm') ∧ Forall loc_ok (sm_locations sm');
}.

Lemma ftruncate_bytes x : 0 ≤ x → fbyte F' x = if decide (x < n) then fbyte (f_data f) x else Init.Byte.x00.
Proof using Hn.
  intros Hx. unfold ftruncate. case_decide; [by rewrite fbyte_resize by lia|]. apply fbyte_past. rewrite blen_resize; lia.
Qed.

Definition cut_stream (l : Z) : StreamMeta :=
  mkStream (take (Z.to_nat count) (sm_unit_map osm)) (take (Z.to_nat count) (sm_locations osm))
    (vv_at (local_alias s) (f_counter f + 1)) exp l [].

Lemma cut_frame l : blen (sm_unit_map (cut_stream l)) = count ∧ blen (sm_locations (cut_stream l)) = count ∧
  (∀ i, 0 ≤ i < count → sm_locations (cut_stream l) !! Z.to_nat i = sm_locations osm !! Z.to_nat i ∧
    sm_unit_map (cut_stream l) !! Z.to_nat i = sm_unit_map osm !! Z.to_nat i) ∧
  Forall u64 (sm_unit_map (cut_stream l)) ∧ Forall loc_ok (sm_locations (cut_stream l)).
Proof using Hz Hn.
  destruct cut_range as (_&_&?&_). destruct Hz as [_ _ Hrec _ Hc Hst _]. pose proof (hs_shape _ _ _ _ _ _ Hst) as [Hm Hl _ _ _].
  assert (stream_ok osm) as ([_ ?]&[_ ?]&_).
  { pose proof (rh_ok _ _ _ _ _ Hrec) as (_&Hs&_). rewrite Hc in Hs. by destruct Hs. }
  cbn. rewrite !blen_take by lia. split_and!; [lia|lia| |by apply Forall_take..].
  intros i Hi. by rewrite !lookup_take_lt by lia.
Qed.

(** The last fragment stays: it is a hole or its cut is at its end. *)
Lemma cut_keep l loc :
  sm_locations osm !! Z.to_nat last = Some loc → is_hole loc = true ∨ n = count * fs →
  ∃ lp, cut_last (cut_stream l) (cut_stream l) lp C s.
Proof using Hz Hn.
  intros Hloc Hor. destruct cut_range as (He&Hfs&Hcnt&_&Hlast&_). destruct (cut_frame l) as (Hm&Hl&Hrest&Hok).
  pose proof Hz as [_ _ Hrec _ Hc Hst _]. pose proof (hs_shape _ _ _ _ _ _ Hst) as Hsh.
  destruct (lookup_lt_is_Some_2 plains (Z.to_nat last)) as [p Hp]; [unfold blen in *; lia|].
  destruct (hs_frags _ _ _ _ _ _ Hst _ _ Hp) as [Hf Hpl]. destruct (Hrest last ltac:(lia)) as [E1 E2].
  assert (∀ j, 0 ≤ j < fs → fbyte p j = fbyte (f_data f) (last * fs + j)) as Hpb.
  { intros j Hj. rewrite <-(old_bytes C s old osm plains f exp) by (done || lia || by right). by rewrite Hp. }
  exists p. split; [done|intros i Hi; apply Hrest; lia| | |done].
  - intros r Hr Hid. eapply frag_kept; [done..| |by rewrite Hr, (rh_uuid _ _ _ _ _ Hrec)]. by rewrite Z2Nat.id by lia.
  - split_and!; [done| |].
    + intros j Hj. rewrite ftruncate_bytes by nia. case_decide; [by apply Hpb|]. destruct Hor as [Hh|Heq]; [|nia].
      destruct Hf as (loc'&v&Hloc'&_&Hcase). rewrite Hloc in Hloc'. injection Hloc' as <-. rewrite Hh in Hcase. by subst p.
    + destruct (hs_full _ _ _ _ _ _ Hst _ _ Hp) as [(loc'&?&?)|[?|Hdl]];
        [left; exists loc'; by rewrite E1|by right; left|right; right]. rewrite Z2Nat.id in Hdl by lia.
      destruct (shaped_frag_len _ _ last Hsh ltac:(lia)) as (_&_&Hll). pose proof (hs_len _ _ _ _ _ _ Hst). lia.
Qed.

Lemma reseal_spec l Fl :
  l = n - last * fs →
  soutcome s com b0
    (reseal_last old u (pread (f_data f) 0 n) (f_counter f + 1) exp (last * fs) n (cut_stream l) s)
    (λ sm' s', quiet s s' ∧ ∃ C' lp, ceng C' (engine s') (K, I) com b0 ∧ keeps (λ _, False) C C' ∧
       cut_last (cut_stream l) sm' lp C' s') Fl.
Proof using All.
  intros Hl. destruct cut_range as (He&Hfs&Hcnt&_&Hlast&_). destruct (cut_frame l) as (Hm&Hlc&Hrest&Hok1&Hok2).
  pose proof Hz as [Hot _ Hrec _ Hc Hst Hctr]. pose proof (ot_eng _ _ _ _ _ _ _ _ Hot) as Hce.
  pose proof (hs_shape _ _ _ _ _ _ Hst) as [Hm0 Hl0 _ _ _]. pose proof (rh_uuid _ _ _ _ _ Hrec) as Hu.
  destruct (lookup_lt_is_Some_2 (sm_locations osm) (Z.to_nat last)) as [loc Hloc]; [unfold blen in *; lia|].
  unfold reseal_last. rewrite Hm. destruct (Hrest last ltac:(lia)) as [E1 E2].
  rewrite (run_lift _ _ _ loc) by (apply index_list_ok; [lia|by rewrite E1]). cbn [sm_last_frag_length cut_stream].
  destruct (is_hole loc) eqn:Eh; cbn [negb andb].
  { destruct (cut_keep l loc Hloc ltac:(by left)) as [lp Hcl]. split; [done|]. exists C, lp. split_and!; [done|apply keeps_refl|done]. }
  destruct (Z.ltb_spec l fs) as [Hlt|Hge].
  2: { destruct (cut_keep l loc Hloc ltac:(right; lia)) as [lp Hcl]. split; [done|]. exists C, lp. split_and!; [done|apply keeps_refl|done]. }
  destruct (lookup_lt_is_Some_2 plains (Z.to_nat last)) as [p Hp]; [unfold blen in *; lia|].
  destruct (hs_frags _ _ _ _ _ _ Hst _ _ Hp) as [(loc'&v&Hloc'&_&Hcase) _]. rewrite Hloc in Hloc'. injection Hloc' as <-.
  rewrite Eh in Hcase. destruct Hcase as (suite&_&_&Hsu&_). rewrite Z2Nat.id in Hsu by lia.
  assert (∃ id, registry_get id = Some suite) as [id Hid].
  { unfold cipher_for_frag, suite_of in Hsu. eexists. destruct (registry_get _) eqn:E; [|done]. injection Hsu as <-. exact E. }
  assert (0 ≤ last * fs) as Hpos by nia.
  rewrite (run_lift _ _ _ (pread F' (last * fs) fs)).
  2: { rewrite index_range_ok by (rewrite ?blen_pread; lia). f_equal. apply file_ext.
       - rewrite !blen_pread, blen_take, blen_drop, !blen_pread, blen_ftruncate by lia. lia.
       - intros x Hx. rewrite blen_take, blen_drop, blen_pread in Hx by lia.
         rewrite fbyte_take, fbyte_drop, !fbyte_pread by lia. rewrite ftruncate_bytes, decide_True by lia. f_equal. }
  rewrite (run_asks_res _ _ _ suite) by done. pose proof (hs_counter _ _ _ _ _ _ Hst) as Hcr.
  pose proof (wr_alias _ (ot_ready _ _ _ _ _ _ _ _ Hot)) as Hal.
  pose proof (pack_dot_add (local_alias s) (f_counter f + 1) Hal ltac:(lia)) as Hdot. set (ver := _ * 2 ^ 16 + _) in Hdot.
  rewrite (run_asks_res _ _ _ ver) by done.
  assert (last * fs < blen F') as HF' by (rewrite blen_ftruncate; lia).
  destruct (seal_frag s id suite exp F' last (frag_ctx s u last ver) Hid He ltac:(lia) HF') as (ct&Hseal&Hopen&Hct).
  rewrite (run_asks_res _ _ _ ct) by exact Hseal.
  eapply soutcome_bind; [eapply (place_spec C s (K, I) com b0 (FragOf u last)); [done|lia]|].
  intros loc' s1 (Hq1&Hn1&Hh&Hlok&c&Hhold&Hc1). destruct (quiet_hdr _ _ Hq1) as [Hhdr Hkey].
  split; [done|]. exists (<[addr loc' := (FragOf u last, c)]> C), (frag_plain s suite exp F' last).
  split_and!; [done|by apply keeps_unclaimed|]. destruct (frag_plain_spec s id suite exp F' last Hid He ltac:(lia)) as (_&Hfl&Hfb).
  rewrite blen_ftruncate in Hfl by lia.
  split.
  - cbn in *. unfold blen in *. rewrite !length_insert. done.
  - intros i Hi. cbn [sm_set_frag sm_locations sm_unit_map]. rewrite !list_lookup_insert_ne by lia. apply Hrest. lia.
  - intros r Hr Hid'. exists loc', ver. cbn [sm_set_frag sm_locations sm_unit_map].
    rewrite !list_lookup_insert_eq by (unfold blen in *; lia). split_and!; [done..|]. rewrite Hh. exists suite, ct, c.
    rewrite Z2Nat.id, Hr by lia. unfold cipher_for_frag in *. rewrite Hid', Hhdr, Hkey. unfold frag_ctx in *. rewrite Hhdr.
    rewrite lookup_insert_eq. split_and!; try done. lia.
  - split_and!; [lia|done|right; right; lia].
  - cbn [sm_set_frag sm_locations sm_unit_map]. split; apply Forall_insert; try done. unfold ver. width_lia.
Qed.

Lemma cut_held l sm lp C' s' :
  l = n - last * fs → quiet s s' → ceng C' (engine s') (K, I) com b0 → keeps (λ _, False) C C' →
  cut_last (cut_stream l) sm lp C' s' →
  let cs := frag_suites_carryover (hdr s') old count in
  staged_as s K I F com b0 u (truncated f n) (successor u old a (Some sm) (ur_meta old) cs.1 cs.2) s'.
Proof using All.
  intros Hl Hq Hc' Hk [(Hbm&Hbl&Hvv&Hx&Hlast&Hp) Hrest Hsl [Hlp1 [Hlp2 Hlp3]] [Hok1 Hok2]] cs.
  destruct cut_range as (He&Hfs&Hcnt&Hcnt2&Hr&Hmax). pose proof Hz as [Hot Ha Hrec Hslim Hc Hst Hctr].
  pose proof (rh_ok _ _ _ _ _ Hrec) as Hok. pose proof (rh_uuid _ _ _ _ _ Hrec) as Hu.
  pose proof (hs_shape _ _ _ _ _ _ Hst) as Hsh0. pose proof Hsh0 as [Hm0 Hl0 _ _ _].
  pose proof Hq as (_&_&_&_&Hal&_). set (r := successor _ _ _ _ _ _ _).
  set (g := λ i, if i =? last then lp else default [] (plains !! Z.to_nat i)).
  assert (∀ i, 0 ≤ i < count → content_frag_suite_id (hdr s') r i = content_frag_suite_id (hdr s') old i) as Hid.
  { intros i Hi. unfold r, cs. rewrite carried_suite by lia. unfold old_rec_frag_count, old_stream. rewrite Hc, Hm0.
    by replace (i <? blen plains) with true by lia. }
  assert (shaped sm count) as Hsh.
  { split; [done|done|lia|by rewrite <-Hx in He|]. rewrite Hlast, Hx. cbn [cut_stream sm_last_frag_length]. lia. }
  assert (stream_byte_len sm = n) as Hsize.
  { rewrite (shaped_size _ _ Hsh) by lia. rewrite Hx, Hlast. destruct (Z.eqb_spec count 0); [lia|]. cbn [cut_stream sm_last_frag_length]. lia. }
  assert (∀ i, 0 ≤ i < last → ∃ p, plains !! Z.to_nat i = Some p) as Hplains.
  { intros i Hi. apply lookup_lt_is_Some_2. unfold blen in *. lia. }
  assert (truncated f n = mkFile F' (f_counter f + 1) (f_short f)) as -> by (unfold truncated; by replace (n =? 0) with false by lia).
  assert (stream_held C' s' r sm (g <$> seqZ 0 count) (mkFile F' (f_counter f + 1) (f_short f))) as Hheld.
  { split.
    - by rewrite blen_seqZ_fmap by lia.
    - intros i p (->&Hi)%lookup_seqZ_fmap_Some. rewrite Hx. unfold g. destruct (Z.eqb_spec (Z.of_nat i) last) as [E|E].
      + split; [|done]. replace i with (Z.to_nat last) by lia. apply Hsl; [done|]. apply Hid. lia.
      + destruct (Hplains (Z.of_nat i) ltac:(lia)) as [p Hpi]. rewrite Hpi. destruct (hs_frags _ _ _ _ _ _ Hst _ _ Hpi) as [Hf Hpl].
        split; [|done]. destruct (Hrest (Z.of_nat i) ltac:(lia)) as [E1 E2]. rewrite Nat2Z.id in *.
        eapply (frag_kept C' s' old osm); [|done..|apply Hid; lia|done].
        eapply frag_stored_mono; [by apply quiet_keys|exact Hf|]. intros x c Hxx. by apply Hk; auto.
    - done.
    - rewrite Hvv, Hal. done.
    - pose proof (hs_counter _ _ _ _ _ _ Hst). cbn. lia.
    - cbn [f_data]. rewrite blen_ftruncate, Hsize; lia.
    - rewrite Hx. cbn [f_data]. intros x Hx0. destruct (split_offset exp x He Hx0) as (i&j&->&Hi&Hj). rewrite frag_byte_at by done.
      destruct (Z.lt_ge_cases i count) as [Hic|Hic].
      + rewrite lookup_seqZ_fmap by lia. cbn [default from_option id]. unfold g. destruct (Z.eqb_spec i last) as [->|Hne]; [by apply Hlp2|].
        rewrite (old_bytes C s old osm plains f exp) by (done || by right).
        rewrite ftruncate_bytes, decide_True by nia. done.
      + rewrite lookup_ge_None_2 by (rewrite length_fmap, length_seqZ; lia). rewrite ftruncate_bytes, decide_False by nia. done.
    - lia.
    - cbn [f_short]. intros i p (->&Hi)%lookup_seqZ_fmap_Some. unfold full_at, short_at in *. rewrite Hx in *.
      destruct (shaped_frag_len _ _ (Z.of_nat i) Hsh ltac:(lia)) as (_&_&Hll). rewrite Hx, Hsize in Hll.
      unfold g. destruct (Z.eqb_spec (Z.of_nat i) last) as [E|E]; 
        [replace (Z.to_nat last) with i in Hlp3 by lia; destruct Hlp3 as [?|[?|?]]; [by left|by right; left|right; right; lia]|].
      destruct (Hplains (Z.of_nat i) ltac:(lia)) as [p Hpi]. rewrite Hpi.
      destruct (Hrest (Z.of_nat i) ltac:(lia)) as [E1 _]. rewrite Nat2Z.id in *.
      destruct (hs_full _ _ _ _ _ _ Hst _ _ Hpi) as [(loc&?&?)|[?|Hdl]]; [left; exists loc; by rewrite E1|by right; left|right; right]. destruct (shaped_frag_len _ _ (Z.of_nat i) Hsh0 ltac:(lia)) as (_&_&Hll0).
      pose proof (hs_len _ _ _ _ _ _ Hst). cbn [default from_option id]. lia. }
  pose proof (ceng_header _ _ _ _ _ Hc') as [Hci Hcc].
  destruct (carried_ok (hdr s') old count Hci Hcc Hok ltac:(lia)) as (Hs1&Hs2&Hs3).
  eapply (staged_intro C s s' C'); [done|done| |done|done| |done|exact Hheld].
  - eapply keeps_weaken; [done|]. done.
  - eapply successor_held; [exact Hheld|try done..].
    + rewrite Hal. apply (ot_ready _ _ _ _ _ _ _ _ Hot).
    + rewrite Hlast. cbn [cut_stream sm_last_frag_length]. width_lia.
    + by rewrite blen_seqZ_fmap by lia.
Qed.

End cut.

(** Truncation to nothing. *)
Lemma cut_zero C s K I F com b0 u a old osm plains f :
  resizing C s K I F com b0 u a old osm plains f →
  staged_as s K I F com b0 u (truncated f 0)
    (successor u old a (Some empty_content_stream) (ur_meta old) (content_cipher (hdr s)) []) s.
Proof.
  intros [Hot Ha Hrec Hsl Hc Hst _]. pose proof (ceng_header _ _ _ _ _ (ot_eng _ _ _ _ _ _ _ _ Hot)) as [_ Hcc].
  eapply (staged_intro C s s C); [done|done|apply keeps_refl|apply Hot|done| |done|apply empty_held].
  eapply (successor_held C s); [apply empty_held|by apply Hrec|by apply Hrec|done|done|apply (ot_ready _ _ _ _ _ _ _ _ Hot)|by_compute|constructor|constructor|done|constructor|done].
Qed.

Lemma resizing_reread C s s1 K I F com b0 u a old osm plains f :
  resizing C s K I F com b0 u a old osm plains f → same_keys s s1 → files_with C s1 (K, I) F com b0 →
  resizing C s1 K I F com b0 u a old osm plains f.
Proof.
  intros [] Hk Hf. split; try done; [by apply files_others|by eapply rec_held_mono|by eapply (stream_held_mono C C)].
Qed.

Lemma truncate_file_spec s K I F com b0 path u f n :
  files s (K, I) F com b0 → K !! path = Some u → blen path ≤ MAX_KEY_LEN → F !! u = Some f → commit_seq (hdr s) < 2 ^ 64 - 1 →
  f_counter f + 1 < 2 ^ 48 → u64 n → RecordCache.tick (record_cache (engine s)) + 2 < 2 ^ 64 →
  soutcome s com b0 (truncate path n s)
    (λ _ s', if blen (f_data f) <=? n then recached s s' ∧ files s' (K, I) F com b0
             else ∃ a, settled s K (<[u := le_bytes 8 a]> I) (<[u := truncated f n]> F) com b0 s') (λ _ _, False).
Proof.
  intros [C Hf] Hp Hl Hu Hseq Hctr Hn Htick.
  destruct (load_resizing C s K I F com b0 path u f "truncate: no record for path" Hf Hp Hu Hctr)
    as (s1&a&old&osm&plains&Hload&Hrec&Hf1&Hz). pose proof Hz as [Hot Ha Hrh Hsl Hc Hst _].
  destruct (recached_keys _ _ Hrec) as (Hb&Hk&Hhdr).
  unfold truncate. rewrite bind_run, Hload, Hc, <-(hs_len _ _ _ _ _ _ Hst).
  destruct (Z.leb_spec (blen (f_data f)) n) as [Hle|Hlt]; [by split; [|exists C]|].
  destruct (Z.eqb_spec n 0) as [->|Hn0].
  { unfold truncate_zero. rewrite run_asks. apply (soutcome_base _ s1); [done|].
    eapply soutcome_mono; [eapply (install_staged s1 K I F com b0 path u (truncated f 0) _ s1 (λ _ _, False)); [|done|done|by rewrite Hhdr]| |done].
    - by eapply cut_zero.
    - intros [] s' [a' Hs]. exists a'. by eapply settled_base. }
  destruct (read_at_with C s1 K I F com b0 path u f 0 n) as (s2&k&Hread&(rc&cache&Hs2)&Hf2&Hk0&_); [done|done|done|by_compute|done| |].
  { destruct Hrec as [rc ->]. done. }
  rewrite (Hk0 (or_intror eq_refl)) in Hread. rewrite bind_run, Hread. change (zeros 0 ++ ?x) with x.
  assert (base (engine s1) (engine s2) ∧ same_keys s1 s2 ∧ hdr s2 = hdr s1) as (Hb2&Hk2&Hhdr2) by (rewrite Hs2; by split_and!).
  pose proof (resizing_reread _ _ _ _ _ _ _ _ _ _ _ _ _ _ Hz Hk2 Hf2) as Hz2.
  assert (0 < n < blen (f_data f)) as Hn' by width_lia. destruct (cut_range Hz2 n Hn') as (He&Hfs&Hcnt&_&Hr&_).
  cbv zeta. assert (Z.min (blen (pread (f_data f) 0 n)) n = n) as -> by (rewrite blen_pread; lia).
  destruct (Z.eqb_spec n 0); [lia|]. rewrite (hs_pins _ _ _ _ _ _ Hst), Z.mod_small by lia. cbn [fmap list_fmap].
  unfold bump_stream. rewrite bind_run, (run_asks_res _ _ _ (f_counter f + 1, vv_at (local_alias s2) (f_counter f + 1))).
  2: { cbn. destruct Hz2 as [_ _ _ _ _ Hst2 _]. rewrite (hs_vv _ _ _ _ _ _ Hst2). apply bump_vv_at. apply (hs_counter _ _ _ _ _ _ Hst2). }
  cbn [mret St_ret]. apply (soutcome_base _ s1); [done|]. apply (soutcome_base _ s2); [done|].
  eapply soutcome_bind; [by apply (reseal_spec Hz2 n Hn')|].
  intros sm s3 (Hq3&C3&lp&Hc3&Hk3&Hcl). rewrite run_asks.
  eapply soutcome_mono; [eapply (install_staged s2 K I F com b0 path u (truncated f n) _ s3 (λ _ _, False)); [|done|done|by rewrite Hhdr2, Hhdr]| |done].
  - by apply (cut_held Hz2 n Hn' _ sm lp C3 s3 eq_refl).
  - intros [] s' [a' Hs]. exists a'. eapply settled_base; [done|done|]. by eapply settled_base.
Qed.

End ops.
