(* ===== verification/EngineProps.v ===== *)
(** * Properties of the engine

    Transactions are atomic with respect to crashes, the namespace operations
    are the operations on a finite map from paths to uuids, a subtree is
    renamed as a whole, and the record cache evicts the record that was used
    longest ago. *)

From S2P Require Import Prelude.
From S2P Require Import Text.
From S2P Require Import Backend.
From S2P Require Import Crypto.
From S2P Require Import Header.
From S2P Require Import Alloc.
From S2P Require Import AllocInv.
From S2P Require Import Unit.
From S2P Require Import Trie.
From S2P Require Import NodeHeap.
From S2P Require Import TrieMap.
From S2P Require Import TrieScan.
From S2P Require Import Catalog.
From S2P Require Import Engine.
From S2P Require Import EngineInv.

Section bodies.
Context `{!Crc32, !Hkdf, !Hmac, !AesGcm, !Entropy} {X : HeapPred} {HX : HeapExt X}.

(** ** Bodies of transactions *)

(** What the operations of the engine do to the catalogs. *)
Inductive action :=
| KeyPut (path uuid : bytes)
| KeyRemove (path : bytes)
| IdPut (uuid : bytes) (record_addr : Z).

Definition do_action (a : action) : EM () :=
  match a with
  | KeyPut path uuid => key_put path uuid;; forget path
  | KeyRemove path => key_remove path;; forget path
  | IdPut uuid x => id_put uuid x
  end.
Fixpoint do_actions (l : list action) : EM () :=
  match l with
  | [] => mret ()
  | a :: l' => do_action a;; do_actions l'
  end.

Definition apply_action (m : maps) (a : action) : maps :=
  match a with
  | KeyPut path uuid => (<[path := uuid]> m.1, m.2)
  | KeyRemove path => (delete path m.1, m.2)
  | IdPut uuid x => (m.1, <[uuid := le_bytes 8 x]> m.2)
  end.

Definition action_ok (a : action) : Prop :=
  match a with
  | KeyPut path uuid => ¬ too_long path ∧ blen uuid = 16
  | KeyRemove _ => True
  | IdPut uuid _ => blen uuid = 16
  end.

(** A staged step, seen from the start of the operation. *)
Lemma refused_step e e1 e2 cur cur' com b0 :
  refused e cur com b0 e1 → refused e1 cur' com b0 e2 → refused e cur' com b0 e2.
Proof. intros (_&Hb&_) (Hco&Hb'&He). split; [done|]. split; [by eapply base_trans|done]. Qed.

Lemma forget_staged e e1 K K' I com b0 path :
  coherent e K → staged e (K', I) com b0 e1 → (∀ p, p ≠ path → K' !! p = K !! p) →
  refused e (K', I) com b0 (set_resolve_cache (delete path (resolve_cache e1)) e1).
Proof.
  intros Hco (Hb&Hrc&He) HK. split_and!; [|done|by apply eng_cache].
  apply (coherent_forget e1 K); [by eapply coherent_same|done].
Qed.

Lemma do_action_spec a e m com b0 F :
  eng e m com b0 → coherent e m.1 → action_ok a →
  outcome e com b0 (do_action a e) (λ _, refused e (apply_action m a) com b0) F.
Proof.
  destruct m as [K I]. cbn [fst]. intros He Hco Hok. destruct a as [path uuid|path|uuid x]; cbn [do_action action_ok] in *.
  - eapply outcome_bind.
    + eapply outcome_mono; [apply (key_put_spec e K I com b0 path uuid He); tauto|done|].
      intros er e' (_&?&_). tauto.
    + intros [] e1 Hst. apply (forget_staged e e1 K); [done..|]. intros p Hp. by rewrite lookup_insert_ne.
  - eapply outcome_bind; [exact (key_remove_spec _ _ _ _ _ path _ He)|]. intros v e1 (_&Hst).
    apply (forget_staged e e1 K); [done..|]. intros p Hp. by rewrite lookup_delete_ne.
  - eapply outcome_ok; [exact (id_put_spec _ _ _ _ _ uuid x _ He Hok)|].
    intros _ e1 (Hb&Hrc&He1). split_and!; [by eapply coherent_same|done|done].
Qed.

Lemma do_actions_spec l : ∀ e m com b0 F,
  eng e m com b0 → coherent e m.1 → Forall action_ok l →
  outcome e com b0 (do_actions l e) (λ _, refused e (foldl apply_action m l) com b0) F.
Proof.
  induction l as [|a l IH]; intros e m com b0 F He Hco Hl; cbn [do_actions foldl].
  { by apply refused_refl. }
  apply Forall_cons in Hl as [Ha Hl]. eapply outcome_bind; [by apply do_action_spec|].
  intros ? e1 Hr. pose proof Hr as (Hco1&Hb1&He1). eapply outcome_base; [exact Hb1|].
  eapply outcome_ok; [by apply IH|]. intros ? e2 Hr2. by eapply refused_step.
Qed.

(** ** Renaming a subtree *)

Definition moved_key (old new k : bytes) : bytes := new ++ drop (length old) k.
Definition move1 (old new : bytes) (K : gmap bytes bytes) (kv : bytes * bytes) : gmap bytes bytes :=
  delete kv.1 (<[moved_key old new kv.1 := kv.2]> K).

Lemma move_all_spec old new moves : ∀ e K I com b0,
  eng e (K, I) com b0 → coherent e K → Forall (λ kv, blen kv.2 = 16) moves →
  body_ok (move_all old new moves) com b0 e
    (λ _ cur, Forall (λ kv, ¬ too_long (moved_key old new kv.1)) moves ∧ cur = (foldl (move1 old new) K moves, I))
    (λ er cur, er = Integrity "trie key too long" ∧ ∃ l1 kv l2, moves = l1 ++ kv :: l2 ∧
       Forall (λ kv, ¬ too_long (moved_key old new kv.1)) l1 ∧ too_long (moved_key old new kv.1) ∧
       cur = (foldl (move1 old new) K l1, I)).
Proof.
  induction moves as [|[k u] moves IH]; intros e K I com b0 He Hco Hu; cbn [move_all].
  { exists (K, I). split; [done|]. by apply refused_refl. }
  apply Forall_cons in Hu as [Hu Hus]. cbn in Hu. fold (moved_key old new k).
  destruct (Z.le_gt_cases (blen (moved_key old new k)) MAX_KEY_LEN) as [Hlen|Hlen].
  2: { unfold body_ok, outcome. rewrite key_put_refused by (unfold too_long; lia). left. exists (K, I).
       split; [|by apply refused_refl]. split; [done|]. exists [], (k, u), moves. split_and!; [done|done|cbn; unfold too_long; lia|done]. }
  eapply outcome_bind.
  { eapply outcome_mono; [apply (key_put_spec e K I com b0 (moved_key old new k) u He Hu)|done|].
    intros er e' (_&Hl&_). unfold too_long in Hl. lia. }
  intros ? e1 (Hb1&Hc1&He1). eapply outcome_bind.
  { eapply outcome_base; [exact Hb1|]. exact (key_remove_spec _ _ _ _ _ k _ He1). }
  intros v2 e2 (_&Hb2&Hc2&He2). unfold forget. rewrite !run_modify. set (e3 := set_resolve_cache _ _).
  assert (refused e (move1 old new K (k, u), I) com b0 e3) as Hr.
  { split_and!; [|by eapply base_trans|by apply eng_cache, eng_cache].
    apply (coherent_forget2 e2 K); [eapply coherent_same; [|exact Hco]; congruence|].
    intros p Hp1 Hp2. cbn. by rewrite lookup_delete_ne, lookup_insert_ne by done. }
  pose proof Hr as (Hco3&Hb3&He3). eapply outcome_base; [exact Hb3|].
  eapply outcome_mono; [by apply (IH e3 (move1 old new K (k, u)) I)|..]; cbn [foldl].
  - intros ? e4 (cur&[Hl ->]&Hr4). eexists. split; [split; [constructor; [unfold too_long; cbn; lia|done]|done]|].
    by eapply refused_step.
  - intros er e4 (cur&(->&l1&kv&l2&->&Hl1&Hl&->)&Hr4). eexists. split; [|by eapply refused_step].
    split; [done|]. exists ((k, u) :: l1), kv, l2. split_and!; [done| |done..].
    constructor; [unfold too_long; cbn; lia|done].
Qed.

(** *** The effect of the moves on the namespace *)

Lemma is_sub_spec k base : is_sub k base = true ↔ k = base ∨ ∃ q, k = base ++ SLASH :: q.
Proof.
  unfold is_sub. rewrite orb_true_iff, !andb_true_iff, !bool_decide_eq_true, Z.ltb_lt. split.
  - intros [->|[[Hl Ht] Hs]]; [by left|right]. exists (drop (S (length base)) k).
    rewrite <-(take_drop (length base) k) at 1. rewrite Ht. f_equal. by apply drop_S.
  - intros [->|[q ->]]; [by left|right]. rewrite take_app_length, blen_app, blen_cons, list_lookup_middle by done.
    pose proof (blen_nonneg q). split_and!; [lia|done|done].
Qed.

Lemma at_or_below_sub base k : base `prefix_of` k → at_or_below base k = is_sub k base.
Proof.
  intros [q ->]. apply eq_bool_prop_intro. rewrite !Is_true_true, is_sub_spec. unfold at_or_below.
  rewrite orb_true_iff, andb_true_iff, bool_decide_eq_true, Z.eqb_eq, Z.ltb_lt, blen_app.
  rewrite lookup_app_r, Nat.sub_diag by lia. split.
  - intros [Hq|[_ Hq]]; [left|right].
    + destruct q as [|x q]; [by rewrite app_nil_r|]. rewrite blen_cons in Hq. pose proof (blen_nonneg q). lia.
    + destruct q as [|x q]; [done|]. injection Hq as ->. by exists q.
  - intros [Hq|[q' Hq]].
    + left. rewrite <-(app_nil_r base) in Hq at 2. apply app_inv_head in Hq as ->. change (blen []) with 0. lia.
    + right. apply app_inv_head in Hq as ->. rewrite blen_cons. pose proof (blen_nonneg q'). split; [lia|done].
Qed.

Lemma fold_moves_other old new moves K k :
  k ∉ moves.*1 → (∀ kv, kv ∈ moves → moved_key old new kv.1 ≠ k) → foldl (move1 old new) K moves !! k = K !! k.
Proof.
  revert K. induction moves as [|kv moves IH]; intros K Hk Hm; cbn [foldl]; [done|].
  rewrite fmap_cons, not_elem_of_cons in Hk. destruct Hk as [Hne Hk]. rewrite IH; [|done|].
  - unfold move1. rewrite lookup_delete_ne, lookup_insert_ne; [done|apply Hm; by left|done].
  - intros kv' Hin. apply Hm. by right.
Qed.

Lemma fold_moves_in old new moves K kv :
  NoDup moves.*1 → (∀ kv1 kv2, kv1 ∈ moves → kv2 ∈ moves → moved_key old new kv1.1 ≠ kv2.1) →
  (∀ kv1 kv2, kv1 ∈ moves → kv2 ∈ moves → moved_key old new kv1.1 = moved_key old new kv2.1 → kv1.1 = kv2.1) →
  kv ∈ moves →
  foldl (move1 old new) K moves !! moved_key old new kv.1 = Some kv.2 ∧ foldl (move1 old new) K moves !! kv.1 = None.
Proof.
  revert K. induction moves as [|kv0 moves IH]; intros K Hnd Hne Hinj Hin; [by apply elem_of_nil in Hin|].
  rewrite fmap_cons in Hnd. apply NoDup_cons in Hnd as [Hfresh Hnd]. cbn [foldl].
  apply elem_of_cons in Hin as [->|Hin].
  - rewrite !fold_moves_other; try done.
    + unfold move1. rewrite lookup_delete_eq, lookup_delete_ne, lookup_insert_eq; [done|].
      intros Heq. by apply (Hne kv0 kv0); [left|left|].
    + intros kv' Hin'. apply Hne; [by right|by left].
    + intros (kv'&Heq&Hin')%list_elem_of_fmap. apply (Hne kv0 kv'); [by left|by right|done].
    + intros kv' Hin' Heq. apply Hfresh. apply Hinj in Heq; [|by right|by left]. rewrite <-Heq.
      apply list_elem_of_fmap. by exists kv'.
  - apply IH; [done|..|done].
    + intros. apply Hne; by right.
    + intros. apply Hinj; [by right..|done].
Qed.

(** The subtree of [old] moved to [new]. *)
Definition renamed (old new : bytes) (K K' : gmap bytes bytes) : Prop :=
  ∀ k, K' !! k = if is_sub k new then K !! (old ++ drop (length new) k)
                 else if is_sub k old then None else K !! k.

Lemma moved_key_sub old new k : is_sub k old = true → is_sub (moved_key old new k) new = true.
Proof.
  rewrite !is_sub_spec. unfold moved_key. intros [->|[q ->]].
  - left. by rewrite drop_all, app_nil_r.
  - right. exists q. by rewrite drop_app_length.
Qed.

Lemma moved_key_inj old new k k' :
  is_sub k old = true → is_sub k' old = true → moved_key old new k = moved_key old new k' → k = k'.
Proof.
  rewrite !is_sub_spec. intros Hk Hk' Heq%app_inv_head.
  assert (∀ k, k = old ∨ (∃ q, k = old ++ SLASH :: q) → k = old ++ drop (length old) k) as Hdrop.
  { intros k0 [->|[q ->]]; [by rewrite drop_all, app_nil_r|by rewrite drop_app_length]. }
  by rewrite (Hdrop k Hk), (Hdrop k' Hk'), Heq.
Qed.

Lemma fold_moves_renamed old new K moves :
  (∀ k u, (k, u) ∈ moves ↔ K !! k = Some u ∧ is_sub k old = true) → NoDup moves.*1 →
  (∀ k, is_sub k new = true → K !! k = None) → renamed old new K (foldl (move1 old new) K moves).
Proof.
  intros Hin Hnd Hnew.
  assert (∀ kv, kv ∈ moves → K !! kv.1 = Some kv.2 ∧ is_sub kv.1 old = true) as Hm by (intros [k u]; apply Hin).
  pose proof (λ K kv, fold_moves_in old new moves K kv Hnd) as Hfold.
  assert (∀ kv1 kv2, kv1 ∈ moves → kv2 ∈ moves → moved_key old new kv1.1 ≠ kv2.1) as Hne.
  { intros kv1 kv2 [_ H1']%Hm [H2' _]%Hm Heq. rewrite <-Heq, Hnew in H2'; [done|by apply moved_key_sub]. }
  specialize (λ kv, Hfold K kv Hne). assert (∀ kv1 kv2, kv1 ∈ moves → kv2 ∈ moves →
    moved_key old new kv1.1 = moved_key old new kv2.1 → kv1.1 = kv2.1) as Hinj.
  { intros kv1 kv2 [_ H1']%Hm [_ H2']%Hm. by apply moved_key_inj. }
  specialize (λ kv, Hfold kv Hinj). intros k.
  destruct (is_sub k new) eqn:En.
  - assert (∃ q, k = new ++ q ∧ is_sub (old ++ q) old = true) as (q&->&Hq).
    { apply is_sub_spec in En as [->|[q ->]]; [exists []|exists (SLASH :: q)]; rewrite ?app_nil_r; (split; [done|]);
        apply is_sub_spec; eauto. }
    rewrite drop_app_length. destruct (K !! (old ++ q)) as [u|] eqn:E.
    + destruct (Hfold (old ++ q, u)) as [Hs _]; [by apply Hin|]. cbn in Hs. unfold moved_key in Hs.
      by rewrite drop_app_length in Hs.
    + rewrite fold_moves_other, Hnew; [done|done|..].
      * intros ([k' u']&Heq&[Hk' _]%Hm)%list_elem_of_fmap. cbn in *. subst k'. rewrite Hnew in Hk'; done.
      * intros [k' u'] [Hk' Hs']%Hm. cbn in *. unfold moved_key. intros Heq%app_inv_head.
        apply is_sub_spec in Hs'. assert (k' = old ++ q) as ->; [|congruence].
        destruct Hs' as [->|[q' ->]]; [rewrite drop_all in Heq; subst q; by rewrite app_nil_r|].
        by rewrite drop_app_length in Heq; subst q.
  - destruct (is_sub k old) eqn:Eo.
    + destruct (K !! k) as [u|] eqn:E.
      * destruct (Hfold (k, u)) as [_ Hs]; [by apply Hin|]. done.
      * rewrite fold_moves_other; [done|..].
        -- intros ([k' u']&->&[Hk' _]%Hm)%list_elem_of_fmap. cbn in *. congruence.
        -- intros kv [_ Hs]%Hm Heq. apply (moved_key_sub _ new) in Hs. congruence.
    + rewrite fold_moves_other; [done|..].
      * intros ([k' u']&->&[_ Hk']%Hm)%list_elem_of_fmap. cbn in *. congruence.
      * intros kv [_ Hs]%Hm Heq. apply (moved_key_sub _ new) in Hs. congruence.
Qed.

Lemma collect_moves_ok old l :
  (∀ kv, kv ∈ l → at_or_below old kv.1 = true → utf8_valid kv.1 = true) →
  collect_moves old l = Ok (filter (λ kv, at_or_below old kv.1 = true) l).
Proof.
  induction l as [|[k u] l IH]; intros Hu; [done|]. cbn [collect_moves].
  assert (collect_moves old l = Ok (filter (λ kv, at_or_below old kv.1 = true) l)) as IH'
    by (apply IH; intros kv Hin; apply Hu; by right).
  destruct (at_or_below old k) eqn:E; cbn [negb].
  - pose proof (Hu (k, u) ltac:(by left) E) as Hk. cbn [fst] in Hk. unfold from_utf8. rewrite Hk.
    cbn [mbind res_bind]. rewrite IH'. cbn [mbind res_bind].
    by rewrite filter_cons_True.
  - rewrite IH', filter_cons_False; [done|]. cbn. by rewrite E.
Qed.

Lemma key_lt_irrefl k : ¬ key_lt k k.
Proof. induction k as [|x k IH]; [by intros []|]. intros [?|[_ ?]]; [lia|done]. Qed.

Lemma entries_NoDup M prefix l : entries_of M prefix l → NoDup l.*1.
Proof.
  intros [Hs _]. induction Hs as [|[k v] l Hl IH Hall]; [constructor|]. rewrite fmap_cons. constructor; [|done].
  intros ([k' v']&Heq&Hin)%list_elem_of_fmap. rewrite Forall_forall in Hall. specialize (Hall _ Hin). cbn in *. subst.
  by apply key_lt_irrefl in Hall.
Qed.

Lemma NoDup_fst_filter (P : bytes * bytes → Prop) `{!∀ x, Decision (P x)} l : NoDup l.*1 → NoDup (filter P l).*1.
Proof.
  induction l as [|kv l IH]; intros Hnd; [done|]. rewrite fmap_cons in Hnd. apply NoDup_cons in Hnd as [Hk Hnd].
  rewrite filter_cons. case_decide; [|by apply IH]. rewrite fmap_cons. constructor; [|by apply IH].
  intros (kv'&Heq&[_ Hin]%list_elem_of_filter)%list_elem_of_fmap. apply Hk, list_elem_of_fmap. by exists kv'.
Qed.

(** The keys of a namespace at or below a path. *)
Definition subtree (K : gmap bytes bytes) (base : bytes) : gmap bytes bytes :=
  filter (λ kv, is_sub kv.1 base = true) K.

Lemma scanned_moves K old l :
  entries_of K old l →
  let moves := filter (λ kv, at_or_below old kv.1 = true) l in
  NoDup moves.*1 ∧ (∀ k u, (k, u) ∈ moves ↔ K !! k = Some u ∧ is_sub k old = true) ∧
  blen moves = Z.of_nat (size (subtree K old)).
Proof.
  intros Hl moves. pose proof (entries_NoDup _ _ _ Hl) as Hnd. destruct Hl as [_ Hin].
  assert (NoDup moves.*1) as Hnd' by by apply NoDup_fst_filter.
  assert (∀ k u, (k, u) ∈ moves ↔ K !! k = Some u ∧ is_sub k old = true) as Hm.
  { intros k u. unfold moves. rewrite list_elem_of_filter, Hin. cbn. split.
    - intros (Hb&?&Hp). by rewrite <-at_or_below_sub.
    - intros [? Hs]. assert (old `prefix_of` k) as Hp.
      { apply is_sub_spec in Hs as [->|[q ->]]; [done|by eexists]. }
      by rewrite at_or_below_sub. }
  split_and!; [done..|]. unfold blen. f_equal. rewrite <-(map_size_list_to_map (M := gmap bytes) moves) by done.
  f_equal. apply map_eq. intros k. apply option_eq. intros u. unfold subtree.
  rewrite <-elem_of_list_to_map, Hm, map_lookup_filter_Some by done. done.
Qed.

Lemma targets_exist K new l :
  entries_of K new l → existsb (λ kv, at_or_below new kv.1) l = true ↔ ∃ k, is_Some (K !! k) ∧ is_sub k new = true.
Proof.
  intros Hl. destruct (scanned_moves K new l Hl) as (_&Hm&_). rewrite existsb_exists. split.
  - intros ([k u]&Hin%list_elem_of_In&Hb). assert ((k, u) ∈ filter (λ kv, at_or_below new kv.1 = true) l) as Hf
      by by apply list_elem_of_filter. apply Hm in Hf as [? ?]. eauto.
  - intros (k&[u Hu]&Hs). assert ((k, u) ∈ filter (λ kv, at_or_below new kv.1 = true) l) as Hf by by apply Hm.
    apply list_elem_of_filter in Hf as [? Hin]. exists (k, u). split; [by apply list_elem_of_In|done].
Qed.

Lemma StronglySorted_filter {A} (R : A → A → Prop) (P : A → Prop) `{!∀ x, Decision (P x)} (l : list A) :
  StronglySorted R l → StronglySorted R (filter P l).
Proof.
  induction 1 as [|x l Hl IH Hx]; [constructor|]. rewrite filter_cons. case_decide; [|done].
  constructor; [done|]. apply Forall_forall. intros y [_ Hy]%list_elem_of_filter. by eapply (proj1 (Forall_forall _ _) Hx).
Qed.

Lemma entries_keys_sorted l : StronglySorted entry_lt l → StronglySorted key_lt l.*1.
Proof.
  induction 1 as [|kv l _ IH Hf]; [constructor|]. rewrite fmap_cons. constructor; [done|]. by apply Forall_fmap.
Qed.

(** A subtree rename that stopped at the first path, in byte order, whose new
    name is too long: the paths before it have moved. *)
Definition partly_renamed (old new : bytes) (K K' : gmap bytes bytes) : Prop :=
  ∃ l1 kv l2, StronglySorted key_lt (l1 ++ kv :: l2).*1 ∧
    (∀ k u, (k, u) ∈ l1 ++ kv :: l2 ↔ subtree K old !! k = Some u) ∧
    Forall (λ kv, ¬ too_long (moved_key old new kv.1)) l1 ∧ too_long (moved_key old new kv.1) ∧
    K' = foldl (move1 old new) K l1.

Lemma rename_prefix_spec e K I com b0 old new :
  eng e (K, I) com b0 → coherent e K → commit_seq (header e) < 2 ^ 64 - 1 → Backend.len (backend e) ≤ 2 ^ 33 →
  map_Forall (λ k _, utf8_valid k = true) (subtree K old) →
  if is_sub new old then
    rename_prefix old new e = (Err (Integrity "rename_prefix: target is (inside) the source"), e)
  else if decide (subtree K old = ∅) then
    rename_prefix old new e = (Err (NotFound "rename_prefix: source not found"), e)
  else if decide (subtree K new = ∅) then
    outcome e com b0 (rename_prefix old new e)
      (λ n e', n = Z.of_nat (size (subtree K old)) ∧ ∃ K', renamed old new K K' ∧ completed e (K', I) com b0 e')
      (λ er e', er = Integrity "trie key too long" ∧ ∃ K', partly_renamed old new K K' ∧ refused e (K', I) com b0 e')
  else rename_prefix old new e = (Err (Integrity "rename_prefix: target exists"), e).
Proof.
  intros He Hco Hseq Hlen Hutf. unfold rename_prefix. destruct (is_sub new old) eqn:Eio; [done|].
  destruct (key_scan_spec e K I com b0 He old Hlen) as (l&Hl&Hle).
  destruct (key_scan_spec e K I com b0 He new Hlen) as (l2&Hl2&Hle2).
  destruct (scanned_moves K old l Hle) as (Hnd&Hm&Hsz). set (moves := filter _ l) in *.
  rewrite (run_step _ _ _ _ _ Hl).
  assert (∀ k u, subtree K old !! k = Some u ↔ (k, u) ∈ moves) as Hsub.
  { intros k u. unfold subtree. by rewrite map_lookup_filter_Some, Hm. }
  rewrite collect_moves_ok.
  2: { intros [k u] Hin Hb. apply (Hutf k u). apply Hsub, list_elem_of_filter. done. }
  fold moves. rewrite (run_step (lift _) _ _ moves e) by done. case_decide as E1.
  { rewrite bool_decide_true; [done|]. destruct moves as [|[k u] ms]; [done|].
    specialize (proj2 (Hsub k u) ltac:(by left)). by rewrite E1. }
  rewrite bool_decide_false.
  2: { intros Hnil. apply E1, map_empty. intros k. apply eq_None_not_Some. intros [u Hu%Hsub].
       rewrite Hnil in Hu. by apply elem_of_nil in Hu. }
  rewrite (run_step _ _ _ _ _ Hl2). pose proof (targets_exist K new l2 Hle2) as Ht.
  assert (subtree K new = ∅ ↔ ¬ ∃ k, is_Some (K !! k) ∧ is_sub k new = true) as Hempty.
  { split.
    - intros E (k&[u Hu]&Hs). assert (subtree K new !! k = Some u) as Hk by by apply map_lookup_filter_Some.
      by rewrite E in Hk.
    - intros Hno. apply map_empty. intros k. apply eq_None_not_Some. intros [u [Hu Hs]%map_lookup_filter_Some].
      apply Hno. eauto. }
  case_decide as E2; destruct (existsb _ l2) eqn:Ex; try done.
  - exfalso. by apply Hempty in E2; apply E2, Ht.
  - assert (∀ k, is_sub k new = true → K !! k = None) as Hnew.
    { intros k Hs. apply eq_None_not_Some. intros Hk. apply Hempty in E2. eauto. }
    eapply outcome_bind.
    + eapply outcome_mono; [eapply (transaction_spec _ _ _ e (K, I)); [done|done|]| |].
      * apply (move_all_spec old new moves (in_scope e) K I).
        -- by apply in_scope_eng.
        -- unfold in_scope. by destruct (suppress_commit e).
        -- apply Forall_forall. intros [k u] [Hk _]%Hm. cbn. by eapply (uuid_in e K I).
      * done.
      * intros er e' (cur&(->&l1&kv&l3&Hsplit&Hl1&Hlong&->)&Hr). split; [done|]. eexists. split; [|done].
        exists l1, kv, l3. rewrite <-Hsplit. split_and!; [|intros k u; by rewrite Hsub|done..].
        apply entries_keys_sorted, StronglySorted_filter, Hle.
    + intros ? e' (cur&[_ ->]&Hc). split; [done|]. eexists. split; [|done]. by apply fold_moves_renamed.
  - exfalso. apply E2, Hempty. intros Hex%Ht. done.
Qed.

End bodies.

(** ** Requests and their meaning *)

(** The operations on paths and the transactions of an engine, with the
    result and the maps that they are to produce. *)
Inductive request :=
| Rename (old new : bytes)
| Link (existing new : bytes)
| Remove (path : bytes)
| Batch (acts : list action).

Definition claim_path (K : gmap bytes bytes) (source new : bytes) (missing taken : string) : res bytes :=
  u ← ok_or (K !! source) (NotFound missing);
  if bool_decide (is_Some (K !! new)) then Err (Integrity taken)
  else if MAX_KEY_LEN <? blen new then Err (Integrity "trie key too long")
  else Ok u.
Definition meaning (r : request) (m : maps) : res maps :=
  match r with
  | Rename old new =>
      u ← claim_path m.1 old new "rename source missing" "rename target exists";
      Ok (delete old (<[new := u]> m.1), m.2)
  | Link existing new =>
      u ← claim_path m.1 existing new "link source missing" "link target exists";
      Ok (<[new := u]> m.1, m.2)
  | Remove path => ok_or (m.1 !! path) (NotFound "remove: path not found");; Ok (delete path m.1, m.2)
  | Batch acts => Ok (foldl apply_action m acts)
  end.
Definition request_ok (r : request) : Prop := if r is Batch acts then Forall action_ok acts else True.

(** The requests of a body, one after the other up to the first that fails;
    what the earlier ones have done stays. *)
Fixpoint run_all (rs : list request) (m : maps) : res () * maps :=
  match rs with
  | [] => (Ok (), m)
  | r :: rs' =>
      match meaning r m with
      | Ok m' => run_all rs' m'
      | Err er => (Err er, m)
      | Panic => (Panic, m)
      end
  end.

(** A request of its own, or several in one transaction. *)
Inductive operation := One (r : request) | Transact (rs : list request).

Definition operation_ok (o : operation) : Prop :=
  match o with One r => request_ok r | Transact rs => Forall request_ok rs end.

(** The reference: the maps in memory and the published ones. An operation that
    succeeds publishes the maps in memory; a request that fails leaves both
    alone; a transaction that fails keeps the part that has run in memory. *)
Definition operation_ref (o : operation) (s : maps * maps) : res () * (maps * maps) :=
  match o with
  | One r =>
      match meaning r s.1 with
      | Ok m => (Ok (), (m, m))
      | Err er => (Err er, s)
      | Panic => (Panic, s)
      end
  | Transact rs =>
      match run_all rs s.1 with
      | (Ok _, m) => (Ok (), (m, m))
      | (r, m) => (r, (m, s.2))
      end
  end.
Fixpoint operation_refs (l : list operation) (s : maps * maps) : list (res ()) * (maps * maps) :=
  match l with
  | [] => ([], s)
  | o :: l' =>
      let x := operation_ref o s in
      let rest := operation_refs l' x.2 in (x.1 :: rest.1, rest.2)
  end.

Section requests.
Context `{!Crc32, !Hkdf, !Hmac, !AesGcm, !Entropy} {X : HeapPred} {HX : HeapExt X}.

Definition request_run (r : request) : EM () :=
  match r with
  | Rename old new => rename old new
  | Link existing new => link existing new
  | Remove path => unlink path
  | Batch acts => transaction (do_actions acts)
  end.
Fixpoint perform (rs : list request) : EM () :=
  match rs with
  | [] => mret ()
  | r :: rs' => request_run r;; perform rs'
  end.
Definition operation_run (o : operation) : EM () :=
  match o with
  | One r => request_run r
  | Transact rs => transaction (perform rs)
  end.
Fixpoint serve (l : list operation) : EM (list (res ())) :=
  match l with
  | [] => mret []
  | o :: l' => x ← caught (operation_run o); rest ← serve l'; mret (x :: rest)
  end.

(** The result of one request. *)
Definition answered (e : Engine) (m com : maps) (b0 : Backend.t) (x : res maps) (r : res () * Engine) : Prop :=
  match x with
  | Ok m' => outcome e com b0 r (λ _, completed e m' com b0) (λ _ _, False)
  | Err er => outcome e com b0 r (λ _ _, False) (λ er' e', er' = er ∧ refused e m com b0 e')
  | Panic => False
  end.

Lemma answered_err e m com b0 er e' : refused e m com b0 e' → answered e m com b0 (Err er) (Err er, e').
Proof. intros Hr. left. done. Qed.

Lemma claim_path_cases K source new missing taken :
  match claim_path K source new missing taken with
  | Ok u => K !! source = Some u ∧ K !! new = None ∧ ¬ too_long new
  | Err er => K !! source = None ∧ er = NotFound missing ∨
      is_Some (K !! source) ∧ is_Some (K !! new) ∧ er = Integrity taken ∨
      is_Some (K !! source) ∧ K !! new = None ∧ too_long new ∧ er = Integrity "trie key too long"
  | Panic => False
  end.
Proof.
  unfold claim_path, too_long. destruct (K !! source) as [u|]; cbn; [|auto].
  case_bool_decide as Hn; [eauto|]. apply eq_None_not_Some in Hn.
  destruct (MAX_KEY_LEN <? blen new) eqn:E; [|split_and!; [done..|lia]].
  right; right. split_and!; [eauto|done|lia|done].
Qed.

Lemma batch_body acts e m com b0 :
  eng e m com b0 → coherent e m.1 → Forall action_ok acts →
  body_ok (do_actions acts) com b0 (in_scope e) (λ _ cur, cur = foldl apply_action m acts) (λ _ _, False).
Proof.
  intros He Hco Hok. eapply outcome_mono; [apply (do_actions_spec acts (in_scope e) m com b0 (λ _ _, False))|..].
  - by apply in_scope_eng.
  - unfold in_scope. by destruct (suppress_commit e).
  - done.
  - intros ? e2 Hr. by eexists.
  - done.
Qed.

Lemma request_spec r e m com b0 :
  eng e m com b0 → coherent e m.1 → commit_seq (header e) < 2 ^ 64 - 1 → request_ok r →
  answered e m com b0 (meaning r m) (request_run r e).
Proof.
  destruct m as [K I]. intros He Hco Hseq Hok.
  assert (refused e (K, I) com b0 e) as Href by by apply refused_refl.
  destruct r as [old new|old new|path|acts]; cbn [meaning request_run fst snd].
  - pose proof (claim_path_cases K old new "rename source missing" "rename target exists") as Hc.
    destruct (claim_path _ _ _ _ _) as [u|er|]; [..|done]; cbn [mbind res_bind].
    + destruct Hc as (?&?&?). by apply rename_spec.
    + destruct (rename_refused e K I com b0 He old new) as (R1&R2&R3).
      destruct Hc as [(?&->)|[(?&?&->)|(?&?&?&->)]]; [rewrite R1|rewrite R2|rewrite R3]; by try apply answered_err.
  - pose proof (claim_path_cases K old new "link source missing" "link target exists") as Hc.
    destruct (claim_path _ _ _ _ _) as [u|er|]; [..|done]; cbn [mbind res_bind].
    + destruct Hc as (?&?&?). by apply link_spec.
    + destruct (link_refused e K I com b0 He old new) as (R1&R2&R3).
      destruct Hc as [(?&->)|[(?&?&->)|(?&?&?&->)]]; [rewrite R1|rewrite R2|rewrite R3]; by try apply answered_err.
  - pose proof (unlink_spec e K I com b0 He Hco Hseq path) as Hu.
    destruct (K !! path) as [u|] eqn:E; cbn; (eapply outcome_mono; [exact Hu|..]).
    + by intros ? e' [_ ?].
    + by intros er e' (_&?&_).
    + by intros ? e' [[? [=]] _].
    + by intros er e' (->&_&?).
  - eapply outcome_mono; [eapply transaction_spec; [done..|by apply batch_body]|..].
    + by intros ? e' (cur&->&?).
    + by intros er e' (cur&[]&_).
Qed.

(** The requests of a body run inside the scope and publish nothing. *)
Lemma perform_spec rs : ∀ e m com b0,
  eng e m com b0 → coherent e m.1 → suppress_commit e = true → commit_seq (header e) < 2 ^ 64 - 1 → Forall request_ok rs →
  body_ok (perform rs) com b0 e (λ _ cur, run_all rs m = (Ok (), cur)) (λ er cur, run_all rs m = (Err er, cur)).
Proof.
  induction rs as [|r rs IH]; intros e m com b0 He Hco Hsup Hseq Hok; cbn [perform run_all].
  { exists m. split; [done|]. by apply refused_refl. }
  apply Forall_cons in Hok as [Hr Hrs]. pose proof (request_spec r e m com b0 He Hco Hseq Hr) as Ha.
  unfold answered in Ha. destruct (meaning r m) as [m'|er|] eqn:Em; [..|done].
  - eapply (outcome_bind _ _ _ _ _ _ (λ _, completed e m' com b0)); [eapply outcome_mono; [exact Ha|done|done]|].
    intros [] e1 (Hco1&_&Hs1&_&Hc). rewrite Hsup in Hc. destruct Hc as [Hb1 He1].
    assert (header e1 = header e) as Hh by apply Hb1. eapply outcome_base; [exact Hb1|].
    eapply outcome_mono; [apply (IH e1 m' com b0); try done; [congruence|by rewrite Hh]|..].
    + intros [] e2 (cur&?&Hr2). exists cur. split; [done|]. eapply refused_step; [|exact Hr2]. by split_and!.
    + intros er e2 (cur&?&Hr2). exists cur. split; [done|]. eapply refused_step; [|exact Hr2]. by split_and!.
  - eapply (outcome_bind _ _ _ _ _ _ (λ _ _, False)); [|done]. eapply outcome_mono; [exact Ha|done|].
    intros er' e1 (->&Hr1). by exists m.
Qed.

Lemma in_scope_body rs e m com b0 :
  eng e m com b0 → coherent e m.1 → commit_seq (header e) < 2 ^ 64 - 1 → Forall request_ok rs →
  body_ok (perform rs) com b0 (in_scope e) (λ _ cur, run_all rs m = (Ok (), cur)) (λ er cur, run_all rs m = (Err er, cur)).
Proof.
  intros He Hco Hseq Hok. pose proof (in_scope_base e) as (_&Hh&Hs&_).
  apply perform_spec; [by apply in_scope_eng| |by rewrite Hs|by rewrite Hh|done].
  unfold in_scope. by destruct (suppress_commit e).
Qed.

(** One operation: completed with new maps, or failed with the maps [x.2.1] in
    memory. *)
Lemma operation_spec o e m com b0 :
  eng e m com b0 → coherent e m.1 → commit_seq (header e) < 2 ^ 64 - 1 → operation_ok o →
  outcome e com b0 (operation_run o e)
    (λ _ e', ∃ m', operation_ref o (m, com) = (Ok (), (m', m')) ∧ completed e m' com b0 e')
    (λ er e', ∃ m', operation_ref o (m, com) = (Err er, (m', com)) ∧ refused e m' com b0 e').
Proof.
  intros He Hco Hseq Hok. destruct o as [r|rs]; cbn [operation_run operation_ref operation_ok fst snd] in *.
  - pose proof (request_spec r e m com b0 He Hco Hseq Hok) as Ha. unfold answered in Ha.
    destruct (meaning r m) as [m'|er|]; [..|done]; (eapply outcome_mono; [exact Ha|..]); try done.
    + intros [] e' ?. by exists m'.
    + intros er' e' (->&?). by exists m.
  - eapply outcome_mono; [eapply transaction_spec; [done..|by apply in_scope_body]|..].
    + intros [] e' (cur&->&?). by exists cur.
    + intros er e' (cur&->&?). by exists cur.
Qed.

(** An engine outside of a transaction, with the maps in memory and the
    published ones. *)
Definition idle (e : Engine) (s : maps * maps) : Prop :=
  (∃ b0, eng e s.1 s.2 b0) ∧ coherent e s.1.1 ∧ suppress_commit e = false.

Lemma operation_idle o e s :
  idle e s → commit_seq (header e) < 2 ^ 64 - 1 → operation_ok o → Backend.no_grow (backend e) = false →
  match operation_run o e with
  | (Panic, e') => exhausted e'
  | (x, e') => x = (operation_ref o s).1 ∧ idle e' (operation_ref o s).2 ∧
      root_key e' = root_key e ∧ Backend.no_grow (backend e') = false ∧
      commit_seq (header e') ≤ commit_seq (header e) + 1
  end.
Proof.
  destruct s as [m com]. intros ([b0 He]&Hco&Hsup) Hseq Hok Hg.
  pose proof (operation_spec o e m com b0 He Hco Hseq Hok) as Ho. unfold outcome, completed in Ho. rewrite Hsup, Hg in Ho.
  destruct (operation_run o e) as [[[]|er|] e']; [..|done].
  - destruct Ho as (m'&->&?&?&?&?&?&?). split_and!; try done; [|lia]. split_and!; [by eexists|done..].
  - destruct Ho as [(m'&->&?&(?&Hh&?&?&?)&?)|(_&?&_)]; [|done]. rewrite Hh.
    split_and!; try done; [|congruence|lia]. split_and!; [by eexists|done|congruence].
Qed.

Lemma serve_spec l : ∀ e s,
  idle e s → commit_seq (header e) + blen l < 2 ^ 64 - 1 → Forall operation_ok l → Backend.no_grow (backend e) = false →
  match serve l e with
  | (Ok rs, e') => rs = (operation_refs l s).1 ∧ idle e' (operation_refs l s).2 ∧ root_key e' = root_key e
  | (Err _, _) => False
  | (Panic, e') => exhausted e'
  end.
Proof.
  induction l as [|o l IH]; intros e s Hi Hseq Hl Hg; cbn [serve operation_refs fst snd]; [done|].
  apply Forall_cons in Hl as [Ho Hl]. rewrite blen_cons in Hseq. pose proof (blen_nonneg l).
  pose proof (operation_idle o e s Hi ltac:(lia) Ho Hg) as Ha. rewrite bind_run. unfold caught.
  set (s' := (operation_ref o s).2) in *.
  assert (∀ x e1, idle e1 s' → root_key e1 = root_key e → Backend.no_grow (backend e1) = false →
    commit_seq (header e1) ≤ commit_seq (header e) + 1 →
    match (rest ← serve l; mret (x :: rest)) e1 with
    | (Ok rs, e') => rs = x :: (operation_refs l s').1 ∧ idle e' (operation_refs l s').2 ∧ root_key e' = root_key e
    | (Err _, _) => False
    | (Panic, e') => exhausted e'
    end) as Hrest.
  { intros x e1 Hi1 Hk1 Hg1 Hs1. specialize (IH e1 s' Hi1 ltac:(lia) Hl Hg1). rewrite bind_run.
    destruct (serve l e1) as [[rs|?|] e2]; [|done..]. destruct IH as (->&?&?). cbn. split_and!; [done..|congruence]. }
  destruct (operation_run o e) as [[v|er|] e1]; [..|done]; destruct Ha as (->&?&?&?&?); by apply Hrest.
Qed.

(** ** New containers *)

Lemma zeroed_slot n g o :
  is_slot o → 2 * BASE_BLOCK ≤ n < 2 ^ 63 → slot_header (Backend.mk (zeros (Z.to_nat n)) n g) o = None.
Proof.
  intros Ho Hn. set (b := Backend.mk _ _ _).
  assert (Backend.wf b) as Hwf by (split; [cbn; rewrite blen_zeros|cbn]; slot_lia).
  assert (0 ≤ o ∧ o + WIRE_SIZE_V12 ≤ n) as Hr by (destruct Ho as [-> | ->]; slot_lia).
  unfold slot_header, read_slot. rewrite Backend.read_at_ok; [|done|lia|slot_lia|cbn; lia].
  assert (Backend.contents b o WIRE_SIZE_V12 = zeros (Z.to_nat WIRE_SIZE_V12)) as ->; [|done].
  unfold Backend.contents, b, zeros. cbn [Backend.mem]. rewrite drop_replicate, take_replicate. f_equal. slot_lia.
Qed.

Lemma zeroed_created n g k cipher key sl :
  (∀ a b, Allocator.open_pack a = None → X [] [] a b) → aligned n → 6 * BASE_BLOCK ≤ n < 2 ^ 63 → known_content_cipher cipher = true → blen sl = 16 →
  ∃ e, bootstrap_over_backend (Backend.mk (zeros (Z.to_nat n)) n g) k cipher key sl = Ok e ∧
    eng e (∅, ∅) (∅, ∅) (backend e) ∧ coherent e ∅ ∧ suppress_commit e = false ∧ root_key e = key ∧
    commit_seq (header e) = 1 ∧ content_cipher (header e) = cipher ∧ salt (header e) = sl ∧
    Backend.no_grow (backend e) = g ∧ Backend.len (backend e) = n.
Proof.
  intros HX0 Ha Hn Hc Hsl. apply bootstrap_spec; [done|split; [cbn; rewrite blen_zeros|cbn]; slot_lia|done|cbn; lia| |done|].
  - unfold known_content_cipher, CIPHER_NONE, CIPHER_AES256_GCM, CIPHER_XTS_AES256 in Hc.
    rewrite !orb_true_iff, !Z.eqb_eq in Hc. width_lia.
  - apply zeroed_slot; [by right|]. unfold BASE_BLOCK in *. lia.
Qed.

End requests.

(** ** Properties *)

(** Nothing is said here about the blocks that are not catalog nodes. *)
#[local] Existing Instance no_claims.

Section engine_properties.
Context `{!Crc32, !Hkdf, !Hmac, !AesGcm, !Entropy}.

(** C6. A new in-memory container answers any sequence of renames, links,
    removals, batches of catalog edits and transactions of such requests as two
    pairs of finite maps do, those in memory and those published: a request
    that fails changes neither, a transaction publishes all of its requests at
    once or, when one of them fails, none, and keeps those before it in memory.
    At the end the header and the two catalogs that load from the store are
    those of the published maps. The only other outcome is the exhaustion of
    the address space. (The head records behind the ids are not read here.) *)
Theorem container_serves n cipher key sl l :
  blen sl = 16 → blen l < 2 ^ 64 - 2 → Forall operation_ok l →
  if known_content_cipher cipher then
    ∃ e, create_in_memory_with_cipher_key_and_salt n cipher key sl = Ok e ∧
      opens_as (backend e) key (header e) (∅, ∅) ∧ commit_seq (header e) = 1 ∧
      content_cipher (header e) = cipher ∧ salt (header e) = sl ∧
      let ref := operation_refs l ((∅, ∅), (∅, ∅)) in
      match serve l e with
      | (Ok rs, e') => rs = ref.1 ∧ opens_as (backend e') key (header e') ref.2.2
      | (Err _, _) => False
      | (Panic, e') => exhausted e'
      end
  else create_in_memory_with_cipher_key_and_salt n cipher key sl = Err (Integrity "create: unknown content cipher suite").
Proof.
  intros Hsl Hl Hok. unfold create_in_memory_with_cipher_key_and_salt.
  destruct (known_content_cipher cipher) eqn:Hc; cbn [negb]; [|done].
  destruct (zeroed_created (64 * BASE_BLOCK) false n cipher key sl) as (e&Hrun&He&Hco&Hsup&Hk&Hseq&Hci&Hs&Hg&_);
    [done|by_compute|by_compute|done..|].
  exists e. subst key. split_and!; [exact Hrun|by eapply eng_opens|done..|]. cbv zeta.
  assert (idle e ((∅, ∅), (∅, ∅))) as Hi by (split_and!; [eauto|done|done]).
  pose proof (serve_spec l e _ Hi ltac:(lia) Hok Hg) as Hsv.
  destruct (serve l e) as [[rs|?|] e']; [|done..]. destruct Hsv as (->&([b0 He']&_)&Hk'). split; [done|].
  rewrite <-Hk'. by eapply eng_opens.
Qed.

Lemma in_scope_crash e e1 com b0 torn :
  base (in_scope e) e1 → safe e1 com b0 → crash_image b0 (backend e1) torn → opens_as torn (root_key e) (header e) com.
Proof.
  intros Hb Hs Ht. destruct (left_scope_base e e1 [] Hb) as (Hk&Hh&_). change (root_key e1 = root_key e) in Hk.
  change (header e1 = header e) in Hh. rewrite <-Hk, <-Hh. by eapply safe_crash.
Qed.

(** C7. A transaction is atomic in a crash. If the process dies in its body,
    after any number of the requests of the body, whatever the crash leaves of
    the unflushed writes loads with the header and the catalogs published
    before, although each of these requests publishes when it runs alone. When
    the transaction returns, one commit has published the effects of all of its
    requests; when it fails, with the error of the first request that failed or
    on a full device, the published header and catalogs are still those from
    before. *)
Theorem transaction_crash_atomic e m com b0 rs :
  eng e m com b0 → coherent e m.1 → suppress_commit e = false → commit_seq (header e) < 2 ^ 64 - 1 →
  Forall request_ok rs →
  (let e1 := (transaction (R := ()) (perform rs;; lift Panic) e).2 in
   exhausted e1 ∨ ∀ torn, crash_image b0 (backend e1) torn → opens_as torn (root_key e) (header e) com) ∧
  match transaction (perform rs) e with
  | (Ok _, e') => (run_all rs m).1 = Ok () ∧ commit_seq (header e') = commit_seq (header e) + 1 ∧
      ∀ torn, crash_image (backend e') (backend e') torn → opens_as torn (root_key e) (header e') (run_all rs m).2
  | (Err er, e') => ((run_all rs m).1 = Err er ∨ er = Io StorageFull ∧ Backend.no_grow (backend e) = true) ∧
      ∀ torn, crash_image b0 (backend e') torn → opens_as torn (root_key e) (header e) com
  | (Panic, e') => exhausted e'
  end.
Proof.
  intros He Hco Hsup Hseq Hok.
  split.
  - rewrite (transaction_enter _ e m com b0 He), Hsup. cbv zeta. rewrite bind_run. unfold caught. rewrite bind_run.
    pose proof (in_scope_body rs e m com b0 He Hco Hseq Hok) as Hb. unfold body_ok, outcome in Hb.
    destruct (perform rs (in_scope e)) as [[[]|er|] e1]; [..|by left]; right; intros torn.
    + destruct Hb as (cur&_&_&Hb1&Hs1%eng_safe). by eapply in_scope_crash.
    + rewrite finish_run by done.
      destruct Hb as [(cur&_&_&Hb1&Hs1%eng_safe)|(_&_&Hb1&Hs1)]; by eapply (in_scope_crash e e1).
  - pose proof (transaction_spec _ _ _ e m com b0 He Hseq (in_scope_body rs e m com b0 He Hco Hseq Hok)) as Ht.
    unfold outcome in Ht. destruct (transaction (perform rs) e) as [[[]|er|] e']; [..|done].
    + destruct Ht as (cur&->&_&Hk&_&_&Hc). rewrite Hsup in Hc. destruct Hc as (Hsq&He'). split_and!; [done..|].
      intros torn Hct. rewrite <-Hk. by eapply safe_crash; [eapply eng_safe|].
    + split.
      * destruct Ht as [(cur&->&_)|(->&?&_)]; auto.
      * intros torn Hct.
        destruct Ht as [(cur&_&_&(Hk&Hh&_)&Hs%eng_safe)|(_&_&(Hk&Hh&_)&Hs)]; rewrite <-Hk, <-Hh; by eapply safe_crash.
Qed.

(** C11. The publication of the catalogs is one header slot: a store in which
    that slot is torn reopens as before it, one in which it is written with
    the catalogs in memory; afterwards every crash image has the latter. *)
Theorem publish_crash_atomic e cur com b0 :
  eng e cur com b0 → suppress_commit e = false → commit_seq (header e) < 2 ^ 64 - 1 →
  ∃ e', publish e = (Ok (), e') ∧ commits e cur com (header e') (backend e') ∧
    commit_seq (header e') = commit_seq (header e) + 1 ∧
    ∀ torn, crash_image (backend e') (backend e') torn → opens_as torn (root_key e) (header e') cur.
Proof.
  intros He Hsup Hseq. destruct (publish_run e cur com b0) as (e'&Hrun&(He'&Hk&_&_&_&Hs)&Hcm); [done..|].
  exists e'. split_and!; [done..|]. intros torn Ht. rewrite <-Hk. eapply safe_crash; [by eapply eng_safe|done].
Qed.

(** C29. A transaction whose body fails publishes nothing, but its effects stay
    in the catalogs in memory: the next publication, of whatever operation,
    makes the part that had run durable. *)
Theorem failed_transaction_resurfaces e m b0 acts er :
  eng e m m b0 → coherent e m.1 → suppress_commit e = false → commit_seq (header e) < 2 ^ 64 - 1 →
  Backend.no_grow (backend e) = false → Forall action_ok acts →
  match transaction (R := ()) (do_actions acts;; lift (Err er)) e with
  | (Ok _, _) => False
  | (Panic, e1) => exhausted e1
  | (Err er', e1) => er' = er ∧ opens_as (backend e1) (root_key e) (header e) m ∧
      ∃ e2, publish e1 = (Ok (), e2) ∧ opens_as (backend e2) (root_key e) (header e2) (foldl apply_action m acts)
  end.
Proof.
  intros He Hco Hsup Hseq Hg Hok.
  pose proof (transaction_spec (R := ()) (do_actions acts;; lift (Err er)) (λ _ _, False)
    (λ er' cur, er' = er ∧ cur = foldl apply_action m acts) e m m b0 He Hseq) as Ht.
  lapply Ht; clear Ht.
  2: { eapply (outcome_bind _ _ _ _ _ _ (λ _, refused (in_scope e) (foldl apply_action m acts) m b0)).
       - pose proof (batch_body acts e m m b0 He Hco Hok) as Hb.
         eapply outcome_mono; [exact Hb|by intros ? e2 (cur&->&?)|by intros er' e2 (cur&[]&_)].
       - intros ? e2 Hr. left. eexists. done. }
  unfold outcome. destruct (transaction _ e) as [[v|er'|] e1].
  - by intros (cur&[]&_).
  - intros [(cur&[-> ->]&_&(Hk&Hh&Hs&_)&He1)|(_&?&_)]; [|congruence]. split; [done|].
    rewrite <-Hk, <-Hh. split; [by eapply eng_opens|].
    destruct (publish_run e1 _ _ _ He1) as (e2&Hrun&(He2&Hk2&_)&_); [congruence|by rewrite Hh|].
    exists e2. split; [done|]. rewrite <-Hk2. by eapply eng_opens.
  - done.
Qed.



Lemma path_strings_ok l : Forall (λ kv, utf8_valid kv.1 = true) l → path_strings l = Ok l.*1.
Proof.
  induction 1 as [|[k v] l Hk Hl IH]; [done|]. cbn [path_strings]. unfold from_utf8. cbn in Hk. rewrite Hk. cbn.
  by rewrite IH.
Qed.

(** C28. Lookups and listings read the namespace: [uuid_for_path] answers from
    its cache only what the catalog has, and [list] returns the paths with
    the prefix, in byte order, each once. The store has at most 8 GiB, which
    keeps the scan within the visit budget of the traversals, and the paths are
    UTF-8. *)
Theorem paths_read_exact e K I com b0 path :
  eng e (K, I) com b0 → coherent e K → Backend.len (backend e) ≤ 2 ^ 33 →
  map_Forall (λ k _, utf8_valid k = true) K →
  match K !! path with
  | Some u => ∃ rc, uuid_for_path path e = (Ok u, set_resolve_cache rc e) ∧ coherent (set_resolve_cache rc e) K
  | None => uuid_for_path path e = (Err (NotFound "path not found"), e)
  end ∧
  ∃ l, list_paths path e = (Ok l, e) ∧ StronglySorted key_lt l ∧
    ∀ k, k ∈ l ↔ is_Some (K !! k) ∧ path `prefix_of` k.
Proof.
  intros He Hco Hl Hutf. split; [by eapply uuid_for_path_spec|].
  destruct (key_scan_spec e K I com b0 He path Hl) as (l&Hrun&Hs&Hin). exists l.*1. split_and!.
  - unfold list_paths. rewrite (run_step _ _ _ _ _ Hrun), path_strings_ok; [done|].
    apply Forall_forall. intros [k u] [Hk _]%Hin. by apply (Hutf k u).
  - by apply entries_keys_sorted.
  - intros k. rewrite list_elem_of_fmap. split.
    + intros ([k' u]&->&[? ?]%Hin). eauto.
    + intros [[u Hu] Hp]. exists (k, u). split; [done|]. by apply Hin.
Qed.

End engine_properties.

(** ** The record cache *)

Section record_cache.
Import RecordCache.

Lemma min_by_last_from l : ∀ b, ∃ b',
  foldl (λ best kv, match best with
                    | None => Some kv
                    | Some b => if last kv.2 <? last b.2 then Some kv else best
                    end) (Some b) l = Some b' ∧
  b' ∈ b :: l ∧ Forall (λ kv : bytes * entry, last b'.2 ≤ last kv.2) (b :: l).
Proof.
  induction l as [|kv l IH]; intros b; cbn [foldl].
  { exists b. split_and!; [done|by left|by constructor]. }
  destruct (IH (if last kv.2 <? last b.2 then kv else b)) as (b'&Hf&Hin&Hall). exists b'.
  apply Forall_cons in Hall as [Hb Hall].
  destruct (last kv.2 <? last b.2) eqn:E; split_and!; [done|set_solver| |done|set_solver|];
    constructor; try lia; constructor; try lia; done.
Qed.

Lemma min_by_last_spec m :
  match min_by_last m with
  | None => m = ∅
  | Some (k, e) => m !! k = Some e ∧ ∀ k' e', m !! k' = Some e' → last e ≤ last e'
  end.
Proof.
  unfold min_by_last. destruct (map_to_list m) as [|kv l] eqn:El; cbn [foldl].
  { by apply map_to_list_empty_iff. }
  destruct (min_by_last_from l kv) as ([k e]&->&Hin&Hall). rewrite <-El in Hin, Hall.
  split; [by apply elem_of_map_to_list|]. intros k' e' Hk%elem_of_map_to_list.
  rewrite Forall_forall in Hall. by specialize (Hall _ Hk).
Qed.

(** A history of the cache. *)
Inductive cache_op := CGet (uuid : bytes) (addr : Z) | CPut (uuid : bytes) (addr : Z) (r : UnitRecord) | CClear.

Definition cache_run (op : cache_op) (c : t) : res (option UnitRecord * t) :=
  match op with
  | CGet uuid addr => RecordCache.get c uuid addr
  | CPut uuid addr r => c' ← put c uuid addr r; Ok (None, c')
  | CClear => Ok (None, clear c)
  end.
Fixpoint cache_history (ops : list cache_op) (c : t) : res (list (option UnitRecord) * t) :=
  match ops with
  | [] => Ok ([], c)
  | op :: ops' => x ← cache_run op c; y ← cache_history ops' x.2; Ok (x.1 :: y.1, y.2)
  end.

(** The reference: the records with their addresses, the most recently used
    first. A hit moves the record to the front, an insertion puts it there and
    keeps the first [cap] records. *)
Definition recency : Type := list (bytes * (Z * UnitRecord)).
Definition forget {A} (u : bytes) (l : list (bytes * A)) : list (bytes * A) := filter (λ x, x.1 ≠ u) l.
Definition recency_step (cap : Z) (op : cache_op) (l : recency) : option UnitRecord * recency :=
  match op with
  | CGet u a =>
      match (list_to_map l : gmap bytes (Z * UnitRecord)) !! u with
      | Some (a', r) => if a' =? a then (Some r, (u, (a', r)) :: forget u l) else (None, l)
      | None => (None, l)
      end
  | CPut u a r => (None, take (Z.to_nat cap) ((u, (a, r)) :: forget u l))
  | CClear => (None, [])
  end.
Fixpoint recency_history (cap : Z) (ops : list cache_op) (l : recency) : list (option UnitRecord) * recency :=
  match ops with
  | [] => ([], l)
  | op :: ops' =>
      let x := recency_step cap op l in
      let y := recency_history cap ops' x.2 in (x.1 :: y.1, y.2)
  end.

(** The entries of the cache by decreasing stamps, none ahead of the clock. *)
Definition stamped (es : list (bytes * entry)) : list (bytes * (Z * UnitRecord)) :=
  prod_map id (λ e, (e_addr e, rec e)) <$> es.
Definition by_recency (c : t) (es : list (bytes * entry)) : Prop :=
  map c = list_to_map es ∧ NoDup es.*1 ∧ StronglySorted (λ x y, last y.2 < last x.2) es ∧
  Forall (λ x, last x.2 ≤ tick c) es ∧ blen es ≤ cap c ∧ 0 ≤ tick c.

Lemma forget_map {A} u (l : list (bytes * A)) :
  (list_to_map (forget u l) : gmap bytes A) = delete u (list_to_map l).
Proof.
  unfold forget. induction l as [|[k x] l IH]; [symmetry; apply delete_empty|]. rewrite filter_cons.
  case_decide as E; cbn [fst] in E; rewrite !list_to_map_cons; [by rewrite IH, delete_insert_ne|].
  assert (k = u) as -> by (by destruct (decide (k = u))). by rewrite IH, delete_insert_eq.
Qed.

Lemma forget_absent {A} u (l : list (bytes * A)) : u ∉ l.*1 → forget u l = l.
Proof.
  unfold forget. induction l as [|[k x] l IH]; [done|]. intros Hu. cbn in Hu. apply not_elem_of_cons in Hu as [Hk Hu].
  rewrite filter_cons_True by (cbn; congruence). by rewrite IH.
Qed.

Lemma forget_snoc {A} (l : list (bytes * A)) x : forget x.1 (l ++ [x]) = forget x.1 l.
Proof. unfold forget. rewrite filter_app, filter_cons_False by tauto. by rewrite app_nil_r. Qed.

Lemma forget_stamped u es : forget u (stamped es) = stamped (forget u es).
Proof.
  unfold forget, stamped. induction es as [|[k x] es IH]; [done|]. rewrite fmap_cons, !filter_cons, IH. by repeat case_decide.
Qed.

Lemma stamped_map es :
  (list_to_map (stamped es) : gmap bytes _) = (λ e, (e_addr e, rec e)) <$> (list_to_map es : gmap bytes entry).
Proof. unfold stamped. by rewrite list_to_map_fmap. Qed.

(** A fresh stamp in front, with the older entry of the same file forgotten. *)
Lemma by_recency_front c es u addr r :
  by_recency c es → blen (forget u es) < cap c →
  by_recency (mk (cap c) (tick c + 1) (<[u := mkEntry addr r (tick c + 1)]> (map c)))
    ((u, mkEntry addr r (tick c + 1)) :: forget u es).
Proof.
  intros (Hm&Hnd&Hs&Ht&_&Ht0) Hl.
  assert (Forall (λ x, last x.2 < tick c + 1) (forget u es)) as Hf.
  { apply Forall_forall. intros x [_ Hx]%list_elem_of_filter. rewrite Forall_forall in Ht. specialize (Ht x Hx). lia. }
  split_and!.
  - cbn [map]. by rewrite Hm, list_to_map_cons, forget_map, insert_delete_eq.
  - cbn. apply NoDup_cons. split.
    + intros (x&->&[? _]%list_elem_of_filter)%list_elem_of_fmap. done.
    + eapply sublist_NoDup; [exact Hnd|]. apply fmap_sublist, sublist_filter.
  - constructor; [by apply StronglySorted_filter|exact Hf].
  - constructor; [cbn; lia|]. eapply Forall_impl; [exact Hf|]. cbn. lia.
  - rewrite blen_cons. cbn. lia.
  - cbn. lia.
Qed.

Lemma by_recency_tick c es : by_recency c es → by_recency (mk (cap c) (tick c + 1) (map c)) es.
Proof.
  intros (?&?&?&Ht&?&?). split_and!; [done..| |done|cbn; lia]. eapply Forall_impl; [exact Ht|]. cbn. lia.
Qed.

Lemma forget_length {A} u (l : list (bytes * A)) :
  blen (forget u l) ≤ blen l ∧ (u ∈ l.*1 → blen (forget u l) < blen l).
Proof.
  unfold forget. induction l as [|[k x] l [IH1 IH2]]; [split; [done|by intros ?%not_elem_of_nil]|].
  rewrite filter_cons. cbn [fmap list_fmap fst]. rewrite blen_cons. case_decide as E; rewrite ?blen_cons; split; try lia.
  intros [->|?]%elem_of_cons; [done|]. specialize (IH2 ltac:(done)). lia.
Qed.

(** The entry with the smallest stamp is the last one. *)
Lemma by_recency_last c es x :
  by_recency c (es ++ [x]) →
  min_by_last (map c) = Some x ∧ by_recency (mk (cap c) (tick c) (delete x.1 (map c))) es ∧ blen es + 1 ≤ cap c.
Proof.
  intros (Hm&Hnd&Hs&Ht&Hl&Ht0). rewrite blen_app in Hl. change (blen [x]) with 1 in Hl.
  assert (∀ k e, map c !! k = Some e ↔ (k, e) ∈ es ++ [x]) as Hin.
  { intros k e. rewrite Hm. symmetry. by apply elem_of_list_to_map. }
  assert (Forall (λ y, last x.2 < last y.2) es) as Hx.
  { clear -Hs. induction es as [|y es IH]; [constructor|]. inversion_clear Hs as [|?? Hs' Hy]. constructor; [|by apply IH].
    rewrite Forall_app, Forall_singleton in Hy. apply Hy. }
  split_and!; [| |lia].
  - pose proof (min_by_last_spec (map c)) as Hmin. destruct (min_by_last (map c)) as [[k e]|].
    + destruct Hmin as [[Hk|Hk%list_elem_of_singleton]%Hin%elem_of_app Hmin]; [|by subst x].
      rewrite Forall_forall in Hx. specialize (Hx _ Hk). destruct x as [kx ex].
      specialize (Hmin kx ex (proj2 (Hin kx ex) ltac:(set_solver))). cbn in Hx. lia.
    + destruct x as [kx ex]. assert (map c !! kx = Some ex) as Hc by (apply Hin; set_solver). by rewrite Hmin, lookup_empty in Hc.
  - rewrite fmap_app in Hnd. apply NoDup_app in Hnd as (Hnd&Hdis&_). apply Forall_app in Ht as [Ht _].
    split_and!; cbn [map cap tick]; [|done| |done|lia|done].
    + assert (x.1 ∉ es.*1) as Hne by (intros Hk; apply (Hdis _ Hk); set_solver).
      rewrite Hm, <-forget_map, forget_snoc, forget_absent by done. done.
    + clear -Hs. induction es as [|y es IH]; [constructor|]. inversion_clear Hs as [|?? Hs' Hy]. constructor; [by apply IH|].
      by apply Forall_app in Hy as [? _].
Qed.

Lemma put_recency c es u addr r :
  by_recency c es → tick c + 1 < 2 ^ 64 →
  ∃ c' es', put c u addr r = Ok c' ∧ by_recency c' es' ∧ cap c' = cap c ∧ tick c' ≤ tick c + 1 ∧
    stamped es' = take (Z.to_nat (cap c)) ((u, (addr, r)) :: forget u (stamped es)).
Proof.
  intros Hc Ht. pose proof Hc as (Hm&Hnd&_&_&Hl&Ht0). pose proof (blen_nonneg es) as Hn. unfold put.
  destruct (cap c =? 0) eqn:E0.
  { exists c, es. split_and!; [done..|lia|]. replace (cap c) with 0 by lia.
    destruct es; [done|]. rewrite blen_cons in Hl. pose proof (blen_nonneg es). lia. }
  rewrite add64_ok by lia. cbn [mbind res_bind]. destruct (forget_length u es) as [Hf1 Hf2].
  assert (u ∈ es.*1 ↔ is_Some (map c !! u)) as Hu.
  { rewrite Hm. rewrite <-not_eq_None_Some, <-not_elem_of_list_to_map. split; [tauto|]. by destruct (decide (u ∈ es.*1)). }
  assert (size (map c) = length es) as Hsz by (by rewrite Hm, map_size_list_to_map).
  assert (∀ es', blen es' < cap c → take (Z.to_nat (cap c)) ((u, (addr, r)) :: stamped es') = (u, (addr, r)) :: stamped es') as Htk.
  { intros es' Hl'. apply take_ge. unfold stamped. cbn. rewrite length_fmap. unfold blen in Hl'. lia. }
  rewrite forget_stamped. destruct (_ && _) eqn:E.
  - apply andb_true_iff in E as [Hfull%Z.leb_le Hab%negb_true_iff%bool_decide_eq_false].
    assert (u ∉ es.*1) as Hne by (by rewrite Hu). rewrite Hsz in Hfull.
    destruct es as [|x es' _] using rev_ind; [unfold blen in *; cbn in *; lia|].
    destruct (by_recency_last _ _ _ Hc) as (->&Hc'&Hl'). destruct x as [lru e]. cbn [fst] in Hc'.
    rewrite fmap_app, not_elem_of_app in Hne. destruct Hne as [Hne Hnx]. rewrite forget_absent by set_solver.
    eexists _, _. split_and!; [done|apply (by_recency_front _ _ u addr r Hc'); cbn; by rewrite forget_absent; [lia|]|done..|].
    rewrite forget_absent by done. unfold stamped. cbn. rewrite fmap_app, app_comm_cons, take_app_length'; [done|].
    cbn. rewrite length_fmap. rewrite length_app in Hfull. unfold blen in Hl'. cbn in Hfull. lia.
  - assert (blen (forget u es) < cap c) as Hlt.
    { apply andb_false_iff in E as [Hf%Z.leb_gt|Hu'%negb_false_iff%bool_decide_eq_true%Hu]; [|specialize (Hf2 Hu'); lia].
      rewrite Hsz in Hf. unfold blen in *. lia. }
    eexists _, _. split_and!; [done|by apply by_recency_front|done..|]. by rewrite Htk.
Qed.

Lemma get_recency c es u addr :
  by_recency c es → tick c + 1 < 2 ^ 64 →
  ∃ c' es', RecordCache.get c u addr = Ok ((recency_step (cap c) (CGet u addr) (stamped es)).1, c') ∧ by_recency c' es' ∧
    cap c' = cap c ∧ tick c' ≤ tick c + 1 ∧ stamped es' = (recency_step (cap c) (CGet u addr) (stamped es)).2.
Proof.
  intros Hc Ht. pose proof Hc as (Hm&Hnd&_&_&Hl&Ht0). unfold RecordCache.get. cbn [recency_step].
  rewrite add64_ok by lia. cbn [mbind res_bind]. rewrite stamped_map, lookup_fmap, <-Hm.
  pose proof (by_recency_tick _ _ Hc) as Hc'.
  destruct (map c !! u) as [e|] eqn:Eu; cbn [fmap option_fmap option_map]; [|by eexists _, _].
  destruct (e_addr e =? addr) eqn:Ea; cbn [negb]; [|by eexists _, _].
  rewrite forget_stamped. eexists _, _. split_and!; [done|apply by_recency_front; [done|]|done..].
  destruct (forget_length u es) as [_ Hf]. rewrite Hm in Eu. apply elem_of_list_to_map in Eu; [|done].
  specialize (Hf (list_elem_of_fmap_2 fst es (u, e) Eu)). lia.
Qed.

Lemma by_recency_nil c : map c = ∅ → 0 ≤ cap c → 0 ≤ tick c → by_recency c [].
Proof. intros Hm ??. split_and!; [exact Hm|apply NoDup_nil_2|constructor..|done|done]. Qed.

Lemma cache_run_recency op c es :
  by_recency c es → tick c + 1 < 2 ^ 64 →
  ∃ c' es', cache_run op c = Ok ((recency_step (cap c) op (stamped es)).1, c') ∧ by_recency c' es' ∧
    cap c' = cap c ∧ tick c' ≤ tick c + 1 ∧ stamped es' = (recency_step (cap c) op (stamped es)).2.
Proof.
  intros Hc Ht. destruct op as [u addr|u addr r|]; cbn [cache_run].
  - by apply get_recency.
  - destruct (put_recency c es u addr r Hc Ht) as (c'&es'&->&?). by exists c', es'.
  - destruct Hc as (_&_&_&_&Hl&?). exists (clear c), []. pose proof (blen_nonneg es).
    split; [done|]. split; [|split_and!; [done|cbn; lia|done]].
    apply by_recency_nil; cbn; [done|lia|done].
Qed.

Lemma cache_history_recency ops : ∀ c es,
  by_recency c es → tick c + blen ops < 2 ^ 64 →
  ∃ c' es', cache_history ops c = Ok ((recency_history (cap c) ops (stamped es)).1, c') ∧ by_recency c' es' ∧
    cap c' = cap c ∧ stamped es' = (recency_history (cap c) ops (stamped es)).2.
Proof.
  induction ops as [|op ops IH]; intros c es Hc Ht; cbn [cache_history recency_history]; [by exists c, es|].
  rewrite blen_cons in Ht. pose proof (blen_nonneg ops).
  destruct (cache_run_recency op c es Hc ltac:(lia)) as (c1&es1&->&Hc1&Hcap&Ht1&Hst). cbn [mbind res_bind snd fst].
  destruct (IH c1 es1 Hc1 ltac:(lia)) as (c2&es2&->&?&?&?). rewrite Hcap, Hst in *. exists c2, es2. split_and!; [done..|congruence|done].
Qed.

(** C32. The record cache is a least-recently-used cache: over any history of (fewer than 2^64)
    lookups, insertions and clears it answers as the list of the records by
    their last use does, in which a hit moves a record to the front, an
    insertion puts it there in place of an older record of the same file and
    keeps the first [cap] records, and a record is found only under the address
    it was inserted with. The cache holds exactly the records of that list, at
    most [cap]. *)
Theorem record_cache_lru n ops :
  0 ≤ n → blen ops < 2 ^ 64 →
  let ref := recency_history n ops [] in
  ∃ c, cache_history ops (RecordCache.new n) = Ok (ref.1, c) ∧
    (λ e, (e_addr e, rec e)) <$> map c = list_to_map ref.2 ∧ NoDup ref.2.*1 ∧
    Z.of_nat (size (map c)) = blen ref.2 ∧ blen ref.2 ≤ n.
Proof.
  intros Hn Hl ref.
  destruct (cache_history_recency ops (RecordCache.new n) []) as (c&es&Hrun&(Hm&Hnd&_&_&Hes&_)&Hcap&Hst).
  { by apply by_recency_nil. }
  { cbn. lia. }
  change (cap (RecordCache.new n)) with n in *. change (stamped []) with (@nil (bytes * (Z * UnitRecord))) in *.
  assert (blen ref.2 = blen es) as Hb by (unfold ref; rewrite <-Hst; unfold stamped, blen; by rewrite length_fmap).
  exists c. split_and!; [done|..].
  - unfold ref. by rewrite <-Hst, stamped_map, Hm.
  - unfold ref. rewrite <-Hst. unfold stamped. by rewrite <-list_fmap_compose.
  - rewrite Hb, Hm, map_size_list_to_map by done. done.
  - lia.
Qed.

End record_cache.

(** ** Concrete engines *)

Section engine_witnesses.
Import Concrete.
#[local] Existing Instance ex_entropy.

Definition ex_salt : bytes := replicate 16 (byte.of_Z 9).
Definition ex_uuid : bytes := replicate 16 (byte.of_Z 7).
Definition ex_actions : list action := [KeyPut (bstr "/a") ex_uuid; IdPut ex_uuid 12288].
Definition ex_operations : list operation :=
  [One (Batch ex_actions); Transact [Rename (bstr "/a") (bstr "/b"); Link (bstr "/b") (bstr "/c")];
   Transact [Remove (bstr "/c"); Rename (bstr "/a") (bstr "/d")]; One (Remove (bstr "/a"))].

Lemma ex_actions_ok : Forall action_ok ex_actions.
Proof. repeat constructor; by_compute. Qed.

Lemma ex_applied :
  foldl apply_action (∅, ∅) ex_actions = ({[bstr "/a" := ex_uuid]}, {[ex_uuid := le_bytes 8 12288]}).
Proof. by rewrite <-!insert_empty. Qed.

(** A container in a store of 64 blocks. *)
Lemma ex_engine :
  ∃ e, eng e (∅, ∅) (∅, ∅) (backend e) ∧ coherent e ∅ ∧ suppress_commit e = false ∧ commit_seq (header e) < 2 ^ 64 - 1 ∧
    Backend.no_grow (backend e) = false ∧ Backend.len (backend e) ≤ 2 ^ 33.
Proof.
  destruct (zeroed_created (64 * BASE_BLOCK) false 0 CIPHER_AES256_GCM ex_trie_key ex_salt)
    as (e&_&?&?&?&_&Hs&_&_&?&Hl); [done|by_compute|by_compute|by_compute|by_compute|].
  exists e. rewrite Hs, Hl. split_and!; [assumption..|by_compute|assumption|by_compute].
Qed.

Lemma container_serves_witness :
  ∃ e, create_in_memory_with_cipher_key_and_salt 0 CIPHER_AES256_GCM ex_trie_key ex_salt = Ok e ∧
    match serve ex_operations e with
    | (Ok rs, e') =>
        rs = [Ok (); Ok (); Err (NotFound "rename source missing"); Err (NotFound "remove: path not found")] ∧
        ∃ m, opens_as (backend e') ex_trie_key (header e') m ∧ m.1 !! bstr "/a" = None ∧
          m.1 !! bstr "/b" = Some ex_uuid ∧ m.1 !! bstr "/c" = Some ex_uuid
    | (Err _, _) => False
    | (Panic, e') => exhausted e'
    end.
Proof.
  assert (Forall operation_ok ex_operations) as Hok by (repeat constructor; by_compute).
  pose proof (container_serves 0 CIPHER_AES256_GCM ex_trie_key ex_salt ex_operations ltac:(by_compute) ltac:(by_compute) Hok)
    as H. change (known_content_cipher CIPHER_AES256_GCM) with true in H. cbv iota in H.
  destruct H as (e&Hrun&_&_&_&_&Hs). cbv zeta in Hs.
  exists e. split; [assumption|]. destruct (serve ex_operations e) as [[rs|er|] e']; [|assumption..].
  destruct Hs as (->&Ho). split; [vm_compute; reflexivity|].
  exists (operation_refs ex_operations ((∅, ∅), (∅, ∅))).2.2. split; [exact Ho|].
  split_and!; vm_compute; reflexivity.
Defined.

Lemma ex_linked :
  run_all [Batch ex_actions; Link (bstr "/a") (bstr "/b")] (∅, ∅) =
    (Ok (), (<[bstr "/b" := ex_uuid]> {[bstr "/a" := ex_uuid]}, {[ex_uuid := le_bytes 8 12288]})).
Proof.
  cbn [run_all meaning]. rewrite ex_applied. cbn [fst snd]. unfold claim_path.
  rewrite lookup_singleton_eq, lookup_singleton_ne by by_compute. done.
Qed.

Lemma transaction_crash_atomic_witness :
  ∃ e, let rs := [Batch ex_actions; Link (bstr "/a") (bstr "/b")] in
    (let e1 := (transaction (R := ()) (perform rs;; lift Panic) e).2 in
     exhausted e1 ∨
     ∀ torn, crash_image (backend e) (backend e1) torn → opens_as torn (root_key e) (header e) (∅, ∅)) ∧
    match transaction (perform rs) e with
    | (Ok _, e') => commit_seq (header e') = commit_seq (header e) + 1 ∧
        ∀ torn, crash_image (backend e') (backend e') torn →
          opens_as torn (root_key e) (header e')
            (<[bstr "/b" := ex_uuid]> {[bstr "/a" := ex_uuid]}, {[ex_uuid := le_bytes 8 12288]})
    | (Err er, e') => False
    | (Panic, e') => exhausted e'
    end.
Proof.
  destruct ex_engine as (e&He&Hco&Hsup&Hseq&Hng&_). exists e. cbv zeta.
  assert (Forall request_ok [Batch ex_actions; Link (bstr "/a") (bstr "/b")]) as Hok
    by (repeat constructor; by_compute).
  destruct (transaction_crash_atomic e (∅, ∅) (∅, ∅) (backend e) _ He Hco Hsup Hseq Hok) as [Hcrash Hend].
  split; [exact Hcrash|].
  clear Hcrash. pose proof ex_linked as Hrun. destruct (transaction _ e) as [[u|er|] e'].
  - rewrite Hrun in Hend. exact (proj2 Hend).
  - rewrite Hrun in Hend. destruct Hend as [[H|[_ H]] _]; [discriminate H|congruence].
  - exact Hend.
Defined.

Lemma publish_crash_atomic_witness :
  ∃ e e', publish e = (Ok (), e') ∧ opens_as (backend e') (root_key e) (header e') (∅, ∅).
Proof.
  destruct ex_engine as (e&He&Hco&Hsup&Hseq&_&Hl). exists e.
  destruct (publish_crash_atomic e (∅, ∅) (∅, ∅) (backend e) He Hsup Hseq) as (e'&Hrun&_&_&Ho). exists e'.
  split; [assumption|]. destruct (publish_run e (∅, ∅) (∅, ∅) (backend e) He Hsup Hseq) as (e1&Hrun1&(He1&_)&_).
  rewrite Hrun1 in Hrun. injection Hrun as ->. apply Ho. destruct He1 as (h&rest&packed&Hd&_).
  split_and!; [|apply Z.le_refl|auto]. apply Hd.
Defined.

Lemma failed_transaction_resurfaces_witness :
  ∃ e, match transaction (R := ()) (do_actions ex_actions;; lift (Err (NotFound "caller"))) e with
  | (Ok _, _) => False
  | (Panic, e1) => exhausted e1
  | (Err er', e1) => er' = NotFound "caller" ∧ opens_as (backend e1) (root_key e) (header e) (∅, ∅) ∧
      ∃ e2, publish e1 = (Ok (), e2) ∧
        opens_as (backend e2) (root_key e) (header e2) ({[bstr "/a" := ex_uuid]}, {[ex_uuid := le_bytes 8 12288]})
  end.
Proof.
  destruct ex_engine as (e&He&Hco&Hsup&Hseq&Hg&_). exists e. rewrite <-ex_applied.
  exact (failed_transaction_resurfaces e (∅, ∅) (backend e) ex_actions _ He Hco Hsup Hseq Hg ex_actions_ok).
Defined.


(** The container with the paths /a, /a/x and /ab. *)
Definition ex_tree : list action :=
  [KeyPut (bstr "/a") ex_uuid; KeyPut (bstr "/a/x") ex_salt; KeyPut (bstr "/ab") ex_uuid].
Definition ex_names : gmap bytes bytes :=
  <[bstr "/ab" := ex_uuid]> (<[bstr "/a/x" := ex_salt]> (<[bstr "/a" := ex_uuid]> ∅)).
Definition batched (c : res Engine) (acts : list action) : res Engine :=
  e ← c; let r := request_run (Batch acts) e in r.1;; Ok r.2.
Abbreviation ex_store := (Backend.mk (zeros (Z.to_nat (8 * BASE_BLOCK))) (8 * BASE_BLOCK) false).
Definition small (c : res Engine) : bool :=
  match c with Ok e => Backend.len (backend e) <=? 2 ^ 33 | _ => false end.
Abbreviation ex_named := (batched (bootstrap_over_backend ex_store 0 CIPHER_AES256_GCM ex_trie_key ex_salt) ex_tree).

Lemma batched_ok e acts m :
  eng e m m (backend e) → coherent e m.1 → suppress_commit e = false → commit_seq (header e) < 2 ^ 64 - 1 →
  Forall action_ok acts → small (batched (Ok e) acts) = true →
  ∃ e', batched (Ok e) acts = Ok e' ∧ Backend.len (backend e') ≤ 2 ^ 33 ∧ coherent e' (foldl apply_action m acts).1 ∧
    eng e' (foldl apply_action m acts) (foldl apply_action m acts) (backend e') ∧
    suppress_commit e' = false ∧ commit_seq (header e') = commit_seq (header e) + 1.
Proof.
  intros He Hco Hsup Hseq Hok. unfold batched. cbn [mbind res_bind].
  pose proof (request_spec (Batch acts) e m m (backend e) He Hco Hseq Hok) as Ha.
  destruct (request_run (Batch acts) e) as [[[]|er|] e']; [|done..]. intros Hl%Z.leb_le.
  destruct Ha as (Hco'&_&Hs&_&Hc). rewrite Hsup in Hs, Hc. destruct Hc as [? ?]. by exists e'.
Qed.

Lemma ex_named_runs : small ex_named = true.
Proof. vm_compute. reflexivity. Qed.

Lemma ex_named_engine :
  ∃ e, ex_named = Ok e ∧ eng e (ex_names, ∅) (ex_names, ∅) (backend e) ∧ coherent e ex_names ∧
    suppress_commit e = false ∧ commit_seq (header e) < 2 ^ 64 - 1 ∧ Backend.len (backend e) ≤ 2 ^ 33.
Proof.
  pose proof ex_named_runs as Hr.
  destruct (zeroed_created (8 * BASE_BLOCK) false 0 CIPHER_AES256_GCM ex_trie_key ex_salt)
    as (e&Hrun&He&Hco&Hsup&_&Hs&_); [done|by_compute|by_compute|by_compute|by_compute|].
  rewrite Hrun in Hr |- *.
  destruct (batched_ok e ex_tree (∅, ∅) He Hco Hsup) as (e'&->&Hl&Hco'&He'&Hsup'&Hseq);
    [rewrite Hs; by_compute|repeat constructor; by_compute|exact Hr|].
  exists e'. split; [reflexivity|]. rewrite Hseq, Hs. split; [exact He'|]. split; [exact Hco'|]. split; [exact Hsup'|].
  split; [by_compute|exact Hl].
Qed.

Lemma ex_names_utf8 : map_Forall (λ k _, utf8_valid k = true) ex_names.
Proof. unfold ex_names. repeat (apply map_Forall_insert_2; [by_compute|]). apply map_Forall_empty. Qed.

Lemma ex_subtree_utf8 : map_Forall (λ k _, utf8_valid k = true) (subtree ex_names (bstr "/a")).
Proof. intros k u [Hk _]%map_lookup_filter_Some. exact (ex_names_utf8 k u Hk). Qed.

Lemma ex_subtree :
  subtree ex_names (bstr "/a") = <[bstr "/a/x" := ex_salt]> (<[bstr "/a" := ex_uuid]> ∅) ∧ subtree ex_names (bstr "/b") = ∅.
Proof.
  unfold subtree, ex_names. split; repeat (first
    [rewrite map_filter_insert_True by by_compute
    |rewrite map_filter_insert_not' by (try by_compute; intros ?; rewrite ?lookup_insert_ne, ?lookup_empty by by_compute; done)]);
    by rewrite map_filter_empty.
Qed.

Definition moves (c : res Engine) (old new : bytes) : res Z := e ← c; (rename_prefix old new e).1.

Lemma ex_named_moves : moves ex_named (bstr "/a") (bstr "/b") = Ok 2.
Proof. vm_compute. reflexivity. Qed.


Lemma paths_read_exact_witness :
  ∃ e, (∃ e', uuid_for_path (bstr "/a/x") e = (Ok ex_salt, e')) ∧
    ∃ l, list_paths (bstr "/a/") e = (Ok l, e) ∧ bstr "/a/x" ∈ l ∧ bstr "/a" ∉ l.
Proof.
  destruct ex_named_engine as (e&_&He&Hco&_&_&Hl). exists e. split.
  - pose proof (proj1 (paths_read_exact e ex_names ∅ (ex_names, ∅) (backend e) (bstr "/a/x") He Hco Hl ex_names_utf8)) as H.
    change (ex_names !! bstr "/a/x") with (Some ex_salt) in H. destruct H as (rc&H&_). eexists. exact H.
  - destruct (proj2 (paths_read_exact e ex_names ∅ (ex_names, ∅) (backend e) (bstr "/a/") He Hco Hl ex_names_utf8))
      as (l&H&_&Hin). exists l. split; [exact H|]. split.
    + apply Hin. split; [by eexists|]. by exists (bstr "x").
    + intros [_ [k Hk]]%Hin. discriminate Hk.
Defined.

Lemma record_cache_lru_witness :
  ∃ c, cache_history [CPut ex_uuid 8192 (ex_unit None); CPut ex_salt 12288 (ex_unit None); CGet ex_uuid 8192;
      CPut ex_trie_key 16384 (ex_unit None); CGet ex_salt 12288; CGet ex_uuid 8192; CGet ex_uuid 4096] (RecordCache.new 2) =
    Ok ([None; None; Some (ex_unit None); None; None; Some (ex_unit None); None], c) ∧
    Z.of_nat (size (RecordCache.map c)) = 2.
Proof.
  destruct (record_cache_lru 2 [CPut ex_uuid 8192 (ex_unit None); CPut ex_salt 12288 (ex_unit None); CGet ex_uuid 8192;
      CPut ex_trie_key 16384 (ex_unit None); CGet ex_salt 12288; CGet ex_uuid 8192; CGet ex_uuid 4096]
      ltac:(by_compute) ltac:(by_compute)) as (c&Hrun&_&_&Hs&_).
  exists c. split; [exact Hrun|exact Hs].
Defined.

End engine_witnesses.
