(* ===== verification/ContentProps.v ===== *)
(** * The file system of a container

    Files and names together: a session of requests on a new container is
    answered as by a map from paths to byte strings with hard links, where
    [pwrite], [ftruncate] and [pread] change and read the files. *)

From S2P Require Import Prelude.
From S2P Require Import BTree.
From S2P Require Import Posix.
From S2P Require Import Vector.
From S2P Require Import Block.
From S2P Require Import Backend.
From S2P Require Import Crypto.
From S2P Require Import Header.
From S2P Require Import Alloc.
From S2P Require Import AllocInv.
From S2P Require Import Unit.
From S2P Require Import WriterSet.
From S2P Require Import Trie.
From S2P Require Import Records.
From S2P Require Import NodeHeap.
From S2P Require Import TrieMap.
From S2P Require Import Catalog.
From S2P Require Import Engine.
From S2P Require Import Store.
From S2P Require Import StoreView.
From S2P Require Import Content.
From S2P Require Import EngineInv.
From S2P Require Import ContentHeap.
From S2P Require Import ContentPlace.
From S2P Require Import ContentInv.
From S2P Require Import ContentWrite.
From S2P Require Import ContentRechunk.
From S2P Require Import ContentOps.
From S2P Require Import EngineProps.
Import PosixFile.

(** ** The reference *)

(** The names of the files and their contents. *)
Record FileSystem := mkFS { fs_names : gmap bytes bytes; fs_data : gmap bytes bytes }.

Inductive FileReq :=
| FCreate (path : bytes)
| FWrite (path : bytes) (offset : Z) (data : bytes)
| FTruncate (path : bytes) (size : Z)
| FRead (path : bytes)
| FReadAt (path : bytes) (offset len : Z)
| FName (r : request).

Definition with_file (fs : FileSystem) (path : bytes) (k : bytes → bytes → res bytes * FileSystem) : res bytes * FileSystem :=
  match fs_names fs !! path with
  | None => (Err (NotFound "path not found"), fs)
  | Some u => k u (default [] (fs_data fs !! u))
  end.

(** The answer to a request; [u] names the file that a creation makes. *)
Definition fs_answer (u : bytes) (q : FileReq) (fs : FileSystem) : res bytes * FileSystem :=
  match q with
  | FCreate path =>
      if bool_decide (is_Some (fs_names fs !! path)) then (Err (Integrity "unit already exists"), fs)
      else (Ok [], mkFS (<[path := u]> (fs_names fs)) (<[u := []]> (fs_data fs)))
  | FWrite path offset data =>
      if bool_decide (data = []) then (Err (Integrity "write: empty data"), fs)
      else with_file fs path (λ v d,
        if blen d <? offset then (Err (Integrity "gap write unsupported"), fs)
        else (Ok [], mkFS (fs_names fs) (<[v := pwrite d offset data]> (fs_data fs))))
  | FTruncate path size =>
      with_file fs path (λ v d,
        if blen d <=? size then (Ok [], fs)
        else (Ok [], mkFS (fs_names fs) (<[v := ftruncate d size]> (fs_data fs))))
  | FRead path => with_file fs path (λ _ d, (Ok d, fs))
  | FReadAt path offset len => with_file fs path (λ _ d, (Ok (pread d offset len), fs))
  | FName r =>
      match meaning r (fs_names fs, ∅) with
      | Ok m => (Ok [], mkFS m.1 (fs_data fs))
      | Err er => (Err er, fs)
      | Panic => (Panic, fs)
      end
  end.

(** Paths fit in the catalog and files in [MAX_FILE] bytes; the namespace is
    changed by single requests. *)
Definition path_fits (path : bytes) : Prop := blen path ≤ MAX_KEY_LEN.
Definition file_req_ok (q : FileReq) : Prop :=
  match q with
  | FCreate path | FRead path => path_fits path
  | FWrite path offset data => path_fits path ∧ 0 ≤ offset ∧ offset + blen data ≤ MAX_FILE
  | FTruncate path size => path_fits path ∧ u64 size
  | FReadAt path offset len => path_fits path ∧ u64 offset ∧ u64 len
  | FName r => if r is Batch _ then False else True
  end.

#[export] Instance file_req_ok_dec q : Decision (file_req_ok q).
Proof. destruct q as [| | | | |[]]; unfold file_req_ok, path_fits, u64; apply _. Defined.

(** ** Sessions *)

Section sessions.
Context `{!Crc32, !Hkdf, !Hmac, !Aes, !AesGcm, !Entropy, !Ed25519, !UuidSource}.

Definition file_run (q : FileReq) : SM bytes :=
  match q with
  | FCreate path => create_unit path;; mret []
  | FWrite path offset data => write path offset data;; mret []
  | FTruncate path size => truncate path size;; mret []
  | FRead path => read path
  | FReadAt path offset len => read_at path offset len
  | FName r => on_engine (request_run r);; mret []
  end.

(** The id that a creation would draw, and whether the catalog has it. *)
Definition next_id (s : Store) : bytes := draw_uuid (Engine.store (engine s)).2.
Definition id_is_fresh (q : FileReq) (s : Store) : Prop :=
  if q is FCreate _ then id_get (next_id s) (engine s) = (Ok None, engine s) else True.

(** The commit sequence and the clock of the record cache are below their
    ends. *)
Definition counters_left (s : Store) : Prop :=
  commit_seq (hdr s) < 2 ^ 64 - 1 ∧ RecordCache.tick (record_cache (engine s)) + 2 < 2 ^ 64.

(** Requests one after the other, each with the state it met and its answer;
    an answer is a value or an error. *)
Inductive session : Store → list (FileReq * bytes * res bytes) → Store → Prop :=
| session_nil s : session s [] s
| session_cons s q r s1 l s2 :
    file_req_ok q → id_is_fresh q s → counters_left s → file_run q s = (r, s1) → r ≠ Panic → session s1 l s2 →
    session s ((q, next_id s, r) :: l) s2.

Lemma session_snoc s tr s1 q r s2 :
  session s tr s1 → file_req_ok q → id_is_fresh q s1 → counters_left s1 → file_run q s1 = (r, s2) → r ≠ Panic →
  session s (tr ++ [(q, next_id s1, r)]) s2.
Proof.
  induction 1 as [s|s q' r' s' tr s1 Hok Hid Hleft Hrun Hr _ IH]; intros; cbn [app].
  - by eapply session_cons, session_nil.
  - eapply session_cons; [done..|by apply IH].
Qed.

(** A session, executed: [None] when a request is out of bounds or unwinds. *)
Definition may_run (q : FileReq) (s : Store) : bool :=
  bool_decide (file_req_ok q) &&
  (if q is FCreate _ then if (id_get (next_id s) (engine s)).1 is Ok None then true else false else true) &&
  (commit_seq (hdr s) <? 2 ^ 64 - 1) && (RecordCache.tick (record_cache (engine s)) + 2 <? 2 ^ 64).
Fixpoint run_session (l : list FileReq) (s : Store) : option (list (FileReq * bytes * res bytes) * Store) :=
  match l with
  | [] => Some ([], s)
  | q :: l' =>
      if may_run q s then
        match file_run q s with
        | (Panic, _) => None
        | (r, s1) => (λ x, ((q, next_id s, r) :: x.1, x.2)) <$> run_session l' s1
        end
      else None
  end.

Lemma may_run_sound q s : may_run q s = true → file_req_ok q ∧ id_is_fresh q s ∧ counters_left s.
Proof.
  unfold may_run, counters_left. rewrite !andb_true_iff, !Z.ltb_lt, bool_decide_eq_true. intros (((?&Hid)&?)&?).
  split_and!; try done. unfold id_is_fresh, id_get in *. destruct q; try done. cbn [fst] in Hid.
  by destruct (get_uuid _ _ _) as [[]| |].
Qed.

Lemma run_session_sound l : ∀ s tr s', run_session l s = Some (tr, s') → session s tr s'.
Proof.
  induction l as [|q l IH]; intros s tr s'; cbn [run_session]; [intros [= <- <-]; constructor|].
  destruct (may_run q s) eqn:Hm; [|done]. apply may_run_sound in Hm as (?&?&?).
  destruct (file_run q s) as [r s1] eqn:Hrun. intros Hr.
  assert (r ≠ Panic ∧ ∃ x, run_session l s1 = Some x ∧ tr = (q, next_id s, r) :: x.1 ∧ s' = x.2)
    as (?&[tr1 s2]&Hl&->&->).
  { destruct r; [..|done]; (split; [done|]); apply fmap_Some in Hr as (x&?&[= -> ->]); eauto. }
  eapply session_cons; [done..|]. by apply IH.
Qed.

Lemma run_session_length l : ∀ s tr s', run_session l s = Some (tr, s') → blen tr = blen l.
Proof.
  induction l as [|q l IH]; intros s tr s'; cbn [run_session]; [by intros [= <- _]|].
  destruct (may_run q s); [|done]. destruct (file_run q s) as [[v|er|] s1]; [..|done].
  all: intros ([tr1 s2]&Hy&[= -> _])%fmap_Some; by rewrite !blen_cons, (IH _ _ _ Hy).
Qed.

Lemma run_session_snoc l q : ∀ s x,
  run_session (l ++ [q]) s = Some x → ∃ tr s', run_session l s = Some (tr, s') ∧ may_run q s' = true.
Proof.
  induction l as [|q' l IH]; intros s x; cbn [app run_session].
  - destruct (may_run q s) eqn:Hm; [|done]. intros _. by exists [], s.
  - destruct (may_run q' s); [|done]. destruct (file_run q' s) as [[v|er|] s1]; [..|done].
    all: intros (y&Hy&_)%fmap_Some; destruct (IH _ _ Hy) as (tr&s'&->&?); by eexists _, s'.
Qed.

(** The same requests on the reference. *)
Fixpoint fs_session (l : list (FileReq * bytes * res bytes)) (fs : FileSystem) : list (res bytes) * FileSystem :=
  match l with
  | [] => ([], fs)
  | (q, u, _) :: l' =>
      let a := fs_answer u q fs in
      let rest := fs_session l' a.2 in
      (a.1 :: rest.1, rest.2)
  end.

(** ** Names *)

Lemma calmly_names r : file_req_ok (FName r) → calmly (request_run r).
Proof.
  destruct r as [old new|old new|path|]; [..|done]; intros _; cbn [request_run]; unfold rename, link, unlink.
  - apply calmly_bind; [auto with calm|]. intros ?. apply calmly_bind; [auto with calm|]. intros ?.
    apply calmly_bind; [auto with calm|]. intros ?. case_match; auto 20 with calm.
  - apply calmly_bind; [auto with calm|]. intros ?. apply calmly_bind; [auto with calm|]. intros ?.
    apply calmly_bind; [auto with calm|]. intros ?. case_match; auto 20 with calm.
  - apply calmly_bind; [auto with calm|]. intros ?. case_match; auto 20 with calm.
Qed.

Lemma files_calm C s K K' I F com com' b0 b0' e' :
  files_with C s (K, I) F com b0 → calm (engine s) e' → root_key e' = root_key (engine s) → coherent e' K' →
  ceng C e' (K', I) com' b0' → files_with C (set_engine e' s) (K', I) F com' b0'.
Proof.
  intros [_ _ Hu Hcc Hov Hr] [Hcf Hmap] Hrk Hco He. set (s' := set_engine e' s).
  assert (same_keys s s') as Hk by by split_and!. split; try done.
  - intros u f Hf. destruct (Hu u f Hf) as (a&?&?&?). exists a. split_and!; [done..|].
    by eapply (unit_held_mono (λ _, False)); [done|apply keeps_refl|auto..].
  - intros u en Hen. eapply rec_held_mono; [done|apply Hcc; by eapply lookup_weaken|done].
  - by eapply writer_ready_keys.
Qed.

Lemma meaning_names r K I :
  file_req_ok (FName r) →
  match meaning r (K, ∅) with
  | Ok m => meaning r (K, I) = Ok (m.1, I)
  | x => meaning r (K, I) = x
  end.
Proof.
  destruct r as [old new|old new|path|]; [..|done]; intros _; cbn [meaning fst snd].
  1,2: by destruct (claim_path _ _ _ _ _).
  by destruct (K !! path).
Qed.

(** A request on names makes no file. *)
Lemma meaning_range r K m p u :
  file_req_ok (FName r) → meaning r (K, ∅) = Ok m → m.1 !! p = Some u → ∃ q, K !! q = Some u.
Proof.
  destruct r as [old new|old new|path|]; [..|done]; intros _; cbn [meaning fst snd].
  - pose proof (claim_path_cases K old new "rename source missing" "rename target exists") as Hc.
    destruct (claim_path _ _ _ _ _) as [v|?|]; [|done..]. destruct Hc as (Hv&_). intros [= <-]. cbn [fst].
    rewrite lookup_delete_Some, lookup_insert_Some. intros [_ [[_ <-]|[_ ?]]]; eauto.
  - pose proof (claim_path_cases K old new "link source missing" "link target exists") as Hc.
    destruct (claim_path _ _ _ _ _) as [v|?|]; [|done..]. destruct Hc as (Hv&_). intros [= <-]. cbn [fst].
    rewrite lookup_insert_Some. intros [[_ <-]|[_ ?]]; eauto.
  - destruct (K !! path); [|done]. intros [= <-]. cbn [fst]. rewrite lookup_delete_Some. intros [_ ?]. eauto.
Qed.

Lemma names_spec s K I F com b0 r :
  files s (K, I) F com b0 → file_req_ok (FName r) → commit_seq (hdr s) < 2 ^ 64 - 1 →
  soutcome s com b0 (on_engine (request_run r) s)
    (λ _ s', ∃ m, meaning r (K, ∅) = Ok m ∧ settled s m.1 I F com b0 s')
    (λ er s', meaning r (K, ∅) = Err er ∧ same_keys s s' ∧ base (engine s) (engine s') ∧ files s' (K, I) F com b0).
Proof.
  intros [C Hf] Hok Hseq. pose proof (meaning_names r K I Hok) as Hm.
  pose proof (request_spec (X := claimed C) r (engine s) (K, I) com b0 (fw_eng _ _ _ _ _ _ Hf) (fw_paths _ _ _ _ _ _ Hf) Hseq) as Ha.
  pose proof (calmly_names r Hok (engine s)) as Hcalm.
  assert (request_ok r) as Hr by by destruct r. specialize (Ha Hr). unfold answered, outcome in Ha.
  unfold soutcome, on_engine. destruct (request_run r (engine s)) as [[v|er|] e'] eqn:Erun; cbn [snd] in Hcalm.
  - destruct (meaning r (K, ∅)) as [m|er|]; rewrite Hm in Ha; try done. exists m. split; [done|].
    destruct Ha as (Hco&Hrk&Hsup&Hgr&Hcase).
    assert (same_keys s (set_engine e' s)) as Hk by (destruct Hcalm; by split_and!). split_and!; [done..|].
    destruct (suppress_commit (engine s)); destruct Hcase; (split; [done|]); exists C; by eapply files_calm.
  - destruct (meaning r (K, ∅)) as [m|er'|]; rewrite Hm in Ha.
    + destruct Ha as [[]|(?&?&?&?)]. right. split_and!; try done. by eapply safe_weaken.
    + destruct Ha as [(->&Hco&Hb&He)|(?&?&?&?)].
      * left. assert (same_keys s (set_engine e' s)) by (destruct Hcalm, Hb; by split_and!).
        split_and!; [done..|]. exists C. eapply files_calm; try done. by destruct Hb.
      * right. split_and!; try done. by eapply safe_weaken.
    + done.
  - by destruct (meaning r (K, ∅)); rewrite Hm in Ha.
Qed.

(** ** The store shows a file system *)

(** The root key of the container. *)
Context (key : bytes).

(** Between two requests: outside a batch, without a set of writers. *)
Definition at_rest (s : Store) : Prop :=
  root_key (engine s) = key ∧ suppress_commit (engine s) = false ∧ loaded_writer_set s = None ∧ writer_set (hdr s) = None.

(** The published names and contents of [s] are those of [fs]. *)
Definition shows (N : Z) (s : Store) (fs : FileSystem) : Prop :=
  at_rest s ∧ ∃ I F b0, files s (fs_names fs, I) F (fs_names fs, I) b0 ∧
    (∀ p u, fs_names fs !! p = Some u → is_Some (F !! u)) ∧ (∀ u, is_Some (I !! u) → is_Some (F !! u)) ∧
    fs_data fs = f_data <$> F ∧ (∀ u f, F !! u = Some f → f_short f = [] ∧ f_counter f ≤ N).

Lemma rest_keys s s' : at_rest s → same_keys s s' → suppress_commit (engine s') = suppress_commit (engine s) → at_rest s'.
Proof. intros (?&?&?&?) ([= _ _ _ _ _ _ ?]&?&_&_&?) ?. split_and!; congruence. Qed.

Lemma settled_files s K I F com b0 s' :
  at_rest s → settled s K I F com b0 s' → at_rest s' ∧ files s' (K, I) F (K, I) (bk s').
Proof.
  intros Hr (Hk&Hs&_&H'). pose proof Hr as (_&Hsup&_). rewrite Hsup in H'. destruct H' as [_ ?]. split; [by eapply rest_keys|done].
Qed.

Lemma shows_mono N N' s fs : shows N s fs → N ≤ N' → shows N' s fs.
Proof.
  intros (Hr&I&F&b0&?&?&?&?&Hc) ?. split; [done|]. exists I, F, b0. split_and!; [done..|].
  intros u f Hu. destruct (Hc u f Hu). split; [done|lia].
Qed.

(** A change of one file. *)
Lemma shows_insert N s K I F com b0 s' u a f :
  at_rest s → settled s K (<[u := a]> I) (<[u := f]> F) com b0 s' →
  (∀ p v, K !! p = Some v → is_Some (<[u := f]> F !! v)) → (∀ v, is_Some (I !! v) → is_Some (F !! v)) →
  (∀ v g, F !! v = Some g → f_short g = [] ∧ f_counter g ≤ N) → f_short f = [] → f_counter f ≤ N →
  shows N s' (mkFS K (<[u := f_data f]> (f_data <$> F))).
Proof.
  intros Hr Hs HK HI HF Hd Hc. destruct (settled_files _ _ _ _ _ _ _ Hr Hs) as (Hr'&Hf). split; [done|].
  exists (<[u := a]> I), (<[u := f]> F), (bk s'). split_and!; [done..| |by rewrite fmap_insert|].
  - intros v. rewrite !lookup_insert_is_Some'. intros [?|Hv]; [by left|right; exact (HI v Hv)].
  - intros v g. rewrite lookup_insert_Some. intros [[<- <-]|[_ Hg]]; [done|exact (HF v g Hg)].
Qed.

(** ** One request *)

(** A request answers [a] and leads to [P], unless the address space ends. *)
Definition step_ok (x : res bytes * Store) (a : res bytes) (P : Store → Prop) : Prop :=
  match x with
  | (Panic, s') => exhausted (engine s')
  | (r, s') => r = a ∧ P s' ∧ Backend.no_grow (bk s') = false
  end.

Lemma step_of {A} s com b0 (m : SM A) Q Fl a P :
  soutcome s com b0 (m s) Q Fl → Backend.no_grow (bk s) = false →
  (∀ v s', Q v s' → Ok [] = a ∧ P s' ∧ Backend.no_grow (bk s') = false) →
  (∀ er s', Fl er s' → Err er = a ∧ P s' ∧ Backend.no_grow (bk s') = false) → step_ok ((m;; mret []) s) a P.
Proof.
  intros Ho Hg HQ HF. unfold soutcome in Ho. rewrite bind_run. destruct (m s) as [[v|er|] s']; [by apply (HQ v)| |done].
  destruct Ho as [?|(_&?&_)]; [by apply HF|congruence].
Qed.

Lemma missing_path s K I F com b0 path :
  files s (K, I) F com b0 → K !! path = None → on_engine (uuid_for_path path) s = (Err (NotFound "path not found"), s).
Proof.
  intros [C Hf] Hp. pose proof (uuid_for_path_spec _ _ _ _ _ (fw_eng _ _ _ _ _ _ Hf) (fw_paths _ _ _ _ _ _ Hf) path) as Hu.
  rewrite Hp in Hu. unfold on_engine. by rewrite Hu, set_engine_same.
Qed.

Lemma missing_head s path er :
  on_engine (uuid_for_path path) s = (Err er, s) → on_engine (head_record_addr path) s = (Err er, s).
Proof.
  unfold on_engine, head_record_addr. rewrite bind_run. destruct (uuid_for_path path (engine s)) as [[?|?|] e']; [done| |done].
  by intros [= -> ->].
Qed.

Lemma recached_reread s s' : recached s s' → reread s s'.
Proof. intros [rc ->]. by exists rc, (record_cache (engine s)). Qed.

Lemma recached_grow s s' : recached s s' → Backend.no_grow (bk s') = Backend.no_grow (bk s).
Proof. by intros [rc ->]. Qed.

Lemma existing_path s K I F com b0 path :
  files s (K, I) F com b0 → is_Some (K !! path) → create_unit path s = (Err (Integrity "unit already exists"), s).
Proof.
  intros [C Hf] Hp. unfold create_unit, create_unit_inner.
  rewrite (run_on_engine _ _ _ (K !! path) (engine s)) by exact (key_get_spec _ _ _ _ _ path (fw_eng _ _ _ _ _ _ Hf)).
  by rewrite set_engine_same, bool_decide_true.
Qed.

(** An id that the catalog does not have. *)
Lemma fresh_id_spec s K I F com b0 u :
  files s (K, I) F com b0 → id_get u (engine s) = (Ok None, engine s) → I !! u = None.
Proof.
  intros [C Hf]. destruct (fw_eng _ _ _ _ _ _ Hf) as (h&rest&packed&Hd&Hc). pose proof (current_crypto _ _ _ Hc) as [_ Hi].
  destruct Hc as [(Nk&Ni&_&Ht&_) _ _ _]. unfold id_get, get_uuid. rewrite <-Hi.
  rewrite (get_spec _ _ h _ I Ni); [|by eapply node_heap_reads, Hd|done]. cbn [mbind res_bind].
  destruct (I !! u) as [v|]; [|done]. by destruct (negb (blen v =? 8)).
Qed.

Section step.
Context (N : Z) (s : Store) (fs : FileSystem).
Hypothesis Hshow : shows N s fs.
Hypothesis Hleft : counters_left s.
Hypothesis HN : 0 ≤ N ∧ N + 1 < 2 ^ 48.
Hypothesis Hgrow : Backend.no_grow (bk s) = false.
Local Abbreviation answer q := (fs_answer (next_id s) q fs).

Lemma create_step path :
  path_fits path → id_is_fresh (FCreate path) s →
  step_ok (file_run (FCreate path) s) (answer (FCreate path)).1 (λ s', shows (N + 1) s' (answer (FCreate path)).2).
Proof using All.
  intros Hlen Hfresh. pose proof Hshow as (Hr&I&F&b0&Hf&HK&HI&HD&HF). destruct fs as [K D]. cbn [fs_names fs_data] in *. subst D.
  cbn [file_run fs_answer fs_names fs_data]. case_bool_decide as Hp; cbn [fst snd].
  - rewrite bind_run, (existing_path _ _ _ _ _ _ _ Hf Hp). split_and!; [reflexivity| |exact Hgrow].
    eapply shows_mono; [exact Hshow|lia].
  - apply eq_None_not_Some in Hp. destruct Hleft as [Hseq _].
    pose proof (create_unit_spec s K I F (K, I) b0 path None Hf Hlen Hp (fresh_id_spec _ _ _ _ _ _ _ Hf Hfresh) Logic.I Hseq) as Ho.
    eapply step_of; [exact Ho|exact Hgrow| |by intros].
    intros v s' (->&a&Hs). split_and!; [reflexivity| |by destruct Hs as (_&_&->&_)].
    eapply (shows_insert _ _ _ _ _ _ _ _ _ _ empty_file); [exact Hr|exact Hs|..|done|cbn; lia].
    + intros p v. rewrite lookup_insert_Some. intros [[<- <-]|[_ Hv]]; [by rewrite lookup_insert_eq|].
      rewrite lookup_insert_is_Some. destruct (decide (next_id s = v)); [by left|right]. split; [done|by eapply HK].
    + exact HI.
    + intros v g Hv. destruct (HF v g Hv). split; [done|lia].
Qed.

Lemma unchanged r : r ≠ Panic → step_ok (r, s) r (λ s', shows (N + 1) s' fs).
Proof using Hshow Hgrow.
  intros Hr. assert (shows (N + 1) s fs) by (eapply shows_mono; [exact Hshow|lia]). by destruct r.
Qed.

(** A path that is the name of a file, or of none. *)
Lemma path_cases path :
  (∃ u f I F com b0, fs_names fs !! path = Some u ∧ F !! u = Some f ∧ fs_data fs !! u = Some (f_data f) ∧
     f_short f = [] ∧ f_counter f ≤ N ∧ files s (fs_names fs, I) F com b0 ∧
     (∀ s', files s' (fs_names fs, I) F com b0 → reread s s' → shows (N + 1) s' fs) ∧
     ∀ a g s', settled s (fs_names fs) (<[u := a]> I) (<[u := g]> F) com b0 s' → f_short g = [] → f_counter g ≤ N + 1 →
       shows (N + 1) s' (mkFS (fs_names fs) (<[u := f_data g]> (fs_data fs)))) ∨
  fs_names fs !! path = None ∧ on_engine (uuid_for_path path) s = (Err (NotFound "path not found"), s).
Proof using Hshow.
  pose proof Hshow as (Hr&I&F&b0&Hf&HK&HI&HD&HF). destruct (fs_names fs !! path) as [u|] eqn:Hp.
  2: { right. split; [done|]. by eapply missing_path. }
  left. destruct (HK path u Hp) as [f Hu]. destruct (HF u f Hu) as [Hshort Hc].
  assert (∀ v g, F !! v = Some g → f_short g = [] ∧ f_counter g ≤ N + 1) as HF'.
  { intros v g Hv. destruct (HF v g Hv). split; [done|lia]. }
  exists u, f, I, F, (fs_names fs, I), b0. split_and!; try done.
  - by rewrite HD, lookup_fmap, Hu.
  - intros s' Hf' (rc&cache&->). split; [exact Hr|]. by exists I, F, b0.
  - intros a g s' Hs Hd Hcg. rewrite HD. eapply (shows_insert _ _ _ _ _ _ _ _ _ _ g); try done.
    intros p v Hv. apply lookup_insert_is_Some'. right. by eapply HK.
Qed.

Lemma write_step path offset data :
  file_req_ok (FWrite path offset data) →
  step_ok (file_run (FWrite path offset data) s) (answer (FWrite path offset data)).1
    (λ s', shows (N + 1) s' (answer (FWrite path offset data)).2).
Proof using All.
  intros (Hlen&Hoff&Hend). cbn [file_run fs_answer]. case_bool_decide as Hd; [subst data; by apply unchanged|].
  unfold with_file. destruct (path_cases path) as [(u&f&I&F&com&b0&Hp&Hu&Hx&Hshort&Hc&Hf&Hsame&Hset)|[Hp Hmiss]]; rewrite Hp.
  2: { rewrite bind_run. unfold write. rewrite bind_run. unfold stage_write. destruct data as [|x data]; [done|].
       unfold load_head. rewrite !bind_run, Hmiss. by apply unchanged. }
  rewrite Hx. cbn [default from_option id]. destruct Hleft as [Hseq _].
  pose proof (write_file_spec s _ I F com b0 path u f offset data Hf Hp Hlen Hu Hseq ltac:(lia) Hd Hoff Hend) as Ho.
  eapply step_of; [exact Ho|exact Hgrow|..].
  - intros _ s' (Hle&a&Hs). replace (blen (f_data f) <? offset) with false by lia.
    split_and!; [reflexivity| |by destruct Hs as (_&_&->&_)].
    apply (Hset _ (written f offset data) _ Hs); [cbn; by rewrite Hshort|cbn; lia].
  - intros er s' (->&Hlt&Hrec&Hf'). replace (blen (f_data f) <? offset) with true by lia.
    split_and!; [reflexivity|by apply Hsame, recached_reread|by rewrite (recached_grow _ _ Hrec)].
Qed.

Lemma truncate_step path size :
  file_req_ok (FTruncate path size) →
  step_ok (file_run (FTruncate path size) s) (answer (FTruncate path size)).1
    (λ s', shows (N + 1) s' (answer (FTruncate path size)).2).
Proof using All.
  intros (Hlen&Hn). cbn [file_run fs_answer]. unfold with_file.
  destruct (path_cases path) as [(u&f&I&F&com&b0&Hp&Hu&Hx&Hshort&Hc&Hf&Hsame&Hset)|[Hp Hmiss]]; rewrite Hp.
  2: { rewrite bind_run. unfold truncate, load_head. rewrite !bind_run, Hmiss. by apply unchanged. }
  rewrite Hx. cbn [default from_option id]. destruct Hleft as [Hseq Htick].
  pose proof (truncate_file_spec s _ I F com b0 path u f size Hf Hp Hlen Hu Hseq ltac:(lia) Hn Htick) as Ho.
  eapply step_of; [exact Ho|exact Hgrow| |by intros].
  intros v s'. cbv beta. intros Hs. destruct (blen (f_data f) <=? size) eqn:E.
  - destruct Hs as [Hrec Hf']. split_and!; [reflexivity|by apply Hsame, recached_reread|by rewrite (recached_grow _ _ Hrec)].
  - destruct Hs as [a Hs]. split_and!; [reflexivity| |by destruct Hs as (_&_&->&_)].
    pose proof (blen_nonneg (f_data f)).
    assert (f_short (truncated f size) = [] ∧ f_counter (truncated f size) ≤ N + 1 ∧
      f_data (truncated f size) = ftruncate (f_data f) size) as (Hd&Hcc&Heq); [|cbn [snd]; rewrite <-Heq; by apply (Hset _ _ _ Hs)].
    clear Hs. unfold truncated. destruct (Z.eqb_spec size 0); [subst size|]; split_and!; cbn; try done; try lia. by destruct (f_data f).
Qed.

Lemma read_step path :
  step_ok (file_run (FRead path) s) (answer (FRead path)).1 (λ s', shows (N + 1) s' (answer (FRead path)).2).
Proof using All.
  cbn [file_run fs_answer]. unfold with_file.
  destruct (path_cases path) as [(u&f&I&F&com&b0&Hp&Hu&Hx&Hshort&Hc&Hf&Hsame&Hset)|[Hp Hmiss]]; rewrite Hp.
  2: { unfold read. rewrite bind_run, (missing_head _ _ _ Hmiss). by apply unchanged. }
  rewrite Hx. destruct (read_spec s _ I F com b0 path u f Hf Hp Hu) as (s'&->&Hrec&Hf').
  split_and!; [reflexivity|by apply Hsame, recached_reread|by rewrite (recached_grow _ _ Hrec)].
Qed.

Lemma read_at_step path offset len :
  file_req_ok (FReadAt path offset len) →
  step_ok (file_run (FReadAt path offset len) s) (answer (FReadAt path offset len)).1
    (λ s', shows (N + 1) s' (answer (FReadAt path offset len)).2).
Proof using All.
  intros (Hlen&Ho&Hl). cbn [file_run fs_answer]. unfold with_file.
  destruct (path_cases path) as [(u&f&I&F&com&b0&Hp&Hu&Hx&Hshort&Hc&Hf&Hsame&Hset)|[Hp Hmiss]]; rewrite Hp.
  2: { unfold read_at. rewrite bind_run, Hmiss. by apply unchanged. }
  rewrite Hx. destruct Hleft as [_ Htick].
  destruct (read_at_spec s _ I F com b0 path u f offset len Hf Hp Hu Ho Hl Htick) as (s'&k&->&Hrec&Hf'&Hk&_).
  rewrite Hk by by left. split_and!; [reflexivity|by apply Hsame|by destruct Hrec as (?&?&->)].
Qed.

Lemma name_step r :
  file_req_ok (FName r) →
  step_ok (file_run (FName r) s) (answer (FName r)).1 (λ s', shows (N + 1) s' (answer (FName r)).2).
Proof using All.
  intros Hok. pose proof Hshow as (Hrest&I&F&b0&Hf&HK&HI&HD&HF). destruct Hleft as [Hseq _]. cbn [file_run fs_answer].
  assert (∀ u f, F !! u = Some f → f_short f = [] ∧ f_counter f ≤ N + 1) as HF'.
  { intros v g Hv. destruct (HF v g Hv). split; [done|lia]. }
  eapply step_of; [by apply (names_spec s _ I F _ b0 r Hf)|exact Hgrow|..].
  - intros _ s' (m&Hm&Hs). rewrite Hm. split_and!; [reflexivity| |by destruct Hs as (_&_&->&_)].
    destruct (settled_files _ _ _ _ _ _ _ Hrest Hs) as (Hr'&Hf'). split; [exact Hr'|]. exists I, F, (bk s'). split_and!; try done.
    intros p u Hu. destruct (meaning_range r (fs_names fs) m p u Hok Hm Hu) as [q Hq]. by eapply HK.
  - intros er s' (Hm&Hk&(_&_&Hsup&_&Hg)&Hf'). rewrite Hm. split_and!; [reflexivity| |exact (eq_trans Hg Hgrow)].
    split; [by eapply rest_keys|]. by exists I, F, b0.
Qed.

Lemma file_step q :
  file_req_ok q → id_is_fresh q s →
  step_ok (file_run q s) (answer q).1 (λ s', shows (N + 1) s' (answer q).2).
Proof using All.
  intros Hok Hid. destruct q; [by apply create_step|by apply write_step|by apply truncate_step|apply read_step
    |by apply read_at_step|by apply name_step].
Qed.

End step.

(** ** Sessions *)

Lemma session_shows s tr s' :
  session s tr s' → ∀ N fs, shows N s fs → 0 ≤ N → N + blen tr < 2 ^ 48 → Backend.no_grow (bk s) = false →
  tr.*2 = (fs_session tr fs).1 ∧ shows (N + blen tr) s' (fs_session tr fs).2 ∧ Backend.no_grow (bk s') = false.
Proof.
  induction 1 as [s|s q r s1 tr s2 Hok Hid Hleft Hrun Hr _ IH]; intros N fs Hs HN Hl Hg; cbn [fs_session fst snd].
  { rewrite Z.add_0_r. by split_and!. }
  rewrite blen_cons in *. pose proof (blen_nonneg tr).
  pose proof (file_step N s fs Hs Hleft ltac:(lia) Hg q Hok Hid) as Hst. rewrite Hrun in Hst.
  assert (r = (fs_answer (next_id s) q fs).1 ∧ shows (N + 1) s1 (fs_answer (next_id s) q fs).2 ∧
    Backend.no_grow (bk s1) = false) as (->&Hs1&Hg1) by by destruct r.
  destruct (IH (N + 1) _ Hs1 ltac:(lia) ltac:(lia) Hg1) as (Heq&Hs2&Hg2). cbn [fmap list_fmap snd].
  split_and!; [by rewrite <-Heq| |done]. by replace (N + (1 + blen tr)) with (N + 1 + blen tr) by lia.
Qed.

Lemma bootstrap_config b n cipher rk sl e :
  bootstrap_over_backend b n cipher rk sl = Ok e →
  sign_mode (header e) = Unsigned ∧ writer_set (header e) = None ∧ RecordCache.map (record_cache e) = ∅.
Proof.
  unfold bootstrap_over_backend. destruct (write_slot0 _ _ _) as [b1| |]; [|done..]. cbn [mbind res_bind].
  destruct (Backend.flush b1); [|done..]. repeat case_match; try done.
  all: destruct (commit _ _ _) as [b3| |]; [|done..]; by intros [= <-].
Qed.

(** The state of a new container. *)
Lemma new_shows n cipher sl e now :
  blen sl = 16 → create_in_memory_with_cipher_key_and_salt n cipher key sl = Ok e →
  shows 0 (new_store e now) (mkFS ∅ ∅) ∧ Backend.no_grow (bk (new_store e now)) = false.
Proof.
  intros Hsl. unfold create_in_memory_with_cipher_key_and_salt.
  destruct (known_content_cipher cipher) eqn:Hc; cbn [negb]; [|done]. intros Hcr.
  destruct (zeroed_created (X := claimed ∅) (64 * BASE_BLOCK) false n cipher key sl)
    as (e'&Hrun&He&Hco&Hsup&Hk&Hseq&Hci&Hs&Hg&_); [by apply claimed_empty|by_compute|by_compute|done..|].
  assert (e' = e) as ->.
  { assert (Ok e' = Ok e) as [= ->]; [|done]. rewrite <-Hrun. exact Hcr. }
  split; [|done]. destruct (bootstrap_config _ _ _ _ _ _ Hrun) as (Hsm&Hws&Hrc).
  split; [done|]. exists ∅, ∅, (backend e). split_and!; try done; [|by intros ? []].
  exists ∅. split; try done.
  - cbn. by rewrite Hrc.
  - split.
    + unfold can_sign, hdr. cbn [engine new_store]. by rewrite Hsm.
    + unfold hdr. cbn [engine new_store]. rewrite Hci. unfold known_content_cipher in Hc. rewrite !orb_true_iff, !Z.eqb_eq in Hc.
      destruct Hc as [[-> | ->]| ->]; by eexists.
    + done.
Qed.

(** C1. The files of a new container are the files of POSIX: whatever the
    session of creations, writes, truncations, reads, renames, links and
    removals, every request is answered as on a map from paths to byte strings
    with hard links, where [write] is [pwrite] (a write beyond the end is
    refused), [truncate] is [ftruncate] when it shrinks the file and [read_at]
    is [pread], for every content cipher. *)
Theorem file_session_refines n cipher sl now e tr s :
  blen sl = 16 → create_in_memory_with_cipher_key_and_salt n cipher key sl = Ok e →
  session (new_store e now) tr s → blen tr < 2 ^ 48 →
  tr.*2 = (fs_session tr (mkFS ∅ ∅)).1.
Proof.
  intros Hsl Hcr Hs Hl. destruct (new_shows n cipher sl e now Hsl Hcr) as [Hsh Hg].
  by destruct (session_shows _ _ _ Hs 0 _ Hsh ltac:(lia) Hl Hg).
Qed.

(** C2. A session on a growing container never gets stuck: the next request
    returns, and only with its value or the error that the reference gives; it
    is never refused for want of space. The only other outcome is the end of
    the address space. *)
Theorem file_session_progress n cipher sl now e tr s q :
  blen sl = 16 → create_in_memory_with_cipher_key_and_salt n cipher key sl = Ok e →
  session (new_store e now) tr s → blen tr + 1 < 2 ^ 48 →
  file_req_ok q → id_is_fresh q s → counters_left s →
  let a := (fs_answer (next_id s) q (fs_session tr (mkFS ∅ ∅)).2).1 in
  (∃ s', session (new_store e now) (tr ++ [(q, next_id s, a)]) s') ∨ exhausted (engine (file_run q s).2).
Proof.
  intros Hsl Hcr Hs Hl Hok Hid Hleft a. destruct (new_shows n cipher sl e now Hsl Hcr) as [Hsh Hg].
  pose proof (blen_nonneg tr).
  destruct (session_shows _ _ _ Hs 0 _ Hsh ltac:(lia) ltac:(lia) Hg) as (_&Hsh'&Hg').
  pose proof (file_step (0 + blen tr) s _ Hsh' Hleft ltac:(lia) Hg' q Hok Hid) as Hst. fold a in Hst.
  destruct (file_run q s) as [r s'] eqn:Hrun. assert (r = Panic ∨ r ≠ Panic) as [->|Hr] by (destruct r; auto); [by right|left].
  assert (r = a) as Hra by (destruct r; by destruct Hst). rewrite <-Hra. exists s'. by eapply session_snoc.
Qed.

End sessions.

(** ** A concrete container *)

Section file_witnesses.
Import Concrete.

#[local, refine] Instance ex_draws : Entropy := {| draw n := le_bytes 12 (Z.of_nat n) |}.
Proof. done. Defined.
#[local, refine] Instance ex_ids : UuidSource := {| draw_uuid n := le_bytes 16 (Z.of_nat n + 7) |}.
Proof. intros. by rewrite blen_le_bytes. Defined.
#[local, refine] Instance ex_signatures : Ed25519 :=
  {| ed_pubkey seed := pad 32 seed; ed_sign seed msg := zeros 64; ed_verify _ _ sig := bool_decide (sig = zeros 64) |}.
Proof. all: intros; unfold blen; rewrite ?pad_length; done. Defined.

Definition ex_path : bytes := bstr "/a".
Definition ex_session : list FileReq :=
  [FCreate ex_path; FWrite ex_path 0 (bstr "hello"); FWrite ex_path 9 (bstr "x"); FReadAt ex_path 1 3].
Abbreviation ex_container := (create_in_memory_with_cipher_key_and_salt 0 CIPHER_NONE (zeros 32) (zeros 16)).
Definition replies (c : res Engine) (l : list FileReq) : option (list (res bytes)) :=
  match c with Ok e => (λ x, x.1.*2) <$> run_session l (new_store e 0) | _ => None end.

Lemma replies_run c l rs :
  replies c l = Some rs → ∃ e tr s, c = Ok e ∧ run_session l (new_store e 0) = Some (tr, s) ∧ tr.*2 = rs.
Proof.
  unfold replies. destruct c as [e|er|]; [|done..]. intros ([tr s]&?&->)%fmap_Some. by exists e, tr, s.
Qed.

Lemma ex_session_runs :
  replies ex_container ex_session = Some [Ok []; Ok []; Err (Integrity "gap write unsupported"); Ok (bstr "ell")].
Proof. vm_compute. reflexivity. Qed.

Lemma file_session_refines_witness :
  ∃ e tr s, ex_container = Ok e ∧ session (new_store e 0) tr s ∧
    (fs_session tr (mkFS ∅ ∅)).1 = [Ok []; Ok []; Err (Integrity "gap write unsupported"); Ok (bstr "ell")].
Proof.
  destruct (replies_run _ _ _ ex_session_runs) as (e&tr&s&Hc&Hrun&Heq). exists e, tr, s.
  assert (blen tr < 2 ^ 48) as Hl.
  { unfold blen. rewrite <-(length_fmap snd tr), Heq. by_compute. }
  assert (session (new_store e 0) tr s) as Hs by (eapply run_session_sound; exact Hrun).
  split; [exact Hc|]. split; [exact Hs|]. rewrite <-Heq. symmetry.
  exact (file_session_refines (zeros 32) 0 CIPHER_NONE (zeros 16) 0 e tr s eq_refl Hc Hs Hl).
Defined.

Lemma file_session_progress_witness :
  ∃ e tr s, ex_container = Ok e ∧ session (new_store e 0) tr s ∧ blen tr = 3 ∧
    ((∃ s', session (new_store e 0) (tr ++ [(FReadAt ex_path 1 3, next_id s,
        (fs_answer (next_id s) (FReadAt ex_path 1 3) (fs_session tr (mkFS ∅ ∅)).2).1)]) s') ∨
     exhausted (engine (file_run (FReadAt ex_path 1 3) s).2)).
Proof.
  destruct (replies_run _ _ _ ex_session_runs) as (e&tr0&s0&Hc&Hrun&_).
  destruct (run_session_snoc (take 3 ex_session) _ _ _ Hrun) as (tr&s&Hrun'&Hmay).
  apply may_run_sound in Hmay as (Hok&Hid&Hleft).
  assert (blen tr = 3) as Hl by (by rewrite (run_session_length _ _ _ _ Hrun')).
  assert (session (new_store e 0) tr s) as Hs by (eapply run_session_sound; exact Hrun').
  exists e, tr, s. split; [exact Hc|]. split; [exact Hs|]. split; [exact Hl|].
  refine (file_session_progress (zeros 32) 0 CIPHER_NONE (zeros 16) 0 e tr s _ eq_refl Hc Hs _ Hok Hid Hleft).
  rewrite Hl. by_compute.
Defined.

End file_witnesses.
