(* ===== verification/ReopenProps.v ===== *)
(** * What a reopened container shows

    A container that is closed between two requests opens again, and every
    file reads as before. *)

From S2P Require Import Prelude.
From S2P Require Import BTree.
From S2P Require Import Posix.
From S2P Require Import Vector.
From S2P Require Import Block.
From S2P Require Import Backend.
From S2P Require Import Crypto.
From S2P Require Import Header.
From S2P Require Import Alloc.
From S2P Require Import AllocInv.
From S2P Require Import Unit.
From S2P Require Import WriterSet.
From S2P Require Import Trie.
From S2P Require Import Records.
From S2P Require Import NodeHeap.
From S2P Require Import TrieMap.
From S2P Require Import Catalog.
From S2P Require Import Engine.
From S2P Require Import Store.
From S2P Require Import StoreView.
From S2P Require Import Content.
From S2P Require Import EngineInv.
From S2P Require Import ContentHeap.
From S2P Require Import ContentPlace.
From S2P Require Import ContentInv.
From S2P Require Import ContentWrite.
From S2P Require Import ContentRechunk.
From S2P Require Import ContentOps.
From S2P Require Import EngineProps.
From S2P Require Import ContentProps.
From S2P Require Import Retention.
From S2P Require Import Reopen.
Import PosixFile.

Section reopen_props.
Context `{!Crc32, !Hkdf, !Hmac, !Aes, !AesGcm, !Entropy, !Ed25519, !UuidSource}.

(** ** The end of the forward area *)

(** A bound that is found and leaves room to round it up. *)
Definition low_end (m : Z) : Prop := 2 * BASE_BLOCK ≤ m ≤ 2 ^ 63 + 2 ^ 33.
Definition finds_end (r : res Z) : Prop := ∃ m, r = Ok m ∧ low_end m.

Lemma finds_bind (r : res Z) (f : Z → res Z) : finds_end r → (∀ m, low_end m → finds_end (f m)) → finds_end (r ≫= f).
Proof. intros (m&->&Hm) Hf. by apply Hf. Qed.
Lemma finds_ret m : low_end m → finds_end (Ok m).
Proof. intros. by exists m. Qed.

Lemma finds_bump a size m :
  0 ≤ a < 2 ^ 63 → 0 ≤ size ≤ 2 ^ 33 → low_end m → finds_end (bump a size m).
Proof.
  intros Ha Hs Hm. unfold bump. destruct (a =? 0); [by apply finds_ret|].
  rewrite add64_ok by lia. apply finds_ret. unfold low_end in *. lia.
Qed.

Lemma round_up_block_range n : 0 ≤ n ≤ 2 ^ 32 + 2 ^ 10 → 0 ≤ round_up_block n ≤ 2 ^ 33.
Proof.
  intros Hn. rewrite round_up_block_footprint by lia. unfold footprint.
  destruct (round_up_spec n) as [? _]; [lia|]. unfold BASE_BLOCK in *. lia.
Qed.

Lemma finds_locs locs : ∀ m,
  Forall loc_ok locs → Forall (λ l, addr l < 2 ^ 63) locs → low_end m → finds_end (bump_locs locs m).
Proof.
  induction locs as [|l locs IH]; intros m Hok Hlow Hm; cbn [bump_locs]; [by apply finds_ret|].
  apply Forall_cons in Hok as [[Ha Hl] Hok]. apply Forall_cons in Hlow as [? Hlow].
  apply finds_bind; [|intros; by apply IH]. apply finds_bump; [width_lia| |done]. apply round_up_block_range. width_lia.
Qed.

Lemma finds_stream sm m :
  opt_ok stream_ok sm → match sm with Some x => Forall (λ l, addr l < 2 ^ 63) (sm_locations x) | None => True end →
  low_end m → finds_end (bump_stream sm m).
Proof.
  destruct sm as [sm|]; cbn; [|intros; by apply finds_ret]. intros (_&[_ Hl]&_) Hlow Hm. by apply finds_locs.
Qed.

Lemma finds_nodes nodes : ∀ m,
  Forall (λ a, 0 ≤ a < 2 ^ 63) nodes → low_end m → finds_end (bump_nodes nodes m).
Proof.
  induction nodes as [|a nodes IH]; intros m Hn Hm; cbn [bump_nodes]; [by apply finds_ret|].
  apply Forall_cons in Hn as [Ha Hn]. unfold low_end, BASE_BLOCK in *. rewrite add64_ok by lia. apply IH; [done|].
  unfold low_end, BASE_BLOCK in *. lia.
Qed.

Lemma checked_addrs (l : list (bytes * bytes)) :
  (∀ k v, (k, v) ∈ l → blen k = 16 ∧ ∃ a, v = le_bytes 8 a ∧ u64 a) →
  ∃ l', check_addrs l = Ok l' ∧ Forall (λ ua, (ua.1, le_bytes 8 ua.2) ∈ l ∧ u64 ua.2) l'.
Proof.
  induction l as [|[k v] l IH]; intros Hl; [by exists []|].
  destruct (Hl k v) as (Hk&a&->&Ha); [by left|]. destruct IH as (l'&Hl'&Hin); [intros; apply Hl; by right|].
  exists ((k, a) :: l'). cbn [check_addrs]. rewrite Hk, blen_le_bytes, Hl'. cbn [mbind res_bind]. rewrite le_val_u64 by done.
  split; [done|]. constructor; [split; [by left|done]|]. eapply Forall_impl; [done|]. intros ua []. split; [by right|done].
Qed.

Section opened.
Context (C : Claims) (s : Store) (K I : gmap bytes bytes) (F : gmap bytes File) (b0 : Backend.t).
Hypothesis Hf : files_with C s (K, I) F (K, I) b0.
Hypothesis HI : ∀ u, is_Some (I !! u) → is_Some (F !! u).
Hypothesis Hlen : Backend.len (bk s) ≤ 2 ^ 33.

Lemma finds_trie h rest packed r M N m :
  node_heap (meta (root_key (engine s))) (Allocator.reclaim_floor (alloc (engine s))) h rest packed
    (alloc (engine s)) (bk s) →
  trie_at h r M N → low_end m →
  finds_end (collect_trie_frontier (bk s) r (meta (root_key (engine s))) m).
Proof using Hlen.
  intros Hh Ht Hm. unfold collect_trie_frontier. destruct (r =? 0); [by apply finds_ret|].
  pose proof (heap_size _ _ _ _ _ _ _ N Hh (λ y Hy, trie_at_dom _ _ _ _ _ Ht Hy)) as Hsz.
  destruct (visit_spec (meta (root_key (engine s))) (bk s) h r M N) as (l&->&Hp);
    [by eapply node_heap_reads|done|unfold NODE_ALLOC_SIZE, BASE_BLOCK, TRIE_NODE_BUDGET in *; rewrite Z.shiftl_1_l; lia|].
  cbn [ran default mbind res_bind]. apply finds_nodes; [|done]. apply Forall_forall. intros y Hy.
  rewrite Hp in Hy. apply elem_of_elements in Hy.
  pose proof (node_range _ _ _ _ _ _ _ y Hh (trie_at_dom _ _ _ _ _ Ht Hy)). unfold NODE_ALLOC_SIZE, BASE_BLOCK in *. lia.
Qed.

Lemma content_low r sm plains f :
  stream_held C s r sm plains f → Forall (λ l, addr l < 2 ^ 63) (sm_locations sm).
Proof using Hf Hlen.
  intros [Hsh Hfr _ _ _ _ _ _ _]. apply Forall_lookup. intros i loc Hl.
  assert (i < length plains)%nat as Hi.
  { apply lookup_lt_Some in Hl. destruct Hsh as [_ Hlo _ _ _]. unfold blen in Hlo. lia. }
  destruct (lookup_lt_is_Some_2 plains i Hi) as [p Hp]. destruct (Hfr i p Hp) as [(loc'&v&Hl'&_&Hcase) _].
  assert (loc' = loc) as -> by congruence. destruct (is_hole loc) eqn:Eh.
  { unfold is_hole in Eh. lia. }
  destruct Hcase as (suite&ct&c&_&_&_&Hct&Hx). destruct (holds_ct_read _ _ _ _ _ _ _ _ _ (fw_eng _ _ _ _ _ _ Hf) Hx Hct) as [_ Hr].
  destruct Hct as (Hbl&?&_). destruct (Z.lt_ge_cases (addr loc) (2 ^ 63)); [done|].
  rewrite Backend.read_at_err in Hr; [done|]. unfold bk in Hlen. lia.
Qed.

(** A record is read back without its signature. *)
Lemma head_read u a r :
  rec_held C s u a r →
  a < 2 ^ 63 ∧ (∃ n, unit_record_raw_size (bk s) a (cipher (hdr s)) = Ok n ∧ 0 ≤ n ≤ 2 ^ 32 + 2 ^ 10) ∧
  read_unit_record (bk s) a (cipher (hdr s)) (root_key (engine s)) Unsigned (zeros 32) None = Ok r.
Proof using Hf Hlen.
  intros [(len&blk&Hx&Himg) Hok Hfit _ _]. pose proof (fw_eng _ _ _ _ _ _ Hf) as Hc.
  destruct (claim_read _ _ _ _ _ _ _ _ Hc Hx) as (Hlo&Hbl&Hend&Hcon&Hrd).
  assert (BASE_BLOCK ≤ footprint len) by (unfold footprint; lia). unfold bk in Hlen. split_and!.
  - unfold BASE_BLOCK in *. lia.
  - unfold unit_record_raw_size, bk. rewrite Hrd by (unfold BASE_BLOCK in *; lia). cbn [mbind res_bind].
    pose proof (le_val_range (take (Z.to_nat 4) blk) 4 ltac:(rewrite blen_take; unfold BASE_BLOCK in *; lia)) as Hle.
    case_match; eexists; (split; [done|lia]).
  - eapply read_record_image; [| | |by rewrite Hbl|done..].
    + destruct Hc as (h&rest&packed&Hd&_). apply (i_backend _ _ _ _ (nh_inv _ _ _ _ _ _ _ (d_heap _ _ _ _ _ _ Hd))).
    + block_lia.
    + unfold bk. lia.
Qed.

Lemma finds_heads entries : ∀ m,
  Forall (λ ua, I !! ua.1 = Some (le_bytes 8 ua.2) ∧ u64 ua.2) entries → low_end m →
  finds_end (bump_heads (bk s) (cipher (hdr s)) (root_key (engine s)) entries m).
Proof using Hf HI Hlen.
  induction entries as [|[u a] entries IH]; intros m He Hm; [by apply finds_ret|].
  apply Forall_cons in He as [[Hu Ha] He]. cbn [fst snd bump_heads] in *.
  destruct (HI u) as [f HF]; [by rewrite Hu|]. destruct (fw_units _ _ _ _ _ _ Hf u f HF) as (a'&Hu'&Ha'&r&sm&plains&Hrec&Hsl&Hc&Hst).
  assert (a' = a) as ->.
  { cbn [snd] in Hu'. rewrite Hu in Hu'. apply (inj Some) in Hu' as Heq. rewrite <-(le_val_u64 a), <-(le_val_u64 a') by done. by rewrite Heq. }
  destruct (head_read u a r Hrec) as (Hlow&(n&->&Hn)&->). cbn [mbind res_bind].
  pose proof (rh_ok _ _ _ _ _ Hrec) as (_&Hcok&Hmok&_). destruct Hsl as (_&_&_&Hml).
  apply finds_bind; [apply finds_bump; [width_lia|by apply round_up_block_range|done]|intros m1 Hm1].
  apply finds_bind; [apply finds_stream; [|rewrite Hc; by eapply content_low|done]|intros m2 Hm2].
  { rewrite Hc in *. by destruct Hcok. }
  apply finds_bind; [by apply finds_stream|]. intros m3 Hm3. by apply IH.
Qed.

(** ** The allocator is rebuilt *)

Hypothesis Hws : writer_set (hdr s) = None.
Hypothesis Hwal : wal_region_offset (hdr s) = 0.

Definition reopened (n : nat) : Engine :=
  let h := hdr s in
  opened_engine (bk s) n (root_key (engine s)) h (Trie_open (key_root (roots h)) (cipher h) (root_key (engine s)))
    (Trie_open (id_root (roots h)) (cipher h) (root_key (engine s))).

Lemma entries_found n :
  ∃ l, ran (scan_all (id_catalog (reopened n)) (bk s)) = Ok l ∧ Forall (λ ua, I !! ua.1 = Some (le_bytes 8 ua.2) ∧ u64 ua.2) l.
Proof using Hf HI Hlen.
  destruct (fw_eng _ _ _ _ _ _ Hf) as (h&rest&packed&Hd&_). pose proof (d_heap _ _ _ _ _ _ Hd) as Hh.
  destruct (d_rooted _ _ _ _ _ _ Hd) as (Nk&Ni&_&Ht&_). cbn [fst snd] in Ht.
  pose proof (heap_size _ _ _ _ _ _ _ Ni Hh (λ y Hy, trie_at_dom _ _ _ _ _ Ht Hy)) as Hsz. unfold bk in Hlen.
  destruct (scan_spec (meta (root_key (engine s))) (bk s) h (id_root (roots (hdr s))) I Ni []) as (l&Hl&_&Hin);
    [by eapply node_heap_reads|done|unfold NODE_ALLOC_SIZE, BASE_BLOCK, TRIE_NODE_BUDGET in *; rewrite Z.shiftl_1_l; lia|].
  unfold scan_all, reopened, opened_engine, Trie_open. cbn [id_catalog]. unfold hdr in *. rewrite (d_cipher _ _ _ _ _ _ Hd).
  unfold meta in Hl. rewrite Hl. cbn [fmap option_fmap option_map ran default mbind res_bind].
  destruct (checked_addrs l) as (l'&Hc&Hl').
  - intros u v Huv. apply Hin in Huv as [Hu _]. destruct (HI u) as [f HF]; [by rewrite Hu|].
    destruct (fw_units _ _ _ _ _ _ Hf u f HF) as (a&Hu'&Ha&r&sm&plains&Hrec&_).
    cbn [snd] in Hu'. split; [|exists a; split; [congruence|done]]. rewrite <-(rh_uuid _ _ _ _ _ Hrec). by destruct (rh_ok _ _ _ _ _ Hrec).
  - exists l'. split; [done|]. eapply Forall_impl; [done|]. intros ua [[? _]%Hin ?]. done.
Qed.

Lemma forward_end_found n : finds_end (forward_end (reopened n)).
Proof using Hf HI Hlen Hws.
  destruct (entries_found n) as (l&Hl&Hin). destruct (fw_eng _ _ _ _ _ _ Hf) as (h&rest&packed&Hd&_).
  pose proof (d_heap _ _ _ _ _ _ Hd) as Hh. destruct (d_rooted _ _ _ _ _ _ Hd) as (Nk&Ni&Htk&Hti&_).
  pose proof (λ r M N m, finds_trie h rest packed r M N m Hh) as Htrie.
  unfold forward_end. cbn [backend header reopened opened_engine Engine.store Engine.header Engine.root_key fst snd].
  change (backend (reopened n)) with (bk s). fold (hdr s). rewrite Hws.
  assert (NodeCrypto_new (cipher (hdr s)) (root_key (engine s)) = meta (root_key (engine s))) as ->
    by (unfold hdr; by rewrite (d_cipher _ _ _ _ _ _ Hd)).
  apply finds_bind; [apply (Htrie _ _ _ _ Htk)|intros m1 Hm1; apply finds_bind; [by apply (Htrie _ _ _ _ Hti)|intros m2 Hm2]].
  { unfold low_end, BASE_BLOCK. lia. }
  cbn [mbind res_bind]. rewrite Hl. cbn [mbind res_bind]. by apply finds_heads.
Qed.

Lemma tail_scanned n m : low_end m → ∃ l, scan_tail (reopened n) m = Ok l.
Proof using Hf Hlen Hwal.
  intros Hm. destruct (fw_eng _ _ _ _ _ _ Hf) as (h&rest&packed&Hd&_).
  destruct (i_backend _ _ _ _ (nh_inv _ _ _ _ _ _ _ (d_heap _ _ _ _ _ _ Hd))) as [Hwf _].
  unfold scan_tail. change (header (reopened n)) with (hdr s). change (backend (reopened n)) with (bk s).
  rewrite Hwal. cbn [Z.eqb]. fold (bk s) in Hwf. destruct (round_up_spec m) as [Hru _]; [unfold low_end, BASE_BLOCK in *; lia|].
  assert (∃ x, tail_scan_start (bk s) m (hdr_tail_low (hdr s)) (Backend.len (bk s)) = Ok x ∧ 0 ≤ x) as (x&->&Hx).
  { unfold tail_scan_start. unfold low_end, BASE_BLOCK in *. destruct (_ || _) eqn:E; [eexists; split; [done|lia]|].
    destruct (round_up_to_block m <? _) eqn:E2; [|eexists; split; [done|lia]].
    rewrite Backend.read_at_ok by (done || lia). cbn [mbind res_bind]. eexists. split; [done|]. case_match; lia. }
  cbn [mbind res_bind]. unfold scan_eviction_tail. case_match eqn:E; [by eexists|].
  rewrite scan_tail_loop_spec; [by eexists|done|lia..|]. unfold BASE_BLOCK. lia.
Qed.

(** The scan of the tail finds no undo image of an overwrite that was not
    published. *)
Definition clean_tail (e : Engine) : bool :=
  match m ← forward_end e; scan_tail e m with
  | Ok l => negb (existsb (unpublished (commit_seq (header e))) l)
  | _ => true
  end.

Lemma rebuilt n :
  clean_tail (reopened n) = true → ∃ a, rebuild_allocator (reopened n) = Ok (set_store ((a, bk s), n) (reopened n)).
Proof using Hf HI Hlen Hws Hwal.
  destruct (forward_end_found n) as (m&Hm&Hlow). destruct (tail_scanned n m Hlow) as (l&Hl).
  unfold clean_tail, rebuild_allocator. rewrite Hm. cbn [mbind res_bind]. rewrite Hl.
  rewrite add64_ok by (unfold low_end, BASE_BLOCK in *; lia). cbn [mbind res_bind]. intros Hcl%negb_true_iff.
  assert (undo_all (commit_seq (header (reopened n))) l (bk s) = Ok (bk s)) as Hu.
  { clear Hl. induction l as [|x l IH]; [done|]. cbn [undo_all existsb] in *. apply orb_false_iff in Hcl as [-> Hcl]. by apply IH. }
  change (backend (reopened n)) with (bk s). rewrite Hu, Hcl. by eexists.
Qed.

(** ** The files are those of before *)

Hypothesis Hlws : loaded_writer_set s = None.

(** A store over the same bytes, with the catalogs of its header. *)
Record over (s' : Store) : Prop := {
  ov_backend : bk s' = bk s;
  ov_header : hdr s' = hdr s;
  ov_key : root_key (engine s') = root_key (engine s);
  ov_names : ∀ path, get (key_catalog (engine s')) (bk s') path = Ok (K !! path);
  ov_ids : ∀ u, get (id_catalog (engine s')) (bk s') u = Ok (I !! u);
  ov_cache : resolve_cache (engine s') = ∅;
  ov_writers : loaded_writer_set s' = None;
  ov_overlay : wal_overlay s' = ∅;
}.

Lemma over_uuid s' path :
  over s' →
  uuid_for_path path (engine s') =
    match K !! path with
    | Some u => (Ok u, set_resolve_cache (<[path := u]> ∅) (engine s'))
    | None => (Err (NotFound "path not found"), engine s')
    end.
Proof using Hf.
  intros Ho. destruct (fw_eng _ _ _ _ _ _ Hf) as (h&rest&packed&_&Hcur).
  unfold uuid_for_path. rewrite run_gets, (ov_cache _ Ho), lookup_empty.
  rewrite (run_step (key_get path) _ _ (K !! path) (engine s')).
  - destruct (K !! path) as [u|]; [|done]. rewrite (run_step (lift _) _ _ u (engine s')) by done. rewrite run_modify.
    cbv zeta. rewrite (ov_cache _ Ho). done.
  - unfold key_get, get_path. change (backend (engine s')) with (bk s'). rewrite (ov_names _ Ho). cbn [mbind res_bind].
    destruct (K !! path) as [u|] eqn:Hp; [|done]. by rewrite (c_uuids _ _ _ Hcur _ _ Hp).
Qed.

Lemma over_missing s' path :
  over s' → K !! path = None → (read path s').1 = Err (NotFound "path not found").
Proof using Hf.
  intros Ho Hp. unfold read, on_engine, head_record_addr. rewrite bind_run.
  rewrite bind_run, (over_uuid _ _ Ho), Hp. done.
Qed.

Lemma over_read s' path u f :
  over s' → K !! path = Some u → F !! u = Some f → (read path s').1 = Ok (f_data f).
Proof using Hf Hlws.
  intros Ho Hp Hu. destruct (fw_units _ _ _ _ _ _ Hf u f Hu) as (a&HIu&Ha&r&sm&plains&Hrec&_&Hc&Hst). cbn [snd] in HIu.
  pose proof (fw_eng _ _ _ _ _ _ Hf) as Hceng.
  set (s1 := set_engine (set_resolve_cache (<[path := u]> ∅) (engine s')) s').
  assert (on_engine (head_record_addr path) s' = (Ok a, s1)) as Hh.
  { unfold on_engine, head_record_addr. rewrite bind_run, (over_uuid _ _ Ho), Hp.
    rewrite (run_step (id_get u) _ _ (Some a) (engine s1)); [done|]. unfold id_get, get_uuid.
    change (backend (set_resolve_cache _ _)) with (bk s'). change (id_catalog (set_resolve_cache _ _)) with (id_catalog (engine s')).
    rewrite (ov_ids _ Ho). cbn [mbind res_bind]. rewrite HIu. change (blen (le_bytes 8 a) =? 8) with true. cbn [negb].
    by rewrite le_val_u64. }
  destruct Ho. assert (bk s1 = bk s ∧ hdr s1 = hdr s ∧ root_key (engine s1) = root_key (engine s) ∧
    loaded_writer_set s1 = None ∧ wal_overlay s1 = ∅) as (Hb&Hhd&Hrk&Hw&Hov) by done.
  unfold read. rewrite bind_run, Hh.
  pose proof (rec_read _ _ _ _ _ _ _ _ Hceng Hrec) as Hrd. unfold read_record_at in Hrd. rewrite Hlws in Hrd.
  rewrite (run_asks_res _ _ _ r) by (unfold read_record_at; by rewrite Hb, Hhd, Hrk, Hw).
  assert (stored s1 r sm plains) as Hstored.
  { destruct (stream_held_stored _ _ _ _ _ _ _ _ _ Hceng Hst) as [Hsh Hfr]. split; [done|]. intros i p Hi.
    destruct (Hfr i p Hi) as [Hx ?]. split; [|done]. revert Hx. unfold opens_to, read_fragment, frag_ctx. by rewrite Hb, Hhd, Hrk. }
  rewrite (run_asks_res _ _ _ (f_data f)) by (rewrite (held_content _ _ _ _ _ _ Hst); by eapply read_content_spec).
  unfold asks_res, apply_wal_overlay_full. by rewrite Hov, lookup_empty.
Qed.

Lemma reopens n now :
  clean_tail (reopened n) = true → ∃ s', finish_open (bk s) n (root_key (engine s)) now = Ok s' ∧ over s'.
Proof using Hf HI Hlen Hws Hwal.
  intros Hcl. destruct (rebuilt n Hcl) as [a Ha].
  destruct (eng_opens _ _ _ _ (fw_eng _ _ _ _ _ _ Hf)) as (k&i&Hop&Hk&Hi).
  destruct (fw_eng _ _ _ _ _ _ Hf) as (h&rest&packed&Hd&_).
  assert (reopened n = opened_engine (bk s) n (root_key (engine s)) (hdr s) k i) as Hr.
  { revert Hop. unfold open_catalogs. destruct (load _ _) as [h'|?|]; [|done..]. cbn [mbind res_bind].
    destruct (negb _); [done|]. intros [= -> <- <-]. done. }
  unfold finish_open, bk. rewrite Hop. cbn [mbind res_bind]. unfold bk, hdr in Hr. rewrite <-Hr, Ha. cbn [mbind res_bind].
  unfold hdr in Hwal. rewrite Hwal. cbn [Z.eqb]. eexists. split; [done|].
  rewrite Hr. by split.
Qed.

End opened.

(** The image of a store that has the files [fs], opened again. *)
Lemma image_reads key s fs I F b0 k now :
  files s (fs_names fs, I) F (fs_names fs, I) b0 →
  (∀ p u, fs_names fs !! p = Some u → is_Some (F !! u)) → (∀ u, is_Some (I !! u) → is_Some (F !! u)) →
  fs_data fs = f_data <$> F → root_key (engine s) = key → loaded_writer_set s = None → writer_set (hdr s) = None →
  Backend.no_grow (bk s) = false → wal_region_offset (hdr s) = 0 → Backend.len (bk s) ≤ 2 ^ 33 → clean_tail (reopened s k) = true →
  ∃ s', (image ← snapshot s; open_in_memory_with_key image k key now) = Ok s' ∧
    ∀ path, (read path s').1 = (fs_answer [] (FRead path) fs).1.
Proof.
  intros [C Hf] HK HI HD Hkey Hlws Hws Hg Hwal Hlen Hcl.
  destruct (reopens C s _ I F b0 Hf HI Hlen Hws Hwal k now Hcl) as (s'&Hopen&Hov).
  exists s'. split.
  - unfold snapshot, Backend.snapshot, open_in_memory_with_key, Backend.open_in_memory. cbn [mbind res_bind].
    rewrite <-Hkey. rewrite <-Hopen. f_equal. destruct (fw_eng _ _ _ _ _ _ Hf) as (h&rest&packed&Hd&_).
    destruct (i_backend _ _ _ _ (nh_inv _ _ _ _ _ _ _ (d_heap _ _ _ _ _ _ Hd))) as [[Hb _] _].
    unfold bk in *. destruct (backend (engine s)). cbn in *. congruence.
  - intros path. cbn [fs_answer]. unfold with_file. destruct (fs_names _ !! path) as [u|] eqn:Hp.
    + destruct (HK path u Hp) as [f Hu]. rewrite (over_read C s _ I F b0 Hf Hlws s' path u f Hov Hp Hu).
      by rewrite HD, lookup_fmap, Hu.
    + by rewrite (over_missing C s _ I F b0 Hf s' path Hov Hp).
Qed.

(** C3. What a session leaves behind survives closing the container: the image
    of the store opens again with the root key, and every path reads as the
    reference file system has it at the end of the session. The image is that
    of a container without a write-ahead log of at most 8 GiB (which bounds the
    catalog by the number of nodes the mount accepts), whose tail holds no
    block that the mount takes for an unpublished overwrite. *)
Theorem file_session_durable key n cipher sl now e tr s k now' :
  blen sl = 16 → create_in_memory_with_cipher_key_and_salt n cipher key sl = Ok e →
  session (new_store e now) tr s → blen tr < 2 ^ 48 →
  wal_region_offset (hdr s) = 0 → Backend.len (bk s) ≤ 2 ^ 33 → clean_tail (reopened s k) = true →
  ∃ s', (image ← snapshot s; open_in_memory_with_key image k key now') = Ok s' ∧
    ∀ path, (read path s').1 = (fs_answer [] (FRead path) (fs_session tr (mkFS ∅ ∅)).2).1.
Proof.
  intros Hsl Hcr Hs Hl Hwal Hlen Hcl. destruct (new_shows key n cipher sl e now Hsl Hcr) as [Hsh Hg].
  destruct (session_shows key _ _ _ Hs 0 _ Hsh ltac:(lia) Hl Hg) as (_&((Hkey&_&Hlws&Hws)&I&F&b0&Hf&HK&HI&HD&_)&Hg').
  by eapply image_reads.
Qed.

End reopen_props.

(** ** A concrete container *)

Section reopen_witnesses.
Import Concrete.

#[local] Existing Instances ex_draws ex_ids ex_signatures.

Abbreviation ex_container := (create_in_memory_with_cipher_key_and_salt 0 CIPHER_NONE (zeros 32) (zeros 16)).
Definition ex_writes : list FileReq := [FCreate ex_path; FWrite ex_path 0 (bstr "hello")].

(** The session [l] on the container [c] succeeds and leaves an image that can
    be mounted. *)
Definition mountable (c : res Engine) (l : list FileReq) : bool :=
  match c with
  | Ok e =>
      match run_session l (new_store e 0) with
      | Some (_, s) => (wal_region_offset (hdr s) =? 0) && (Backend.len (bk s) <=? 2 ^ 33) && clean_tail (reopened s 0)
      | None => false
      end
  | _ => false
  end.

Lemma mountable_run c l :
  mountable c l = true → ∃ e tr s, c = Ok e ∧ run_session l (new_store e 0) = Some (tr, s) ∧
    wal_region_offset (hdr s) = 0 ∧ Backend.len (bk s) ≤ 2 ^ 33 ∧ clean_tail (reopened s 0) = true.
Proof.
  unfold mountable. destruct c as [e|?|]; [|done..]. destruct (run_session l _) as [[tr s]|] eqn:Hr; [|done].
  rewrite !andb_true_iff, Z.eqb_eq, Z.leb_le. intros [[? ?] ?]. by exists e, tr, s.
Qed.

Lemma ex_writes_mountable : mountable ex_container ex_writes = true.
Proof. vm_compute. reflexivity. Qed.

Lemma file_session_durable_witness :
  ∃ e tr s s', ex_container = Ok e ∧ session (new_store e 0) tr s ∧ blen tr = 2 ∧
    (image ← snapshot s; open_in_memory_with_key image 0 (zeros 32) 5) = Ok s' ∧
    (read ex_path s').1 = (fs_answer [] (FRead ex_path) (fs_session tr (mkFS ∅ ∅)).2).1.
Proof.
  destruct (mountable_run _ _ ex_writes_mountable) as (e&tr&s&Hc&Hrun&Hwal&Hlen&Hcl).
  assert (blen tr = 2) as Hl by (by rewrite (run_session_length _ _ _ _ Hrun)).
  assert (session (new_store e 0) tr s) as Hs by (eapply run_session_sound; exact Hrun).
  destruct (file_session_durable (zeros 32) 0 CIPHER_NONE (zeros 16) 0 e tr s 0 5 eq_refl Hc Hs
    ltac:(rewrite Hl; by_compute) Hwal Hlen Hcl) as (s'&Hopen&Hread).
  exists e, tr, s, s'. split; [exact Hc|]. split; [exact Hs|]. split; [exact Hl|]. split; [exact Hopen|]. apply Hread.
Defined.

End reopen_witnesses.
