(* ===== verification/MountProps.v ===== *)
(** * What an open file of the mount shows

    The write-back cache of a handle over the files of the engine: a session of
    writes, reads, flushes and syncs on an open handle answers as a POSIX file,
    and what has been synced survives. *)

From S2P Require Import Prelude.
From S2P Require Import BTree.
From S2P Require Import Posix.
From S2P Require Import Vector.
From S2P Require Import Block.
From S2P Require Import Backend.
From S2P Require Import Crypto.
From S2P Require Import Header.
From S2P Require Import Alloc.
From S2P Require Import AllocInv.
From S2P Require Import Unit.
From S2P Require Import WriterSet.
From S2P Require Import Trie.
From S2P Require Import Records.
From S2P Require Import NodeHeap.
From S2P Require Import TrieMap.
From S2P Require Import Catalog.
From S2P Require Import Engine.
From S2P Require Import Store.
From S2P Require Import StoreView.
From S2P Require Import Content.
From S2P Require Import EngineInv.
From S2P Require Import ContentHeap.
From S2P Require Import ContentPlace.
From S2P Require Import ContentInv.
From S2P Require Import ContentWrite.
From S2P Require Import ContentRechunk.
From S2P Require Import ContentOps.
From S2P Require Import EngineProps.
From S2P Require Import ContentProps.
From S2P Require Import Retention.
From S2P Require Import Reopen.
From S2P Require Import ReopenProps.
From S2P Require Import WbCache.
From S2P Require Import Attr.
From S2P Require Import Inode.
From S2P Require Import Mount.
Import PosixFile.

Abbreviation db := FsAdapter.engine.

Section mount.
Context `{!Crc32, !Hkdf, !Hmac, !Aes, !AesGcm, !Entropy, !Ed25519, !UuidSource, !HashOrder}.

(** ** The engine below the mount *)

(** The store has the files [fs], with unit [u] at version [f]; outside a batch
    they are published. *)
Definition store_shows (key : bytes) (fs : FileSystem) (u : bytes) (f : File) (s : Store) : Prop :=
  ∃ I Fm com b0, files s (fs_names fs, I) Fm com b0 ∧ Fm !! u = Some f ∧
    (∀ p v, fs_names fs !! p = Some v → is_Some (Fm !! v)) ∧ (∀ v, is_Some (I !! v) → is_Some (Fm !! v)) ∧
    fs_data fs = f_data <$> Fm ∧ root_key (engine s) = key ∧ loaded_writer_set s = None ∧ writer_set (hdr s) = None ∧
    Backend.no_grow (bk s) = false ∧ (suppress_commit (engine s) = false → com = (fs_names fs, I)).

(** The file system with the contents of one unit replaced. *)
Definition with_data (fs : FileSystem) (u d : bytes) : FileSystem := mkFS (fs_names fs) (<[u := d]> (fs_data fs)).

Lemma with_data_twice fs u d d' : with_data (with_data fs u d) u d' = with_data fs u d'.
Proof. unfold with_data. cbn. by rewrite insert_insert_eq. Qed.

Lemma store_shows_data key fs u f s : store_shows key fs u f s → fs_data fs !! u = Some (f_data f).
Proof. intros (I&Fm&com&b0&_&Hu&_&_&->&_). by rewrite lookup_fmap, Hu. Qed.

Lemma shows_settled key fs u f s K I Fm com b0 a g s' :
  settled s K (<[u := a]> I) (<[u := g]> Fm) com b0 s' → K = fs_names fs →
  Fm !! u = Some f → (∀ p v, fs_names fs !! p = Some v → is_Some (Fm !! v)) → (∀ v, is_Some (I !! v) → is_Some (Fm !! v)) →
  fs_data fs = f_data <$> Fm → root_key (engine s) = key → loaded_writer_set s = None → writer_set (hdr s) = None →
  Backend.no_grow (bk s) = false → suppress_commit (engine s) = true →
  store_shows key (with_data fs u (f_data g)) u g s' ∧ suppress_commit (engine s') = true ∧ hdr s' = hdr s.
Proof.
  intros (([= _ _ _ _ _ _ Hw]&Hk&_&_&Hl)&Hs&Hg&Hc) -> Hu HK HI HD Hkey Hlws Hws Hgr Hsup. rewrite Hsup in *.
  destruct Hc as [(_&Hh&_) Hf]. split_and!; [|done|exact Hh].
  exists (<[u := a]> I), (<[u := g]> Fm), com, b0. cbn [with_data fs_names fs_data].
  split_and!; [done|by rewrite lookup_insert_eq| | |by rewrite HD, fmap_insert|congruence..].
  - intros p v Hv. apply lookup_insert_is_Some'. right. by eapply HK.
  - intros v. rewrite !lookup_insert_is_Some'. intros [?|Hv]; [by left|right; by apply HI].
Qed.

(** ** Batches *)

Lemma begin_batch_run C e cur com b0 : ceng C e cur com b0 → begin_batch e = (Ok (), in_scope e).
Proof.
  intros (h&rest&packed&Hd&_). unfold begin_batch, in_scope. rewrite run_gets. destruct (suppress_commit e) eqn:E; [done|].
  rewrite run_modify. unfold resession, Allocator.begin_reclaim_scope.
  pose proof (d_scope _ _ _ _ _ _ Hd E) as Hfl. cbn. unfold modify. change (alloc (set_suppress true e)) with (alloc e).
  by rewrite Hfl.
Qed.

Lemma in_scope_fields e : header (in_scope e) = header e ∧ root_key (in_scope e) = root_key e ∧
  record_cache (in_scope e) = record_cache e ∧ resolve_cache (in_scope e) = resolve_cache e ∧
  backend (in_scope e) = backend e ∧ suppress_commit (in_scope e) = true.
Proof. unfold in_scope. destruct (suppress_commit e) eqn:E; by split_and!. Qed.

Lemma begin_batch_shows key fs u f s :
  store_shows key fs u f s →
  ∃ s', on_engine begin_batch s = (Ok (), s') ∧ store_shows key fs u f s' ∧ suppress_commit (engine s') = true ∧
    hdr s' = hdr s ∧ record_cache (engine s') = record_cache (engine s).
Proof.
  intros (I&Fm&com&b0&[C Hf]&Hu&HK&HI&HD&Hkey&Hlws&Hws&Hgr&_).
  destruct (in_scope_fields (engine s)) as (Eh&Er&Ec&Ep&Eb&Es).
  unfold on_engine. rewrite (begin_batch_run C _ _ _ _ (fw_eng _ _ _ _ _ _ Hf)). eexists. split; [done|].
  set (s' := set_engine _ s). split_and!; [|done|exact Eh|exact Ec].
  exists I, Fm, com, b0. split_and!; [|done..|by cbn; rewrite Er|done|by unfold hdr; cbn; rewrite Eh|by unfold bk; cbn; rewrite Eb|by cbn; rewrite Es].
  exists C. eapply files_calm; [done| |done| |].
  - split; [by rewrite Eh|by rewrite Ec].
  - intros p v. rewrite Ep. apply (fw_paths _ _ _ _ _ _ Hf).
  - apply in_scope_eng, Hf.
Qed.

Lemma left_scope_fields d e : header (left_scope false d e) = header e ∧ root_key (left_scope false d e) = root_key e ∧
  record_cache (left_scope false d e) = record_cache e ∧ resolve_cache (left_scope false d e) = resolve_cache e ∧
  backend (left_scope false d e) = backend e ∧ suppress_commit (left_scope false d e) = false.
Proof. by split_and!. Qed.

Lemma commit_batch_run e :
  commit_batch e = if suppress_commit e then publish (left_scope false (Allocator.deferred_free (alloc e)) e) else (Ok (), e).
Proof. unfold commit_batch. rewrite run_gets. by destruct (suppress_commit e). Qed.

(** A call of the engine on a store that may grow. *)
Definition yields_store {A} (x : res A * Store) (Q : A → Store → Prop) : Prop :=
  match x with (Ok v, s') => Q v s' | (Err _, _) => False | (Panic, s') => exhausted (engine s') end.

Lemma soutcome_yields {A} s com b0 (x : res A * Store) (Q Q' : A → Store → Prop) F :
  soutcome s com b0 x Q F → Backend.no_grow (bk s) = false → (∀ er s', ¬ F er s') → (∀ v s', Q v s' → Q' v s') → yields_store x Q'.
Proof.
  unfold soutcome, yields_store. intros Ho Hg HF HQ. destruct x as [[v|er|] s']; [by apply HQ| |done].
  destruct Ho as [Hf|(_&Hg'&_)]; [by eapply HF|congruence].
Qed.

(** An open batch can be published. *)
Definition room (s : Store) : Prop := suppress_commit (engine s) = true → commit_seq (hdr s) < 2 ^ 64 - 1.

Lemma commit_batch_shows key fs u f s :
  store_shows key fs u f s → room s →
  yields_store (on_engine commit_batch s) (λ _ s', store_shows key fs u f s' ∧ suppress_commit (engine s') = false).
Proof.
  intros Hs Hseq. unfold on_engine. rewrite commit_batch_run. destruct (suppress_commit (engine s)) eqn:E.
  2: { cbn. split; [|done]. by destruct s. }
  specialize (Hseq E).
  destruct Hs as (I&Fm&com&b0&[C Hf]&Hu&HK&HI&HD&Hkey&Hlws&Hws&Hgr&_).
  set (e1 := left_scope false _ _).
  assert (ceng C e1 (fs_names fs, I) com b0) as He1.
  { apply eng_session; [|apply Hf]. split_and!; auto. }
  pose proof (publish_outcome (X := claimed C) e1 e1 _ com b0 (λ _ _, False) (base_refl _)
    (fw_paths _ _ _ _ _ _ Hf : coherent e1 _) He1 Hseq) as Ho.
  pose proof (calmly_publish e1) as [Hcf Hmap].
  destruct (publish e1) as [[[]|er|] e'] eqn:Ep; [| |done].
  2: { destruct Ho as [[]|(_&Hg&_)]. unfold bk in Hgr. cbn in Hg. congruence. }
  cbn [snd] in Hcf, Hmap. destruct Ho as (Hco&Hrk&Hsup&Hg&Hcs&He'). cbn. split; [|done].
  exists I, Fm, (fs_names fs, I), (backend e'). split_and!; try done.
  - exists C. by eapply files_calm.
  - by etrans.
  - injection Hcf as _ _ _ _ _ _ Hw. by etrans.
  - by etrans.
Qed.

(** ** The calls of a handle *)

(** The files of [fs], with the unit [u] at [f]. *)
Definition live (key : bytes) (fs : FileSystem) (u : bytes) (f : File) : Store → Prop :=
  store_shows key (with_data fs u (f_data f)) u f.

Section handle_calls.
Context {key : bytes} {fs : FileSystem} {u : bytes} {f : File} {s : Store} {path : bytes}.
Hypothesis Hs : live key fs u f s.
Hypothesis Hp : fs_names fs !! path = Some u.

Lemma summary_shows :
  ∃ s' sum, unit_summary path s = (Ok sum, s') ∧ us_size sum = blen (f_data f) ∧ live key fs u f s' ∧
    hdr s' = hdr s ∧ suppress_commit (engine s') = suppress_commit (engine s).
Proof using Hs Hp.
  destruct Hs as (I&Fm&com&b0&Hf&Hu&Hrest). destruct (unit_summary_spec _ _ _ _ _ _ _ _ _ Hf Hp Hu) as (s'&sum&Hrun&Hsz&[rc ->]&Hf').
  eexists _, sum. split_and!; [done|done| |done|done]. by exists I, Fm, com, b0.
Qed.

Lemma read_at_shows offset len :
  u64 offset → u64 len → RecordCache.tick (record_cache (engine s)) + 2 < 2 ^ 64 → f_short f = [] →
  ∃ s', read_at path offset len s = (Ok (pread (f_data f) offset len), s') ∧ live key fs u f s' ∧
    suppress_commit (engine s') = suppress_commit (engine s) ∧ hdr s' = hdr s ∧
    RecordCache.tick (record_cache (engine s')) ≤ RecordCache.tick (record_cache (engine s)) + 2.
Proof using Hs Hp.
  intros Ho Hl Ht Hsh. destruct Hs as (I&Fm&com&b0&Hf&Hu&Hrest).
  destruct (read_at_spec _ _ _ _ _ _ _ _ _ offset len Hf Hp Hu Ho Hl Ht) as (s'&k&Hrun&(rc&cache&->)&Hf'&Hk&Ht').
  rewrite (Hk (or_introl Hsh)) in Hrun. eexists. split_and!; [done| |done|done|done]. by exists I, Fm, com, b0.
Qed.

Context (Hlen : path_fits path) (Hseq : commit_seq (hdr s) < 2 ^ 64 - 1) (Hbatch : suppress_commit (engine s) = true).
Context (Hctr : f_counter f + 1 < 2 ^ 48).

(** A call inside the batch leaves the header alone. *)
Definition in_batch (g : File) (s' : Store) : Prop :=
  live key fs u g s' ∧ suppress_commit (engine s') = true ∧ hdr s' = hdr s.

Lemma write_shows offset data :
  data ≠ [] → 0 ≤ offset ≤ blen (f_data f) → offset + blen data ≤ MAX_FILE →
  yields_store (write path offset data s) (λ _, in_batch (written f offset data)).
Proof using All.
  intros Hd Ho He. destruct Hs as (I&Fm&com&b0&Hf&Hu&HK&HI&HD&Hkey&Hlws&Hws&Hgr&_).
  eapply soutcome_yields; [by eapply (write_file_spec _ _ _ _ _ _ _ _ _ offset data Hf Hp Hlen Hu Hseq Hctr Hd); lia|done| |].
  - intros er s' (_&?&_). lia.
  - intros _ s' (_&a&Hset). unfold in_batch, live. rewrite <-(with_data_twice fs u (f_data f)). by eapply shows_settled.
Qed.

Lemma extend_shows n :
  blen (f_data f) < n → n ≤ MAX_FILE → yields_store (extend path n s) (λ _, in_batch (extended f n)).
Proof using All.
  intros Hn Hm. destruct Hs as (I&Fm&com&b0&Hf&Hu&HK&HI&HD&Hkey&Hlws&Hws&Hgr&_).
  pose proof (blen_nonneg (f_data f)).
  eapply soutcome_yields; [by eapply (extend_spec _ _ _ _ _ _ _ _ _ n Hf Hp Hlen Hu Hseq Hctr); lia|done|by intros ? ? []|].
  intros v s' Ho. cbn in Ho. replace (n <=? blen (f_data f)) with false in Ho by lia. destruct Ho as [a Hset].
  unfold in_batch, live. rewrite <-(with_data_twice fs u (f_data f)). by eapply shows_settled.
Qed.
End handle_calls.

(** ** Requests of the mount *)

(** The request is answered, or the container or its commit counter is full. *)
Definition serves {A} (x : reply A * FsAdapter.t) (Q : A → FsAdapter.t → Prop) : Prop :=
  match x with
  | (Done v, a') => Q v a'
  | (Failed _, _) => False
  | (Unwound, a') => exhausted (engine (db a'))
  end.

Lemma serves_bind {A B} (m : FsAdapter.AM A) (k : A → FsAdapter.AM B) a Q1 Q :
  serves (m a) Q1 → (∀ v a', Q1 v a' → serves (k v a') Q) → serves ((m ≫= k) a) Q.
Proof. unfold serves, mbind, FsAdapter.AM_bind. destruct (m a) as [[v|er|] a']; [intros ? Hk; by apply Hk|done..]. Qed.

Lemma serves_weaken {A} (x : reply A * FsAdapter.t) (Q Q' : A → FsAdapter.t → Prop) :
  serves x Q → (∀ v a', Q v a' → Q' v a') → serves x Q'.
Proof. unfold serves. destruct x as [[v|er|] a']; [intros ? Hk; by apply Hk|done..]. Qed.

Lemma serves_db {A} (m : SM A) a Q :
  yields_store (m (db a)) Q → serves (FsAdapter.on_db m a) (λ v a', ∃ s', a' = FsAdapter.set_engine s' a ∧ Q v s').
Proof. unfold yields_store, FsAdapter.on_db, FsAdapter.call. destruct (m (db a)) as [[v|er|] s']; [by exists s'|done..]. Qed.

Lemma am_run {A B} (m : FsAdapter.AM A) (k : A → FsAdapter.AM B) a v a' :
  m a = (Done v, a') → (m ≫= k) a = k v a'.
Proof. unfold mbind, FsAdapter.AM_bind. by intros ->. Qed.

Lemma set_engine_twice s s' a : FsAdapter.set_engine s' (FsAdapter.set_engine s a) = FsAdapter.set_engine s' a.
Proof. done. Qed.

(** *** Attributes *)

(** An engine call that succeeds within a request that does. *)
Lemma am_done {A B} (m : FsAdapter.AM A) (k : A → FsAdapter.AM B) a v a' :
  (m ≫= k) a = (Done v, a') → ∃ w a1, m a = (Done w, a1) ∧ k w a1 = (Done v, a').
Proof. unfold mbind, FsAdapter.AM_bind. destruct (m a) as [[w|er|] a1]; [|done..]. by exists w, a1. Qed.

(** *** Flushing *)

(** The version of the file after a flush of the extents [m]. *)
Definition write_out (f : File) (m : list (Z * bytes)) : File := foldl (λ g e, written g e.1 e.2) f m.
Definition flushed_file (f : File) (m : list (Z * bytes)) : File :=
  write_out (if blen (f_data f) <? WbCache.max_end m then extended f (WbCache.max_end m) else f) m.

Lemma write_out_spec m : ∀ f,
  f_data (write_out f m) = WbCache.write_extents (f_data f) m ∧ f_counter (write_out f m) = f_counter f + blen m ∧
  ∀ x, x ∈ f_short (write_out f m) → x ∈ f_short f ∧ ∀ e, e ∈ m → ¬ WbCache.covers e x.
Proof.
  induction m as [|e m IH]; intros f; cbn.
  - split_and!; [done|unfold blen; cbn; lia|]. intros x Hx. split; [done|]. intros e He. by apply elem_of_nil in He.
  - destruct (IH (written f e.1 e.2)) as (Hd&Hc&Hs). split_and!; [done|etrans; [exact Hc|]; cbn; unfold blen; cbn; lia|].
    intros x Hx. destruct (Hs x Hx) as [Hin Hm]. cbn in Hin. apply list_elem_of_filter in Hin as [Hn Hin].
    split; [done|]. intros e' [->|He']%elem_of_cons; [done|by apply Hm].
Qed.

Lemma flushed_file_nil f : flushed_file f [] = f.
Proof. unfold flushed_file. cbn. pose proof (blen_nonneg (f_data f)). by replace (blen (f_data f) <? 0) with false by lia. Qed.

Lemma flushed_file_spec f c :
  WbCache.wf c → blen (f_data f) ≤ WbCache.len c →
  f_data (flushed_file f (WbCache.ranges c)) = WbCache.flushed (f_data f) (WbCache.ranges c) ∧
  f_counter (flushed_file f (WbCache.ranges c)) ≤ f_counter f + blen (WbCache.ranges c) + 1 ∧
  (f_short f = [] → WbCache.solid (f_data f) c → f_short (flushed_file f (WbCache.ranges c)) = []).
Proof.
  intros Hwf Hlen. set (m := WbCache.ranges c) in *. unfold flushed_file, WbCache.flushed. set (g := if _ <? _ then extended _ _ else f).
  destruct (write_out_spec m g) as (Hd&Hc&Hs). split_and!.
  - rewrite Hd. unfold g. by destruct (_ <? _).
  - rewrite Hc. unfold g. destruct (_ <? _); cbn; lia.
  - intros Hf Hsol. destruct (f_short (write_out g m)) as [|x l] eqn:E; [done|exfalso].
    destruct (Hs x) as [Hx Hcov]; [left|]. revert Hx. unfold g. destruct (Z.ltb_spec (blen (f_data f)) (WbCache.max_end m)) as [Hlt|]; cbn; rewrite Hf.
    2: { by intros ?%elem_of_nil. }
    intros ->%list_elem_of_singleton.
    destruct (WbCache.dirty_extent m (blen (f_data f))) as (e&He&Hce); [apply Hwf| |by eapply Hcov].
    apply Hsol. split; [done|]. pose proof (WbCache.max_end_le m (WbCache.len c) (proj1 (WbCache.wf_len _ Hwf)) (WbCache.wf_inside _ Hwf)). lia.
Qed.

Lemma extents_end_spec m :
  (∀ e, e ∈ m → 0 ≤ e.1 ∧ e.1 + blen e.2 < 2 ^ 64) → FsAdapter.extents_end m = Ok (WbCache.max_end m).
Proof.
  induction m as [|[o d] m IH]; intros Hm; [done|]. cbn [FsAdapter.extents_end].
  destruct (Hm (o, d)) as [? ?]; [left|]. cbn in *. pose proof (blen_nonneg d).
  rewrite add64_ok by width_lia. cbn [mbind res_bind]. rewrite IH by (intros e He; apply Hm; by right). done.
Qed.

(** What a request in a batch leaves: the adapter with another engine. *)
Definition batched (key : bytes) (fs : FileSystem) (u : bytes) (f : File) (a a' : FsAdapter.t) : Prop :=
  ∃ s', a' = FsAdapter.set_engine s' a ∧ live key fs u f s' ∧ suppress_commit (engine s') = true ∧ hdr s' = hdr (db a).

Lemma write_all_serves key fs u path m : fs_names fs !! path = Some u → path_fits path → ∀ f a,
  live key fs u f (db a) → suppress_commit (engine (db a)) = true → commit_seq (hdr (db a)) < 2 ^ 64 - 1 →
  f_counter f + blen m < 2 ^ 48 → blen (f_data f) ≤ MAX_FILE →
  (∀ e, e ∈ m → 0 ≤ e.1 ∧ 0 < blen e.2 ∧ e.1 + blen e.2 ≤ blen (f_data f)) →
  serves (FsAdapter.write_all path m a) (λ _, batched key fs u (write_out f m) a).
Proof.
  intros Hp Hl. induction m as [|[o d] m IH]; intros f a Hs Hb Hseq Hc Hmax Hm; cbn [FsAdapter.write_all].
  { exists (db a). split_and!; [by destruct a|done..]. }
  destruct (Hm (o, d)) as (Ho&Hd&He); [left|]. cbn in Ho, Hd, He.
  assert (blen ((o, d) :: m) = blen m + 1) as Hbl by (unfold blen; cbn; lia). pose proof (blen_nonneg m).
  assert (d ≠ []) as Hne by (intros ->; unfold blen in Hd; cbn in Hd; lia). rewrite bool_decide_false by done.
  eapply serves_bind; [apply serves_db, (write_shows Hs Hp Hl Hseq Hb ltac:(lia)); [done|lia|lia]|].
  intros [] a' (s'&->&Hs'&Hb'&Hh). assert (blen (f_data (written f o d)) = blen (f_data f)) as Hsame.
  { cbn. rewrite blen_pwrite by (done || lia). lia. }
  eapply serves_weaken.
  - apply (IH (written f o d) (FsAdapter.set_engine s' a)); try done; [cbn; by rewrite Hh|cbn; lia|lia|].
    intros e He'. rewrite Hsame. apply Hm. by right.
  - intros [] a' (s2&->&?&?&Hh2). exists s2. split_and!; [done..|]. etrans; [exact Hh2|exact Hh].
Qed.

Lemma note_write_serves key fs u f a :
  live key fs u f (db a) → commit_seq (hdr (db a)) < 2 ^ 64 - 1 →
  0 ≤ FsAdapter.write_gen a < 2 ^ 64 - 1 → 0 ≤ FsAdapter.ops (FsAdapter.batch a) < 2 ^ 64 - 1 →
  serves (FsAdapter.note_write a) (λ _ a', ∃ s' b',
    a' = FsAdapter.set_engine s' (FsAdapter.set_batch b' (FsAdapter.set_write_gen (FsAdapter.write_gen a + 1) a)) ∧
    live key fs u f s' ∧ room s').
Proof.
  intros Hs Hseq Hg Ho. unfold FsAdapter.note_write.
  rewrite (am_run _ _ _ _ _ (eq_refl : FsAdapter.modify _ a = _)).
  replace (FsAdapter.fetch_add (FsAdapter.write_gen a)) with (FsAdapter.write_gen a + 1)
    by (unfold FsAdapter.fetch_add; rewrite Z.mod_small; lia).
  set (a1 := FsAdapter.set_write_gen _ a).
  rewrite (am_run _ _ _ _ _ (eq_refl : FsAdapter.asks _ a1 = _)), (am_run _ _ _ _ _ (eq_refl : FsAdapter.asks _ a1 = _)).
  change (FsAdapter.batch a1) with (FsAdapter.batch a). unfold FsAdapter.lift at 1. rewrite add64_ok by width_lia.
  erewrite am_run by done. cbv zeta. set (due := _ || _). erewrite am_run by done. destruct due.
  - eapply serves_weaken; [apply serves_db, (commit_batch_shows _ _ _ _ _ Hs (λ _, Hseq))|].
    intros [] a' (s'&->&?&Hsup). exists s', (FsAdapter.mkBatch 0 None). split_and!; [done..|]. intros ?. congruence.
  - exists (db a). eexists (FsAdapter.mkBatch _ _). split_and!; [reflexivity|done|by intros _].
Qed.

(** *** The handle *)

(** The window [w] holds bytes of the base [B]. *)
Definition window_of (B : bytes) (w : FsAdapter.ReadAhead) : Prop :=
  0 ≤ FsAdapter.start w ∧ FsAdapter.data w = pread B (FsAdapter.start w) (blen (FsAdapter.data w)).

(** The handle [h], over version [f] of its file, shows the contents [F]; [g]
    is set once a write has left a gap. [N] bounds the versions the file has
    had and those a flush still has to write. *)
Record handle_shows (N wgen : Z) (f : File) (h : FsAdapter.HandleState) (g : bool) (F : bytes) : Prop := {
  hd_wf : WbCache.wf (FsAdapter.cache h);
  hd_base : blen (f_data f) ≤ WbCache.len (FsAdapter.cache h) ≤ MAX_FILE;
  hd_file : WbCache.file (f_data f) (FsAdapter.cache h) = F;
  hd_tight : WbCache.tight (f_data f) (FsAdapter.cache h);
  hd_solid : g = false → f_short f = [] ∧ WbCache.solid (f_data f) (FsAdapter.cache h);
  hd_counter : f_counter f + blen (WbCache.ranges (FsAdapter.cache h)) + 1 ≤ N;
  hd_window : ∀ w, FsAdapter.readahead h = Some w →
    FsAdapter.gen w ≤ wgen ∧ (FsAdapter.gen w = wgen → window_of (f_data f) w);
}.

Section one_handle.
Context (key : bytes) (fs : FileSystem) (u path : bytes) (fh : Z).
Hypothesis Hp : fs_names fs !! path = Some u.
Hypothesis Hlen : path_fits path.

Definition mounted_at (f : File) (N : Z) (g : bool) (F : bytes) (a : FsAdapter.t) : Prop :=
  ∃ h, FsAdapter.handles a !! fh = Some h ∧ FsAdapter.paths a !! FsAdapter.h_ino h = Some path ∧
    live key fs u f (db a) ∧ handle_shows N (FsAdapter.write_gen a) f h g F.
Definition mounted (N : Z) (g : bool) (F : bytes) (a : FsAdapter.t) : Prop := ∃ f, mounted_at f N g F a.

(** The counters of the container and of the adapter are not at their last
    values. *)
Definition mount_left (a : FsAdapter.t) : Prop :=
  commit_seq (hdr (db a)) < 2 ^ 64 - 1 ∧ RecordCache.tick (record_cache (engine (db a))) + 2 ^ 34 < 2 ^ 64 ∧
  0 ≤ FsAdapter.write_gen a < 2 ^ 64 - 1 ∧ 0 ≤ FsAdapter.ops (FsAdapter.batch a) < 2 ^ 64 - 1.

Lemma handle_run {A} (k : FsAdapter.HandleState → FsAdapter.AM A) a h :
  FsAdapter.handles a !! fh = Some h → (FsAdapter.handle fh ≫= k) a = k h a.
Proof using. intros Hh. apply am_run. unfold FsAdapter.handle. by rewrite Hh. Qed.

Lemma path_run {A} (k : bytes → FsAdapter.AM A) a ino p :
  FsAdapter.paths a !! ino = Some p → (FsAdapter.path_of ino ≫= k) a = k p a.
Proof using. intros Hh. apply am_run. unfold FsAdapter.path_of. by rewrite Hh. Qed.

(** The version a flush writes, and the handle it leaves. *)
Lemma handle_flush N wgen wgen' f h g F :
  handle_shows N wgen f h g F → wgen ≤ wgen' → (wgen = wgen' → WbCache.ranges (FsAdapter.cache h) = []) →
  let f' := flushed_file f (WbCache.ranges (FsAdapter.cache h)) in
  f_data f' = F ∧
  handle_shows (N + 1) wgen' f' (FsAdapter.mkHandle (FsAdapter.h_ino h) (WbCache.take_dirty_ranges (FsAdapter.cache h)).2
    (FsAdapter.readahead h) (FsAdapter.seq_next h)) g F.
Proof using.
  intros [Hwf Hb HF Ht Hsol Hc Hw] Hgen Hsame f'.
  destruct (flushed_file_spec f _ Hwf (proj1 Hb)) as (Hd&Hcnt&Hsh). fold f' in Hd, Hcnt, Hsh.
  destruct (WbCache.take_dirty_ranges_spec _ Hwf) as (Hwf'&Hr'&Hl'&_).
  destruct (WbCache.file_flush _ _ Hwf (proj1 Hb)) as [_ Hff]. rewrite <-Hd in Hff.
  pose proof (WbCache.flush_full _ _ Hwf (proj1 Hb) Ht) as Hfull. rewrite <-Hd in Hfull.
  split.
  - rewrite <-HF, <-Hff. symmetry. apply WbCache.file_clean; congruence.
  - split; cbn; rewrite ?Hl'; try done.
    + lia.
    + congruence.
    + intros ?. lia.
    + intros Hg. destruct (Hsol Hg). split; [by apply Hsh|]. intros x Hx. cbn in Hx. rewrite Hl' in Hx. lia.
    + rewrite Hr'. change (blen []) with 0. lia.
    + intros w Hrw. destruct (Hw w Hrw) as [Hle Hwin]. split; [lia|]. intros Heq.
      assert (wgen = wgen') as E by lia. replace (f_data f') with (f_data f); [apply Hwin; lia|].
      unfold f'. by rewrite (Hsame E), flushed_file_nil.
Qed.
(** The part of [flush] that writes the extents out. *)
Lemma flush_out_serves f c a :
  WbCache.wf c → blen (f_data f) ≤ WbCache.len c ≤ MAX_FILE → live key fs u f (db a) → mount_left a →
  f_counter f + blen (WbCache.ranges c) + 1 < 2 ^ 48 →
  serves ((FsAdapter.on_db (on_engine begin_batch);;
      max_end ← FsAdapter.lift (FsAdapter.extents_end (WbCache.ranges c));
      summary ← FsAdapter.on_db (unit_summary path);
      (if us_size summary <? max_end then FsAdapter.on_db (extend path max_end) else mret ());;
      FsAdapter.write_all path (WbCache.ranges c);;
      FsAdapter.note_write) a)
    (λ _ a', ∃ s' b', a' = FsAdapter.set_engine s' (FsAdapter.set_batch b' (FsAdapter.set_write_gen (FsAdapter.write_gen a + 1) a)) ∧
       live key fs u (flushed_file f (WbCache.ranges c)) s' ∧ room s').
Proof using All.
  intros Hwf [Hb Hmax] Hs (Hseq&_&Hg&Ho) Hc. set (m := WbCache.ranges c) in *. pose proof (WbCache.wf_len _ Hwf) as [Hl0 Hl1]. pose proof (blen_nonneg m).
  assert (∀ e, e ∈ m → 0 ≤ e.1 ∧ 0 < blen e.2 ∧ e.1 + blen e.2 ≤ WbCache.max_end m) as Hm.
  { intros e He. destruct Hwf as [_ [_ ? ? _] _ _]. split_and!; [auto..|by apply WbCache.max_end_ge]. }
  pose proof (WbCache.max_end_le m (WbCache.len c) Hl0 (WbCache.wf_inside _ Hwf)) as Hmle.
  destruct (begin_batch_shows _ _ _ _ _ Hs) as (s1&Hr1&Hs1&Hb1&Hh1&_).
  erewrite am_run by (unfold FsAdapter.on_db, FsAdapter.call; by rewrite Hr1). cbv beta.
  rewrite extents_end_spec by (intros e He; specialize (Hm e He); split; [apply Hm|unfold MAX_FILE in *; lia]).
  rewrite (am_run _ _ _ (WbCache.max_end m) (FsAdapter.set_engine s1 a)) by done.
  destruct (summary_shows (path := path) (Hs1 : live key fs u f s1) Hp) as (s2&sum&Hr2&Hsz&Hs2&Hh2&Hb2).
  erewrite am_run by (unfold FsAdapter.on_db, FsAdapter.call; cbn; by rewrite Hr2). cbv beta. rewrite Hsz, set_engine_twice.
  assert (commit_seq (hdr s2) < 2 ^ 64 - 1) as Hseq2 by (rewrite Hh2, Hh1; done). rewrite Hb1 in Hb2.
  set (f1 := if blen (f_data f) <? WbCache.max_end m then extended f (WbCache.max_end m) else f).
  assert (WbCache.max_end m ≤ blen (f_data f1) ≤ MAX_FILE ∧ f_counter f1 ≤ f_counter f + 1) as [Hf1 Hc1].
  { unfold f1. destruct (Z.ltb_spec (blen (f_data f)) (WbCache.max_end m)); [|lia].
    cbn [f_data f_counter extended]. rewrite blen_ftruncate by apply WbCache.max_end_nonneg. lia. }
  eapply (serves_bind _ _ _ (λ _, batched key fs u f1 (FsAdapter.set_engine s2 a))).
  { unfold f1. destruct (Z.ltb_spec (blen (f_data f)) (WbCache.max_end m)); [|by exists s2].
    eapply serves_weaken; [apply serves_db, (extend_shows Hs2 Hp Hlen Hseq2 Hb2); lia|].
    intros [] a' (s'&->&?&?&?). by exists s'. }
  intros _ a' (s3&->&Hs3&Hb3&Hh3). rewrite set_engine_twice. cbn in Hh3.
  eapply serves_bind; [apply (write_all_serves key fs u path m Hp Hlen f1); cbn; try done; [by rewrite Hh3|lia|lia|]|].
  { intros e He. specialize (Hm e He). lia. }
  intros _ a' (s4&->&Hs4&Hb4&Hh4). rewrite set_engine_twice. cbn in Hh4.
  eapply serves_weaken; [apply (note_write_serves key fs u (write_out f1 m) (FsAdapter.set_engine s4 a)); cbn; try done; by rewrite Hh4, Hh3|].
  intros [] a' (s'&b'&->&?&?). by exists s', b'.
Qed.

(** A flush: the handle shows what it showed, and the engine has it. *)
Lemma flush_serves N g F a :
  mounted N g F a → mount_left a → N < 2 ^ 48 →
  serves (FsAdapter.flush fh a) (λ _ a', ∃ f', f_data f' = F ∧ mounted_at f' (N + 1) g F a' ∧ room (db a')).
Proof using All.
  intros (f&h&Hh&Hpath&Hs&Hd) Hleft HN. pose proof Hd as [Hwf Hb HF Ht Hsol Hc Hw]. unfold FsAdapter.flush.
  rewrite (handle_run _ _ _ Hh), (path_run _ _ _ _ Hpath).
  destruct (WbCache.take_dirty_ranges_spec _ Hwf) as (Hwf'&Hr'&Hl'&Hd'&Htake).
  destruct (WbCache.take_dirty_ranges (FsAdapter.cache h)) as [dr c'] eqn:E. cbn in Htake. subst dr.
  erewrite am_run by done. cbv beta. set (h' := FsAdapter.mkHandle _ c' _ _). set (a1 := FsAdapter.set_handles _ a).
  assert (∀ wgen', FsAdapter.write_gen a ≤ wgen' → (FsAdapter.write_gen a = wgen' → WbCache.ranges (FsAdapter.cache h) = []) →
    f_data (flushed_file f (WbCache.ranges (FsAdapter.cache h))) = F ∧
    handle_shows (N + 1) wgen' (flushed_file f (WbCache.ranges (FsAdapter.cache h))) h' g F) as Hfl.
  { intros wgen' H1' H2'. pose proof (handle_flush _ _ _ _ _ _ _ Hd H1' H2') as Hfl. by rewrite E in Hfl. }
  destruct (WbCache.dirty (FsAdapter.cache h)) eqn:Edirty.
  - eapply serves_weaken; [apply (flush_out_serves f (FsAdapter.cache h) a1 Hwf Hb Hs Hleft); lia|].
    intros [] a' (s'&b'&->&Hs'&Hroom). destruct (Hfl (FsAdapter.write_gen a + 1)) as [HF' Hsh]; [lia|lia|]. 
    eexists. split_and!; [done| |done]. exists h'. split_and!; [apply lookup_insert_eq|done..].
  - destruct (Hfl (FsAdapter.write_gen a)) as [HF' Hsh]; [done|by intros _; apply (WbCache.wf_dirty _ Hwf)|].
    rewrite (WbCache.wf_dirty _ Hwf Edirty), flushed_file_nil in HF', Hsh. 
    exists f. split_and!; [done| |by intros _; apply Hleft]. exists h'. split_and!; [apply lookup_insert_eq|done..].
Qed.

(** A sync also publishes it. *)
Lemma fsync_serves N g F a :
  mounted N g F a → mount_left a → N < 2 ^ 48 →
  serves (FsAdapter.fsync fh a) (λ _ a', ∃ f', f_data f' = F ∧ mounted_at f' (N + 1) g F a' ∧
    suppress_commit (engine (db a')) = false).
Proof using All.
  intros Hm Hleft HN. unfold FsAdapter.fsync, FsAdapter.commit_now.
  eapply serves_bind; [by apply (flush_serves N g F a)|]. intros [] a1 (f'&HF&(h&Hh&Hpath&Hs&Hd)&Hroom).
  eapply serves_bind; [apply serves_db, (commit_batch_shows _ _ _ _ _ Hs Hroom)|].
  intros [] a2 (s'&->&Hs'&Hsup). exists f'. split_and!; [done| |done]. by exists h.
Qed.

(** *** Writing and reading *)

Lemma write_serves N g F a offset data :
  mounted N g F a → 0 ≤ offset → offset + blen data ≤ MAX_FILE → blen data < 2 ^ 32 →
  serves (FsAdapter.write fh offset data a) (λ n a', n = blen data ∧
    mounted (N + 1) (g || (blen F <? offset) && negb (bool_decide (data = []))) (pwrite F offset data) a').
Proof using.
  intros (f&h&Hh&Hpath&Hs&Hd) Ho He Hn. pose proof Hd as [Hwf Hb HF Ht Hsol Hc Hw]. unfold FsAdapter.write.
  rewrite (handle_run _ _ _ Hh). pose proof (WbCache.blen_file (f_data f) _ Hwf) as HlF. rewrite HF in HlF.
  assert (∃ c', WbCache.write (FsAdapter.cache h) offset data = Ok c' ∧ WbCache.len c' ≤ MAX_FILE ∧
    WbCache.tight (f_data f) c' ∧
    ((g || (blen F <? offset) && negb (bool_decide (data = []))) = false → f_short f = [] ∧ WbCache.solid (f_data f) c'))
    as (c'&Hrun&Hm'&Ht'&Hs').
  { destruct (decide (data = [])) as [->|Hne].
    - exists (FsAdapter.cache h). split_and!; [done|lia|done|]. intros [? _]%orb_false_iff. auto.
    - destruct (WbCache.write_spec (FsAdapter.cache h) offset data) as (c'&Hrun&_&_&Hl&_); [done|lia|unfold MAX_FILE in *; lia|done|].
      destruct (WbCache.solid_write (f_data f) _ offset data c' Hwf) as [Ht' Hsol']; [lia|unfold MAX_FILE in *; lia|done..|].
      exists c'. split_and!; [done|lia|done|]. rewrite bool_decide_false, andb_true_r by done.
      intros [Hg Hlt]%orb_false_iff. destruct (Hsol Hg). split; [done|]. apply Hsol'; [lia|done]. }
  unfold FsAdapter.lift at 1. rewrite Hrun. erewrite am_run by done. cbv beta. erewrite am_run by done. cbv beta.
  split; [by rewrite Z.mod_small by (pose proof (blen_nonneg data); lia)|].
  destruct (WbCache.file_write (f_data f) _ offset data c' Hwf) as (Hwf'&Hb'&HF'); [lia|lia|unfold MAX_FILE in *; lia|done|].
  pose proof (WbCache.write_count _ _ _ _ Hrun).
  eexists f, _. split_and!; [apply lookup_insert_eq|done|done|]. split; cbn; try done; [congruence|lia].
Qed.
Lemma index_pread buf x n : 0 ≤ x → 0 ≤ n → x + n ≤ blen buf → index_range buf x (x + n) = Ok (pread buf x n).
Proof using. intros. rewrite index_range_ok by lia. unfold pread. do 3 f_equal. lia. Qed.

Lemma pread_pread B p want q n : 0 ≤ p → 0 ≤ q → 0 ≤ n → q + n ≤ want → pread (pread B p want) q n = pread B (p + q) n.
Proof using.
  intros. unfold pread. rewrite skipn_firstn_comm, take_take, drop_drop. f_equal; [lia|]. f_equal. lia.
Qed.

Lemma index_prefix B p n want :
  0 ≤ p → 0 ≤ n ≤ want → index_range (pread B p want) 0 (Z.min n (blen (pread B p want))) = Ok (pread B p n).
Proof using.
  intros Hp0 Hn. pose proof (blen_nonneg (pread B p want)). rewrite index_range_ok by lia. f_equal.
  replace (pread B p n) with (pread (pread B p want) 0 n) by (rewrite pread_pread by lia; by rewrite Z.add_0_r).
  set (X := pread B p want) in *. unfold pread. rewrite !drop_0.
  destruct (Z.le_gt_cases n (blen X)); [f_equal; lia|]. rewrite !take_ge; [done|unfold blen in *; lia..].
Qed.

Lemma pread_own B p n : pread B p (blen (pread B p n)) = pread B p n.
Proof using.
  unfold pread, blen. rewrite Nat2Z.id, length_take.
  destruct (Nat.min_spec (Z.to_nat n) (length (drop (Z.to_nat p) B))) as [[? ->]|[? ->]]; [done|]. by rewrite !take_ge.
Qed.

Section reading.
Context (f : File) (use_ra : bool) (wgen seq_prev : Z).

(** The engine and the window, when [k] more reads of the base are allowed. *)
Definition readable (k : nat) (x : Store * option FsAdapter.ReadAhead) : Prop :=
  live key fs u f x.1 ∧ RecordCache.tick (record_cache (engine x.1)) + 2 * Z.of_nat k < 2 ^ 64 ∧
  ∀ w, x.2 = Some w → FsAdapter.gen w ≤ wgen ∧ (FsAdapter.gen w = wgen → window_of (f_data f) w).

Lemma readable_down k x : readable (S k) x → readable k x.
Proof using. intros (?&?&?). split_and!; [done|lia|done]. Qed.

Lemma base_reader_delivers k s ra p n :
  f_short f = [] → readable (S k) (s, ra) → 0 ≤ p → 0 ≤ n → p + n < 2 ^ 64 →
  WbCache.delivers (λ _, False) (readable k) (λ b, b = pread (f_data f) p n)
    (FsAdapter.base_reader use_ra path wgen seq_prev p n (s, ra)).
Proof using Hp.
  intros Hsh (Hs&Ht&Hw) Hp0 Hn Hpn. cbn [fst snd] in *.
  assert (∀ want ra', u64 want →
    (∀ w, ra' = Some w → FsAdapter.gen w ≤ wgen ∧ (FsAdapter.gen w = wgen → window_of (f_data f) w)) →
    ∃ s', read_at path p want s = (Ok (pread (f_data f) p want), s') ∧ readable k (s', ra')) as Hread.
  { intros want ra' Hwant Hra'. destruct (read_at_shows (path := path) Hs Hp p want) as (s'&Hrun&Hs'&_&_&Ht'); [width_lia|done|lia|done|].
    exists s'. split; [done|]. split_and!; cbn; [done|lia|done]. }
  unfold FsAdapter.base_reader. destruct use_ra; cbn [negb].
  2: { destruct (Hread n ra) as (s'&->&?); [width_lia|done|]. by split. }
  assert (WbCache.delivers (λ _, False) (readable k) (λ b, b = pread (f_data f) p n)
    (FsAdapter.base_miss path wgen seq_prev p n (s, ra))) as Hmiss.
  { unfold FsAdapter.base_miss. cbv zeta. set (want := if p =? seq_prev then _ else _).
    assert (n ≤ want ∧ u64 want) as [Hle Hu].
    { unfold want. destruct (p =? seq_prev); change FsAdapter.READAHEAD with (4 * 2 ^ 20); split; width_lia. }
    destruct (Hread want (if (p =? seq_prev) && (n <? blen (pread (f_data f) p want))
      then Some (FsAdapter.mkReadAhead wgen p (pread (f_data f) p want)) else None)) as (s'&->&?); [done| |].
    - intros w. destruct (_ && _); [|done]. intros [= <-]. cbn. split; [lia|]. intros _. split; [done|]. cbn. by rewrite pread_own.
    - rewrite index_prefix by lia. by split. }
  destruct ra as [w|]; [|done]. rewrite add64_ok by width_lia. destruct (Hw w eq_refl) as [_ Hwin].
  destruct (Z.eqb_spec (FsAdapter.gen w) wgen) as [Eg|]; [|done]. destruct (Hwin Eg) as [H0w Hdw].
  destruct (Z.leb_spec (FsAdapter.start w) p); [|done]. destruct (Z.leb_spec (p + n) (FsAdapter.start w + blen (FsAdapter.data w))); [|done].
  cbn [andb]. rewrite index_pread by lia. split; [|by split_and!; cbn; [|lia|]].
  rewrite Hdw, pread_pread by lia. f_equal; lia.
Qed.
End reading.

Lemma read_serves N F a offset size :
  mounted N false F a → mount_left a → 0 ≤ offset → 0 ≤ size < 2 ^ 32 → offset + size < 2 ^ 64 →
  serves (FsAdapter.read_through fh offset size a) (λ r a', r = pread F offset size ∧ mounted N false F a').
Proof using Hp.
  intros (f&h&Hh&Hpath&Hs&Hd) (_&Ht&_) Ho Hsz He. pose proof Hd as [Hwf Hb HF Htt Hsol Hc Hw]. destruct (Hsol eq_refl) as [Hsh _].
  unfold FsAdapter.read_through. rewrite (handle_run _ _ _ Hh), (path_run _ _ _ _ Hpath).
  do 3 (erewrite am_run by done; cbv beta).
  assert (readable f (FsAdapter.write_gen a) (Z.to_nat (size + 1)) (db a, FsAdapter.readahead h)) as Hr0 by (split_and!; cbn; [done|lia|done]).
  pose proof (WbCache.read_through_spec (FsAdapter.base_reader (FsAdapter.use_readahead a) path (FsAdapter.write_gen a) (FsAdapter.seq_next h))
    (f_data f) (λ _, False) (readable f (FsAdapter.write_gen a)) (readable_down f _)
    (λ k '(s, ra) p n, base_reader_delivers f _ _ _ k s ra p n Hsh) (FsAdapter.cache h) offset size _ Hwf Hr0
    Ho ltac:(lia) He) as Hrd.
  destruct (WbCache.read_through _ _ _ _ _) as [[r|er|] [s' ra']]; [|by destruct Hrd|done]. destruct Hrd as [Hr Hrb].
  rewrite HF in Hr. subst r. do 2 (erewrite am_run by done; cbv beta). erewrite am_run by done. cbv beta.
  unfold FsAdapter.lift at 1. pose proof (blen_pread F offset size Ho ltac:(lia)). pose proof (blen_nonneg (pread F offset size)).
  rewrite add64_ok by width_lia. erewrite am_run by done. cbv beta. erewrite am_run by done. cbv beta.
  split; [done|]. destruct Hrb as (Hs'&_&Hw'). exists f. eexists. split_and!; [apply lookup_insert_eq|done|done|]. split; done.
Qed.

Lemma size_serves N g F a : mounted N g F a → serves (FsAdapter.fh_size fh a) (λ n a', n = blen F ∧ a' = a).
Proof using.
  intros (f&h&Hh&_&_&[Hwf _ HF _ _ _ _]). unfold FsAdapter.fh_size. rewrite (handle_run _ _ _ Hh). split; [|done].
  by rewrite <-HF, WbCache.blen_file.
Qed.
(** *** Opening *)

(** Looking a name of the root directory up and opening it. *)
Definition open_name (name : bytes) : FsAdapter.AM Z :=
  l ← FsAdapter.lookup InodeTable.ROOT_INO name;
  FsAdapter.open_fh (FsAdapter.l_ino l).

Lemma lift_done {A} (r : res A) a x a' : FsAdapter.lift r a = (Done x, a') → r = Ok x ∧ a' = a.
Proof using. unfold FsAdapter.lift. destruct r; by intros [= <- <-]. Qed.

Lemma attr_done f a attr a' :
  live key fs u f (db a) → FsAdapter.attr_for_path path a = (Done attr, a') →
  FsAttr.size attr = blen (f_data f) ∧ ∃ s', a' = FsAdapter.set_engine s' a ∧ live key fs u f s'.
Proof using Hp.
  intros (I&Fm&com&b0&[C Hf]&Hu&Hrest). unfold FsAdapter.attr_for_path, FsAdapter.read_unit_record_for_path.
  destruct (head_record_spec C _ _ _ _ _ _ path u f Hf Hp Hu) as (s1&x&r&sm&plains&Hhd&Hrd&[rc ->]&Hf1&Hc&Hst).
  intros (r'&a1&Hrun&Hk)%am_done.
  rewrite (am_run _ _ _ x (FsAdapter.set_engine (set_engine (set_resolve_cache rc (engine (db a))) (db a)) a)) in Hrun
    by (unfold FsAdapter.on_db, FsAdapter.call; by rewrite Hhd).
  unfold FsAdapter.on_db_io, FsAdapter.call, asks_res in Hrun. cbn [FsAdapter.engine FsAdapter.set_engine] in Hrun. rewrite Hrd in Hrun.
  cbn in Hrun. injection Hrun as <- <-. set (s1 := set_engine _ (db a)) in *.
  assert (live key fs u f s1) as Hs1. { exists I, Fm, com, b0. split; [by exists C|done]. }
  rewrite (am_run (FsAdapter.asks _) _ _ (FsAdapter.uid a) (FsAdapter.set_engine s1 a)) in Hk by done.
  rewrite (am_run (FsAdapter.asks _) _ _ (FsAdapter.gid a) (FsAdapter.set_engine s1 a)) in Hk by done.
  rewrite Hc, <-(hs_len _ _ _ _ _ _ Hst) in Hk. destruct (ur_meta r) as [msm|].
  2: { apply lift_done in Hk as [Hk ->]. split; [by eapply attr_from_unit_kind_size|]. by exists s1. }
  destruct (_ || _). { apply lift_done in Hk as [Hk ->]. split; [by eapply attr_from_unit_kind_size|]. by exists s1. }
  apply am_done in Hk as (meta&a2&Hm&Hk). apply lift_done in Hk as [Hk ->].
  split; [destruct meta; [by eapply attr_from_unit_size|by eapply attr_from_unit_kind_size]|].
  unfold FsAdapter.on_db_io, FsAdapter.call, read_meta in Hm. cbn [FsAdapter.engine FsAdapter.set_engine] in Hm. rewrite bind_run in Hm.
  destruct (load_head_spec C s1 _ _ _ _ _ path u f "read_meta: no record for path" Hf1 Hp Hu) as (s2&?&?&?&?&Hl&[rc2 ->]&Hf2&_).
  rewrite Hl in Hm. set (s2 := set_engine _ s1) in *.
  assert (live key fs u f s2) as Hs2. { exists I, Fm, com, b0. split; [by exists C|done]. }
  exists s2. split; [|done]. revert Hm. cbv beta iota. destruct (ur_meta _) as [m|]; [|by intros [= _ <-]].
  destruct (_ || _); [by intros [= _ <-]|]. rewrite bind_run. unfold asks_res.
  destruct (open_meta_block _ _ _ _) as [pl|er|]; [|done..]. by intros [= _ <-].
Qed.

Lemma lookup_done f s name uid gid clk secs l a :
  live key fs u f s → path = bstr "/" ++ name →
  FsAdapter.lookup InodeTable.ROOT_INO name (FsAdapter.from_engine s uid gid clk secs) = (Done l, a) →
  FsAdapter.paths a !! FsAdapter.l_ino l = Some path ∧ live key fs u f (db a).
Proof using Hp.
  intros Hs Hpath. unfold FsAdapter.lookup. erewrite path_run by done. cbv beta zeta.
  replace (FsAdapter.join_path (bstr "/") name) with path by done. set (a0 := FsAdapter.from_engine _ _ _ _ _).
  pose proof Hs as (I&Fm&com&b0&[C Hf]&Hu&Hrest).
  pose proof (uuid_for_path_spec _ _ _ _ _ (fw_eng _ _ _ _ _ _ Hf) (fw_paths _ _ _ _ _ _ Hf) path) as Hup.
  cbn [fst with_data fs_names] in Hup. rewrite Hp in Hup. destruct Hup as (rc&Hrun&Hco).
  pose proof (files_recached _ _ _ _ _ _ rc Hf Hco) as Hf1. set (s1 := set_engine _ s) in Hf1.
  assert (live key fs u f s1) as Hs1. { exists I, Fm, com, b0. split; [by exists C|done]. }
  rewrite (am_run _ _ _ u (FsAdapter.set_engine s1 a0))
    by (unfold FsAdapter.on_db, FsAdapter.call, on_engine; cbn [FsAdapter.engine FsAdapter.from_engine a0]; by rewrite Hrun).
  intros (ino&a1&Has&Hk)%am_done.
  assert (FsAdapter.paths a1 !! ino = Some path ∧ db a1 = s1) as [Hp1 Hd1].
  { unfold FsAdapter.assign_ino in Has. apply am_done in Has as (i&a2&Hi&Has).
    unfold FsAdapter.on_inodes in Hi. destruct (InodeTable.get_or_assign u _) as [[?|?|] tbl]; [|done..].
    injection Hi as <- <-. injection Has as <- <-. split; [apply lookup_insert_eq|done]. }
  apply am_done in Hk as (attr&a2&Hat&Hk). injection Hk as <- <-. rewrite <-Hd1 in Hs1.
  by destruct (attr_done _ _ _ _ Hs1 Hat) as (_&s2&->&?).
Qed.

Lemma open_done N f ino a a' :
  FsAdapter.paths a !! ino = Some path → live key fs u f (db a) → f_short f = [] → f_counter f ≤ N → blen (f_data f) ≤ MAX_FILE →
  FsAdapter.open_fh ino a = (Done fh, a') → mounted (N + 1) false (f_data f) a'.
Proof using Hp.
  intros Hpath Hs Hsh Hcnt Hmax. unfold FsAdapter.open_fh. rewrite (path_run _ _ _ _ Hpath).
  intros (attr&a1&Hat&Hk)%am_done. destruct (attr_done _ _ _ _ Hs Hat) as (Hsz&s1&->&Hs1).
  injection Hk as Hfh <-. rewrite Hsz. exists f. eexists. split_and!; [cbn; rewrite Hfh; apply lookup_insert_eq|done|done|].
  pose proof (blen_nonneg (f_data f)). split; cbn; try done.
  - apply WbCache.wf_new. unfold MAX_FILE in *. width_lia.
  - by apply WbCache.file_clean.
  - intros Hlt. cbn in Hlt. lia.
  - intros _. split; [done|]. intros x Hx. cbn in Hx. lia.
  - change (blen []) with 0. lia.
Qed.

(** A file of the engine, opened through the mount. *)
Lemma open_name_done N s name uid gid clk secs a :
  shows key N s fs → Backend.no_grow (bk s) = false → path = bstr "/" ++ name →
  open_name name (FsAdapter.from_engine s uid gid clk secs) = (Done fh, a) →
  ∃ F, fs_data fs !! u = Some F ∧ mounted (N + 1) false F a.
Proof using Hp.
  intros ((Hkey&Hsup&Hlws&Hws)&I&Fm&b0&Hf&HK&HI&HD&Hall) Hgr Hpath Hopen.
  destruct (HK path u Hp) as [f Hu]. destruct (Hall u f Hu) as [Hsh Hcnt].
  assert (with_data fs u (f_data f) = fs) as Hsame.
  { unfold with_data. rewrite insert_id; [by destruct fs|]. by rewrite HD, lookup_fmap, Hu. }
  assert (live key fs u f s) as Hs.
  { unfold live. rewrite Hsame. exists I, Fm, (fs_names fs, I), b0. by split_and!. }
  assert (blen (f_data f) ≤ MAX_FILE) as Hmax.
  { destruct Hf as [C Hf]. destruct (fw_units _ _ _ _ _ _ Hf u f Hu) as (?&_&_&?&?&?&_&_&_&Hst).
    rewrite (hs_len _ _ _ _ _ _ Hst). apply Hst. }
  exists (f_data f). split; [by rewrite HD, lookup_fmap, Hu|].
  apply am_done in Hopen as (l&a1&Hlook&Hopen).
  destruct (lookup_done _ _ _ _ _ _ _ _ _ Hs Hpath Hlook) as [Hp1 Hs1]. by eapply open_done.
Qed.
(** *** Sessions on a handle *)

Inductive HandleReq :=
| HWrite (offset : Z) (data : bytes)
| HRead (offset size : Z)
| HFlush
| HFsync
| HSize
| HWait (nanos : Z).
Inductive HandleAns := ADone | ANum (n : Z) | ABytes (b : bytes).

(** [HWait] lets the clock advance. *)
Definition handle_req (q : HandleReq) : FsAdapter.AM HandleAns :=
  match q with
  | HWrite offset data => n ← FsAdapter.write fh offset data; mret (ANum n)
  | HRead offset size => b ← FsAdapter.read_through fh offset size; mret (ABytes b)
  | HFlush => FsAdapter.flush fh;; mret ADone
  | HFsync => FsAdapter.fsync fh;; mret ADone
  | HSize => n ← FsAdapter.fh_size fh; mret (ANum n)
  | HWait n =>
      FsAdapter.modify (λ a, FsAdapter.mk (db a) (FsAdapter.inodes a) (FsAdapter.paths a) (FsAdapter.handles a)
        (FsAdapter.uid a) (FsAdapter.gid a) (FsAdapter.next_dir_ino a) (FsAdapter.next_fh a) (FsAdapter.write_gen a)
        (FsAdapter.use_readahead a) (FsAdapter.batch a) (FsAdapter.clock a + n) (FsAdapter.unix_secs a));;
      mret ADone
  end.

(** The reference: the contents of the file, and whether a write has begun
    past its end. *)
Definition handle_ref (q : HandleReq) (x : bytes * bool) : HandleAns * (bytes * bool) :=
  let '(F, g) := x in
  match q with
  | HWrite offset data =>
      (ANum (blen data), (pwrite F offset data, g || (blen F <? offset) && negb (bool_decide (data = []))))
  | HRead offset size => (ABytes (pread F offset size), x)
  | HFlush | HFsync | HWait _ => (ADone, x)
  | HSize => (ANum (blen F), x)
  end.

(** Files of at most 256 GiB, requests of at most 4 GiB, and reads of files
    without gaps. *)
Definition handle_req_ok (q : HandleReq) (g : bool) : Prop :=
  match q with
  | HWrite offset data => 0 ≤ offset ∧ offset + blen data ≤ MAX_FILE ∧ blen data < 2 ^ 32
  | HRead offset size => g = false ∧ 0 ≤ offset ∧ 0 ≤ size < 2 ^ 32 ∧ offset + size < 2 ^ 64
  | HWait n => 0 ≤ n
  | _ => True
  end.

(** Requests one after the other, each with its answer, next to the state of
    the reference. *)
Inductive handle_session : bytes * bool → FsAdapter.t → list (HandleReq * HandleAns) → FsAdapter.t → Prop :=
| handle_nil x a : handle_session x a [] a
| handle_cons x a q r a1 l a2 :
    handle_req_ok q x.2 → mount_left a → handle_req q a = (Done r, a1) → handle_session (handle_ref q x).2 a1 l a2 →
    handle_session x a ((q, r) :: l) a2.

Fixpoint handle_refs (l : list HandleReq) (x : bytes * bool) : list HandleAns * (bytes * bool) :=
  match l with
  | [] => ([], x)
  | q :: l' => let a := handle_ref q x in let rest := handle_refs l' a.2 in (a.1 :: rest.1, rest.2)
  end.

Lemma mounted_more N N' g F a : mounted N g F a → N ≤ N' → mounted N' g F a.
Proof using. intros (f&h&?&?&?&[]) HN. exists f, h. split_and!; try done. split; try done. lia. Qed.

Lemma handle_step N F g q a :
  mounted N g F a → mount_left a → N < 2 ^ 48 → handle_req_ok q g →
  serves (handle_req q a) (λ r a', r = (handle_ref q (F, g)).1 ∧
    mounted (N + 1) (handle_ref q (F, g)).2.2 (handle_ref q (F, g)).2.1 a').
Proof using All.
  intros Hm Hleft HN Hok. destruct q as [offset data|offset size| | | |n]; cbn [handle_req handle_ref fst snd].
  - destruct Hok as (?&?&?). eapply serves_bind; [by apply (write_serves N g F)|]. by intros n a' (->&?).
  - destruct Hok as (->&?&?&?). eapply serves_bind; [by apply (read_serves N F)|]. intros b a' (->&?). split; [done|].
    eapply mounted_more; [done|lia].
  - eapply serves_bind; [by apply (flush_serves N g F)|]. intros [] a' (f'&_&?&_). split; [done|by exists f'].
  - eapply serves_bind; [by apply (fsync_serves N g F)|]. intros [] a' (f'&_&?&_). split; [done|by exists f'].
  - eapply serves_bind; [by apply (size_serves N g F)|]. intros n a' (->&->). split; [done|]. eapply mounted_more; [done|lia].
  - split; [done|]. eapply mounted_more; [|apply Z.le_succ_diag_r]. destruct Hm as (f&h&?). by exists f, h.
Qed.

Lemma handle_session_shows x a tr a' :
  handle_session x a tr a' → ∀ N, mounted N x.2 x.1 a → N + blen tr < 2 ^ 48 →
  tr.*2 = (handle_refs tr.*1 x).1 ∧ mounted (N + blen tr) (handle_refs tr.*1 x).2.2 (handle_refs tr.*1 x).2.1 a'.
Proof using All.
  induction 1 as [x a|x a q r a1 l a2 Hok Hleft Hrun _ IH]; intros N Hm Hl; cbn [handle_refs fmap list_fmap fst snd].
  { by rewrite Z.add_0_r. }
  rewrite blen_cons in *. pose proof (blen_nonneg l). destruct x as [F g].
  pose proof (handle_step N F g q a Hm Hleft ltac:(lia) Hok) as Hst. rewrite Hrun in Hst. destruct Hst as [-> Hm1].
  destruct (IH (N + 1)) as [Heq Hm2]; [done|lia|]. split; [by f_equal|].
  by replace (N + (1 + blen l)) with (N + 1 + blen l) by lia.
Qed.
End one_handle.

(** C4. A file that the mount has open is a POSIX file: whatever the session of
    writes, reads, flushes, syncs and pauses on a handle, however the extents
    lie in the write-back cache, in the read-ahead window, in the open batch or
    in the container, every request is answered as [pwrite], [pread] and
    [fstat] would, and the next one is answered too unless the container or
    its commit counter is full. Reads are those before the first write past
    the end of the file. *)
Theorem mount_session_refines key n cipher sl now e tr s name u fh uid gid clk secs a htr a' :
  blen sl = 16 → create_in_memory_with_cipher_key_and_salt n cipher key sl = Ok e →
  session (new_store e now) tr s →
  let fs := (fs_session tr (mkFS ∅ ∅)).2 in
  let path := bstr "/" ++ name in
  fs_names fs !! path = Some u → path_fits path →
  open_name name (FsAdapter.from_engine s uid gid clk secs) = (Done fh, a) →
  let start := (default [] (fs_data fs !! u), false) in
  handle_session fh start a htr a' → blen tr + blen htr + 1 < 2 ^ 48 →
  htr.*2 = (handle_refs htr.*1 start).1 ∧
  ∀ q, handle_req_ok q (handle_refs htr.*1 start).2.2 → mount_left a' →
    serves (handle_req fh q a') (λ r _, r = (handle_ref q (handle_refs htr.*1 start).2).1).
Proof.
  intros Hsl Hcr Hs fs path Hp Hfit Hopen start Hh Hl. destruct (new_shows key n cipher sl e now Hsl Hcr) as [Hsh Hg].
  pose proof (blen_nonneg tr). pose proof (blen_nonneg htr).
  destruct (session_shows key _ _ _ Hs 0 _ Hsh ltac:(lia) ltac:(lia) Hg) as (_&Hsh'&Hg').
  destruct (open_name_done key fs u path fh Hp _ _ _ _ _ _ _ _ Hsh' Hg' eq_refl Hopen) as (F&HF&Hm).
  unfold start in *. rewrite HF in *.
  destruct (handle_session_shows key fs u path fh Hp Hfit _ _ _ _ Hh (0 + blen tr + 1)) as [Heq Hm']; [done|lia|].
  split; [done|]. intros q Hok Hleft. cbn [default from_option id] in *.
  eapply serves_weaken; [exact (handle_step key fs u path fh Hp Hfit _ _ _ q a' Hm' Hleft ltac:(lia) Hok)|].
  intros r a1 [-> _]. by destruct (handle_refs _ _).2.
Qed.

(** C5. What has been synced survives: after any session on a handle and a
    sync, the image of the container opens again, and every path reads as it
    did before the mount, but for the file of the handle (under each of its
    names), which has the contents the session has given it. As for C3, the
    image is that of a container without a write-ahead log of at most 8 GiB,
    whose tail holds no block that the mount takes for an unpublished
    overwrite. *)
Theorem mount_fsync_durable key n cipher sl now e tr s name u fh uid gid clk secs a htr a' a2 k now' :
  blen sl = 16 → create_in_memory_with_cipher_key_and_salt n cipher key sl = Ok e →
  session (new_store e now) tr s →
  let fs := (fs_session tr (mkFS ∅ ∅)).2 in
  let path := bstr "/" ++ name in
  fs_names fs !! path = Some u → path_fits path →
  open_name name (FsAdapter.from_engine s uid gid clk secs) = (Done fh, a) →
  let start := (default [] (fs_data fs !! u), false) in
  handle_session fh start a htr a' → blen tr + blen htr + 1 < 2 ^ 48 → mount_left a' →
  FsAdapter.fsync fh a' = (Done (), a2) →
  wal_region_offset (hdr (db a2)) = 0 → Backend.len (bk (db a2)) ≤ 2 ^ 33 → clean_tail (reopened (db a2) k) = true →
  ∃ s', (image ← snapshot (db a2); open_in_memory_with_key image k key now') = Ok s' ∧
    ∀ p, (read p s').1 = (fs_answer [] (FRead p) (with_data fs u (handle_refs htr.*1 start).2.1)).1.
Proof.
  intros Hsl Hcr Hs fs path Hp Hfit Hopen start Hh Hl Hleft Hsync Hwal Hlen Hcl.
  destruct (new_shows key n cipher sl e now Hsl Hcr) as [Hsh Hg].
  pose proof (blen_nonneg tr). pose proof (blen_nonneg htr).
  destruct (session_shows key _ _ _ Hs 0 _ Hsh ltac:(lia) ltac:(lia) Hg) as (_&Hsh'&Hg').
  destruct (open_name_done key fs u path fh Hp _ _ _ _ _ _ _ _ Hsh' Hg' eq_refl Hopen) as (F&HF&Hm).
  unfold start in *. rewrite HF in *.
  destruct (handle_session_shows key fs u path fh Hp Hfit _ _ _ _ Hh (0 + blen tr + 1)) as [_ Hm']; [done|lia|].
  pose proof (fsync_serves key fs u path fh Hp Hfit _ _ _ _ Hm' Hleft ltac:(lia)) as Hst. rewrite Hsync in Hst.
  destruct Hst as (f&<-&(h&_&_&(I&Fm&com&b0&Hf&_&HK&HI&HD&Hkey&Hlws&Hws&Hgr&Hcom)&_)&Hsup). rewrite (Hcom Hsup) in Hf.
  by eapply image_reads.
Qed.

End mount.

(** ** A concrete mount *)

Section mount_witnesses.
Import Concrete.

#[local] Existing Instances ex_draws ex_ids ex_signatures.
#[local, refine] Instance ex_order : HashOrder := {| hash_iter A m := map_to_list m |}.
Proof. done. Defined.

#[local] Instance handle_req_ok_dec q g : Decision (handle_req_ok q g).
Proof. destruct q; cbn; apply _. Defined.
#[local] Instance mount_left_dec a : Decision (mount_left a).
Proof. unfold mount_left. apply _. Defined.

(** A session on a handle, executed. *)
Fixpoint run_handle (fh : Z) (l : list HandleReq) (x : bytes * bool) (a : FsAdapter.t)
    : option (list (HandleReq * HandleAns) * FsAdapter.t) :=
  match l with
  | [] => Some ([], a)
  | q :: l' =>
      if bool_decide (handle_req_ok q x.2) && bool_decide (mount_left a) then
        match handle_req fh q a with
        | (Done r, a1) => (λ y, ((q, r) :: y.1, y.2)) <$> run_handle fh l' (handle_ref q x).2 a1
        | _ => None
        end
      else None
  end.

Lemma run_handle_sound fh l : ∀ x a tr a',
  run_handle fh l x a = Some (tr, a') → handle_session fh x a tr a' ∧ tr.*1 = l.
Proof.
  induction l as [|q l IH]; intros x a tr a'; cbn [run_handle]; [intros [= <- <-]; split; [constructor|done]|].
  destruct (bool_decide_reflect (handle_req_ok q x.2)); [|done]. destruct (bool_decide_reflect (mount_left a)); [|done]. cbn [andb].
  destruct (handle_req fh q a) as [[r|?|] a1] eqn:Hr; [|done..]. intros ([tr1 a2]&Hrun&[= -> ->])%fmap_Some.
  destruct (IH _ _ _ _ Hrun) as [Hs <-]. split; [|done]. by eapply handle_cons.
Qed.

(** The session [l] on the container [c], then the session [hl] on the file
    [name] of its root directory and a sync: the answers of the mount, when the
    result can be mounted again. *)
Definition mount_session (c : res Engine) (l : list FileReq) (name : bytes) (hl : list HandleReq) : option (list HandleAns) :=
  match c with
  | Ok e =>
      '(tr, s) ← run_session l (new_store e 0);
      let fs := (fs_session tr (mkFS ∅ ∅)).2 in
      u ← fs_names fs !! (bstr "/" ++ name);
      match open_name name (FsAdapter.from_engine s 0 0 0 0) with
      | (Done fh, a) =>
          '(htr, a') ← run_handle fh hl (default [] (fs_data fs !! u), false) a;
          match FsAdapter.fsync fh a' with
          | (Done _, a2) =>
              if bool_decide (mount_left a') && (wal_region_offset (hdr (db a2)) =? 0) && (Backend.len (bk (db a2)) <=? 2 ^ 33) &&
                 clean_tail (reopened (db a2) 0)
              then Some htr.*2 else None
          | _ => None
          end
      | _ => None
      end
  | _ => None
  end.

Lemma mount_session_run c l name hl ans :
  mount_session c l name hl = Some ans →
  ∃ e tr s u fh a htr a' a2, c = Ok e ∧ run_session l (new_store e 0) = Some (tr, s) ∧
    fs_names (fs_session tr (mkFS ∅ ∅)).2 !! (bstr "/" ++ name) = Some u ∧
    open_name name (FsAdapter.from_engine s 0 0 0 0) = (Done fh, a) ∧
    run_handle fh hl (default [] (fs_data (fs_session tr (mkFS ∅ ∅)).2 !! u), false) a = Some (htr, a') ∧ htr.*2 = ans ∧
    mount_left a' ∧ FsAdapter.fsync fh a' = (Done (), a2) ∧
    wal_region_offset (hdr (db a2)) = 0 ∧ Backend.len (bk (db a2)) ≤ 2 ^ 33 ∧ clean_tail (reopened (db a2) 0) = true.
Proof.
  unfold mount_session. destruct c as [e|?|]; [|done..]. intros ([tr s]&Hs&Hc)%bind_Some.
  apply bind_Some in Hc as (u&Hu&Hc). destruct (open_name name _) as [[fh|?|] a] eqn:Ho; [|done..].
  apply bind_Some in Hc as ([htr a']&Hh&Hc). destruct (FsAdapter.fsync fh a') as [[[]|?|] a2] eqn:Hf; [|done..].
  destruct (bool_decide_reflect (mount_left a')); [|done]. cbn [andb] in Hc. destruct (Z.eqb_spec (wal_region_offset (hdr (db a2))) 0); [|done].
  destruct (Z.leb_spec (Backend.len (bk (db a2))) (2 ^ 33)); [|done]. destruct (clean_tail _) eqn:Hcl; [|done].
  injection Hc as <-. by exists e, tr, s, u, fh, a, htr, a', a2.
Qed.

Abbreviation ex_container := (create_in_memory_with_cipher_key_and_salt 0 CIPHER_NONE (zeros 32) (zeros 16)).
Definition ex_handle : list HandleReq :=
  [HWrite 3 (bstr "p me"); HRead 0 16; HWait (2 * 10 ^ 9); HWrite 7 (bstr "!"); HSize].

Lemma ex_mount_runs :
  mount_session ex_container ex_writes (bstr "a") ex_handle =
    Some [ANum 4; ABytes (bstr "help me"); ADone; ANum 1; ANum 8].
Proof. vm_compute. reflexivity. Qed.

Lemma mount_session_refines_witness :
  ∃ e tr s u fh a htr a', ex_container = Ok e ∧ session (new_store e 0) tr s ∧
    open_name (bstr "a") (FsAdapter.from_engine s 0 0 0 0) = (Done fh, a) ∧
    handle_session fh (default [] (fs_data (fs_session tr (mkFS ∅ ∅)).2 !! u), false) a htr a' ∧ htr.*1 = ex_handle ∧
    (handle_refs htr.*1 (default [] (fs_data (fs_session tr (mkFS ∅ ∅)).2 !! u), false)).1 =
      [ANum 4; ABytes (bstr "help me"); ADone; ANum 1; ANum 8].
Proof.
  destruct (mount_session_run _ _ _ _ _ ex_mount_runs) as (e&tr&s&u&fh&a&htr&a'&a2&Hc&Hrun&Hu&Ho&Hh&Hans&_).
  destruct (run_handle_sound _ _ _ _ _ _ Hh) as [Hhs Hl].
  assert (session (new_store e 0) tr s) as Hs by (eapply run_session_sound; exact Hrun).
  exists e, tr, s, u, fh, a, htr, a'. split; [exact Hc|]. split; [exact Hs|]. split; [exact Ho|]. split; [exact Hhs|].
  split; [exact Hl|]. rewrite <-Hans. symmetry.
  refine (proj1 (mount_session_refines (zeros 32) 0 CIPHER_NONE (zeros 16) 0 e tr s (bstr "a") u fh 0 0 0 0 a htr a'
    eq_refl Hc Hs Hu _ Ho Hhs _)); [by_compute|].
  rewrite (run_session_length _ _ _ _ Hrun). unfold blen at 2. rewrite <-(length_fmap fst htr), Hl. by_compute.
Defined.

Lemma mount_fsync_durable_witness :
  ∃ e tr s u fh a htr a' a2 s', ex_container = Ok e ∧ session (new_store e 0) tr s ∧
    open_name (bstr "a") (FsAdapter.from_engine s 0 0 0 0) = (Done fh, a) ∧
    handle_session fh (default [] (fs_data (fs_session tr (mkFS ∅ ∅)).2 !! u), false) a htr a' ∧ htr.*1 = ex_handle ∧
    FsAdapter.fsync fh a' = (Done (), a2) ∧
    (image ← snapshot (db a2); open_in_memory_with_key image 0 (zeros 32) 5) = Ok s' ∧
    (read ex_path s').1 = (fs_answer [] (FRead ex_path) (with_data (fs_session tr (mkFS ∅ ∅)).2 u
      (handle_refs htr.*1 (default [] (fs_data (fs_session tr (mkFS ∅ ∅)).2 !! u), false)).2.1)).1.
Proof.
  destruct (mount_session_run _ _ _ _ _ ex_mount_runs) as (e&tr&s&u&fh&a&htr&a'&a2&Hc&Hrun&Hu&Ho&Hh&_&Hleft&Hsync&Hwal&Hlen&Hcl).
  destruct (run_handle_sound _ _ _ _ _ _ Hh) as [Hhs Hl].
  assert (session (new_store e 0) tr s) as Hs by (eapply run_session_sound; exact Hrun).
  assert (blen tr + blen htr + 1 < 2 ^ 48) as Hlt.
  { rewrite (run_session_length _ _ _ _ Hrun). unfold blen at 2. rewrite <-(length_fmap fst htr), Hl. by_compute. }
  destruct (mount_fsync_durable (zeros 32) 0 CIPHER_NONE (zeros 16) 0 e tr s (bstr "a") u fh 0 0 0 0 a htr a' a2 0 5
    eq_refl Hc Hs Hu ltac:(by_compute) Ho Hhs Hlt Hleft Hsync Hwal Hlen Hcl) as (s'&Hopen&Hread).
  exists e, tr, s, u, fh, a, htr, a', a2, s'. split; [exact Hc|]. split; [exact Hs|]. split; [exact Ho|]. split; [exact Hhs|].
  split; [exact Hl|]. split; [exact Hsync|]. split; [exact Hopen|]. apply Hread.
Defined.

End mount_witnesses.
